(* ===== verification/_CoqProject ===== *)
-Q . S2P
Prelude.v
Bytes.v
Names.v
Attributes.v
Metadata.v
IndexCodec.v
Chunker.v
Checkpoint.v
Directory.v
Solid.v
IOErrors.v
Inputs.v
SolidPlan.v
Crypto.v
Codec.v
Frames.v
Checksum.v
Writer.v
Signatures.v
Recipients.v
Extractor.v
OutputTree.v
OutputProofs.v
ExtractorLemmas.v
ExtractorProofs.v
RoundTrip.v
Incremental.v
IncrementalProofs.v
Listing.v
Packs.v
Restore.v
RestoreFiles.v
RestoreProofs.v
RestoreSafety.v
Archiver.v
ListingLemmas.v
Sessions.v
Updates.v
SessionLemmas.v
SessionWriter.v
SessionProofs.v
SessionRefine.v
StoreFile.v
UpdateProofs.v
RestoreComplete.v
RestoreClaims.v
ArchiverProofs.v
SignedArchives.v
ListingProofs.v
Float64.v
Storage.v
LocalStore.v
RangeReader.v
S3Upload.v
S3Proofs.v
S3Writer.v
CloudStores.v
Credentials.v
CredentialProofs.v
SizeFlag.v
Xattrs.v
KeyGen.v
Volume.v
VolumeProofs.v
Pipeline.v
Pipelines.v
CommandLine.v
CommandProofs.v
VerifyCommand.v
VerifyProofs.v
StreamCommand.v
ArchiveCommand.v
ListCommand.v
BufferedRand.v
Progress.v
IncrementalCommand.v
