(* ===== verification/Prelude.v ===== *)
(** * sarc: a verification development (root)

    sarc is an archiver written in Go. It packs files into an encrypted, authenticated
    archive, extracts and lists such archives, splits them into volumes, signs them, and
    keeps incremental archives that deduplicate content in chunks. This development models
    the library behind the command ([src/archive], [src/crypto], [src/io]), the storage
    backends ([src/storage]) and the core of the command itself ([src/cmd/sarc]) in Rocq. It
    proves that what the program writes is what it restores, that what it restores was
    verified, that uploads are atomic, and that no input makes it leave its output
    directory, run forever or (some defects apart) panic.

    ** Parts of the program and the files that model them

    Formats ([src/archive]):
    - [Bytes]: encoding/binary (little endian, varints). [Names]: the name rule
      (names.go). [Attributes]: attributes.go. [Metadata]: the plaintext of metadata
      blocks (metadata.go, format.go). [IndexCodec]: the decoder monad with Go's panics,
      and session indexes (incremental.go). [Checkpoint]: checkpoints (incremental.go).
      [Directory]: directory records and locator (directory.go). [Solid]: solid streams
      (solid.go). [Checksum]: the footer checksum with its masked header (checksum.go).
      [Chunker]: content-defined chunking (chunker.go).
    - [Frames]: key schedule, sealing, framing, padding, trailers (keys.go, metadata.go,
      frames.go). [Codec]: compression (codec.go, io/compression.go). [Writer]: the archive
      writer (writer.go). [Volume], [VolumeProofs]: split archives (volume.go,
      io/volume.go).

    Keys ([src/crypto]):
    - [Crypto]: block encryption over the primitives. [Recipients]: content-key wrapping
      by password, key file and age, and the recipient block (cek.go, keyfile.go,
      archive/recipients.go). [Signatures]: SSH signatures, signing and streaming
      verification (signature.go of crypto, archive and io). [SignedArchives]: written
      archives verify. [BufferedRand]: the random source of an entry (bufferedrand.go).

    Archiving and extraction ([src/io]):
    - [IOErrors]: fatal and recoverable errors. [Inputs]: the input walker (inputs.go).
      [Xattrs]: reading extended attributes that may change meanwhile (xattr_unix.go).
      [SolidPlan]: planning and packing of solid groups (solid.go). [Archiver]: the
      concurrent and the streaming archiver (concurrent.go, streaming.go, special.go,
      directory.go), with [ArchiverProofs]. [Extractor]: headers, entries, groups,
      skipping (extractor.go, solid.go), with [ExtractorLemmas], [ExtractorProofs] and
      [RoundTrip]. [OutputTree], [OutputProofs]: every file-system call of an extraction
      (output_tree.go, verified_file.go).
    - [Listing]: listing by scanning and from the directory (extractor.go, directory.go,
      solid.go, incremental.go), with [ListingLemmas] and [ListingProofs].
    - [Pipeline], [Pipelines]: goroutines and channels of the encryption and decryption
      pipelines as step relations (pipeline.go, mmap_pipeline.go, decrypt_pipeline.go).

    Incremental archives ([src/io]):
    - [Incremental], [IncrementalProofs]: loading (incremental.go). [Packs]: the pack
      writer and the chunk router. [Sessions], [Updates]: writing sessions, creating and
      updating archive files (incremental_write.go). [Restore]: restoring
      (incremental_restore.go).
    - [SessionLemmas], [SessionWriter], [SessionProofs], [SessionRefine], [StoreFile],
      [UpdateProofs]: the refinement of an abstract snapshot. [RestoreFiles],
      [RestoreProofs], [RestoreSafety], [RestoreComplete], [RestoreClaims]: what a restore
      guarantees.

    Storage ([src/storage]):
    - [Storage]: locations, the registry, and the writer interface as the classes
      [StorageWriter] and [StorageWriterLaws] (storage.go). [RangeReader]: readers that
      reopen an object where a connection broke (reader.go). [LocalStore]: local files
      (local.go), an instance of the interface. [S3Upload]: the multipart writer as a step
      relation over the client, the upload goroutines, the context and the service (s3.go),
      with [S3Proofs]; [S3Writer] shows it an instance of the interface. [CloudStores]: the
      Azure and Google backends, two more instances (azblob.go, gcs.go).

    The command ([src/cmd/sarc]):
    - [Credentials], [CredentialProofs]: recipients, identities and key files, the flags,
      and the options of the archivers and the extractor (credentials.go, identities.go,
      io/options.go). [CommandLine], [CommandProofs]: inputs and outputs, the checks of the
      archive command and how it ends (archive.go, stdio.go, remote.go). [VerifyCommand],
      [VerifyProofs]: signers and the verify command (verify.go, signing.go, sign.go).
      [StreamCommand]: the loop of the archive command with one worker (archive.go).
    - [Float64]: Go's float64 where the program uses it. [SizeFlag]: sizes on the command
      line and in messages (size.go, io/progress.go). [KeyGen]: generating keys (keygen.go,
      signing.go). [ListCommand]: the lines of a listing (list.go). [Progress]: the console
      tracker (io/progress.go).
    - [ArchiveCommand]: the archive command from its flags to the archive, and the end of
      extract (archive.go, extract.go, io/options.go). [IncrementalCommand]: the
      incremental command, run after run (incremental.go).

    ** How the code is rendered

    - Byte slices and strings are [bytes], lists of bytes; a w-bit integer is a [Z] with
      its wrap-around written out ([u32], [u64], [i64]). A reader is either the unread
      bytes, passed along by the [rd] monad, or, where the split into reads matters, the
      pieces each read returns and how the stream ends.
    - Errors are values: [result] for the format layer, [iores] with the error's code and
      severity for the io layer. [None] is a panic, and [run] distinguishes a result, a
      panic and a loop that does not end.
    - Code outside the repository is a class with the laws the code relies on: [Crypto]
      (AES-GCM, HMAC, HKDF, PBKDF2; opening undoes sealing, lengths), [Zstd], [Sha256]
      (streaming and saved states), [Chacha20], [Age], [AgeKeys] (parsers of keys), [Ssh], and [Root],
      the file system below the output directory, of which [FileRoot] and [Working] say
      what calls do to contents and when they succeed. Each class has a small executable instance used by the
      witnesses. Collision resistance is nowhere a law: where equal keyed IDs must mean
      equal chunks, this is a hypothesis on the set of chunks in question.
    - Randomness is an explicit source ([rng], a stream and a position), the clock an
      argument. Concurrency is a step relation where it is observable; a parallel run
      whose workers are independent is the function of their results.
    - Loops that are not structural take fuel, and a theorem shows the fuel given by the
      model is enough on every input (bytes left, chunk sizes, offsets that decrease), so
      no theorem holds because a run was cut off.

    ** What is shown

    - The whole path: when the archive command succeeds, a reader whose flags repeat one
      credential extracts what was found under the arguments, and the extract command
      succeeds; the incremental command, run any number of times with the same flags,
      refines the synchronisation of a snapshot.
    - Round trips: what either archiver writes, with any mix of files, solid groups,
      special entries, compression and a directory, the extractor restores; volumes join
      to what was split; a backup restores to the snapshot it holds.
    - Refinement: a run of the incremental archiver is an update of an abstract snapshot
      (a map from names to attributes and content), and a failed run leaves the file as it
      was.
    - Safety over arbitrary bytes: nothing is published that was not verified, no call
      leaves the output directory, accepted indexes and names are well formed, loading an
      incremental archive ends and yields a whole state.
    - Pipelines: every schedule gives what the sequential code gives; one pipeline can
      hang when a write fails.
    - Storage: an object read through breaking connections is the object; an upload under
      any interleaving of requests and failures leaves the old object or all that was
      written, within the limits of the service, and no call on it blocks for good; the
      archive command over any backend that keeps the interface leaves a whole archive or
      none.
    - Commands: the flags an archive was created with open it, a password given with key
      files does not open it alone, key files are read exactly, accepted flags are usable,
      and verify passes only for a given signer of the recomputed checksum; with one
      worker, a file that fails while it is read damages the archive. Generating keys never
      overwrites a file; whole sizes are parsed exactly, and a split size below one byte is
      accepted but ignored; the mode column of a listing tells kind and mode.
    - Extended attributes that hold still are read exactly; one that is empty and then grows
      makes the archiver panic. The buffered random source reads one sequence, however it is
      split into reads; progress counters do not depend on the interleaving of workers.
    - Listings from the directory and by decrypting every entry agree.
    - Boundaries: codecs are canonical or bounded, damaged entries never misalign the
      next, chunking is deterministic and local, routing of packs is exact.

    Bounds: archive files are shorter than 2^62 bytes where offsets are added (Go's int64
    arithmetic is exact there), plaintexts shorter than 2^63 bytes.

    ** Not modelled

    Registration of the commands, signals and terminal prompts (cmd/sarc/main.go, terminal.go),
    memory mapping, preallocation and platform-specific file information: calls of system
    or third-party code with no logic of the program's own, whose results are arguments of
    the models. The last line of the progress output, which prints elapsed time. PEM
    armouring of signatures, which is the library's. Of cek.go, the wrapper that remembers
    why an identity failed: it observes calls that age makes, so the outcome of decrypting,
    with whether an identity failed, is an argument. Closing errors of volume files. The
    storage test suite, scripts, examples and the test plugin are not part of the program. *)

From stdpp Require Export base list gmap numbers sorting.
From Stdlib Require Export ZArith Lia.
From Stdlib Require Strings.Byte.
From stdpp Require Export strings.

#[global] Open Scope Z_scope.
#[global] Open Scope list_scope.

(** ** Bytes *)

Abbreviation byte := Corelib.Init.Byte.byte.
Abbreviation bytes := (list Corelib.Init.Byte.byte).

(** The value of a byte, and Go's conversion [byte(z)], which keeps the low eight bits. *)
Definition bz (b : byte) : Z := Z.of_N (Byte.to_N b).

Definition zb (z : Z) : byte :=
  match Byte.of_N (Z.to_N (z mod 256)) with Some b => b | None => Byte.x00 end.

Lemma bz_range b : 0 <= bz b < 256.
Proof. unfold bz. pose proof (Byte.to_N_bounded b). lia. Qed.

Lemma bz_zb z : bz (zb z) = z mod 256.
Proof.
  unfold bz, zb. pose proof (Z.mod_pos_bound z 256 ltac:(lia)).
  destruct (Byte.of_N _) as [b|] eqn:E.
  - apply Byte.to_of_N in E. rewrite E. lia.
  - apply Byte.of_N_None_iff in E. lia.
Qed.

Lemma bz_inj a b : bz a = bz b -> a = b.
Proof.
  unfold bz. intros H. apply N2Z.inj in H.
  pose proof (Byte.of_to_N a) as Ha. pose proof (Byte.of_to_N b) as Hb. congruence.
Qed.

Lemma zb_bz b : zb (bz b) = b.
Proof. apply bz_inj. rewrite bz_zb. apply Z.mod_small, bz_range. Qed.

#[global] Instance byte_eq_dec : EqDecision byte := Byte.byte_eq_dec.

#[global] Program Instance byte_countable : Countable byte :=
  inj_countable Byte.to_N Byte.of_N Byte.of_to_N.

(** Byte strings written as literals: Go strings are byte sequences. *)
Definition str (s : string) : bytes := String.list_byte_of_string s.

Definition bytes_eqb (a b : bytes) : bool := bool_decide (a = b).

Lemma bytes_eqb_true a b : bytes_eqb a b = true <-> a = b.
Proof. unfold bytes_eqb. apply bool_decide_eq_true. Qed.

Lemma bytes_eqb_refl a : bytes_eqb a a = true.
Proof. by apply bytes_eqb_true. Qed.

(** ** Lengths and slices

    Go's [len], [s[:n]] and [s[n:]] with indices kept in Z. Every use is guarded the way
    the source guards it; a slice expression whose bounds are not guarded is modelled with
    {!go_slice}, which panics. *)
Definition len {A} (l : list A) : Z := Z.of_nat (length l).
Definition ztake {A} (n : Z) (l : list A) : list A := take (Z.to_nat n) l.
Definition zdrop {A} (n : Z) (l : list A) : list A := drop (Z.to_nat n) l.

(** [s[:n], s[n:]], or [None] when the slice bounds are out of range (a Go panic). *)
Definition go_slice {A} (n : Z) (l : list A) : option (list A * list A) :=
  if (0 <=? n) && (n <=? len l) then Some (ztake n l, zdrop n l) else None.

Lemma len_nonneg {A} (l : list A) : 0 <= len l.
Proof. unfold len. lia. Qed.

Lemma len_nil {A} : len (@nil A) = 0.
Proof. done. Qed.

Lemma len_cons {A} (x : A) l : len (x :: l) = 1 + len l.
Proof. unfold len. simpl length. lia. Qed.

Lemma len_app {A} (a b : list A) : len (a ++ b) = len a + len b.
Proof. unfold len. rewrite length_app. lia. Qed.

Lemma len_rev {A} (a : list A) : len (rev a) = len a.
Proof. unfold len. by rewrite length_rev. Qed.

Lemma len_map {A B} (f : A -> B) l : len (map f l) = len l.
Proof. unfold len. by rewrite length_map. Qed.

Lemma len_fmap {A B} (f : A -> B) l : len (f <$> l) = len l.
Proof. unfold len. by rewrite length_fmap. Qed.

Lemma len_replicate {A} n (x : A) : len (replicate n x) = Z.of_nat n.
Proof. unfold len. by rewrite length_replicate. Qed.

Lemma len_0_nil {A} (l : list A) : len l = 0 -> l = [].
Proof. unfold len. destruct l; [done|]. simpl length. lia. Qed.

Lemma len_ztake {A} n (l : list A) : 0 <= n <= len l -> len (ztake n l) = n.
Proof. unfold len, ztake. intros. rewrite length_take. lia. Qed.

Lemma len_ztake_le {A} n (l : list A) : len (ztake n l) <= len l.
Proof. unfold len, ztake. rewrite length_take. lia. Qed.

Lemma len_ztake_max {A} n (l : list A) : 0 <= n -> len (ztake n l) <= n.
Proof. unfold len, ztake. intros. rewrite length_take. lia. Qed.

Lemma len_zdrop {A} n (l : list A) : 0 <= n <= len l -> len (zdrop n l) = len l - n.
Proof. unfold len, zdrop. intros. rewrite length_drop. lia. Qed.

Lemma ztake_zdrop {A} n (l : list A) : ztake n l ++ zdrop n l = l.
Proof. apply take_drop. Qed.

Lemma ztake_app {A} n (a b : list A) : n = len a -> ztake n (a ++ b) = a.
Proof. intros ->. unfold ztake, len. rewrite Nat2Z.id. by apply take_app_length. Qed.

Lemma zdrop_app {A} n (a b : list A) : n = len a -> zdrop n (a ++ b) = b.
Proof. intros ->. unfold zdrop, len. rewrite Nat2Z.id. by apply drop_app_length. Qed.

Lemma ztake_all {A} n (a : list A) : n = len a -> ztake n a = a.
Proof. intros ->. unfold ztake, len. rewrite Nat2Z.id. by apply take_ge. Qed.

Lemma zdrop_all {A} n (a : list A) : n = len a -> zdrop n a = [].
Proof. intros ->. unfold zdrop, len. rewrite Nat2Z.id. by apply drop_ge. Qed.

Lemma ztake_0 {A} (l : list A) : ztake 0 l = [].
Proof. done. Qed.

Lemma zdrop_0 {A} (l : list A) : zdrop 0 l = l.
Proof. done. Qed.

Lemma ztake_app_ge {A} n (a b : list A) :
  len a <= n -> ztake n (a ++ b) = a ++ ztake (n - len a) b.
Proof.
  unfold ztake, len. intros. rewrite take_app_ge by lia. do 2 f_equal. lia.
Qed.

Lemma ztake_app_le {A} n (a b : list A) : n <= len a -> ztake n (a ++ b) = ztake n a.
Proof. unfold ztake, len. intros. by rewrite take_app_le by lia. Qed.

Lemma zdrop_app_ge {A} n (a b : list A) :
  len a <= n -> zdrop n (a ++ b) = zdrop (n - len a) b.
Proof. unfold zdrop, len. intros. rewrite drop_app_ge by lia. f_equal. lia. Qed.

Lemma zdrop_app_le {A} n (a b : list A) : n <= len a -> zdrop n (a ++ b) = zdrop n a ++ b.
Proof. unfold zdrop, len. intros. by rewrite drop_app_le by lia. Qed.

Lemma zdrop_zdrop {A} m n (l : list A) :
  0 <= m -> 0 <= n -> zdrop m (zdrop n l) = zdrop (n + m) l.
Proof. intros. unfold zdrop. rewrite drop_drop. f_equal. lia. Qed.

Lemma zdrop_app_add {A} m n (a b : list A) :
  n = len a -> 0 <= m -> zdrop (n + m) (a ++ b) = zdrop m b.
Proof. intros -> ?. rewrite zdrop_app_ge by (pose proof (len_nonneg a); lia). f_equal. lia. Qed.

Lemma go_slice_app {A} n (a b : list A) : n = len a -> go_slice n (a ++ b) = Some (a, b).
Proof.
  intros ->. unfold go_slice. rewrite len_app.
  pose proof (len_nonneg a). pose proof (len_nonneg b).
  rewrite (proj2 (Z.leb_le 0 (len a))), (proj2 (Z.leb_le (len a) (len a + len b))) by lia.
  simpl. by rewrite ztake_app, zdrop_app.
Qed.

Lemma go_slice_Some {A} n (l a b : list A) :
  go_slice n l = Some (a, b) -> 0 <= n <= len l /\ len a = n /\ l = a ++ b.
Proof.
  unfold go_slice. destruct (_ && _) eqn:E; [|done].
  apply andb_true_iff in E as [?%Z.leb_le ?%Z.leb_le]. intros [= <- <-].
  rewrite len_ztake, ztake_zdrop by lia. done.
Qed.

Create Rewrite HintDb lens.
#[export] Hint Rewrite @len_nil @len_cons @len_app @len_rev @len_map @len_fmap @len_replicate : lens.

(** ** Small tactics *)

(** Normalise lengths and decide a linear goal over them. *)
Ltac len_lia :=
  autorewrite with lens in *;
  repeat match goal with
  | |- context [len ?l] => lazymatch goal with
      | _ : 0 <= len l |- _ => fail | _ => pose proof (len_nonneg l) end
  | _ : context [len ?l] |- _ => lazymatch goal with
      | _ : 0 <= len l |- _ => fail | _ => pose proof (len_nonneg l) end
  end; lia.

(** Turn boolean comparisons in hypotheses into propositions. *)
Ltac b2p :=
  repeat match goal with
  | H : (_ && _) = true |- _ => apply andb_true_iff in H as [? ?]
  | H : (_ || _) = false |- _ => apply orb_false_iff in H as [? ?]
  | H : negb _ = true |- _ => apply negb_true_iff in H
  | H : negb _ = false |- _ => apply negb_false_iff in H
  | H : (_ <? _) = true |- _ => apply Z.ltb_lt in H
  | H : (_ <? _) = false |- _ => apply Z.ltb_ge in H
  | H : (_ <=? _) = true |- _ => apply Z.leb_le in H
  | H : (_ <=? _) = false |- _ => apply Z.leb_gt in H
  | H : (_ >? _) = true |- _ => rewrite Z.gtb_ltb in H
  | H : (_ >? _) = false |- _ => rewrite Z.gtb_ltb in H
  | H : (_ =? _) = true |- _ => apply Z.eqb_eq in H
  | H : (_ =? _) = false |- _ => apply Z.eqb_neq in H
  | H : bytes_eqb _ _ = true |- _ => apply bytes_eqb_true in H
  end.

(** Resolve an [if] whose boolean condition is decided by arithmetic on lengths. *)
Ltac if_true := rewrite (proj2 (Z.ltb_lt _ _)) by len_lia.
Ltac ltb_false := match goal with |- context [?a <? ?b] =>
  rewrite (proj2 (Z.ltb_ge a b)) by len_lia end.
Ltac ltb_true := match goal with |- context [?a <? ?b] =>
  rewrite (proj2 (Z.ltb_lt a b)) by len_lia end.
Ltac leb_true := match goal with |- context [?a <=? ?b] =>
  rewrite (proj2 (Z.leb_le a b)) by len_lia end.
Ltac leb_false := match goal with |- context [?a <=? ?b] =>
  rewrite (proj2 (Z.leb_gt a b)) by len_lia end.
Ltac eqb_true := match goal with |- context [?a =? ?b] =>
  rewrite (proj2 (Z.eqb_eq a b)) by len_lia end.
Ltac eqb_false := match goal with |- context [?a =? ?b] =>
  rewrite (proj2 (Z.eqb_neq a b)) by len_lia end.
Ltac zdecide := first [ltb_false | ltb_true | leb_true | leb_false | eqb_true | eqb_false].

(** ** Errors

    The archive package wraps each failure in a sentinel error ([%w]) with a message. *)
Inductive sentinel :=
  | ErrMalformedAttributes
  | ErrMalformedSolidStream
  | ErrMalformedIndex
  | ErrMalformedDirectory
  | ErrMalformedCheckpoint
  | ErrMalformedVolumeHeader
  | ErrMalformedRecipientBlock
  | ErrNoMatchingCredential
  | ErrWrongCredential
  | ErrIdentity
  | ErrUnsupportedVersion
  | ErrKeyFileSize
  | ErrBadSignature
  | ErrBlockTooLarge
  | ErrInvalidCompressionLevel
  | ErrOther.

#[global] Instance sentinel_eq_dec : EqDecision sentinel.
Proof. solve_decision. Defined.

Record error := mk_error { wraps : sentinel; what : string }.

(** A Go call that returns a value or an error. *)
Inductive result (A : Type) := Ok (a : A) | Err (e : error).
Arguments Ok {A} a.
Arguments Err {A} e.

Lemma Ok_inj {A} (a b : A) : Ok a = Ok b -> a = b.
Proof. congruence. Qed.

(** [H : Ok x = Ok y] as an equation, without normalising [x] the way [injection] does. *)
Ltac inv_ok H := apply Ok_inj in H; try subst.

Definition errorf {A} (s : sentinel) (msg : string) : result A := Err (mk_error s msg).

Declare Scope go_scope.
Delimit Scope go_scope with go.

(** [let? x := e in k]: return early with the error of [e]. *)
Notation "'let?' x ':=' e 'in' k" :=
  (match e with Ok x => k | Err err => Err err end)
  (at level 10, x name, e at level 100, k at level 200) : go_scope.
Notation "'let?' ' x ':=' e 'in' k" :=
  (match e with Ok x => k | Err err => Err err end)
  (at level 10, x strict pattern, e at level 100, k at level 200) : go_scope.

Definition is_ok {A} (r : result A) : bool := match r with Ok _ => true | Err _ => false end.

(** ** Fixed-width integers *)

Definition u8 (z : Z) : Z := z mod 2 ^ 8.
Definition u16 (z : Z) : Z := z mod 2 ^ 16.
Definition u32 (z : Z) : Z := z mod 2 ^ 32.
Definition u64 (z : Z) : Z := z mod 2 ^ 64.

(** [int64(x)] of an unsigned 64-bit value, and of any Z reduced to 64 bits. *)
Definition i64 (z : Z) : Z := (z + 2 ^ 63) mod 2 ^ 64 - 2 ^ 63.

Lemma i64_u64 z : - 2 ^ 63 <= z < 2 ^ 63 -> i64 (u64 z) = z.
Proof.
  intros. unfold i64, u64. rewrite Zplus_mod_idemp_l.
  rewrite Z.mod_small by lia. lia.
Qed.

Lemma u64_i64 z : 0 <= z < 2 ^ 64 -> u64 (i64 z) = z.
Proof.
  intros. unfold i64, u64. rewrite Zminus_mod_idemp_l.
  replace (z + 2 ^ 63 - 2 ^ 63) with z by lia. by apply Z.mod_small.
Qed.

Lemma i64_range z : - 2 ^ 63 <= i64 z < 2 ^ 63.
Proof. unfold i64. pose proof (Z.mod_pos_bound (z + 2 ^ 63) (2 ^ 64)). lia. Qed.

Lemma u64_small z : 0 <= z < 2 ^ 64 -> u64 z = z.
Proof. apply Z.mod_small. Qed.

Lemma i64_small z : - 2 ^ 63 <= z < 2 ^ 63 -> i64 z = z.
Proof. intros. unfold i64. rewrite Z.mod_small by lia. lia. Qed.
