(* ===== verification/Bytes.v ===== *)
(** * encoding/binary

    The parts of Go's [encoding/binary] the archive format is built from: fixed-width
    little- and big-endian integers ([AppendUint16/32/64], [Uint16/32/64]) and the
    variable-length [AppendUvarint]/[Uvarint] and [AppendVarint]/[Varint], with the
    inverse, length and range lemmas that the component files compose. *)

From S2P Require Import Prelude.

(** ** Fixed width *)

(** [le_bytes n z]: the [n] little-endian bytes of [z] (so [z] modulo [256^n]). *)
Fixpoint le_bytes (n : nat) (z : Z) : bytes :=
  match n with
  | O => []
  | S n => zb z :: le_bytes n (z / 256)
  end.

Fixpoint le_Z (l : bytes) : Z :=
  match l with
  | [] => 0
  | b :: l => bz b + 256 * le_Z l
  end.

Definition be_bytes (n : nat) (z : Z) : bytes := rev (le_bytes n z).
Definition be_Z (l : bytes) : Z := le_Z (rev l).

(** The reads [binary.LittleEndian.Uint16(b)] and its wider forms look at the leading
    bytes of [b] only. *)
Definition le_u16 (b : bytes) : Z := le_Z (ztake 2 b).
Definition le_u32 (b : bytes) : Z := le_Z (ztake 4 b).
Definition le_u64 (b : bytes) : Z := le_Z (ztake 8 b).
Definition be_u32 (b : bytes) : Z := be_Z (ztake 4 b).

Lemma length_le_bytes n z : length (le_bytes n z) = n.
Proof. revert z. induction n; intros; simpl; auto. Qed.

Lemma len_le_bytes n z : len (le_bytes n z) = Z.of_nat n.
Proof. unfold len. by rewrite length_le_bytes. Qed.

Lemma len_be_bytes n z : len (be_bytes n z) = Z.of_nat n.
Proof. unfold be_bytes. by rewrite len_rev, len_le_bytes. Qed.

#[export] Hint Rewrite len_le_bytes len_be_bytes : lens.

Lemma le_bytes_1 z : le_bytes 1 z = [zb z].
Proof. done. Qed.

Lemma pow256_succ n : 256 ^ Z.of_nat (S n) = 256 * 256 ^ Z.of_nat n.
Proof. rewrite Nat2Z.inj_succ, Z.pow_succ_r by lia. done. Qed.

Lemma le_Z_le_bytes n z : le_Z (le_bytes n z) = z mod 256 ^ Z.of_nat n.
Proof.
  revert z. induction n as [|n IH]; intros z.
  - simpl. by rewrite Z.mod_1_r.
  - cbn [le_bytes le_Z]. rewrite IH, bz_zb, pow256_succ, Z.rem_mul_r by lia. done.
Qed.

Lemma le_Z_range l : 0 <= le_Z l < 256 ^ len l.
Proof.
  induction l as [|b l IH]; [done|].
  cbn [le_Z]. rewrite len_cons, Z.pow_add_r by (pose proof (len_nonneg l); lia).
  pose proof (bz_range b). lia.
Qed.

Lemma le_bytes_le_Z l : le_bytes (length l) (le_Z l) = l.
Proof.
  induction l as [|b l IH]; [done|].
  cbn [length le_bytes le_Z]. pose proof (bz_range b) as Hb.
  replace ((bz b + 256 * le_Z l) / 256) with (le_Z l)
    by (rewrite Z.mul_comm, Z.div_add, Z.div_small by lia; lia).
  rewrite IH. f_equal. apply bz_inj. rewrite bz_zb.
  rewrite Z.mul_comm, Z.mod_add, Z.mod_small by lia. done.
Qed.

Lemma le_bytes_le_Z_len n l : len l = Z.of_nat n -> le_bytes n (le_Z l) = l.
Proof. unfold len. intros H. replace n with (length l) by lia. apply le_bytes_le_Z. Qed.

(** Round trips in the form the parsers use them: an encoded field, then the rest. *)
Lemma le_u16_app z r : 0 <= z < 2 ^ 16 -> le_u16 (le_bytes 2 z ++ r) = z.
Proof.
  intros. unfold le_u16. rewrite ztake_app by (by rewrite len_le_bytes).
  rewrite le_Z_le_bytes. apply Z.mod_small. lia.
Qed.

Lemma le_u32_app z r : 0 <= z < 2 ^ 32 -> le_u32 (le_bytes 4 z ++ r) = z.
Proof.
  intros. unfold le_u32. rewrite ztake_app by (by rewrite len_le_bytes).
  rewrite le_Z_le_bytes. apply Z.mod_small. lia.
Qed.

Lemma le_u64_app z r : 0 <= z < 2 ^ 64 -> le_u64 (le_bytes 8 z ++ r) = z.
Proof.
  intros. unfold le_u64. rewrite ztake_app by (by rewrite len_le_bytes).
  rewrite le_Z_le_bytes. apply Z.mod_small. lia.
Qed.

Lemma be_u32_app z r : 0 <= z < 2 ^ 32 -> be_u32 (be_bytes 4 z ++ r) = z.
Proof.
  intros. unfold be_u32, be_Z. rewrite ztake_app by (by rewrite len_be_bytes).
  unfold be_bytes. rewrite rev_involutive, le_Z_le_bytes. apply Z.mod_small. lia.
Qed.

Lemma le_Z_ztake_range n l : 0 <= n -> 0 <= le_Z (ztake n l) < 256 ^ n.
Proof.
  intros. pose proof (le_Z_range (ztake n l)) as Hr.
  assert (len (ztake n l) <= n) by (unfold len, ztake; rewrite length_take; lia).
  assert (256 ^ len (ztake n l) <= 256 ^ n) by (apply Z.pow_le_mono_r; lia). lia.
Qed.

Lemma le_u16_range b : 0 <= le_u16 b < 2 ^ 16.
Proof. apply (le_Z_ztake_range 2). lia. Qed.

Lemma le_u32_range b : 0 <= le_u32 b < 2 ^ 32.
Proof. apply (le_Z_ztake_range 4). lia. Qed.

Lemma le_u64_range b : 0 <= le_u64 b < 2 ^ 64.
Proof. apply (le_Z_ztake_range 8). lia. Qed.

Lemma be_u32_range b : 0 <= be_u32 b < 2 ^ 32.
Proof.
  unfold be_u32, be_Z. pose proof (le_Z_range (rev (ztake 4 b))) as Hr.
  rewrite len_rev in Hr.
  assert (len (ztake 4 b) <= 4) by (unfold len, ztake; rewrite length_take; lia).
  assert (256 ^ len (ztake 4 b) <= 256 ^ 4) by (apply Z.pow_le_mono_r; lia). lia.
Qed.

(** The converse: a wide enough buffer starts with the encoding of what was read. *)
Lemma le_split k b : Z.of_nat k <= len b ->
  b = le_bytes k (le_Z (ztake (Z.of_nat k) b)) ++ zdrop (Z.of_nat k) b.
Proof.
  intros. rewrite le_bytes_le_Z_len by (rewrite len_ztake; lia).
  by rewrite ztake_zdrop.
Qed.

(** ** Variable width *)

Definition MaxVarintLen64 : nat := 10.

(** [binary.AppendUvarint(nil, x)]: seven bits per byte, least significant first, the top
    bit of each byte but the last set. Ten groups always hold a uint64. *)
Fixpoint put_uvarint_n (fuel : nat) (x : Z) : bytes :=
  match fuel with
  | O => []
  | S fuel =>
      if 128 <=? x then zb (x mod 128 + 128) :: put_uvarint_n fuel (x / 128)
      else [zb x]
  end.

Definition put_uvarint (x : Z) : bytes := put_uvarint_n MaxVarintLen64 x.

(** [binary.Uvarint]: [Some (v, n)] when [n > 0], [None] for its [n <= 0] results (too
    short, or more than 64 bits). [i] counts the bytes read and [s] the shift. *)
Fixpoint uvarint_go (i : nat) (s x : Z) (buf : bytes) : option (Z * Z) :=
  match buf with
  | [] => None
  | b :: buf =>
      if (i =? MaxVarintLen64)%nat then None
      else if bz b <? 128 then
        if (i =? MaxVarintLen64 - 1)%nat && (1 <? bz b) then None
        else Some (x + bz b * 2 ^ s, Z.of_nat (S i))
      else uvarint_go (S i) (s + 7) (x + bz b mod 128 * 2 ^ s) buf
  end.

Definition uvarint (buf : bytes) : option (Z * Z) := uvarint_go 0 0 0 buf.

(** [binary.AppendVarint] and [binary.Varint]: zig-zag over the unsigned form. *)
Definition zigzag (x : Z) : Z := if x <? 0 then - 2 * x - 1 else 2 * x.
Definition unzigzag (u : Z) : Z := if Z.even u then u / 2 else - (u / 2) - 1.

Definition put_varint (x : Z) : bytes := put_uvarint (zigzag x).
Definition varint (buf : bytes) : option (Z * Z) :=
  match uvarint buf with
  | Some (u, n) => Some (unzigzag u, n)
  | None => None
  end.

Lemma unzigzag_zigzag x : unzigzag (zigzag x) = x.
Proof.
  unfold unzigzag, zigzag. destruct (Z.ltb_spec x 0).
  - replace (Z.even (-2 * x - 1)) with false.
    + replace ((-2 * x - 1) / 2) with (- x - 1); [lia|].
      apply (Z.div_unique _ 2 _ 1); lia.
    + replace (-2 * x - 1) with (2 * (- x - 1) + 1) by lia.
      by rewrite Z.even_add, Z.even_mul.
  - rewrite Z.even_mul. simpl. rewrite Z.mul_comm, Z.div_mul; lia.
Qed.

Lemma zigzag_range x : - 2 ^ 63 <= x < 2 ^ 63 -> 0 <= zigzag x < 2 ^ 64.
Proof. unfold zigzag. destruct (Z.ltb_spec x 0); lia. Qed.

Lemma unzigzag_range u : 0 <= u < 2 ^ 64 -> - 2 ^ 63 <= unzigzag u < 2 ^ 63.
Proof.
  unfold unzigzag. intros.
  pose proof (Z.div_mod u 2). pose proof (Z.mod_pos_bound u 2). destruct (Z.even u); lia.
Qed.

Lemma uvarint_go_put fuel : forall i s acc x rest,
  s = 7 * Z.of_nat i -> Z.of_nat i + Z.of_nat fuel = 10 -> (0 < fuel)%nat ->
  0 <= x < 2 ^ (64 - s) ->
  uvarint_go i s acc (put_uvarint_n fuel x ++ rest) =
    Some (acc + x * 2 ^ s, Z.of_nat i + len (put_uvarint_n fuel x)).
Proof.
  induction fuel as [|fuel IH]; intros i s acc x rest Hs Hi Hf Hx; [lia|].
  cbn [put_uvarint_n].
  destruct (Z.leb_spec 128 x) as [Hge|Hlt].
  - assert (Hfuel : (0 < fuel)%nat).
    { destruct fuel; [|lia]. exfalso.
      assert (2 ^ (64 - s) = 2) by (subst s; replace (Z.of_nat i) with 9 by lia; done). lia. }
    cbn [app uvarint_go].
    rewrite (proj2 (Nat.eqb_neq i MaxVarintLen64)) by (unfold MaxVarintLen64; lia).
    pose proof (Z.mod_pos_bound x 128). rewrite bz_zb.
    rewrite (Z.mod_small (x mod 128 + 128)) by lia. ltb_false.
    assert (64 - s = (64 - (s + 7)) + 7) as Hsplit by lia.
    assert (0 <= 64 - (s + 7)) by lia.
    rewrite Hsplit, Z.pow_add_r in Hx by lia.
    rewrite (IH (S i) (s + 7)); [|lia|lia|done|].
    + f_equal. f_equal.
      * replace ((x mod 128 + 128) mod 128) with (x mod 128).
        { rewrite Z.pow_add_r by lia. pose proof (Z.div_mod x 128). nia. }
        rewrite <- (Z.mul_1_l 128) at 3. rewrite Z.mod_add, Z.mod_mod by lia. done.
      * len_lia.
    + split; [apply Z.div_pos; lia|]. apply Z.div_lt_upper_bound; lia.
  - cbn [app uvarint_go].
    rewrite (proj2 (Nat.eqb_neq i MaxVarintLen64)) by (unfold MaxVarintLen64; lia).
    rewrite bz_zb, Z.mod_small by lia. ltb_true.
    assert (((i =? MaxVarintLen64 - 1)%nat && (1 <? x)) = false) as ->.
    { apply andb_false_iff. destruct (Nat.eqb_spec i (MaxVarintLen64 - 1)) as [Hi9|]; [right|by left].
      unfold MaxVarintLen64 in Hi9. apply Z.ltb_ge.
      assert (2 ^ (64 - s) = 2) by (subst s i; done). lia. }
    f_equal. f_equal. len_lia.
Qed.

(** Decoding an encoded uint64 gives it back and consumes exactly its encoding. *)
Lemma uvarint_put x rest :
  0 <= x < 2 ^ 64 -> uvarint (put_uvarint x ++ rest) = Some (x, len (put_uvarint x)).
Proof.
  intros. unfold uvarint, put_uvarint.
  rewrite uvarint_go_put; [|unfold MaxVarintLen64; simpl; lia..].
  do 2 f_equal. lia.
Qed.

Lemma varint_put x rest :
  - 2 ^ 63 <= x < 2 ^ 63 -> varint (put_varint x ++ rest) = Some (x, len (put_varint x)).
Proof.
  intros. unfold varint, put_varint. rewrite uvarint_put by (by apply zigzag_range).
  by rewrite unzigzag_zigzag.
Qed.

Lemma uvarint_go_range buf : forall i s acc v n,
  s = 7 * Z.of_nat i -> Z.of_nat i <= 10 -> 0 <= acc < 2 ^ s ->
  uvarint_go i s acc buf = Some (v, n) ->
  0 <= v < 2 ^ 64 /\ Z.of_nat i < n /\ n <= Z.of_nat i + len buf.
Proof.
  induction buf as [|b buf IH]; intros i s acc v n Hs Hi Hacc; [done|].
  cbn [uvarint_go]. pose proof (bz_range b).
  destruct (Nat.eqb_spec i MaxVarintLen64) as [|Hne]; [done|].
  unfold MaxVarintLen64 in Hne.
  destruct (Z.ltb_spec (bz b) 128).
  - destruct (_ && _) eqn:Hov; [done|]. intros [= <- <-].
    split; [|len_lia]. split; [nia|].
    assert (Hb : bz b * 2 ^ s <= (2 ^ (64 - s) - 1) * 2 ^ s).
    { apply Z.mul_le_mono_nonneg_r; [lia|].
      destruct (Nat.eqb_spec i (MaxVarintLen64 - 1)) as [Hi9|Hi9]; simpl in Hov; b2p.
      - unfold MaxVarintLen64 in Hi9.
        assert (2 ^ (64 - s) = 2) by (subst s i; done). lia.
      - unfold MaxVarintLen64 in Hi9. assert (2 ^ 7 <= 2 ^ (64 - s)) by (apply Z.pow_le_mono_r; lia). lia. }
    rewrite Z.mul_sub_distr_r, <- Z.pow_add_r in Hb by lia.
    replace (64 - s + s) with 64 in Hb by lia. lia.
  - intros Hgo. apply IH in Hgo; [|lia|lia|].
    + len_lia.
    + pose proof (Z.mod_pos_bound (bz b) 128). rewrite Z.pow_add_r by lia.
      assert (0 <= 2 ^ s) by lia. nia.
Qed.

Lemma uvarint_range buf v n :
  uvarint buf = Some (v, n) -> 0 <= v < 2 ^ 64 /\ 0 < n <= len buf.
Proof. intros H. apply uvarint_go_range in H; simpl; lia. Qed.

Lemma varint_range buf v n :
  varint buf = Some (v, n) -> - 2 ^ 63 <= v < 2 ^ 63 /\ 0 < n <= len buf.
Proof.
  unfold varint. destruct (uvarint buf) as [[u m]|] eqn:E; [|done].
  intros [= <- <-]. apply uvarint_range in E as [? ?]. split; [|done]. by apply unzigzag_range.
Qed.

Lemma put_uvarint_nonempty x : 1 <= len (put_uvarint x).
Proof. unfold put_uvarint. simpl. destruct (_ <=? _); len_lia. Qed.

Lemma put_varint_nonempty x : 1 <= len (put_varint x).
Proof. apply put_uvarint_nonempty. Qed.

Arguments le_bytes : simpl never.
Arguments put_uvarint : simpl never.
Arguments put_varint : simpl never.
