(* ===== verification/Names.v ===== *)
(** * Stored entry names (archive/names.go)

    [ValidEntryName] decides which stored names a reader accepts. The theorems relate it
    to lexical path resolution: an accepted name, joined to any directory, never leaves
    that directory, and two accepted names denote the same path only when they are equal. *)

From S2P Require Import Prelude.

Definition MaxEntryNameLen : Z := 65535.

(** [strings.Split(s, sep)] for a one-byte separator: always at least one element. *)
Fixpoint split_on (sep : byte) (s : bytes) : list bytes :=
  match s with
  | [] => [[]]
  | b :: s =>
      if bool_decide (b = sep) then [] :: split_on sep s
      else match split_on sep s with
           | e :: es => (b :: e) :: es
           | [] => [[b]]
           end
  end.

(** [strings.Join(elems, sep)]. *)
Fixpoint join_with (sep : byte) (es : list bytes) : bytes :=
  match es with
  | [] => []
  | [e] => e
  | e :: es => e ++ sep :: join_with sep es
  end.

Definition slash : byte := Byte.x2f.
Definition backslash : byte := Byte.x5c.
Definition nul : byte := Byte.x00.
Definition dot : bytes := str ".".
Definition dotdot : bytes := str "..".

(** [strings.ContainsAny(name, chars)] on bytes. *)
Definition contains_any (chars s : bytes) : bool :=
  existsb (fun b => existsb (fun c => bool_decide (b = c)) chars) s.

Definition bad_elem (e : bytes) : bool :=
  bytes_eqb e [] || bytes_eqb e dot || bytes_eqb e dotdot.

Definition ValidEntryName (name : bytes) : bool :=
  if bytes_eqb name [] || (MaxEntryNameLen <? len name) || contains_any [nul; backslash] name
  then false
  else negb (existsb bad_elem (split_on slash name)).

(** ** Lexical resolution

    The directory a relative path denotes when followed from [cwd]: empty and "." elements
    stay, ".." goes to the parent, anything else descends. *)
Fixpoint resolve (cwd : list bytes) (elems : list bytes) : list bytes :=
  match elems with
  | [] => cwd
  | e :: elems =>
      if bytes_eqb e [] || bytes_eqb e dot then resolve cwd elems
      else if bytes_eqb e dotdot then resolve (removelast cwd) elems
      else resolve (cwd ++ [e]) elems
  end.

Lemma split_on_nonempty sep s : split_on sep s <> [].
Proof. destruct s; simpl; [done|]. case_bool_decide; [done|]. by destruct (split_on sep s). Qed.

Lemma join_split sep s : join_with sep (split_on sep s) = s.
Proof.
  induction s as [|b s IH]; [done|]. simpl.
  pose proof (split_on_nonempty sep s) as Hne.
  case_bool_decide; subst.
  - destruct (split_on sep s) as [|e es]; [done|]. simpl in *. by rewrite IH.
  - destruct (split_on sep s) as [|e es]; [done|].
    destruct es; simpl in *; by rewrite <- IH.
Qed.

Lemma split_inj sep a b : split_on sep a = split_on sep b -> a = b.
Proof. intros H. rewrite <- (join_split sep a), <- (join_split sep b). by f_equal. Qed.

Lemma valid_name_elems name :
  ValidEntryName name = true -> Forall (fun e => bad_elem e = false) (split_on slash name).
Proof.
  unfold ValidEntryName. destruct (_ || _); [done|]. intros H. b2p.
  apply Forall_forall. intros e He. destruct (bad_elem e) eqn:E; [|done].
  rewrite <- H. symmetry. apply existsb_exists. exists e. split; [|done]. by apply list_elem_of_In.
Qed.

Lemma valid_name_nonempty name : ValidEntryName name = true -> name <> [].
Proof. unfold ValidEntryName. intros H ->. done. Qed.

Lemma valid_name_len name : ValidEntryName name = true -> 1 <= len name <= MaxEntryNameLen.
Proof.
  intros H. pose proof (valid_name_nonempty name H) as Hne. unfold ValidEntryName in H.
  destruct (_ || _) eqn:E; [done|]. b2p.
  destruct name; [done|]. len_lia.
Qed.

Lemma resolve_good cwd elems :
  Forall (fun e => bad_elem e = false) elems -> resolve cwd elems = cwd ++ elems.
Proof.
  intros H. revert cwd. induction H as [|e elems He _ IH]; intros cwd; simpl.
  - by rewrite app_nil_r.
  - unfold bad_elem in He. b2p.
    repeat match goal with H : bytes_eqb _ _ = false |- _ => rewrite H; clear H end.
    simpl. by rewrite IH, <- app_assoc.
Qed.

(** Following any leading part of an accepted name stays inside the directory it is
    joined to: the resolved path extends [root], and the whole name lies strictly below. *)
Theorem valid_name_confined (root : list bytes) (name : bytes) (k : nat)
  (H : ValidEntryName name = true) :
  root `prefix_of` resolve root (take k (split_on slash name)) /\
  exists e rest, resolve root (split_on slash name) = root ++ e :: rest.
Proof.
  pose proof (valid_name_elems name H) as Hel. split.
  - rewrite resolve_good by (by apply Forall_take). by apply prefix_app_r.
  - rewrite resolve_good by done.
    destruct (split_on slash name) as [|e es] eqn:E; [by apply split_on_nonempty in E|].
    by exists e, es.
Qed.

Lemma valid_name_confined_witness :
  ValidEntryName (str "docs/report.pdf") = true /\
  [str "out"] `prefix_of` resolve [str "out"] (take 1 (split_on slash (str "docs/report.pdf"))).
Proof.
  split; [vm_compute; reflexivity|].
  apply (valid_name_confined [str "out"] (str "docs/report.pdf") 1). vm_compute. reflexivity.
Defined.

(** Distinct accepted names never resolve to the same path. *)
Theorem valid_name_resolve_inj (root : list bytes) (a b : bytes)
  (Ha : ValidEntryName a = true) (Hb : ValidEntryName b = true)
  (He : resolve root (split_on slash a) = resolve root (split_on slash b)) : a = b.
Proof.
  rewrite !resolve_good in He by (by apply valid_name_elems).
  apply app_inv_head in He. by apply split_inj in He.
Qed.

Lemma valid_name_resolve_inj_witness :
  ValidEntryName (str "a/b") = true /\ str "a/b" = str "a/b".
Proof.
  split; [vm_compute; reflexivity|].
  apply (valid_name_resolve_inj [] (str "a/b") (str "a/b")); vm_compute; reflexivity.
Defined.

(** The rejected shapes the comment lists. *)
Example rejects_parent : ValidEntryName (str "a/../b") = false. Proof. vm_compute. reflexivity. Qed.
Example rejects_absolute : ValidEntryName (str "/etc/passwd") = false. Proof. vm_compute. reflexivity. Qed.
Example rejects_backslash : ValidEntryName (str "a\b") = false. Proof. vm_compute. reflexivity. Qed.
Example accepts_hidden : ValidEntryName (str "a/.hidden/...") = true. Proof. vm_compute. reflexivity. Qed.
