(* ===== verification/Attributes.v ===== *)
(** * Filesystem attributes (archive/attributes.go)

    The attribute record of an entry, its validation, and its binary codec. The decoder is
    the source's sticky-error decoder: after the first truncation every read yields zero
    and the first error is kept. The codec is shown to be exact in both directions:
    what is encoded decodes to itself, and whatever decodes is the one encoding of its
    value. *)

From S2P Require Import Prelude Bytes Names.

(** ** Data *)

(** [FileKind] is a uint8; values above [KindHardlink] exist on the wire and are refused. *)
Definition KindRegular : Z := 0.
Definition KindDirectory : Z := 1.
Definition KindSymlink : Z := 2.
Definition KindHardlink : Z := 3.

Definition ModeMask : Z := 4095.
Definition MaxLinkTargetLen : Z := 4096.
Definition MaxXattrs : Z := 1024.
Definition MaxXattrNameLen : Z := 255.
Definition MaxXattrsSize : Z := 1048576.
Definition MaxAttributesSize : Z := MaxXattrsSize + MaxLinkTargetLen + 64.

Record Owner := mk_owner { UID : Z; GID : Z }.
Record Xattr := mk_xattr { xattr_Name : bytes; xattr_Value : bytes }.
Record Attributes := mk_attributes {
  Kind : Z;
  Mode : Z;
  ModTime : Z;
  LinkTarget : bytes;
  attr_Owner : option Owner;
  Xattrs : list Xattr
}.

#[global] Instance Owner_eq_dec : EqDecision Owner.
Proof. solve_decision. Defined.
#[global] Instance Xattr_eq_dec : EqDecision Xattr.
Proof. solve_decision. Defined.
#[global] Instance Attributes_eq_dec : EqDecision Attributes.
Proof. solve_decision. Defined.

(** The zero value, [Attributes{}]. *)
Definition zero_attributes : Attributes := mk_attributes 0 0 0 [] None [].

(** The ranges Go's field types impose. *)
Definition Owner_typed (o : Owner) : Prop := 0 <= UID o < 2 ^ 32 /\ 0 <= GID o < 2 ^ 32.
Definition Attributes_typed (a : Attributes) : Prop :=
  0 <= Kind a < 2 ^ 8 /\ 0 <= Mode a < 2 ^ 32 /\ - 2 ^ 63 <= ModTime a < 2 ^ 63 /\
  (forall o, attr_Owner a = Some o -> Owner_typed o).

Lemma zero_attributes_typed : Attributes_typed zero_attributes.
Proof.
  unfold Attributes_typed, zero_attributes; cbn [Kind Mode ModTime attr_Owner].
  split_and!; try lia; done.
Defined.

(** ** Validation *)

Definition xattr_size (x : Xattr) : Z := 1 + len (xattr_Name x) + 4 + len (xattr_Value x).
Definition XattrsSize (xs : list Xattr) : Z := foldr (fun x n => xattr_size x + n) 0 xs.

Definition attr_fail {A} (msg : string) : result A := errorf ErrMalformedAttributes msg.

Definition bad_xattr_name (x : Xattr) : bool :=
  bytes_eqb (xattr_Name x) [] || (MaxXattrNameLen <? len (xattr_Name x)).

Definition validate (a : Attributes) : result unit :=
  let is_link := (Kind a =? KindSymlink) || (Kind a =? KindHardlink) in
  if KindHardlink <? Kind a then attr_fail "unknown kind"
  else if negb (Z.ldiff (Mode a) ModeMask =? 0) then attr_fail "mode has bits outside 7777"
  else if MaxLinkTargetLen <? len (LinkTarget a) then attr_fail "link target too long"
  else if negb (Bool.eqb is_link (negb (bytes_eqb (LinkTarget a) []))) then
    attr_fail "only links have a non-empty target"
  else if (Kind a =? KindHardlink) && negb (ValidEntryName (LinkTarget a)) then
    attr_fail "hard link target is not a safe name"
  else if (MaxXattrs <? len (Xattrs a)) || (MaxXattrsSize <? XattrsSize (Xattrs a)) then
    attr_fail "extended attributes too large"
  else if existsb bad_xattr_name (Xattrs a) then attr_fail "bad extended attribute name"
  else Ok tt.

(** ** Encoding *)

Definition attributesHasOwner : Z := 1.

Definition encode_owner (o : option Owner) : bytes :=
  match o with
  | Some o => zb attributesHasOwner :: le_bytes 4 (UID o) ++ le_bytes 4 (GID o)
  | None => [zb 0]
  end.

Definition encode_xattr (x : Xattr) : bytes :=
  zb (len (xattr_Name x)) :: xattr_Name x ++
  le_bytes 4 (len (xattr_Value x)) ++ xattr_Value x.

Definition encode_xattrs (xs : list Xattr) : bytes := concat (map encode_xattr xs).

Definition encode_attributes (a : Attributes) : bytes :=
  zb (Kind a) :: le_bytes 4 (Mode a) ++ le_bytes 8 (u64 (ModTime a)) ++
  encode_owner (attr_Owner a) ++
  le_bytes 2 (len (LinkTarget a)) ++ LinkTarget a ++
  le_bytes 2 (len (Xattrs a)) ++ encode_xattrs (Xattrs a).

Definition AppendAttributes (dst : bytes) (a : Attributes) : result bytes :=
  match validate a with
  | Err e => Err e
  | Ok _ => Ok (dst ++ encode_attributes a)
  end.

(** ** Decoding *)

Record attrDecoder := mk_attrDecoder { ad_b : bytes; ad_err : option error }.

(** [d.bytes(n)]; [None] is the nil slice returned on failure. *)
Definition ad_bytes (n : Z) (d : attrDecoder) : option bytes * attrDecoder :=
  match ad_err d with
  | Some _ => (None, d)
  | None =>
      if len (ad_b d) <? n
      then (None, mk_attrDecoder (ad_b d) (Some (mk_error ErrMalformedAttributes "truncated")))
      else (Some (ztake n (ad_b d)), mk_attrDecoder (zdrop n (ad_b d)) None)
  end.

(** The fixed-width reads: [decode] of the bytes, or 0 when the slice is nil. *)
Definition ad_int (n : Z) (d : attrDecoder) : Z * attrDecoder :=
  match ad_bytes n d with
  | (Some b, d) => (le_Z b, d)
  | (None, d) => (0, d)
  end.
Definition ad_byte := ad_int 1.
Definition ad_u16 := ad_int 2.
Definition ad_u32 := ad_int 4.
Definition ad_u64 := ad_int 8.

Definition ad_string (n : Z) (d : attrDecoder) : bytes * attrDecoder :=
  match ad_bytes n d with
  | (Some b, d) => (b, d)
  | (None, d) => ([], d)
  end.

Definition ad_owner (flags : Z) (d : attrDecoder) : option Owner * attrDecoder :=
  if negb (Z.land flags attributesHasOwner =? 0) then
    let '(uid, d) := ad_u32 d in
    let '(gid, d) := ad_u32 d in
    (Some (mk_owner uid gid), d)
  else (None, d).

(** The loop over [count] extended attributes; it stops early once an error is recorded. *)
Fixpoint ad_xattrs (count : nat) (d : attrDecoder) : result (list Xattr * attrDecoder) :=
  match count with
  | O => Ok ([], d)
  | S count =>
      match ad_err d with
      | Some _ => Ok ([], d)
      | None =>
          let '(n, d) := ad_byte d in
          let '(name, d) := ad_string n d in
          let '(size, d) := ad_u32 d in
          if MaxXattrsSize <? size then attr_fail "extended attribute too large"
          else
            let '(value, d) := ad_string size d in
            match ad_xattrs count d with
            | Err e => Err e
            | Ok (xs, d) => Ok (mk_xattr name value :: xs, d)
            end
      end
  end.

Definition ParseAttributes (b : bytes) : result Attributes :=
  let d := mk_attrDecoder b None in
  let '(kind, d) := ad_byte d in
  let '(mode, d) := ad_u32 d in
  let '(mtime, d) := ad_u64 d in
  let '(flags, d) := ad_byte d in
  if negb (Z.ldiff flags attributesHasOwner =? 0) then attr_fail "unknown flags"
  else
    let '(owner, d) := ad_owner flags d in
    let '(tlen, d) := ad_u16 d in
    let '(target, d) := ad_string tlen d in
    let '(count, d) := ad_u16 d in
    if MaxXattrs <? count then attr_fail "too many extended attributes"
    else
      match ad_xattrs (Z.to_nat count) d with
      | Err e => Err e
      | Ok (xs, d) =>
          match ad_err d with
          | Some e => Err e
          | None =>
              if negb (len (ad_b d) =? 0) then attr_fail "trailing bytes"
              else
                let a := mk_attributes kind mode (i64 mtime) target owner xs in
                match validate a with
                | Err e => Err e
                | Ok _ => Ok a
                end
          end
      end.

(** ** Consequences of validation *)

Lemma ldiff_ones_small m n : 0 <= n -> 0 <= m < 2 ^ n -> Z.ldiff m (Z.ones n) = 0.
Proof.
  intros. rewrite Z.ldiff_ones_r by lia. rewrite Z.shiftr_div_pow2, Z.div_small by lia.
  apply Z.shiftl_0_l.
Qed.

Lemma ldiff_ones_bound m n : 0 <= n -> 0 <= m -> Z.ldiff m (Z.ones n) = 0 -> m < 2 ^ n.
Proof.
  intros Hn Hm H. rewrite Z.ldiff_ones_r in H by lia.
  rewrite Z.shiftl_mul_pow2, Z.shiftr_div_pow2 in H by lia.
  pose proof (Z.div_mod m (2 ^ n)). pose proof (Z.mod_pos_bound m (2 ^ n)).
  assert (0 < 2 ^ n) by lia. nia.
Qed.

Record valid_attributes (a : Attributes) : Prop := {
  va_kind : Kind a <= KindHardlink;
  va_mode : 0 <= Mode a -> Mode a <= ModeMask;
  va_target_len : len (LinkTarget a) <= MaxLinkTargetLen;
  va_target : (Kind a = KindSymlink \/ Kind a = KindHardlink) <-> LinkTarget a <> [];
  va_hardlink : Kind a = KindHardlink -> ValidEntryName (LinkTarget a) = true;
  va_xattrs : len (Xattrs a) <= MaxXattrs;
  va_xattrs_size : XattrsSize (Xattrs a) <= MaxXattrsSize;
  va_names : Forall (fun x => 1 <= len (xattr_Name x) <= MaxXattrNameLen) (Xattrs a)
}.

Lemma existsb_bad_names xs :
  existsb bad_xattr_name xs = false ->
  Forall (fun x => 1 <= len (xattr_Name x) <= MaxXattrNameLen) xs.
Proof.
  induction xs as [|x xs IH]; simpl; [constructor|]. intros H. b2p.
  constructor; [|auto]. unfold bad_xattr_name in *. b2p.
  split; [|done]. destruct (xattr_Name x); [done|]. len_lia.
Qed.

Lemma validate_Ok a : validate a = Ok tt -> valid_attributes a.
Proof.
  unfold validate, attr_fail, errorf. intros H.
  repeat (case_match; [done|]). b2p.
  constructor; try assumption; try lia.
  - intros Hm. pose proof (ldiff_ones_bound (Mode a) 12 ltac:(lia) Hm ltac:(assumption)).
    unfold ModeMask. lia.
  - match goal with H : Bool.eqb _ _ = true |- _ => apply Bool.eqb_prop in H; rename H into Ht end.
    destruct (bytes_eqb (LinkTarget a) []) eqn:E; simpl in Ht; b2p.
    + rewrite E. split; [intros; lia|done].
    + apply orb_true_iff in Ht as [Ht|Ht]; b2p;
        (split; [intros _ Hn; by rewrite Hn, bytes_eqb_refl in E|auto]).
  - intros Hk. match goal with H : _ && negb _ = false |- _ => rewrite Hk in H; simpl in H end.
    by b2p.
  - by apply existsb_bad_names.
Qed.

(** ** Sizes *)

Lemma len_encode_xattr x : len (encode_xattr x) = xattr_size x.
Proof. unfold encode_xattr, xattr_size. len_lia. Qed.

Lemma len_encode_xattrs xs : len (encode_xattrs xs) = XattrsSize xs.
Proof.
  induction xs as [|x xs IH]; [done|].
  unfold encode_xattrs, XattrsSize in *. cbn [map concat foldr]. rewrite len_app, IH, len_encode_xattr. done.
Qed.

Lemma len_encode_owner o : len (encode_owner o) <= 9.
Proof. destruct o; simpl; len_lia. Qed.

#[export] Hint Rewrite len_encode_xattr len_encode_xattrs : lens.

Lemma attributes_len_bound a : validate a = Ok tt -> len (encode_attributes a) <= MaxAttributesSize.
Proof.
  intros E. apply validate_Ok in E as []. pose proof (len_encode_owner (attr_Owner a)).
  unfold encode_attributes, MaxAttributesSize, MaxXattrsSize, MaxLinkTargetLen in *. len_lia.
Qed.

(** The size limit declared for encoded attributes covers every value that can be
    encoded, so a writer never produces attributes a reader would refuse as too large. *)
Theorem attributes_size_bound (a : Attributes) (b : bytes)
  (H : AppendAttributes [] a = Ok b) : len b <= MaxAttributesSize.
Proof.
  unfold AppendAttributes in H. destruct (validate a) as [[]|] eqn:E; [|done].
  injection H as <-. by apply attributes_len_bound.
Qed.

Lemma attributes_size_bound_witness :
  AppendAttributes [] zero_attributes = Ok (encode_attributes zero_attributes) /\
  len (encode_attributes zero_attributes) <= MaxAttributesSize.
Proof.
  split; [vm_compute; reflexivity|].
  apply (attributes_size_bound zero_attributes). vm_compute. reflexivity.
Defined.

(** ** Encoded values decode to themselves *)

Lemma ad_bytes_app n x r : n = len x ->
  ad_bytes n (mk_attrDecoder (x ++ r) None) = (Some x, mk_attrDecoder r None).
Proof.
  intros ->. unfold ad_bytes; cbn [ad_err ad_b]. ltb_false.
  by rewrite ztake_app, zdrop_app.
Qed.

Lemma ad_string_app n x r : n = len x ->
  ad_string n (mk_attrDecoder (x ++ r) None) = (x, mk_attrDecoder r None).
Proof. intros. unfold ad_string. by rewrite ad_bytes_app. Qed.

Lemma ad_int_app n z r : 0 <= z < 256 ^ Z.of_nat n ->
  ad_int (Z.of_nat n) (mk_attrDecoder (le_bytes n z ++ r) None) = (z, mk_attrDecoder r None).
Proof.
  intros. unfold ad_int. rewrite ad_bytes_app by len_lia.
  by rewrite le_Z_le_bytes, Z.mod_small.
Qed.

Lemma ad_byte_cons z r : 0 <= z < 256 ->
  ad_byte (mk_attrDecoder (zb z :: r) None) = (z, mk_attrDecoder r None).
Proof. intros. apply (ad_int_app 1 z r). lia. Qed.

Definition xattr_fits (x : Xattr) : Prop :=
  len (xattr_Name x) <= 255 /\ len (xattr_Value x) <= MaxXattrsSize.

Lemma xattrs_fit xs :
  XattrsSize xs <= MaxXattrsSize ->
  Forall (fun x => 1 <= len (xattr_Name x) <= MaxXattrNameLen) xs -> Forall xattr_fits xs.
Proof.
  induction xs as [|x xs IH]; [constructor|]. unfold XattrsSize, xattr_size in *. simpl.
  intros Hs Hn. apply Forall_cons in Hn as [Hx Hn].
  pose proof (len_nonneg (xattr_Value x)). pose proof (len_nonneg (encode_xattrs xs)) as Hxs.
  rewrite len_encode_xattrs in Hxs. unfold XattrsSize, xattr_size in Hxs.
  constructor; [|apply IH; [lia|done]]. unfold xattr_fits, MaxXattrNameLen in *. lia.
Qed.

Lemma encode_xattrs_cons x xs :
  encode_xattrs (x :: xs) =
    zb (len (xattr_Name x)) :: xattr_Name x ++
    le_bytes 4 (len (xattr_Value x)) ++ xattr_Value x ++ encode_xattrs xs.
Proof. unfold encode_xattrs. cbn. by rewrite <- !app_assoc. Qed.

Lemma ad_xattrs_app xs r : Forall xattr_fits xs ->
  ad_xattrs (length xs) (mk_attrDecoder (encode_xattrs xs ++ r) None) =
    Ok (xs, mk_attrDecoder r None).
Proof.
  induction 1 as [|x xs [Hn Hv] _ IH]; [done|].
  rewrite encode_xattrs_cons. cbn [length ad_xattrs ad_err app]. rewrite <- !app_assoc.
  pose proof (len_nonneg (xattr_Name x)). pose proof (len_nonneg (xattr_Value x)).
  unfold MaxXattrsSize in *.
  rewrite ad_byte_cons by lia. rewrite ad_string_app by done.
  unfold ad_u32. rewrite (ad_int_app 4) by lia. ltb_false.
  rewrite ad_string_app, IH by done. by destruct x.
Qed.

Lemma ad_owner_app o r : (forall o', o = Some o' -> Owner_typed o') ->
  exists flags rest,
    encode_owner o ++ r = zb flags :: rest /\ 0 <= flags < 256 /\
    Z.ldiff flags attributesHasOwner = 0 /\
    ad_owner flags (mk_attrDecoder rest None) = (o, mk_attrDecoder r None).
Proof.
  intros Ht. destruct o as [o|].
  - destruct (Ht o eq_refl) as [Hu Hg]. exists 1, (le_bytes 4 (UID o) ++ le_bytes 4 (GID o) ++ r).
    split; [cbn [encode_owner app]; by rewrite app_assoc|]. split; [lia|].
    split; [done|]. unfold ad_owner. simpl (negb _). cbv iota.
    unfold ad_u32. rewrite (ad_int_app 4) by lia. rewrite (ad_int_app 4) by lia.
    by destruct o.
  - eexists 0, _. split; [done|]. split; [lia|]. done.
Qed.

Lemma AppendAttributes_Ok dst a b :
  AppendAttributes dst a = Ok b <-> validate a = Ok tt /\ b = dst ++ encode_attributes a.
Proof.
  unfold AppendAttributes. destruct (validate a) as [[]|]; split; intros H; try done.
  - by injection H as <-.
  - destruct H as [_ ->]. done.
  - by destruct H.
Qed.

(** Valid attributes of any field values Go's types allow survive the wire unchanged. *)
Lemma ParseAttributes_encode a : Attributes_typed a -> validate a = Ok tt ->
  ParseAttributes (encode_attributes a) = Ok a.
Proof.
  intros (Hk & Hm & Ht & Ho) Hv. pose proof (validate_Ok a Hv) as [].
  unfold ParseAttributes, encode_attributes.
  rewrite ad_byte_cons by lia. unfold ad_u32. rewrite (ad_int_app 4) by lia.
  unfold ad_u64. rewrite (ad_int_app 8) by (unfold u64; pose proof (Z.mod_pos_bound (ModTime a) (2 ^ 64)); lia).
  match goal with |- context [encode_owner ?o ++ ?r] =>
    destruct (ad_owner_app o r Ho) as (flags & rest & -> & Hf & Hd & Hown) end.
  rewrite ad_byte_cons by done. rewrite Hd. simpl (negb _). cbv iota. rewrite Hown.
  pose proof (len_nonneg (LinkTarget a)). pose proof (len_nonneg (Xattrs a)).
  unfold ad_u16, MaxLinkTargetLen, MaxXattrs in *.
  rewrite (ad_int_app 2) by lia. rewrite ad_string_app by done.
  rewrite (ad_int_app 2) by lia. ltb_false.
  rewrite <- (app_nil_r (encode_xattrs _)). unfold len at 1. rewrite Nat2Z.id.
  rewrite ad_xattrs_app by (by apply xattrs_fit). cbn [ad_err ad_b len length negb].
  rewrite i64_u64 by lia. cbn.
  replace (mk_attributes _ _ _ _ _ _) with a by (by destruct a). by rewrite Hv.
Qed.

(** Encoding then parsing attributes is the identity: every attribute record that
    [AppendAttributes] accepts is recovered by [ParseAttributes]. *)
Theorem attributes_roundtrip (a : Attributes) (b : bytes)
  (Ht : Attributes_typed a) (H : AppendAttributes [] a = Ok b) : ParseAttributes b = Ok a.
Proof. apply AppendAttributes_Ok in H as [Hv ->]. by apply ParseAttributes_encode. Qed.

Definition sample_attributes : Attributes :=
  mk_attributes KindSymlink 511 (-5) (str "../t") (Some (mk_owner 1000 4294967295))
    [mk_xattr (str "user.a") (str "v"); mk_xattr (str "b") []].

Lemma attributes_roundtrip_witness :
  validate sample_attributes = Ok tt /\
  ParseAttributes (encode_attributes sample_attributes) = Ok sample_attributes.
Proof.
  split; [vm_compute; reflexivity|].
  apply (attributes_roundtrip sample_attributes); [|vm_compute; reflexivity].
  unfold Attributes_typed, sample_attributes, Owner_typed, KindSymlink; cbn [Kind Mode ModTime attr_Owner].
  repeat split; try lia; injection H as <-; simpl; lia.
Defined.

(** ** Accepted encodings are canonical *)

Lemma ad_bytes_inv n d o d' : 0 <= n -> ad_bytes n d = (o, d') -> ad_err d' = None ->
  ad_err d = None /\ exists x, o = Some x /\ len x = n /\ ad_b d = x ++ ad_b d'.
Proof.
  intros Hn H He. unfold ad_bytes in H. destruct (ad_err d) as [e|] eqn:E.
  - injection H as <- <-. congruence.
  - destruct (Z.ltb_spec (len (ad_b d)) n).
    + injection H as <- <-. done.
    + injection H as <- <-. split; [done|]. eexists. split; [done|].
      rewrite len_ztake by lia. cbn. by rewrite ztake_zdrop.
Qed.

Lemma ad_string_inv n d x d' : 0 <= n -> ad_string n d = (x, d') -> ad_err d' = None ->
  ad_err d = None /\ len x = n /\ ad_b d = x ++ ad_b d'.
Proof.
  intros Hn H He. unfold ad_string in H. destruct (ad_bytes n d) as [o d1] eqn:E.
  assert (d1 = d') as -> by (by destruct o; injection H).
  apply ad_bytes_inv in E as (? & y & -> & ? & ?); [|done..]. by injection H as <-.
Qed.

Lemma ad_int_inv k d v d' : ad_int (Z.of_nat k) d = (v, d') -> ad_err d' = None ->
  ad_err d = None /\ 0 <= v < 256 ^ Z.of_nat k /\ ad_b d = le_bytes k v ++ ad_b d'.
Proof.
  intros H He. unfold ad_int in H. destruct (ad_bytes _ d) as [o d1] eqn:E.
  assert (d1 = d') as -> by (by destruct o; injection H).
  apply ad_bytes_inv in E as (? & y & -> & Hy & ?); [|lia|done]. injection H as <-.
  split; [done|]. pose proof (le_Z_range y) as Hr. rewrite Hy in Hr. split; [done|].
  by rewrite le_bytes_le_Z_len.
Qed.

Lemma ad_int_range k d v d' : ad_int (Z.of_nat k) d = (v, d') -> 0 <= v < 256 ^ Z.of_nat k.
Proof.
  unfold ad_int, ad_bytes. destruct (ad_err d).
  - intros [= <- <-]. lia.
  - destruct (Z.ltb_spec (len (ad_b d)) (Z.of_nat k)); intros [= <- <-]; [lia|].
    pose proof (le_Z_range (ztake (Z.of_nat k) (ad_b d))) as Hr.
    by rewrite len_ztake in Hr by lia.
Qed.

Lemma ad_xattrs_inv count : forall d xs d',
  ad_xattrs count d = Ok (xs, d') -> ad_err d' = None ->
  ad_err d = None /\ length xs = count /\ ad_b d = encode_xattrs xs ++ ad_b d'.
Proof.
  induction count as [|count IH]; intros d xs d' H He; cbn [ad_xattrs] in H.
  - injection H as <- <-. done.
  - destruct (ad_err d) eqn:Ed; [injection H as <- <-; congruence|].
    destruct (ad_byte d) as [n d1] eqn:E1. destruct (ad_string n d1) as [name d2] eqn:E2.
    destruct (ad_u32 d2) as [size d3] eqn:E3. destruct (_ <? size); [done|].
    destruct (ad_string size d3) as [value d4] eqn:E4.
    destruct (ad_xattrs count d4) as [[xs' d5]|] eqn:E5; [|done]. injection H as <- <-.
    apply IH in E5 as (? & ? & Hb5); [|done].
    pose proof (ad_int_range 4 _ _ _ E3) as Hs. pose proof (ad_int_range 1 _ _ _ E1) as Hn.
    apply ad_string_inv in E4 as (? & Hl4 & Hb4); [|lia|done].
    apply (ad_int_inv 4) in E3 as (? & _ & Hb3); [|done].
    apply ad_string_inv in E2 as (? & Hl2 & Hb2); [|lia|done].
    apply (ad_int_inv 1) in E1 as (_ & _ & Hb1); [|done].
    split; [done|]. split; [simpl; lia|].
    rewrite encode_xattrs_cons. cbn [xattr_Name xattr_Value].
    rewrite Hl2, Hl4, Hb1, Hb2, Hb3, Hb4, Hb5, le_bytes_1. cbn [app]. by rewrite <- !app_assoc.
Qed.

Lemma ad_owner_inv flags d o d' :
  0 <= flags < 256 -> Z.ldiff flags attributesHasOwner = 0 ->
  ad_owner flags d = (o, d') -> ad_err d' = None ->
  ad_err d = None /\ (forall o', o = Some o' -> Owner_typed o') /\
  zb flags :: ad_b d = encode_owner o ++ ad_b d'.
Proof.
  intros Hf Hd H He. apply (ldiff_ones_bound flags 1) in Hd; [|lia|lia].
  unfold ad_owner in H. assert (flags = 0 \/ flags = 1) as [->| ->] by lia; simpl in H.
  - injection H as <- <-. done.
  - destruct (ad_u32 d) as [uid d1] eqn:E1. destruct (ad_u32 d1) as [gid d2] eqn:E2.
    injection H as <- <-. apply (ad_int_inv 4) in E2 as (? & ? & Hb2); [|done].
    apply (ad_int_inv 4) in E1 as (? & ? & Hb1); [|done].
    split; [done|]. split; [intros o' [= <-]; split; simpl; lia|].
    rewrite Hb1, Hb2. cbn [encode_owner UID GID app]. by rewrite <- !app_assoc.
Qed.

Lemma ParseAttributes_inv b a : ParseAttributes b = Ok a ->
  Attributes_typed a /\ validate a = Ok tt /\ b = encode_attributes a.
Proof.
  unfold ParseAttributes, attr_fail, errorf. intros H.
  destruct (ad_byte _) as [kind d1] eqn:E1. destruct (ad_u32 d1) as [mode d2] eqn:E2.
  destruct (ad_u64 d2) as [mtime d3] eqn:E3. destruct (ad_byte d3) as [flags d4] eqn:E4.
  destruct (negb (Z.ldiff _ _ =? 0)) eqn:Hfl; [done|]. b2p.
  destruct (ad_owner flags d4) as [owner d5] eqn:E5. destruct (ad_u16 d5) as [tlen d6] eqn:E6.
  destruct (ad_string tlen d6) as [target d7] eqn:E7. destruct (ad_u16 d7) as [count d8] eqn:E8.
  destruct (_ <? count); [done|].
  destruct (ad_xattrs _ d8) as [[xs d9]|] eqn:E9; [|done].
  destruct (ad_err d9) eqn:He; [done|].
  destruct (negb (len (ad_b d9) =? 0)) eqn:Hz; [done|]. b2p. apply len_0_nil in Hz.
  destruct (validate _) as [[]|] eqn:Hv; [|done]. injection H as <-.
  apply ad_xattrs_inv in E9 as (? & Hl9 & Hb9); [|done].
  pose proof (ad_int_range 2 _ _ _ E6). pose proof (ad_int_range 1 _ _ _ E4).
  apply (ad_int_inv 2) in E8 as (? & Hc & Hb8); [|done].
  apply ad_string_inv in E7 as (? & Hl7 & Hb7); [|lia|done].
  apply (ad_int_inv 2) in E6 as (? & _ & Hb6); [|done].
  apply ad_owner_inv in E5 as (? & Hot & Hb5); [|lia|done|done].
  apply (ad_int_inv 1) in E4 as (? & _ & Hb4); [|done].
  apply (ad_int_inv 8) in E3 as (? & Ht & Hb3); [|done].
  apply (ad_int_inv 4) in E2 as (? & Hm & Hb2); [|done].
  apply (ad_int_inv 1) in E1 as (_ & Hk & Hb1); [|done].
  pose proof (i64_range mtime).
  split; [unfold Attributes_typed; cbn [Kind Mode ModTime attr_Owner]; split_and!; try lia; done|].
  split; [done|].
  assert (len xs = count) as Hlx by (unfold len; rewrite Hl9; lia).
  unfold encode_attributes. cbn [Kind Mode ModTime LinkTarget attr_Owner Xattrs].
  rewrite u64_i64, Hl7, Hlx by lia. cbn [ad_b] in Hb1.
  rewrite Hb1, Hb2, Hb3, Hb4. rewrite !le_bytes_1. cbn [app].
  rewrite Hb5, Hb6, Hb7, Hb8, Hb9, Hz, app_nil_r. done.
Qed.

(** The attribute encoding is canonical: a byte string [ParseAttributes] accepts is
    exactly what [AppendAttributes] writes for the value it returns, so two different
    byte strings never stand for the same attributes. *)
Theorem attributes_canonical (b : bytes) (a : Attributes)
  (H : ParseAttributes b = Ok a) : AppendAttributes [] a = Ok b.
Proof.
  apply ParseAttributes_inv in H as (_ & Hv & ->). by apply AppendAttributes_Ok.
Qed.

Lemma attributes_canonical_witness :
  ParseAttributes (encode_attributes sample_attributes) = Ok sample_attributes /\
  AppendAttributes [] sample_attributes = Ok (encode_attributes sample_attributes).
Proof.
  split; [vm_compute; reflexivity|]. apply attributes_canonical. vm_compute. reflexivity.
Defined.
