(* ===== verification/Metadata.v ===== *)
(** * Sealed metadata plaintext (archive/metadata.go, archive/format.go, archive/codec.go)

    The per-entry metadata record, its codec byte and size bucket, and the wire form that
    is sealed with the file key. Version1 entries end after the permissions; Version2
    entries add the codec byte and, optionally, attributes. *)

From S2P Require Import Prelude Bytes Names Attributes.

(** ** Codecs and size buckets *)

Definition CodecNone : Z := 0.
Definition CodecZstd : Z := 1.

Definition knownCodec (c : Z) : bool := (c =? CodecNone) || (c =? CodecZstd).

(** [Codec.String]; [None] stands for the "unknown(n)" rendering. *)
Definition Codec_String (c : Z) : option string :=
  if c =? CodecNone then Some "none"%string
  else if c =? CodecZstd then Some "zstd"%string
  else None.

Definition BucketTiny : Z := 0.
Definition BucketSmall : Z := 1.
Definition BucketMedium : Z := 2.
Definition BucketLarge : Z := 3.
Definition BucketHuge : Z := 4.

Definition BucketizeSize (n : Z) : Z :=
  if n <=? 1024 then BucketTiny
  else if n <=? 10240 then BucketSmall
  else if n <=? 102400 then BucketMedium
  else if n <=? 1048576 then BucketLarge
  else BucketHuge.

(** The size bucket recorded for a file reveals only its class: it is one of the five
    classes, and it never decreases as the size grows. *)
Theorem BucketizeSize_monotone (m n : Z) (H : m <= n) :
  BucketTiny <= BucketizeSize m <= BucketizeSize n /\ BucketizeSize n <= BucketHuge.
Proof.
  unfold BucketizeSize, BucketTiny, BucketSmall, BucketMedium, BucketLarge, BucketHuge.
  repeat case_match; b2p; lia.
Qed.

Lemma BucketizeSize_monotone_witness :
  BucketTiny <= BucketizeSize 1024 <= BucketizeSize 1025 /\ BucketizeSize 1025 <= BucketHuge.
Proof. apply (BucketizeSize_monotone 1024 1025). lia. Defined.

(** ** Metadata *)

Record PlaintextMetadata := mk_pm {
  EncryptedFilename : bytes;
  SizeBucket : Z;
  TimestampHash : bytes;
  Permissions : Z;
  pm_Codec : Z;
  pm_Attributes : option Attributes
}.

Definition TimestampHashSize : Z := 32.

Definition MaxMetadataSize : Z := 2 + 65535 + 1 + 32 + 4 + 1 + 4 + MaxAttributesSize.

Definition pm_typed (pm : PlaintextMetadata) : Prop :=
  0 <= SizeBucket pm < 2 ^ 8 /\ len (TimestampHash pm) = TimestampHashSize /\
  0 <= Permissions pm < 2 ^ 32 /\
  (forall a, pm_Attributes pm = Some a -> Attributes_typed a).

(** The fixed part of the wire form: everything up to and including the permissions. *)
Definition encode_metadata_v1 (pm : PlaintextMetadata) : bytes :=
  le_bytes 2 (len (EncryptedFilename pm)) ++ EncryptedFilename pm ++
  [zb (SizeBucket pm)] ++ TimestampHash pm ++ le_bytes 4 (Permissions pm).

Definition marshalMetadata (pm : PlaintextMetadata) : result bytes :=
  if 65535 <? len (EncryptedFilename pm) then errorf ErrOther "filename too long"
  else if negb (knownCodec (pm_Codec pm)) then errorf ErrOther "unknown codec"
  else
    let buf := encode_metadata_v1 pm ++ [zb (pm_Codec pm)] in
    match pm_Attributes pm with
    | None => Ok buf
    | Some a =>
        match AppendAttributes [] a with
        | Err e => Err e
        | Ok attrs => Ok (buf ++ le_bytes 4 (len attrs) ++ attrs)
        end
    end.

(** The optional tail after the permissions: the codec byte, then the attributes. *)
Definition unmarshal_attributes (b : bytes) : result (option Attributes) :=
  if 0 <? len b then
    if len b <? 4 then errorf ErrOther "truncated attributes length"
    else
      let n := le_u32 b in
      let b := zdrop 4 b in
      if negb (n =? len b) then errorf ErrOther "attributes length mismatch"
      else match ParseAttributes b with
           | Err e => Err e
           | Ok a => Ok (Some a)
           end
  else Ok None.

Definition unmarshal_codec (b : bytes) : result (Z * bytes) :=
  match b with
  | [] => Ok (CodecNone, [])
  | c :: b => if knownCodec (bz c) then Ok (bz c, b) else errorf ErrOther "unknown codec"
  end.

Definition unmarshalMetadata (b : bytes) : result PlaintextMetadata :=
  if len b <? 2 then errorf ErrOther "truncated"
  else
    let fnLen := le_u16 b in
    let need := 2 + fnLen + 1 + 32 + 4 in
    if len b <? need then errorf ErrOther "too short"
    else
      let b := zdrop 2 b in
      let fn := ztake fnLen b in
      let b := zdrop fnLen b in
      let bucket := le_Z (ztake 1 b) in
      let b := zdrop 1 b in
      let ts := ztake 32 b in
      let b := zdrop 32 b in
      let perms := le_u32 b in
      let b := zdrop 4 b in
      match unmarshal_codec b with
      | Err e => Err e
      | Ok (codec, b) =>
          match unmarshal_attributes b with
          | Err e => Err e
          | Ok attrs => Ok (mk_pm fn bucket ts perms codec attrs)
          end
      end.

Lemma knownCodec_range c : knownCodec c = true -> 0 <= c <= 1.
Proof. unfold knownCodec, CodecNone, CodecZstd. intros H. apply orb_true_iff in H as [H|H]; b2p; lia. Qed.

Lemma len_encode_v1 pm : len (TimestampHash pm) = TimestampHashSize ->
  len (encode_metadata_v1 pm) = 2 + len (EncryptedFilename pm) + 1 + 32 + 4.
Proof. unfold encode_metadata_v1, TimestampHashSize. intros. len_lia. Qed.

(** Reading the fixed part leaves the reader at whatever follows it. *)
Lemma unmarshal_v1_app pm tail : pm_typed pm -> len (EncryptedFilename pm) <= 65535 ->
  unmarshalMetadata (encode_metadata_v1 pm ++ tail) =
    match unmarshal_codec tail with
    | Err e => Err e
    | Ok (codec, b) =>
        match unmarshal_attributes b with
        | Err e => Err e
        | Ok attrs => Ok (mk_pm (EncryptedFilename pm) (SizeBucket pm) (TimestampHash pm)
                            (Permissions pm) codec attrs)
        end
    end.
Proof.
  intros (Hb & Hts & Hp & _) Hfn. pose proof (len_nonneg (EncryptedFilename pm)).
  pose proof (len_encode_v1 pm Hts) as Hlen. unfold TimestampHashSize in Hts.
  unfold unmarshalMetadata. rewrite len_app. zdecide.
  unfold encode_metadata_v1 in *. rewrite <- !app_assoc, le_u16_app by lia. zdecide.
  rewrite (zdrop_app 2) by len_lia. rewrite ztake_app, zdrop_app by done.
  rewrite (ztake_app 1 [_]), (zdrop_app 1 [_]) by done.
  rewrite (ztake_app 32 (TimestampHash pm)), (zdrop_app 32 (TimestampHash pm)) by done.
  rewrite le_u32_app, (zdrop_app 4) by (lia || len_lia).
  replace (le_Z [zb (SizeBucket pm)]) with (SizeBucket pm); [done|].
  cbn [le_Z]. rewrite bz_zb, Z.mod_small by lia. lia.
Qed.

Lemma unmarshal_attributes_app a : Attributes_typed a -> validate a = Ok tt ->
  unmarshal_attributes (le_bytes 4 (len (encode_attributes a)) ++ encode_attributes a) = Ok (Some a).
Proof.
  intros Ht Hv. pose proof (attributes_len_bound a Hv) as Hl.
  pose proof (len_nonneg (encode_attributes a)). unfold unmarshal_attributes.
  rewrite len_app, len_le_bytes. zdecide. zdecide.
  unfold MaxAttributesSize, MaxXattrsSize, MaxLinkTargetLen in Hl.
  rewrite le_u32_app, zdrop_app, Z.eqb_refl by (lia || len_lia). cbn [negb].
  by rewrite ParseAttributes_encode.
Qed.

Lemma unmarshal_marshal (pm : PlaintextMetadata) (b : bytes) :
  pm_typed pm -> marshalMetadata pm = Ok b -> unmarshalMetadata b = Ok pm.
Proof.
  intros Ht H. unfold marshalMetadata, errorf in H. destruct (Z.ltb_spec 65535 (len (EncryptedFilename pm))); [done|].
  destruct (negb (knownCodec _)) eqn:Hc; [done|]. b2p. pose proof (knownCodec_range _ Hc).
  assert (Hcodec : forall r, unmarshal_codec ([zb (pm_Codec pm)] ++ r) = Ok (pm_Codec pm, r)).
  { intros r. cbn [app unmarshal_codec]. by rewrite bz_zb, Z.mod_small, Hc by lia. }
  destruct (pm_Attributes pm) as [a|] eqn:Ha.
  - destruct (AppendAttributes [] a) as [attrs|] eqn:Eat; [|done]. inv_ok H.
    apply AppendAttributes_Ok in Eat as [Hv ->]. rewrite app_nil_l, <- (app_assoc (encode_metadata_v1 pm)).
    rewrite unmarshal_v1_app, Hcodec, unmarshal_attributes_app by (done || apply Ht; done).
    by destruct pm; simpl in *; subst.
  - inv_ok H. rewrite unmarshal_v1_app, <- (app_nil_r [zb _]), Hcodec by done.
    by destruct pm; simpl in *; subst.
Qed.

Definition sample_pm : PlaintextMetadata :=
  mk_pm (str "encrypted") BucketSmall (replicate 32 Byte.x07) 420 CodecZstd (Some zero_attributes).

Lemma sample_pm_typed : pm_typed sample_pm.
Proof.
  unfold pm_typed, sample_pm; cbn [SizeBucket TimestampHash Permissions pm_Attributes].
  unfold BucketSmall. split; [lia|]. split; [reflexivity|]. split; [lia|]. intros a [= <-].
  apply zero_attributes_typed.
Defined.

(** Version1 metadata, which ends after the permissions, reads as an uncompressed
    entry without attributes. *)
Theorem metadata_version1_compat (pm : PlaintextMetadata)
  (Ht : pm_typed pm) (Hf : len (EncryptedFilename pm) <= 65535) :
  unmarshalMetadata (encode_metadata_v1 pm) =
    Ok (mk_pm (EncryptedFilename pm) (SizeBucket pm) (TimestampHash pm) (Permissions pm) CodecNone None).
Proof. rewrite <- (app_nil_r (encode_metadata_v1 pm)). by rewrite unmarshal_v1_app. Qed.

Lemma metadata_version1_compat_witness :
  unmarshalMetadata (encode_metadata_v1 sample_pm) =
    Ok (mk_pm (str "encrypted") BucketSmall (replicate 32 Byte.x07) 420 CodecNone None).
Proof. apply (metadata_version1_compat sample_pm sample_pm_typed). vm_compute. discriminate. Defined.

(** The reader's bound on sealed metadata covers everything a writer can marshal. *)
Lemma marshalMetadata_len (pm : PlaintextMetadata) (b : bytes) :
  len (TimestampHash pm) = TimestampHashSize -> marshalMetadata pm = Ok b ->
  len b <= MaxMetadataSize.
Proof.
  unfold marshalMetadata, errorf. intros Hts H. pose proof (len_encode_v1 pm Hts) as Hl.
  destruct (Z.ltb_spec 65535 (len (EncryptedFilename pm))); [done|].
  destruct (negb _); [done|].
  unfold MaxMetadataSize, MaxAttributesSize, MaxXattrsSize, MaxLinkTargetLen.
  destruct (pm_Attributes pm) as [a|].
  - destruct (AppendAttributes [] a) as [attrs|] eqn:Ea; [|done]. inv_ok H.
    apply AppendAttributes_Ok in Ea as [Hv ->]. pose proof (attributes_len_bound a Hv) as Hab.
    unfold MaxAttributesSize, MaxXattrsSize, MaxLinkTargetLen in Hab. len_lia.
  - inv_ok H. len_lia.
Qed.

(** Metadata survives sealing's plaintext form: whatever [marshalMetadata] writes,
    with or without attributes, fits the reader's size bound and [unmarshalMetadata]
    reads it back unchanged. *)
Theorem metadata_roundtrip (pm : PlaintextMetadata) (b : bytes)
  (Ht : pm_typed pm) (H : marshalMetadata pm = Ok b) :
  unmarshalMetadata b = Ok pm /\ len b <= MaxMetadataSize.
Proof.
  split; [by apply unmarshal_marshal|]. apply (marshalMetadata_len pm b); [apply Ht|done].
Qed.

Lemma metadata_roundtrip_witness :
  is_ok (marshalMetadata sample_pm) = true /\
  match marshalMetadata sample_pm with Ok b => unmarshalMetadata b = Ok sample_pm | Err _ => False end.
Proof.
  split; [vm_compute; reflexivity|].
  destruct (marshalMetadata sample_pm) as [b|e] eqn:E; [|vm_compute in E; discriminate E].
  exact (proj1 (metadata_roundtrip sample_pm b sample_pm_typed E)).
Defined.
