(* ===== verification/IndexCodec.v ===== *)
(** * The index decoder and session indexes (archive/incremental.go)

    [indexDecoder] is the sticky-error decoder shared by session indexes and archive
    directories: after the first failure it holds no bytes and yields zero values. Its
    [bytes] method slices without checking that the length is non-negative, so a decoder
    call either returns ([Some]) or panics ([None]). *)

From S2P Require Import Prelude Bytes Names Attributes Metadata.

(** ** Constants *)

Definition EntryTypePack : Z := 3.
Definition EntryTypeIndex : Z := 4.
Definition EntryTypeCheckpoint : Z := 5.
Definition HeaderFlagIncremental : Z := 1.

Definition MinCDCChunkSize : Z := 262144.
Definition AvgCDCChunkSize : Z := 1048576.
Definition MaxCDCChunkSize : Z := 4194304.
Definition zstdMaxOverhead : Z := 256.
Definition MaxPackSize : Z := 67108864.
Definition MaxIndexSize : Z := 268435456.
Definition MaxStoredChunkSize : Z := MaxCDCChunkSize + zstdMaxOverhead.
Definition HMACSize : Z := 32.
Definition ReservedSize : Z := 32.
Definition FooterSize : Z := HMACSize + ReservedSize.
Definition indexMagic : bytes := str "SARCIDX1".

(** ** Data *)

Record ChunkRecord := mk_chunk {
  cr_ID : bytes;
  cr_Pack : Z;
  cr_Offset : Z;
  cr_StoredLen : Z;
  cr_RawLen : Z;
  cr_Codec : Z
}.

Record FileVersion := mk_fileversion {
  fv_Name : bytes;
  fv_Attributes : Attributes;
  fv_Size : Z;
  fv_Chunks : list Z
}.

Record SessionIndex := mk_index {
  Session : Z;
  Time : Z;
  PrevIndex : Z;
  FirstChunk : Z;
  Packs : list Z;
  Chunks : list ChunkRecord;
  Files : list FileVersion;
  Deleted : list bytes
}.

#[global] Instance ChunkRecord_eq_dec : EqDecision ChunkRecord.
Proof. solve_decision. Defined.
#[global] Instance FileVersion_eq_dec : EqDecision FileVersion.
Proof. solve_decision. Defined.

(** ** Marshalling *)

Definition appendString (s : bytes) : bytes := put_uvarint (len s) ++ s.

Definition encode_chunk (c : ChunkRecord) : bytes :=
  cr_ID c ++ put_uvarint (cr_Pack c) ++ put_uvarint (cr_Offset c) ++
  put_uvarint (cr_StoredLen c) ++ put_uvarint (cr_RawLen c) ++ [zb (cr_Codec c)].

(** Chunk numbers are delta-encoded; the subtraction is on uint64. *)
Fixpoint encode_deltas (prev : Z) (ns : list Z) : bytes :=
  match ns with
  | [] => []
  | n :: ns => put_varint (i64 (u64 (n - prev))) ++ encode_deltas n ns
  end.

Definition marshal_file (f : FileVersion) : result bytes :=
  if negb (ValidEntryName (fv_Name f)) then errorf ErrOther "invalid file name"
  else if negb (Kind (fv_Attributes f) =? KindRegular) &&
          (negb (fv_Size f =? 0) || negb (len (fv_Chunks f) =? 0))
  then errorf ErrOther "entry with data"
  else match AppendAttributes [] (fv_Attributes f) with
       | Err e => Err e
       | Ok attrs =>
           Ok (appendString (fv_Name f) ++ put_uvarint (len attrs) ++ attrs ++
               put_uvarint (fv_Size f) ++ put_uvarint (len (fv_Chunks f)) ++
               encode_deltas 0 (fv_Chunks f))
       end.

Fixpoint marshal_list {A} (f : A -> result bytes) (l : list A) : result bytes :=
  match l with
  | [] => Ok []
  | x :: l =>
      match f x with
      | Err e => Err e
      | Ok b => match marshal_list f l with Err e => Err e | Ok bs => Ok (b ++ bs) end
      end
  end.

Definition marshal_deleted (name : bytes) : result bytes :=
  if ValidEntryName name then Ok (appendString name)
  else errorf ErrOther "invalid deleted name".

Definition Marshal (si : SessionIndex) : result bytes :=
  let head :=
    put_uvarint (Session si) ++ put_varint (Time si) ++ put_uvarint (PrevIndex si) ++
    put_uvarint (FirstChunk si) ++
    put_uvarint (len (Packs si)) ++ concat (map put_uvarint (Packs si)) ++
    put_uvarint (len (Chunks si)) ++ concat (map encode_chunk (Chunks si)) in
  match marshal_list marshal_file (Files si) with
  | Err e => Err e
  | Ok files =>
      match marshal_list marshal_deleted (Deleted si) with
      | Err e => Err e
      | Ok deleted =>
          let b := indexMagic ++ head ++ put_uvarint (len (Files si)) ++ files ++
                   put_uvarint (len (Deleted si)) ++ deleted in
          if MaxIndexSize <? len b then errorf ErrOther "index too large" else Ok b
      end
  end.

(** ** The decoder *)

Record indexDecoder := mk_dec { d_b : bytes; d_err : option error; d_malformed : option sentinel }.

(** A decoder call: [None] is a Go panic. *)
Definition dec (A : Type) : Type := indexDecoder -> option (A * indexDecoder).

Definition dret {A} (a : A) : dec A := fun d => Some (a, d).
Definition dbind {A B} (m : dec A) (k : A -> dec B) : dec B :=
  fun d => match m d with Some (a, d) => k a d | None => None end.

Notation "'let!' x ':=' m 'in' k" := (dbind m (fun x => k))
  (at level 10, x name, m at level 100, k at level 200) : go_scope.
Open Scope go_scope.

Definition d_fail (msg : string) : dec unit := fun d =>
  let kind := match d_malformed d with Some s => s | None => ErrMalformedIndex end in
  let e := match d_err d with None => Some (mk_error kind msg) | Some e => Some e end in
  Some (tt, mk_dec [] e (d_malformed d)).

(** [if d.err == nil { m }]. *)
Definition d_ok : dec bool := fun d =>
  Some (match d_err d with None => true | Some _ => false end, d).

Definition d_uvarint : dec Z := fun d =>
  match uvarint (d_b d) with
  | None => dbind (d_fail "bad varint") (fun _ => dret 0) d
  | Some (v, n) => Some (v, mk_dec (zdrop n (d_b d)) (d_err d) (d_malformed d))
  end.

Definition d_varint : dec Z := fun d =>
  match varint (d_b d) with
  | None => dbind (d_fail "bad varint") (fun _ => dret 0) d
  | Some (v, n) => Some (v, mk_dec (zdrop n (d_b d)) (d_err d) (d_malformed d))
  end.

Definition d_remaining : dec Z := fun d => Some (len (d_b d), d).

Definition d_count (minSize : Z) : dec Z :=
  let! n := d_uvarint in
  let! r := d_remaining in
  if r / minSize <? n then let! _ := d_fail "count exceeds remaining data" in dret 0
  else dret n.

(** [d.bytes(n)]: the slice [d.b[:n]] panics for a negative [n], which the length test
    lets through. *)
Definition d_bytes (n : Z) : dec bytes := fun d =>
  if len (d_b d) <? n then dbind (d_fail "truncated") (fun _ => dret []) d
  else match go_slice n (d_b d) with
       | None => None
       | Some (x, r) => Some (x, mk_dec r (d_err d) (d_malformed d))
       end.

Definition d_readByte : dec Z :=
  let! b := d_bytes 1 in
  dret (match b with [] => 0 | x :: _ => bz x end).

Definition d_name : dec bytes :=
  let! n := d_uvarint in
  if MaxEntryNameLen <? n then let! _ := d_fail "name too long" in dret []
  else
    let! name := d_bytes n in
    let! ok := d_ok in
    if ok && negb (ValidEntryName name) then let! _ := d_fail "invalid name" in dret name
    else dret name.

(** [copy(c.ID[:], b)] into a zeroed array of [HMACSize] bytes. *)
Definition copy_id (b : bytes) : bytes := ztake HMACSize (b ++ replicate 32 Byte.x00).

Definition chunk_problem (packs pack offset stored raw codec : Z) : option string :=
  if packs <=? pack then Some "chunk in unknown pack"%string
  else if (stored =? 0) || (MaxStoredChunkSize <? stored) || (raw =? 0) || (MaxCDCChunkSize <? raw)
  then Some "chunk size out of range"%string
  else if (MaxPackSize <? offset) || (MaxPackSize - offset <? stored)
  then Some "chunk past pack end"%string
  else if negb (codec =? CodecNone) && negb (codec =? CodecZstd)
  then Some "unknown chunk codec"%string
  else if (codec =? CodecNone) && negb (stored =? raw)
  then Some "stored size of uncompressed chunk differs"%string
  else None.

Definition d_check (p : option string) : dec unit :=
  let! ok := d_ok in
  if ok then match p with Some msg => d_fail msg | None => dret tt end else dret tt.

Definition d_chunk (packs : Z) : dec ChunkRecord :=
  let! id := d_bytes HMACSize in
  let! pack := d_uvarint in
  let! offset := d_uvarint in
  let! stored := d_uvarint in
  let! raw := d_uvarint in
  let! codec := d_readByte in
  let! _ := d_check (chunk_problem packs pack offset stored raw codec) in
  dret (mk_chunk (copy_id id) (u32 pack) offset (u32 stored) (u32 raw) codec).

(** The attributes of a file version or directory record: their length, then their bytes.
    The length test records an error but does not return. *)
Definition d_attributes : dec Attributes :=
  let! attrsLen := d_uvarint in
  let! _ := if MaxAttributesSize <? attrsLen then d_fail "attributes too large" else dret tt in
  let! raw := d_bytes (i64 attrsLen) in
  let! ok := d_ok in
  if ok then
    match ParseAttributes raw with
    | Err _ => let! _ := d_fail "bad attributes" in dret zero_attributes
    | Ok a => dret a
    end
  else dret zero_attributes.

Fixpoint d_deltas (count : nat) (chunkLimit prev : Z) : dec (list Z) :=
  match count with
  | O => dret []
  | S count =>
      let! delta := d_varint in
      let n := u64 (prev + u64 delta) in
      let! _ := d_check (if chunkLimit <=? n then Some "file references an unknown chunk"%string
                         else None) in
      let! rest := d_deltas count chunkLimit n in
      dret (n :: rest)
  end.

Definition d_file (chunkLimit : Z) : dec FileVersion :=
  let! name := d_name in
  let! attrs := d_attributes in
  let! size := d_uvarint in
  let! count := d_count 1 in
  let! chunks := d_deltas (Z.to_nat count) chunkLimit 0 in
  let! _ := d_check (if negb (Kind attrs =? KindRegular) && (negb (size =? 0) || negb (len chunks =? 0))
                     then Some "directory or link with data"%string else None) in
  dret (mk_fileversion name attrs size chunks).

Fixpoint d_repeat {A} (count : nat) (m : dec A) : dec (list A) :=
  match count with
  | O => dret []
  | S count =>
      let! x := m in
      let! xs := d_repeat count m in
      dret (x :: xs)
  end.

Definition d_index : dec SessionIndex :=
  let! session := d_uvarint in
  let! time := d_varint in
  let! prev := d_uvarint in
  let! first := d_uvarint in
  let! npacks := d_count 1 in
  let! packs := d_repeat (Z.to_nat npacks) d_uvarint in
  let! nchunks := d_count (HMACSize + 5) in
  let! chunks := d_repeat (Z.to_nat nchunks) (d_chunk (len packs)) in
  let chunkLimit := u64 (first + len chunks) in
  let! nfiles := d_count 5 in
  let! files := d_repeat (Z.to_nat nfiles) (d_file chunkLimit) in
  let! ndeleted := d_count 2 in
  let! deleted := d_repeat (Z.to_nat ndeleted) d_name in
  dret (mk_index session time prev first packs chunks files deleted).

Definition has_prefix (p b : bytes) : bool := bytes_eqb (ztake (len p) b) p.

(** [None]: a panic; [Some (Err _)]: a reported error. *)
Definition ParseSessionIndex (b : bytes) : option (result SessionIndex) :=
  if (MaxIndexSize <? len b) || negb (has_prefix indexMagic b)
  then Some (errorf ErrMalformedIndex "bad magic or size")
  else
    match d_index (mk_dec (zdrop (len indexMagic) b) None None) with
    | None => None
    | Some (si, d) =>
        match d_err d with
        | Some e => Some (Err e)
        | None =>
            if negb (len (d_b d) =? 0) then Some (errorf ErrMalformedIndex "trailing bytes")
            else if Session si =? 0 then Some (errorf ErrMalformedIndex "session 0")
            else Some (Ok si)
        end
    end.

(** ** Reading back what was written

    [reads m x v]: on a healthy decoder whose input starts with [x], [m] consumes exactly
    [x] and returns [v]. The relation composes along [dbind], so the round trip of a
    record is the composition of those of its fields. *)
Definition reads {A} (m : dec A) (x : bytes) (v : A) : Prop :=
  forall r mal, m (mk_dec (x ++ r) None mal) = Some (v, mk_dec r None mal).

Lemma reads_ret {A} (v : A) : reads (dret v) [] v.
Proof. done. Qed.

Lemma reads_bind {A B} (m : dec A) (k : A -> dec B) x y v w :
  reads m x v -> reads (k v) y w -> reads (dbind m k) (x ++ y) w.
Proof. intros Hm Hk r mal. unfold dbind. rewrite <- app_assoc, Hm. apply Hk. Qed.

(** A last field that is followed by nothing, or a step that reads nothing. *)
Lemma reads_bind_last {A B} (m : dec A) (k : A -> dec B) x v w :
  reads m x v -> reads (k v) [] w -> reads (dbind m k) x w.
Proof. intros. rewrite <- (app_nil_r x). by eapply reads_bind. Qed.

Lemma reads_bind_nil {A B} (m : dec A) (k : A -> dec B) y v w :
  reads m [] v -> reads (k v) y w -> reads (dbind m k) y w.
Proof. intros. rewrite <- (app_nil_l y). by eapply reads_bind. Qed.

Lemma reads_uvarint v : 0 <= v < 2 ^ 64 -> reads d_uvarint (put_uvarint v) v.
Proof. intros Hv r mal. unfold d_uvarint; cbn. rewrite uvarint_put by done. by rewrite zdrop_app. Qed.

Lemma reads_varint v : - 2 ^ 63 <= v < 2 ^ 63 -> reads d_varint (put_varint v) v.
Proof. intros Hv r mal. unfold d_varint; cbn. rewrite varint_put by done. by rewrite zdrop_app. Qed.

Lemma reads_bytes n x : n = len x -> reads (d_bytes n) x x.
Proof.
  intros -> r mal. unfold d_bytes; cbn [d_b d_err d_malformed]. ltb_false.
  by rewrite go_slice_app.
Qed.

Lemma reads_readByte z : 0 <= z < 256 -> reads d_readByte [zb z] z.
Proof.
  intros. eapply reads_bind_last; [by apply reads_bytes|].
  cbv beta iota. rewrite bz_zb, Z.mod_small by lia. apply reads_ret.
Qed.

Lemma reads_ok : reads d_ok [] true.
Proof. done. Qed.

Lemma reads_check_None : reads (d_check None) [] tt.
Proof. done. Qed.

(** A count is accepted when the elements that follow are at least [minSize] bytes each. *)
Lemma reads_count_bind {B} (f : Z -> dec B) minSize n x v :
  0 < minSize -> 0 <= n < 2 ^ 64 -> n * minSize <= len x ->
  reads (f n) x v -> reads (dbind (d_count minSize) f) (put_uvarint n ++ x) v.
Proof.
  intros Hm Hn Hx Hf r mal. unfold dbind at 1, d_count.
  unfold dbind at 1. rewrite <- app_assoc, (reads_uvarint n Hn).
  cbn -[Z.div]. assert (n <= len (x ++ r) / minSize) by (apply Z.div_le_lower_bound; len_lia).
  ltb_false. apply Hf.
Qed.

Lemma reads_name name : ValidEntryName name = true -> reads d_name (appendString name) name.
Proof.
  intros Hv. pose proof (valid_name_len name Hv). unfold MaxEntryNameLen in *.
  unfold d_name, appendString. eapply reads_bind; [apply reads_uvarint; lia|].
  unfold MaxEntryNameLen. ltb_false. eapply reads_bind_last; [by apply reads_bytes|].
  eapply reads_bind_nil; [apply reads_ok|]. rewrite Hv. apply reads_ret.
Qed.

Lemma reads_repeat {A} (m : dec A) (enc : A -> bytes) l :
  Forall (fun x => reads m (enc x) x) l ->
  reads (d_repeat (length l) m) (concat (map enc l)) l.
Proof.
  induction 1 as [|x l Hx _ IH]; [apply reads_ret|].
  cbn [length d_repeat map concat]. eapply reads_bind; [done|].
  eapply reads_bind_last; [done|]. apply reads_ret.
Qed.

Lemma concat_map_len {A} (enc : A -> bytes) k l :
  Forall (fun x => k <= len (enc x)) l -> len l * k <= len (concat (map enc l)).
Proof. induction 1; cbn [map concat]; len_lia. Qed.

(** A counted list followed by [k]. *)
Lemma reads_list_bind {A B} (m : dec A) (enc : A -> bytes) (k : list A -> dec B) minSize l y v :
  0 < minSize -> len l < 2 ^ 64 ->
  Forall (fun x => minSize <= len (enc x)) l -> Forall (fun x => reads m (enc x) x) l ->
  reads (k l) y v ->
  reads (let! n := d_count minSize in let! xs := d_repeat (Z.to_nat n) m in k xs)
    (put_uvarint (len l) ++ concat (map enc l) ++ y) v.
Proof.
  intros Hm Hl Hlen Hr Hk. pose proof (len_nonneg l). apply concat_map_len in Hlen.
  apply reads_count_bind; [done|lia|len_lia|].
  unfold len at 1. rewrite Nat2Z.id. eapply reads_bind; [by apply reads_repeat|done].
Qed.

(** ** Well-formed indexes *)

Record chunk_wf (packs : Z) (c : ChunkRecord) : Prop := {
  cw_id : len (cr_ID c) = HMACSize;
  cw_pack : 0 <= cr_Pack c < 2 ^ 32;
  cw_offset : 0 <= cr_Offset c < 2 ^ 64;
  cw_stored : 0 <= cr_StoredLen c < 2 ^ 32;
  cw_raw : 0 <= cr_RawLen c < 2 ^ 32;
  cw_codec : 0 <= cr_Codec c < 256;
  cw_ok : chunk_problem packs (cr_Pack c) (cr_Offset c) (cr_StoredLen c) (cr_RawLen c) (cr_Codec c) = None
}.

Record file_wf (limit : Z) (f : FileVersion) : Prop := {
  fw_name : ValidEntryName (fv_Name f) = true;
  fw_typed : Attributes_typed (fv_Attributes f);
  fw_valid : validate (fv_Attributes f) = Ok tt;
  fw_size : 0 <= fv_Size f < 2 ^ 64;
  fw_chunks : Forall (fun n => 0 <= n < limit) (fv_Chunks f);
  fw_kind : Kind (fv_Attributes f) = KindRegular \/ (fv_Size f = 0 /\ fv_Chunks f = [])
}.

(** What a writer must respect beyond what [Marshal] itself checks; every chunk number
    fits below the end of the numbering. *)
Record index_wf (si : SessionIndex) : Prop := {
  iw_session : 1 <= Session si < 2 ^ 64;
  iw_time : - 2 ^ 63 <= Time si < 2 ^ 63;
  iw_prev : 0 <= PrevIndex si < 2 ^ 64;
  iw_first : 0 <= FirstChunk si;
  iw_limit : FirstChunk si + len (Chunks si) < 2 ^ 64;
  iw_packs : Forall (fun p => 0 <= p < 2 ^ 64) (Packs si);
  iw_chunks : Forall (chunk_wf (len (Packs si))) (Chunks si);
  iw_files : Forall (file_wf (FirstChunk si + len (Chunks si))) (Files si);
  iw_deleted : Forall (fun n => ValidEntryName n = true) (Deleted si)
}.

Lemma reads_chunk packs c : chunk_wf packs c -> reads (d_chunk packs) (encode_chunk c) c.
Proof.
  intros [Hid Hp Ho Hs Hr Hc Hok]. unfold d_chunk, encode_chunk, HMACSize in *.
  eapply reads_bind; [by apply reads_bytes|].
  eapply reads_bind; [apply reads_uvarint; lia|].
  eapply reads_bind; [by apply reads_uvarint|].
  eapply reads_bind; [apply reads_uvarint; lia|].
  eapply reads_bind; [apply reads_uvarint; lia|].
  eapply reads_bind_last; [by apply reads_readByte|].
  rewrite Hok. eapply reads_bind_nil; [apply reads_check_None|].
  unfold copy_id, HMACSize, u32. rewrite ztake_app, !Z.mod_small by lia.
  destruct c; apply reads_ret.
Qed.

Lemma delta_step n prev : 0 <= n < 2 ^ 64 -> u64 (prev + u64 (i64 (u64 (n - prev)))) = n.
Proof.
  intros. assert (0 <= u64 (n - prev) < 2 ^ 64) by (unfold u64; apply Z.mod_pos_bound; lia).
  rewrite u64_i64 by done. unfold u64. rewrite Zplus_mod_idemp_r.
  replace (prev + (n - prev)) with n by lia. by apply Z.mod_small.
Qed.

Lemma reads_deltas limit ns : limit <= 2 ^ 64 -> forall prev,
  Forall (fun n => 0 <= n < limit) ns ->
  reads (d_deltas (length ns) limit prev) (encode_deltas prev ns) ns.
Proof.
  intros Hl. induction ns as [|n ns IH]; intros prev H; [apply reads_ret|].
  apply Forall_cons in H as [Hn H]. cbn [length d_deltas encode_deltas].
  eapply reads_bind; [apply reads_varint, i64_range|].
  cbv zeta. rewrite delta_step by lia. leb_false.
  eapply reads_bind_nil; [apply reads_check_None|].
  eapply reads_bind_last; [by apply IH|]. apply reads_ret.
Qed.

Lemma encode_deltas_len prev ns : len ns * 1 <= len (encode_deltas prev ns).
Proof.
  revert prev. induction ns as [|n ns IH]; intros prev; cbn [encode_deltas]; [len_lia|].
  specialize (IH n). pose proof (put_varint_nonempty (i64 (u64 (n - prev)))). len_lia.
Qed.

Lemma reads_attributes a : Attributes_typed a -> validate a = Ok tt ->
  reads d_attributes (put_uvarint (len (encode_attributes a)) ++ encode_attributes a) a.
Proof.
  intros Ht Hv. pose proof (attributes_len_bound a Hv) as Hl.
  pose proof (len_nonneg (encode_attributes a)).
  unfold d_attributes, MaxAttributesSize, MaxXattrsSize, MaxLinkTargetLen in *.
  eapply reads_bind; [apply reads_uvarint; lia|]. ltb_false.
  eapply reads_bind_nil; [apply reads_ret|].
  eapply reads_bind_last; [apply reads_bytes; rewrite i64_small; lia|].
  eapply reads_bind_nil; [apply reads_ok|].
  rewrite ParseAttributes_encode by done. apply reads_ret.
Qed.

(** The bytes [marshal_file] writes for an acceptable file version. *)
Definition encode_file (f : FileVersion) : bytes :=
  appendString (fv_Name f) ++
  put_uvarint (len (encode_attributes (fv_Attributes f))) ++ encode_attributes (fv_Attributes f) ++
  put_uvarint (fv_Size f) ++ put_uvarint (len (fv_Chunks f)) ++ encode_deltas 0 (fv_Chunks f).

Lemma marshal_file_Ok f b : marshal_file f = Ok b -> b = encode_file f.
Proof.
  unfold marshal_file, errorf. destruct (negb _); [done|]. destruct (_ && _); [done|].
  destruct (AppendAttributes [] _) as [attrs|] eqn:E; [|done]. intros H. inv_ok H.
  by apply AppendAttributes_Ok in E as [_ ->].
Qed.

Lemma marshal_list_Ok {A} (f : A -> result bytes) (enc : A -> bytes) l bs :
  (forall x b, f x = Ok b -> b = enc x) -> marshal_list f l = Ok bs -> bs = concat (map enc l).
Proof.
  intros Hf. revert bs. induction l as [|x l IH]; intros bs H; cbn in *.
  - by injection H.
  - destruct (f x) as [b|] eqn:E; [|done]. destruct (marshal_list f l) as [bs'|]; [|done].
    inv_ok H. rewrite (Hf _ _ E). f_equal. by apply IH.
Qed.

Lemma reads_file limit f : limit < 2 ^ 64 -> len (fv_Chunks f) < 2 ^ 64 ->
  file_wf limit f -> reads (d_file limit) (encode_file f) f.
Proof.
  intros Hl Hlen [Hn Ht Hv Hs Hc Hk]. unfold d_file, encode_file.
  eapply reads_bind; [by apply reads_name|].
  rewrite (app_assoc (put_uvarint _) (encode_attributes _)).
  eapply reads_bind; [by apply reads_attributes|].
  eapply reads_bind; [by apply reads_uvarint|].
  pose proof (len_nonneg (fv_Chunks f)).
  eapply reads_count_bind; [lia|lia|apply encode_deltas_len|].
  unfold len at 1. rewrite Nat2Z.id.
  eapply reads_bind_last; [apply reads_deltas; [lia|done]|].
  assert (negb (Kind (fv_Attributes f) =? KindRegular) &&
          (negb (fv_Size f =? 0) || negb (len (fv_Chunks f) =? 0)) = false) as ->.
  { destruct Hk as [->|[-> ->]]; [done|]. by destruct (Kind _ =? _). }
  eapply reads_bind_nil; [apply reads_check_None|]. destruct f; apply reads_ret.
Qed.

Lemma encode_file_len f : file_wf (2 ^ 64) f \/ ValidEntryName (fv_Name f) = true -> 5 <= len (encode_file f).
Proof.
  intros H. assert (ValidEntryName (fv_Name f) = true) as Hn by (destruct H as [[]|]; done).
  pose proof (valid_name_len _ Hn). unfold encode_file, appendString.
  pose proof (put_uvarint_nonempty (len (fv_Name f))).
  pose proof (put_uvarint_nonempty (len (encode_attributes (fv_Attributes f)))).
  pose proof (put_uvarint_nonempty (fv_Size f)).
  pose proof (put_uvarint_nonempty (len (fv_Chunks f))). len_lia.
Qed.

Lemma encode_chunk_len c : len (cr_ID c) = HMACSize -> HMACSize + 5 <= len (encode_chunk c).
Proof.
  intros. unfold encode_chunk.
  pose proof (put_uvarint_nonempty (cr_Pack c)). pose proof (put_uvarint_nonempty (cr_Offset c)).
  pose proof (put_uvarint_nonempty (cr_StoredLen c)). pose proof (put_uvarint_nonempty (cr_RawLen c)).
  len_lia.
Qed.

Definition encode_index (si : SessionIndex) : bytes :=
  put_uvarint (Session si) ++ put_varint (Time si) ++ put_uvarint (PrevIndex si) ++
  put_uvarint (FirstChunk si) ++
  put_uvarint (len (Packs si)) ++ concat (map put_uvarint (Packs si)) ++
  put_uvarint (len (Chunks si)) ++ concat (map encode_chunk (Chunks si)) ++
  put_uvarint (len (Files si)) ++ concat (map encode_file (Files si)) ++
  put_uvarint (len (Deleted si)) ++ concat (map appendString (Deleted si)).

Lemma Marshal_Ok si b : Marshal si = Ok b ->
  b = indexMagic ++ encode_index si /\ len b <= MaxIndexSize.
Proof.
  unfold Marshal, errorf. intros H.
  destruct (marshal_list marshal_file _) as [fs|] eqn:Ef; [|done].
  destruct (marshal_list marshal_deleted _) as [ds|] eqn:Ed; [|done].
  apply (marshal_list_Ok _ encode_file) in Ef; [|apply marshal_file_Ok].
  apply (marshal_list_Ok _ appendString) in Ed;
    [|intros x b' Hx; unfold marshal_deleted, errorf in Hx; destruct (ValidEntryName x); [by inv_ok Hx|done]].
  subst. cbv zeta in H. destruct (Z.ltb_spec MaxIndexSize
    (len (indexMagic ++ (put_uvarint (Session si) ++ put_varint (Time si) ++ put_uvarint (PrevIndex si) ++
    put_uvarint (FirstChunk si) ++
    put_uvarint (len (Packs si)) ++ concat (map put_uvarint (Packs si)) ++
    put_uvarint (len (Chunks si)) ++ concat (map encode_chunk (Chunks si))) ++
    put_uvarint (len (Files si)) ++ concat (map encode_file (Files si)) ++
                   put_uvarint (len (Deleted si)) ++ concat (map appendString (Deleted si))))); [done|].
  inv_ok H. split; [|done]. f_equal. unfold encode_index. by rewrite <- !app_assoc.
Qed.

Lemma Forall_concat_le {A} (enc : A -> bytes) l x : x ∈ l -> len (enc x) <= len (concat (map enc l)).
Proof.
  induction 1; cbn [map concat]; len_lia.
Qed.

Lemma appendString_len name : ValidEntryName name = true -> 2 <= len (appendString name).
Proof.
  intros H. pose proof (valid_name_len _ H). unfold appendString.
  pose proof (put_uvarint_nonempty (len name)). len_lia.
Qed.

Lemma reads_index si : index_wf si -> len (encode_index si) < 2 ^ 64 ->
  reads d_index (encode_index si) si.
Proof.
  intros [] Hlen. pose proof (len_nonneg (Chunks si)).
  assert (Hp : Forall (fun x => 1 <= len (put_uvarint x)) (Packs si))
    by (apply Forall_forall; intros; apply put_uvarint_nonempty).
  assert (Hc : Forall (fun x => HMACSize + 5 <= len (encode_chunk x)) (Chunks si))
    by (eapply Forall_impl; [exact iw_chunks0|]; intros c []; by apply encode_chunk_len).
  assert (Hf : Forall (fun x => 5 <= len (encode_file x)) (Files si))
    by (eapply Forall_impl; [exact iw_files0|]; intros f []; apply encode_file_len; by right).
  assert (Hd : Forall (fun x => 2 <= len (appendString x)) (Deleted si))
    by (eapply Forall_impl; [exact iw_deleted0|]; intros ?; apply appendString_len).
  pose proof (concat_map_len _ _ _ Hp). pose proof (concat_map_len _ _ _ Hc).
  pose proof (concat_map_len _ _ _ Hf). pose proof (concat_map_len _ _ _ Hd).
  assert (Hfl : Forall (fun f => len (fv_Chunks f) < 2 ^ 64) (Files si)).
  { apply Forall_forall. intros f Hin. pose proof (Forall_concat_le encode_file _ _ Hin) as Hle.
    unfold encode_file in Hle at 1. pose proof (encode_deltas_len 0 (fv_Chunks f)).
    unfold encode_index in Hlen. len_lia. }
  unfold encode_index in Hlen. unfold HMACSize in *.
  unfold d_index, encode_index.
  eapply reads_bind; [apply reads_uvarint; lia|].
  eapply reads_bind; [by apply reads_varint|].
  eapply reads_bind; [by apply reads_uvarint|].
  eapply reads_bind; [apply reads_uvarint; lia|].
  eapply reads_list_bind; [lia|len_lia|done| |].
  { eapply Forall_impl; [exact iw_packs0|]. intros ?. apply reads_uvarint. }
  eapply reads_list_bind; [unfold HMACSize; lia|len_lia|done| |].
  { eapply Forall_impl; [exact iw_chunks0|]. intros ?. apply reads_chunk. }
  cbv zeta. unfold u64. rewrite (Z.mod_small (FirstChunk si + len (Chunks si))) by lia.
  eapply reads_list_bind; [lia|len_lia|done| |].
  { apply Forall_forall. intros f Hin. rewrite Forall_forall in Hfl, iw_files0.
    apply reads_file; [lia|by apply Hfl|by apply iw_files0]. }
  rewrite <- (app_nil_r (concat (map appendString _))).
  eapply reads_list_bind; [lia|len_lia|done| |].
  { eapply Forall_impl; [exact iw_deleted0|]. intros ?. apply reads_name. }
  destruct si; apply reads_ret.
Qed.

Lemma has_prefix_app p r : has_prefix p (p ++ r) = true.
Proof. unfold has_prefix. rewrite ztake_app by done. apply bytes_eqb_refl. Qed.

Lemma Parse_Marshal (si : SessionIndex) (b : bytes) : index_wf si -> Marshal si = Ok b -> ParseSessionIndex b = Some (Ok si).
Proof.
  intros Hwf H. apply Marshal_Ok in H as [-> Hl]. unfold ParseSessionIndex.
  rewrite has_prefix_app. ltb_false. cbn [negb orb]. rewrite zdrop_app by done.
  rewrite len_app in Hl. pose proof (len_nonneg indexMagic). unfold MaxIndexSize in Hl.
  pose proof (reads_index si Hwf ltac:(lia) [] None) as Hr. rewrite app_nil_r in Hr.
  rewrite Hr. cbn [d_err d_b negb]. rewrite len_nil, Z.eqb_refl. cbn [negb].
  destruct Hwf. by eqb_false.
Qed.

(** A session index survives the wire: every well-formed index that [Marshal] encodes
    is parsed back unchanged (and parsing does not panic on it). *)
Theorem session_index_roundtrip (si : SessionIndex) (b : bytes)
  (Hwf : index_wf si) (H : Marshal si = Ok b) : ParseSessionIndex b = Some (Ok si).
Proof. by apply Parse_Marshal. Qed.

Definition sample_index : SessionIndex :=
  mk_index 2 1700000000 94 3 [400; 900]
    [mk_chunk (replicate 32 Byte.x01) 1 7 100 300 CodecZstd;
     mk_chunk (replicate 32 Byte.x02) 0 0 5 5 CodecNone]
    [mk_fileversion (str "a.txt") zero_attributes 305 [3; 4; 0]]
    [str "old/b.txt"].

Lemma sample_index_wf : index_wf sample_index.
Proof.
  constructor; cbn [Session Time PrevIndex FirstChunk Chunks Packs Files Deleted sample_index].
  1-4: lia. { reflexivity. }
  - repeat (constructor; [lia|]). constructor.
  - repeat (constructor; [constructor; unfold CodecZstd, CodecNone; cbn; try lia; reflexivity|]). constructor.
  - constructor; [|constructor].
    constructor; [reflexivity|apply zero_attributes_typed|reflexivity|cbn; lia| |by left].
    repeat (constructor; [unfold len; cbn; lia|]). constructor.
  - repeat (constructor; [reflexivity|]). constructor.
Defined.

Lemma session_index_roundtrip_witness :
  is_ok (Marshal sample_index) = true /\
  match Marshal sample_index with
  | Ok b => ParseSessionIndex b = Some (Ok sample_index) | Err _ => False end.
Proof.
  split; [vm_compute; reflexivity|].
  destruct (Marshal sample_index) as [b|e] eqn:E; [|vm_compute in E; discriminate E].
  exact (session_index_roundtrip sample_index b sample_index_wf E).
Defined.

(** ** What an accepted index guarantees

    [post B m P]: started with at most [B] bytes left, a call of [m] that returns leaves at
    most [B] bytes, never clears an earlier error, and, when no error is recorded before
    and after it, returns a value satisfying [P]. *)
Definition post {A} (B : Z) (m : dec A) (P : A -> Prop) : Prop :=
  forall d a d', len (d_b d) <= B -> m d = Some (a, d') ->
    len (d_b d') <= B /\ (d_err d' = None -> d_err d = None) /\
    (d_err d = None -> d_err d' = None -> P a).

Lemma post_bind {A C} B (m : dec A) (k : A -> dec C) P Q :
  post B m P -> (forall a, post B (k a) (fun c => P a -> Q c)) -> post B (dbind m k) Q.
Proof.
  intros Hm Hk d c d' Hd H. unfold dbind in H. destruct (m d) as [[a d1]|] eqn:E; [|done].
  destruct (Hm _ _ _ Hd E) as (H1 & H2 & H3). destruct (Hk _ _ _ _ H1 H) as (H4 & H5 & H6).
  split; [done|]. split; [auto|]. intros. apply H6; auto.
Qed.

Lemma post_impl {A} B (m : dec A) (P Q : A -> Prop) :
  post B m P -> (forall a, P a -> Q a) -> post B m Q.
Proof. intros Hm HPQ d a d' Hd H. destruct (Hm d a d' Hd H) as (?&?&?). auto. Qed.

Lemma post_ret {A} B (v : A) (P : A -> Prop) : P v -> post B (dret v) P.
Proof. intros HP d a d' Hd [= <- <-]. auto. Qed.

Lemma fail_returns {A} B msg (v : A) (Q : Prop) d a d' :
  0 <= B -> (let! _ := d_fail msg in dret v) d = Some (a, d') ->
  len (d_b d') <= B /\ (d_err d' = None -> d_err d = None) /\
  (d_err d = None -> d_err d' = None -> Q).
Proof.
  intros HB [= <- <-]. cbn. split; [done|]. destruct (d_err d); split; intros; done.
Qed.

Lemma post_fail {A} B msg (v : A) P : 0 <= B -> post B (let! _ := d_fail msg in dret v) P.
Proof. intros HB d a d' _ H. by apply (fail_returns B msg v _ d a d'). Qed.

Lemma post_fail_unit B msg P : 0 <= B -> post B (d_fail msg) P.
Proof. intros HB d a d' Hd [= <- <-]. cbn. split; [done|]. destruct (d_err d); split; intros; done. Qed.

Section Postconditions.
Context (B : Z) (HB : 0 <= B).

Lemma post_uvarint : post B d_uvarint (fun v => 0 <= v < 2 ^ 64).
Proof.
  intros d a d' Hd H. unfold d_uvarint in H. destruct (uvarint (d_b d)) as [[v n]|] eqn:E.
  - injection H as <- <-. cbn. apply uvarint_range in E as [? ?].
    rewrite len_zdrop by lia. split; [lia|]. auto.
  - exact (fail_returns B "bad varint" 0 _ d a d' HB H).
Qed.

Lemma post_varint : post B d_varint (fun v => - 2 ^ 63 <= v < 2 ^ 63).
Proof.
  intros d a d' Hd H. unfold d_varint in H. destruct (varint (d_b d)) as [[v n]|] eqn:E.
  - injection H as <- <-. cbn. apply varint_range in E as [? ?].
    rewrite len_zdrop by lia. split; [lia|]. auto.
  - exact (fail_returns B "bad varint" 0 _ d a d' HB H).
Qed.

Lemma post_bytes n : post B (d_bytes n) (fun x => len x = n).
Proof.
  intros d a d' Hd H. unfold d_bytes in H. destruct (_ <? n).
  - exact (fail_returns B "truncated" [] _ d a d' HB H).
  - destruct (go_slice n _) as [[x r]|] eqn:E; [|done]. injection H as <- <-. cbn.
    apply go_slice_Some in E as (? & Hx & Hb). rewrite Hb, len_app in Hd.
    pose proof (len_nonneg x). split; [lia|]. auto.
Qed.

Lemma post_ok : post B d_ok (fun ok => ok = true).
Proof. intros d a d' Hd [= <- <-]. split; [done|]. split; [done|]. by intros -> _. Qed.

Lemma post_check p : post B (d_check p) (fun _ => p = None).
Proof.
  eapply post_bind; [apply post_ok|]. intros [].
  - destruct p; [by apply post_fail_unit|by apply post_ret].
  - by apply post_ret.
Qed.

Lemma post_count minSize : 0 < minSize -> post B (d_count minSize) (fun n => 0 <= n <= B).
Proof.
  intros Hm. eapply post_bind; [apply post_uvarint|]. intros n.
  intros d a d' Hd H. unfold dbind, d_remaining in H.
  destruct (Z.ltb_spec (len (d_b d) / minSize) n).
  - exact (fail_returns B "count exceeds remaining data" 0 _ d a d' HB H).
  - injection H as <- <-. split; [done|]. split; [done|]. intros _ _ Hn.
    assert (len (d_b d) / minSize <= len (d_b d)); [|lia].
    apply Z.div_le_upper_bound; [lia|]. pose proof (len_nonneg (d_b d)). nia.
Qed.

Lemma post_readByte : post B d_readByte (fun z => 0 <= z < 256).
Proof.
  eapply post_bind; [apply post_bytes|]. intros x. apply post_ret. intros _.
  destruct x; [lia|apply bz_range].
Qed.

Lemma post_name : post B d_name (fun name => ValidEntryName name = true).
Proof.
  eapply post_bind; [apply post_uvarint|]. intros n. destruct (_ <? n); [by apply post_fail|].
  eapply post_bind; [apply post_bytes|]. intros name.
  eapply post_bind; [apply post_ok|]. intros ok.
  destruct ok; cbn [andb]; [|by apply post_ret].
  destruct (ValidEntryName name) eqn:E; cbn [negb]; [by apply post_ret|by apply post_fail].
Qed.

Lemma post_attributes : post B d_attributes (fun a => Attributes_typed a /\ validate a = Ok tt).
Proof.
  eapply post_bind; [apply post_uvarint|]. intros n.
  eapply (post_bind _ _ _ (fun _ => True)).
  { destruct (_ <? n); [by apply post_fail_unit|by apply post_ret]. }
  intros _. eapply post_bind; [apply post_bytes|]. intros raw.
  eapply post_bind; [apply post_ok|]. intros ok.
  destruct ok; [|by apply post_ret].
  destruct (ParseAttributes raw) as [a|] eqn:E; [|by apply post_fail].
  apply post_ret. apply ParseAttributes_inv in E as (? & ? & _). auto.
Qed.

Lemma post_deltas count limit : forall prev,
  post B (d_deltas count limit prev) (fun ns => Forall (fun n => 0 <= n < limit) ns /\ length ns = count).
Proof.
  induction count as [|count IH]; intros prev; [by apply post_ret|]. cbn [d_deltas].
  eapply post_bind; [apply post_varint|]. intros delta. cbv zeta.
  set (n := u64 (prev + u64 delta)). eapply post_bind; [apply post_check|]. intros [].
  eapply post_bind; [apply IH|]. intros rest. apply post_ret. intros [Hr Hl] Hc _.
  split; [|cbn [length]; congruence]. constructor; [|done]. destruct (Z.leb_spec limit n); [done|].
  split; [|done]. subst n. unfold u64 at 1. by apply Z.mod_pos_bound.
Qed.

Lemma post_repeat {A} count (m : dec A) P : post B m P -> post B (d_repeat count m) (Forall P).
Proof.
  intros Hm. induction count as [|count IH]; [by apply post_ret|]. cbn [d_repeat].
  eapply post_bind; [apply Hm|]. intros x. eapply post_bind; [apply IH|]. intros xs.
  apply post_ret. auto.
Qed.

Lemma chunk_problem_None packs pack offset stored raw codec :
  chunk_problem packs pack offset stored raw codec = None ->
  pack < packs /\ 0 < Z.abs stored /\ stored <= MaxStoredChunkSize /\ raw <= MaxCDCChunkSize /\
  offset <= MaxPackSize /\ offset + stored <= MaxPackSize /\
  (codec = CodecNone \/ codec = CodecZstd) /\ (codec = CodecNone -> stored = raw).
Proof.
  unfold chunk_problem. intros H. repeat (case_match; [done|]). b2p.
  split_and!; try lia.
Qed.

Lemma post_chunk packs : post B (d_chunk packs) (fun c => packs <= 2 ^ 32 -> chunk_wf packs c).
Proof.
  eapply post_bind; [apply post_bytes|]. intros id.
  eapply post_bind; [apply post_uvarint|]. intros pack.
  eapply post_bind; [apply post_uvarint|]. intros offset.
  eapply post_bind; [apply post_uvarint|]. intros stored.
  eapply post_bind; [apply post_uvarint|]. intros raw.
  eapply post_bind; [apply post_readByte|]. intros codec.
  eapply post_bind; [apply post_check|]. intros [].
  apply post_ret. intros Hp Hc Hr Hs Ho Hpk Hid Hpacks.
  pose proof (chunk_problem_None _ _ _ _ _ _ Hp) as (? & ? & ? & ? & ? & ? & _).
  unfold MaxStoredChunkSize, MaxCDCChunkSize, zstdMaxOverhead in *.
  constructor; cbn [cr_ID cr_Pack cr_Offset cr_StoredLen cr_RawLen cr_Codec]; unfold u32;
    rewrite ?Z.mod_small by lia; try lia; try done.
  unfold copy_id. rewrite ztake_app by lia. done.
Qed.

Lemma post_file limit : post B (d_file limit) (fun f => file_wf limit f /\ len (fv_Chunks f) <= B).
Proof.
  eapply post_bind; [apply post_name|]. intros name.
  eapply post_bind; [apply post_attributes|]. intros attrs.
  eapply post_bind; [apply post_uvarint|]. intros size.
  eapply post_bind; [apply post_count; lia|]. intros count.
  eapply post_bind; [apply post_deltas|]. intros chunks.
  eapply post_bind; [apply post_check|]. intros [].
  apply post_ret. intros Hp [Hc Hcl] Hct Hs [Ht Hv] Hn. split; [|cbn [fv_Chunks]; unfold len; lia].
  constructor; cbn [fv_Name fv_Attributes fv_Size fv_Chunks]; try done.
  destruct (Z.eqb_spec (Kind attrs) KindRegular); [by left|right].
  destruct (negb _ || _) eqn:E; [done|]. b2p. split; [done|]. by apply len_0_nil.
Qed.
End Postconditions.

Record index_checked (si : SessionIndex) : Prop := {
  ic_session : 1 <= Session si < 2 ^ 64;
  ic_first : 0 <= FirstChunk si < 2 ^ 64;
  ic_packs : Forall (fun p => 0 <= p < 2 ^ 64) (Packs si);
  ic_chunks : Forall (chunk_wf (len (Packs si))) (Chunks si);
  ic_files : Forall (fun f => file_wf (u64 (FirstChunk si + len (Chunks si))) f /\ len (fv_Chunks f) <= MaxIndexSize) (Files si);
  ic_deleted : Forall (fun n => ValidEntryName n = true) (Deleted si)
}.

Lemma d_repeat_length {A} count (m : dec A) d xs d' :
  d_repeat count m d = Some (xs, d') -> length xs = count.
Proof.
  revert d xs d'. induction count as [|count IH]; intros d xs d' H; cbn in H.
  - by injection H as <- <-.
  - unfold dbind, dret in H. destruct (m d) as [[x d1]|]; [|done].
    destruct (d_repeat count m d1) as [[ys d2]|] eqn:E; [|done].
    injection H as <- <-. cbn. by rewrite (IH _ _ _ E).
Qed.

Lemma post_repeat_count {A} B n (m : dec A) P : 0 <= B -> post B m P ->
  post B (d_repeat (Z.to_nat n) m) (fun xs => Forall P xs /\ (0 <= n -> len xs = n)).
Proof.
  intros HB Hm d xs d' Hd H. destruct (post_repeat B (Z.to_nat n) m P Hm d xs d' Hd H) as (?&?&?).
  split; [done|]. split; [done|]. intros. split; [auto|].
  intros. apply d_repeat_length in H. unfold len. lia.
Qed.

Lemma post_index B : 0 <= B <= MaxIndexSize ->
  post B d_index (fun si => Session si <> 0 -> index_checked si).
Proof.
  intros [HB HB2]. assert (B < 2 ^ 32) by (unfold MaxIndexSize in HB2; lia). unfold d_index.
  eapply post_bind; [by apply post_uvarint|]. intros session.
  eapply post_bind; [by apply post_varint|]. intros time.
  eapply post_bind; [by apply post_uvarint|]. intros prev.
  eapply post_bind; [by apply post_uvarint|]. intros first.
  eapply post_bind; [by apply post_count|]. intros npacks.
  eapply post_bind; [apply post_repeat_count; [done|by apply post_uvarint]|]. intros packs.
  eapply post_bind; [by apply post_count|]. intros nchunks.
  eapply post_bind; [apply post_repeat_count; [done|by apply post_chunk]|]. intros chunks. cbv zeta.
  eapply post_bind; [by apply post_count|]. intros nfiles.
  eapply post_bind; [apply post_repeat_count; [done|by apply post_file]|]. intros files.
  eapply post_bind; [by apply post_count|]. intros ndeleted.
  eapply post_bind; [apply post_repeat_count; [done|by apply post_name]|]. intros deleted.
  apply post_ret. intros [Hd _] _ [Hf _] _ [Hc _] _ [Hp Hpl] Hnp Hfirst _ _ Hs Hne.
  constructor; cbn [Session FirstChunk Packs Chunks Files Deleted] in *; try done; try lia.
  - eapply Forall_impl; [exact Hc|]. intros c Hcw. apply Hcw. rewrite Hpl; lia.
  - eapply Forall_impl; [exact Hf|]. intros f [Hfw Hfl]. split; [done|]. lia.
Qed.

Lemma ParseSessionIndex_checked b si : ParseSessionIndex b = Some (Ok si) -> index_checked si.
Proof.
  intros H. unfold ParseSessionIndex, errorf in H. destruct (_ || _) eqn:Eg; [done|]. b2p.
  match goal with H : len b <= MaxIndexSize |- _ => rename H into Hl end. unfold MaxIndexSize in Hl.
  destruct (d_index _) as [[si' d]|] eqn:E; [|done].
  destruct (d_err d) eqn:Ee; [done|]. destruct (negb _); [done|].
  destruct (Session si' =? 0) eqn:Es; [done|]. b2p. injection H as ->.
  assert (len (zdrop (len indexMagic) b) <= 268435456).
  { unfold len, zdrop in *. rewrite length_drop. lia. }
  apply (post_index 268435456) in E as (_ & _ & Hq); [|unfold MaxIndexSize; lia|done]. by apply Hq.
Qed.



(** ** A malformed index that panics

    An attribute length of 2^63 or more is refused with [fail], which empties the buffer,
    but the following [d.bytes(int(attrsLen))] converts it to a negative int, passes the
    length test and slices out of range. *)
Definition panicking_index : bytes :=
  indexMagic ++ put_uvarint 1 ++ put_varint 0 ++ put_uvarint 0 ++ put_uvarint 0 ++
  put_uvarint 0 ++ put_uvarint 0 ++ put_uvarint 1 ++ appendString (str "f") ++
  put_uvarint (2 ^ 63) ++ str "padding".

