(* ===== verification/Chunker.v ===== *)
(** * Content-defined chunking (archive/chunker.go)

    The FastCDC chunker of incremental archives over any reader, and what deduplication
    relies on: the chunks put the file back together, respect the size bounds, do not
    depend on how the reads split the file, and depend only on nearby content. *)

From S2P Require Import Prelude Bytes IndexCodec.
Open Scope go_scope.

Definition cdcAvgBits : Z := 20.
Definition cdcMaskS : Z := Z.lxor (2 ^ 64 - 1) (Z.shiftl 1 (64 - (cdcAvgBits + 2)) - 1).
Definition cdcMaskL : Z := Z.lxor (2 ^ 64 - 1) (Z.shiftl 1 (64 - (cdcAvgBits - 2)) - 1).

Section Chunker.
Context (gear : list Z).

(** One loop of [cutPoint] over the bytes [l] from position [i] on: the cut it returns, or
    the hash it ends with. *)
Fixpoint gear_scan (mask : Z) (l : bytes) (i h : Z) : Z + Z :=
  match l with
  | [] => inr h
  | b :: l =>
      let h := u64 (Z.shiftl h 1 + nth (Z.to_nat (bz b)) gear 0) in
      if Z.land h mask =? 0 then inl (i + 1) else gear_scan mask l (i + 1) h
  end.

Definition cutPoint (data : bytes) : Z :=
  let n := len data in
  if n <=? MinCDCChunkSize then n
  else
    let normal := Z.min n AvgCDCChunkSize in
    match gear_scan cdcMaskS (ztake (normal - MinCDCChunkSize) (zdrop MinCDCChunkSize data)) MinCDCChunkSize 0 with
    | inl cut => cut
    | inr h => match gear_scan cdcMaskL (zdrop normal data) normal h with inl cut => cut | inr _ => n end
    end.

(** A reader: what each [Read] has ready, and how the stream ends ([None] is EOF). *)
Record reader := mk_reader { rd_pieces : list bytes; rd_end : option error }.

(** [ck_size] is the length of the buffer and [ck_buf] its valid bytes. *)
Record Chunker := mk_chunker { ck_r : reader; ck_size : Z; ck_buf : bytes; ck_cut : Z; ck_eof : bool }.

Definition NewChunker (r : reader) : Chunker := mk_chunker r MaxCDCChunkSize [] 0 false.

(** The fill loop of [Next] with [space] bytes of the buffer free: the bytes read, what is
    left, and whether the end of the stream was met. *)
Fixpoint fill (space : Z) (pieces : list bytes) : bytes * list bytes * bool :=
  if space =? 0 then ([], pieces, false)
  else match pieces with
       | [] => ([], [], true)
       | p :: rest =>
           if len p <=? space
           then let '(b, rest, stop) := fill (space - len p) rest in (p ++ b, rest, stop)
           else (ztake space p, zdrop space p :: rest, false)
       end.

(** [Next]: a chunk, or [None] at EOF, or the reader's error. *)
Definition Next (c : Chunker) : result (option bytes) * Chunker :=
  let buf := zdrop (ck_cut c) (ck_buf c) in
  let '(more, pieces, stop) :=
    if ck_eof c then ([], rd_pieces (ck_r c), false) else fill (ck_size c - len buf) (rd_pieces (ck_r c)) in
  let r := mk_reader pieces (rd_end (ck_r c)) in
  let buf := buf ++ more in
  match (if stop then rd_end (ck_r c) else None) with
  | Some e => (Err e, mk_chunker r (ck_size c) buf 0 (ck_eof c))
  | None =>
      let eof := ck_eof c || stop in
      if len buf =? 0 then (Ok None, mk_chunker r (ck_size c) buf 0 eof)
      else let cut := cutPoint buf in (Ok (Some (ztake cut buf)), mk_chunker r (ck_size c) buf cut eof)
  end.

(** Calling [Next] until EOF or an error: the chunks and the error, or [None] when [fuel]
    calls are not enough. *)
Fixpoint next_all (fuel : nat) (c : Chunker) : option (list bytes * option error) :=
  match fuel with
  | O => None
  | S fuel =>
      match Next c with
      | (Err e, _) => Some ([], Some e)
      | (Ok None, _) => Some ([], None)
      | (Ok (Some chunk), c) => match next_all fuel c with
                                | Some (chunks, e) => Some (chunk :: chunks, e)
                                | None => None
                                end
      end
  end.

(** ** Where a chunk is cut *)

(** Both loops of [cutPoint] as one scan whose mask depends on the position. *)
Definition mask_at (i : Z) : Z := if i <? AvgCDCChunkSize then cdcMaskS else cdcMaskL.

Fixpoint scan (l : bytes) (i h : Z) : option Z :=
  match l with
  | [] => None
  | b :: l =>
      let h := u64 (Z.shiftl h 1 + nth (Z.to_nat (bz b)) gear 0) in
      if Z.land h (mask_at i) =? 0 then Some (i + 1) else scan l (i + 1) h
  end.

Lemma scan_inl mask l : forall i h, (forall j, i <= j < i + len l -> mask_at j = mask) -> forall rest,
  scan (l ++ rest) i h = match gear_scan mask l i h with inl c => Some c | inr h => scan rest (i + len l) h end.
Proof.
  induction l as [|x l IH]; intros i h Hm rest; cbn [gear_scan scan app]; [by rewrite len_nil, Z.add_0_r|].
  rewrite Hm by (rewrite len_cons; pose proof (len_nonneg l); lia). destruct (_ =? 0); [done|].
  rewrite IH, len_cons by (intros j Hj; apply Hm; rewrite len_cons; lia).
  by replace (i + 1 + len l) with (i + (1 + len l)) by lia.
Qed.

Lemma cutPoint_scan data : MinCDCChunkSize < len data ->
  cutPoint data = default (len data) (scan (zdrop MinCDCChunkSize data) MinCDCChunkSize 0).
Proof.
  intros Hd. unfold cutPoint. rewrite (proj2 (Z.leb_gt _ _)) by done. cbv zeta.
  set (normal := Z.min (len data) AvgCDCChunkSize).
  assert (MinCDCChunkSize <= normal <= len data) as Hn by (unfold normal, AvgCDCChunkSize, MinCDCChunkSize in *; lia).
  assert (0 <= MinCDCChunkSize) as H0 by (unfold MinCDCChunkSize; lia).
  rewrite <- (ztake_zdrop (normal - MinCDCChunkSize) (zdrop MinCDCChunkSize data)) at 2.
  rewrite zdrop_zdrop by lia. replace (MinCDCChunkSize + (normal - MinCDCChunkSize)) with normal by lia.
  assert (len (ztake (normal - MinCDCChunkSize) (zdrop MinCDCChunkSize data)) = normal - MinCDCChunkSize) as Hl
    by (rewrite len_ztake; [done|]; rewrite len_zdrop by lia; lia).
  rewrite (scan_inl cdcMaskS).
  2:{ rewrite Hl. intros j Hj. unfold mask_at. rewrite (proj2 (Z.ltb_lt _ _)); [done|]. unfold normal in Hj. lia. }
  destruct (gear_scan cdcMaskS _ _ _) as [cut|h]; [done|]. rewrite Hl.
  replace (MinCDCChunkSize + (normal - MinCDCChunkSize)) with normal by lia.
  rewrite <- (app_nil_r (zdrop normal data)) at 2. rewrite (scan_inl cdcMaskL); [by destruct (gear_scan cdcMaskL _ _ _)|].
  rewrite len_zdrop by lia. intros j Hj. unfold mask_at. rewrite (proj2 (Z.ltb_ge _ _)); [done|]. unfold normal in Hj. lia.
Qed.

Lemma scan_range l : forall i h cut, scan l i h = Some cut -> i < cut <= i + len l.
Proof.
  induction l as [|b l IH]; intros i h cut Hs; cbn [scan] in Hs; [done|]. rewrite len_cons. pose proof (len_nonneg l).
  destruct (_ =? 0); [injection Hs as <-; lia|]. apply IH in Hs. lia.
Qed.

(** A scan that cuts has not looked past the cut, and one that does not has looked at
    everything. *)
Lemma scan_local l : forall i h cut rest, scan l i h = Some cut -> scan (ztake (cut - i) l ++ rest) i h = Some cut.
Proof.
  induction l as [|x l IH]; intros i h cut rest Hs; [done|]. pose proof (scan_range _ _ _ _ Hs) as Hr.
  replace (ztake (cut - i) (x :: l)) with (x :: ztake (cut - (i + 1)) l).
  2:{ unfold ztake. replace (Z.to_nat (cut - i)) with (S (Z.to_nat (cut - (i + 1)))) by lia. done. }
  cbn [scan app] in *. destruct (_ =? 0); [done|]. by apply IH.
Qed.

Lemma cutPoint_range data : 0 < len data -> 0 < cutPoint data <= len data.
Proof.
  intros Hd. destruct (Z.leb_spec (len data) MinCDCChunkSize) as [Hn|Hn].
  - unfold cutPoint. rewrite (proj2 (Z.leb_le _ _)) by done. lia.
  - rewrite cutPoint_scan by done. assert (0 <= MinCDCChunkSize) by (unfold MinCDCChunkSize; lia).
    destruct (scan _ _ _) as [cut|] eqn:E; cbn; [|lia]. apply scan_range in E. rewrite len_zdrop in E by lia. lia.
Qed.

Lemma cutPoint_min data : MinCDCChunkSize <= len data -> MinCDCChunkSize <= cutPoint data.
Proof.
  intros Hd. destruct (Z.leb_spec (len data) MinCDCChunkSize) as [Hn|Hn].
  - unfold cutPoint. rewrite (proj2 (Z.leb_le _ _)) by done. lia.
  - rewrite cutPoint_scan by done. destruct (scan _ _ _) as [cut|] eqn:E; cbn; [|lia]. apply scan_range in E. lia.
Qed.

(** A cut before the end of the data does not depend on what follows it. *)
Lemma cutPoint_local data rest : cutPoint data < len data -> cutPoint (ztake (cutPoint data) data ++ rest) = cutPoint data.
Proof.
  intros Hc. destruct (Z.leb_spec (len data) MinCDCChunkSize) as [Hn|Hn].
  { unfold cutPoint in Hc. rewrite (proj2 (Z.leb_le _ _)) in Hc by done. lia. }
  pose proof (cutPoint_range data) as Hr. rewrite (cutPoint_scan data Hn) in *. assert (0 <= MinCDCChunkSize) by (unfold MinCDCChunkSize; lia).
  destruct (scan _ _ _) as [cut|] eqn:E; cbn in *; [|lia]. pose proof (scan_range _ _ _ _ E) as Hs.
  rewrite cutPoint_scan by (rewrite len_app, len_ztake by lia; pose proof (len_nonneg rest); lia).
  rewrite zdrop_app_le by (rewrite len_ztake by lia; lia).
  replace (zdrop MinCDCChunkSize (ztake cut data)) with (ztake (cut - MinCDCChunkSize) (zdrop MinCDCChunkSize data)).
  - by rewrite (scan_local _ _ _ _ rest E).
  - unfold ztake, zdrop. rewrite skipn_firstn_comm. f_equal. lia.
Qed.

(** ** The chunks of a file *)

(** The chunks as a function of the content alone, with a buffer of any size. *)
Context (max : Z) (Hmax : MinCDCChunkSize <= max).

Definition next_cut (content : bytes) : Z := cutPoint (ztake max content).

Fixpoint cdc_go (fuel : nat) (content : bytes) : list bytes :=
  match fuel with
  | O => []
  | S fuel =>
      if len content =? 0 then []
      else ztake (next_cut content) content :: cdc_go fuel (zdrop (next_cut content) content)
  end.

Definition cdc (content : bytes) : list bytes := cdc_go (S (length content)) content.

Lemma next_cut_range content : 0 < len content -> 0 < next_cut content <= len content /\ next_cut content <= max.
Proof.
  intros Hc. unfold next_cut. assert (0 < len (ztake max content) <= Z.min (len content) max) as Hl.
  { unfold MinCDCChunkSize in Hmax; unfold len, ztake in *. rewrite length_take. lia. }
  pose proof (cutPoint_range (ztake max content)). lia.
Qed.

Lemma zdrop_length_lt {A} k (l : list A) : 0 < k <= len l -> (length (zdrop k l) < length l)%nat.
Proof. intros Hk. pose proof (len_zdrop k l). unfold len in *. lia. Qed.

Lemma zdrop_shorter content : len content <> 0 -> (length (zdrop (next_cut content) content) < length content)%nat.
Proof. intros Hn. apply zdrop_length_lt, next_cut_range. pose proof (len_nonneg content). lia. Qed.

Lemma cdc_go_S f content : cdc_go (S f) content =
  if len content =? 0 then [] else ztake (next_cut content) content :: cdc_go f (zdrop (next_cut content) content).
Proof. reflexivity. Qed.

Lemma cdc_go_fuel f1 : forall f2 content, (length content < f1)%nat -> (length content < f2)%nat -> cdc_go f1 content = cdc_go f2 content.
Proof.
  induction f1 as [|f1 IH]; intros [|f2] content H1 H2; try lia. rewrite !cdc_go_S.
  destruct (Z.eqb_spec (len content) 0) as [|Hn]; [reflexivity|]. apply zdrop_shorter in Hn.
  rewrite (IH f2); [reflexivity|lia|lia].
Qed.

Lemma cdc_unfold content : cdc content =
  if len content =? 0 then [] else ztake (next_cut content) content :: cdc (zdrop (next_cut content) content).
Proof.
  unfold cdc at 1. rewrite cdc_go_S. destruct (Z.eqb_spec (len content) 0) as [|Hn]; [reflexivity|].
  apply zdrop_shorter in Hn. unfold cdc. rewrite (cdc_go_fuel (length content) (S (length (zdrop (next_cut content) content)))); [reflexivity|lia|lia].
Qed.

(** Induction over the chunks of a file. *)
Lemma cdc_ind (P : bytes -> Prop) : P [] -> (forall content, len content <> 0 -> P (zdrop (next_cut content) content) -> P content) ->
  forall content, P content.
Proof.
  intros H0 HS content. remember (length content) as n eqn:Hl. revert content Hl.
  induction (lt_wf n) as [n _ IH]. intros content ->. destruct (Z.eq_dec (len content) 0) as [Hz|Hz].
  - by apply len_0_nil in Hz as ->.
  - apply HS; [done|]. eapply IH; [|done]. by apply zdrop_shorter.
Qed.

Lemma cdc_cons content : len content <> 0 -> cdc content = ztake (next_cut content) content :: cdc (zdrop (next_cut content) content).
Proof. intros Hn. rewrite cdc_unfold. destruct (Z.eqb_spec (len content) 0); [contradiction|reflexivity]. Qed.

Lemma cdc_concat content : concat (cdc content) = content.
Proof.
  induction content as [|content Hn IH] using cdc_ind; [reflexivity|]. rewrite (cdc_cons content Hn), concat_cons, IH.
  apply ztake_zdrop.
Qed.

(** Every chunk but the last is between the minimum and the maximum size; the last is not
    empty and not longer. *)
Fixpoint chunk_sizes (cs : list bytes) : Prop :=
  match cs with
  | [] => True
  | [c] => 0 < len c <= max
  | c :: cs => MinCDCChunkSize <= len c <= max /\ chunk_sizes cs
  end.

Lemma short_take {A} m n (l : list A) : m <= n -> len (ztake n l) < m -> ztake n l = l.
Proof. unfold ztake, len. intros Hm Hs. apply take_ge. rewrite length_take in Hs. lia. Qed.

Lemma cutPoint_whole data : cutPoint data < len data -> MinCDCChunkSize < len data.
Proof. unfold cutPoint. intros Hc. destruct (Z.leb_spec (len data) MinCDCChunkSize) as [|H]; [lia|exact H]. Qed.

Lemma next_cut_min content : next_cut content < len content -> MinCDCChunkSize <= next_cut content.
Proof.
  intros Hc. unfold next_cut in *. apply cutPoint_min.
  destruct (Z.le_gt_cases MinCDCChunkSize (len (ztake max content))) as [|Hs]; [assumption|].
  assert (ztake max content = content) as He.
  { apply (short_take MinCDCChunkSize); [exact Hmax|exact Hs]. }
  rewrite He in Hc, Hs |- *. apply cutPoint_whole in Hc. lia.
Qed.

Lemma cdc_sizes content : chunk_sizes (cdc content).
Proof.
  induction content as [|content Hn IH] using cdc_ind; [exact I|]. rewrite (cdc_cons content Hn).
  destruct (next_cut_range content) as [Hr Hm]; [pose proof (len_nonneg content); lia|].
  assert (len (ztake (next_cut content) content) = next_cut content) as Hl by (apply len_ztake; lia).
  pose proof (next_cut_min content) as Hmin. pose proof (len_zdrop (next_cut content) content ltac:(lia)) as Hd.
  rewrite (cdc_unfold (zdrop _ content)) in *. cbn [chunk_sizes]. rewrite Hl, Hd in *.
  destruct (Z.eqb_spec (len content - next_cut content) 0); [lia|]. split; [lia|exact IH].
Qed.

(** The chunk at the start of some content is also the chunk of that chunk followed by
    anything, unless it is all of the content. *)
Lemma next_cut_local content T : len content <> 0 -> next_cut content < len content ->
  next_cut (ztake (next_cut content) content ++ T) = next_cut content.
Proof.
  intros Hn Hc. destruct (next_cut_range content) as [Hr Hm]; [pose proof (len_nonneg content); lia|].
  set (k := next_cut content) in *. assert (k = cutPoint (ztake max content)) as Hk by done.
  assert (len (ztake k content) = k) as Hl by (apply len_ztake; lia).
  destruct (Z.lt_ge_cases k (len (ztake max content))) as [Hlt|Hge].
  - unfold next_cut. rewrite ztake_app_ge by lia. rewrite Hl.
    replace (ztake k content) with (ztake k (ztake max content)).
    2:{ unfold ztake. rewrite take_take. f_equal. lia. }
    rewrite Hk in *. by apply cutPoint_local.
  - assert (k = max) as Hkm by (unfold MinCDCChunkSize in Hmax; unfold ztake, len in *; rewrite length_take in Hge; lia).
    unfold next_cut. rewrite ztake_app by lia. by rewrite Hkm, <- Hk.
Qed.

Lemma cdc_local content T : forall n, (length (cdc content) <= n)%nat \/
  cdc (concat (take n (cdc content)) ++ T) = take n (cdc content) ++ cdc T.
Proof.
  induction content as [|content Hn IH] using cdc_ind; intros n; [left; change (cdc []) with (@nil bytes); cbn; lia|].
  rewrite (cdc_cons content Hn). destruct n as [|n]; [by right|]. cbn [length take].
  destruct (next_cut_range content) as [Hr _]; [pose proof (len_nonneg content); lia|].
  destruct (IH n) as [Hl|He]; [left; lia|]. destruct (Z.eq_dec (next_cut content) (len content)) as [Hall|Hcut].
  { left. rewrite (zdrop_all (next_cut content)) by done. change (cdc []) with (@nil bytes). cbn. lia. }
  right. rewrite concat_cons, <- app_assoc. assert (len (ztake (next_cut content) content) = next_cut content) as Hlen by (apply len_ztake; lia).
  rewrite cdc_cons by (rewrite len_app, Hlen; pose proof (len_nonneg (concat (take n (cdc (zdrop (next_cut content) content))) ++ T)); lia).
  rewrite next_cut_local by (done || lia). rewrite ztake_app, zdrop_app by lia. by rewrite He.
Qed.

(** ** The chunker against the reference *)

Lemma fill_spec pieces : forall space b rest stop, 0 <= space -> fill space pieces = (b, rest, stop) ->
  b = ztake space (concat pieces) /\ concat rest = zdrop space (concat pieces) /\
  stop = (len (concat pieces) <? space) /\ (stop = true -> rest = []).
Proof.
  induction pieces as [|p pieces IH]; intros space b rest stop Hs Hf; cbn [fill concat] in *.
  - destruct (Z.eqb_spec space 0) as [->|Hz]; injection Hf as <- <- <-.
    + done.
    + unfold ztake, zdrop. rewrite take_nil, drop_nil. split_and!; try done. symmetry. apply Z.ltb_lt. change (len (@nil byte)) with 0. lia.
  - pose proof (len_nonneg p). destruct (Z.eqb_spec space 0) as [->|Hz].
    { injection Hf as <- <- <-. split_and!; try done. symmetry. apply Z.ltb_ge. len_lia. }
    destruct (Z.leb_spec (len p) space) as [Hp|Hp].
    + destruct (fill (space - len p) pieces) as [[b' rest'] stop'] eqn:E. injection Hf as <- <- <-.
      apply IH in E as (-> & -> & -> & Hst); [|lia]. rewrite ztake_app_ge, zdrop_app_ge by lia. split_and!; try done.
      rewrite len_app. destruct (Z.ltb_spec (len (concat pieces)) (space - len p)), (Z.ltb_spec (len p + len (concat pieces)) space); lia || done.
    + injection Hf as <- <- <-. rewrite ztake_app_le, zdrop_app_le by lia. split_and!; try done.
      symmetry. apply Z.ltb_ge. len_lia.
Qed.

(** What the chunker has not returned yet. *)
Definition left_of (c : Chunker) : bytes := zdrop (ck_cut c) (ck_buf c) ++ concat (rd_pieces (ck_r c)).

Record chunker_ok (c : Chunker) : Prop := {
  co_size : ck_size c = max;
  co_cut : 0 <= ck_cut c <= len (ck_buf c);
  co_buf : len (ck_buf c) <= max;
  co_eof : ck_eof c = true -> rd_pieces (ck_r c) = [] /\ rd_end (ck_r c) = None
}.

Lemma ztake_max_short {A} n (l : list A) : len l <= n -> ztake n l = l.
Proof. unfold ztake, len. intros. apply take_ge. lia. Qed.

(** One call: the buffer holds the next [max] bytes, and the end of the stream was met only
    if they are all that is left. *)
Lemma Next_spec c : chunker_ok c ->
  match Next c with
  | (Err e, _) => rd_end (ck_r c) = Some e /\ len (left_of c) < max
  | (Ok None, _) => left_of c = [] /\ rd_end (ck_r c) = None
  | (Ok (Some chunk), c') => left_of c <> [] /\ chunk = ztake (next_cut (left_of c)) (left_of c) /\ chunker_ok c' /\
      left_of c' = zdrop (next_cut (left_of c)) (left_of c) /\ rd_end (ck_r c') = rd_end (ck_r c) /\
      (len (left_of c) < max -> rd_end (ck_r c) = None)
  end.
Proof.
  intros [Hsz Hcut Hbuf Heof]. unfold Next. set (buf := zdrop (ck_cut c) (ck_buf c)).
  assert (0 <= len buf <= max) as Hb by (unfold buf; rewrite len_zdrop by lia; lia).
  assert (exists more pieces stop,
    (if ck_eof c then ([], rd_pieces (ck_r c), false) else fill (ck_size c - len buf) (rd_pieces (ck_r c))) = (more, pieces, stop) /\
    buf ++ more = ztake max (left_of c) /\ concat pieces = zdrop max (left_of c) /\
    (stop = true -> pieces = [] /\ len (left_of c) < max) /\ (len (left_of c) < max -> stop = true \/ ck_eof c = true) /\
    (ck_eof c = true -> pieces = [])) as (more & pieces & stop & -> & Hm & Hp & Hst & Hstop & Hpe).
  { unfold left_of. fold buf. destruct (ck_eof c) eqn:Ee.
    - destruct (Heof eq_refl) as [-> _]. eexists _, _, _. split; [reflexivity|]. cbn [concat]. rewrite !app_nil_r.
      rewrite ztake_max_short by lia. unfold zdrop. rewrite drop_ge by (unfold len in *; lia). split_and!; try done. by right.
    - destruct (fill _ _) as [[more pieces] stop] eqn:Ef. eexists _, _, _. split; [reflexivity|]. rewrite Hsz in Ef.
      apply fill_spec in Ef as (-> & -> & -> & Hr); [|lia]. rewrite ztake_app_ge, zdrop_app_ge by lia. split_and!; try done.
      + intros Hs. split; [by apply Hr|]. apply Z.ltb_lt in Hs. rewrite len_app. lia.
      + rewrite len_app. intros Hl. left. apply Z.ltb_lt. lia. }
  destruct (if stop then rd_end (ck_r c) else None) as [e|] eqn:Ee.
  { destruct stop; [|done]. split; [done|]. by apply Hst. }
  assert (len (left_of c) < max -> rd_end (ck_r c) = None) as Hend.
  { intros Hl. destruct (Hstop Hl) as [->|He]; [done|]. by destruct (Heof He). }
  rewrite Hm. destruct (Z.eqb_spec (len (ztake max (left_of c))) 0) as [Hz|Hz].
  - apply len_0_nil in Hz. assert (left_of c = []) as H0.
    2:{ split; [done|]. apply Hend. rewrite H0. unfold MinCDCChunkSize in Hmax. change (len (@nil byte)) with 0. lia. }
    destruct (left_of c); [done|]. unfold ztake in Hz. unfold MinCDCChunkSize in Hmax. destruct (Z.to_nat max) eqn:E; [lia|done].
  - assert (len (left_of c) <> 0) as Hn by (intros H0; apply len_0_nil in H0; rewrite H0 in Hz; unfold ztake in Hz; by rewrite take_nil in Hz).
    destruct (next_cut_range (left_of c)) as [Hr Hx]; [pose proof (len_nonneg (left_of c)); lia|].
    assert (cutPoint (ztake max (left_of c)) = next_cut (left_of c)) as -> by reflexivity.
    assert (0 <= next_cut (left_of c) <= len (ztake max (left_of c))) as Hc.
    { split; [lia|]. unfold ztake, len in *. rewrite length_take. lia. }
    split; [by intros H0; rewrite H0 in Hn|]. split.
    { unfold ztake. rewrite take_take. f_equal. lia. }
    split; [|split; [|done]].
    + split; cbn [ck_size ck_cut ck_buf ck_eof ck_r rd_pieces rd_end]; [done|done| |].
      * apply len_ztake_max. unfold MinCDCChunkSize in Hmax. lia.
      * intros [He|Hs]%orb_true_iff; [destruct (Heof He) as [_ ?]; split; [by apply Hpe|done]|]. subst stop. destruct (Hst eq_refl). done.
    + unfold left_of at 1. cbn [ck_cut ck_buf ck_r rd_pieces]. rewrite Hp.
      rewrite <- zdrop_app_le by lia. by rewrite ztake_zdrop.
Qed.

Lemma next_all_spec : forall fuel c, chunker_ok c -> (length (left_of c) < fuel)%nat ->
  exists chunks, next_all fuel c = Some (chunks, rd_end (ck_r c)) /\ chunks `prefix_of` cdc (left_of c) /\
    (rd_end (ck_r c) = None -> chunks = cdc (left_of c)).
Proof.
  induction fuel as [|fuel IH]; intros c Hc Hf; [lia|]. cbn [next_all]. pose proof (Next_spec c Hc) as Hn.
  destruct (Next c) as [[[chunk|]|e] c'].
  - destruct Hn as (Hl & -> & Hc' & Hleft & Hend & _).
    assert (len (left_of c) <> 0) as Hz by (intros H0%len_0_nil; done).
    destruct (IH c' Hc') as (chunks & -> & Hp & He); [rewrite Hleft; pose proof (zdrop_shorter _ Hz); lia|].
    rewrite Hleft, Hend in *. eexists. split; [reflexivity|]. rewrite (cdc_cons _ Hz). split; [by apply prefix_cons|].
    intros HN. by rewrite He.
  - destruct Hn as [Hl ->]. exists []. rewrite Hl. split; [done|]. split; [apply prefix_nil|done].
  - destruct Hn as [-> _]. exists []. split; [done|]. split; [apply prefix_nil|done].
Qed.

Lemma prefix_concat {A} (a b : list (list A)) : a `prefix_of` b -> concat a `prefix_of` concat b.
Proof. intros [c ->]. rewrite concat_app. by exists (concat c). Qed.
End Chunker.

(** C28. Chunking a file puts it back together. However the reads split the content, calling
    [Next] to the end terminates and, at EOF, has returned chunks that concatenate to the
    content, every one but the last between the minimum and the maximum chunk size and the
    last neither empty nor longer, the same chunks for every split; after a read error it
    returns that error and has returned only chunks of the content. *)
Theorem chunker_partitions (gear : list Z) (r : reader) :
  exists chunks, next_all gear (S (length (concat (rd_pieces r)))) (NewChunker r) = Some (chunks, rd_end r) /\
    concat chunks `prefix_of` concat (rd_pieces r) /\
    (rd_end r = None -> concat chunks = concat (rd_pieces r) /\ chunk_sizes MaxCDCChunkSize chunks /\
      forall r', concat (rd_pieces r') = concat (rd_pieces r) -> rd_end r' = None ->
        next_all gear (S (length (concat (rd_pieces r')))) (NewChunker r') = Some (chunks, None)).
Proof.
  assert (MinCDCChunkSize <= MaxCDCChunkSize) as Hmax by (unfold MinCDCChunkSize, MaxCDCChunkSize; lia).
  assert (forall q, chunker_ok MaxCDCChunkSize (NewChunker q)) as Hok
    by (intros q; split; cbn [NewChunker ck_size ck_cut ck_buf ck_eof]; [done|done|unfold MaxCDCChunkSize; done|done]).
  destruct (next_all_spec gear MaxCDCChunkSize Hmax (S (length (concat (rd_pieces r)))) (NewChunker r)) as (chunks & Hn & Hp & He);
    [apply Hok|apply Nat.lt_succ_diag_r|].
  exists chunks. split; [exact Hn|]. assert (left_of (NewChunker r) = concat (rd_pieces r)) as Hl by done.
  split; [apply prefix_concat in Hp; by rewrite (cdc_concat gear MaxCDCChunkSize Hmax) in Hp|].
  intros Hend. rewrite (He Hend), (cdc_concat gear MaxCDCChunkSize Hmax). split; [exact Hl|]. split; [by apply cdc_sizes|].
  intros r' Hr Hend'. destruct (next_all_spec gear MaxCDCChunkSize Hmax (S (length (concat (rd_pieces r')))) (NewChunker r')) as (cs & Hn' & _ & He');
    [apply Hok|apply Nat.lt_succ_diag_r|].
  rewrite Hn'. rewrite (He' Hend'). change (rd_end (ck_r (NewChunker r'))) with (rd_end r'). rewrite Hend'.
  assert (left_of (NewChunker r') = left_of (NewChunker r)) as -> by (rewrite Hl; exact Hr). reflexivity.
Qed.

(** A chunk boundary depends only on nearby content: take any boundary of a file but its
    end, keep everything before it and replace everything after it by [T]; the chunks before
    it stay the same, and the chunks after it are those of [T] alone, so an edit changes
    only the chunks around it. *)
Theorem chunking_local (gear : list Z) (content T : bytes) (n : nat) :
  let chunks := cdc gear MaxCDCChunkSize content in
  (length chunks <= n)%nat \/
  cdc gear MaxCDCChunkSize (concat (take n chunks) ++ T) = take n chunks ++ cdc gear MaxCDCChunkSize T.
Proof.
  cbv zeta. apply cdc_local. unfold MinCDCChunkSize, MaxCDCChunkSize; lia.
Qed.
