(* ===== verification/Checkpoint.v ===== *)
(** * Checkpoints of incremental archives (archive/incremental.go)

    A checkpoint is the fixed-size record before the end marker of an incremental
    archive: the offset of the newest session index and the saved state of the running
    checksum, padded with zeros. *)

From S2P Require Import Prelude Bytes IndexCodec.

Definition checkpointMagic : bytes := str "SARCCKP1".
Definition checkpointStateSize : Z := 128.
Definition CheckpointSize : Z := 1 + len checkpointMagic + 8 + 2 + checkpointStateSize.
Definition TailSize : Z := CheckpointSize + 1 + FooterSize.

Record Checkpoint := mk_checkpoint { LastIndex : Z; HashState : bytes }.

Definition checkpoint_body (c : Checkpoint) : bytes :=
  [zb EntryTypeCheckpoint] ++ checkpointMagic ++ le_bytes 8 (LastIndex c) ++
  le_bytes 2 (len (HashState c)) ++ HashState c.

Definition MarshalCheckpoint (c : Checkpoint) : result bytes :=
  if checkpointStateSize <? len (HashState c) then errorf ErrOther "hash state too long"
  else
    let b := checkpoint_body c in
    Ok (b ++ replicate (Z.to_nat (CheckpointSize - len b)) Byte.x00).

(** [b[off:]] for a constant [off] inside the checked length. *)
Definition ParseCheckpoint (b : bytes) : result Checkpoint :=
  if negb (len b =? CheckpointSize) || negb (bz (hd Byte.x00 b) =? EntryTypeCheckpoint) ||
     negb (bytes_eqb (ztake (len checkpointMagic) (zdrop 1 b)) checkpointMagic)
  then errorf ErrMalformedCheckpoint "bad type or magic"
  else
    let off := 1 + len checkpointMagic in
    let last := le_u64 (zdrop off b) in
    let n := le_u16 (zdrop (off + 8) b) in
    if checkpointStateSize <? n then errorf ErrMalformedCheckpoint "hash state too long"
    else Ok (mk_checkpoint last (ztake n (zdrop (off + 8 + 2) b))).

Definition Checkpoint_typed (c : Checkpoint) : Prop := 0 <= LastIndex c < 2 ^ 64.

Lemma len_checkpointMagic : len checkpointMagic = 8.
Proof. done. Qed.

Lemma checkpoint_body_len c : len (checkpoint_body c) = 19 + len (HashState c).
Proof.
  unfold checkpoint_body. rewrite !len_app, !len_le_bytes, len_checkpointMagic, len_cons, len_nil. lia.
Qed.

Lemma MarshalCheckpoint_Ok c b : MarshalCheckpoint c = Ok b ->
  len (HashState c) <= 128 /\ len b = CheckpointSize /\ exists pad, b = checkpoint_body c ++ pad.
Proof.
  unfold MarshalCheckpoint, errorf, checkpointStateSize.
  destruct (Z.ltb_spec 128 (len (HashState c))); [done|]. cbv zeta. intros H'. inv_ok H'.
  pose proof (len_nonneg (HashState c)).
  split; [done|]. split; [|by eexists].
  rewrite len_app, len_replicate, checkpoint_body_len. change CheckpointSize with 147. lia.
Qed.

Lemma Parse_MarshalCheckpoint (c : Checkpoint) (b : bytes) : Checkpoint_typed c -> MarshalCheckpoint c = Ok b -> ParseCheckpoint b = Ok c.
Proof.
  intros Ht H. apply MarshalCheckpoint_Ok in H as (Hs & Hl & pad & ->).
  unfold Checkpoint_typed in Ht. pose proof (len_nonneg (HashState c)).
  unfold ParseCheckpoint. rewrite Hl, Z.eqb_refl. cbv zeta. unfold checkpoint_body.
  rewrite <- !app_assoc. cbn [negb orb app hd]. rewrite bz_zb.
  change (EntryTypeCheckpoint mod 256 =? EntryTypeCheckpoint) with true. cbn [negb orb].
  change (zdrop 1 (zb EntryTypeCheckpoint :: ?l)) with l.
  rewrite ztake_app by done. rewrite bytes_eqb_refl. cbn [negb].
  rewrite (app_comm_cons checkpointMagic). set (hdr := zb EntryTypeCheckpoint :: checkpointMagic).
  assert (len hdr = 9) as Hh by done. rewrite len_checkpointMagic.
  rewrite (zdrop_app (1 + 8)) by done. rewrite le_u64_app by done.
  rewrite (zdrop_app_ge (1 + 8 + 8)) by lia. rewrite Hh.
  rewrite (zdrop_app (1 + 8 + 8 - 9)) by done. rewrite le_u16_app by lia.
  unfold checkpointStateSize. ltb_false.
  rewrite (zdrop_app_ge (1 + 8 + 8 + 2)) by lia. rewrite Hh.
  rewrite (zdrop_app_ge (1 + 8 + 8 + 2 - 9)) by done.
  rewrite zdrop_app by done. rewrite ztake_app by done. by destruct c.
Qed.

(** Every checkpoint [Marshal] accepts is exactly [CheckpointSize] bytes and parses
    back to itself, whatever the padding after the hash state. *)
Theorem checkpoint_roundtrip (c : Checkpoint) (b : bytes)
  (Ht : Checkpoint_typed c) (H : MarshalCheckpoint c = Ok b) :
  len b = CheckpointSize /\ ParseCheckpoint b = Ok c.
Proof. split; [by apply MarshalCheckpoint_Ok in H as (_ & Hl & _)|by apply Parse_MarshalCheckpoint]. Qed.

Definition sample_checkpoint : Checkpoint := mk_checkpoint 4096 (replicate 108 (zb 7)).

Lemma checkpoint_roundtrip_witness :
  match MarshalCheckpoint sample_checkpoint with
  | Ok b => len b = 147 /\ ParseCheckpoint b = Ok sample_checkpoint | Err _ => False end.
Proof.
  destruct (MarshalCheckpoint sample_checkpoint) as [b|e] eqn:E; [|vm_compute in E; discriminate E].
  exact (checkpoint_roundtrip sample_checkpoint b ltac:(unfold Checkpoint_typed; cbn; lia) E).
Defined.

Lemma ParseCheckpoint_state b c : ParseCheckpoint b = Ok c ->
  len b = CheckpointSize /\ len (HashState c) <= checkpointStateSize /\ Checkpoint_typed c.
Proof.
  unfold ParseCheckpoint, errorf. destruct (_ || _) eqn:E; [done|]. b2p. cbv zeta.
  destruct (Z.ltb_spec checkpointStateSize (le_u16 (zdrop (1 + len checkpointMagic + 8) b))); [done|].
  intros H'. inv_ok H'. cbn [HashState LastIndex]. split; [done|]. split.
  - etrans; [apply len_ztake_max, le_u16_range|done].
  - apply le_u64_range.
Qed.
