(* ===== verification/Directory.v ===== *)
(** * The archive directory and its locator (archive/directory.go)

    A Version2 archive written in one pass ends with a directory: one record per listed
    file, decoded by the same sticky-error decoder as a session index, and a fixed-size
    locator that says where the directory entry starts. *)

From S2P Require Import Prelude Bytes Names Attributes Metadata IndexCodec.

Definition EntryTypeDirectory : Z := 6.
Definition EntryTypeDirectoryLocator : Z := 7.
Definition MaxDirectorySize : Z := 16777216.
Definition directoryMagic : bytes := str "SARCDIR1".
Definition directoryLocatorMagic : bytes := str "SARCDLC1".
Definition DirectoryLocatorSize : Z := 1 + len directoryLocatorMagic + 8.
Definition DirectoryTailSize : Z := DirectoryLocatorSize + 1 + FooterSize.
Definition directoryFlagSolid : Z := 1.

Record DirectoryRecord := mk_dirrec {
  dr_Offset : Z;
  dr_Name : bytes;
  dr_Attributes : Attributes;
  dr_SizeBucket : Z;
  dr_Codec : Z;
  dr_Solid : bool;
  dr_OriginalSize : Z;
  dr_StoredSize : Z
}.

(** ** Writing *)

Definition NewDirectory : bytes := directoryMagic.

Definition dir_flags (r : DirectoryRecord) : Z :=
  if dr_Solid r then Z.lor 0 directoryFlagSolid else 0.

Definition AppendDirectoryRecord (dir : bytes) (r : DirectoryRecord) : result bytes :=
  if negb (ValidEntryName (dr_Name r)) then errorf ErrOther "invalid entry name"
  else if negb (Kind (dr_Attributes r) =? KindRegular) &&
          (negb (dr_OriginalSize r =? 0) || negb (dr_StoredSize r =? 0))
  then errorf ErrOther "entry with data"
  else match AppendAttributes [] (dr_Attributes r) with
       | Err e => Err e
       | Ok attrs =>
           Ok (dir ++ put_uvarint (dr_Offset r) ++ appendString (dr_Name r) ++
               [zb (dir_flags r); zb (dr_SizeBucket r); zb (dr_Codec r)] ++
               put_uvarint (len attrs) ++ attrs ++
               put_uvarint (dr_OriginalSize r) ++ put_uvarint (dr_StoredSize r))
       end.

(** A writer's sequence of appends to a new directory. *)
Fixpoint AppendDirectoryRecords (dir : bytes) (rs : list DirectoryRecord) : result bytes :=
  match rs with
  | [] => Ok dir
  | r :: rs => match AppendDirectoryRecord dir r with
               | Err e => Err e
               | Ok dir => AppendDirectoryRecords dir rs
               end
  end.

(** ** Reading *)

(** The final [switch] of [directoryRecord]; its first case is the guard of [d_check]. *)
Definition record_problem (flags bucket codec : Z) (r : DirectoryRecord) : option string :=
  if negb (Z.ldiff flags directoryFlagSolid =? 0) then Some "unknown flags"%string
  else if BucketHuge <? bucket then Some "unknown size bucket"%string
  else if negb (codec =? CodecNone) && negb (codec =? CodecZstd) then Some "unknown codec"%string
  else if negb (Kind (dr_Attributes r) =? KindRegular) &&
          (negb (dr_OriginalSize r =? 0) || negb (dr_StoredSize r =? 0))
  then Some "directory or link with data"%string
  else None.

Definition d_directoryRecord : dec DirectoryRecord :=
  let! offset := d_uvarint in
  let! name := d_name in
  let! flags := d_readByte in
  let! bucket := d_readByte in
  let! codec := d_readByte in
  let! attrs := d_attributes in
  let! original := d_uvarint in
  let! stored := d_uvarint in
  let r := mk_dirrec offset name attrs bucket codec
             (negb (Z.land flags directoryFlagSolid =? 0)) original stored in
  let! _ := d_check (record_problem flags bucket codec r) in
  dret r.

(** The record loop, [for len(d.b) > 0 && d.err == nil]; [fuel] bounds the number of
    records, which never exceeds the number of bytes (see [d_records_exit]). *)
Fixpoint d_records (fuel : nat) : dec (list DirectoryRecord) := fun d =>
  match fuel with
  | O => dret [] d
  | S fuel =>
      if (len (d_b d) =? 0) || bool_decide (d_err d <> None) then dret [] d
      else dbind d_directoryRecord (fun r => dbind (d_records fuel) (fun rs => dret (r :: rs))) d
  end.

Definition dir_decoder (b : bytes) : indexDecoder :=
  mk_dec (zdrop (len directoryMagic) b) None (Some ErrMalformedDirectory).

(** [None]: a panic. *)
Definition ParseDirectory (b : bytes) : option (result (list DirectoryRecord)) :=
  if (MaxDirectorySize <? len b) || negb (has_prefix directoryMagic b)
  then Some (errorf ErrMalformedDirectory "bad magic or size")
  else
    match d_records (length b) (dir_decoder b) with
    | None => None
    | Some (records, d) =>
        match d_err d with Some e => Some (Err e) | None => Some (Ok records) end
    end.

(** ** The locator *)

Definition AppendDirectoryLocator (dst : bytes) (offset : Z) : bytes :=
  dst ++ [zb EntryTypeDirectoryLocator] ++ directoryLocatorMagic ++ le_bytes 8 offset.

Definition ParseDirectoryLocator (b : bytes) : result Z :=
  if negb (len b =? DirectoryLocatorSize) || negb (bz (hd Byte.x00 b) =? EntryTypeDirectoryLocator) ||
     negb (bytes_eqb (ztake (len directoryLocatorMagic) (zdrop 1 b)) directoryLocatorMagic)
  then errorf ErrMalformedDirectory "bad locator"
  else Ok (le_u64 (zdrop (1 + len directoryLocatorMagic) b)).

Lemma AppendDirectoryLocator_len offset : len (AppendDirectoryLocator [] offset) = DirectoryLocatorSize.
Proof. unfold AppendDirectoryLocator. rewrite !len_app, len_le_bytes. done. Qed.

Lemma ParseDirectoryLocator_Append offset : 0 <= offset < 2 ^ 64 ->
  ParseDirectoryLocator (AppendDirectoryLocator [] offset) = Ok offset.
Proof.
  intros H. unfold ParseDirectoryLocator. rewrite AppendDirectoryLocator_len, Z.eqb_refl.
  unfold AppendDirectoryLocator. cbn [app hd]. rewrite bz_zb.
  change (EntryTypeDirectoryLocator mod 256 =? EntryTypeDirectoryLocator) with true.
  change (zdrop 1 (zb EntryTypeDirectoryLocator :: ?l)) with l.
  rewrite ztake_app, bytes_eqb_refl by done. cbn [negb orb].
  rewrite app_comm_cons, zdrop_app by done.
  rewrite <- (app_nil_r (le_bytes 8 offset)). by rewrite le_u64_app.
Qed.

(** The locator is the fixed [DirectoryLocatorSize] and gives back the offset of the
    directory entry. *)
Theorem locator_roundtrip (offset : Z) (H : 0 <= offset < 2 ^ 64) :
  len (AppendDirectoryLocator [] offset) = DirectoryLocatorSize /\
  ParseDirectoryLocator (AppendDirectoryLocator [] offset) = Ok offset.
Proof. split; [apply AppendDirectoryLocator_len|by apply ParseDirectoryLocator_Append]. Qed.

Lemma locator_roundtrip_witness :
  ParseDirectoryLocator (AppendDirectoryLocator [] 123456789) = Ok 123456789.
Proof. exact (proj2 (locator_roundtrip 123456789 ltac:(lia))). Defined.

(** ** Round trip *)

Definition encode_record (r : DirectoryRecord) : bytes :=
  put_uvarint (dr_Offset r) ++ appendString (dr_Name r) ++
  [zb (dir_flags r)] ++ [zb (dr_SizeBucket r)] ++ [zb (dr_Codec r)] ++
  (put_uvarint (len (encode_attributes (dr_Attributes r))) ++ encode_attributes (dr_Attributes r)) ++
  put_uvarint (dr_OriginalSize r) ++ put_uvarint (dr_StoredSize r).

Record record_wf (r : DirectoryRecord) : Prop := {
  rw_offset : 0 <= dr_Offset r < 2 ^ 64;
  rw_name : ValidEntryName (dr_Name r) = true;
  rw_typed : Attributes_typed (dr_Attributes r);
  rw_valid : validate (dr_Attributes r) = Ok tt;
  rw_bucket : 0 <= dr_SizeBucket r <= BucketHuge;
  rw_codec : dr_Codec r = CodecNone \/ dr_Codec r = CodecZstd;
  rw_original : 0 <= dr_OriginalSize r < 2 ^ 64;
  rw_stored : 0 <= dr_StoredSize r < 2 ^ 64;
  rw_kind : Kind (dr_Attributes r) = KindRegular \/ (dr_OriginalSize r = 0 /\ dr_StoredSize r = 0)
}.

Lemma AppendDirectoryRecord_Ok dir r b :
  AppendDirectoryRecord dir r = Ok b -> b = dir ++ encode_record r.
Proof.
  unfold AppendDirectoryRecord, errorf. destruct (negb _); [done|]. destruct (_ && _); [done|].
  destruct (AppendAttributes [] _) as [attrs|] eqn:E; [|done]. intros H. inv_ok H.
  apply AppendAttributes_Ok in E as [_ ->]. f_equal. unfold encode_record.
  rewrite app_nil_l. by rewrite <- (app_assoc (put_uvarint (len (encode_attributes _)))).
Qed.

Lemma AppendDirectoryRecords_Ok rs : forall dir b,
  AppendDirectoryRecords dir rs = Ok b -> b = dir ++ concat (map encode_record rs).
Proof.
  induction rs as [|r rs IH]; intros dir b H; cbn [AppendDirectoryRecords map concat] in *.
  - inv_ok H. by rewrite app_nil_r.
  - destruct (AppendDirectoryRecord dir r) as [dir'|] eqn:E; [|done].
    apply AppendDirectoryRecord_Ok in E as ->. rewrite (IH _ _ H). by rewrite app_assoc.
Qed.

Lemma encode_record_nonempty r : 1 <= len (encode_record r).
Proof. unfold encode_record. pose proof (put_uvarint_nonempty (dr_Offset r)). len_lia. Qed.

Lemma reads_record r : record_wf r -> reads d_directoryRecord (encode_record r) r.
Proof.
  intros [Ho Hn Ht Hv Hb Hc Hos Hss Hk]. unfold d_directoryRecord, encode_record.
  assert (0 <= dr_Codec r < 256) by (destruct Hc as [-> | ->]; done).
  assert (Hf : 0 <= dir_flags r < 256) by (unfold dir_flags; destruct (dr_Solid r); done).
  unfold BucketHuge in Hb.
  eapply reads_bind; [by apply reads_uvarint|].
  eapply reads_bind; [by apply reads_name|].
  eapply reads_bind; [by apply reads_readByte|].
  eapply reads_bind; [apply reads_readByte; lia|].
  eapply reads_bind; [by apply reads_readByte|].
  eapply reads_bind; [by apply reads_attributes|].
  eapply reads_bind; [by apply reads_uvarint|].
  eapply reads_bind_last; [by apply reads_uvarint|]. cbv zeta.
  assert (negb (Z.land (dir_flags r) directoryFlagSolid =? 0) = dr_Solid r) as ->
    by (unfold dir_flags; by destruct (dr_Solid r)).
  assert (record_problem (dir_flags r) (dr_SizeBucket r) (dr_Codec r) (mk_dirrec (dr_Offset r) (dr_Name r)
    (dr_Attributes r) (dr_SizeBucket r) (dr_Codec r) (dr_Solid r) (dr_OriginalSize r) (dr_StoredSize r)) = None) as ->.
  { unfold record_problem. cbn [dr_Attributes dr_OriginalSize dr_StoredSize]. unfold BucketHuge. ltb_false.
    assert (negb (Z.ldiff (dir_flags r) directoryFlagSolid =? 0) = false) as ->
      by (unfold dir_flags; by destruct (dr_Solid r)).
    destruct Hc as [-> | ->]; (destruct Hk as [-> | [-> ->]]; [done|by destruct (Kind _ =? _)]). }
  eapply reads_bind_nil; [apply reads_check_None|]. destruct r; apply reads_ret.
Qed.

Lemma reads_records rs : Forall record_wf rs -> forall fuel mal, (length (concat (map encode_record rs)) <= fuel)%nat ->
  d_records fuel (mk_dec (concat (map encode_record rs)) None mal) = Some (rs, mk_dec [] None mal).
Proof.
  induction 1 as [|r rs Hr _ IH]; intros fuel mal Hf; cbn [map concat] in *.
  - by destruct fuel.
  - pose proof (encode_record_nonempty r) as Hne.
    assert (length (encode_record r ++ concat (map encode_record rs)) <> 0)%nat.
    { rewrite length_app. unfold len in Hne. lia. }
    destruct fuel as [|fuel]; [lia|]. cbn [d_records d_b d_err].
    eqb_false. rewrite bool_decide_false by (intros Hn; by apply Hn). cbn [orb].
    unfold dbind. rewrite (reads_record r Hr). rewrite IH; [done|].
    rewrite length_app in Hf. unfold len in Hne. lia.
Qed.

(** The directory of an archive survives the wire: appending any list of well-formed
    records to a new directory gives bytes that [ParseDirectory] decodes to exactly that
    list, in order, as long as they fit [MaxDirectorySize]. *)
Theorem directory_roundtrip (rs : list DirectoryRecord) (b : bytes)
  (Hwf : Forall record_wf rs) (H : AppendDirectoryRecords NewDirectory rs = Ok b)
  (Hsize : len b <= MaxDirectorySize) : ParseDirectory b = Some (Ok rs).
Proof.
  apply AppendDirectoryRecords_Ok in H as ->. unfold ParseDirectory, NewDirectory, dir_decoder in *.
  rewrite has_prefix_app. ltb_false. cbn [negb orb]. rewrite zdrop_app by done.
  rewrite reads_records; [done|done|]. rewrite length_app. lia.
Qed.

Definition sample_records : list DirectoryRecord :=
  [mk_dirrec 94 (str "a/b.txt") sample_attributes BucketTiny CodecZstd false 0 0;
   mk_dirrec 94 (str "c") zero_attributes BucketSmall CodecZstd true 2000 120].

Lemma directory_roundtrip_witness :
  match AppendDirectoryRecords NewDirectory sample_records with
  | Ok b => ParseDirectory b = Some (Ok sample_records) | Err _ => False end.
Proof.
  destruct (AppendDirectoryRecords NewDirectory sample_records) as [b|e] eqn:E;
    [|vm_compute in E; discriminate E].
  refine (directory_roundtrip sample_records b _ E _).
  - repeat (apply Forall_cons; split); [| |apply Forall_nil; exact I];
      (constructor; cbn [dr_Offset dr_Name dr_Attributes dr_SizeBucket dr_Codec dr_OriginalSize dr_StoredSize];
       unfold BucketTiny, BucketSmall, BucketHuge;
       try lia; try (lazymatch goal with |- _ = _ => vm_compute; reflexivity end); try (by left); try (by right)).
    + unfold Attributes_typed, sample_attributes, Owner_typed, KindSymlink; cbn [Kind Mode ModTime attr_Owner].
      repeat split; try lia; injection H as <-; simpl; lia.
    + apply zero_attributes_typed.
  - vm_compute in E. injection E as <-. vm_compute. discriminate.
Defined.

(** ** Accepted directories are safe to list *)

Lemma record_problem_None flags bucket codec r :
  record_problem flags bucket codec r = None ->
  bucket <= BucketHuge /\ (codec = CodecNone \/ codec = CodecZstd) /\
  (Kind (dr_Attributes r) = KindRegular \/ (dr_OriginalSize r = 0 /\ dr_StoredSize r = 0)).
Proof.
  unfold record_problem. intros H. repeat (case_match; [done|]). b2p.
  split; [lia|]. split.
  - destruct (Z.eqb_spec codec CodecNone); [by left|]. destruct (Z.eqb_spec codec CodecZstd); [by right|done].
  - destruct (Z.eqb_spec (Kind (dr_Attributes r)) KindRegular); [by left|right]. cbn in *. b2p. done.
Qed.

Lemma post_record B : 0 <= B -> post B d_directoryRecord record_wf.
Proof.
  intros HB. unfold d_directoryRecord.
  eapply post_bind; [by apply post_uvarint|]. intros offset.
  eapply post_bind; [by apply post_name|]. intros name.
  eapply post_bind; [by apply post_readByte|]. intros flags.
  eapply post_bind; [by apply post_readByte|]. intros bucket.
  eapply post_bind; [by apply post_readByte|]. intros codec.
  eapply post_bind; [by apply post_attributes|]. intros attrs.
  eapply post_bind; [by apply post_uvarint|]. intros original.
  eapply post_bind; [by apply post_uvarint|]. intros stored. cbv zeta.
  eapply post_bind; [by apply post_check|]. intros [].
  apply post_ret. intros Hp Hs Ho [Ht Hv] Hc Hb _ Hn Hoff.
  apply record_problem_None in Hp as (? & ? & ?).
  constructor; cbn [dr_Offset dr_Name dr_Attributes dr_SizeBucket dr_Codec dr_OriginalSize dr_StoredSize] in *; try done; lia.
Qed.

Lemma post_records B fuel : 0 <= B -> post B (d_records fuel) (Forall record_wf).
Proof.
  intros HB. induction fuel as [|fuel IH]; [apply post_ret; constructor|].
  intros d a d' Hd H. cbn [d_records] in H. destruct (_ || _).
  { injection H as <- <-. repeat split; auto. }
  revert H. apply (post_bind B d_directoryRecord _ record_wf); [by apply post_record| |done].
  intros r. eapply post_bind; [apply IH|]. intros rs. apply post_ret. auto.
Qed.

(** Every record of an accepted directory is safe to list and to seek to: a valid
    name, valid attributes, a known bucket and codec, and sizes only on regular files. *)
Theorem parse_directory_checked (b : bytes) (rs : list DirectoryRecord)
  (H : ParseDirectory b = Some (Ok rs)) : Forall record_wf rs.
Proof.
  unfold ParseDirectory, errorf in H. destruct (_ || _); [done|].
  destruct (d_records _ _) as [[rs' d]|] eqn:E; [|done].
  destruct (d_err d) eqn:Ee; [done|]. injection H as ->.
  apply (post_records (len (d_b (dir_decoder b)))) in E as (_ & _ & Hq); [by apply Hq|apply len_nonneg|done].
Qed.

Lemma parse_directory_checked_witness :
  match AppendDirectoryRecords NewDirectory sample_records with
  | Ok b => Forall record_wf sample_records | Err _ => False end.
Proof.
  destruct (AppendDirectoryRecords NewDirectory sample_records) as [b|e] eqn:E;
    [|vm_compute in E; discriminate E].
  refine (parse_directory_checked b sample_records _).
  vm_compute in E. injection E as <-. vm_compute. reflexivity.
Defined.

(** ** The record loop ends *)

Lemma d_uvarint_consumes d v d' : d_uvarint d = Some (v, d') -> d_err d' = None ->
  len (d_b d') < len (d_b d) /\ d_err d = None.
Proof.
  unfold d_uvarint. destruct (uvarint (d_b d)) as [[u n]|] eqn:E.
  - intros [= <- <-] Hd. cbn in *. apply uvarint_range in E as [? ?].
    rewrite len_zdrop by lia. split; [lia|done].
  - intros [= <- <-]. cbn. by destruct (d_err d).
Qed.

Lemma record_consumes d r d' : d_directoryRecord d = Some (r, d') -> d_err d' = None ->
  len (d_b d') < len (d_b d).
Proof.
  intros H He. unfold d_directoryRecord in H. unfold dbind in H at 1.
  destruct (d_uvarint d) as [[o d1]|] eqn:E; [|done].
  assert (post (len (d_b d1)) (let! name := d_name in
    let! flags := d_readByte in let! bucket := d_readByte in let! codec := d_readByte in
    let! attrs := d_attributes in let! original := d_uvarint in let! stored := d_uvarint in
    let r := mk_dirrec o name attrs bucket codec
             (negb (Z.land flags directoryFlagSolid =? 0)) original stored in
    let! _ := d_check (record_problem flags bucket codec r) in dret r) (fun _ => True)) as Hpost.
  { pose proof (len_nonneg (d_b d1)) as HB.
    repeat (eapply post_bind; [first [by apply post_uvarint|by apply post_name|by apply post_readByte
      |by apply post_attributes|by apply post_check]|]; intros ?; cbv zeta). by apply post_ret. }
  destruct (Hpost d1 r d' (Z.le_refl _) H) as (Hl & Hmono & _).
  apply d_uvarint_consumes in E as [? _]; [lia|]. by apply Hmono.
Qed.

Lemma d_records_fuel fuel1 : forall fuel2 d, (length (d_b d) <= fuel1)%nat -> (length (d_b d) <= fuel2)%nat ->
  d_records fuel1 d = d_records fuel2 d.
Proof.
  assert (Hstop : forall fuel d, d_b d = [] \/ d_err d <> None -> d_records fuel d = Some ([], d)).
  { intros [|fuel] d [H|H]; try done; cbn [d_records].
    - by rewrite H.
    - rewrite bool_decide_true by done. by rewrite orb_true_r. }
  induction fuel1 as [|fuel1 IH]; intros fuel2 d H1 H2.
  { destruct (d_b d) eqn:E; [|cbn in H1; lia]. by rewrite !Hstop by (by left). }
  destruct (d_b d) as [|x l] eqn:E; [by rewrite !Hstop by (by left)|].
  destruct fuel2 as [|fuel2]; [cbn in H2; lia|]. cbn [d_records].
  destruct (_ || _); [done|]. unfold dbind.
  destruct (d_directoryRecord d) as [[r d1]|] eqn:Er; [|done].
  destruct (d_err d1) eqn:Ee.
  { by rewrite !Hstop by (right; rewrite Ee; done). }
  pose proof (record_consumes d r d1 Er Ee) as Hc. rewrite E in Hc. unfold len in Hc. cbn in Hc, H1, H2.
  by rewrite (IH fuel2 d1) by lia.
Qed.

(** The record loop of [ParseDirectory] ends within one iteration per input byte:
    allowing more iterations than there are bytes changes nothing, whatever the input. *)
Theorem directory_loop_terminates (b : bytes) (fuel : nat) (H : (length b <= fuel)%nat) :
  d_records fuel (dir_decoder b) = d_records (length b) (dir_decoder b).
Proof.
  assert (length (d_b (dir_decoder b)) <= length b)%nat
    by (unfold dir_decoder, zdrop; cbn; rewrite length_skipn; lia).
  apply d_records_fuel; lia.
Qed.

Lemma directory_loop_terminates_witness :
  d_records 1000 (dir_decoder (NewDirectory ++ str "x")) = d_records 9 (dir_decoder (NewDirectory ++ str "x")).
Proof. apply (directory_loop_terminates (NewDirectory ++ str "x") 1000). vm_compute. lia. Defined.

(** ** A malformed directory that panics *)

Definition panicking_directory : bytes :=
  NewDirectory ++ put_uvarint 0 ++ appendString (str "f") ++ [Byte.x00; Byte.x00; Byte.x00] ++
  put_uvarint (2 ^ 63).

(** [ParseDirectory] panics on a 24-byte directory whose attribute length is 2^63: the
    refused length is still passed, as a negative int, to the slicing [bytes] call. *)
Theorem parse_directory_panics :
  len panicking_directory = 24 /\ ParseDirectory panicking_directory = None.
Proof. split; vm_compute; reflexivity. Qed.
