(* ===== verification/Solid.v ===== *)
(** * Solid record streams (archive/solid.go)

    A solid group packs many small files into one record stream. [AppendSolidRecord]
    writes one record and [ParseSolidStream] decodes a whole stream; the theorems show
    that they are mutually inverse. *)

From S2P Require Import Prelude Bytes Names Attributes.
Open Scope go_scope.

Definition SolidMemberMaxSize : Z := 1048576.
Definition MaxSolidStreamSize : Z := 8388608.
Definition solidRecordHeaderSize : Z := 2 + 4 + 8.

Record SolidMember := mk_member { sm_Name : bytes; sm_Attributes : Attributes; sm_Data : bytes }.

Definition SolidRecordSize (nameLen attrsLen dataLen : Z) : Z :=
  solidRecordHeaderSize + nameLen + attrsLen + dataLen.

(** The stream after the call, and the error if the record was refused. *)
Definition AppendSolidRecord (dst : bytes) (m : SolidMember) : bytes * option error :=
  if negb (ValidEntryName (sm_Name m)) then (dst, Some (mk_error ErrOther "invalid member name"))
  else if negb (Kind (sm_Attributes m) =? KindRegular)
  then (dst, Some (mk_error ErrOther "only regular files join solid groups"))
  else match AppendAttributes [] (sm_Attributes m) with
       | Err e => (dst, Some e)
       | Ok attrs =>
           (dst ++ le_bytes 2 (len (sm_Name m)) ++ sm_Name m ++
            le_bytes 4 (len attrs) ++ attrs ++ le_bytes 8 (len (sm_Data m)) ++ sm_Data m, None)
       end.

Fixpoint AppendSolidRecords (dst : bytes) (ms : list SolidMember) : result bytes :=
  match ms with
  | [] => Ok dst
  | m :: ms => match AppendSolidRecord dst m with
               | (_, Some e) => Err e
               | (dst, None) => AppendSolidRecords dst ms
               end
  end.

Definition solid_fail {A} (msg : string) : result A := errorf ErrMalformedSolidStream msg.

(** One iteration of the record loop: [s] is [stream[off:]], and the result is the member
    and the stream after it. *)
Definition solid_record (s : bytes) : result (SolidMember * bytes) :=
  if len s <? 2 then solid_fail "truncated name length"
  else
  let nameLen := le_u16 s in
  let s := zdrop 2 s in
  if len s <? nameLen + 4 + 8 then solid_fail "truncated record header"
  else
  let name := ztake nameLen s in
  let s := zdrop nameLen s in
  if negb (ValidEntryName name) then solid_fail "invalid member name"
  else
  let attrsLen := le_u32 s in
  let s := zdrop 4 s in
  if (MaxAttributesSize <? attrsLen) || (len s - 8 <? attrsLen)
  then solid_fail "attributes run past stream"
  else
  match ParseAttributes (ztake attrsLen s) with
  | Err _ => solid_fail "bad member attributes"
  | Ok attrs =>
      if negb (Kind attrs =? KindRegular) then solid_fail "bad member attributes"
      else
      let s := zdrop attrsLen s in
      let dataLen := le_u64 s in
      let s := zdrop 8 s in
      if len s <? dataLen then solid_fail "member data runs past stream"
      else Ok (mk_member name attrs (ztake dataLen s), zdrop dataLen s)
  end.

Fixpoint solid_records (fuel : nat) (s : bytes) : result (list SolidMember) :=
  match fuel with
  | O => Ok []
  | S fuel =>
      if negb (0 <? len s) then Ok []
      else
        let? '(m, s) := solid_record s in
        let? ms := solid_records fuel s in
        Ok (m :: ms)
  end.

Definition ParseSolidStream (stream : bytes) : result (list SolidMember) :=
  let? members := solid_records (length stream) stream in
  if len members =? 0 then solid_fail "no members" else Ok members.

(** ** Records and their bytes *)

Definition encode_member (m : SolidMember) : bytes :=
  le_bytes 2 (len (sm_Name m)) ++ sm_Name m ++
  le_bytes 4 (len (encode_attributes (sm_Attributes m))) ++ encode_attributes (sm_Attributes m) ++
  le_bytes 8 (len (sm_Data m)) ++ sm_Data m.

Record member_ok (m : SolidMember) : Prop := {
  mo_name : ValidEntryName (sm_Name m) = true;
  mo_kind : Kind (sm_Attributes m) = KindRegular;
  mo_typed : Attributes_typed (sm_Attributes m);
  mo_valid : validate (sm_Attributes m) = Ok tt;
  mo_data : len (sm_Data m) < 2 ^ 63
}.

Lemma AppendSolidRecord_Ok dst m dst' : AppendSolidRecord dst m = (dst', None) ->
  dst' = dst ++ encode_member m /\ ValidEntryName (sm_Name m) = true /\
  Kind (sm_Attributes m) = KindRegular /\ validate (sm_Attributes m) = Ok tt.
Proof.
  unfold AppendSolidRecord. destruct (ValidEntryName _) eqn:En; [|done]. cbn [negb].
  destruct (Z.eqb_spec (Kind (sm_Attributes m)) KindRegular); [|done]. cbn [negb].
  destruct (AppendAttributes [] _) as [attrs|] eqn:E; [|done].
  apply AppendAttributes_Ok in E as [Hv ->]. rewrite app_nil_l.
  intros H. apply (f_equal fst) in H. cbn [fst] in H. by subst.
Qed.

Lemma AppendSolidRecord_valid dst m : ValidEntryName (sm_Name m) = true ->
  Kind (sm_Attributes m) = KindRegular -> validate (sm_Attributes m) = Ok tt ->
  AppendSolidRecord dst m = (dst ++ encode_member m, None).
Proof.
  intros Hn Hk Hv. unfold AppendSolidRecord. rewrite Hn, Hk. cbn [negb].
  rewrite (proj2 (AppendAttributes_Ok [] (sm_Attributes m) (encode_attributes (sm_Attributes m)))) by done.
  done.
Qed.

(** The record size the planner estimates is the exact encoded size. *)
Lemma encode_member_len m :
  len (encode_member m) =
  SolidRecordSize (len (sm_Name m)) (len (encode_attributes (sm_Attributes m))) (len (sm_Data m)).
Proof.
  unfold encode_member, SolidRecordSize, solidRecordHeaderSize. rewrite !len_app, !len_le_bytes. lia.
Qed.

Lemma encode_member_pos m : 14 <= len (encode_member m).
Proof. rewrite encode_member_len. unfold SolidRecordSize, solidRecordHeaderSize. len_lia. Qed.

Lemma solid_record_app m r : member_ok m -> solid_record (encode_member m ++ r) = Ok (m, r).
Proof.
  intros [Hn Hk Ht Hv Hd]. pose proof (valid_name_len _ Hn) as Hnl. unfold MaxEntryNameLen in Hnl.
  pose proof (attributes_len_bound _ Hv) as Hal.
  assert (MaxAttributesSize < 2 ^ 32) by done.
  pose proof (len_nonneg (encode_attributes (sm_Attributes m))). pose proof (len_nonneg (sm_Data m)).
  pose proof (len_nonneg r). pose proof (len_nonneg (sm_Name m)).
  assert ((len (encode_member m ++ r) <? 2) = false) as Hl.
  { pose proof (encode_member_pos m). apply Z.ltb_ge. rewrite len_app. lia. }
  unfold solid_record. rewrite Hl. unfold encode_member. rewrite <- !app_assoc. cbv zeta.
  rewrite le_u16_app by lia. rewrite zdrop_app by done.
  rewrite (proj2 (Z.ltb_ge (len (sm_Name m ++ _)) _)) by (rewrite !len_app, !len_le_bytes; lia).
  rewrite ztake_app by done. rewrite Hn. cbn [negb]. rewrite zdrop_app by done.
  rewrite le_u32_app by lia. rewrite zdrop_app by done.
  rewrite (proj2 (Z.ltb_ge MaxAttributesSize _)) by lia.
  rewrite (proj2 (Z.ltb_ge (len _ - 8) _)) by (rewrite !len_app, !len_le_bytes; lia). cbn [orb].
  rewrite ztake_app by done. rewrite ParseAttributes_encode by done. rewrite Hk. cbn [negb Z.eqb].
  rewrite zdrop_app by done. rewrite le_u64_app by lia. rewrite zdrop_app by done.
  rewrite (proj2 (Z.ltb_ge _ _)) by (rewrite !len_app; lia).
  rewrite ztake_app, zdrop_app by done. by destruct m.
Qed.

Lemma solid_record_inv s m r : solid_record s = Ok (m, r) -> len s < 2 ^ 63 ->
  s = encode_member m ++ r /\ member_ok m.
Proof.
  unfold solid_record, solid_fail, errorf. intros H Hs.
  destruct (Z.ltb_spec (len s) 2); [done|]. cbv zeta in H.
  set (nameLen := le_u16 s) in *. set (s1 := zdrop 2 s) in *.
  assert (s = le_bytes 2 nameLen ++ s1) as E1 by (by apply (le_split 2)).
  pose proof (le_u16_range s) as Hnr. fold nameLen in Hnr.
  destruct (Z.ltb_spec (len s1) (nameLen + 4 + 8)); [done|].
  destruct (ValidEntryName (ztake nameLen s1)) eqn:Hn; [|done]. cbn [negb] in H.
  set (name := ztake nameLen s1) in *. set (s2 := zdrop nameLen s1) in *.
  assert (s1 = name ++ s2) as E2 by (symmetry; apply ztake_zdrop).
  assert (len name = nameLen) as Hnl by (apply len_ztake; lia).
  set (attrsLen := le_u32 s2) in *. set (s3 := zdrop 4 s2) in *.
  assert (len s2 = len s1 - nameLen) by (rewrite E2 at 1; rewrite len_app; lia).
  assert (s2 = le_bytes 4 attrsLen ++ s3) as E3 by (apply (le_split 4); lia).
  pose proof (le_u32_range s2) as Har. fold attrsLen in Har.
  destruct (_ || _) eqn:Eg; [done|]. b2p.
  destruct (ParseAttributes _) as [attrs|] eqn:Ea; [|done].
  destruct (Z.eqb_spec (Kind attrs) KindRegular); [|done]. cbn [negb] in H.
  apply ParseAttributes_inv in Ea as (Ht & Hv & Ea).
  set (s4 := zdrop attrsLen s3) in *.
  assert (s3 = encode_attributes attrs ++ s4) as E4 by (rewrite <- Ea; symmetry; apply ztake_zdrop).
  assert (len (encode_attributes attrs) = attrsLen) as Hal by (rewrite <- Ea; apply len_ztake; lia).
  set (dataLen := le_u64 s4) in *. set (s5 := zdrop 8 s4) in *.
  assert (len s4 = len s3 - attrsLen) by (rewrite E4 at 1; rewrite len_app; lia).
  assert (s4 = le_bytes 8 dataLen ++ s5) as E5 by (apply (le_split 8); lia).
  pose proof (le_u64_range s4) as Hdr. fold dataLen in Hdr.
  destruct (Z.ltb_spec (len s5) dataLen); [done|]. injection H as <- <-.
  assert (len (ztake dataLen s5) = dataLen) as Hdl by (apply len_ztake; lia).
  assert (len s5 <= len s).
  { rewrite E1, E2, E3, E4, E5. rewrite !len_app, !len_le_bytes. lia. }
  split; [|constructor; cbn [sm_Name sm_Attributes sm_Data]; try done; lia].
  unfold encode_member. cbn [sm_Name sm_Attributes sm_Data]. rewrite Hnl, Hal, Hdl, <- !app_assoc.
  by rewrite ztake_zdrop, <- E5, <- E4, <- E3, <- E2, <- E1.
Qed.

(** ** Whole streams *)

Definition encode_members (ms : list SolidMember) : bytes := concat (map encode_member ms).

Lemma AppendSolidRecords_Ok ms : forall dst b, AppendSolidRecords dst ms = Ok b ->
  b = dst ++ encode_members ms.
Proof.
  induction ms as [|m ms IH]; intros dst b H; cbn [AppendSolidRecords] in H.
  - inv_ok H. by rewrite app_nil_r.
  - destruct (AppendSolidRecord dst m) as [dst' [e|]] eqn:E; [done|].
    apply AppendSolidRecord_Ok in E as [-> _]. rewrite (IH _ _ H).
    unfold encode_members. cbn [map concat]. by rewrite app_assoc.
Qed.

Lemma AppendSolidRecords_valid ms : Forall member_ok ms -> forall dst,
  AppendSolidRecords dst ms = Ok (dst ++ encode_members ms).
Proof.
  induction 1 as [|m ms [] _ IH]; intros dst; cbn [AppendSolidRecords].
  - by rewrite app_nil_r.
  - rewrite AppendSolidRecord_valid by done. rewrite IH.
    unfold encode_members. cbn [map concat]. by rewrite app_assoc.
Qed.

Lemma solid_records_app ms : Forall member_ok ms -> forall fuel,
  (length (encode_members ms) <= fuel)%nat -> solid_records fuel (encode_members ms) = Ok ms.
Proof.
  induction 1 as [|m ms Hm _ IH]; intros fuel Hf; unfold encode_members in *; cbn [map concat] in *.
  - by destruct fuel.
  - pose proof (encode_member_pos m) as Hp. rewrite length_app in Hf. unfold len in Hp.
    destruct fuel as [|fuel]; [lia|]. cbn [solid_records].
    assert ((0 <? len (encode_member m ++ concat (map encode_member ms))) = true) as ->.
    { apply Z.ltb_lt. rewrite len_app. unfold len. lia. }
    cbn [negb]. rewrite (solid_record_app m _ Hm). rewrite IH by lia. done.
Qed.

Lemma solid_records_inv fuel : forall s ms, (length s <= fuel)%nat -> len s < 2 ^ 63 ->
  solid_records fuel s = Ok ms -> s = encode_members ms /\ Forall member_ok ms.
Proof.
  induction fuel as [|fuel IH]; intros s ms Hf Hs H; cbn [solid_records] in H.
  - inv_ok H. destruct s; [done|cbn in Hf; lia].
  - destruct (Z.ltb_spec 0 (len s)) as [Hp|Hp]; cbn [negb] in H.
    2:{ inv_ok H. rewrite (len_0_nil s) by len_lia. done. }
    destruct (solid_record s) as [[m r]|] eqn:E; [|done].
    destruct (solid_records fuel r) as [ms'|] eqn:E'; [|done]. inv_ok H.
    apply solid_record_inv in E as [-> Hm]; [|done].
    pose proof (encode_member_pos m) as Hpm. rewrite length_app in Hf. rewrite len_app in Hs.
    pose proof (len_nonneg (encode_member m)). unfold len in Hpm.
    apply IH in E' as [-> Hms]; [|lia|lia]. split; [done|by constructor].
Qed.

(** A solid group survives the wire: packing any non-empty list of acceptable members
    into a stream and parsing the stream gives the members back, names, attributes and
    data, in order. *)
Theorem solid_stream_roundtrip (ms : list SolidMember) (Hne : ms <> [])
  (Hok : Forall member_ok ms) :
  exists stream, AppendSolidRecords [] ms = Ok stream /\ ParseSolidStream stream = Ok ms.
Proof.
  exists (encode_members ms). split; [by rewrite AppendSolidRecords_valid|].
  unfold ParseSolidStream. rewrite solid_records_app by done.
  destruct ms; [done|]. rewrite len_cons. by eqb_false.
Qed.

Definition sample_members : list SolidMember :=
  [mk_member (str "a") zero_attributes (str "hello");
   mk_member (str "d/b") (mk_attributes 0 420 77 [] None []) []].

Lemma sample_members_ok : Forall member_ok sample_members.
Proof.
  repeat (apply Forall_cons; split); [| |by apply Forall_nil];
    (constructor; [vm_compute; reflexivity|reflexivity| |vm_compute; reflexivity|reflexivity]).
  - apply zero_attributes_typed.
  - unfold Attributes_typed. cbn [Kind Mode ModTime attr_Owner]. split_and!; try lia; done.
Defined.

Lemma solid_stream_roundtrip_witness :
  exists stream, AppendSolidRecords [] sample_members = Ok stream /\
                 ParseSolidStream stream = Ok sample_members.
Proof. apply (solid_stream_roundtrip sample_members); [discriminate|apply sample_members_ok]. Defined.

(** Solid streams have one encoding: a stream [ParseSolidStream] accepts is byte for
    byte what appending the members it returns writes, and each of those members has a
    valid name, valid attributes and is a regular file. *)
Theorem solid_stream_canonical (stream : bytes) (ms : list SolidMember)
  (Hlen : len stream < 2 ^ 63) (H : ParseSolidStream stream = Ok ms) :
  AppendSolidRecords [] ms = Ok stream /\ Forall member_ok ms /\ ms <> [].
Proof.
  unfold ParseSolidStream, solid_fail, errorf in H.
  destruct (solid_records _ _) as [ms'|] eqn:E; [|done].
  destruct (Z.eqb_spec (len ms') 0) as [|Hne]; [done|]. inv_ok H.
  apply solid_records_inv in E as [-> Hms]; [|done|done].
  split; [by rewrite AppendSolidRecords_valid|]. split; [done|]. by intros ->.
Qed.

Lemma solid_stream_canonical_witness :
  ParseSolidStream (encode_members sample_members) = Ok sample_members /\
  AppendSolidRecords [] sample_members = Ok (encode_members sample_members).
Proof.
  assert (ParseSolidStream (encode_members sample_members) = Ok sample_members) as H
    by (vm_compute; reflexivity).
  split; [exact H|].
  exact (proj1 (solid_stream_canonical (encode_members sample_members) sample_members eq_refl H)).
Defined.
