(* ===== verification/IOErrors.v ===== *)
(** * Errors of the io package (io/errors.go)

    An [ArchiveError] is fatal (the archive cannot be processed further) or recoverable
    (this entry failed, the next may succeed), with one of the stable error codes. *)

From S2P Require Import Prelude.

Inductive ErrorKind := ErrKindFatal | ErrKindRecoverable.

Inductive ErrCode :=
  | ErrCodeBadMagic | ErrCodeBadVersion | ErrCodeAuthFailed | ErrCodeTruncated
  | ErrCodeIntegrityFail | ErrCodeWriteFailed | ErrCodeReadFailed | ErrCodeWorkerPanic
  | ErrCodeInvalidOption.

#[global] Instance ErrorKind_eq_dec : EqDecision ErrorKind.
Proof. solve_decision. Defined.
#[global] Instance ErrCode_eq_dec : EqDecision ErrCode.
Proof. solve_decision. Defined.

Record ArchiveError := mk_aerr { ae_Kind : ErrorKind; ae_Code : ErrCode; ae_Message : string }.

#[global] Instance ArchiveError_eq_dec : EqDecision ArchiveError.
Proof. solve_decision. Defined.

Definition fatal (code : ErrCode) (message : string) : ArchiveError :=
  mk_aerr ErrKindFatal code message.
Definition recoverable (code : ErrCode) (message : string) : ArchiveError :=
  mk_aerr ErrKindRecoverable code message.

Definition IsFatal (e : ArchiveError) : bool := bool_decide (ae_Kind e = ErrKindFatal).

(** A call of the io package: a value or an [ArchiveError]. *)
Inductive iores (A : Type) := IOk (a : A) | IErr (e : ArchiveError).
Arguments IOk {A} a.
Arguments IErr {A} e.

Lemma IOk_inj {A} (a b : A) : IOk a = IOk b -> a = b.
Proof. congruence. Qed.

Ltac inv_iok H := apply IOk_inj in H; try subst.

(** [wrap code msg r]: report a failure of [r] as a fatal or recoverable error. *)
Definition or_fatal {A} (code : ErrCode) (msg : string) (r : result A) : iores A :=
  match r with Ok a => IOk a | Err _ => IErr (fatal code msg) end.
Definition or_recoverable {A} (code : ErrCode) (msg : string) (r : result A) : iores A :=
  match r with Ok a => IOk a | Err _ => IErr (recoverable code msg) end.

Notation "'let@' x ':=' e 'in' k" :=
  (match e with IOk x => k | IErr err => IErr err end)
  (at level 10, x name, e at level 100, k at level 200) : go_scope.
Notation "'let@' ' x ':=' e 'in' k" :=
  (match e with IOk x => k | IErr err => IErr err end)
  (at level 10, x strict pattern, e at level 100, k at level 200) : go_scope.
