(* ===== verification/Inputs.v ===== *)
(** * Archive inputs (io/inputs.go)

    Which entries an archiver stores for its arguments. The file system is an argument of
    the model: [fileInfo] is what a stat reports and the [fs] record answers the calls
    made on a path. [walker] accumulates entries the way the source does, including the
    table that turns a second path to a file into a hard link to the first. *)

From S2P Require Import Prelude Names Attributes IOErrors.

(** ** Go file modes *)

Definition ModeDir : Z := 2 ^ 31.
Definition ModeSymlink : Z := 2 ^ 27.
Definition ModeDevice : Z := 2 ^ 26.
Definition ModeNamedPipe : Z := 2 ^ 25.
Definition ModeSocket : Z := 2 ^ 24.
Definition ModeSetuid : Z := 2 ^ 23.
Definition ModeSetgid : Z := 2 ^ 22.
Definition ModeCharDevice : Z := 2 ^ 21.
Definition ModeSticky : Z := 2 ^ 20.
Definition ModeIrregular : Z := 2 ^ 19.
Definition ModePerm : Z := 511.
Definition ModeType : Z :=
  Z.lor ModeDir (Z.lor ModeSymlink (Z.lor ModeNamedPipe (Z.lor ModeSocket
    (Z.lor ModeDevice (Z.lor ModeCharDevice ModeIrregular))))).

Definition has (m bits : Z) : bool := negb (Z.land m bits =? 0).
Definition IsRegular (m : Z) : bool := Z.land m ModeType =? 0.
Definition IsDir (m : Z) : bool := has m ModeDir.

Definition unixMode (m : Z) : Z :=
  let mode := Z.land m ModePerm in
  let mode := if has m ModeSetuid then Z.lor mode 2048 else mode in
  let mode := if has m ModeSetgid then Z.lor mode 1024 else mode in
  if has m ModeSticky then Z.lor mode 512 else mode.

Definition fileMode (mode : Z) : Z :=
  let m := Z.land mode 511 in
  let m := if has mode 2048 then Z.lor m ModeSetuid else m in
  let m := if has mode 1024 then Z.lor m ModeSetgid else m in
  if has mode 512 then Z.lor m ModeSticky else m.

(** ** The file system as the walker sees it *)

Record fileInfo := mk_info {
  fi_Name : bytes;
  fi_Mode : Z;
  fi_ModTime : Z;
  fi_Size : Z;
  fi_ID : option (Z * Z);   (* device and inode of a file with more than one link *)
  fi_Owner : option Owner
}.

Record fs := mk_fs {
  fs_Stat : bytes -> result fileInfo;
  fs_Readlink : bytes -> result bytes;
  fs_Xattrs : bytes -> result (list Xattr)
}.

Record inputFile := mk_input { in_path : bytes; in_name : bytes; in_attrs : Attributes }.

Definition regular (i : inputFile) : bool := Kind (in_attrs i) =? KindRegular.

Record skippedInput := mk_skipped {
  sk_path : bytes;
  sk_name : bytes;
  sk_err : ArchiveError;
  sk_unreadable : bool;
  sk_warning : bool
}.

Record walker := mk_walker {
  w_owner : bool;                     (* walkOptions.owner *)
  w_files : list inputFile;
  w_skipped : list skippedInput;
  w_linked : gmap (Z * Z) bytes
}.

Definition skip (w : walker) (s : skippedInput) : walker :=
  mk_walker (w_owner w) (w_files w) (w_skipped w ++ [s]) (w_linked w).

Definition set_kind (a : Attributes) (kind : Z) (target : bytes) : Attributes :=
  mk_attributes kind (Mode a) (ModTime a) target (attr_Owner a) (Xattrs a).

Definition read_failed (msg : string) : ArchiveError := recoverable ErrCodeReadFailed msg.

(** The [switch] on the file type: the attributes with the kind and link target, the
    updated link table, or the reason the entry is skipped. *)
Definition add_kind (f : fs) (w : walker) (p name : bytes) (info : fileInfo) (attrs : Attributes) :
  (Attributes * gmap (Z * Z) bytes) + skippedInput :=
  let mode := fi_Mode info in
  if IsRegular mode then
    match fi_ID info with
    | Some id =>
        match w_linked w !! id with
        | Some first => inl (set_kind attrs KindHardlink first, w_linked w)
        | None => inl (attrs, <[id := name]> (w_linked w))
        end
    | None => inl (attrs, w_linked w)
    end
  else if IsDir mode then inl (set_kind attrs KindDirectory (LinkTarget attrs), w_linked w)
  else if has mode ModeSymlink then
    match fs_Readlink f p with
    | Err _ => inr (mk_skipped p name (read_failed "read symlink") true false)
    | Ok target =>
        if bytes_eqb target [] || (MaxLinkTargetLen <? len target)
        then inr (mk_skipped p name (read_failed "unsupported symlink target") false false)
        else inl (set_kind attrs KindSymlink target, w_linked w)
    end
  else inr (mk_skipped p name (read_failed "device, socket, or pipe: not archived") false false).

(** The extended attributes stored for [p], and the warning when they are not. *)
Definition add_xattrs (f : fs) (p name : bytes) : list Xattr * list skippedInput :=
  match fs_Xattrs f p with
  | Err _ => ([], [mk_skipped p name (read_failed "extended attributes not stored") false true])
  | Ok xattrs =>
      if (MaxXattrsSize <? XattrsSize xattrs) || (MaxXattrs <? len xattrs)
      then ([], [mk_skipped p name (read_failed "extended attributes larger than 1 MiB not stored") false true])
      else (xattrs, [])
  end.

Definition add (f : fs) (w : walker) (p name : bytes) (info : fileInfo) : walker :=
  if negb (ValidEntryName name)
  then skip w (mk_skipped p [] (read_failed "unsupported file name") false false)
  else
    let attrs := mk_attributes KindRegular (unixMode (fi_Mode info)) (fi_ModTime info) [] None [] in
    match add_kind f w p name info attrs with
    | inr s => skip w s
    | inl (attrs, linked) =>
        let owner := if w_owner w then fi_Owner info else attr_Owner attrs in
        let '(xattrs, warnings) := add_xattrs f p name in
        let attrs := mk_attributes (Kind attrs) (Mode attrs) (ModTime attrs) (LinkTarget attrs) owner xattrs in
        mk_walker (w_owner w) (w_files w ++ [mk_input p name attrs]) (w_skipped w ++ warnings) linked
    end.

(** One call of the [WalkDir] callback: the walked path, its stored name, whether it is
    the walked root, and the entry's info (or the error of reading it). *)
Record visit := mk_visit { v_path : bytes; v_name : bytes; v_root : bool; v_err : bool; v_info : result fileInfo }.

Definition on_visit (f : fs) (w : walker) (v : visit) : walker :=
  if v_err v then skip w (mk_skipped (v_path v) (v_name v) (read_failed "read directory") true false)
  else if bytes_eqb (v_name v) [] then w
  else match v_info v with
       | Err _ => skip w (mk_skipped (v_path v) (v_name v) (read_failed "stat file") true false)
       | Ok info =>
           if v_root v && has (fi_Mode info) ModeSymlink
           then match fs_Stat f (v_path v) with
                | Err _ => w
                | Ok info => add f w (v_path v) (v_name v) info
                end
           else add f w (v_path v) (v_name v) info
       end.

(** [expandInputs]: [walk dir] is the sequence of callback calls [filepath.WalkDir] makes
    on the directory argument [dir], and whether it returned an error. *)
Definition expand_arg (f : fs) (walk : bytes -> list visit * bool) (w : walker) (p : bytes) : walker :=
  match fs_Stat f p with
  | Err _ => skip w (mk_skipped p [] (read_failed "stat file") true false)
  | Ok info =>
      if negb (IsDir (fi_Mode info)) then add f w p (fi_Name info) info
      else
        let '(visits, failed) := walk p in
        let w := fold_left (on_visit f) visits w in
        if failed then skip w (mk_skipped p [] (read_failed "walk directory") true false) else w
  end.

Definition expandInputs (f : fs) (walk : bytes -> list visit * bool) (paths : list bytes) (owner : bool) :
  list inputFile * list skippedInput :=
  let w := fold_left (expand_arg f walk) paths (mk_walker owner [] [] ∅) in
  (w_files w, w_skipped w).

Definition splitSpecial (files : list inputFile) : list inputFile * list inputFile :=
  (filter (fun f => regular f = true) files, filter (fun f => regular f = false) files).

(** [InputTotals]: the entry count and the total size of the regular files. *)
Definition InputTotals (f : fs) (walk : bytes -> list visit * bool) (paths : list bytes) : Z * Z :=
  let files := fst (expandInputs f walk paths false) in
  (len files, i64 (
   foldr (fun i n => match (if regular i then fs_Stat f (in_path i) else errorf ErrOther "") with
                     | Ok info => fi_Size info + n | Err _ => n end) 0 files)).

(** ** Mode bits *)

(** Permission, setuid, setgid and sticky bits survive the conversion to and from Go
    file modes: what extraction applies is what archiving recorded. *)
Theorem unixMode_fileMode (m : Z) (H : 0 <= m <= ModeMask) : unixMode (fileMode m) = m.
Proof.
  assert (forallb (fun m => unixMode (fileMode m) =? m) (seqZ 0 4096) = true) as Hall
    by (vm_compute; reflexivity).
  rewrite forallb_forall in Hall. apply Z.eqb_eq, Hall, list_elem_of_In, elem_of_seqZ.
  unfold ModeMask in H. lia.
Qed.

Lemma unixMode_fileMode_witness : unixMode (fileMode 2541) = 2541.
Proof. apply (unixMode_fileMode 2541). unfold ModeMask. lia. Defined.

Lemma ldiff_lor_l a b c : Z.ldiff (Z.lor a b) c = Z.lor (Z.ldiff a c) (Z.ldiff b c).
Proof. rewrite !Z.ldiff_land. apply Z.land_lor_distr_l. Qed.

Lemma unixMode_mask m : Z.ldiff (unixMode m) ModeMask = 0.
Proof.
  assert (Z.ldiff (Z.land m ModePerm) ModeMask = 0) as H0.
  { rewrite Z.ldiff_land, <- Z.land_assoc. change (Z.land ModePerm (Z.lnot ModeMask)) with 0. apply Z.land_0_r. }
  unfold unixMode. destruct (has m ModeSetuid), (has m ModeSetgid), (has m ModeSticky);
    rewrite ?ldiff_lor_l, H0; reflexivity.
Qed.

(** ** What the walker produces *)

(** [entry_ok earlier f]: [f] has a valid name and storable attributes; a hard link points
    at a regular file already in [earlier]. Only a hard link target longer than
    [MaxLinkTargetLen] can make the attributes unstorable. *)
Definition names_regular (files : list inputFile) (name : bytes) : Prop :=
  exists f, f ∈ files /\ in_name f = name /\ regular f = true.

Definition entry_ok (earlier : list inputFile) (f : inputFile) : Prop :=
  ValidEntryName (in_name f) = true /\
  (Kind (in_attrs f) = KindHardlink -> names_regular earlier (LinkTarget (in_attrs f))) /\
  (validate (in_attrs f) = Ok tt \/
   (Kind (in_attrs f) = KindHardlink /\ MaxLinkTargetLen < len (LinkTarget (in_attrs f)))).

Inductive files_ok : list inputFile -> Prop :=
  | files_nil : files_ok []
  | files_snoc files f : files_ok files -> entry_ok files f -> files_ok (files ++ [f]).

Definition walker_ok (w : walker) : Prop :=
  files_ok (w_files w) /\
  (forall id first, w_linked w !! id = Some first ->
     ValidEntryName first = true /\ names_regular (w_files w) first).

Section Walk.
Context (f : fs).

(** Documented by the platforms: extended attribute names are 1 to 255 bytes. *)
Context (Hx : forall p xs, fs_Xattrs f p = Ok xs -> existsb bad_xattr_name xs = false).

Lemma names_regular_app files more name : names_regular files name -> names_regular (files ++ more) name.
Proof. intros (g & ? & ? & ?). exists g. rewrite elem_of_app. auto. Qed.

Lemma add_xattrs_ok p name xs ws : add_xattrs f p name = (xs, ws) ->
  (MaxXattrs <? len xs) = false /\ (MaxXattrsSize <? XattrsSize xs) = false /\
  existsb bad_xattr_name xs = false.
Proof.
  unfold add_xattrs. destruct (fs_Xattrs f p) as [xs'|] eqn:E; [|by intros [= <- <-]].
  destruct (_ || _) eqn:Ec; [by intros [= <- <-]|]. intros [= <- <-].
  apply orb_false_iff in Ec as [-> ->]. eauto.
Qed.

Definition kind_ok (a : Attributes) : Prop :=
  (KindHardlink <? Kind a) = false /\ (Z.ldiff (Mode a) ModeMask =? 0) = true /\
  Bool.eqb ((Kind a =? KindSymlink) || (Kind a =? KindHardlink)) (negb (bytes_eqb (LinkTarget a) [])) = true /\
  (Kind a =? KindHardlink) && negb (ValidEntryName (LinkTarget a)) = false /\
  (Kind a = KindHardlink \/ (MaxLinkTargetLen <? len (LinkTarget a)) = false).

Lemma validate_kind_ok a owner xs : kind_ok a ->
  (MaxXattrs <? len xs) = false /\ (MaxXattrsSize <? XattrsSize xs) = false /\
  existsb bad_xattr_name xs = false ->
  validate (mk_attributes (Kind a) (Mode a) (ModTime a) (LinkTarget a) owner xs) = Ok tt \/
  (Kind a = KindHardlink /\ MaxLinkTargetLen < len (LinkTarget a)).
Proof.
  intros (H1 & H2 & H3 & H4 & H5) (H6 & H7 & H8). unfold validate.
  cbn [Kind Mode ModTime LinkTarget attr_Owner Xattrs]. rewrite H1, H2, H3, H4, H6, H7, H8.
  destruct H5 as [Hk| ->]; [|by left]. destruct (Z.ltb_spec MaxLinkTargetLen (len (LinkTarget a))); auto.
Qed.

Lemma kind_ok_hardlink a first : (Z.ldiff (Mode a) ModeMask =? 0) = true ->
  ValidEntryName first = true -> kind_ok (set_kind a KindHardlink first).
Proof.
  intros Hm Hv. unfold kind_ok, set_kind; cbn [Kind Mode LinkTarget]. rewrite Hv.
  split_and!; try done; [|by left].
  destruct (bytes_eqb first []) eqn:E; [|done]. apply bytes_eqb_true in E as ->. by vm_compute in Hv.
Qed.

Lemma add_kind_ok w p name info mode mtime attrs linked :
  walker_ok w -> (Z.ldiff mode ModeMask =? 0) = true ->
  add_kind f w p name info (mk_attributes KindRegular mode mtime [] None []) = inl (attrs, linked) ->
  kind_ok attrs /\
  (Kind attrs = KindHardlink -> names_regular (w_files w) (LinkTarget attrs)) /\
  (forall id first, linked !! id = Some first -> w_linked w !! id = Some first \/
     (first = name /\ Kind attrs = KindRegular)).
Proof.
  intros [_ Hw] Hmode H. unfold add_kind in H.
  destruct (IsRegular _).
  { destruct (fi_ID info) as [id|].
    - destruct (w_linked w !! id) as [first|] eqn:El; injection H as <- <-.
      + apply Hw in El as [Hv Hn]. split; [by apply kind_ok_hardlink|]. auto.
      + split; [unfold kind_ok; split_and!; auto|]. split; [done|].
        intros id' first' Hl. apply lookup_insert_Some in Hl as [[_ <-]|[_ ?]]; [by right|by left].
    - injection H as <- <-. split; [unfold kind_ok; split_and!; auto|]. split; [done|]. auto. }
  destruct (IsDir _).
  { injection H as <- <-. split; [unfold kind_ok; split_and!; auto|]. split; [done|]. auto. }
  destruct (has _ _); [|done]. destruct (fs_Readlink f p) as [t|]; [|done].
  destruct (_ || _) eqn:Et; [done|]. injection H as <- <-.
  apply orb_false_iff in Et as [Et1 Et2].
  split; [unfold kind_ok; cbn [set_kind Kind Mode LinkTarget]; rewrite Et1; split_and!; auto|]. split; [done|]. auto.
Qed.

Lemma add_ok w p name info : walker_ok w -> walker_ok (add f w p name info).
Proof.
  intros Hw. unfold add. destruct (ValidEntryName name) eqn:Hn; cbn [negb]; [|done].
  destruct (add_kind f w p name info _) as [[attrs linked]|s] eqn:Ek; [|done].
  apply add_kind_ok in Ek as (Hk & Hh & Hl); [|done|by rewrite unixMode_mask].
  destruct (add_xattrs f p name) as [xs ws] eqn:Ex. apply add_xattrs_ok in Ex.
  destruct Hw as [Hf Hw]. split; cbn [w_files w_linked].
  - apply files_snoc; [done|]. split; [done|]. split; [done|]. exact (validate_kind_ok attrs _ xs Hk Ex).
  - intros id first Hid. apply Hl in Hid as [Hid|[-> Hk0]].
    + apply Hw in Hid as [? ?]. split; [done|]. by apply names_regular_app.
    + split; [done|]. eexists. split; [apply elem_of_app; right; by constructor|].
      cbn [in_name]. split; [done|]. unfold regular. cbn [in_attrs Kind]. by rewrite Hk0.
Qed.

Lemma on_visit_ok w v : walker_ok w -> walker_ok (on_visit f w v).
Proof.
  intros Hw. unfold on_visit. destruct (v_err v); [done|]. destruct (bytes_eqb _ _); [done|].
  destruct (v_info v) as [info|]; [|done]. destruct (_ && _); [|by apply add_ok].
  destruct (fs_Stat f _); [by apply add_ok|done].
Qed.

Lemma fold_ok {A} (step : walker -> A -> walker) l : (forall w x, walker_ok w -> walker_ok (step w x)) ->
  forall w, walker_ok w -> walker_ok (fold_left step l w).
Proof. intros Hs. induction l as [|x l IH]; intros w Hw; [done|]. apply IH, Hs, Hw. Qed.

Lemma expand_arg_ok walk w p : walker_ok w -> walker_ok (expand_arg f walk w p).
Proof.
  intros Hw. unfold expand_arg. destruct (fs_Stat f p) as [info|]; [|done].
  destruct (negb _); [by apply add_ok|]. destruct (walk p) as [vs failed].
  pose proof (fold_ok (on_visit f) vs on_visit_ok w Hw). by destruct failed.
Qed.
End Walk.

Lemma files_ok_links files : files_ok files -> forall h, h ∈ files ->
  Kind (in_attrs h) = KindHardlink -> names_regular files (LinkTarget (in_attrs h)).
Proof.
  induction 1 as [|files f _ IH [_ [Hh _]]]; intros h Hin Hk; [by apply elem_of_nil in Hin|].
  apply names_regular_app. apply elem_of_app in Hin as [Hin|Hin]; [by apply IH|].
  apply list_elem_of_singleton in Hin as ->. auto.
Qed.

Lemma splitSpecial_links files h : files_ok files -> h ∈ snd (splitSpecial files) ->
  Kind (in_attrs h) = KindHardlink ->
  exists t, t ∈ fst (splitSpecial files) /\ in_name t = LinkTarget (in_attrs h).
Proof.
  intros H Hin Hk. unfold splitSpecial in *. cbn [fst snd] in *.
  apply list_elem_of_filter in Hin as [_ Hin].
  destruct (files_ok_links files H h Hin Hk) as (t & Ht & Hn & Hr).
  exists t. split; [|done]. by apply list_elem_of_filter.
Qed.

Lemma expandInputs_files (f : fs) (walk : bytes -> list visit * bool) (paths : list bytes) (owner : bool) :
  (forall p xs, fs_Xattrs f p = Ok xs -> existsb bad_xattr_name xs = false) -> files_ok (fst (expandInputs f walk paths owner)).
Proof.
  intros Hx. unfold expandInputs. cbn [fst]. apply (fold_ok (expand_arg f walk)).
  - intros w p. by apply expand_arg_ok.
  - split; [constructor|]. intros id first H. cbn [w_linked] in H. by rewrite lookup_empty in H.
Qed.

(** Whatever the file system and the arguments, every entry [expandInputs] lists has a
    valid stored name, encodes within the attribute limits (unless it is a hard link
    whose target name is longer than [MaxLinkTargetLen]), and a hard link names a regular
    file listed before it. Writing the regular files first and the special entries after
    them (the order of [splitSpecial]) keeps every hard link after its target. *)
Theorem expand_inputs_ok (f : fs) (walk : bytes -> list visit * bool) (paths : list bytes) (owner : bool)
  (Hx : forall p xs, fs_Xattrs f p = Ok xs -> existsb bad_xattr_name xs = false) :
  let files := fst (expandInputs f walk paths owner) in
  files_ok files /\
  forall h, h ∈ snd (splitSpecial files) -> Kind (in_attrs h) = KindHardlink ->
  exists t, t ∈ fst (splitSpecial files) /\ in_name t = LinkTarget (in_attrs h).
Proof.
  cbv zeta. pose proof (expandInputs_files f walk paths owner Hx) as Hok.
  split; [done|]. intros h. by apply splitSpecial_links.
Qed.

(** A file system with one file reachable by two names. *)
Definition sample_fs : fs :=
  mk_fs (fun p => Ok (mk_info p 420 5 3 (Some (1, 7)) None))
        (fun _ => errorf ErrOther "not a link") (fun _ => Ok [mk_xattr (str "user.k") (str "v")]).

Lemma expand_inputs_ok_witness :
  map (fun i => (in_name i, Kind (in_attrs i), LinkTarget (in_attrs i)))
    (fst (expandInputs sample_fs (fun _ => ([], false)) [str "a"; str "b"] true)) =
  [(str "a", KindRegular, []); (str "b", KindHardlink, str "a")] /\
  files_ok (fst (expandInputs sample_fs (fun _ => ([], false)) [str "a"; str "b"] true)).
Proof.
  split; [vm_compute; reflexivity|]. apply (expand_inputs_ok sample_fs).
  intros p xs H. injection H as <-. reflexivity.
Defined.
