(* ===== verification/SolidPlan.v ===== *)
(** * Planning and packing solid groups (io/solid.go)

    [planSolid] splits the inputs into individually stored files and groups of small
    files; [appendSolidMember] reads one file into a group's record stream. The file
    system is the argument of Inputs.v; opening and reading a file are further arguments.
    [strings.ToLower] on the extension is the argument [toLower]: the grouping theorems
    hold for any ordering key. *)

From S2P Require Import Prelude Bytes Names Attributes Solid IOErrors Inputs.

Record solidPlan := mk_plan { individual : list inputFile; groups : list (list inputFile) }.

Definition attributesSize (attrs : Attributes) : Z :=
  match AppendAttributes [] attrs with Ok b => len b | Err _ => 0 end.

Definition solidCandidate (f : fs) (i : inputFile) : option Z :=
  match fs_Stat f (in_path i) with
  | Err _ => None
  | Ok info =>
      if negb (regular i) || negb (IsRegular (fi_Mode info)) || (SolidMemberMaxSize <? fi_Size info)
      then None
      else Some (SolidRecordSize (len (in_name i)) (attributesSize (in_attrs i)) (fi_Size info))
  end.

(** [path.Ext]: the suffix from the last dot of the last element, or nothing. *)
Fixpoint ext_go (acc s : bytes) : bytes :=
  match s with
  | [] => acc
  | b :: r => if bool_decide (b = slash) then ext_go [] r
              else if bool_decide (b = Byte.x2e) then ext_go s r
              else ext_go acc r
  end.
Definition Ext (p : bytes) : bytes := ext_go [] p.

(** Go's string order: lexicographic on bytes. *)
Fixpoint bytes_ltb (a b : bytes) : bool :=
  match a, b with
  | _, [] => false
  | [], _ :: _ => true
  | x :: a, y :: b => (bz x <? bz y) || ((bz x =? bz y) && bytes_ltb a b)
  end.

(** [sort.SliceStable] by a strict key order: an element goes after those with an equal
    or smaller key. *)
Fixpoint stable_insert {A} (lt : A -> A -> bool) (x : A) (l : list A) : list A :=
  match l with
  | [] => [x]
  | y :: l' => if lt x y then x :: l else y :: stable_insert lt x l'
  end.
Definition stable_sort {A} (lt : A -> A -> bool) (l : list A) : list A :=
  fold_left (fun acc x => stable_insert lt x acc) l [].

Record candidate := mk_cand { c_in : inputFile; c_ext : bytes; c_record : Z }.

(** The first loop: candidates, and the inputs that stay individual. *)
Fixpoint split_candidates (f : fs) (toLower : bytes -> bytes) (files : list inputFile) :
  list inputFile * list candidate :=
  match files with
  | [] => ([], [])
  | i :: files =>
      let '(ind, cands) := split_candidates f toLower files in
      match solidCandidate f i with
      | None => (i :: ind, cands)
      | Some record => (ind, mk_cand i (toLower (Ext (in_name i))) record :: cands)
      end
  end.

Record group_state := mk_gs { gs_plan : solidPlan; gs_group : list inputFile; gs_size : Z }.

Definition flush (s : group_state) : group_state :=
  let p := gs_plan s in
  let p := match gs_group s with
           | [] => p
           | [g] => mk_plan (individual p ++ [g]) (groups p)
           | g => mk_plan (individual p) (groups p ++ [g])
           end in
  mk_gs p [] 0.

Definition group_step (s : group_state) (c : candidate) : group_state :=
  let s := if MaxSolidStreamSize <? gs_size s + c_record c then flush s else s in
  mk_gs (gs_plan s) (gs_group s ++ [c_in c]) (gs_size s + c_record c).

Definition planSolid (f : fs) (toLower : bytes -> bytes) (files : list inputFile) : solidPlan :=
  let '(ind, cands) := split_candidates f toLower files in
  let cands := stable_sort (fun a b => bytes_ltb (c_ext a) (c_ext b)) cands in
  gs_plan (flush (fold_left group_step cands (mk_gs (mk_plan ind []) [] 0))).

(** ** Packing *)

(** What opening a file gives: the results of [Stat] and of reading at most one byte more
    than [SolidMemberMaxSize]. *)
Record openFile := mk_open { of_stat : result fileInfo; of_read : result bytes }.

Record solidMemberResult := mk_smr {
  smr_path : bytes; smr_name : bytes; smr_size : Z; smr_err : option ArchiveError;
  smr_attrs : Attributes; smr_codec : Z; smr_stored : Z
}.

Definition smr_fail (i : inputFile) (msg : string) : solidMemberResult :=
  mk_smr (in_path i) (in_name i) 0 (Some (read_failed msg)) (in_attrs i) 0 0.

Definition appendSolidMember (open : bytes -> result openFile) (stream : bytes) (i : inputFile) :
  bytes * solidMemberResult :=
  match open (in_path i) with
  | Err _ => (stream, smr_fail i "open file")
  | Ok fl =>
    match of_stat fl with
    | Err _ => (stream, smr_fail i "stat file")
    | Ok _ =>
      match of_read fl with
      | Err _ => (stream, smr_fail i "read file")
      | Ok data =>
        if (SolidMemberMaxSize <? len data) ||
           (MaxSolidStreamSize <? len stream + SolidRecordSize (len (in_name i)) (attributesSize (in_attrs i)) (len data))
        then (stream, smr_fail i "file changed size during archive")
        else
          match AppendSolidRecord stream (mk_member (in_name i) (in_attrs i) data) with
          | (_, Some _) => (stream, smr_fail i "unsupported file name")
          | (out, None) => (out, mk_smr (in_path i) (in_name i) (len data) None (in_attrs i) 0 0)
          end
      end
    end
  end.

(** The packing loop of [buildSolidEntry]: the stream and one result per member. *)
Fixpoint packSolid (open : bytes -> result openFile) (stream : bytes) (members : list inputFile) :
  bytes * list solidMemberResult :=
  match members with
  | [] => (stream, [])
  | i :: members =>
      let '(stream, res) := appendSolidMember open stream i in
      let '(stream, results) := packSolid open stream members in
      (stream, res :: results)
  end.

(** The shares of the group's stored size that the results report. *)
Definition share_stored (codec stored : Z) (stream : bytes) (r : solidMemberResult) : solidMemberResult :=
  mk_smr (smr_path r) (smr_name r) (smr_size r) (smr_err r) (smr_attrs r) codec
         (i64 (Z.quot (i64 (smr_size r * stored)) (len stream))).

(** ** The plan keeps every input exactly once *)

Lemma stable_insert_perm {A} lt (x : A) l : stable_insert lt x l ≡ₚ x :: l.
Proof.
  induction l as [|y l IH]; cbn; [done|]. destruct (lt x y); [done|].
  rewrite IH. apply Permutation_swap.
Qed.

Lemma stable_sort_perm {A} lt (l : list A) : stable_sort lt l ≡ₚ l.
Proof.
  unfold stable_sort. assert (forall acc, fold_left (fun acc x => stable_insert lt x acc) l acc ≡ₚ l ++ acc) as H.
  { induction l as [|x l IH]; intros acc; cbn; [done|]. rewrite IH, stable_insert_perm.
    by rewrite Permutation_middle. }
  rewrite H. by rewrite app_nil_r.
Qed.

Lemma split_candidates_perm f toLower files ind cands :
  split_candidates f toLower files = (ind, cands) -> ind ++ map c_in cands ≡ₚ files.
Proof.
  revert ind cands. induction files as [|i files IH]; intros ind cands H; cbn in H.
  - by injection H as <- <-.
  - destruct (split_candidates f toLower files) as [ind' cands'].
    specialize (IH _ _ eq_refl). destruct (solidCandidate f i) as [r|]; injection H as <- <-; cbn [map c_in].
    + rewrite <- IH. by rewrite <- Permutation_middle.
    + cbn. by rewrite IH.
Qed.

(** Everything the loop has seen, in any order. *)
Definition seen (s : group_state) : list inputFile :=
  individual (gs_plan s) ++ concat (groups (gs_plan s)) ++ gs_group s.

Lemma flush_seen s : seen (flush s) ≡ₚ seen s.
Proof.
  destruct s as [[ind gs] group n]. unfold seen, flush; cbn [gs_plan gs_group individual groups].
  destruct group as [|g [|g' group]]; cbn [individual groups]; rewrite ?app_nil_r; [done| |].
  - rewrite <- app_assoc. apply Permutation_app_head, Permutation_app_comm.
  - rewrite concat_app. cbn [concat]. by rewrite app_nil_r.
Qed.

Lemma group_step_seen s c : seen (group_step s c) ≡ₚ seen s ++ [c_in c].
Proof.
  assert (forall s, seen (mk_gs (gs_plan s) (gs_group s ++ [c_in c]) (gs_size s + c_record c)) ≡ₚ seen s ++ [c_in c]) as H.
  { intros s0. unfold seen; cbn [gs_plan gs_group]. by rewrite !app_assoc. }
  unfold group_step. destruct (_ <? _); rewrite H; [|done]. by rewrite flush_seen.
Qed.

Lemma group_fold_seen cands s : seen (fold_left group_step cands s) ≡ₚ seen s ++ map c_in cands.
Proof.
  revert s. induction cands as [|c cands IH]; intros s; cbn [fold_left map]; [by rewrite app_nil_r|].
  rewrite IH, group_step_seen. by rewrite <- app_assoc.
Qed.

(** ** Groups fit *)

Definition record_of (f : fs) (i : inputFile) : Z := default 0 (solidCandidate f i).
Definition group_size (f : fs) (g : list inputFile) : Z := foldr (fun i n => record_of f i + n) 0 g.

Lemma group_size_snoc f g i : group_size f (g ++ [i]) = group_size f g + record_of f i.
Proof. induction g as [|j g IH]; cbn; [lia|]. unfold group_size in IH. rewrite IH. lia. Qed.

Definition group_fits (f : fs) (g : list inputFile) : Prop :=
  2 <= len g /\ group_size f g <= MaxSolidStreamSize /\
  Forall (fun i => is_Some (solidCandidate f i)) g.

Definition cand_ok (f : fs) (c : candidate) : Prop :=
  solidCandidate f (c_in c) = Some (c_record c) /\ c_record c <= MaxSolidStreamSize.

(** The loop invariant: closed groups fit, and so does the open one. *)
Definition gs_ok (f : fs) (s : group_state) : Prop :=
  Forall (group_fits f) (groups (gs_plan s)) /\
  gs_size s = group_size f (gs_group s) /\ gs_size s <= MaxSolidStreamSize /\
  Forall (fun i => is_Some (solidCandidate f i)) (gs_group s).

Lemma flush_ok f s : gs_ok f s -> gs_ok f (flush s).
Proof.
  destruct s as [[ind gs] group n]. intros (Hg & Hn & Hm & Hc). cbn [gs_plan gs_group gs_size groups] in *.
  split; [|done]. unfold flush; cbn [gs_plan gs_group].
  destruct group as [|g [|g' group]]; cbn [groups]; try done.
  apply Forall_app. split; [done|]. apply Forall_singleton. split; [len_lia|]. by rewrite <- Hn.
Qed.

Lemma group_step_ok f s c : cand_ok f c -> gs_ok f s -> gs_ok f (group_step s c).
Proof.
  intros [Hc Hr] Hs. unfold group_step.
  assert (gs_ok f (if MaxSolidStreamSize <? gs_size s + c_record c then flush s else s) /\
    gs_size (if MaxSolidStreamSize <? gs_size s + c_record c then flush s else s) + c_record c
      <= MaxSolidStreamSize) as [(Hg & Hn & Hm & Hf) Hle].
  { destruct (Z.ltb_spec MaxSolidStreamSize (gs_size s + c_record c)); [|done].
    split; [by apply flush_ok|]. cbn. lia. }
  split; [done|]. split; [|split; [done|]]; cbn [gs_group gs_size].
  - rewrite group_size_snoc, <- Hn. unfold record_of. by rewrite Hc.
  - apply Forall_app. split; [done|]. apply Forall_singleton. by rewrite Hc.
Qed.

Lemma group_fold_ok f cands : Forall (cand_ok f) cands -> forall s, gs_ok f s -> gs_ok f (fold_left group_step cands s).
Proof. induction 1 as [|c cands Hc _ IH]; intros s Hs; [done|]. by apply IH, group_step_ok. Qed.

Lemma solidCandidate_bound f i r : solidCandidate f i = Some r -> len (in_name i) <= MaxEntryNameLen ->
  r <= MaxSolidStreamSize.
Proof.
  unfold solidCandidate. destruct (fs_Stat f (in_path i)) as [info|]; [|done].
  destruct (_ || _) eqn:E; [done|]. intros [= <-] Hn. apply orb_false_iff in E as [_ E]. b2p.
  assert (attributesSize (in_attrs i) <= MaxAttributesSize).
  { unfold attributesSize. destruct (AppendAttributes [] _) as [b|] eqn:Ea; [|done].
    apply AppendAttributes_Ok in Ea as [Hv ->]. rewrite app_nil_l. by apply attributes_len_bound. }
  unfold SolidRecordSize, solidRecordHeaderSize, MaxSolidStreamSize, MaxAttributesSize, MaxEntryNameLen,
    MaxXattrsSize, MaxLinkTargetLen, SolidMemberMaxSize in *. lia.
Qed.

Lemma split_candidates_ok f toLower files ind cands :
  Forall (fun i => len (in_name i) <= MaxEntryNameLen) files ->
  split_candidates f toLower files = (ind, cands) -> Forall (cand_ok f) cands.
Proof.
  intros H. revert ind cands. induction H as [|i files Hi _ IH]; intros ind cands H; cbn in H.
  - by injection H as <- <-.
  - destruct (split_candidates f toLower files) as [ind' cands']. specialize (IH _ _ eq_refl).
    destruct (solidCandidate f i) as [r|] eqn:E; injection H as <- <-; [|done].
    constructor; [|done]. split; [done|]. by eapply solidCandidate_bound.
Qed.

Lemma planSolid_perm f toLower files :
  individual (planSolid f toLower files) ++ concat (groups (planSolid f toLower files)) ≡ₚ files.
Proof.
  unfold planSolid. destruct (split_candidates f toLower files) as [ind cands] eqn:E.
  rewrite <- (split_candidates_perm _ _ _ _ _ E). set (sorted := stable_sort _ cands).
  assert (Hs : sorted ≡ₚ cands) by apply stable_sort_perm.
  transitivity (seen (flush (fold_left group_step sorted (mk_gs (mk_plan ind []) [] 0)))).
  { unfold seen. cbn [flush gs_group]. by rewrite app_nil_r. }
  rewrite flush_seen, group_fold_seen. unfold seen; cbn [gs_plan gs_group individual groups concat].
  rewrite !app_nil_r. by rewrite Hs.
Qed.

(** Solid planning neither loses nor duplicates an input, and every group it makes has
    at least two members, all of them candidates, whose estimated records together fit
    [MaxSolidStreamSize]. *)
Theorem plan_solid_partition (f : fs) (toLower : bytes -> bytes) (files : list inputFile)
  (Hn : Forall (fun i => len (in_name i) <= MaxEntryNameLen) files) :
  let p := planSolid f toLower files in
  individual p ++ concat (groups p) ≡ₚ files /\ Forall (group_fits f) (groups p).
Proof.
  cbv zeta. split; [apply planSolid_perm|]. unfold planSolid.
  destruct (split_candidates f toLower files) as [ind cands] eqn:E.
  pose proof (split_candidates_ok _ _ _ _ _ Hn E) as Hc.
  apply flush_ok, group_fold_ok; [by rewrite stable_sort_perm|]. split_and!; try done; apply Forall_nil_2.
Qed.

Definition sample_inputs : list inputFile :=
  map (fun n => mk_input n n zero_attributes) [str "b.txt"; str "a.go"; str "c.txt"].

Lemma plan_solid_partition_witness :
  planSolid sample_fs id sample_inputs =
    mk_plan [] [map (fun n => mk_input n n zero_attributes) [str "a.go"; str "b.txt"; str "c.txt"]] /\
  individual (planSolid sample_fs id sample_inputs) ++ concat (groups (planSolid sample_fs id sample_inputs))
    ≡ₚ sample_inputs.
Proof.
  split; [vm_compute; reflexivity|]. refine (proj1 (plan_solid_partition sample_fs id sample_inputs _)).
  repeat (constructor; [vm_compute; discriminate|]). constructor.
Defined.

(** ** Packing a group gives a stream that parses to the packed members *)

(** The members a packing run stored: those whose result has no error, with the data read. *)
Fixpoint packed (open : bytes -> result openFile) (stream : bytes) (members : list inputFile) : list SolidMember :=
  match members with
  | [] => []
  | i :: members =>
      let '(stream', res) := appendSolidMember open stream i in
      match smr_err res, open (in_path i) with
      | None, Ok fl => match of_read fl with
                       | Ok data => mk_member (in_name i) (in_attrs i) data :: packed open stream' members
                       | Err _ => packed open stream' members
                       end
      | _, _ => packed open stream' members
      end
  end.

Lemma appendSolidMember_inv open stream i stream' res :
  Attributes_typed (in_attrs i) -> len stream <= MaxSolidStreamSize ->
  appendSolidMember open stream i = (stream', res) ->
  len stream' <= MaxSolidStreamSize /\
  ((smr_err res <> None /\ stream' = stream) \/
   (smr_err res = None /\ exists fl data, open (in_path i) = Ok fl /\ of_read fl = Ok data /\
      stream' = stream ++ encode_member (mk_member (in_name i) (in_attrs i) data) /\
      member_ok (mk_member (in_name i) (in_attrs i) data) /\ smr_size res = len data)).
Proof.
  intros Ht Hs. unfold appendSolidMember.
  destruct (open (in_path i)) as [fl|]; [|intros [= <- <-]; split; [done|by left]].
  destruct (of_stat fl) as [info|]; [|intros [= <- <-]; split; [done|by left]].
  destruct (of_read fl) as [data|] eqn:Er; [|intros [= <- <-]; split; [done|by left]].
  destruct (_ || _) eqn:Eg; [intros [= <- <-]; split; [done|by left]|]. b2p.
  destruct (AppendSolidRecord _ _) as [out [e|]] eqn:Ea; intros [= <- <-]; [split; [done|by left]|].
  apply AppendSolidRecord_Ok in Ea as (-> & Hn & Hk & Hv). cbn [sm_Name sm_Attributes] in *.
  assert (attributesSize (in_attrs i) = len (encode_attributes (in_attrs i))) as Hsz.
  { unfold attributesSize.
    by rewrite (proj2 (AppendAttributes_Ok [] (in_attrs i) (encode_attributes (in_attrs i)))). }
  split; [rewrite len_app, encode_member_len; cbn [sm_Name sm_Attributes sm_Data]; rewrite <- Hsz; lia|].
  right. split; [done|]. exists fl, data. split_and!; try done.
  constructor; cbn [sm_Name sm_Attributes sm_Data]; try done. unfold SolidMemberMaxSize in *. lia.
Qed.

Lemma packSolid_stream open members : Forall (fun i => Attributes_typed (in_attrs i)) members ->
  forall stream, len stream <= MaxSolidStreamSize ->
  fst (packSolid open stream members) = stream ++ encode_members (packed open stream members) /\
  len (fst (packSolid open stream members)) <= MaxSolidStreamSize /\
  Forall member_ok (packed open stream members).
Proof.
  induction 1 as [|i members Hi _ IH]; intros stream Hs; cbn [packSolid packed].
  - unfold encode_members; cbn. rewrite app_nil_r. auto.
  - destruct (appendSolidMember open stream i) as [stream' res] eqn:E.
    apply appendSolidMember_inv in E as (Hl & [[Hr ->]|(Hr & fl & data & Ho & Hd & -> & Hm & _)]); [| |done|done].
    + specialize (IH stream Hs). destruct (packSolid open stream members).
      destruct (smr_err res); [done|]. by contradict Hr.
    + specialize (IH _ Hl). rewrite Hr, Ho, Hd. destruct (packSolid open _ members). cbn [fst] in *.
      destruct IH as (-> & ? & ?). unfold encode_members. cbn [map concat]. rewrite <- app_assoc.
      split; [done|]. split; [by rewrite <- app_assoc in *|]. by constructor.
Qed.

(** Packing a solid group never overflows the stream limit, skips unreadable or grown
    members without disturbing the others, and the stream parses back to exactly the
    members that were packed, with the data that was read. *)
Theorem pack_solid_parses (open : bytes -> result openFile) (members : list inputFile)
  (Ht : Forall (fun i => Attributes_typed (in_attrs i)) members)
  (Hne : packed open [] members <> []) :
  len (fst (packSolid open [] members)) <= MaxSolidStreamSize /\
  ParseSolidStream (fst (packSolid open [] members)) = Ok (packed open [] members).
Proof.
  destruct (packSolid_stream open members Ht []) as (He & Hl & Hm); [done|].
  split; [done|]. rewrite He, app_nil_l. unfold ParseSolidStream.
  rewrite solid_records_app by done. destruct (packed open [] members); [done|]. rewrite len_cons. by eqb_false.
Qed.

Definition sample_open (p : bytes) : result openFile :=
  if bytes_eqb p (str "a.go") then errorf ErrOther "denied"
  else Ok (mk_open (Ok (mk_info p 420 5 3 None None)) (Ok (str "data of " ++ p))).

Lemma pack_solid_parses_witness :
  ParseSolidStream (fst (packSolid sample_open [] sample_inputs)) =
  Ok [mk_member (str "b.txt") zero_attributes (str "data of b.txt");
      mk_member (str "c.txt") zero_attributes (str "data of c.txt")].
Proof.
  refine (proj2 (pack_solid_parses sample_open sample_inputs _ _)).
  - repeat (constructor; [apply zero_attributes_typed|]). constructor.
  - vm_compute. discriminate.
Defined.
