(* ===== verification/Crypto.v ===== *)
(** * Primitives and the encryption manager (crypto/)

    AES-256-GCM, HMAC-SHA256, HKDF, PBKDF2 and ChaCha20 are external code: the class
    [Crypto] names the calls the sources make and [CryptoLaws] what they rely on (opening
    a sealed block gives the plaintext, and fixed output lengths). Everything the crypto
    package builds on them is defined here: nonces, block encryption, variable chunk
    sizes, padding lengths, subkey labels.

    Randomness is a stream of bytes read from a position, as a [BufferedRand] reads its
    keystream: it never fails and never repeats a position. *)

From S2P Require Import Prelude Bytes IndexCodec.

Definition KeySize : Z := 32.
Definition SaltSize : Z := 32.
Definition NonceSize : Z := 12.
Definition GCMTagSize : Z := 16.
Definition BaseBlockSize : Z := 262144.
Definition PBKDF2Iter : Z := 100000.
Definition HeaderPadMin : Z := 1024.
Definition HeaderPadMax : Z := 4096.
Definition TrailerPadMin : Z := 512.
Definition TrailerPadMax : Z := 2048.

Class Crypto := {
  gcm_seal : bytes -> bytes -> bytes -> bytes -> bytes;         (* key nonce plaintext aad *)
  gcm_open : bytes -> bytes -> bytes -> bytes -> option bytes;  (* key nonce ciphertext aad *)
  hmac_sha256 : bytes -> bytes -> bytes;                        (* key data *)
  hkdf_expand : bytes -> bytes -> Z -> bytes;                   (* key info length *)
  hkdf_key : bytes -> bytes -> bytes -> Z -> bytes;             (* secret salt info length *)
  pbkdf2_sha256 : bytes -> bytes -> Z -> Z -> bytes             (* password salt iterations length *)
}.

Class CryptoLaws (C : Crypto) : Prop := {
  gcm_open_seal : forall k n p aad, gcm_open k n (gcm_seal k n p aad) aad = Some p;
  len_gcm_seal : forall k n p aad, len (gcm_seal k n p aad) = len p + GCMTagSize;
  len_hmac : forall k d, len (hmac_sha256 k d) = HMACSize
}.

(** ** Randomness *)

Record rng := mk_rng { rng_at : Z -> byte; rng_pos : Z }.

Definition draw (n : Z) (r : rng) : bytes * rng :=
  (map (fun i => rng_at r (rng_pos r + i)) (seqZ 0 n), mk_rng (rng_at r) (rng_pos r + n)).

Lemma draw_len n r x r' : 0 <= n -> draw n r = (x, r') -> len x = n.
Proof. intros Hn [= <- <-]. rewrite len_map. unfold len. rewrite length_seqZ. lia. Qed.

(** [int(b[0])<<8 | int(b[1])] of two random bytes. *)
Definition draw_u16 (r : rng) : Z * rng :=
  let '(b, r) := draw 2 r in
  (match b with [x; y] => Z.lor (Z.shiftl (bz x) 8) (bz y) | _ => 0 end, r).

Lemma lor_range k a b : 0 <= k -> 0 <= a < 2 ^ k -> 0 <= b < 2 ^ k -> 0 <= Z.lor a b < 2 ^ k.
Proof.
  intros Hk Ha Hb. split; [apply Z.lor_nonneg; lia|].
  destruct (Z.eq_dec (Z.lor a b) 0) as [->|Hz]; [lia|].
  assert (0 < Z.lor a b) by (pose proof (proj2 (Z.lor_nonneg a b)); lia).
  apply Z.log2_lt_pow2; [done|]. rewrite Z.log2_lor by lia.
  destruct (Z.eq_dec a 0) as [->|], (Z.eq_dec b 0) as [->|]; [done|..];
    repeat match goal with |- context [Z.log2 ?x] => lazymatch x with 0 => change (Z.log2 0) with 0 | _ =>
      let H := fresh in assert (H : Z.log2 x < k) by (apply Z.log2_lt_pow2; lia); generalize dependent (Z.log2 x); intros end end;
    apply Z.max_lub_lt; try done; destruct (Z.eq_dec k 0); subst; try lia.
Qed.

Lemma draw_u16_range r v r' : draw_u16 r = (v, r') -> 0 <= v < 2 ^ 16.
Proof.
  unfold draw_u16. change (draw 2 r) with
    ([rng_at r (rng_pos r + 0); rng_at r (rng_pos r + 1)], mk_rng (rng_at r) (rng_pos r + 2)).
  cbv iota beta zeta. intros [= <- <-].
  pose proof (bz_range (rng_at r (rng_pos r + 0))). pose proof (bz_range (rng_at r (rng_pos r + 1))).
  apply lor_range; [lia|rewrite Z.shiftl_mul_pow2 by lia; lia|lia].
Qed.

(** ** Padding (crypto/padding.go) and chunk size variance (crypto/encryption.go) *)

Definition secureRandomRange (min max : Z) (r : rng) : bytes * rng :=
  let '(v, r) := draw_u16 r in
  draw (min + v mod (max - min + 1)) r.

Definition padding_Header (r : rng) : bytes * rng := secureRandomRange HeaderPadMin HeaderPadMax r.
Definition padding_Trailer (r : rng) : bytes * rng := secureRandomRange TrailerPadMin TrailerPadMax r.

Lemma secureRandomRange_len min max r x r' : 0 <= min <= max ->
  secureRandomRange min max r = (x, r') -> min <= len x <= max.
Proof.
  unfold secureRandomRange. intros Hm. destruct (draw_u16 r) as [v r1] eqn:Ev.
  pose proof (Z.mod_pos_bound v (max - min + 1) ltac:(lia)). intros H'.
  apply draw_len in H'; lia.
Qed.

(** [RandomVarianceGenerator.Next]. *)
Definition variance_Next (maxDelta : Z) (r : rng) : Z * rng :=
  if maxDelta =? 0 then (0, r)
  else
    let '(v, r) := draw_u16 r in
    (v mod (2 * maxDelta + 1) - maxDelta, r).

Lemma variance_Next_range maxDelta r v r' : 0 <= maxDelta ->
  variance_Next maxDelta r = (v, r') -> - maxDelta <= v <= maxDelta.
Proof.
  unfold variance_Next. intros Hm. destruct (Z.eqb_spec maxDelta 0) as [->|]; [intros [= <- <-]; lia|].
  destruct (draw_u16 r) as [u r1] eqn:Eu. apply draw_u16_range in Eu.
  pose proof (Z.mod_pos_bound u (2 * maxDelta + 1) ltac:(lia)). intros [= <- <-]. lia.
Qed.

(** The size of the next chunk: [BaseBlockSize] plus the variance, at least one byte. *)
Definition next_size (maxDelta : Z) (r : rng) : Z * rng :=
  let '(v, r) := variance_Next maxDelta r in
  let size := BaseBlockSize + v in
  (if size <? 1 then 1 else size, r).

Lemma next_size_range maxDelta r n r' : 0 <= maxDelta < BaseBlockSize ->
  next_size maxDelta r = (n, r') -> BaseBlockSize - maxDelta <= n <= BaseBlockSize + maxDelta.
Proof.
  unfold next_size. intros Hm. destruct (variance_Next maxDelta r) as [v r1] eqn:E.
  apply variance_Next_range in E; [|lia]. intros [= <- <-]. unfold BaseBlockSize in *.
  destruct (Z.ltb_spec (262144 + v) 1); lia.
Qed.

(** ** Block encryption (crypto/encryption.go) *)

Record EncryptedBlock := mk_block { eb_Nonce : bytes; eb_Ciphertext : bytes }.

Section Manager.
Context `{C : Crypto}.

Definition EncryptBlock (key plaintext : bytes) (r : rng) : EncryptedBlock * rng :=
  let '(nonce, r) := draw NonceSize r in
  (mk_block nonce (gcm_seal key nonce plaintext []), r).

Definition EncryptBlockWithNonceInto (key nonce plaintext : bytes) : EncryptedBlock :=
  mk_block nonce (gcm_seal key nonce plaintext []).

Definition DecryptBlock (key : bytes) (b : EncryptedBlock) : result bytes :=
  match gcm_open key (eb_Nonce b) (eb_Ciphertext b) [] with
  | Some pt => Ok pt
  | None => errorf ErrOther "authentication failed"
  end.

(** [EncryptStream]: [io.ReadFull] returns fewer bytes than asked only at the end of the
    data, which ends the loop; [fuel] bounds the number of chunks. *)
Fixpoint encrypt_loop (fuel : nat) (maxDelta : Z) (key data : bytes) (r : rng) : list EncryptedBlock * rng :=
  match fuel with
  | O => ([], r)
  | S fuel =>
      let '(size, r) := next_size maxDelta r in
      let chunk := ztake size data in
      let '(blocks, r) :=
        if 0 <? len chunk then let '(b, r) := EncryptBlock key chunk r in ([b], r) else ([], r) in
      if len chunk <? size then (blocks, r)
      else let '(rest, r) := encrypt_loop fuel maxDelta key (zdrop size data) r in (blocks ++ rest, r)
  end.

Definition EncryptStream (maxDelta : Z) (key data : bytes) (r : rng) : list EncryptedBlock * rng :=
  encrypt_loop (S (length data)) maxDelta key data r.

(** Opening a sequence of blocks in order, stopping at the first failure. *)
Fixpoint open_blocks (key : bytes) (bs : list EncryptedBlock) : result bytes :=
  match bs with
  | [] => Ok []
  | b :: bs => match DecryptBlock key b with
               | Err e => Err e
               | Ok pt => match open_blocks key bs with Ok rest => Ok (pt ++ rest) | Err e => Err e end
               end
  end.

Definition ComputeHMAC (key data : bytes) : bytes := hmac_sha256 key data.

Definition VerifyHMAC (key data expected : bytes) : result unit :=
  if bytes_eqb (ComputeHMAC key data) expected then Ok tt else errorf ErrOther "tag mismatch".

(** ** Subkeys (crypto/subkey.go) *)

Definition expandSubkey (masterKey info : bytes) : bytes := hkdf_expand masterKey info KeySize.
Definition DeriveFileSubkey (masterKey salt : bytes) : bytes :=
  expandSubkey masterKey (str "sarc file key" ++ salt).
Definition DeriveHeaderSubkey (masterKey : bytes) : bytes := expandSubkey masterKey (str "sarc header key").
Definition DeriveChunkIDKey (masterKey : bytes) : bytes := expandSubkey masterKey (str "sarc chunk id key").

Definition GearTableSize : Z := 256.
Definition DeriveGearTable (masterKey : bytes) : list Z :=
  let raw := hkdf_expand masterKey (str "sarc chunker gear table") (GearTableSize * 8) in
  map (fun i => le_u64 (zdrop (i * 8) raw)) (seqZ 0 GearTableSize).

(** [KeyDeriver.DeriveKey] (crypto/keyderiver.go). *)
Definition DeriveKey (password salt : bytes) : bytes := pbkdf2_sha256 password salt PBKDF2Iter KeySize.

Context `{L : !CryptoLaws C}.

Lemma DecryptBlock_EncryptBlock key p r b r' : EncryptBlock key p r = (b, r') ->
  DecryptBlock key b = Ok p /\ len (eb_Nonce b) = NonceSize /\ len (eb_Ciphertext b) = len p + GCMTagSize.
Proof.
  unfold EncryptBlock. destruct (draw NonceSize r) as [nonce r1] eqn:E. intros [= <- <-].
  apply draw_len in E; [|done]. unfold DecryptBlock; cbn [eb_Nonce eb_Ciphertext].
  rewrite gcm_open_seal, len_gcm_seal. done.
Qed.

(** Every block holds between one byte and the largest chunk. *)
Definition block_sized (maxDelta : Z) (b : EncryptedBlock) : Prop :=
  len (eb_Nonce b) = NonceSize /\
  1 + GCMTagSize <= len (eb_Ciphertext b) <= BaseBlockSize + maxDelta + GCMTagSize.

Lemma encrypt_loop_spec maxDelta key : 0 <= maxDelta < BaseBlockSize -> forall fuel data r bs r',
  (length data < fuel)%nat -> encrypt_loop fuel maxDelta key data r = (bs, r') ->
  open_blocks key bs = Ok data /\ Forall (block_sized maxDelta) bs.
Proof.
  intros Hm. induction fuel as [|fuel IH]; intros data r bs r' Hf H; [lia|]. cbn [encrypt_loop] in H.
  destruct (next_size maxDelta r) as [size r1] eqn:Es. apply next_size_range in Es; [|done].
  assert (1 <= size) by (unfold BaseBlockSize in *; lia).
  pose proof (len_ztake_max size data ltac:(lia)) as Hmax.
  destruct (Z.ltb_spec 0 (len (ztake size data))) as [Hp|Hp].
  - destruct (EncryptBlock key _ r1) as [b r2] eqn:Eb. apply DecryptBlock_EncryptBlock in Eb as (Hd & Hn & Hc).
    assert (block_sized maxDelta b) as Hb by (split; [done|lia]).
    destruct (Z.ltb_spec (len (ztake size data)) size) as [Hlt|Hge].
    + injection H as <- <-. cbn [open_blocks]. rewrite Hd, app_nil_r. split; [|by constructor].
      f_equal. destruct (Z.le_gt_cases size (len data)); [rewrite len_ztake in Hlt; lia|].
      unfold ztake, len in *. apply take_ge. lia.
    + destruct (encrypt_loop fuel maxDelta key (zdrop size data) r2) as [rest r3] eqn:Er.
      injection H as <- <-. assert (size <= len data) by (pose proof (len_ztake_le size data); lia).
      apply IH in Er as [Ho Hs]; [|unfold zdrop, len in *; rewrite length_drop; lia].
      cbn [app open_blocks]. rewrite Hd, Ho, ztake_zdrop. split; [done|by constructor].
  - destruct (Z.ltb_spec (len (ztake size data)) size); [|lia]. injection H as <- <-.
    split; [|constructor]. cbn. f_equal. symmetry. apply len_0_nil.
    destruct (Z.le_gt_cases size (len data)); [rewrite len_ztake in Hp; lia|].
    unfold ztake, len in *. rewrite take_ge in Hp by lia. lia.
Qed.

(** Chunked encryption loses nothing: for any data, any randomness and any size
    variance below the base block size, [EncryptStream] ends, its blocks open in order
    to exactly the data, and every block is non-empty and at most
    [BaseBlockSize + maxDelta] plus the tag. *)
Theorem encrypt_stream_roundtrip (maxDelta : Z) (key data : bytes) (r : rng)
  (Hm : 0 <= maxDelta < BaseBlockSize) :
  let bs := fst (EncryptStream maxDelta key data r) in
  open_blocks key bs = Ok data /\ Forall (block_sized maxDelta) bs.
Proof.
  cbv zeta. unfold EncryptStream. destruct (encrypt_loop _ _ _ _ _) as [bs r'] eqn:E.
  eapply encrypt_loop_spec in E; [exact E|done|lia].
Qed.
End Manager.

(** ** A concrete instance

    A transparent stand-in that satisfies the laws, used to evaluate examples: the "tag"
    is a prefix of key, nonce and associated data, and digests repeat their input. *)
Definition toy_pad (n : Z) (x : bytes) : bytes := ztake n (x ++ replicate (Z.to_nat n) (zb 90)).

Lemma toy_pad_len n x : 0 <= n -> len (toy_pad n x) = n.
Proof. intros. unfold toy_pad. rewrite len_ztake; [done|]. rewrite len_app, len_replicate. len_lia. Qed.

Definition toy_crypto : Crypto := {|
  gcm_seal k n p aad := toy_pad 16 (k ++ n ++ aad) ++ p;
  gcm_open k n c aad := if bytes_eqb (ztake 16 c) (toy_pad 16 (k ++ n ++ aad)) then Some (zdrop 16 c) else None;
  hmac_sha256 k d := toy_pad 32 (d ++ k);
  hkdf_expand k info n := toy_pad n (info ++ k);
  hkdf_key s salt info n := toy_pad n (info ++ s ++ salt);
  pbkdf2_sha256 p s i n := toy_pad n (p ++ s)
|}.

Lemma toy_laws : CryptoLaws toy_crypto.
Proof.
  split; intros; cbn [gcm_seal gcm_open hmac_sha256 toy_crypto].
  - rewrite ztake_app, zdrop_app by (by rewrite toy_pad_len). by rewrite bytes_eqb_refl.
  - rewrite len_app, toy_pad_len by done. unfold GCMTagSize. lia.
  - by apply toy_pad_len.
Defined.

Definition toy_rng : rng := mk_rng (fun i => zb (i * 7)) 0.

Lemma encrypt_stream_roundtrip_witness :
  @open_blocks toy_crypto (str "k") (fst (@EncryptStream toy_crypto 32768 (str "k") (str "some file data") toy_rng))
  = Ok (str "some file data").
Proof.
  exact (proj1 (@encrypt_stream_roundtrip toy_crypto toy_laws 32768 (str "k") (str "some file data") toy_rng
    ltac:(unfold BaseBlockSize; lia))).
Defined.
