(* ===== verification/Codec.v ===== *)
(** * Block compression (archive/codec.go) and the compression policy (io/compression.go)

    The zstd library is external: the class [Zstd] names the two calls made on it and
    [ZstdLaws] what the sources rely on (decoding inverts encoding within the limit, the
    overhead bound [zstdMaxOverhead], and that data never encodes to nothing). *)

From S2P Require Import Prelude Bytes IndexCodec Crypto Metadata Solid SolidPlan.

Definition BlockVariance : Z := 32768.
Definition MaxChunkSize : Z := BaseBlockSize + BlockVariance.
Definition MaxPayloadSize : Z := MaxChunkSize + zstdMaxOverhead.

Definition MinCompressionLevel : Z := 1.
Definition MaxCompressionLevel : Z := 22.
Definition DefaultCompressionLevel : Z := 3.
Definition zstdWindowSize : Z := 524288.

Inductive zstd_result := ZOk (b : bytes) | ZSizeExceeded | ZFailed.

Class Zstd := {
  zstd_encode : Z -> Z -> bytes -> bytes;            (* level window source *)
  zstd_decode : Z -> Z -> bytes -> zstd_result       (* limit window frame *)
}.

Class ZstdLaws (ZS : Zstd) : Prop := {
  zstd_decode_encode : forall level window limit window' src,
    len src <= limit -> window <= window' ->
    zstd_decode limit window' (zstd_encode level window src) = ZOk src;
  zstd_overhead : forall level window src, len src <= MaxChunkSize ->
    len (zstd_encode level window src) <= len src + zstdMaxOverhead;
  zstd_nonempty : forall level window src, 0 < len src -> 0 < len (zstd_encode level window src)
}.

Record BlockCompressor := mk_comp { bc_level : Z; bc_window : Z }.
Record BlockDecompressor := mk_decomp { bd_limit : Z; bd_window : Z }.

Definition newCompressor (level window : Z) : result BlockCompressor :=
  if (level <? MinCompressionLevel) || (MaxCompressionLevel <? level)
  then errorf ErrInvalidCompressionLevel "level out of range"
  else Ok (mk_comp level window).

Definition NewBlockCompressor (level : Z) : result BlockCompressor := newCompressor level zstdWindowSize.
Definition NewSolidCompressor (level : Z) : result BlockCompressor := newCompressor level MaxSolidStreamSize.
Definition NewChunkCompressor (level : Z) : result BlockCompressor := newCompressor level MaxCDCChunkSize.

Definition NewBlockDecompressor : BlockDecompressor := mk_decomp MaxChunkSize zstdWindowSize.
Definition NewSolidDecompressor : BlockDecompressor := mk_decomp MaxSolidStreamSize MaxSolidStreamSize.
Definition NewChunkDecompressor : BlockDecompressor := mk_decomp MaxCDCChunkSize MaxCDCChunkSize.

Section Codec.
Context `{ZS : Zstd}.

Definition Compress (bc : BlockCompressor) (src : bytes) : bytes :=
  zstd_encode (bc_level bc) (bc_window bc) src.

Definition Decompress (bd : BlockDecompressor) (src : bytes) : result bytes :=
  match zstd_decode (bd_limit bd) (bd_window bd) src with
  | ZSizeExceeded => errorf ErrBlockTooLarge "decoded block exceeds maximum"
  | ZFailed => errorf ErrOther "zstd decode"
  | ZOk out => if bd_limit bd <? len out then errorf ErrBlockTooLarge "decoded block exceeds maximum"
               else Ok out
  end.

(** Whatever the frame, decoding never yields more than the limit. *)
Lemma Decompress_bounded bd src out : Decompress bd src = Ok out -> len out <= bd_limit bd.
Proof.
  unfold Decompress, errorf. destruct (zstd_decode _ _ _) as [o| |]; [|done|done].
  destruct (Z.ltb_spec (bd_limit bd) (len o)); [done|]. intros E'. by inv_ok E'.
Qed.

Context `{ZL : !ZstdLaws ZS}.

Lemma Decompress_Compress bc bd src : bc_window bc <= bd_window bd -> len src <= bd_limit bd ->
  Decompress bd (Compress bc src) = Ok src.
Proof.
  intros Hw Hl. unfold Decompress, Compress. rewrite zstd_decode_encode by done. by ltb_false.
Qed.
End Codec.

(** ** The policy (io/compression.go) *)

Inductive CompressionMode := CompressionAuto | CompressionAlways | CompressionNever.

Definition compressionProbeSize : Z := 65536.
Definition compressionMinSavingsPercent : Z := 5.

Definition incompressibleExtensions : list bytes := map str
  [".jpg"; ".jpeg"; ".png"; ".gif"; ".webp"; ".heic"; ".avif";
   ".mp4"; ".m4v"; ".mov"; ".mkv"; ".webm"; ".avi";
   ".mp3"; ".m4a"; ".aac"; ".ogg"; ".opus"; ".flac";
   ".zip"; ".gz"; ".tgz"; ".bz2"; ".xz"; ".zst"; ".7z"; ".rar";
   ".jar"; ".apk"; ".docx"; ".xlsx"; ".pptx"; ".woff2"; ".sarc"]%string.

Record CompressionOptions := mk_copts { co_Mode : CompressionMode; co_Level : Z; co_Solid : bool }.

Definition DefaultCompressionOptions : CompressionOptions :=
  mk_copts CompressionAuto DefaultCompressionLevel false.

Record compressionPolicy := mk_policy {
  cp_mode : CompressionMode;
  cp_solid : bool;
  cp_compressor : option BlockCompressor;
  cp_solidCompressor : option BlockCompressor;
  cp_probeCompressor : option BlockCompressor
}.

Open Scope go_scope.

Definition newCompressionPolicy (opts : CompressionOptions) : result compressionPolicy :=
  match co_Mode opts with
  | CompressionNever => Ok (mk_policy CompressionNever (co_Solid opts) None None None)
  | mode =>
      let? bc := NewBlockCompressor (co_Level opts) in
      let? probe := (match mode with
                     | CompressionAuto => match NewBlockCompressor MinCompressionLevel with
                                          | Ok p => Ok (Some p) | Err e => Err e end
                     | _ => Ok None end) in
      let? solid := (if co_Solid opts
                     then match NewSolidCompressor (co_Level opts) with Ok p => Ok (Some p) | Err e => Err e end
                     else Ok None) in
      Ok (mk_policy mode (co_Solid opts) (Some bc) solid probe)
  end.

Section Policy.
Context `{ZS : Zstd} (toLower : bytes -> bytes).

(** [None] is the nil dereference of a missing probe compressor. *)
Definition codecFor (p : compressionPolicy) (name probe : bytes) : option Z :=
  match cp_mode p with
  | CompressionAlways => Some CodecZstd
  | CompressionAuto =>
      if existsb (bytes_eqb (toLower (Ext name))) incompressibleExtensions || (len probe =? 0)
      then Some CodecNone
      else match cp_probeCompressor p with
           | None => None
           | Some pc =>
               if len (Compress pc probe) * 100 <=? len probe * (100 - compressionMinSavingsPercent)
               then Some CodecZstd else Some CodecNone
           end
  | CompressionNever => Some CodecNone
  end.

Definition solidCodecFor (p : compressionPolicy) (stream : bytes) : option Z :=
  match cp_solidCompressor p with
  | None => Some CodecNone
  | Some _ => codecFor p [] (ztake (Z.min (len stream) compressionProbeSize) stream)
  end.

(** A policy built by [newCompressionPolicy] never dereferences a missing compressor: it
    always decides, and when it chooses zstd the block compressor exists. *)
Lemma codecFor_defined opts p name probe : newCompressionPolicy opts = Ok p ->
  exists c, codecFor p name probe = Some c /\ (c = CodecNone \/ c = CodecZstd) /\
            (c = CodecZstd -> exists bc, cp_compressor p = Some bc /\ bc_window bc = zstdWindowSize).
Proof.
  unfold newCompressionPolicy, NewBlockCompressor, NewSolidCompressor, newCompressor, errorf. intros H.
  destruct (co_Mode opts); cycle 2.
  { inv_ok H. exists CodecNone. split; [done|]. split; [by left|done]. }
  all: repeat case_match; simplify_eq; unfold codecFor; cbn [cp_mode cp_probeCompressor];
    repeat case_match; eexists; (split; [done|]); (split; [by (left + right)|]); intros; try done;
    eexists; done.
Qed.
End Policy.

(** A concrete stand-in for zstd: store with a one-byte frame header. *)
Definition toy_zstd : Zstd := {|
  zstd_encode level window src := zb 40 :: src;
  zstd_decode limit window f := match f with
    | [] => ZFailed
    | b :: src => if bool_decide (b = zb 40) then (if limit <? len src then ZSizeExceeded else ZOk src) else ZFailed
    end
|}.

Lemma toy_zstd_laws : ZstdLaws toy_zstd.
Proof.
  split; intros; cbn [zstd_encode zstd_decode toy_zstd].
  - rewrite bool_decide_true by done. by ltb_false.
  - rewrite len_cons. unfold zstdMaxOverhead. lia.
  - rewrite len_cons. lia.
Defined.
