(* ===== verification/Frames.v ===== *)
(** * Keys, metadata blocks and frame building (archive/keys.go, archive/metadata.go,
    archive/frames.go; entry sealing of io/solid.go and io/special.go)

    The parts of a file entry and the functions that seal them. A [FrameBuilder] is its
    file key and optional compressor; the randomness it owns is threaded explicitly, in
    the order the source draws it. *)

From S2P Require Import Prelude Bytes Attributes Metadata IndexCodec Crypto Codec Solid SolidPlan IOErrors Inputs.
Open Scope go_scope.

Definition Version1 : Z := 1.
Definition Version2 : Z := 2.
Definition EntryTypeEnd : Z := 0.
Definition EntryTypeFile : Z := 1.
Definition EntryTypeSolid : Z := 2.
Definition FileCountSealedSize : Z := 8 + NonceSize + GCMTagSize.
Definition FrameHeaderSize : Z := 32.
Definition interBlockPadMin : Z := 256.
Definition interBlockPadMax : Z := 1024.
Definition TrailerPayloadSize : Z := HMACSize + 8.

(** ** The key schedule *)

Inductive KeySchedule :=
  | KeysV1 (password : bytes)     (* per-entry PBKDF2 *)
  | KeysV2 (masterKey : bytes).   (* HKDF from the content-encryption key *)

Definition ks_Version (ks : KeySchedule) : Z :=
  match ks with KeysV1 _ => Version1 | KeysV2 _ => Version2 end.

Section Frames.
Context `{C : Crypto} `{ZS : Zstd}.

Definition FileKey (ks : KeySchedule) (salt : bytes) : bytes :=
  match ks with
  | KeysV1 password => DeriveKey password salt
  | KeysV2 master => DeriveFileSubkey master salt
  end.

Definition HeaderKey (ks : KeySchedule) : result bytes :=
  match ks with
  | KeysV1 _ => errorf ErrUnsupportedVersion "no header key"
  | KeysV2 master => Ok (DeriveHeaderSubkey master)
  end.

Definition ChunkIDKey (ks : KeySchedule) : result bytes :=
  match ks with
  | KeysV1 _ => errorf ErrUnsupportedVersion "no chunk keys"
  | KeysV2 master => Ok (DeriveChunkIDKey master)
  end.

Definition GearTable (ks : KeySchedule) : result (list Z) :=
  match ks with
  | KeysV1 _ => errorf ErrUnsupportedVersion "no chunk keys"
  | KeysV2 master => Ok (DeriveGearTable master)
  end.

(** ** Metadata blocks and file names *)

Definition MetadataBlock : Type := EncryptedBlock.

Definition Seal (key : bytes) (pm : PlaintextMetadata) (r : rng) : result MetadataBlock * rng :=
  match marshalMetadata pm with
  | Err e => (Err e, r)
  | Ok raw => let '(b, r) := EncryptBlock key raw r in (Ok b, r)
  end.

Definition Open (key : bytes) (mb : MetadataBlock) : result PlaintextMetadata :=
  let? raw := DecryptBlock key mb in unmarshalMetadata raw.

Definition encryptFilename (name fileKey : bytes) (r : rng) : bytes * rng :=
  let '(b, r) := EncryptBlock fileKey name r in (eb_Nonce b ++ eb_Ciphertext b, r).

Definition decryptFilename (blob fileKey : bytes) : result bytes :=
  if len blob <? NonceSize then errorf ErrOther "blob too short"
  else DecryptBlock fileKey (mk_block (ztake NonceSize blob) (zdrop NonceSize blob)).

(** ** The frame builder *)

Record FrameBuilder := mk_fb { fb_key : bytes; fb_compressor : option BlockCompressor }.

Definition fb_Codec (fb : FrameBuilder) : Z :=
  match fb_compressor fb with Some _ => CodecZstd | None => CodecNone end.

Definition encodeInto (fb : FrameBuilder) (plaintext : bytes) : bytes :=
  match fb_compressor fb with None => plaintext | Some bc => Compress bc plaintext end.

Definition NextChunkSize (r : rng) : Z * rng := next_size BlockVariance r.

Definition DataBlock : Type := EncryptedBlock.

Definition EncryptChunk (fb : FrameBuilder) (plaintext : bytes) (r : rng) : DataBlock * rng :=
  EncryptBlock (fb_key fb) (encodeInto fb plaintext) r.

Definition NextNonce (r : rng) : bytes * rng := draw NonceSize r.

Definition EncryptChunkWithNonceInto (fb : FrameBuilder) (nonce plaintext : bytes) : DataBlock :=
  EncryptBlockWithNonceInto (fb_key fb) nonce (encodeInto fb plaintext).

Definition FrameHeader (r : rng) : bytes * rng := draw FrameHeaderSize r.

Definition randomRange (min max : Z) (r : rng) : bytes * rng :=
  let '(v, r) := draw_u16 r in
  draw (min + v mod (max - min + 1)) r.

Definition InterBlockPadding (r : rng) : bytes * rng := randomRange interBlockPadMin interBlockPadMax r.

Record FileTrailer := mk_trailer {
  RandomPadding : bytes;
  PlaintextHMACNonce : bytes;
  PlaintextHMACSealed : bytes;
  EntryChecksum : bytes
}.

Definition BuildTrailer (fb : FrameBuilder) (plaintextHMAC : bytes) (plaintextSize : Z) (r : rng) : FileTrailer * rng :=
  let '(pad, r) := padding_Trailer r in
  let '(sealed, r) := EncryptBlock (fb_key fb) (plaintextHMAC ++ le_bytes 8 plaintextSize) r in
  let '(cs, r) := draw 8 r in
  (mk_trailer pad (eb_Nonce sealed) (eb_Ciphertext sealed) cs, r).

(** The read loop of [encryptStreamCompressed], of the sequential pipeline
    ([encryptAndStream]) and of the dispatcher of the parallel ones: draw a size, read a
    chunk, seal it, until a short read. *)
Fixpoint chunk_loop (fuel : nat) (fb : FrameBuilder) (data : bytes) (r : rng) : list DataBlock * rng :=
  match fuel with
  | O => ([], r)
  | S fuel =>
      let '(size, r) := NextChunkSize r in
      let chunk := ztake size data in
      let '(blocks, r) :=
        if 0 <? len chunk then let '(b, r) := EncryptChunk fb chunk r in ([b], r) else ([], r) in
      if len chunk <? size then (blocks, r)
      else let '(rest, r) := chunk_loop fuel fb (zdrop size data) r in (blocks ++ rest, r)
  end.

Definition encryptStreamCompressed (fb : FrameBuilder) (data : bytes) (r : rng) : list DataBlock * rng :=
  chunk_loop (S (length data)) fb data r.

Definition fb_EncryptStream (fb : FrameBuilder) (data : bytes) (r : rng) : list DataBlock * rng :=
  match fb_compressor fb with
  | Some _ => encryptStreamCompressed fb data r
  | None => EncryptStream BlockVariance (fb_key fb) data r
  end.

(** The block loop of [sealPayloadEntry], which stops at the end of the payload instead
    of at a short read. *)
Fixpoint payload_loop (fuel : nat) (fb : FrameBuilder) (payload : bytes) (r : rng) : list DataBlock * rng :=
  match fuel with
  | O => ([], r)
  | S fuel =>
      if negb (0 <? len payload) then ([], r)
      else
        let '(size, r) := NextChunkSize r in
        let n := Z.min size (len payload) in
        let '(b, r) := EncryptChunk fb (ztake n payload) r in
        let '(rest, r) := payload_loop fuel fb (zdrop n payload) r in
        (b :: rest, r)
  end.

(** ** Entries *)

Record FileEntry := mk_entry {
  EntryType : Z;
  EntrySalt : bytes;
  FrameHdr : bytes;
  MetaBlock : MetadataBlock;
  InterBlockPad : bytes;
  DataBlocks : list DataBlock;
  Trailer : FileTrailer
}.

Definition zero_pm : PlaintextMetadata := mk_pm [] 0 (replicate 32 Byte.x00) 0 0 None.

(** [sealPayloadEntry]: [r0] is crypto/rand, which supplies the salt and the metadata
    nonce; [r] is the frame builder's own stream. *)
Definition sealPayloadEntry (ks : KeySchedule) (entryType codec : Z) (payload plaintext : bytes) (r0 r : rng) :
  iores FileEntry :=
  let '(salt, r0) := draw SaltSize r0 in
  let fileKey := FileKey ks salt in
  let fb := mk_fb fileKey None in
  let '(frameHdr, r) := FrameHeader r in
  let '(meta, r0) := Seal fileKey
    (mk_pm [] (BucketizeSize (len plaintext)) (replicate 32 Byte.x00) 0 codec None) r0 in
  let@ meta := or_fatal ErrCodeWriteFailed "seal metadata" meta in
  let '(interPad, r) := InterBlockPadding r in
  let '(blocks, r) := payload_loop (length payload) fb payload r in
  let '(trailer, r) := BuildTrailer fb (ComputeHMAC fileKey plaintext) (len plaintext) r in
  IOk (mk_entry entryType salt frameHdr meta interPad blocks trailer).

(** [sealSolidEntry]. *)
Definition sealSolidEntry (toLower : bytes -> bytes) (ks : KeySchedule) (p : compressionPolicy)
  (stream : bytes) (r0 r : rng) : option (iores (FileEntry * Z)) :=
  match solidCodecFor toLower p stream with
  | None => None
  | Some codec =>
      let payload := if codec =? CodecZstd
                     then match cp_solidCompressor p with Some bc => Compress bc stream | None => stream end
                     else stream in
      Some (let@ e := sealPayloadEntry ks EntryTypeSolid codec payload stream r0 r in IOk (e, codec))
  end.

(** [sealSpecialEntry]: name and attributes of a directory or link, and no data. *)
Definition sealSpecialEntry (ks : KeySchedule) (i : inputFile) (r0 r : rng) : iores FileEntry :=
  let '(salt, r0) := draw SaltSize r0 in
  let fileKey := FileKey ks salt in
  let fb := mk_fb fileKey None in
  let '(frameHdr, r) := FrameHeader r in
  let '(encName, r0) := encryptFilename (in_name i) fileKey r0 in
  let '(meta, r0) := Seal fileKey
    (mk_pm encName BucketTiny (replicate 32 Byte.x00) (Z.land (Mode (in_attrs i)) 511) CodecNone (Some (in_attrs i))) r0 in
  let@ meta := or_fatal ErrCodeWriteFailed "seal metadata" meta in
  let '(interPad, r) := InterBlockPadding r in
  let '(trailer, r) := BuildTrailer fb (ComputeHMAC fileKey []) 0 r in
  IOk (mk_entry EntryTypeFile salt frameHdr meta interPad [] trailer).

Definition HashTimestamp (salt : bytes) (mtime : Z) : bytes :=
  hmac_sha256 salt (le_bytes 8 (u64 (86400 * (mtime / 86400)))).

Definition newFrameBuilder (p : compressionPolicy) (fileKey : bytes) (codec : Z) : option FrameBuilder :=
  if codec =? CodecZstd
  then match cp_compressor p with Some bc => Some (mk_fb fileKey (Some bc)) | None => None end
  else Some (mk_fb fileKey None).

(** The blocks of a file: the memory-mapped pipeline stops at the end of the data, the
    buffered ones at a short read. *)
Definition stream_blocks (mapped : bool) (fb : FrameBuilder) (data : bytes) (r : rng) : list DataBlock * rng :=
  if mapped then payload_loop (length data) fb data r else chunk_loop (S (length data)) fb data r.

(** The entry of a regular file with content [data], as [encryptFile] builds it in memory
    and [addFileStreaming] writes it block by block. *)
Definition streamed_entry (ks : KeySchedule) (fb : bytes -> FrameBuilder) (mapped : bool) (codec perm mtime statSize : Z)
  (i : inputFile) (data : bytes) (r0 r : rng) : iores FileEntry :=
  let '(salt, r0) := draw SaltSize r0 in
  let fileKey := FileKey ks salt in
  let fb := fb fileKey in
  let '(frameHdr, r) := FrameHeader r in
  let '(encName, r0) := encryptFilename (in_name i) fileKey r0 in
  let '(meta, r0) := Seal fileKey
    (mk_pm encName (BucketizeSize statSize) (HashTimestamp salt mtime) perm codec (Some (in_attrs i))) r0 in
  let@ meta := or_fatal ErrCodeWriteFailed "seal metadata" meta in
  let '(interPad, r) := InterBlockPadding r in
  let '(blocks, r) := stream_blocks mapped fb data r in
  let '(trailer, r) := BuildTrailer fb (ComputeHMAC fileKey data) (len data) r in
  IOk (mk_entry EntryTypeFile salt frameHdr meta interPad blocks trailer).
End Frames.
