(* ===== verification/Checksum.v ===== *)
(** * The footer checksum (archive/checksum.go)

    SHA-256 is external: the class [Sha256] is the streaming interface of [hash.Hash] with
    its binary marshalling. [ArchiveChecksum] holds back the first bytes until it knows
    whether the header belongs to an incremental archive, whose sealed session count is
    hashed as zeros. The theorem relates it to a one-line specification: hash the masked
    archive, however the bytes were split over writes. *)

From S2P Require Import Prelude Bytes IndexCodec Crypto Frames.

Class Sha256 := {
  sha_state : Type;
  sha_init : sha_state;
  sha_write : sha_state -> bytes -> sha_state;
  sha_sum : sha_state -> bytes;
  sha_marshal : sha_state -> bytes;
  sha_unmarshal : bytes -> option sha_state
}.

Class Sha256Laws (H : Sha256) : Prop := {
  sha_write_app : forall s a b, sha_write (sha_write s a) b = sha_write s (a ++ b);
  sha_write_nil : forall s, sha_write s [] = s;
  sha_unmarshal_marshal : forall b, sha_unmarshal (sha_marshal (sha_write sha_init b)) = Some (sha_write sha_init b);
  len_sha_sum : forall s, len (sha_sum s) = HMACSize;
  len_sha_marshal : forall b, len (sha_marshal (sha_write sha_init b)) <= 128
}.

Definition Magic : bytes := str "SARC".
Definition headerPrefixLen : Z := 4 + 2 + 4.
Definition MaxRecipientBlockSize : Z := 1048576.

(** Whether [b] starts with a Version2 header, its count offset and its flag offset. *)
Definition v2_header (b : bytes) : bool :=
  (headerPrefixLen <=? len b) && bytes_eqb (ztake 4 b) Magic && (le_u16 (zdrop 4 b) =? Version2).
Definition countOff (b : bytes) : Z := headerPrefixLen + le_u32 (zdrop 6 b).
Definition flagOff (b : bytes) : Z := countOff b + FileCountSealedSize.

(** [clear(b[from:to])]. *)
Definition clear_range (from to : Z) (b : bytes) : bytes :=
  ztake from b ++ replicate (Z.to_nat (to - from)) Byte.x00 ++ zdrop to b.

Definition byte_at (i : Z) (b : bytes) : Z := bz (hd Byte.x00 (zdrop i b)).

(** The header step of [flushHeader] on the held bytes: keep holding ([None]), or the
    bytes to hash. *)
Definition flush_head (final : bool) (head : bytes) : option bytes :=
  if (len head <? headerPrefixLen) && negb final then None
  else if v2_header head && (le_u32 (zdrop 6 head) <=? MaxRecipientBlockSize) then
    if (len head <=? flagOff head) && negb final then None
    else if (flagOff head <? len head) &&
            negb (Z.land (byte_at (flagOff head) head) HeaderFlagIncremental =? 0)
    then Some (clear_range (countOff head) (flagOff head) head)
    else Some head
  else Some head.

Section Checksum.
Context `{H : Sha256}.

Record ArchiveChecksum := mk_cs { cs_h : sha_state; cs_head : bytes; cs_done : bool }.

Definition NewArchiveChecksum : ArchiveChecksum := mk_cs sha_init [] false.

Definition ResumeArchiveChecksum (state : bytes) : result ArchiveChecksum :=
  match sha_unmarshal state with
  | Some h => Ok (mk_cs h [] true)
  | None => errorf ErrOther "restore state"
  end.

Definition flushHeader (final : bool) (c : ArchiveChecksum) : ArchiveChecksum :=
  match flush_head final (cs_head c) with
  | None => c
  | Some b => mk_cs (sha_write (cs_h c) b) [] true
  end.

Definition cs_Write (c : ArchiveChecksum) (p : bytes) : ArchiveChecksum :=
  if cs_done c then mk_cs (sha_write (cs_h c) p) (cs_head c) true
  else flushHeader false (mk_cs (cs_h c) (cs_head c ++ p) false).

Definition cs_Sum (c : ArchiveChecksum) : bytes :=
  sha_sum (cs_h (if cs_done c then c else flushHeader true c)).

Definition cs_MarshalBinary (c : ArchiveChecksum) : result bytes :=
  if cs_done c then Ok (sha_marshal (cs_h c)) else errorf ErrOther "header not yet hashed".

(** ** Specification *)

(** The bytes the checksum covers: the archive, with the sealed count of an incremental
    header replaced by zeros. *)
Definition masked (b : bytes) : bytes :=
  if v2_header b && (le_u32 (zdrop 6 b) <=? MaxRecipientBlockSize) && (flagOff b <? len b) &&
     negb (Z.land (byte_at (flagOff b) b) HeaderFlagIncremental =? 0)
  then clear_range (countOff b) (flagOff b) b else b.

Lemma flush_head_final b : flush_head true b = Some (masked b).
Proof.
  unfold flush_head, masked. rewrite !andb_false_r.
  destruct (v2_header b), (_ <=? MaxRecipientBlockSize), (flagOff b <? len b), (negb (_ =? 0)); done.
Qed.

Context `{HL : !Sha256Laws H}.

Lemma le_app_prefix k (b p : bytes) : 0 <= k -> k <= len b -> ztake k (b ++ p) = ztake k b.
Proof. intros. by apply ztake_app_le. Qed.

Lemma le_Z_app_prefix i k (b p : bytes) : 0 <= i -> 0 <= k -> i + k <= len b ->
  ztake k (zdrop i (b ++ p)) = ztake k (zdrop i b).
Proof.
  intros. rewrite zdrop_app_le by lia. apply le_app_prefix; [done|]. rewrite len_zdrop; lia.
Qed.

Lemma v2_header_app b p : headerPrefixLen <= len b -> v2_header (b ++ p) = v2_header b.
Proof.
  unfold v2_header, headerPrefixLen. intros Hl. rewrite le_app_prefix by lia.
  unfold le_u16. rewrite le_Z_app_prefix by lia. f_equal. f_equal.
  rewrite len_app. pose proof (len_nonneg p). by rewrite !(proj2 (Z.leb_le _ _)) by lia.
Qed.

Lemma countOff_app b p : headerPrefixLen <= len b -> countOff (b ++ p) = countOff b.
Proof. unfold countOff, headerPrefixLen, le_u32. intros. by rewrite le_Z_app_prefix by lia. Qed.

Lemma flagOff_app b p : headerPrefixLen <= len b -> flagOff (b ++ p) = flagOff b.
Proof. intros. unfold flagOff. by rewrite countOff_app. Qed.

Lemma flagOff_ge b : headerPrefixLen <= countOff b /\ countOff b < flagOff b.
Proof.
  unfold flagOff, countOff, FileCountSealedSize, NonceSize, GCMTagSize.
  pose proof (le_u32_range (zdrop 6 b)). lia.
Qed.

Lemma byte_at_app i b p : 0 <= i < len b -> byte_at i (b ++ p) = byte_at i b.
Proof.
  intros. unfold byte_at. rewrite zdrop_app_le by lia. f_equal.
  pose proof (len_zdrop i b ltac:(lia)). destruct (zdrop i b); [|done]. rewrite len_nil in *. lia.
Qed.

Lemma clear_range_app from to b p : 0 <= from -> from <= to -> to <= len b ->
  clear_range from to (b ++ p) = clear_range from to b ++ p.
Proof.
  intros. unfold clear_range. rewrite ztake_app_le, zdrop_app_le by lia. by rewrite <- !app_assoc.
Qed.

(** Once the held bytes decide the layout, later bytes are hashed as they are. *)
Lemma flush_head_app b p x : flush_head false b = Some x ->
  flush_head false (b ++ p) = Some (x ++ p) /\ masked b = x.
Proof.
  unfold flush_head, masked. rewrite !andb_true_r. destruct (Z.ltb_spec (len b) headerPrefixLen); [done|].
  rewrite v2_header_app, flagOff_app, countOff_app by done.
  assert (le_u32 (zdrop 6 (b ++ p)) = le_u32 (zdrop 6 b)) as ->.
  { unfold le_u32. rewrite le_Z_app_prefix; unfold headerPrefixLen in *; lia. }
  pose proof (len_nonneg p).
  rewrite (proj2 (Z.ltb_ge (len (b ++ p)) headerPrefixLen)) by (rewrite len_app; lia).
  destruct (v2_header b); [|by intros [= <-]]. cbn [andb].
  destruct (_ <=? MaxRecipientBlockSize); [|by intros [= <-]]. cbn [andb].
  destruct (Z.leb_spec (len b) (flagOff b)); [done|].
  pose proof (flagOff_ge b). unfold headerPrefixLen in *.
  rewrite byte_at_app, len_app by lia.
  rewrite (proj2 (Z.leb_gt (len b + len p) (flagOff b))) by lia.
  rewrite !(proj2 (Z.ltb_lt _ _)) by lia. cbn [andb].
  destruct (negb _); intros [= <-]; [|done]. split; [|done]. f_equal. apply clear_range_app; lia.
Qed.

(** The state after writing [b], in whatever pieces. *)
Definition cs_after (b : bytes) : ArchiveChecksum :=
  match flush_head false b with
  | None => mk_cs sha_init b false
  | Some x => mk_cs (sha_write sha_init x) [] true
  end.

Lemma cs_Write_after b p : cs_Write (cs_after b) p = cs_after (b ++ p).
Proof.
  unfold cs_after at 1. destruct (flush_head false b) as [x|] eqn:E; unfold cs_Write; cbn [cs_done cs_h cs_head].
  - rewrite sha_write_app. apply (flush_head_app b p) in E as [E _].
    unfold cs_after. by rewrite E.
  - unfold flushHeader, cs_after. cbn [cs_head cs_h]. by destruct (flush_head false (b ++ p)).
Qed.

Lemma cs_writes_after ps : fold_left cs_Write ps NewArchiveChecksum = cs_after (concat ps).
Proof.
  assert (forall b, fold_left cs_Write ps (cs_after b) = cs_after (b ++ concat ps)) as Hg.
  { induction ps as [|p ps IH]; intros b; cbn [fold_left concat]; [by rewrite app_nil_r|].
    rewrite cs_Write_after, IH. by rewrite app_assoc. }
  apply (Hg []).
Qed.

Lemma cs_Sum_after b : cs_Sum (cs_after b) = sha_sum (sha_write sha_init (masked b)).
Proof.
  unfold cs_after, cs_Sum. destruct (flush_head false b) as [x|] eqn:E; cbn [cs_done].
  - by apply (flush_head_app b []) in E as [_ <-].
  - unfold flushHeader; cbn [cs_head cs_h]. by rewrite flush_head_final.
Qed.

(** The footer checksum does not depend on how the archive was cut into writes: it is
    the SHA-256 of the archive with an incremental header's sealed count zeroed. *)
Theorem checksum_partition (ps : list bytes) :
  cs_Sum (fold_left cs_Write ps NewArchiveChecksum) = sha_sum (sha_write sha_init (masked (concat ps))).
Proof. by rewrite cs_writes_after, cs_Sum_after. Qed.

(** A checkpointed checksum resumes where it stopped: saving the state after any writes
    and restoring it later gives, after more writes, the checksum of the whole archive. *)
Theorem checksum_resume (ps qs : list bytes) (state : bytes)
  (Hs : cs_MarshalBinary (fold_left cs_Write ps NewArchiveChecksum) = Ok state) :
  exists c, ResumeArchiveChecksum state = Ok c /\
    cs_Sum (fold_left cs_Write qs c) = cs_Sum (fold_left cs_Write (ps ++ qs) NewArchiveChecksum).
Proof.
  rewrite fold_left_app. revert Hs. rewrite cs_writes_after. unfold cs_after, cs_MarshalBinary, errorf.
  destruct (flush_head false (concat ps)) as [x|]; cbn [cs_done cs_h]; [|done].
  intros Hs. inv_ok Hs. unfold ResumeArchiveChecksum. rewrite sha_unmarshal_marshal. by eexists.
Qed.
End Checksum.

(** A concrete stand-in for SHA-256: a 64-bit polynomial hash. *)
Definition toy_hash_byte (h : Z) (b : byte) : Z := (h * 31 + bz b + 1) mod 2 ^ 64.

Definition toy_sha : Sha256 := {|
  sha_state := Z;
  sha_init := 0;
  sha_write s b := fold_left toy_hash_byte b s;
  sha_sum s := le_bytes 32 s;
  sha_marshal s := le_bytes 8 s;
  sha_unmarshal b := Some (le_u64 b)
|}.

Lemma toy_hash_range b : forall s, 0 <= s < 2 ^ 64 -> 0 <= fold_left toy_hash_byte b s < 2 ^ 64.
Proof.
  induction b as [|x b IH]; intros s Hs; cbn [fold_left]; [done|]. apply IH.
  unfold toy_hash_byte. by apply Z.mod_pos_bound.
Defined.

Lemma toy_sha_laws : Sha256Laws toy_sha.
Proof.
  split; intros; cbn [sha_write sha_init sha_unmarshal sha_marshal sha_sum toy_sha].
  - by rewrite fold_left_app.
  - done.
  - rewrite <- (app_nil_r (le_bytes 8 _)). rewrite le_u64_app by (by apply toy_hash_range). done.
  - by rewrite len_le_bytes.
  - rewrite len_le_bytes. lia.
Defined.

Lemma checksum_resume_witness :
  exists c, @ResumeArchiveChecksum toy_sha (@sha_marshal toy_sha (@sha_write toy_sha sha_init (str "not an archive"))) = Ok c /\
    @cs_Sum toy_sha (fold_left cs_Write [str "tail"] c) =
    @cs_Sum toy_sha (fold_left cs_Write ([str "not an"; str " archive"] ++ [str "tail"]) NewArchiveChecksum).
Proof.
  exact (@checksum_resume toy_sha toy_sha_laws [str "not an"; str " archive"] [str "tail"] _ ltac:(vm_compute; reflexivity)).
Defined.

Lemma checksum_partition_witness :
  @cs_Sum toy_sha (fold_left cs_Write [str "SARC"; str ""; str "rest"] NewArchiveChecksum) =
  @sha_sum toy_sha (sha_write sha_init (masked (str "SARCrest"))).
Proof. exact (@checksum_partition toy_sha toy_sha_laws [str "SARC"; str ""; str "rest"]). Defined.
