(* ===== verification/Writer.v ===== *)
(** * Serialising archives (archive/writer.go)

    [ArchiveWriter] as explicit state: the bytes handed to the sink (which accepts every
    write), the running checksum, the offset counter and the bookkeeping of the last
    entry. Every content write goes through [tee], which feeds all three; the footer goes
    only to the sink. The theorems describe each operation by the bytes it appends. *)

From S2P Require Import Prelude Bytes IndexCodec Checkpoint Directory Crypto Codec Frames Checksum IOErrors.
Open Scope go_scope.

Section Writer.
Context `{C : Crypto} `{ZS : Zstd} `{H : Sha256}.

Record ArchiveWriter := mk_aw {
  aw_out : bytes;
  aw_hasher : ArchiveChecksum;
  aw_offset : Z;
  aw_keys : KeySchedule;
  aw_recipients : bytes;
  aw_checksum : bytes;
  aw_entryOffset : Z;
  aw_entryStored : Z
}.

Definition newArchiveWriter (keys : KeySchedule) (recipients : bytes) (hasher : ArchiveChecksum) (offset : Z) :
  ArchiveWriter := mk_aw [] hasher offset keys recipients [] 0 0.

(** [NewArchiveWriter] after its CEK and recipient block have been made. *)
Definition NewArchiveWriter (cek recipients : bytes) : ArchiveWriter :=
  newArchiveWriter (KeysV2 cek) recipients NewArchiveChecksum 0.

Definition ResumeArchiveWriter (keys : KeySchedule) (offset : Z) (hashState : bytes) : result ArchiveWriter :=
  let? hasher := ResumeArchiveChecksum hashState in
  Ok (newArchiveWriter keys [] hasher offset).

Definition tee (p : bytes) (aw : ArchiveWriter) : ArchiveWriter :=
  mk_aw (aw_out aw ++ p) (cs_Write (aw_hasher aw) p) (aw_offset aw + len p) (aw_keys aw) (aw_recipients aw)
        (aw_checksum aw) (aw_entryOffset aw) (aw_entryStored aw).

(** A write that bypasses the tee. *)
Definition raw_write (p : bytes) (aw : ArchiveWriter) : ArchiveWriter :=
  mk_aw (aw_out aw ++ p) (aw_hasher aw) (aw_offset aw) (aw_keys aw) (aw_recipients aw)
        (aw_checksum aw) (aw_entryOffset aw) (aw_entryStored aw).

Definition LastEntry (aw : ArchiveWriter) : Z * Z := (aw_entryOffset aw, aw_entryStored aw).

Definition FileCountOffset (recipientBlockLen : Z) : Z := len Magic + 2 + 4 + recipientBlockLen.

Definition SealFileCount (keys : KeySchedule) (count : Z) (r : rng) : result bytes * rng :=
  match HeaderKey keys with
  | Err e => (Err e, r)
  | Ok headerKey =>
      let '(sealed, r) := EncryptBlock headerKey (le_bytes 8 count) r in
      (Ok (eb_Nonce sealed ++ eb_Ciphertext sealed), r)
  end.

Definition writeHeader (version : Z) (recipients sealed : bytes) (flags : Z) (aw : ArchiveWriter) : ArchiveWriter :=
  tee (Magic ++ le_bytes 2 version ++ le_bytes 4 (len recipients) ++ recipients ++ sealed ++
       [zb flags] ++ replicate 31 Byte.x00) aw.

Definition WriteHeaderWithFlags (fileCount flags : Z) (r : rng) (aw : ArchiveWriter) : result ArchiveWriter :=
  match SealFileCount (aw_keys aw) fileCount r with
  | (Err e, _) => Err e
  | (Ok sealed, _) => Ok (writeHeader (ks_Version (aw_keys aw)) (aw_recipients aw) sealed flags aw)
  end.

Definition WriteHeader (fileCount : Z) (r : rng) (aw : ArchiveWriter) : result ArchiveWriter :=
  WriteHeaderWithFlags fileCount 0 r aw.

Definition startEntry (aw : ArchiveWriter) : ArchiveWriter :=
  mk_aw (aw_out aw) (aw_hasher aw) (aw_offset aw) (aw_keys aw) (aw_recipients aw) (aw_checksum aw) (aw_offset aw) 0.

Definition writePadding (pad : bytes) (aw : ArchiveWriter) : ArchiveWriter :=
  tee pad (tee (le_bytes 4 (len pad)) aw).

Definition writeSealed (b : EncryptedBlock) (aw : ArchiveWriter) : ArchiveWriter :=
  tee (eb_Ciphertext b) (tee (le_bytes 4 (len (eb_Ciphertext b))) (tee (eb_Nonce b) aw)).

Definition writeMetadataBlock (mb : MetadataBlock) (aw : ArchiveWriter) : ArchiveWriter := writeSealed mb aw.

Definition writeDataBlock (db : DataBlock) (aw : ArchiveWriter) : ArchiveWriter :=
  writeSealed db
    (mk_aw (aw_out aw) (aw_hasher aw) (aw_offset aw) (aw_keys aw) (aw_recipients aw) (aw_checksum aw)
           (aw_entryOffset aw) (aw_entryStored aw + (len (eb_Ciphertext db) - GCMTagSize))).

Definition AppendDataBlock (aw : ArchiveWriter) (db : DataBlock) : ArchiveWriter := writeDataBlock db aw.

Definition writeTrailer (t : FileTrailer) (aw : ArchiveWriter) : ArchiveWriter :=
  tee (EntryChecksum t)
    (writeSealed (mk_block (PlaintextHMACNonce t) (PlaintextHMACSealed t))
      (writePadding (RandomPadding t) aw)).

(** The data block sentinel: a zero nonce and a zero size. *)
Definition data_sentinel : bytes := replicate (Z.to_nat (NonceSize + 4)) Byte.x00.

Definition BeginFileEntry (entryType : Z) (salt frameHdr : bytes) (meta : MetadataBlock) (interPad : bytes)
  (aw : ArchiveWriter) : ArchiveWriter :=
  writePadding interPad
    (writeMetadataBlock meta
      (tee frameHdr (tee salt (tee [zb entryType] (startEntry aw))))).

Definition EndFileEntry (trailer : FileTrailer) (aw : ArchiveWriter) : ArchiveWriter :=
  writeTrailer trailer (tee data_sentinel aw).

Definition WriteFileEntry (e : FileEntry) (aw : ArchiveWriter) : ArchiveWriter :=
  let aw := startEntry aw in
  let aw := tee [zb (EntryType e)] aw in
  let aw := tee (EntrySalt e) aw in
  let aw := tee (FrameHdr e) aw in
  let aw := writeMetadataBlock (MetaBlock e) aw in
  let aw := writePadding (InterBlockPad e) aw in
  let aw := fold_left AppendDataBlock (DataBlocks e) aw in
  let aw := tee data_sentinel aw in
  writeTrailer (Trailer e) aw.

Definition WriteDirectoryLocator (offset : Z) (aw : ArchiveWriter) : ArchiveWriter :=
  tee (AppendDirectoryLocator [] (u64 offset)) aw.

Definition WriteFooter (aw : ArchiveWriter) : ArchiveWriter :=
  let aw := tee [zb EntryTypeEnd] aw in
  let sum := cs_Sum (aw_hasher aw) in
  let aw := mk_aw (aw_out aw) (aw_hasher aw) (aw_offset aw) (aw_keys aw) (aw_recipients aw) sum
                  (aw_entryOffset aw) (aw_entryStored aw) in
  raw_write (replicate 32 Byte.x00) (raw_write (ztake HMACSize (sum ++ replicate 32 Byte.x00)) aw).

Definition WriteCheckpointFooter (lastIndex : Z) (aw : ArchiveWriter) : result ArchiveWriter :=
  let? state := cs_MarshalBinary (aw_hasher aw) in
  let? cp := MarshalCheckpoint (mk_checkpoint (u64 lastIndex) state) in
  Ok (WriteFooter (tee cp aw)).

(** ** The bytes each operation appends *)

Definition encode_sealed (b : EncryptedBlock) : bytes :=
  eb_Nonce b ++ le_bytes 4 (len (eb_Ciphertext b)) ++ eb_Ciphertext b.
Definition encode_padding (pad : bytes) : bytes := le_bytes 4 (len pad) ++ pad.
Definition encode_trailer (t : FileTrailer) : bytes :=
  encode_padding (RandomPadding t) ++
  encode_sealed (mk_block (PlaintextHMACNonce t) (PlaintextHMACSealed t)) ++ EntryChecksum t.
Definition encode_blocks (bs : list DataBlock) : bytes := concat (map encode_sealed bs) ++ data_sentinel.
Definition encode_body (e : FileEntry) : bytes :=
  encode_padding (InterBlockPad e) ++ encode_blocks (DataBlocks e) ++ encode_trailer (Trailer e).
Definition encode_head (e : FileEntry) : bytes :=
  EntrySalt e ++ FrameHdr e ++ encode_sealed (MetaBlock e).
Definition encode_entry (e : FileEntry) : bytes :=
  [zb (EntryType e)] ++ encode_head e ++ encode_body e.

(** The stored payload of an entry: ciphertext without tags. *)
Definition stored_size (bs : list DataBlock) : Z :=
  foldr (fun b n => len (eb_Ciphertext b) - GCMTagSize + n) 0 bs.

Context `{HL : !Sha256Laws H}.

(** [wrote aw P B]: a writer that started after the prefix [P] has appended exactly [B],
    its checksum covers [P ++ B] and its offset is the length of [P ++ B]. *)
Definition wrote (aw : ArchiveWriter) (P B : bytes) : Prop :=
  aw_out aw = B /\ aw_hasher aw = cs_after (P ++ B) /\ aw_offset aw = len P + len B.

Lemma wrote_tee aw P B p : wrote aw P B -> wrote (tee p aw) P (B ++ p).
Proof.
  intros (Ho & Hh & Hf). split; [|split]; cbn [aw_out aw_hasher aw_offset tee].
  - by rewrite Ho.
  - rewrite Hh, cs_Write_after. by rewrite app_assoc.
  - rewrite Hf. len_lia.
Qed.

(** Rewrite the bytes of a [wrote] fact by associativity. *)
Lemma wrote_eq aw P B B' : wrote aw P B -> B = B' -> wrote aw P B'.
Proof. by intros ? <-. Qed.

Lemma wrote_sealed aw P B b : wrote aw P B -> wrote (writeSealed b aw) P (B ++ encode_sealed b).
Proof.
  intros Hw. eapply wrote_eq; [by do 3 apply wrote_tee|]. unfold encode_sealed. by rewrite <- !app_assoc.
Qed.

Lemma wrote_padding aw P B pad : wrote aw P B -> wrote (writePadding pad aw) P (B ++ encode_padding pad).
Proof. intros Hw. eapply wrote_eq; [by do 2 apply wrote_tee|]. unfold encode_padding. by rewrite <- !app_assoc. Qed.

Lemma wrote_blocks bs : forall aw P B, wrote aw P B ->
  wrote (fold_left AppendDataBlock bs aw) P (B ++ concat (map encode_sealed bs)).
Proof.
  induction bs as [|b bs IH]; intros aw P B Hw; cbn [fold_left map concat]; [by rewrite app_nil_r|].
  rewrite app_assoc. apply IH. unfold AppendDataBlock, writeDataBlock. by apply wrote_sealed.
Qed.

Lemma wrote_trailer aw P B t : wrote aw P B -> wrote (writeTrailer t aw) P (B ++ encode_trailer t).
Proof.
  intros Hw. eapply wrote_eq; [apply wrote_tee, wrote_sealed, wrote_padding; exact Hw|].
  unfold encode_trailer. by rewrite <- !app_assoc.
Qed.

Lemma wrote_entry aw P B e : wrote aw P B -> wrote (WriteFileEntry e aw) P (B ++ encode_entry e).
Proof.
  intros Hw. eapply wrote_eq.
  - unfold WriteFileEntry. apply wrote_trailer, wrote_tee, wrote_blocks, wrote_padding. unfold writeMetadataBlock.
    apply wrote_sealed. do 3 apply wrote_tee. exact Hw.
  - unfold encode_entry, encode_head, encode_body, encode_blocks. by rewrite <- !app_assoc.
Qed.

(** A streamed entry is byte for byte and bookkeeping for bookkeeping a whole entry. *)
Lemma streamed_is_whole e aw :
  EndFileEntry (Trailer e) (fold_left AppendDataBlock (DataBlocks e)
    (BeginFileEntry (EntryType e) (EntrySalt e) (FrameHdr e) (MetaBlock e) (InterBlockPad e) aw)) =
  WriteFileEntry e aw.
Proof. reflexivity. Qed.

Lemma entry_bookkeeping bs : forall aw,
  aw_entryOffset (fold_left AppendDataBlock bs aw) = aw_entryOffset aw /\
  aw_entryStored (fold_left AppendDataBlock bs aw) = aw_entryStored aw + stored_size bs.
Proof.
  induction bs as [|b bs IH]; intros aw; cbn [fold_left stored_size foldr]; [split; [done|lia]|].
  destruct (IH (AppendDataBlock aw b)) as [-> ->]. split; [done|]. cbn. unfold stored_size. lia.
Qed.

(** Writing an entry, whole or block by block, appends exactly its encoding, keeps the
    offset and the checksum in step with the bytes written, and records where the entry
    starts and its stored payload size. *)
Theorem write_entry_appends (aw : ArchiveWriter) (P B : bytes) (e : FileEntry) (Hw : wrote aw P B) :
  let aw' := EndFileEntry (Trailer e) (fold_left AppendDataBlock (DataBlocks e)
    (BeginFileEntry (EntryType e) (EntrySalt e) (FrameHdr e) (MetaBlock e) (InterBlockPad e) aw)) in
  aw' = WriteFileEntry e aw /\ wrote aw' P (B ++ encode_entry e) /\
  LastEntry aw' = (len P + len B, stored_size (DataBlocks e)).
Proof.
  cbv zeta. rewrite streamed_is_whole. split; [done|]. split; [by apply wrote_entry|].
  unfold WriteFileEntry, writeTrailer, writeSealed, writePadding, LastEntry. cbn -[fold_left].
  match goal with |- context [fold_left AppendDataBlock ?bs ?a] =>
    destruct (entry_bookkeeping bs a) as [-> ->] end.
  cbn. destruct Hw as (_ & _ & ->). f_equal.
Qed.

(** The footer: end marker, checksum of everything before it, reserved zeros. *)
Definition footer_bytes (B : bytes) : bytes :=
  [zb EntryTypeEnd] ++ sha_sum (sha_write sha_init (masked (B ++ [zb EntryTypeEnd]))) ++ replicate 32 Byte.x00.

Lemma WriteFooter_out aw P B : wrote aw P B ->
  aw_out (WriteFooter aw) = B ++ [zb EntryTypeEnd] ++
    sha_sum (sha_write sha_init (masked ((P ++ B) ++ [zb EntryTypeEnd]))) ++ replicate 32 Byte.x00 /\
  aw_checksum (WriteFooter aw) = sha_sum (sha_write sha_init (masked ((P ++ B) ++ [zb EntryTypeEnd]))).
Proof.
  intros Hw. unfold WriteFooter. cbv zeta.
  pose proof (wrote_tee _ _ _ [zb EntryTypeEnd] Hw) as (Ho & Hh & _).
  cbn [aw_out aw_checksum raw_write]. rewrite Ho, Hh, cs_Sum_after, <- app_assoc.
  rewrite ztake_app by (by rewrite len_sha_sum). by rewrite <- !app_assoc.
Qed.

(** The footer of a finished archive holds the SHA-256 of every byte before it,
    incremental header count masked, including the bytes written before a resumed writer
    took over. *)
Theorem footer_covers_archive (aw : ArchiveWriter) (P B : bytes) (Hw : wrote aw P B) :
  P ++ aw_out (WriteFooter aw) = (P ++ B) ++ footer_bytes (P ++ B).
Proof.
  destruct (WriteFooter_out aw P B Hw) as [-> _]. unfold footer_bytes. by rewrite <- !app_assoc.
Qed.

Lemma wrote_new cek recipients : wrote (NewArchiveWriter cek recipients) [] [].
Proof. done. Qed.

(** Resuming after a checkpointed prefix: the writer continues the prefix's checksum. *)
Lemma wrote_resume keys P state : cs_done (cs_after P) = true -> sha_marshal (cs_h (cs_after P)) = state ->
  exists aw, ResumeArchiveWriter keys (len P) state = Ok aw /\ wrote aw P [].
Proof.
  intros Hd <-. unfold cs_after in *. destruct (flush_head false P) as [x|] eqn:E; [|done].
  cbn [cs_h] in *. unfold ResumeArchiveWriter, ResumeArchiveChecksum. rewrite sha_unmarshal_marshal.
  eexists. split; [done|]. split; [done|]. split; cbn [aw_hasher aw_offset newArchiveWriter].
  - rewrite app_nil_r. unfold cs_after. by rewrite E.
  - len_lia.
Qed.
End Writer.

(** ** Examples *)

(** A damaged but well-framed entry: one data block, no valid tags. *)
Definition sample_entry : FileEntry :=
  mk_entry EntryTypeFile (replicate 32 (zb 1)) (replicate 32 (zb 2)) (mk_block (replicate 12 (zb 3)) (str "metadata"))
    (replicate 300 (zb 4)) [mk_block (replicate 12 (zb 5)) (str "a sealed data block")]
    (mk_trailer (replicate 70 (zb 6)) (replicate 12 (zb 7)) (str "sealed trailer") (replicate 8 (zb 8))).

Definition sample_writer : @ArchiveWriter toy_sha := @NewArchiveWriter toy_sha (replicate 32 (zb 9)) (str "recipients").

Lemma write_entry_appends_witness :
  @LastEntry toy_sha (EndFileEntry (Trailer sample_entry) (fold_left AppendDataBlock (DataBlocks sample_entry)
    (BeginFileEntry EntryTypeFile (EntrySalt sample_entry) (FrameHdr sample_entry) (MetaBlock sample_entry)
       (InterBlockPad sample_entry) sample_writer))) = (0, 3).
Proof.
  destruct (@write_entry_appends toy_sha toy_sha_laws sample_writer [] [] sample_entry
    ltac:(split; [reflexivity|]; split; reflexivity)) as (_ & _ & Hl).
  etransitivity; [exact Hl|]. vm_compute. reflexivity.
Defined.

Lemma footer_covers_archive_witness :
  [] ++ @aw_out toy_sha (WriteFooter (tee (str "body") sample_writer)) = str "body" ++ @footer_bytes toy_sha (str "body").
Proof.
  exact (@footer_covers_archive toy_sha toy_sha_laws (tee (str "body") sample_writer) [] (str "body")
    ltac:(split; [reflexivity|]; split; reflexivity)).
Defined.
