(* ===== verification/Signatures.v ===== *)
(** * Signatures (archive/signature.go, crypto/signature.go, io/signature.go)

    SSH signatures over the footer checksum: their encoding, the signature block after the
    footer, verification of a stream without seeking, and signing an archive file in
    place. The SSH library is the interface [Ssh]; a file is its bytes. *)

From S2P Require Import Prelude Bytes IndexCodec Chunker Frames Checksum IOErrors.
Open Scope go_scope.

(** ** Files *)

(** [ReadAt] of [n] bytes, [WriteAt] and [Truncate] inside or at the end of a file. *)
Definition read_at (f : bytes) (off n : Z) : result bytes :=
  if (0 <=? off) && (off + n <=? len f) then Ok (ztake n (zdrop off f)) else errorf ErrOther "unexpected EOF".

Definition write_at (f : bytes) (off : Z) (p : bytes) : bytes := ztake off f ++ p ++ zdrop (off + len p) f.

Definition truncate (n : Z) (f : bytes) : bytes := ztake n f.

(** ** The SSH library *)

Record sshSignature := mk_sig { sig_Format : bytes; sig_Blob : bytes; sig_Rest : bytes }.

Class Ssh := {
  pubkey : Type;
  pk_Type : pubkey -> bytes;
  pk_Marshal : pubkey -> bytes;
  ParsePublicKey : bytes -> option pubkey;
  pk_rsaBits : pubkey -> option Z;
  pk_Verify : pubkey -> bytes -> sshSignature -> bool;
  sig_Marshal : sshSignature -> bytes;
  sig_Unmarshal : bytes -> option sshSignature;
  sha512 : bytes -> bytes
}.

Record Signer `{Ssh} := mk_signer {
  sg_PublicKey : pubkey;
  sg_Sign : bytes -> option sshSignature;
  sg_SignWithAlgorithm : option (bytes -> bytes -> option sshSignature)
}.

Definition sig_small (s : sshSignature) : Prop := len (sig_Format s) + len (sig_Blob s) + len (sig_Rest s) < 2 ^ 20.

Class SshLaws (SS : Ssh) : Prop := {
  pk_parse_marshal : forall k, ParsePublicKey (pk_Marshal k) = Some k;
  pk_marshal_len : forall k, len (pk_Marshal k) < 2 ^ 32;
  sig_unmarshal_marshal : forall s, sig_small s -> sig_Unmarshal (sig_Marshal s) = Some s;
  sig_marshal_len : forall s, sig_small s -> len (sig_Marshal s) < 2 ^ 32
}.

(** A signer makes signatures its key verifies, of its key's type or of the algorithm asked
    for. *)
Definition signer_ok `{Ssh} (sg : Signer) : Prop :=
  (forall d s, sg_Sign sg d = Some s ->
     pk_Verify (sg_PublicKey sg) d s = true /\ sig_Format s = pk_Type (sg_PublicKey sg) /\ sig_small s) /\
  (forall f d a s, sg_SignWithAlgorithm sg = Some f -> f d a = Some s ->
     pk_Verify (sg_PublicKey sg) d s = true /\ sig_Format s = a /\ sig_small s).

Definition KeyAlgoED25519 : bytes := str "ssh-ed25519".
Definition KeyAlgoSKED25519 : bytes := str "sk-ssh-ed25519@openssh.com".
Definition KeyAlgoECDSA256 : bytes := str "ecdsa-sha2-nistp256".
Definition KeyAlgoECDSA384 : bytes := str "ecdsa-sha2-nistp384".
Definition KeyAlgoECDSA521 : bytes := str "ecdsa-sha2-nistp521".
Definition KeyAlgoSKECDSA256 : bytes := str "sk-ecdsa-sha2-nistp256@openssh.com".
Definition KeyAlgoRSA : bytes := str "ssh-rsa".
Definition KeyAlgoRSASHA512 : bytes := str "rsa-sha2-512".

(** ** SSH signatures (crypto/signature.go) *)

Definition SignatureNamespace : bytes := str "sarc-archive".
Definition sshsigMagic : bytes := str "SSHSIG".
Definition sshsigVersion : Z := 1.
Definition sshsigHashAlgo : bytes := str "sha512".
Definition minRSABits : Z := 2048.

Definition allowedSignatureFormats (ty : bytes) : option bytes :=
  if bytes_eqb ty KeyAlgoRSA then Some KeyAlgoRSASHA512
  else if existsb (bytes_eqb ty) [KeyAlgoED25519; KeyAlgoSKED25519; KeyAlgoECDSA256; KeyAlgoECDSA384; KeyAlgoECDSA521; KeyAlgoSKECDSA256]
  then Some ty else None.

Definition appendSSHString (b s : bytes) : bytes := b ++ be_bytes 4 (len s) ++ s.

Section Sshsig.
Context `{SS : Ssh}.

Definition signedData (message : bytes) : bytes :=
  appendSSHString (appendSSHString (appendSSHString (appendSSHString sshsigMagic SignatureNamespace) []) sshsigHashAlgo) (sha512 message).

Definition checkRSASize (pub : pubkey) : result unit :=
  if negb (bytes_eqb (pk_Type pub) KeyAlgoRSA) then Ok tt
  else match pk_rsaBits pub with
       | None => errorf ErrOther "unreadable RSA key"
       | Some bits => if bits <? minRSABits then errorf ErrOther "RSA keys must have at least 2048 bits" else Ok tt
       end.

Definition SignMessage (sg : Signer) (message : bytes) : result bytes :=
  let pub := sg_PublicKey sg in
  match allowedSignatureFormats (pk_Type pub) with
  | None => errorf ErrOther "unsupported signing key type"
  | Some format =>
  if bytes_eqb (pk_Type pub) KeyAlgoSKED25519 || bytes_eqb (pk_Type pub) KeyAlgoSKECDSA256
  then errorf ErrOther "unsupported signing key type"
  else
    let? _ := checkRSASize pub in
    let data := signedData message in
    let? sig :=
      if bytes_eqb (pk_Type pub) KeyAlgoRSA
      then match sg_SignWithAlgorithm sg with
           | None => errorf ErrOther "RSA key cannot sign with SHA-512"
           | Some f => match f data format with Some s => Ok s | None => errorf ErrOther "sign" end
           end
      else match sg_Sign sg data with Some s => Ok s | None => errorf ErrOther "sign" end in
    let blob := sshsigMagic ++ be_bytes 4 sshsigVersion in
    let blob := appendSSHString blob (pk_Marshal pub) in
    let blob := appendSSHString blob SignatureNamespace in
    let blob := appendSSHString blob [] in
    let blob := appendSSHString blob sshsigHashAlgo in
    Ok (appendSSHString blob (sig_Marshal sig))
  end.

Record sshsig := mk_sshsig { ss_publicKey : bytes; ss_namespace : bytes; ss_hashAlgo : bytes; ss_signature : bytes }.

(** The field loop of [parseSSHSig]. *)
Fixpoint ssh_fields (n : nat) (rest : bytes) : result (list bytes * bytes) :=
  match n with
  | O => Ok ([], rest)
  | S n =>
      if len rest <? 4 then errorf ErrBadSignature "truncated"
      else
        let k := be_u32 rest in
        let rest := zdrop 4 rest in
        if len rest <? k then errorf ErrBadSignature "truncated"
        else let? '(fields, tail) := ssh_fields n (zdrop k rest) in Ok (ztake k rest :: fields, tail)
  end.

Definition parseSSHSig (blob : bytes) : result sshsig :=
  if (len blob <? len sshsigMagic + 4) || negb (bytes_eqb (ztake (len sshsigMagic) blob) sshsigMagic)
  then errorf ErrBadSignature "bad magic"
  else
    let rest := zdrop (len sshsigMagic) blob in
    if negb (be_u32 rest =? sshsigVersion) then errorf ErrBadSignature "unsupported version"
    else
      let? '(fields, tail) := ssh_fields 5 (zdrop 4 rest) in
      if negb (len tail =? 0) then errorf ErrBadSignature "trailing bytes"
      else match fields with
           | [key; ns; _; hash; sig] => Ok (mk_sshsig key ns hash sig)
           | _ => errorf ErrBadSignature "truncated"
           end.

Definition VerifyMessage (blob message : bytes) : result pubkey :=
  let? p := parseSSHSig blob in
  match ParsePublicKey (ss_publicKey p) with
  | None => errorf ErrBadSignature "public key"
  | Some pub =>
  match allowedSignatureFormats (pk_Type pub) with
  | None => errorf ErrBadSignature "unsupported key type"
  | Some format =>
  match checkRSASize pub with
  | Err _ => errorf ErrBadSignature "RSA size"
  | Ok _ =>
  if negb (bytes_eqb (ss_namespace p) SignatureNamespace) || negb (bytes_eqb (ss_hashAlgo p) sshsigHashAlgo)
  then errorf ErrBadSignature "namespace or hash algorithm is not the archive's"
  else match sig_Unmarshal (ss_signature p) with
  | None => errorf ErrBadSignature "signature encoding"
  | Some sig =>
  if negb (bytes_eqb (sig_Format sig) format) then errorf ErrBadSignature "signature type not allowed"
  else if pk_Verify pub (signedData message) sig then Ok pub else errorf ErrBadSignature "verify"
  end end end end.

(** ** Signing and verifying agree *)

Context `{L : !SshLaws SS}.

Lemma ssh_fields_app fs rest : Forall (fun f => len f < 2 ^ 32) fs ->
  ssh_fields (length fs) (concat (map (fun f => be_bytes 4 (len f) ++ f) fs) ++ rest) = Ok (fs, rest).
Proof.
  induction 1 as [|f fs Hf _ IH]; [done|]. cbn [length map concat ssh_fields]. rewrite <- !app_assoc.
  pose proof (len_nonneg f). rewrite (proj2 (Z.ltb_ge _ _)) by (rewrite len_app, len_be_bytes; len_lia).
  rewrite be_u32_app by lia. rewrite zdrop_app by (by rewrite len_be_bytes).
  rewrite (proj2 (Z.ltb_ge _ _)) by (rewrite len_app; len_lia). rewrite ztake_app, zdrop_app by done. by rewrite IH.
Qed.

Lemma be_u32_head n rest : 0 <= n < 2 ^ 32 -> be_u32 (be_bytes 4 n ++ rest) = n.
Proof. apply be_u32_app. Qed.

Lemma parseSSHSig_encode key sig : len key < 2 ^ 32 -> len sig < 2 ^ 32 ->
  parseSSHSig (appendSSHString (appendSSHString (appendSSHString (appendSSHString (appendSSHString
    (sshsigMagic ++ be_bytes 4 sshsigVersion) key) SignatureNamespace) []) sshsigHashAlgo) sig) =
  Ok (mk_sshsig key SignatureNamespace sshsigHashAlgo sig).
Proof.
  intros Hk Hs. unfold parseSSHSig, appendSSHString. rewrite <- !app_assoc.
  rewrite (proj2 (Z.ltb_ge _ _)) by (rewrite !len_app, !len_be_bytes; len_lia). cbn [orb].
  rewrite (ztake_app (len sshsigMagic)), zdrop_app by done. rewrite bytes_eqb_refl. cbn [negb].
  rewrite be_u32_app by (unfold sshsigVersion; lia). rewrite Z.eqb_refl. cbn [negb]. rewrite zdrop_app by done.
  pose proof (ssh_fields_app [key; SignatureNamespace; []; sshsigHashAlgo; sig] []) as Hf.
  cbn [length map concat] in Hf. rewrite <- !app_assoc, !app_nil_r in Hf. rewrite Hf; [done|].
  repeat (apply Forall_cons; split); try done.
Qed.

Lemma SignMessage_verifies sg message blob : signer_ok sg -> SignMessage sg message = Ok blob ->
  VerifyMessage blob message = Ok (sg_PublicKey sg).
Proof.
  intros [Hs Ha] Hm. unfold SignMessage in Hm. destruct (allowedSignatureFormats _) as [format|] eqn:Ef; [|done].
  destruct (_ || _); [done|]. destruct (checkRSASize _) as [[]|] eqn:Er; [|done]. cbv zeta in Hm.
  match type of Hm with match ?x with _ => _ end = _ => destruct x as [sig|] eqn:Esig; [|done] end.
  assert (pk_Verify (sg_PublicKey sg) (signedData message) sig = true /\ sig_Format sig = format /\ sig_small sig) as (Hv & Hf & Hsm).
  { unfold allowedSignatureFormats in Ef. destruct (bytes_eqb (pk_Type _) KeyAlgoRSA).
    - destruct (sg_SignWithAlgorithm sg) as [f|] eqn:Efn; [|done]. destruct (f _ _) as [s|] eqn:Es; [|done]. inv_ok Esig.
      injection Ef as <-. by eapply Ha.
    - destruct (sg_Sign sg _) as [s|] eqn:Es; [|done]. inv_ok Esig. destruct (existsb _ _); [|done]. injection Ef as <-. by apply Hs. }
  inv_ok Hm. unfold VerifyMessage. rewrite parseSSHSig_encode by (apply pk_marshal_len || by apply sig_marshal_len).
  cbn [ss_publicKey ss_namespace ss_hashAlgo ss_signature]. rewrite pk_parse_marshal, Ef, Er, !bytes_eqb_refl. cbn [negb orb].
  rewrite sig_unmarshal_marshal by done. by rewrite bytes_eqb_refl, Hv.
Qed.
End Sshsig.

(** ** The signature block (archive/signature.go) *)

Definition signatureMagic : bytes := str "SARCSIG1".
Definition SignatureTrailerSize : Z := 4 + len signatureMagic.
Definition MaxSignatureSize : Z := 16384.

Definition AppendSignatureBlock (dst signature : bytes) : result bytes :=
  if (len signature =? 0) || (MaxSignatureSize <? len signature) then errorf ErrOther "signature size"
  else Ok (dst ++ signature ++ le_bytes 4 (len signature) ++ signatureMagic).

Definition ParseSignatureTrailer (tail : bytes) : option Z :=
  if negb (len tail =? SignatureTrailerSize) || negb (bytes_eqb (zdrop 4 tail) signatureMagic) then None
  else let n := le_u32 tail in if (n =? 0) || (MaxSignatureSize <? n) then None else Some n.

(** ** Splitting, signing and verifying archives (io/signature.go) *)

Definition verifyHoldSize : Z := FooterSize + MaxSignatureSize + SignatureTrailerSize.
Definition verifyReadSize : Z := 1048576.

(** The archive proper and its signature, [None] when it is unsigned. *)
Definition splitSignatureTail (tail : bytes) : bytes * option bytes :=
  if len tail <? SignatureTrailerSize then (tail, None)
  else match ParseSignatureTrailer (zdrop (len tail - SignatureTrailerSize) tail) with
       | None => (tail, None)
       | Some n =>
           if len tail <? n + SignatureTrailerSize + FooterSize then (tail, None)
           else let start := len tail - SignatureTrailerSize - n in
                (ztake start tail, Some (ztake n (zdrop start tail)))
       end.

Definition splitSignature (ra : bytes) (size : Z) : iores (Z * option bytes) :=
  if size <? SignatureTrailerSize + FooterSize then IOk (size, None)
  else
    let@ trailer := or_fatal ErrCodeReadFailed "read archive end" (read_at ra (size - SignatureTrailerSize) SignatureTrailerSize) in
    match ParseSignatureTrailer trailer with
    | None => IOk (size, None)
    | Some n =>
        if size <? n + SignatureTrailerSize + FooterSize then IOk (size, None)
        else
          let proper := size - (SignatureTrailerSize + n) in
          let@ signature := or_fatal ErrCodeReadFailed "read signature" (read_at ra proper n) in
          IOk (proper, Some signature)
    end.

Section Signing.
Context `{SS : Ssh} `{H : Sha256}.

Record VerifyReport := mk_report {
  rp_ChecksumOK : bool;
  rp_Signed : bool;
  rp_Signer : option pubkey;
  rp_SignatureErr : option error
}.

(** One [Read] into [space] free bytes: what it returns, and whether the stream ended. *)
Definition read_some (space : Z) (pieces : list bytes) : bytes * list bytes * bool :=
  match pieces with
  | [] => ([], [], true)
  | p :: rest => if len p <=? space then (p, rest, false) else (ztake space p, zdrop space p :: rest, false)
  end.

(** The read loop of [VerifyArchive]: the bytes held back at the end, and the checksum of
    those before. *)
Fixpoint verify_loop (fuel : nat) (pieces : list bytes) (fin : option error) (held : bytes) (sum : ArchiveChecksum) :
  option (result (bytes * ArchiveChecksum)) :=
  match fuel with
  | O => None
  | S fuel =>
      let '(got, pieces, stop) := read_some (verifyHoldSize + verifyReadSize - len held) pieces in
      let held := held ++ got in
      let '(held, sum) :=
        if verifyHoldSize <? len held
        then (zdrop (len held - verifyHoldSize) held, cs_Write sum (ztake (len held - verifyHoldSize) held))
        else (held, sum) in
      if stop then Some (match fin with Some e => Err e | None => Ok (held, sum) end)
      else verify_loop fuel pieces fin held sum
  end.

(** The end of [VerifyArchive]. *)
Definition verify_end (held : bytes) (sum : ArchiveChecksum) : iores VerifyReport :=
  let '(proper, signature) := splitSignatureTail held in
  if len proper <? FooterSize then IErr (fatal ErrCodeTruncated "archive too small to contain a footer")
  else
    let sum := cs_Write sum (ztake (len proper - FooterSize) proper) in
    let computed := cs_Sum sum in
    let stored := ztake HMACSize (zdrop (len proper - FooterSize) proper) in
    let ok := bytes_eqb computed stored in
    match signature with
    | None => IOk (mk_report ok false None None)
    | Some signature => match VerifyMessage signature computed with
                        | Ok key => IOk (mk_report ok true (Some key) None)
                        | Err e => IOk (mk_report ok true None (Some e))
                        end
    end.

Definition VerifyArchive (fuel : nat) (r : reader) : option (iores VerifyReport) :=
  match verify_loop fuel (rd_pieces r) (rd_end r) [] NewArchiveChecksum with
  | None => None
  | Some (Err _) => Some (IErr (fatal ErrCodeReadFailed "read archive"))
  | Some (Ok (held, sum)) => Some (verify_end held sum)
  end.

Definition signatureBlock (checksum : bytes) (signer : Signer) : iores bytes :=
  let@ signature := or_fatal ErrCodeInvalidOption "sign archive" (SignMessage signer checksum) in
  or_fatal ErrCodeInvalidOption "sign archive" (AppendSignatureBlock [] signature).

(** The signature block replaces everything from [offset] on. *)
Definition writeSignature (f : bytes) (offset : Z) (checksum : bytes) (signer : Signer) : iores bytes :=
  let@ block := signatureBlock checksum signer in
  IOk (truncate (offset + len block) (write_at f offset block)).

Definition archiveChecksum (ra : bytes) (proper : Z) : iores bytes :=
  if proper <? len Magic + FooterSize then IErr (fatal ErrCodeTruncated "archive too small to contain a footer")
  else
    let@ magic := or_fatal ErrCodeReadFailed "read archive" (read_at ra 0 4) in
    if negb (bytes_eqb magic Magic) then IErr (fatal ErrCodeBadMagic "not a sarc archive")
    else
      let sum := cs_Write NewArchiveChecksum (ztake (proper - FooterSize) ra) in
      let@ stored := or_fatal ErrCodeReadFailed "read footer" (read_at ra (proper - FooterSize) HMACSize) in
      let computed := cs_Sum sum in
      if negb (bytes_eqb computed stored)
      then IErr (fatal ErrCodeIntegrityFail "archive checksum mismatch; refusing to sign a corrupted archive")
      else IOk computed.

(** [SignArchiveFile]: the file's new content. *)
Definition SignArchiveFile (f : bytes) (signer : Signer) : iores bytes :=
  let@ '(proper, _) := splitSignature f (len f) in
  let@ checksum := archiveChecksum f proper in
  writeSignature f proper checksum signer.

Definition signedBy (signature checksum : bytes) (pub : pubkey) : bool :=
  match VerifyMessage signature checksum with
  | Ok got => bytes_eqb (pk_Marshal got) (pk_Marshal pub)
  | Err _ => false
  end.

(** ** Holding back the end of a stream loses nothing *)

Context `{HL : !Sha256Laws H} `{L : !SshLaws SS}.

Lemma ParseSignatureTrailer_bound tail n : ParseSignatureTrailer tail = Some n -> 0 < n <= MaxSignatureSize.
Proof.
  unfold ParseSignatureTrailer. destruct (_ || _); [done|]. destruct (_ || _) eqn:E; [done|]. intros [= <-]. b2p.
  pose proof (le_u32_range tail). lia.
Qed.

Lemma splitSignatureTail_suffix pre held : verifyHoldSize <= len held ->
  splitSignatureTail (pre ++ held) = (pre ++ fst (splitSignatureTail held), snd (splitSignatureTail held)) /\
  FooterSize <= len (fst (splitSignatureTail held)).
Proof.
  intros Hh. unfold verifyHoldSize in Hh. pose proof (len_nonneg pre). unfold splitSignatureTail.
  assert (0 <= SignatureTrailerSize /\ 0 <= FooterSize /\ 0 <= MaxSignatureSize) as (Ht & Hf & Hm) by (vm_compute; repeat split; discriminate).
  rewrite len_app, !(proj2 (Z.ltb_ge _ _)) by lia. rewrite zdrop_app_ge by lia.
  replace (len pre + len held - SignatureTrailerSize - len pre) with (len held - SignatureTrailerSize) by lia.
  destruct (ParseSignatureTrailer _) as [n|] eqn:Ep; [|split; [done|cbn; lia]]. apply ParseSignatureTrailer_bound in Ep.
  rewrite !(proj2 (Z.ltb_ge _ _)) by lia. cbn [fst snd]. rewrite ztake_app_ge, zdrop_app_ge by lia.
  replace (len pre + len held - SignatureTrailerSize - n - len pre) with (len held - SignatureTrailerSize - n) by lia.
  split; [done|]. rewrite len_ztake by lia. lia.
Qed.

Lemma cs_after_nil : cs_after [] = NewArchiveChecksum.
Proof. done. Qed.

Lemma verify_end_suffix pre held : (len held < verifyHoldSize -> pre = []) ->
  verify_end held (cs_after pre) = verify_end (pre ++ held) NewArchiveChecksum.
Proof.
  intros Hp. destruct (Z.lt_ge_cases (len held) verifyHoldSize) as [Hl|Hl]; [by rewrite (Hp Hl)|].
  destruct (splitSignatureTail_suffix pre held Hl) as [He Hf]. unfold verify_end. rewrite He. pose proof (len_nonneg pre).
  destruct (splitSignatureTail held) as [proper sig]. cbn [fst snd] in *.
  rewrite len_app, !(proj2 (Z.ltb_ge _ _)) by lia. rewrite ztake_app_ge, zdrop_app_ge by lia.
  replace (len pre + len proper - FooterSize - len pre) with (len proper - FooterSize) by lia.
  rewrite <- cs_after_nil, !cs_Write_after. done.
Qed.

(** After reading [pieces] the loop holds the end of the stream and has hashed the rest. *)
Lemma verify_loop_spec : forall fuel pieces fin held pre, len held <= verifyHoldSize -> (len held < verifyHoldSize -> pre = []) ->
  (length pieces + length (concat pieces) < fuel)%nat ->
  exists pre' held', verify_loop fuel pieces fin held (cs_after pre) =
      Some (match fin with Some e => Err e | None => Ok (held', cs_after pre') end) /\
    pre' ++ held' = pre ++ held ++ concat pieces /\ (len held' < verifyHoldSize -> pre' = []).
Proof.
  induction fuel as [|fuel IH]; intros pieces fin held pre Hl Hp Hf; [lia|]. cbn [verify_loop].
  assert (0 < verifyReadSize) as Hrs by done. assert (0 < verifyHoldSize) as Hhs by done.
  destruct (read_some _ pieces) as [[got rest] stop] eqn:Er.
  assert (got ++ concat rest = concat pieces /\ (stop = true -> concat pieces = []) /\
    (stop = false -> (length rest + length (concat rest) < length pieces + length (concat pieces))%nat)) as (Hg & Hs & Hm).
  { unfold read_some in Er. destruct pieces as [|p pieces]; [by injection Er as <- <- <-|].
    destruct (Z.leb_spec (len p) (verifyHoldSize + verifyReadSize - len held)); injection Er as <- <- <-; cbn [concat length].
    - split; [done|]. split; [done|]. rewrite length_app. lia.
    - rewrite app_assoc, ztake_zdrop. split; [done|]. split; [done|]. intros _. rewrite !length_app. unfold zdrop. rewrite length_drop.
      unfold len in *. lia. }
  assert (exists pre1 held1, (if verifyHoldSize <? len (held ++ got)
      then (zdrop (len (held ++ got) - verifyHoldSize) (held ++ got), cs_Write (cs_after pre) (ztake (len (held ++ got) - verifyHoldSize) (held ++ got)))
      else (held ++ got, cs_after pre)) = (held1, cs_after pre1) /\ pre1 ++ held1 = pre ++ held ++ got /\
      len held1 <= verifyHoldSize /\ (len held1 < verifyHoldSize -> pre1 = [])) as (pre1 & held1 & -> & He & Hl1 & Hp1).
  { destruct (Z.ltb_spec verifyHoldSize (len (held ++ got))) as [Hlt|Hge].
    - eexists _, _. rewrite cs_Write_after. split; [reflexivity|]. rewrite <- app_assoc, ztake_zdrop. split; [done|].
      rewrite len_zdrop by lia. split; [lia|]. lia.
    - exists pre, (held ++ got). split; [done|]. split; [done|]. split; [done|]. intros Hx. apply Hp. rewrite len_app in Hx.
      pose proof (len_nonneg got). lia. }
  destruct stop.
  - exists pre1, held1. split; [by destruct fin|]. split; [|done]. rewrite He. rewrite Hs in * by done.
    apply app_eq_nil in Hg as [-> _]. done.
  - destruct (IH rest fin held1 pre1 Hl1 Hp1) as (pre' & held' & Hv & Hc & Hx); [specialize (Hm eq_refl); lia|].
    exists pre', held'. split; [done|]. split; [|done]. rewrite Hc, <- Hg, app_assoc, He. by rewrite <- !app_assoc.
Qed.

(** Verifying a stream without seeking is verifying the whole archive: however the reads
    split it, [VerifyArchive] terminates and reports what splitting, hashing and checking the
    complete content reports, or the read error. *)
Theorem verify_streams (r : reader) :
  VerifyArchive (S (length (rd_pieces r) + length (concat (rd_pieces r)))) r =
  Some (match rd_end r with
        | Some _ => IErr (fatal ErrCodeReadFailed "read archive")
        | None => verify_end (concat (rd_pieces r)) NewArchiveChecksum
        end).
Proof.
  unfold VerifyArchive. rewrite <- cs_after_nil.
  destruct (verify_loop_spec (S (length (rd_pieces r) + length (concat (rd_pieces r)))) (rd_pieces r) (rd_end r) [] [])
    as (pre & held & -> & He & Hp); [done|done|lia|].
  destruct (rd_end r); [done|]. rewrite verify_end_suffix by done. by rewrite He, cs_after_nil.
Qed.

(** ** Signing an archive file *)

Lemma read_at_ok f off n : 0 <= off -> 0 <= n -> off + n <= len f -> read_at f off n = Ok (ztake n (zdrop off f)).
Proof.
  intros. unfold read_at. rewrite (proj2 (Z.leb_le 0 off)), (proj2 (Z.leb_le (off + n) (len f))) by done. done.
Qed.

Lemma splitSignature_tail f :
  splitSignature f (len f) = IOk (len (fst (splitSignatureTail f)), snd (splitSignatureTail f)) /\
  exists rest, f = fst (splitSignatureTail f) ++ rest.
Proof.
  unfold splitSignature, splitSignatureTail. pose proof (len_nonneg f).
  assert (0 < SignatureTrailerSize /\ 0 < FooterSize) as [Ht Hf] by (vm_compute; split; reflexivity).
  destruct (Z.ltb_spec (len f) (SignatureTrailerSize + FooterSize)) as [Hs|Hs].
  - assert ((if len f <? SignatureTrailerSize then (f, None) else
      match ParseSignatureTrailer (zdrop (len f - SignatureTrailerSize) f) with
      | None => (f, None)
      | Some n => if len f <? n + SignatureTrailerSize + FooterSize then (f, None) else
          (ztake (len f - SignatureTrailerSize - n) f, Some (ztake n (zdrop (len f - SignatureTrailerSize - n) f))) end) = (f, None)) as ->.
    { destruct (len f <? _); [done|]. destruct (ParseSignatureTrailer _) as [n|] eqn:Ep; [|done].
      apply ParseSignatureTrailer_bound in Ep. by rewrite (proj2 (Z.ltb_lt _ _)) by lia. }
    split; [done|]. exists []. by rewrite app_nil_r.
  - rewrite (proj2 (Z.ltb_ge (len f) SignatureTrailerSize)) by lia. rewrite read_at_ok by lia. cbn [or_fatal].
    rewrite (ztake_all SignatureTrailerSize) by (rewrite len_zdrop by lia; lia).
    destruct (ParseSignatureTrailer _) as [n|] eqn:Ep; [|split; [done|]; exists []; by rewrite app_nil_r].
    apply ParseSignatureTrailer_bound in Ep.
    destruct (Z.ltb_spec (len f) (n + SignatureTrailerSize + FooterSize)); [split; [done|]; exists []; by rewrite app_nil_r|].
    replace (len f - (SignatureTrailerSize + n)) with (len f - SignatureTrailerSize - n) by lia.
    rewrite read_at_ok by lia. cbn [or_fatal fst snd]. rewrite len_ztake by lia. split; [done|].
    eexists. symmetry. apply ztake_zdrop.
Qed.

(** The reserved bytes of a footer are no trailer. *)
Lemma split_unsigned b : splitSignatureTail (b ++ replicate 32 Byte.x00) = (b ++ replicate 32 Byte.x00, None).
Proof.
  unfold splitSignatureTail. destruct (_ <? _); [done|]. rewrite len_app, len_replicate. change (Z.of_nat 32) with 32.
  change SignatureTrailerSize with 12. rewrite zdrop_app_ge by lia.
  replace (len b + 32 - 12 - len b) with 20 by lia. reflexivity.
Qed.

(** Splitting finds the block that was appended. *)
Lemma splitSignatureTail_block proper sig : FooterSize <= len proper -> 0 < len sig <= MaxSignatureSize ->
  splitSignatureTail (proper ++ sig ++ le_bytes 4 (len sig) ++ signatureMagic) = (proper, Some sig).
Proof.
  intros Hp Hs. unfold splitSignatureTail.
  assert (len (le_bytes 4 (len sig) ++ signatureMagic) = SignatureTrailerSize) as Ht by (rewrite len_app, len_le_bytes; done).
  assert (0 <= SignatureTrailerSize /\ 0 <= FooterSize) as [Ht0 Hf0] by (vm_compute; split; discriminate).
  rewrite !(len_app proper), !(len_app sig), Ht. rewrite (proj2 (Z.ltb_ge _ _)) by lia.
  replace (len proper + (len sig + SignatureTrailerSize) - SignatureTrailerSize) with (len proper + len sig) by lia.
  rewrite app_assoc at 1. rewrite (zdrop_app (len proper + len sig) (proper ++ sig)) by (by rewrite len_app).
  unfold ParseSignatureTrailer at 1. rewrite Ht, Z.eqb_refl, zdrop_app, bytes_eqb_refl by (by rewrite len_le_bytes). cbn [negb orb].
  unfold MaxSignatureSize in Hs. rewrite le_u32_app by lia.
  rewrite (proj2 (Z.eqb_neq _ _)), (proj2 (Z.ltb_ge _ _)) by (unfold MaxSignatureSize; lia). cbn [orb].
  rewrite (proj2 (Z.ltb_ge _ _)) by lia. replace (len proper + len sig - len sig) with (len proper) by lia.
  by rewrite (ztake_app (len proper)), zdrop_app, ztake_app by done.
Qed.

Lemma signed_file f signer f' : signer_ok signer -> SignArchiveFile f signer = IOk f' ->
  exists sig, f' = fst (splitSignatureTail f) ++ sig ++ le_bytes 4 (len sig) ++ signatureMagic /\
    splitSignatureTail f' = (fst (splitSignatureTail f), Some sig) /\
    verify_end f' NewArchiveChecksum = IOk (mk_report true true (Some (sg_PublicKey signer)) None).
Proof.
  intros Hok Hs. unfold SignArchiveFile in Hs. destruct (splitSignature_tail f) as [Hsplit [rest Hf]]. rewrite Hsplit in Hs.
  set (proper := fst (splitSignatureTail f)) in *. unfold archiveChecksum in Hs.
  destruct (Z.ltb_spec (len proper) (len Magic + FooterSize)) as [|Hl]; [done|]. change (len Magic) with 4 in Hl.
  assert (0 < FooterSize /\ HMACSize <= FooterSize) as [Hf0 Hh] by (vm_compute; split; [reflexivity|discriminate]).
  destruct (read_at f 0 4) as [magic|]; [|done]. cbn [or_fatal] in Hs. destruct (negb _); [done|].
  assert (0 <= HMACSize /\ len proper <= len f) as [Hh0 Hpf] by (split; [done|rewrite Hf, len_app; pose proof (len_nonneg rest); lia]).
  rewrite read_at_ok in Hs by lia. cbn [or_fatal] in Hs.
  match type of Hs with context [negb (bytes_eqb ?a ?b)] => destruct (bytes_eqb a b) eqn:Ec; [|done] end. cbn [negb] in Hs.
  assert (ztake (len proper - FooterSize) f = ztake (len proper - FooterSize) proper) as Ht
    by (rewrite Hf; apply ztake_app_le; lia).
  assert (ztake HMACSize (zdrop (len proper - FooterSize) f) = ztake HMACSize (zdrop (len proper - FooterSize) proper)) as Hz.
  { rewrite Hf, zdrop_app_le by lia. apply ztake_app_le. rewrite len_zdrop by lia. lia. }
  rewrite Ht, Hz in *. unfold writeSignature, signatureBlock in Hs.
  destruct (SignMessage signer _) as [sig|] eqn:Esig; [|done]. cbn [or_fatal] in Hs.
  unfold AppendSignatureBlock in Hs. destruct (_ || _) eqn:Eb; [done|]. apply orb_false_iff in Eb as [Eb1 Eb2]. b2p.
  cbn [or_fatal] in Hs. apply IOk_inj in Hs. exists sig.
  set (block := sig ++ le_bytes 4 (len sig) ++ signatureMagic).
  assert (f' = proper ++ block) as ->.
  { rewrite <- Hs, app_nil_l. fold block. unfold truncate, write_at. rewrite Hf at 1. rewrite (ztake_app (len proper)) by done. rewrite app_assoc. apply ztake_app. by rewrite len_app. }
  split; [done|]. pose proof (len_nonneg sig).
  assert (splitSignatureTail (proper ++ block) = (proper, Some sig)) as Hsp by (apply splitSignatureTail_block; lia).
  split; [done|]. unfold verify_end. rewrite Hsp. rewrite (proj2 (Z.ltb_ge _ _)) by lia.
  rewrite Ec in *. by rewrite bytes_eqb_refl, (SignMessage_verifies signer _ sig Hok Esig).
Qed.

(** C27. Signing an archive file in place leaves the archive proper untouched, replaces any
    signature it had, and the signed file verifies: the checksum matches, and the reported
    signer is the signing key. *)
Theorem sign_then_verify (f : bytes) (signer : Signer) (f' : bytes) (Hok : signer_ok signer)
  (Hsign : SignArchiveFile f signer = IOk f') (r : reader) (Hr : concat (rd_pieces r) = f') (Hend : rd_end r = None) :
  fst (splitSignatureTail f') = fst (splitSignatureTail f) /\
  VerifyArchive (S (length (rd_pieces r) + length f')) r = Some (IOk (mk_report true true (Some (sg_PublicKey signer)) None)).
Proof.
  destruct (signed_file f signer f' Hok Hsign) as (sig & _ & Hsp & Hv). rewrite Hsp. split; [done|].
  unfold VerifyArchive. rewrite <- cs_after_nil, <- Hr.
  destruct (verify_loop_spec (S (length (rd_pieces r) + length (concat (rd_pieces r)))) (rd_pieces r) (rd_end r) [] [])
    as (pre & held & -> & He & Hp); [done|done|lia|].
  rewrite Hend. rewrite verify_end_suffix by done. by rewrite He, !app_nil_l, Hr, Hv.
Qed.

(** A reported signer really signed: if verification reports a signer, its key is of an
    allowed type, an RSA key of at least 2048 bits, and it verified a signature of the format
    fixed for that type over the archive-namespaced hash of the checksum recomputed from the
    archive's own bytes. *)
Theorem signer_is_verified (content : bytes) (rep : VerifyReport) (key : pubkey)
  (Hv : verify_end content NewArchiveChecksum = IOk rep) (Hk : rp_Signer rep = Some key) :
  let proper := fst (splitSignatureTail content) in
  exists sig format, allowedSignatureFormats (pk_Type key) = Some format /\ sig_Format sig = format /\
    checkRSASize key = Ok tt /\
    pk_Verify key (signedData (sha_sum (sha_write sha_init (masked (ztake (len proper - FooterSize) proper))))) sig = true.
Proof.
  cbv zeta. unfold verify_end in Hv. destruct (splitSignatureTail content) as [proper sigblob]. cbn [fst].
  destruct (_ <? _); [done|]. rewrite <- cs_after_nil, cs_Write_after, cs_Sum_after, app_nil_l in Hv.
  destruct sigblob as [blob|]; [|by inv_iok Hv].
  destruct (VerifyMessage blob _) as [k|] eqn:Em; [|by inv_iok Hv]. inv_iok Hv. cbn in Hk. injection Hk as ->.
  unfold VerifyMessage in Em. destruct (parseSSHSig blob) as [p|]; [|done]. destruct (ParsePublicKey _) as [pub|]; [|done].
  destruct (allowedSignatureFormats _) as [format|] eqn:Ef; [|done]. destruct (checkRSASize pub) as [[]|] eqn:Er; [|done].
  destruct (_ || _); [done|]. destruct (sig_Unmarshal _) as [sig|]; [|done]. destruct (negb _) eqn:En; [done|]. b2p.
  destruct (pk_Verify _ _ _) eqn:Ev; [|done]. apply Ok_inj in Em as ->. by exists sig, format.
Qed.
End Signing.

(** ** Examples

    A library with one key, whose signature of some data is the data's length. *)
Definition toy_ssh : Ssh := {|
  pubkey := unit;
  pk_Type _ := KeyAlgoED25519;
  pk_Marshal _ := str "key";
  ParsePublicKey _ := Some tt;
  pk_rsaBits _ := None;
  pk_Verify _ d s := bytes_eqb (sig_Blob s) (be_bytes 4 (len d));
  sig_Marshal s := le_bytes 4 (len (sig_Format s)) ++ le_bytes 4 (len (sig_Blob s)) ++ sig_Format s ++ sig_Blob s ++ sig_Rest s;
  sig_Unmarshal b :=
    let n := le_u32 b in let m := le_u32 (zdrop 4 b) in let b := zdrop 4 (zdrop 4 b) in
    Some (mk_sig (ztake n b) (ztake m (zdrop n b)) (zdrop m (zdrop n b)));
  sha512 m := m
|}.

Lemma toy_ssh_laws : SshLaws toy_ssh.
Proof.
  split.
  - intros []. reflexivity.
  - intros k. vm_compute. reflexivity.
  - intros [f b t] Hs. unfold sig_small in Hs. cbn [sig_Format sig_Blob sig_Rest] in Hs.
    pose proof (len_nonneg f). pose proof (len_nonneg b). pose proof (len_nonneg t).
    cbn [sig_Unmarshal sig_Marshal toy_ssh sig_Format sig_Blob sig_Rest].
    rewrite le_u32_app by lia. rewrite !(zdrop_app 4 (le_bytes 4 _)) by (by rewrite len_le_bytes). rewrite le_u32_app by lia.
    by rewrite !(ztake_app (len f)), !(zdrop_app (len f)), ztake_app, zdrop_app by done.
  - intros [f b t] Hs. unfold sig_small in Hs. cbn [sig_Format sig_Blob sig_Rest] in Hs.
    cbn [sig_Marshal toy_ssh sig_Format sig_Blob sig_Rest]. rewrite !len_app, !len_le_bytes. lia.
Defined.

Definition toy_signer : @Signer toy_ssh :=
  @mk_signer toy_ssh tt (fun d => Some (mk_sig KeyAlgoED25519 (be_bytes 4 (len d)) [])) None.

Lemma toy_signer_ok : @signer_ok toy_ssh toy_signer.
Proof.
  split; [|discriminate]. intros d s. cbn [sg_Sign toy_signer]. intros [= <-]. cbn [pk_Verify toy_ssh sig_Blob sig_Format].
  rewrite bytes_eqb_refl. split; [reflexivity|]. split; [reflexivity|]. unfold sig_small. cbn [sig_Format sig_Blob sig_Rest].
  rewrite len_be_bytes. vm_compute. reflexivity.
Defined.

(** An archive of nothing but a magic, an end marker and a footer. *)
Definition sample_proper : bytes :=
  Magic ++ [Byte.x00] ++ @sha_sum toy_sha (sha_write sha_init (Magic ++ [Byte.x00])) ++ replicate 32 Byte.x00.

Definition sample_signed : bytes :=
  match @SignArchiveFile toy_ssh toy_sha sample_proper toy_signer with IOk f => f | IErr _ => [] end.

Lemma verify_streams_witness :
  @VerifyArchive toy_ssh toy_sha (S (2 + length sample_proper)) (mk_reader [ztake 7 sample_proper; zdrop 7 sample_proper] None) =
  Some (IOk (@mk_report toy_ssh true false None None)).
Proof.
  exact (@verify_streams toy_ssh toy_sha toy_sha_laws (mk_reader [ztake 7 sample_proper; zdrop 7 sample_proper] None)).
Defined.

Lemma sign_then_verify_witness :
  fst (splitSignatureTail sample_signed) = sample_proper /\
  @VerifyArchive toy_ssh toy_sha (S (1 + length sample_signed)) (mk_reader [sample_signed] None) =
    Some (IOk (@mk_report toy_ssh true true (Some tt) None)).
Proof.
  exact (@sign_then_verify toy_ssh toy_sha toy_sha_laws toy_ssh_laws sample_proper toy_signer sample_signed toy_signer_ok
    ltac:(vm_compute; reflexivity) (mk_reader [sample_signed] None) (app_nil_r sample_signed) eq_refl).
Defined.

Lemma signer_is_verified_witness :
  exists sig format, allowedSignatureFormats KeyAlgoED25519 = Some format /\ sig_Format sig = format /\
    @checkRSASize toy_ssh tt = Ok tt /\
    @pk_Verify toy_ssh tt (@signedData toy_ssh (@sha_sum toy_sha (sha_write sha_init (masked (Magic ++ [Byte.x00]))))) sig = true.
Proof.
  exact (@signer_is_verified toy_ssh toy_sha toy_sha_laws sample_signed (@mk_report toy_ssh true true (Some tt) None) tt
    ltac:(vm_compute; reflexivity) eq_refl).
Defined.
