(* ===== verification/Recipients.v ===== *)
(** * Credentials and the recipient block (crypto/cek.go, crypto/keyfile.go,
    archive/recipients.go)

    The recipient block holds one wrapped copy of the content-encryption key (CEK) per
    credential. The age library is external (class [Age]): encrypting to recipients, and a
    decryption that yields the payload or fails in one of the ways the source
    distinguishes. *)

From S2P Require Import Prelude Bytes IndexCodec Crypto Checksum.
Open Scope go_scope.

Definition MinPasswordIterations : Z := PBKDF2Iter.
Definition MaxPasswordIterations : Z := 10000000.
Definition MinKeyFileSize : Z := KeySize.
Definition MaxKeyFileSize : Z := 1048576.
Definition passwordWrapAAD : bytes := str "sarc password recipient".
Definition keyFileWrapLabel : bytes := str "sarc key file recipient".
Definition keyFilePasswordWrapLabel : bytes := str "sarc key file and password recipient".

Record PasswordWrap := mk_pw { pw_Iterations : Z; pw_Salt : bytes; pw_Nonce : bytes; pw_Sealed : bytes }.
Record KeyFileWrap := mk_kw { kw_Salt : bytes; kw_Nonce : bytes; kw_Sealed : bytes }.

(** How [age.Decrypt] ends: the payload, or an error that is a [NoIdentityMatchError] or
    not, with or without an identity failure recorded by [recordIdentityFailures]. *)
Inductive age_result := AgePlain (payload : bytes) | AgeFailed (noMatch identityFailed : bool).

Class Age := {
  age_recipient : Type;
  age_identity : Type;
  age_encrypt : bytes -> list age_recipient -> rng -> result bytes;
  age_decrypt : bytes -> list age_identity -> age_result
}.

Section Wraps.
Context `{C : Crypto} `{A : Age}.

(** ** Wrapping with a password *)

Definition stretchPassword (password salt : bytes) (iterations : Z) : bytes :=
  pbkdf2_sha256 password salt iterations KeySize.

Definition WrapCEKWithPassword (cek password : bytes) (r : rng) : PasswordWrap * rng :=
  let '(salt, r) := draw SaltSize r in
  let '(nonce, r) := draw NonceSize r in
  let kek := stretchPassword password salt MinPasswordIterations in
  (mk_pw MinPasswordIterations salt nonce (gcm_seal kek nonce cek passwordWrapAAD), r).

Definition UnwrapCEKWithPassword (w : PasswordWrap) (password : bytes) : result bytes :=
  if (pw_Iterations w <? MinPasswordIterations) || (MaxPasswordIterations <? pw_Iterations w)
  then errorf ErrOther "password wrap iterations out of range"
  else match gcm_open (stretchPassword password (pw_Salt w) (pw_Iterations w)) (pw_Nonce w) (pw_Sealed w) passwordWrapAAD with
       | Some cek => Ok cek
       | None => errorf ErrWrongCredential ""
       end.

(** ** Wrapping with a key file *)

Definition CheckKeyFileSize (key : bytes) : bool :=
  negb ((len key <? MinKeyFileSize) || (MaxKeyFileSize <? len key)).

Definition keyFileKEK (key salt : bytes) : bytes := hkdf_key key salt keyFileWrapLabel KeySize.
Definition keyFilePasswordKEK (stretched key salt : bytes) : bytes :=
  hkdf_key (stretched ++ key) salt keyFilePasswordWrapLabel KeySize.

Definition WrapCEKWithKeyFile (cek key : bytes) (r : rng) : result KeyFileWrap * rng :=
  if negb (CheckKeyFileSize key) then (errorf ErrKeyFileSize "", r)
  else
    let '(salt, r) := draw SaltSize r in
    let '(nonce, r) := draw NonceSize r in
    (Ok (mk_kw salt nonce (gcm_seal (keyFileKEK key salt) nonce cek keyFileWrapLabel)), r).

Fixpoint UnwrapCEKWithKeyFile (w : KeyFileWrap) (keys : list bytes) : result bytes :=
  match keys with
  | [] => errorf ErrWrongCredential ""
  | key :: keys =>
      if negb (CheckKeyFileSize key) then UnwrapCEKWithKeyFile w keys
      else match gcm_open (keyFileKEK key (kw_Salt w)) (kw_Nonce w) (kw_Sealed w) keyFileWrapLabel with
           | Some cek => Ok cek
           | None => UnwrapCEKWithKeyFile w keys
           end
  end.

Definition WrapCEKWithKeyFileAndPassword (cek key password : bytes) (r : rng) : result PasswordWrap * rng :=
  if negb (CheckKeyFileSize key) then (errorf ErrKeyFileSize "", r)
  else if bytes_eqb password [] then (errorf ErrOther "empty password", r)
  else
    let '(salt, r) := draw SaltSize r in
    let '(nonce, r) := draw NonceSize r in
    let kek := keyFilePasswordKEK (stretchPassword password salt MinPasswordIterations) key salt in
    (Ok (mk_pw MinPasswordIterations salt nonce (gcm_seal kek nonce cek keyFilePasswordWrapLabel)), r).

Fixpoint unwrap_key_password (w : PasswordWrap) (stretched : bytes) (keys : list bytes) : result bytes :=
  match keys with
  | [] => errorf ErrWrongCredential ""
  | key :: keys =>
      if negb (CheckKeyFileSize key) then unwrap_key_password w stretched keys
      else match gcm_open (keyFilePasswordKEK stretched key (pw_Salt w)) (pw_Nonce w) (pw_Sealed w) keyFilePasswordWrapLabel with
           | Some cek => Ok cek
           | None => unwrap_key_password w stretched keys
           end
  end.

Definition UnwrapCEKWithKeyFileAndPassword (w : PasswordWrap) (keys : list bytes) (password : bytes) : result bytes :=
  if (pw_Iterations w <? MinPasswordIterations) || (MaxPasswordIterations <? pw_Iterations w)
  then errorf ErrOther "wrap iterations out of range"
  else if bytes_eqb password [] || (len keys =? 0) then errorf ErrWrongCredential ""
  else unwrap_key_password w (stretchPassword password (pw_Salt w) (pw_Iterations w)) keys.

(** ** Wrapping for age recipients *)

Definition WrapCEKForAge (cek : bytes) (recipients : list age_recipient) (r : rng) : result bytes :=
  if len recipients =? 0 then errorf ErrOther "no age recipients" else age_encrypt cek recipients r.

Definition UnwrapCEKWithAge (blob : bytes) (identities : list age_identity) : result bytes :=
  if len identities =? 0 then errorf ErrWrongCredential ""
  else match age_decrypt blob identities with
       | AgeFailed true _ => errorf ErrWrongCredential ""
       | AgeFailed false true => errorf ErrIdentity "identity failed"
       | AgeFailed false false => errorf ErrOther "age decrypt"
       | AgePlain plain => if negb (len plain =? KeySize) then errorf ErrOther "age payload size" else Ok plain
       end.

(** ** The block *)

Definition stanzaTypePassword : Z := 1.
Definition stanzaTypeAge : Z := 2.
Definition stanzaTypeKeyFile : Z := 3.
Definition stanzaTypeKeyFilePassword : Z := 4.
Definition MaxPasswordRecipients : Z := 8.
Definition MaxKeyFileRecipients : Z := 8.
Definition passwordStanzaSize : Z := 4 + SaltSize + NonceSize + KeySize + GCMTagSize.
Definition keyFileStanzaSize : Z := SaltSize + NonceSize + KeySize + GCMTagSize.
Definition stanzaHeaderSize : Z := 1 + 4.
Definition maxStanzas : Z := MaxPasswordRecipients + 2 * MaxKeyFileRecipients + 1.

Record stanza := mk_stanza { st_kind : Z; st_body : bytes }.

Record KeyFile := mk_keyfile { kf_Key : bytes; kf_Password : bytes }.

Record Credentials := mk_creds {
  Passwords : list bytes;
  KeyFiles : list KeyFile;
  AgeRecipients : list age_recipient
}.

Record Unlockers := mk_unlock { u_Password : bytes; u_KeyFiles : list bytes; u_Identities : list age_identity }.

Definition appendStanza (dst : bytes) (kind : Z) (body : bytes) : bytes :=
  dst ++ [zb kind] ++ le_bytes 4 (len body) ++ body.

Definition encodePasswordWrap (w : PasswordWrap) : bytes :=
  le_bytes 4 (pw_Iterations w) ++ pw_Salt w ++ pw_Nonce w ++ pw_Sealed w.

Definition decodePasswordWrap (b : bytes) : PasswordWrap :=
  let s := zdrop 4 b in
  mk_pw (le_u32 b) (ztake SaltSize s) (ztake NonceSize (zdrop SaltSize s)) (zdrop (SaltSize + NonceSize) s).

Definition encodeKeyFileWrap (w : KeyFileWrap) : bytes := kw_Salt w ++ kw_Nonce w ++ kw_Sealed w.

Definition decodeKeyFileWrap (b : bytes) : KeyFileWrap :=
  mk_kw (ztake SaltSize b) (ztake NonceSize (zdrop SaltSize b)) (zdrop (SaltSize + NonceSize) b).

Definition wrapForKeyFile (cek : bytes) (kf : KeyFile) (r : rng) : result (Z * bytes) * rng :=
  if bytes_eqb (kf_Password kf) [] then
    match WrapCEKWithKeyFile cek (kf_Key kf) r with
    | (Err e, r) => (Err e, r)
    | (Ok w, r) => (Ok (stanzaTypeKeyFile, encodeKeyFileWrap w), r)
    end
  else
    match WrapCEKWithKeyFileAndPassword cek (kf_Key kf) (kf_Password kf) r with
    | (Err e, r) => (Err e, r)
    | (Ok w, r) => (Ok (stanzaTypeKeyFilePassword, encodePasswordWrap w), r)
    end.

(** The wrapping loops, as the stanzas they append. *)
Fixpoint wrap_passwords (cek : bytes) (ps : list bytes) (r : rng) : result (list stanza) * rng :=
  match ps with
  | [] => (Ok [], r)
  | p :: ps =>
      if bytes_eqb p [] then (errorf ErrOther "empty password", r)
      else
        let '(w, r) := WrapCEKWithPassword cek p r in
        match wrap_passwords cek ps r with
        | (Err e, r) => (Err e, r)
        | (Ok ss, r) => (Ok (mk_stanza stanzaTypePassword (encodePasswordWrap w) :: ss), r)
        end
  end.

Fixpoint wrap_keyfiles (cek : bytes) (kfs : list KeyFile) (r : rng) : result (list stanza) * rng :=
  match kfs with
  | [] => (Ok [], r)
  | kf :: kfs =>
      match wrapForKeyFile cek kf r with
      | (Err e, r) => (Err e, r)
      | (Ok (kind, body), r) =>
          match wrap_keyfiles cek kfs r with
          | (Err e, r) => (Err e, r)
          | (Ok ss, r) => (Ok (mk_stanza kind body :: ss), r)
          end
      end
  end.

Definition wrap_age (cek : bytes) (rs : list age_recipient) (r : rng) : result (list stanza) :=
  if 0 <? len rs then
    let? blob := WrapCEKForAge cek rs r in Ok [mk_stanza stanzaTypeAge blob]
  else Ok [].

Definition encode_stanza (s : stanza) : bytes := [zb (st_kind s)] ++ le_bytes 4 (len (st_body s)) ++ st_body s.
Definition encode_block (ss : list stanza) : bytes := le_bytes 2 (len ss) ++ concat (map encode_stanza ss).

(** The stanza count written first is the number of stanzas appended after it. *)
Definition SealRecipientBlock (cek : bytes) (creds : Credentials) (r : rng) : result bytes :=
  if (len (Passwords creds) =? 0) && (len (KeyFiles creds) =? 0) && (len (AgeRecipients creds) =? 0)
  then errorf ErrOther "at least one password, key file, or age recipient is required"
  else if MaxPasswordRecipients <? len (Passwords creds) then errorf ErrOther "too many password recipients"
  else if MaxKeyFileRecipients <? len (KeyFiles creds) then errorf ErrOther "too many key file recipients"
  else
    let count := len (Passwords creds) + len (KeyFiles creds) + (if 0 <? len (AgeRecipients creds) then 1 else 0) in
    let block := le_bytes 2 count in
    match wrap_passwords cek (Passwords creds) r with
    | (Err e, _) => Err e
    | (Ok ps, r) =>
        let block := fold_left (fun b s => appendStanza b (st_kind s) (st_body s)) ps block in
        match wrap_keyfiles cek (KeyFiles creds) r with
        | (Err e, _) => Err e
        | (Ok ks, r) =>
            let block := fold_left (fun b s => appendStanza b (st_kind s) (st_body s)) ks block in
            let? age := wrap_age cek (AgeRecipients creds) r in
            let block := fold_left (fun b s => appendStanza b (st_kind s) (st_body s)) age block in
            if MaxRecipientBlockSize <? len block then errorf ErrOther "block too large" else Ok block
        end
    end.

Definition block_fail {X} (msg : string) : result X := errorf ErrMalformedRecipientBlock msg.

Definition validateStanza (kind bodyLen n : Z) : result unit :=
  if kind =? stanzaTypePassword then
    if (bodyLen =? passwordStanzaSize) && (n <=? MaxPasswordRecipients) then Ok tt else block_fail "bad stanza"
  else if kind =? stanzaTypeAge then
    if (0 <? bodyLen) && (n =? 1) then Ok tt else block_fail "bad stanza"
  else if kind =? stanzaTypeKeyFile then
    if (bodyLen =? keyFileStanzaSize) && (n <=? MaxKeyFileRecipients) then Ok tt else block_fail "bad stanza"
  else if kind =? stanzaTypeKeyFilePassword then
    if (bodyLen =? passwordStanzaSize) && (n <=? MaxKeyFileRecipients) then Ok tt else block_fail "bad stanza"
  else block_fail "unknown stanza type".

(** [perKind[kind]] over the stanzas already parsed. *)
Definition count_kind (kind : Z) (ss : list stanza) : Z := len (filter (fun s => st_kind s = kind) ss).

(** The stanza loop over [block[off:]], with the stanzas parsed so far. *)
Fixpoint parse_stanzas (count : nat) (parsed : list stanza) (b : bytes) : result (list stanza) :=
  match count with
  | O => if negb (len b =? 0) then block_fail "trailing bytes" else Ok parsed
  | S count =>
      if len b <? stanzaHeaderSize then block_fail "truncated stanza header"
      else
        let kind := bz (hd Byte.x00 b) in
        let bodyLen := le_u32 (zdrop 1 b) in
        let b := zdrop stanzaHeaderSize b in
        if len b <? bodyLen then block_fail "stanza runs past block"
        else
          let body := ztake bodyLen b in
          let? _ := validateStanza kind (len body) (count_kind kind parsed + 1) in
          parse_stanzas count (parsed ++ [mk_stanza kind body]) (zdrop bodyLen b)
  end.

Definition parseRecipientBlock (block : bytes) : result (list stanza) :=
  if len block <? 2 then block_fail "truncated count"
  else
    let count := le_u16 block in
    if (count =? 0) || (maxStanzas <? count) then block_fail "stanza count"
    else parse_stanzas (Z.to_nat count) [] (zdrop 2 block).

(** ** Opening *)

(** Try one stanza: [None] when the reader lacks a credential it needs. *)
Definition try_stanza (u : Unlockers) (s : stanza) : option (result bytes) :=
  if (st_kind s =? stanzaTypePassword) && negb (bytes_eqb (u_Password u) [])
  then Some (UnwrapCEKWithPassword (decodePasswordWrap (st_body s)) (u_Password u))
  else if (st_kind s =? stanzaTypeAge) && (0 <? len (u_Identities u))
  then Some (UnwrapCEKWithAge (st_body s) (u_Identities u))
  else if (st_kind s =? stanzaTypeKeyFile) && (0 <? len (u_KeyFiles u))
  then Some (UnwrapCEKWithKeyFile (decodeKeyFileWrap (st_body s)) (u_KeyFiles u))
  else if (st_kind s =? stanzaTypeKeyFilePassword) && (0 <? len (u_KeyFiles u)) && negb (bytes_eqb (u_Password u) [])
  then Some (UnwrapCEKWithKeyFileAndPassword (decodePasswordWrap (st_body s)) (u_KeyFiles u) (u_Password u))
  else None.

Definition stanzaKindName (kind : Z) : string :=
  if kind =? stanzaTypePassword then "password"
  else if kind =? stanzaTypeAge then "age or SSH identity"
  else if kind =? stanzaTypeKeyFile then "key file"
  else if kind =? stanzaTypeKeyFilePassword then "key file + password" else "".

Fixpoint accepted_go (seen : list Z) (ss : list stanza) : list string :=
  match ss with
  | [] => []
  | s :: ss => if existsb (Z.eqb (st_kind s)) seen then accepted_go seen ss
               else stanzaKindName (st_kind s) :: accepted_go (st_kind s :: seen) ss
  end.
Definition acceptedKinds (ss : list stanza) : list string := accepted_go [] ss.

(** What opening a block yields besides a CEK: the errors the caller distinguishes. *)
Inductive open_result :=
  | Opened (cek : bytes)
  | OpenMalformed (e : error)
  | OpenIdentityFailed
  | OpenNoMatch (accepts : list string).

Fixpoint open_loop (u : Unlockers) (all ss : list stanza) (identityErr : bool) : open_result :=
  match ss with
  | [] => if identityErr then OpenIdentityFailed else OpenNoMatch (acceptedKinds all)
  | s :: ss =>
      match try_stanza u s with
      | None => open_loop u all ss identityErr
      | Some (Ok cek) => Opened cek
      | Some (Err e) =>
          if bool_decide (wraps e = ErrIdentity) then open_loop u all ss true
          else if bool_decide (wraps e = ErrWrongCredential) then open_loop u all ss identityErr
          else OpenMalformed (mk_error ErrMalformedRecipientBlock (what e))
      end
  end.

Definition OpenRecipientBlock (block : bytes) (u : Unlockers) : open_result :=
  match parseRecipientBlock block with
  | Err e => OpenMalformed e
  | Ok stanzas => open_loop u stanzas stanzas false
  end.

(** ** Parsing what was encoded *)

(** Every stanza passes validation at its place in the block. *)
Fixpoint stanzas_valid (parsed ss : list stanza) : Prop :=
  match ss with
  | [] => True
  | s :: ss => 0 <= st_kind s < 256 /\ len (st_body s) < 2 ^ 32 /\
      validateStanza (st_kind s) (len (st_body s)) (count_kind (st_kind s) parsed + 1) = Ok tt /\
      stanzas_valid (parsed ++ [s]) ss
  end.

Lemma parse_stanzas_encode ss : forall parsed, stanzas_valid parsed ss ->
  parse_stanzas (length ss) parsed (concat (map encode_stanza ss)) = Ok (parsed ++ ss).
Proof.
  induction ss as [|s ss IH]; intros parsed H; cbn [length parse_stanzas map concat].
  - by rewrite len_nil, app_nil_r.
  - destruct H as (Hk & Hl & Hv & H). pose proof (len_nonneg (st_body s)).
    set (rest := concat (map encode_stanza ss)). unfold encode_stanza. rewrite <- !app_assoc.
    rewrite (proj2 (Z.ltb_ge _ _)) by (unfold stanzaHeaderSize; rewrite !len_app, len_le_bytes, len_cons, len_nil; len_lia).
    cbn [app hd]. rewrite bz_zb, Z.mod_small by lia. cbv zeta.
    change (zdrop 1 (zb (st_kind s) :: ?l)) with l. rewrite le_u32_app by lia.
    rewrite app_comm_cons, zdrop_app by done.
    rewrite (proj2 (Z.ltb_ge _ _)) by len_lia.
    rewrite ztake_app, zdrop_app by done. rewrite Hv.
    assert (mk_stanza (st_kind s) (st_body s) = s) as -> by by destruct s.
    unfold rest. rewrite IH by done. by rewrite <- app_assoc.
Qed.

Lemma parse_encode_block ss : stanzas_valid [] ss -> 1 <= len ss <= maxStanzas ->
  parseRecipientBlock (encode_block ss) = Ok ss.
Proof.
  intros H Hl. unfold maxStanzas, MaxPasswordRecipients, MaxKeyFileRecipients in Hl.
  unfold parseRecipientBlock, encode_block.
  rewrite (proj2 (Z.ltb_ge _ _)) by (rewrite len_app, len_le_bytes; len_lia).
  rewrite le_u16_app by lia. rewrite zdrop_app by done. cbv zeta.
  rewrite (proj2 (Z.eqb_neq _ _)) by lia.
  rewrite (proj2 (Z.ltb_ge _ _)) by (unfold maxStanzas, MaxPasswordRecipients, MaxKeyFileRecipients; lia).
  cbn [orb]. unfold len at 1. rewrite Nat2Z.id. by rewrite parse_stanzas_encode.
Qed.

(** ** Accepted blocks are bounded *)

Definition stanza_sized (s : stanza) : Prop :=
  (st_kind s = stanzaTypePassword /\ len (st_body s) = passwordStanzaSize) \/
  (st_kind s = stanzaTypeAge /\ 0 < len (st_body s)) \/
  (st_kind s = stanzaTypeKeyFile /\ len (st_body s) = keyFileStanzaSize) \/
  (st_kind s = stanzaTypeKeyFilePassword /\ len (st_body s) = passwordStanzaSize).

Definition counts_ok (ss : list stanza) : Prop :=
  count_kind stanzaTypePassword ss <= MaxPasswordRecipients /\ count_kind stanzaTypeAge ss <= 1 /\
  count_kind stanzaTypeKeyFile ss <= MaxKeyFileRecipients /\
  count_kind stanzaTypeKeyFilePassword ss <= MaxKeyFileRecipients.

Lemma count_kind_snoc k ss s : count_kind k (ss ++ [s]) = count_kind k ss + (if st_kind s =? k then 1 else 0).
Proof.
  unfold count_kind. rewrite filter_app, len_app. f_equal. rewrite filter_cons, filter_nil.
  destruct (Z.eqb_spec (st_kind s) k); [by rewrite decide_True|by rewrite decide_False].
Qed.

Lemma validateStanza_snoc parsed s : counts_ok parsed ->
  validateStanza (st_kind s) (len (st_body s)) (count_kind (st_kind s) parsed + 1) = Ok tt ->
  counts_ok (parsed ++ [s]) /\ stanza_sized s.
Proof.
  intros (H1 & H2 & H3 & H4). unfold validateStanza, block_fail, errorf, counts_ok. rewrite !count_kind_snoc.
  unfold stanza_sized. destruct s as [kind body]; cbn [st_kind st_body].
  unfold stanzaTypePassword, stanzaTypeAge, stanzaTypeKeyFile, stanzaTypeKeyFilePassword in *.
  destruct (Z.eqb_spec kind 1) as [->|]; [|destruct (Z.eqb_spec kind 2) as [->|];
    [|destruct (Z.eqb_spec kind 3) as [->|]; [|destruct (Z.eqb_spec kind 4) as [->|]; [|done]]]];
  (destruct (_ && _) eqn:E; [|done]); b2p; intros _; cbn [Z.eqb Pos.eqb]; split; try tauto; try lia; auto.
Qed.

Lemma parse_stanzas_bounded count : forall parsed b ss,
  counts_ok parsed -> Forall stanza_sized parsed ->
  parse_stanzas count parsed b = Ok ss -> counts_ok ss /\ Forall stanza_sized ss.
Proof.
  induction count as [|count IH]; intros parsed b ss Hc Hs H; cbn [parse_stanzas] in H.
  - unfold block_fail, errorf in H. destruct (negb _); [done|]. by inv_ok H.
  - unfold block_fail, errorf in H. destruct (_ <? _); [done|]. cbv zeta in H. destruct (_ <? _); [done|].
    destruct (validateStanza _ _ _) as [[]|] eqn:E; [|done].
    match type of H with parse_stanzas _ (_ ++ [?s]) _ = _ =>
      apply (validateStanza_snoc parsed s) in E as [Hc' Hs']; [|done] end.
    apply IH in H; [done|done|]. apply Forall_app. by split; [|apply Forall_singleton].
Qed.

(** An accepted recipient block costs a bounded amount of work and never reads out of
    range: at most 8 password stanzas, 8 of each key file kind and one age stanza, each
    with exactly the body size its decoder slices. *)
Theorem recipient_block_bounded (block : bytes) (ss : list stanza)
  (Hp : parseRecipientBlock block = Ok ss) : counts_ok ss /\ Forall stanza_sized ss.
Proof.
  unfold parseRecipientBlock, block_fail, errorf in Hp. destruct (_ <? _); [done|]. cbv zeta in Hp.
  destruct (_ || _); [done|]. apply parse_stanzas_bounded in Hp; [done| |constructor].
  unfold counts_ok, count_kind. cbn. unfold MaxPasswordRecipients, MaxKeyFileRecipients, len. cbn. lia.
Qed.

(** ** What sealing writes *)

Lemma count_kind_app k a b : count_kind k (a ++ b) = count_kind k a + count_kind k b.
Proof. unfold count_kind. by rewrite filter_app, len_app. Qed.

Lemma count_kind_le k ss : 0 <= count_kind k ss <= len ss.
Proof. unfold count_kind, len. pose proof (length_filter (fun s => st_kind s = k) ss). lia. Qed.

Lemma count_kind_none k ss : Forall (fun s => st_kind s <> k) ss -> count_kind k ss = 0.
Proof.
  induction 1 as [|s ss Hs _ IH]; [done|]. unfold count_kind in *. by rewrite filter_cons_False.
Qed.

Lemma count_kind_cons k s ss : count_kind k (s :: ss) = (if st_kind s =? k then 1 else 0) + count_kind k ss.
Proof. change (s :: ss) with ([s] ++ ss). by rewrite count_kind_app, <- (app_nil_l [s]), count_kind_snoc. Qed.

Lemma stanzas_valid_intro ss : forall parsed, counts_ok (parsed ++ ss) -> Forall stanza_sized ss ->
  Forall (fun s => len (st_body s) < 2 ^ 32) ss -> stanzas_valid parsed ss.
Proof.
  induction ss as [|s ss IH]; intros parsed Hc Hs Hl; cbn [stanzas_valid]; [done|].
  apply Forall_cons in Hs as [Hs Hss]. apply Forall_cons in Hl as [Hl Hls].
  assert (Hc' := Hc). unfold counts_ok in Hc'. rewrite !count_kind_app, !count_kind_cons in Hc'.
  pose proof (count_kind_le 1 ss). pose proof (count_kind_le 2 ss).
  pose proof (count_kind_le 3 ss). pose proof (count_kind_le 4 ss).
  pose proof (count_kind_le 2 parsed).
  unfold stanza_sized, stanzaTypePassword, stanzaTypeAge, stanzaTypeKeyFile, stanzaTypeKeyFilePassword in *.
  split; [destruct Hs as [[-> _]|[[-> _]|[[-> _]|[-> _]]]]; lia|]. split; [done|].
  split; [|apply IH; [by rewrite <- app_assoc|done|done]].
  unfold validateStanza, stanzaTypePassword, stanzaTypeAge, stanzaTypeKeyFile, stanzaTypeKeyFilePassword.
  destruct Hs as [[Hk Hb]|[[Hk Hb]|[[Hk Hb]|[Hk Hb]]]]; rewrite Hk in *; cbn [Z.eqb Pos.eqb] in *; rewrite ?Hb, ?Z.eqb_refl;
    cbn [andb]; first [rewrite (proj2 (Z.leb_le _ _)) by lia; done
                      |rewrite (proj2 (Z.ltb_lt _ _)), (proj2 (Z.eqb_eq _ _)) by lia; done].
Qed.

Context `{L : !CryptoLaws C}.

(** The facts of [age] this development uses: an encrypted file is never empty. *)
Context (age_nonempty : forall cek rs r blob, age_encrypt cek rs r = Ok blob -> 0 < len blob).

(** Fixed-size wraps survive their stanza encoding. *)
Lemma pw_codec w : 0 <= pw_Iterations w < 2 ^ 32 -> len (pw_Salt w) = SaltSize -> len (pw_Nonce w) = NonceSize ->
  decodePasswordWrap (encodePasswordWrap w) = w /\
  len (encodePasswordWrap w) = 4 + SaltSize + NonceSize + len (pw_Sealed w).
Proof.
  intros Hi Hs Hn. unfold encodePasswordWrap, decodePasswordWrap. rewrite le_u32_app by done.
  rewrite zdrop_app by done. rewrite ztake_app by done. rewrite (zdrop_app SaltSize) by done.
  rewrite ztake_app by done. rewrite zdrop_app_ge by (unfold NonceSize in *; lia).
  rewrite zdrop_app by lia. rewrite !len_app, len_le_bytes. split; [by destruct w|lia].
Qed.

Lemma kw_codec w : len (kw_Salt w) = SaltSize -> len (kw_Nonce w) = NonceSize ->
  decodeKeyFileWrap (encodeKeyFileWrap w) = w /\
  len (encodeKeyFileWrap w) = SaltSize + NonceSize + len (kw_Sealed w).
Proof.
  intros Hs Hn. unfold encodeKeyFileWrap, decodeKeyFileWrap.
  rewrite ztake_app by done. rewrite (zdrop_app SaltSize) by done. rewrite ztake_app by done.
  rewrite zdrop_app_ge by (unfold NonceSize in *; lia). rewrite zdrop_app by lia.
  rewrite !len_app. split; [by destruct w|lia].
Qed.

(** A reader that tries [s] and cannot open it sees a wrong credential, never a malformed
    block. *)
Definition fails_softly (u : Unlockers) (s : stanza) : Prop :=
  forall e, try_stanza u s = Some (Err e) -> wraps e = ErrWrongCredential.

Lemma password_stanza cek p r w r' : WrapCEKWithPassword cek p r = (w, r') -> len cek = KeySize ->
  let s := mk_stanza stanzaTypePassword (encodePasswordWrap w) in
  stanza_sized s /\ (forall u, fails_softly u s) /\
  (forall u, u_Password u = p -> p <> [] -> try_stanza u s = Some (Ok cek)).
Proof.
  unfold WrapCEKWithPassword. destruct (draw SaltSize r) as [salt r1] eqn:E1.
  destruct (draw NonceSize r1) as [nonce r2] eqn:E2. intros [= <- <-] Hc.
  apply draw_len in E1; [|done]. apply draw_len in E2; [|done]. set (w := mk_pw _ _ _ _).
  destruct (pw_codec w) as [Hd Hl]; [done|done|done|]. cbn zeta. split; [|split].
  - left. split; [done|]. cbn [st_body]. rewrite Hl. cbn [pw_Sealed w]. rewrite len_gcm_seal. unfold passwordStanzaSize. lia.
  - intros u e. unfold try_stanza. cbn [st_kind st_body]. rewrite Hd.
    change (stanzaTypePassword =? stanzaTypePassword) with true. cbn [andb].
    destruct (negb _); [|done]. unfold UnwrapCEKWithPassword, errorf. change (_ || _) with false.
    cbv iota. destruct (gcm_open _ _ _ _); [done|]. by intros [= <-].
  - intros u <- Hp. unfold try_stanza. cbn [st_kind st_body]. rewrite Hd.
    assert (bytes_eqb (u_Password u) [] = false) as ->.
    { destruct (bytes_eqb _ _) eqn:E; [|done]. by apply bytes_eqb_true in E. }
    cbn [andb negb]. unfold UnwrapCEKWithPassword. cbn [pw_Iterations pw_Salt pw_Nonce pw_Sealed w].
    by rewrite gcm_open_seal.
Qed.

(** A key that opens a wrap is found among others. *)
Lemma key_found w key keys cek : key ∈ keys -> CheckKeyFileSize key = true ->
  gcm_open (keyFileKEK key (kw_Salt w)) (kw_Nonce w) (kw_Sealed w) keyFileWrapLabel = Some cek -> exists c, UnwrapCEKWithKeyFile w keys = Ok c.
Proof.
  intros Hin Hs Ho. induction keys as [|k keys IH]; cbn [UnwrapCEKWithKeyFile]; [by apply elem_of_nil in Hin|].
  apply elem_of_cons in Hin as [<-|Hin]; [rewrite Hs; cbn [negb]; rewrite Ho; by exists cek|].
  specialize (IH Hin). clear Ho. destruct (negb _); [done|]. destruct (gcm_open _ _ _ _) as [c|]; [by exists c|done].
Qed.

Lemma key_password_found w stretched key keys cek : key ∈ keys -> CheckKeyFileSize key = true ->
  gcm_open (keyFilePasswordKEK stretched key (pw_Salt w)) (pw_Nonce w) (pw_Sealed w) keyFilePasswordWrapLabel = Some cek ->
  exists c, unwrap_key_password w stretched keys = Ok c.
Proof.
  intros Hin Hs Ho. induction keys as [|k keys IH]; cbn [unwrap_key_password]; [by apply elem_of_nil in Hin|].
  apply elem_of_cons in Hin as [<-|Hin]; [rewrite Hs; cbn [negb]; rewrite Ho; by exists cek|].
  specialize (IH Hin). clear Ho. destruct (negb _); [done|]. destruct (gcm_open _ _ _ _) as [c|]; [by exists c|done].
Qed.

Lemma elem_of_len {X} (x : X) l : x ∈ l -> 0 < len l.
Proof. destruct l; [by intros ?%elem_of_nil|]. rewrite len_cons. len_lia. Qed.

Lemma keyfile_stanza cek kf r kind body r' : wrapForKeyFile cek kf r = (Ok (kind, body), r') -> len cek = KeySize ->
  let s := mk_stanza kind body in
  stanza_sized s /\ (kind = stanzaTypeKeyFile \/ kind = stanzaTypeKeyFilePassword) /\
  (forall u, fails_softly u s) /\
  (forall u, kf_Key kf ∈ u_KeyFiles u -> (kf_Password kf = [] \/ u_Password u = kf_Password kf) ->
     exists c, try_stanza u s = Some (Ok c)).
Proof.
  unfold wrapForKeyFile, WrapCEKWithKeyFile, WrapCEKWithKeyFileAndPassword, errorf. intros H Hc.
  destruct (CheckKeyFileSize (kf_Key kf)) eqn:Ek; cbn [negb] in H; [|by destruct (bytes_eqb (kf_Password kf) [])].
  destruct (draw SaltSize r) as [salt r1] eqn:E1. destruct (draw NonceSize r1) as [nonce r2] eqn:E2.
  apply draw_len in E1; [|done]. apply draw_len in E2; [|done].
  destruct (bytes_eqb (kf_Password kf) []) eqn:Ep.
  - injection H as <- <- <-. set (w := mk_kw _ _ _). destruct (kw_codec w) as [Hd Hl]; [done|done|]. cbn zeta.
    split; [|split; [by left|split]].
    + right; right; left. split; [done|]. cbn [st_body]. rewrite Hl. cbn [kw_Sealed w]. rewrite len_gcm_seal.
      unfold keyFileStanzaSize. lia.
    + intros u e. unfold try_stanza. cbn [st_kind st_body]. rewrite Hd.
      change (stanzaTypeKeyFile =? stanzaTypePassword) with false. change (stanzaTypeKeyFile =? stanzaTypeAge) with false.
      change (stanzaTypeKeyFile =? stanzaTypeKeyFile) with true. change (stanzaTypeKeyFile =? stanzaTypeKeyFilePassword) with false.
      cbn [andb]. destruct (0 <? _); [|done]. intros [= H]. revert H. generalize (u_KeyFiles u).
      induction l as [|k l IH]; cbn [UnwrapCEKWithKeyFile]; [by intros [= <-]|].
      destruct (negb _); [done|]. by destruct (gcm_open _ _ _ _).
    + intros u Hk _. unfold try_stanza. cbn [st_kind st_body]. rewrite Hd, (proj2 (Z.ltb_lt _ _) (elem_of_len _ _ Hk)).
      change (stanzaTypeKeyFile =? stanzaTypePassword) with false. change (stanzaTypeKeyFile =? stanzaTypeAge) with false.
      cbn [andb]. destruct (key_found w _ _ cek Hk Ek) as [c Hw]; [apply gcm_open_seal|]. exists c. by rewrite <- Hw.
  - injection H as <- <- <-. set (w := mk_pw _ _ _ _). destruct (pw_codec w) as [Hd Hl]; [done|done|done|]. cbn zeta.
    split; [|split; [by right|split]].
    + right; right; right. split; [done|]. cbn [st_body]. rewrite Hl. cbn [pw_Sealed w]. rewrite len_gcm_seal.
      unfold passwordStanzaSize. lia.
    + intros u e. unfold try_stanza. cbn [st_kind st_body]. rewrite Hd.
      change (stanzaTypeKeyFilePassword =? stanzaTypePassword) with false.
      change (stanzaTypeKeyFilePassword =? stanzaTypeAge) with false.
      change (stanzaTypeKeyFilePassword =? stanzaTypeKeyFile) with false.
      change (stanzaTypeKeyFilePassword =? stanzaTypeKeyFilePassword) with true.
      cbn [andb]. destruct (_ && _); [|done]. unfold UnwrapCEKWithKeyFileAndPassword, errorf.
      change ((_ <? _) || _) with false. cbv iota. destruct (_ || _); [by intros [= <-]|].
      intros [= H]. revert H. generalize (u_KeyFiles u).
      induction l as [|k l IH]; cbn [unwrap_key_password]; [by intros [= <-]|].
      destruct (negb _); [done|]. by destruct (gcm_open _ _ _ _).
    + intros u Hk [Hp|Hp]; [by rewrite Hp, bytes_eqb_refl in Ep|]. pose proof (elem_of_len _ _ Hk) as Hlen.
      unfold try_stanza. cbn [st_kind st_body]. rewrite Hd, Hp, Ep, (proj2 (Z.ltb_lt _ _) Hlen).
      change (stanzaTypeKeyFilePassword =? stanzaTypePassword) with false.
      change (stanzaTypeKeyFilePassword =? stanzaTypeAge) with false.
      change (stanzaTypeKeyFilePassword =? stanzaTypeKeyFile) with false.
      cbn [andb negb]. unfold UnwrapCEKWithKeyFileAndPassword. rewrite Ep, (proj2 (Z.eqb_neq (len (u_KeyFiles u)) 0)) by lia.
      cbn [orb pw_Iterations pw_Salt w]. destruct (key_password_found w (stretchPassword (kf_Password kf) salt MinPasswordIterations) _ _ cek Hk Ek) as [c Hw];
        [apply gcm_open_seal|]. exists c. by rewrite <- Hw.
Qed.

Lemma wrap_passwords_spec cek ps : len cek = KeySize -> forall r ss r', wrap_passwords cek ps r = (Ok ss, r') ->
  len ss = len ps /\ Forall stanza_sized ss /\ Forall (fun s => st_kind s = stanzaTypePassword) ss /\
  (forall u, Forall (fails_softly u) ss) /\
  (forall u, u_Password u ∈ ps -> exists s, s ∈ ss /\ try_stanza u s = Some (Ok cek)).
Proof.
  intros Hc. induction ps as [|p ps IH]; intros r ss r' H; cbn [wrap_passwords] in H.
  - injection H as <- <-. repeat split; auto. intros u Hu. by apply elem_of_nil in Hu.
  - unfold errorf in H. destruct (bytes_eqb p []) eqn:Ep; [done|].
    destruct (WrapCEKWithPassword cek p r) as [w r1] eqn:Ew.
    destruct (wrap_passwords cek ps r1) as [[ss'|] r2] eqn:Er; [|done]. injection H as <- <-.
    apply IH in Er as (Hl & Hs & Hk & Hf & Ho). apply password_stanza in Ew as (Hs' & Hf' & Ho'); [|done].
    rewrite !len_cons, Hl. split; [done|]. split; [by constructor|]. split; [by constructor|].
    split; [intros u; constructor; auto|]. intros u Hu. apply elem_of_cons in Hu as [Hu|Hu].
    + eexists. split; [by left|]. apply Ho'; [done|]. by intros ->.
    + destruct (Ho u Hu) as (s' & ? & ?). exists s'. split; [by right|done].
Qed.

Lemma wrap_keyfiles_spec cek kfs : len cek = KeySize -> forall r ss r', wrap_keyfiles cek kfs r = (Ok ss, r') ->
  len ss = len kfs /\ Forall stanza_sized ss /\
  Forall (fun s => st_kind s = stanzaTypeKeyFile \/ st_kind s = stanzaTypeKeyFilePassword) ss /\
  (forall u, Forall (fails_softly u) ss) /\
  (forall u kf, kf ∈ kfs -> kf_Key kf ∈ u_KeyFiles u -> (kf_Password kf = [] \/ u_Password u = kf_Password kf) ->
     exists s c, s ∈ ss /\ try_stanza u s = Some (Ok c)).
Proof.
  intros Hc. induction kfs as [|kf kfs IH]; intros r ss r' H; cbn [wrap_keyfiles] in H.
  - injection H as <- <-. repeat split; auto. intros u kf Hu. by apply elem_of_nil in Hu.
  - destruct (wrapForKeyFile cek kf r) as [[[kind body]|] r1] eqn:Ew; [|done].
    destruct (wrap_keyfiles cek kfs r1) as [[ss'|] r2] eqn:Er; [|done]. injection H as <- <-.
    apply IH in Er as (Hl & Hs & Hk & Hf & Ho). apply keyfile_stanza in Ew as (Hs' & Hk' & Hf' & Ho'); [|done].
    rewrite !len_cons, Hl. split; [done|]. split; [by constructor|]. split; [by constructor|].
    split; [intros u; constructor; auto|]. intros u kf' Hu H1 H2. apply elem_of_cons in Hu as [->|Hu].
    + destruct (Ho' u H1 H2) as [c Hc']. eexists _, c. split; [by left|done].
    + destruct (Ho u kf' Hu H1 H2) as (s' & c & ? & ?). exists s', c. split; [by right|done].
Qed.

Lemma append_stanzas ss : forall b, fold_left (fun b s => appendStanza b (st_kind s) (st_body s)) ss b =
  b ++ concat (map encode_stanza ss).
Proof.
  induction ss as [|s ss IH]; intros b; cbn [fold_left map concat]; [by rewrite app_nil_r|].
  rewrite IH. unfold appendStanza, encode_stanza. by rewrite <- !app_assoc.
Qed.

Lemma encode_stanza_le ss s : s ∈ ss -> len (st_body s) <= len (concat (map encode_stanza ss)).
Proof. induction 1; cbn [map concat]; rewrite len_app; [unfold encode_stanza|]; len_lia. Qed.

(** The stanzas of a sealed block, and that the block parses back to them. *)
Lemma SealRecipientBlock_parses cek creds r block : len cek = KeySize -> SealRecipientBlock cek creds r = Ok block ->
  exists ps r1 ks r2 ag, wrap_passwords cek (Passwords creds) r = (Ok ps, r1) /\
    wrap_keyfiles cek (KeyFiles creds) r1 = (Ok ks, r2) /\ wrap_age cek (AgeRecipients creds) r2 = Ok ag /\
    parseRecipientBlock block = Ok (ps ++ ks ++ ag) /\ Forall (fun s => st_kind s = stanzaTypeAge) ag.
Proof.
  intros Hc. unfold SealRecipientBlock, errorf. destruct (_ && _) eqn:E0; [done|].
  destruct (Z.ltb_spec MaxPasswordRecipients (len (Passwords creds))) as [|Hnp]; [done|].
  destruct (Z.ltb_spec MaxKeyFileRecipients (len (KeyFiles creds))) as [|Hnk]; [done|].
  destruct (wrap_passwords cek (Passwords creds) r) as [[ps|] r1] eqn:Ep; [|done].
  destruct (wrap_keyfiles cek (KeyFiles creds) r1) as [[ks|] r2] eqn:Ek; [|done].
  destruct (wrap_age cek (AgeRecipients creds) r2) as [ag|] eqn:Ea; [|done]. cbv zeta.
  rewrite !append_stanzas. set (count := len (Passwords creds) + _ + _).
  destruct (Z.ltb_spec MaxRecipientBlockSize (len (((le_bytes 2 count ++ concat (map encode_stanza ps)) ++
    concat (map encode_stanza ks)) ++ concat (map encode_stanza ag)))) as [|Hl]; [done|].
  intros Hb. inv_ok Hb. exists ps, r1, ks, r2, ag. do 3 (split; [done|]).
  destruct (wrap_passwords_spec cek _ Hc _ _ _ Ep) as (Hpl & Hps & Hpk & _).
  destruct (wrap_keyfiles_spec cek _ Hc _ _ _ Ek) as (Hkl & Hks & Hkk & _).
  assert (len ag = (if 0 <? len (AgeRecipients creds) then 1 else 0) /\ Forall stanza_sized ag /\
          Forall (fun s => st_kind s = stanzaTypeAge) ag) as (Hal & Has & Hak).
  { unfold wrap_age in Ea. destruct (0 <? _); [|by inv_ok Ea].
    destruct (WrapCEKForAge _ _ _) as [blob|] eqn:Eb; [|done]. inv_ok Ea. split; [done|].
    split; apply Forall_singleton; [|done]. right; left. split; [done|]. cbn [st_body].
    unfold WrapCEKForAge, errorf in Eb. destruct (len (AgeRecipients creds) =? 0) in Eb; [done|]. by eapply age_nonempty. }
  split; [|done]. rewrite <- !app_assoc, <- concat_app, <- concat_app, <- !map_app in *.
  assert (count = len (ps ++ ks ++ ag)) as ->.
  { unfold count. rewrite !len_app. lia. }
  apply parse_encode_block.
  - apply stanzas_valid_intro; cbn [app].
    + unfold counts_ok. rewrite !count_kind_app.
      pose proof (count_kind_le stanzaTypePassword ps). pose proof (count_kind_le stanzaTypeKeyFile ks).
      pose proof (count_kind_le stanzaTypeKeyFilePassword ks). pose proof (count_kind_le stanzaTypeAge ag).
      rewrite (count_kind_none stanzaTypeAge ps), (count_kind_none stanzaTypeKeyFile ps),
        (count_kind_none stanzaTypeKeyFilePassword ps) by (eapply Forall_impl; [exact Hpk|]; intros ? ->; done).
      rewrite (count_kind_none stanzaTypePassword ks), (count_kind_none stanzaTypeAge ks)
        by (eapply Forall_impl; [exact Hkk|]; intros ? [-> | ->]; done).
      rewrite (count_kind_none stanzaTypePassword ag), (count_kind_none stanzaTypeKeyFile ag),
        (count_kind_none stanzaTypeKeyFilePassword ag) by (eapply Forall_impl; [exact Hak|]; intros ? ->; done).
      destruct (0 <? len (AgeRecipients creds)); lia.
    + by rewrite !Forall_app.
    + apply Forall_forall. intros s Hs. pose proof (encode_stanza_le _ _ Hs).
      rewrite len_app in Hl. unfold MaxRecipientBlockSize in Hl. len_lia.
  - rewrite !len_app. unfold maxStanzas, MaxPasswordRecipients, MaxKeyFileRecipients in *.
    pose proof (len_nonneg (Passwords creds)). pose proof (len_nonneg (KeyFiles creds)).
    pose proof (len_nonneg (AgeRecipients creds)).
    destruct (Z.ltb_spec 0 (len (AgeRecipients creds))); [lia|].
    assert (len (AgeRecipients creds) = 0) as Hz by lia. rewrite Hz, Z.eqb_refl, andb_true_r in E0.
    destruct (Z.eqb_spec (len (Passwords creds)) 0), (Z.eqb_spec (len (KeyFiles creds)) 0); try done; lia.
Qed.

(** Opening succeeds with [cek] when some stanza gives it, none gives anything else, and
    the stanzas tried fail only softly. *)
Lemma open_loop_finds u all ss cek : Forall (fails_softly u) ss ->
  (forall s c, s ∈ ss -> try_stanza u s = Some (Ok c) -> c = cek) ->
  (exists s, s ∈ ss /\ try_stanza u s = Some (Ok cek)) ->
  forall ierr, open_loop u all ss ierr = Opened cek.
Proof.
  induction 1 as [|s ss Hs _ IH]; intros Ha He ierr; [destruct He as (s & Hin & _); by apply elem_of_nil in Hin|].
  cbn [open_loop]. destruct (try_stanza u s) as [[c|e]|] eqn:Et.
  - rewrite (Ha s c); [done|by left|done].
  - rewrite (Hs e Et). rewrite bool_decide_false, bool_decide_true by done.
    apply IH; [by intros ? ? ?; apply Ha; right|]. destruct He as (s' & Hin & Ho).
    apply elem_of_cons in Hin as [->|?]; [congruence|by exists s'].
  - apply IH; [by intros ? ? ?; apply Ha; right|]. destruct He as (s' & Hin & Ho).
    apply elem_of_cons in Hin as [->|?]; [congruence|by exists s'].
Qed.

(** [u] holds one of the credentials: a listed password, or a listed key file together
    with its password when it has one; and no age identities. *)
Definition holds (u : Unlockers) (creds : Credentials) : Prop :=
  u_Identities u = [] /\
  (u_Password u ∈ Passwords creds \/
   exists kf, kf ∈ KeyFiles creds /\ kf_Key kf ∈ u_KeyFiles u /\
              (kf_Password kf = [] \/ u_Password u = kf_Password kf)).

(** Every other stanza opens to the CEK or fails softly, unless an age identity is tried. *)
Lemma sealed_opens cek creds r block u : len cek = KeySize -> SealRecipientBlock cek creds r = Ok block ->
  (forall ss s c, parseRecipientBlock block = Ok ss -> s ∈ ss -> try_stanza u s = Some (Ok c) -> c = cek) ->
  (forall ps ks ag r1 r2, wrap_passwords cek (Passwords creds) r = (Ok ps, r1) -> wrap_keyfiles cek (KeyFiles creds) r1 = (Ok ks, r2) ->
    wrap_age cek (AgeRecipients creds) r2 = Ok ag -> Forall (fun s => st_kind s = stanzaTypeAge) ag ->
    Forall (fails_softly u) ag /\ exists s c, s ∈ ps ++ ks ++ ag /\ try_stanza u s = Some (Ok c)) ->
  OpenRecipientBlock block u = Opened cek.
Proof.
  intros Hc Hseal Hauth Hopens. destruct (SealRecipientBlock_parses cek creds r block Hc Hseal)
    as (ps & r1 & ks & r2 & ag & Hp & Hk & Ha & Hparse & Hak).
  unfold OpenRecipientBlock. rewrite Hparse.
  destruct (wrap_passwords_spec cek _ Hc _ _ _ Hp) as (_ & _ & _ & Hpf & _).
  destruct (wrap_keyfiles_spec cek _ Hc _ _ _ Hk) as (_ & _ & _ & Hkf & _).
  destruct (Hopens _ _ _ _ _ Hp Hk Ha Hak) as [Haf (s & c & Hin & Ho)].
  apply open_loop_finds; [by rewrite !Forall_app|intros s' c'; by apply Hauth|]. exists s. split; [done|]. by rewrite Ho, (Hauth _ _ _ Hparse Hin Ho).
Qed.

Lemma holds_opens cek creds r block u : len cek = KeySize -> SealRecipientBlock cek creds r = Ok block -> holds u creds ->
  (forall ss s c, parseRecipientBlock block = Ok ss -> s ∈ ss -> try_stanza u s = Some (Ok c) -> c = cek) ->
  OpenRecipientBlock block u = Opened cek.
Proof.
  intros Hc Hseal [Hi Hu] Hauth. apply (sealed_opens cek creds r); [done..|]. intros ps ks ag r1 r2 Hp Hk _ Hak.
  destruct (wrap_passwords_spec cek _ Hc _ _ _ Hp) as (_ & _ & _ & _ & Hpo).
  destruct (wrap_keyfiles_spec cek _ Hc _ _ _ Hk) as (_ & _ & _ & _ & Hko). split.
  - eapply Forall_impl; [exact Hak|]. intros s Hs e. unfold try_stanza. by rewrite Hs, Hi.
  - destruct Hu as [Hu|(kf & H1 & H2 & H3)].
    + destruct (Hpo u Hu) as (s & ? & ?). exists s, cek. rewrite !elem_of_app. auto.
    + destruct (Hko u kf H1 H2 H3) as (s & c & ? & ?). exists s, c. rewrite !elem_of_app. auto.
Qed.

(** An identity age decrypts with. *)
Lemma identity_opens cek creds r block u : len cek = KeySize -> SealRecipientBlock cek creds r = Ok block ->
  AgeRecipients creds <> [] -> u_Identities u <> [] ->
  (forall r blob, age_encrypt cek (AgeRecipients creds) r = Ok blob -> age_decrypt blob (u_Identities u) = AgePlain cek) ->
  (forall ss s c, parseRecipientBlock block = Ok ss -> s ∈ ss -> try_stanza u s = Some (Ok c) -> c = cek) ->
  OpenRecipientBlock block u = Opened cek.
Proof.
  intros Hc Hseal Hr Hi Hage Hauth. apply (sealed_opens cek creds r); [done..|]. intros ps ks ag r1 r2 _ _ Ha _.
  assert (forall {X} (l : list X), l <> [] -> 0 < len l) as Hpos by (intros X [|x l] ?; [done|rewrite len_cons; len_lia]).
  unfold wrap_age, WrapCEKForAge, errorf in Ha. rewrite (proj2 (Z.ltb_lt _ _) (Hpos _ _ Hr)) in Ha.
  destruct (Z.eqb_spec (len (AgeRecipients creds)) 0); [specialize (Hpos _ _ Hr); lia|].
  destruct (age_encrypt cek (AgeRecipients creds) r2) as [blob|] eqn:Eb; [|done]. inv_ok Ha.
  assert (try_stanza u (mk_stanza stanzaTypeAge blob) = Some (Ok cek)) as Ht.
  { unfold try_stanza. cbn [st_kind st_body]. rewrite (proj2 (Z.ltb_lt _ _) (Hpos _ _ Hi)). cbn. unfold UnwrapCEKWithAge.
    destruct (Z.eqb_spec (len (u_Identities u)) 0); [specialize (Hpos _ _ Hi); lia|]. by rewrite (Hage _ _ Eb), Hc, Z.eqb_refl. }
  split; [apply Forall_singleton; intros e; rewrite Ht; discriminate|]. eexists _, cek. split; [|exact Ht]. rewrite !elem_of_app. right; right. by left.
Qed.

(** Without a key file or an identity, a block with no password stanza is refused, whatever
    the password. *)
Lemma password_alone_refused cek creds r block u : len cek = KeySize -> SealRecipientBlock cek creds r = Ok block ->
  Passwords creds = [] -> u_KeyFiles u = [] -> u_Identities u = [] ->
  exists kinds, OpenRecipientBlock block u = OpenNoMatch kinds.
Proof.
  intros Hc Hseal Hpw Hku Hiu. destruct (SealRecipientBlock_parses cek creds r block Hc Hseal)
    as (ps & r1 & ks & r2 & ag & Hp & Hk & Ha & Hparse & Hak).
  unfold OpenRecipientBlock. rewrite Hparse. exists (acceptedKinds (ps ++ ks ++ ag)).
  rewrite Hpw in Hp. injection Hp as <- <-. destruct (wrap_keyfiles_spec cek _ Hc _ _ _ Hk) as (_ & _ & Hkk & _).
  assert (Forall (fun s => try_stanza u s = None) (ks ++ ag)) as Hn.
  { rewrite Forall_app. unfold try_stanza. rewrite Hku, Hiu. split.
    - eapply Forall_impl; [exact Hkk|]. by intros s [-> | ->].
    - eapply Forall_impl; [exact Hak|]. by intros s ->. }
  assert (forall all, open_loop u all (ks ++ ag) false = OpenNoMatch (acceptedKinds all)) as Hl; [|apply Hl].
  intros all. clear -Hn. induction Hn as [|s ss Hs _ IH]; [done|]. cbn [open_loop]. by rewrite Hs.
Qed.

(** Any one credential opens the archive: whatever mix of passwords, key files and age
    recipients a CEK was sealed for, a reader holding one password or one key file (with
    its password) recovers exactly that CEK, provided no other stanza happens to open
    under its secret to a different key (AES-GCM authentication). *)
Theorem one_credential_opens (cek : bytes) (creds : Credentials) (r : rng) (block : bytes) (u : Unlockers)
  (Hc : len cek = KeySize) (Hseal : SealRecipientBlock cek creds r = Ok block) (Hu : holds u creds)
  (Hauth : forall ss s c, parseRecipientBlock block = Ok ss -> s ∈ ss -> try_stanza u s = Some (Ok c) -> c = cek) :
  OpenRecipientBlock block u = Opened cek.
Proof. by apply (holds_opens cek creds r). Qed.
End Wraps.

(** ** Examples *)

Definition toy_age : Age := {|
  age_recipient := bytes;
  age_identity := bytes;
  age_encrypt cek rs r := Ok (str "age" ++ cek);
  age_decrypt blob ids := AgeFailed true false
|}.

Lemma toy_age_nonempty cek rs r blob : @age_encrypt toy_age cek rs r = Ok blob -> 0 < len blob.
Proof. intros E'. apply Ok_inj in E' as <-. rewrite len_app. change (len (str "age")) with 3. len_lia. Defined.

Definition sample_cek : bytes := replicate 32 (zb 9).

Definition sample_creds : @Credentials toy_age :=
  @mk_creds toy_age [str "first"; str "second"] [mk_keyfile (replicate 40 (zb 3)) []] [str "recipient"].

Definition sample_block : bytes :=
  match @SealRecipientBlock toy_crypto toy_age sample_cek sample_creds toy_rng with Ok b => b | Err _ => [] end.

Definition sample_unlockers : @Unlockers toy_age := @mk_unlock toy_age (str "second") [] [].

Lemma one_credential_opens_witness :
  @OpenRecipientBlock toy_crypto toy_age sample_block sample_unlockers = Opened sample_cek.
Proof.
  refine (@one_credential_opens toy_crypto toy_age toy_laws toy_age_nonempty sample_cek sample_creds toy_rng
    sample_block sample_unlockers eq_refl _ _ _).
  - vm_compute. reflexivity.
  - split; [reflexivity|]. left. right. left.
  - intros ss s c Hp Hin Ht. vm_compute in Hp. apply Ok_inj in Hp as <-.
    repeat (apply elem_of_cons in Hin as [->|Hin]; [vm_compute in Ht; first [discriminate Ht | injection Ht as <-; reflexivity]|]).
    by apply elem_of_nil in Hin.
Defined.

Lemma recipient_block_bounded_witness :
  match @parseRecipientBlock sample_block with
  | Ok ss => len ss = 4 /\ counts_ok ss | Err _ => False end.
Proof.
  destruct (@parseRecipientBlock sample_block) as [ss|e] eqn:E; [|vm_compute in E; discriminate E].
  split; [vm_compute in E; apply Ok_inj in E as <-; reflexivity|].
  exact (proj1 (recipient_block_bounded sample_block ss E)).
Defined.
