(* ===== verification/Extractor.v ===== *)
(** * Reading archives (io/extractor.go, io/solid.go, io/verified_file.go)

    [SafeExtractor] reads a finite byte stream. A reader step takes the unread bytes and
    returns a result and the bytes left; a short [io.ReadFull] consumes what there was.
    The output directory is the interface [Tree] (the operations of outputTree the
    extractor calls); unlocking the header uses the credential model of Recipients.v. *)

From S2P Require Import Prelude Bytes Names Attributes Metadata IndexCodec Directory Solid Crypto Codec Frames.
From S2P Require Import Checksum Writer Recipients IOErrors SolidPlan.
Open Scope go_scope.

Definition maxBlockCiphertext : Z := MaxPayloadSize + GCMTagSize.
Definition maxMetadataCiphertext : Z := MaxMetadataSize + GCMTagSize.

(** ** Reader steps *)

Definition rd (A : Type) : Type := bytes -> iores A * bytes.

Definition rret {A} (a : A) : rd A := fun s => (IOk a, s).
Definition rfail {A} (e : ArchiveError) : rd A := fun s => (IErr e, s).
Definition rbind {A B} (m : rd A) (k : A -> rd B) : rd B := fun s =>
  match m s with (IOk a, s) => k a s | (IErr e, s) => (IErr e, s) end.

Notation "'let*' x ':=' m 'in' k" := (rbind m (fun x => k))
  (at level 10, x name, m at level 100, k at level 200) : go_scope.

(** [io.ReadFull] of [n] bytes (also [io.CopyN] to discard), failing with [e]. *)
Definition rfull (n : Z) (e : ArchiveError) : rd bytes := fun s =>
  if n <=? len s then (IOk (ztake n s), zdrop n s) else (IErr e, []).

Definition truncated (msg : string) : ArchiveError := recoverable ErrCodeTruncated msg.

(** [skipPadding], whose raw error each caller wraps as [e]. *)
Definition skipPadding (e : ArchiveError) : rd unit :=
  let* sizeBuf := rfull 4 e in
  let* _ := rfull (le_u32 sizeBuf) e in
  rret tt.

(** ** The output directory *)

(** The operations the extractor performs on outputTree, on any state of it. Failures are
    values, and a failed operation may have changed the state. *)
Class Tree (T : Type) := {
  t_create : bytes -> T -> iores unit * T;                        (* newVerifiedFile *)
  t_append : bytes -> T -> option T;                              (* verifiedFile.write *)
  t_publish : bytes -> option Attributes -> Z -> T -> result unit * T;
  t_discard : T -> T;
  t_special : bytes -> Attributes -> T -> iores unit * T;
  t_writeFile : bytes -> bytes -> Attributes -> T -> iores unit * T
}.

Section Extractor.
Context `{C : Crypto} `{ZS : Zstd} `{A : Age}.

(** ** Entry framing *)

Definition readMetadataBlock : rd MetadataBlock :=
  let* nonce := rfull NonceSize (truncated "read metadata nonce") in
  let* sizeBuf := rfull 4 (truncated "read metadata size") in
  let size := le_u32 sizeBuf in
  if maxMetadataCiphertext <? size then rfail (fatal ErrCodeIntegrityFail "metadata size exceeds maximum")
  else
    let* ct := rfull size (truncated "read metadata ciphertext") in
    rret (mk_block nonce ct).

(** [skipTrailer(cause)]. *)
Definition skipTrailer (cause : option ArchiveError) : rd unit :=
  let* _ := skipPadding (fatal ErrCodeTruncated "skip trailer padding") in
  let* header := rfull (NonceSize + 4) (fatal ErrCodeTruncated "read sealed trailer header") in
  let sealedSize := le_u32 (zdrop NonceSize header) in
  if TrailerPayloadSize + GCMTagSize <? sealedSize then rfail (fatal ErrCodeIntegrityFail "sealed trailer too large")
  else
    let* _ := rfull (sealedSize + 8) (fatal ErrCodeTruncated "skip sealed trailer") in
    match cause with Some e => rfail e | None => rret tt end.

(** [skipDataBlocks]: the total payload size; [fuel] bounds the number of blocks by the
    number of bytes. *)
Fixpoint skip_blocks (fuel : nat) (stored : Z) : rd Z :=
  match fuel with
  | O => rret stored
  | S fuel =>
      let* header := rfull (NonceSize + 4) (truncated "read block header") in
      let blockSize := le_u32 (zdrop NonceSize header) in
      if blockSize =? 0 then rret stored
      else if (maxBlockCiphertext <? blockSize) || (blockSize <? GCMTagSize)
      then rfail (fatal ErrCodeIntegrityFail "block size out of range")
      else
        let* _ := rfull blockSize (truncated "skip block ciphertext") in
        skip_blocks fuel (stored + (blockSize - GCMTagSize))
  end.

Definition skipDataBlocks : rd Z := fun s => skip_blocks (S (length s)) 0 s.

Definition skipEntryBody (cause : option ArchiveError) : rd unit :=
  let* _ := skipPadding (fatal ErrCodeTruncated "skip inter-block padding") in
  let* _ := skipDataBlocks in
  skipTrailer cause.

Record entryHead := mk_head { eh_fileKey : bytes; eh_pm : PlaintextMetadata }.

Definition readEntryHead (keys : KeySchedule) : rd entryHead :=
  let* salt := rfull SaltSize (truncated "read entry salt") in
  let fileKey := FileKey keys salt in
  let* _ := rfull FrameHeaderSize (truncated "read frame header") in
  let* metaBlock := readMetadataBlock in
  match Open fileKey metaBlock with
  | Err _ =>
      let* _ := skipEntryBody (Some (recoverable ErrCodeAuthFailed "decrypt metadata")) in
      rfail (recoverable ErrCodeAuthFailed "decrypt metadata")
  | Ok pm => rret (mk_head fileKey pm)
  end.

(** ** Data blocks *)

(** What the block reader [next] of [streamDataBlocks] found: the blocks in order and how
    the sequence ended, by sentinel or end of input ([None]) or by a framing error. *)
Fixpoint read_blocks (fuel : nat) (s : bytes) : list EncryptedBlock * option ArchiveError * bytes :=
  match fuel with
  | O => ([], None, s)
  | S fuel =>
      if len s <? NonceSize then ([], None, [])
      else
        let nonce := ztake NonceSize s in
        let s := zdrop NonceSize s in
        if len s <? 4 then ([], Some (truncated "read block size"), [])
        else
          let blockSize := le_u32 s in
          let s := zdrop 4 s in
          if blockSize =? 0 then ([], None, s)
          else if maxBlockCiphertext <? blockSize
          then ([], Some (fatal ErrCodeIntegrityFail "block size exceeds maximum"), s)
          else if len s <? blockSize then ([], Some (truncated "read block ciphertext"), [])
          else
            let '(bs, e, rest) := read_blocks fuel (zdrop blockSize s) in
            (mk_block nonce (ztake blockSize s) :: bs, e, rest)
  end.

(** Why a block was not delivered. *)
Inductive block_error := BlockAuth | BlockDecompress | BlockSink.

(** [em.DecryptBlock], or [decompressingOpener.DecryptBlock] for a zstd entry. *)
Definition open_block (fileKey : bytes) (codec : Z) (b : EncryptedBlock) : bytes + block_error :=
  match DecryptBlock fileKey b with
  | Err _ => inr BlockAuth
  | Ok payload =>
      if codec =? CodecZstd
      then match Decompress NewBlockDecompressor payload with
           | Ok pt => inl pt | Err _ => inr BlockDecompress end
      else inl payload
  end.

(** Deliver the blocks in order to [sink]; after the first failure nothing more is
    delivered. *)
Fixpoint deliver {S} (sink : S -> bytes -> option S) (fileKey : bytes) (codec : Z) (st : S) (bs : list EncryptedBlock) :
  S * option block_error :=
  match bs with
  | [] => (st, None)
  | b :: bs =>
      match open_block fileKey codec b with
      | inr e => (st, Some e)
      | inl pt => match sink st pt with
                  | None => (st, Some BlockSink)
                  | Some st => deliver sink fileKey codec st bs
                  end
      end
  end.

(** [streamDataBlocks]: a framing error wins over a block error. *)
Definition streamDataBlocks {S} (sink : S -> bytes -> option S) (fileKey : bytes) (codec : Z) (st : S) :
  bytes -> S * option ArchiveError * bytes := fun s =>
  let '(bs, readErr, rest) := read_blocks (Datatypes.S (length s)) s in
  let '(st, firstErr) := deliver sink fileKey codec st bs in
  (st,
   match readErr, firstErr with
   | Some e, _ => Some e
   | None, None => None
   | None, Some BlockSink => Some (recoverable ErrCodeWriteFailed "write file")
   | None, Some BlockDecompress => Some (recoverable ErrCodeIntegrityFail "decompress block")
   | None, Some BlockAuth => Some (recoverable ErrCodeAuthFailed "decrypt block")
   end, rest).

(** [decryptDataBlocks]: collect the plaintext in memory. *)
Definition decryptDataBlocks (fileKey : bytes) (codec : Z) : rd bytes := fun s =>
  let '(out, e, rest) := streamDataBlocks (fun acc pt => Some (acc ++ pt)) fileKey codec [] s in
  (match e with Some e => IErr e | None => IOk out end, rest).

(** ** Trailers *)

Record trailerInfo := mk_tinfo { ti_hmac : bytes; ti_size : Z; ti_hasSize : bool }.

Definition readTrailer (fileKey : bytes) (version : Z) : rd trailerInfo :=
  let* _ := skipPadding (truncated "skip trailer padding") in
  let* nonce := rfull NonceSize (truncated "read HMAC nonce") in
  let* sizeBuf := rfull 4 (truncated "read HMAC sealed size") in
  let sealedSize := le_u32 sizeBuf in
  if TrailerPayloadSize + GCMTagSize <? sealedSize then rfail (fatal ErrCodeIntegrityFail "sealed trailer too large")
  else
    let* sealed := rfull sealedSize (truncated "read HMAC sealed") in
    let* _ := rfull 8 (truncated "read entry checksum") in
    match DecryptBlock fileKey (mk_block nonce sealed) with
    | Err _ => rfail (recoverable ErrCodeAuthFailed "decrypt HMAC")
    | Ok payload =>
        if (version =? Version1) && (len payload =? HMACSize)
        then rret (mk_tinfo (ztake HMACSize payload) 0 false)
        else if negb (version =? Version1) && (len payload =? TrailerPayloadSize)
        then rret (mk_tinfo (ztake HMACSize payload) (le_u64 (zdrop HMACSize payload)) true)
        else rfail (recoverable ErrCodeIntegrityFail "HMAC length mismatch")
    end.

(** [verifyPlaintext], and [verifiedFile.verify] on the data written so far. *)
Definition verifyPlaintext (fileKey plaintext : bytes) (t : trailerInfo) : iores unit :=
  match VerifyHMAC fileKey plaintext (ti_hmac t) with
  | Err _ => IErr (recoverable ErrCodeIntegrityFail "plaintext HMAC mismatch")
  | Ok _ => if ti_hasSize t && negb (ti_size t =? u64 (len plaintext))
            then IErr (recoverable ErrCodeIntegrityFail "plaintext size mismatch") else IOk tt
  end.

Context {T : Type} `{TR : !Tree T}.

(** A step on the reader and the output directory. *)
Definition rt (X : Type) : Type := T -> bytes -> iores X * T * bytes.

Definition lift {X} (m : rd X) : rt X := fun t s => let '(r, s) := m s in (r, t, s).
Definition tret {X} (x : X) : rt X := fun t s => (IOk x, t, s).
Definition tfail {X} (e : ArchiveError) : rt X := fun t s => (IErr e, t, s).
Definition tbind {X Y} (m : rt X) (k : X -> rt Y) : rt Y := fun t s =>
  match m t s with (IOk x, t, s) => k x t s | (IErr e, t, s) => (IErr e, t, s) end.

Notation "'let+' x ':=' m 'in' k" := (tbind m (fun x => k))
  (at level 10, x name, m at level 100, k at level 200) : go_scope.

Record ExtractionResult := mk_xr { xr_Filename : bytes; xr_Size : Z; xr_OK : bool; xr_Err : option ArchiveError }.

(** [extractSpecial]. *)
Definition extractSpecial (name : bytes) (attrs : Attributes) : rt ExtractionResult :=
  let+ _ := lift (skipEntryBody None) in
  fun t s => match t_special name attrs t with
             | (IOk _, t) => (IOk (mk_xr name 0 true None), t, s)
             | (IErr e, t) => if IsFatal e then (IErr e, t, s)
                              else (IOk (mk_xr name 0 false (Some e)), t, s)
             end.

(** Run [m] and discard the temporary file if it fails ([defer out.discard()]). *)
Definition with_discard {X} (m : rt X) : rt X := fun t s =>
  match m t s with
  | (IErr e, t, s) => (IErr e, t_discard t, s)
  | r => r
  end.

(** The sink of a file entry: the open temporary file and the plaintext hashed so far. *)
Definition file_sink (st : T * bytes) (pt : bytes) : option (T * bytes) :=
  match t_append pt (fst st) with Some t => Some (t, snd st ++ pt) | None => None end.

(** The rest of a regular file entry: stream the plaintext into a temporary file, verify the
    trailer, and only then publish the file under its name. *)
Definition extract_regular (keys : KeySchedule) (fileKey : bytes) (pm : PlaintextMetadata) (filename : bytes) :
  rt ExtractionResult := fun t s =>
  match t_create filename t with
  | (IErr e, t) => if IsFatal e then (IErr e, t, s)
                   else (let+ _ := lift (skipEntryBody (Some e)) in tfail e) t s
  | (IOk _, t) =>
      with_discard
        (let+ _ := lift (skipPadding (truncated "skip inter-block padding")) in
         fun t s =>
         match streamDataBlocks file_sink fileKey (pm_Codec pm) (t, []) s with
         | ((t, _), Some e, s) =>
             if IsFatal e then (IErr e, t, s) else (let+ _ := lift (skipTrailer (Some e)) in tfail e) t s
         | ((t, plaintext), None, s) =>
             (let+ trailer := lift (readTrailer fileKey (ks_Version keys)) in
              match verifyPlaintext fileKey plaintext trailer with
              | IErr e => tfail e
              | IOk _ => fun t s =>
                  match t_publish filename (pm_Attributes pm) (Z.land (Permissions pm) 511) t with
                  | (Err _, t) => (IErr (recoverable ErrCodeWriteFailed "write file"), t, s)
                  | (Ok _, t) => (IOk (mk_xr filename (len plaintext) true None), t, s)
                  end
              end) t s
         end) t s
  end.

Definition extractFileBody (keys : KeySchedule) (head : entryHead) : rt ExtractionResult :=
  let fileKey := eh_fileKey head in
  let pm := eh_pm head in
  match decryptFilename (EncryptedFilename pm) fileKey with
  | Err _ =>
      let+ _ := lift (skipEntryBody (Some (recoverable ErrCodeAuthFailed "decrypt filename"))) in
      tfail (recoverable ErrCodeAuthFailed "decrypt filename")
  | Ok filename =>
      match pm_Attributes pm with
      | Some attrs =>
          if negb (Kind attrs =? KindRegular) then extractSpecial filename attrs
          else extract_regular keys fileKey pm filename
      | None => extract_regular keys fileKey pm filename
      end
  end.

(** ** Solid groups *)

(** [readSolidStream]: the authenticated record stream and its stored size. *)
Definition readSolidStream (keys : KeySchedule) (head : entryHead) : rd (bytes * Z) :=
  let fileKey := eh_fileKey head in
  let* _ := skipPadding (truncated "skip inter-block padding") in
  fun s => match decryptDataBlocks fileKey CodecNone s with
  | (IErr e, s) => if IsFatal e then (IErr e, s) else (let* _ := skipTrailer (Some e) in rfail e) s
  | (IOk payload, s) =>
      (let* trailer := readTrailer fileKey (ks_Version keys) in
       let stream :=
         if pm_Codec (eh_pm head) =? CodecZstd
         then match Decompress NewSolidDecompressor payload with
              | Ok b => IOk b
              | Err _ => IErr (recoverable ErrCodeIntegrityFail "decompress solid group") end
         else if MaxSolidStreamSize <? len payload
         then IErr (recoverable ErrCodeIntegrityFail "solid group exceeds maximum size")
         else IOk payload in
       match stream with
       | IErr e => rfail e
       | IOk stream => match verifyPlaintext fileKey stream trailer with
                       | IErr e => rfail e
                       | IOk _ => rret (stream, len payload)
                       end
       end) s
  end.

Definition readSolidMembers (keys : KeySchedule) (head : entryHead) : rd (list SolidMember * Z * Z) :=
  let* sp := readSolidStream keys head in
  match ParseSolidStream (fst sp) with
  | Err _ => rfail (recoverable ErrCodeIntegrityFail "parse solid group")
  | Ok members => rret (members, len (fst sp), snd sp)
  end.

(** The member loop of [extractSolidBody]: the results so far and the fatal error that
    stopped it, if any. *)
Fixpoint write_members (ms : list SolidMember) (t : T) : list ExtractionResult * option ArchiveError * T :=
  match ms with
  | [] => ([], None, t)
  | m :: ms =>
      match t_writeFile (sm_Name m) (sm_Data m) (sm_Attributes m) t with
      | (IErr e, t) =>
          if IsFatal e then ([], Some e, t)
          else let '(rs, err, t) := write_members ms t in
               (mk_xr (sm_Name m) 0 false (Some e) :: rs, err, t)
      | (IOk _, t) =>
          let '(rs, err, t) := write_members ms t in
          (mk_xr (sm_Name m) (len (sm_Data m)) true None :: rs, err, t)
      end
  end.

(** [extractEntry]: the caller drops the results of an entry that returns an error. *)
Definition extractSolidBody (keys : KeySchedule) (head : entryHead) : rt (list ExtractionResult) :=
  let+ m := lift (readSolidMembers keys head) in
  fun t s =>
  match write_members (fst (fst m)) t with
  | (rs, None, t) => (IOk rs, t, s)
  | (_, Some e, t) => (IErr e, t, s)
  end.

Definition extractEntry (keys : KeySchedule) (entryType : Z) : rt (list ExtractionResult) :=
  let+ head := lift (readEntryHead keys) in
  if entryType =? EntryTypeSolid then extractSolidBody keys head
  else let+ r := extractFileBody keys head in tret [r].

(** ** The entry loop *)

(** [skipDirectory] (io/directory.go): a directory entry, or the rest of a locator, whose
    type byte was just read. *)
Definition skipDirectory (keys : KeySchedule) (entryType : Z) : rd unit :=
  if entryType =? EntryTypeDirectoryLocator then
    let* rest := rfull (DirectoryLocatorSize - 1) (fatal ErrCodeTruncated "read directory locator") in
    match ParseDirectoryLocator ([zb entryType] ++ rest) with
    | Err _ => rfail (fatal ErrCodeIntegrityFail "damaged directory locator")
    | Ok _ => rret tt
    end
  else fun s =>
    match readEntryHead keys s with
    | (IErr _, s) => (IErr (fatal ErrCodeIntegrityFail "damaged directory"), s)
    | (IOk _, s) =>
        match skipEntryBody None s with
        | (IErr _, s) => (IErr (fatal ErrCodeIntegrityFail "damaged directory"), s)
        | (IOk _, s) => (IOk tt, s)
        end
    end.

(** [nextEntryType]: the next file or solid entry, or [None] at the end of the archive. *)
Fixpoint next_entry (fuel : nat) (keys : KeySchedule) : rd (option Z) := fun s =>
  match fuel with
  | O => (IErr (fatal ErrCodeTruncated "read entry type"), s)
  | S fuel =>
      match s with
      | [] => if ks_Version keys =? Version1 then (IOk None, [])
              else (IErr (fatal ErrCodeTruncated "read entry type"), [])
      | b :: s =>
          let ty := bz b in
          if ks_Version keys =? Version1
          then (IOk (if ty =? EntryTypeFile then Some ty else None), s)
          else if (ty =? EntryTypeFile) || (ty =? EntryTypeSolid) then (IOk (Some ty), s)
          else if ty =? EntryTypeEnd then (IOk None, s)
          else if (ty =? EntryTypeDirectory) || (ty =? EntryTypeDirectoryLocator)
          then (let* _ := skipDirectory keys ty in next_entry fuel keys) s
          else (IErr (fatal ErrCodeIntegrityFail "unexpected entry type"), s)
      end
  end.

Definition nextEntryType (keys : KeySchedule) : rd (option Z) := fun s => next_entry (S (length s)) keys s.

(** The entry loop of [Extract]: the results, the fatal error that stopped it, the output
    directory and the unread bytes. *)
Fixpoint extract_loop (fuel : nat) (keys : KeySchedule) (t : T) (s : bytes) :
  list ExtractionResult * option ArchiveError * T * bytes :=
  match fuel with
  | O => ([], None, t, s)
  | S fuel =>
      match nextEntryType keys s with
      | (IErr e, s) => ([], Some e, t, s)
      | (IOk None, s) => ([], None, t, s)
      | (IOk (Some ty), s) =>
          match extractEntry keys ty t s with
          | (IErr e, t, s) =>
              if IsFatal e then ([], Some e, t, s)
              else let '(rs, err, t, s) := extract_loop fuel keys t s in
                   (mk_xr [] 0 false (Some e) :: rs, err, t, s)
          | (IOk r, t, s) =>
              let '(rs, err, t, s) := extract_loop fuel keys t s in (r ++ rs, err, t, s)
          end
      end
  end.

Definition extractEntries (keys : KeySchedule) (t : T) (s : bytes) : list ExtractionResult * option ArchiveError * T * bytes :=
  extract_loop (S (length s)) keys t s.

(** ** The header *)

Record headerInfo := mk_hinfo { hi_flags : Z; hi_sealedCount : Z; hi_recipientBlockLen : Z }.

Definition hi_incremental (h : headerInfo) : bool := negb (Z.land (hi_flags h) HeaderFlagIncremental =? 0).
Definition hi_end (h : headerInfo) : Z := FileCountOffset (hi_recipientBlockLen h) + FileCountSealedSize + ReservedSize.

Definition openFileCount (keys : KeySchedule) (sealed : bytes) : result Z :=
  let? headerKey := HeaderKey keys in
  let? plain := DecryptBlock headerKey (mk_block (ztake NonceSize sealed) (zdrop NonceSize sealed)) in
  if negb (len plain =? 8) then errorf ErrOther "sealed count size" else Ok (le_u64 plain).

Definition readVersion1Header (password : bytes) : rd (KeySchedule * headerInfo) :=
  let* _ := rfull (SaltSize + FileCountSealedSize + ReservedSize) (fatal ErrCodeTruncated "read header") in
  if bytes_eqb password [] then rfail (fatal ErrCodeAuthFailed "version 1 archives require a password")
  else rret (KeysV1 password, mk_hinfo 0 0 0).

Definition readVersion2Header (u : Unlockers) : rd (KeySchedule * headerInfo) :=
  let* lenBuf := rfull 4 (fatal ErrCodeTruncated "read recipient block length") in
  let blockLen := le_u32 lenBuf in
  if MaxRecipientBlockSize <? blockLen then rfail (fatal ErrCodeIntegrityFail "recipient block exceeds maximum size")
  else
    let* block := rfull blockLen (fatal ErrCodeTruncated "read recipient block") in
    let* count := rfull FileCountSealedSize (fatal ErrCodeTruncated "read file count") in
    let* reserved := rfull ReservedSize (fatal ErrCodeTruncated "read header reserved") in
    match OpenRecipientBlock block u with
    | OpenNoMatch _ => rfail (fatal ErrCodeAuthFailed "no matching credential")
    | OpenIdentityFailed => rfail (fatal ErrCodeAuthFailed "identity could not be used")
    | OpenMalformed _ => rfail (fatal ErrCodeIntegrityFail "malformed recipient block")
    | Opened cek =>
        let keys := KeysV2 cek in
        match openFileCount keys count with
        | Err _ => rfail (fatal ErrCodeAuthFailed "corrupted header")
        | Ok n => rret (keys, mk_hinfo (bz (hd Byte.x00 reserved)) n blockLen)
        end
    end.

Definition readHeader (u : Unlockers) : rd (KeySchedule * headerInfo) :=
  let* magic := rfull 4 (fatal ErrCodeTruncated "read magic") in
  if negb (bytes_eqb magic Magic) then rfail (fatal ErrCodeBadMagic "invalid magic bytes")
  else
    let* version := rfull 2 (fatal ErrCodeTruncated "read version") in
    let v := le_u16 version in
    if v =? Version1 then readVersion1Header (u_Password u)
    else if v =? Version2 then readVersion2Header u
    else rfail (fatal ErrCodeBadVersion "unsupported version").
End Extractor.
