(* ===== verification/OutputTree.v ===== *)
(** * The output directory (io/output_tree.go, io/verified_file.go)

    [outputTree] writes extracted entries through an [os.Root]. The root is the interface
    [Root]: a state and one transition per system call, each of which may fail. Paths use
    "/" (Unix), warnings leave out the text of the system error, and an open file is named
    by the path it was opened at: no file is renamed while open. The instance at the end
    makes an [outputTree] the directory the extractor writes to. *)

From S2P Require Import Prelude Bytes Names Attributes IndexCodec Crypto IOErrors Inputs SolidPlan Extractor.
Open Scope go_scope.

(** ** System calls *)

(** [Lstat] yields 1 for a directory; [CreateExcl] yields 1 when the name is taken. *)
Inductive call :=
  | MkdirOutput                              (* os.MkdirAll(t.dir) *)
  | OpenRoot                                 (* os.OpenRoot(t.dir) *)
  | MkdirAll (p : bytes)
  | CreateExcl (p : bytes)                   (* O_RDWR|O_CREATE|O_EXCL, 0600 *)
  | OpenFile (p : bytes)
  | WriteTo (p data : bytes)
  | WriteToAt (p data : bytes) (off : Z)
  | Fsetxattr (p name value : bytes)
  | Chown (p : bytes) (uid gid : Z)
  | Chmod (p : bytes) (mode : Z)
  | CloseFile (p : bytes)
  | Rename (old new : bytes)
  | Remove (p : bytes)
  | Lstat (p : bytes)
  | Symlink (target p : bytes)
  | Link (old new : bytes)
  | Lchown (p : bytes) (uid gid : Z)
  | Chtimes (p : bytes) (mtime : Z).

Class Root (R : Type) := perform : call -> R -> result Z * R.

(** ** Names *)

(** [filepath.IsLocal] on Unix: relative, not empty, and never above where it starts. *)
Fixpoint stays_below (depth : nat) (elems : list bytes) : bool :=
  match elems with
  | [] => true
  | e :: elems =>
      if bytes_eqb e [] || bytes_eqb e dot then stays_below depth elems
      else if bytes_eqb e dotdot then match depth with O => false | S d => stays_below d elems end
      else stays_below (S depth) elems
  end.

Definition IsLocal (p : bytes) : bool :=
  negb (bytes_eqb p []) && negb (has_prefix [slash] p) && stays_below 0 (split_on slash p).

Definition localName (name : bytes) : iores bytes :=
  if negb (ValidEntryName name) || negb (IsLocal name) then IErr (recoverable ErrCodeIntegrityFail "unsafe file name") else IOk name.

(** [filepath.Dir] and [filepath.Join] of clean relative paths. *)
Definition path_Dir (p : bytes) : bytes :=
  match removelast (split_on slash p) with [] => dot | es => join_with slash es end.
Definition path_Join (dir elem : bytes) : bytes := if bytes_eqb dir dot then elem else dir ++ slash :: elem.

Definition tempNameAttempts : nat := 8.
Definition tempFilePrefix : bytes := str ".sarc-extract-".

Definition hex_digit (d : Z) : byte := zb (if d <? 10 then 48 + d else 87 + d).
Definition EncodeToString (b : bytes) : bytes := concat (map (fun x => [hex_digit (bz x / 16); hex_digit (bz x mod 16)]) b).

(** ** The tree *)

Section OutputTree.
Context {R : Type} `{RT : !Root R}.

Record outputTree := mk_tree {
  ot_root : R;
  ot_opened : bool;                       (* root != nil *)
  ot_restoreOwner : bool;
  ot_dirs : list (bytes * Attributes);
  ot_warned : list string;
  ot_warnings : list (bytes * string);    (* what the progress tracker was told *)
  ot_rng : rng
}.

Definition newOutputTree (root : R) (restoreOwner : bool) (r : rng) : outputTree := mk_tree root false restoreOwner [] [] [] r.

Definition act (c : call) (t : outputTree) : result Z * outputTree :=
  let '(r, s) := perform c (ot_root t) in
  (r, mk_tree s (ot_opened t) (ot_restoreOwner t) (ot_dirs t) (ot_warned t) (ot_warnings t) (ot_rng t)).

Definition warnFile (local : bytes) (message : string) (t : outputTree) : outputTree :=
  mk_tree (ot_root t) (ot_opened t) (ot_restoreOwner t) (ot_dirs t) (ot_warned t) (ot_warnings t ++ [(local, message)]) (ot_rng t).

Definition warnOnce (message : string) (t : outputTree) : outputTree :=
  if existsb (String.eqb message) (ot_warned t) then t
  else mk_tree (ot_root t) (ot_opened t) (ot_restoreOwner t) (ot_dirs t) (message :: ot_warned t) (ot_warnings t ++ [([], message)]) (ot_rng t).

Definition set_opened (t : outputTree) : outputTree :=
  mk_tree (ot_root t) true (ot_restoreOwner t) (ot_dirs t) (ot_warned t) (ot_warnings t) (ot_rng t).
Definition add_dir (d : bytes * Attributes) (t : outputTree) : outputTree :=
  mk_tree (ot_root t) (ot_opened t) (ot_restoreOwner t) (ot_dirs t ++ [d]) (ot_warned t) (ot_warnings t) (ot_rng t).
Definition set_rng (r : rng) (t : outputTree) : outputTree :=
  mk_tree (ot_root t) (ot_opened t) (ot_restoreOwner t) (ot_dirs t) (ot_warned t) (ot_warnings t) r.

Definition tree_open (t : outputTree) : iores unit * outputTree :=
  if ot_opened t then (IOk tt, t)
  else match act MkdirOutput t with
  | (Err _, t) => (IErr (fatal ErrCodeWriteFailed "create output dir"), t)
  | (Ok _, t) => match act OpenRoot t with
                 | (Err _, t) => (IErr (fatal ErrCodeWriteFailed "open output dir"), t)
                 | (Ok _, t) => (IOk tt, set_opened t)
                 end
  end.

Definition prepare (name : bytes) (t : outputTree) : iores bytes * outputTree :=
  match localName name with
  | IErr e => (IErr e, t)
  | IOk local =>
  match tree_open t with
  | (IErr e, t) => (IErr e, t)
  | (IOk _, t) =>
      let parent := path_Dir local in
      if bytes_eqb parent dot then (IOk local, t)
      else match act (MkdirAll parent) t with
           | (Err _, t) => (IErr (recoverable ErrCodeWriteFailed "create directory"), t)
           | (Ok _, t) => (IOk local, t)
           end
  end end.

Fixpoint temp_loop (attempts : nat) (parent : bytes) (t : outputTree) : iores bytes * outputTree :=
  match attempts with
  | O => (IErr (recoverable ErrCodeWriteFailed "create file"), t)
  | S attempts =>
      let '(suffix, r) := draw 8 (ot_rng t) in
      let tmp := path_Join parent (tempFilePrefix ++ EncodeToString suffix) in
      match act (CreateExcl tmp) (set_rng r t) with
      | (Err _, t) => (IErr (recoverable ErrCodeWriteFailed "create file"), t)
      | (Ok taken, t) => if taken =? 1 then temp_loop attempts parent t else (IOk tmp, t)
      end
  end.

(** The temporary file's path and the destination. *)
Definition createTemp (name : bytes) (t : outputTree) : iores (bytes * bytes) * outputTree :=
  match prepare name t with
  | (IErr e, t) => (IErr e, t)
  | (IOk local, t) => match temp_loop tempNameAttempts (path_Dir local) t with
                      | (IErr e, t) => (IErr e, t)
                      | (IOk tmp, t) => (IOk (tmp, local), t)
                      end
  end.

(** ** Attributes *)

(** [writeXattrs]: how many could not be set. *)
Fixpoint writeXattrs (p : bytes) (xs : list Xattr) (t : outputTree) : Z * outputTree :=
  match xs with
  | [] => (0, t)
  | x :: xs =>
      let '(r, t) := act (Fsetxattr p (xattr_Name x) (xattr_Value x)) t in
      let '(failed, t) := writeXattrs p xs t in
      (match r with Ok _ => failed | Err _ => 1 + failed end, t)
  end.

Definition warn_unless (local : bytes) (message : string) (x : result Z * outputTree) : outputTree :=
  match x with (Ok _, t) => t | (Err _, t) => warnFile local message t end.

Definition restoreOwnership (owner : option Owner) (chown : Z -> Z -> call) (t : outputTree) : outputTree :=
  match owner with
  | None => t
  | Some o =>
      if negb (ot_restoreOwner t)
      then warnOnce "ownership recorded in the archive was not restored; pass --preserve-owner (as root) to restore it" t
      else match act (chown (UID o) (GID o)) t with
           | (Ok _, t) => t
           | (Err _, t) => warnOnce "ownership could not be restored (restoring owners needs root)" t
           end
  end.

(** [mode]: setuid, setgid and sticky bits only with the owner. *)
Definition tree_mode (mode : Z) (t : outputTree) : Z * outputTree :=
  if negb (ot_restoreOwner t) && negb (Z.land mode 3584 =? 0)
  then (fileMode (Z.land mode 511),
        warnOnce "setuid, setgid, and sticky bits were not restored; pass --preserve-owner as root to restore them" t)
  else (fileMode mode, t).

Definition applyAttributes (f local : bytes) (attrs : option Attributes) (fallbackPerm : Z) (t : outputTree) : outputTree :=
  match attrs with
  | None => warn_unless local "permissions not restored" (act (Chmod f fallbackPerm) t)
  | Some a =>
      let '(failed, t) := writeXattrs f (Xattrs a) t in
      let t := if 0 <? failed then warnFile local "extended attribute(s) not restored" t else t in
      let t := restoreOwnership (attr_Owner a) (Chown f) t in
      let '(mode, t) := tree_mode (Mode a) t in
      warn_unless local "permissions not restored" (act (Chmod f mode) t)
  end.

Definition setModTime (local : bytes) (modTime : Z) (t : outputTree) : outputTree :=
  if modTime =? 0 then t else warn_unless local "modification time not restored" (act (Chtimes local modTime) t).

(** ** Files *)

Definition tree_publish (tmp local : bytes) (attrs : option Attributes) (fallbackPerm : Z) (t : outputTree) : result unit * outputTree :=
  let t := applyAttributes tmp local attrs fallbackPerm t in
  match act (CloseFile tmp) t with
  | (Err _, t) => (errorf ErrOther "close", t)
  | (Ok _, t) => match act (Rename tmp local) t with
                 | (Err _, t) => (errorf ErrOther "rename", t)
                 | (Ok _, t) => (Ok tt, match attrs with Some a => setModTime local (ModTime a) t | None => t end)
                 end
  end.

Definition tree_discard (tmp : bytes) (t : outputTree) : outputTree := snd (act (Remove tmp) (snd (act (CloseFile tmp) t))).

Definition writeFile (name data : bytes) (attrs : Attributes) (t : outputTree) : iores unit * outputTree :=
  match createTemp name t with
  | (IErr e, t) => (IErr e, t)
  | (IOk (tmp, local), t) =>
      match act (WriteTo tmp data) t with
      | (Err _, t) => (IErr (recoverable ErrCodeWriteFailed "write file"), tree_discard tmp t)
      | (Ok _, t) => match tree_publish tmp local (Some attrs) 420 t with
                     | (Err _, t) => (IErr (recoverable ErrCodeWriteFailed "write file"), tree_discard tmp t)
                     | (Ok _, t) => (IOk tt, t)
                     end
      end
  end.

(** ** Directories and links *)

Definition removeExisting (local : bytes) (t : outputTree) : outputTree :=
  match act (Lstat local) t with
  | (Ok isDir, t) => if isDir =? 1 then t else snd (act (Remove local) t)
  | (Err _, t) => t
  end.

Definition symlink (name : bytes) (attrs : Attributes) (t : outputTree) : iores unit * outputTree :=
  match prepare name t with
  | (IErr e, t) => (IErr e, t)
  | (IOk local, t) =>
      match act (Symlink (LinkTarget attrs) local) (removeExisting local t) with
      | (Err _, t) => (IErr (recoverable ErrCodeWriteFailed "create symlink"), t)
      | (Ok _, t) => (IOk tt, restoreOwnership (attr_Owner attrs) (Lchown local) t)
      end
  end.

Definition hardlink (name : bytes) (attrs : Attributes) (t : outputTree) : iores unit * outputTree :=
  match localName (LinkTarget attrs) with
  | IErr e => (IErr e, t)
  | IOk target =>
  match prepare name t with
  | (IErr e, t) => (IErr e, t)
  | (IOk local, t) =>
      match act (Link target local) (removeExisting local t) with
      | (Err _, t) => (IErr (recoverable ErrCodeWriteFailed "create hard link"), t)
      | (Ok _, t) => (IOk tt, t)
      end
  end end.

Definition directory (name : bytes) (attrs : Attributes) (t : outputTree) : iores unit * outputTree :=
  match prepare name t with
  | (IErr e, t) => (IErr e, t)
  | (IOk local, t) =>
      match act (MkdirAll local) t with
      | (Err _, t) => (IErr (recoverable ErrCodeWriteFailed "create directory"), t)
      | (Ok _, t) => (IOk tt, add_dir (local, attrs) t)
      end
  end.

Definition special (name : bytes) (attrs : Attributes) (t : outputTree) : iores unit * outputTree :=
  if Kind attrs =? KindDirectory then directory name attrs t
  else if Kind attrs =? KindSymlink then symlink name attrs t
  else if Kind attrs =? KindHardlink then hardlink name attrs t
  else (IErr (recoverable ErrCodeIntegrityFail "unknown entry kind"), t).

(** [close]: the attributes of directories, deepest first. *)
Definition slashes (p : bytes) : Z := len (filter (fun b => b = slash) p).

Fixpoint close_dirs (dirs : list (bytes * Attributes)) (t : outputTree) : outputTree :=
  match dirs with
  | [] => t
  | (local, attrs) :: dirs =>
      close_dirs dirs
        (match act (OpenFile local) t with
         | (Err _, t) => warnFile local "directory attributes not restored" t
         | (Ok _, t) =>
             let t := applyAttributes local local (Some attrs) 0 t in
             setModTime local (ModTime attrs) (snd (act (CloseFile local) t))
         end)
  end.

Definition tree_close (t : outputTree) : outputTree :=
  if negb (ot_opened t) then t
  else close_dirs (stable_sort (fun a b => slashes (fst b) <? slashes (fst a)) (ot_dirs t)) t.
End OutputTree.
Arguments outputTree R : clear implicits.

(** ** Files being extracted *)

Definition verifiedFileBufferSize : Z := 1048576.

(** The running HMAC and size are computed by the extractor's sink. *)
Record verifiedFile := mk_vf { vf_tmp : bytes; vf_local : bytes; vf_buf : bytes }.

(** An output directory with at most one file being extracted. *)
Record extraction (R : Type) := mk_extraction { ex_tree : outputTree R; ex_file : option verifiedFile }.
Arguments mk_extraction {R} _ _.
Arguments ex_tree {R} _.
Arguments ex_file {R} _.

Section VerifiedFile.
Context {R : Type} `{RT : !Root R}.

(** [bufio.Writer.Write] with an empty buffer: what is left in the buffer. *)
Definition buf_direct (tmp p : bytes) (t : outputTree R) : option (bytes * outputTree R) :=
  if verifiedFileBufferSize <? len p
  then match act (WriteTo tmp p) t with (Ok _, t) => Some ([], t) | (Err _, _) => None end
  else Some (p, t).

Definition buf_write (tmp p buf : bytes) (t : outputTree R) : option (bytes * outputTree R) :=
  let room := verifiedFileBufferSize - len buf in
  if len p <=? room then Some (buf ++ p, t)
  else if bytes_eqb buf [] then buf_direct tmp p t
  else match act (WriteTo tmp (buf ++ ztake room p)) t with
       | (Ok _, t) => buf_direct tmp (zdrop room p) t
       | (Err _, _) => None
       end.

Definition vf_write (pt : bytes) (x : extraction R) : option (extraction R) :=
  match ex_file x with
  | None => None
  | Some v => match buf_write (vf_tmp v) pt (vf_buf v) (ex_tree x) with
              | Some (buf, t) => Some (mk_extraction t (Some (mk_vf (vf_tmp v) (vf_local v) buf)))
              | None => None
              end
  end.

Definition newVerifiedFile (name : bytes) (x : extraction R) : iores unit * extraction R :=
  match createTemp name (ex_tree x) with
  | (IErr e, t) => (IErr e, mk_extraction t (ex_file x))
  | (IOk (tmp, local), t) => (IOk tt, mk_extraction t (Some (mk_vf tmp local [])))
  end.

Definition vf_flush (v : verifiedFile) (t : outputTree R) : result Z * outputTree R :=
  if bytes_eqb (vf_buf v) [] then (Ok 0, t) else act (WriteTo (vf_tmp v) (vf_buf v)) t.

Definition vf_publish (attrs : option Attributes) (fallbackPerm : Z) (x : extraction R) : result unit * extraction R :=
  match ex_file x with
  | None => (errorf ErrOther "no open file", x)
  | Some v =>
      match vf_flush v (ex_tree x) with
      | (Err _, t) => (errorf ErrOther "flush", mk_extraction t (ex_file x))
      | (Ok _, t) => match tree_publish (vf_tmp v) (vf_local v) attrs fallbackPerm t with
                     | (Err e, t) => (Err e, mk_extraction t (ex_file x))
                     | (Ok _, t) => (Ok tt, mk_extraction t None)
                     end
      end
  end.

Definition vf_discard (x : extraction R) : extraction R :=
  match ex_file x with
  | None => x
  | Some v => mk_extraction (tree_discard (vf_tmp v) (ex_tree x)) None
  end.

(** The directory the extractor writes to. A failed write keeps the state from before it:
    the temporary file is then discarded. *)
#[global] Instance outputTree_Tree : Tree (extraction R) := {|
  t_create := newVerifiedFile;
  t_append := vf_write;
  t_publish _ := vf_publish;
  t_discard := vf_discard;
  t_special n a x := let '(r, t) := special n a (ex_tree x) in (r, mk_extraction t (ex_file x));
  t_writeFile n d a x := let '(r, t) := writeFile n d a (ex_tree x) in (r, mk_extraction t (ex_file x))
|}.
End VerifiedFile.
