(* ===== verification/OutputProofs.v ===== *)
(** * Extraction stays inside the output directory

    Every system call an extraction makes, on any archive bytes and whatever calls fail,
    names only paths below the output directory. *)

From S2P Require Import Prelude Bytes Names Attributes Metadata IndexCodec Crypto Codec Frames Checksum Writer Recipients IOErrors Inputs SolidPlan Solid Extractor OutputTree.
Open Scope go_scope.

(** A relative path without empty, "." or ".." elements. *)
Definition inside (p : bytes) : Prop := Forall (fun e => bad_elem e = false) (split_on slash p).

(** Calls below the directory; owners and special mode bits only when they are restored. *)
Definition confined (owner : bool) (c : call) : Prop :=
  match c with
  | MkdirOutput | OpenRoot => True
  | MkdirAll p | CreateExcl p | OpenFile p | WriteTo p _ | WriteToAt p _ _ | Fsetxattr p _ _
  | CloseFile p | Remove p | Lstat p | Symlink _ p | Chtimes p _ => inside p
  | Chown p _ _ | Lchown p _ _ => inside p /\ owner = true
  | Chmod p mode => inside p /\ (owner = true \/ Z.land mode 511 = mode)
  | Rename a b | Link a b => inside a /\ inside b
  end.

(** ** Paths *)

Lemma split_on_app sep a b : split_on sep (a ++ sep :: b) = split_on sep a ++ split_on sep b.
Proof.
  induction a as [|x a IH]; cbn [app split_on]; [by rewrite bool_decide_true|]. case_bool_decide; [by rewrite IH|].
  rewrite IH. pose proof (split_on_nonempty sep a). by destruct (split_on sep a).
Qed.

Lemma split_on_join sep es : es <> [] -> Forall (fun e => sep ∉ e) es -> split_on sep (join_with sep es) = es.
Proof.
  induction es as [|e es IH]; intros Hne Hf; [done|]. apply Forall_cons in Hf as [He Hf]. assert (split_on sep e = [e]) as Hs.
  { clear -He. induction e as [|b e IH]; [done|]. cbn [split_on]. rewrite bool_decide_false by (intros ->; apply He; by left).
    rewrite IH; [done|]. intros Hin. apply He. by right. }
  destruct es as [|e' es]; [done|]. change (join_with sep (e :: e' :: es)) with (e ++ sep :: join_with sep (e' :: es)).
  rewrite split_on_app, Hs, IH by done. done.
Qed.

Lemma split_no_sep sep s : Forall (fun e => sep ∉ e) (split_on sep s).
Proof.
  induction s as [|b s IH]; cbn [split_on]; [constructor; [apply not_elem_of_nil|constructor]|]. case_bool_decide as Hb; [constructor; [apply not_elem_of_nil|done]|].
  destruct (split_on sep s) as [|e es]; [constructor; [|constructor]|]; [intros Hin%list_elem_of_singleton; congruence|].
  apply Forall_cons in IH as [He IH]. constructor; [|done]. intros Hin%elem_of_cons. destruct Hin as [|]; [congruence|done].
Qed.

Lemma removelast_Forall {A} (P : A -> Prop) l : Forall P l -> Forall P (removelast l).
Proof. induction 1 as [|x l Hx Hl IH]; [constructor|]. cbn [removelast]. destruct l; [constructor|]. by constructor. Qed.

Lemma inside_dir p : inside p -> path_Dir p <> dot -> inside (path_Dir p) /\ split_on slash (path_Dir p) = removelast (split_on slash p).
Proof.
  unfold inside, path_Dir. intros Hp Hd. destruct (removelast (split_on slash p)) as [|e es] eqn:E; [done|].
  rewrite split_on_join; [|done|rewrite <- E; apply removelast_Forall, split_no_sep]. split; [|done]. rewrite <- E. by apply removelast_Forall.
Qed.

Lemma hex_no_slash b : slash ∉ EncodeToString b.
Proof.
  unfold EncodeToString. induction b as [|x b IH]; cbn [map concat]; [apply not_elem_of_nil|]. intros [Hin|Hin]%elem_of_app; [|done].
  assert (forallb (fun z => negb (bool_decide (hex_digit z = slash))) (seqZ 0 16) = true) as Hall by (vm_compute; reflexivity).
  rewrite forallb_forall in Hall. pose proof (bz_range x). apply elem_of_cons in Hin as [Hin|Hin%list_elem_of_singleton].
  - specialize (Hall (bz x / 16)). rewrite <- Hin, bool_decide_true in Hall by done. discriminate Hall. apply list_elem_of_In, elem_of_seqZ. split; [apply Z.div_pos; lia|].
    apply Z.div_lt_upper_bound; lia.
  - specialize (Hall (bz x mod 16)). rewrite <- Hin, bool_decide_true in Hall by done. discriminate Hall. apply list_elem_of_In, elem_of_seqZ.
    pose proof (Z.mod_pos_bound (bz x) 16). lia.
Qed.

Lemma temp_inside local suffix : inside local -> inside (path_Join (path_Dir local) (tempFilePrefix ++ EncodeToString suffix)).
Proof.
  intros Hl. set (t := tempFilePrefix ++ EncodeToString suffix). assert (slash ∉ t) as Ht.
  { intros [Hin|Hin]%elem_of_app; [|by apply hex_no_slash in Hin]. vm_compute in Hin. by repeat (apply elem_of_cons in Hin as [?|Hin]; [discriminate|]); apply elem_of_nil in Hin. }
  assert (split_on slash t = [t]) as Hs by (change t with (join_with slash [t]) at 1; apply split_on_join; [done|by constructor]).
  assert (bad_elem t = false) as Hb by done. unfold path_Join. destruct (bytes_eqb (path_Dir local) dot) eqn:Ed.
  - unfold inside. rewrite Hs. by constructor.
  - assert (path_Dir local <> dot) as Hd by (intros E; rewrite E in Ed; discriminate Ed). destruct (inside_dir local Hl Hd) as [Hi _].
    unfold inside. rewrite split_on_app, Hs. apply Forall_app. split; [exact Hi|by constructor].
Qed.

Lemma localName_inside name local : localName name = IOk local -> inside local /\ local = name.
Proof.
  unfold localName. destruct (ValidEntryName name) eqn:Ev; [|done]. cbn [negb orb]. destruct (IsLocal name); [|done].
  intros E. apply IOk_inj in E. subst. split; [|done]. by apply valid_name_elems.
Qed.

(** ** The tree *)

Section Safe.
Context {R : Type} `{RT : !Root R} (owner : bool) (I : R -> Prop).
Context (HI : forall c s, confined owner c -> I s -> I (snd (perform c s))).

(** The root has only seen confined calls, and the directories to finish are inside. *)
Definition tree_safe (t : outputTree R) : Prop :=
  I (ot_root t) /\ Forall (fun d => inside (fst d)) (ot_dirs t) /\ ot_restoreOwner t = owner.

Lemma act_safe c t : confined owner c -> tree_safe t -> tree_safe (snd (act c t)).
Proof. intros Hc [Hi Hd]. unfold act. pose proof (HI c (ot_root t) Hc Hi) as Hp. destruct (perform c (ot_root t)) as [r s]. by split. Qed.

Lemma act_safe' c t r t' : act c t = (r, t') -> confined owner c -> tree_safe t -> tree_safe t'.
Proof. intros E Hc Ht. pose proof (act_safe c t Hc Ht) as Hs. by rewrite E in Hs. Qed.

Lemma warnOnce_safe m t : tree_safe t -> tree_safe (warnOnce m t).
Proof. intros Ht. unfold warnOnce. destruct (existsb _ _); [done|]. exact Ht. Qed.

Lemma warn_unless_safe local m c t : confined owner c -> tree_safe t -> tree_safe (warn_unless local m (act c t)).
Proof. intros Hc Ht. pose proof (act_safe c t Hc Ht) as Hs. destruct (act c t) as [[z|e] t']; exact Hs. Qed.

Lemma open_safe t r t' : tree_open t = (r, t') -> tree_safe t -> tree_safe t'.
Proof.
  unfold tree_open. intros E Ht. destruct (ot_opened t); [by injection E as <- <-|]. destruct (act MkdirOutput t) as [[?|?] t1] eqn:E1; pose proof (act_safe' _ _ _ _ E1 Logic.I Ht) as H1.
  - destruct (act OpenRoot t1) as [[?|?] t2] eqn:E2; injection E as <- <-; exact (act_safe' _ _ _ _ E2 Logic.I H1).
  - by injection E as <- <-.
Qed.

Lemma prepare_safe name t r t' : prepare name t = (r, t') -> tree_safe t -> tree_safe t' /\ forall local, r = IOk local -> inside local.
Proof.
  unfold prepare. intros E Ht. destruct (localName name) as [local|e] eqn:El; [|by injection E as <- <-]. apply localName_inside in El as [Hl _].
  destruct (tree_open t) as [[u|e] t1] eqn:E1; pose proof (open_safe _ _ _ E1 Ht) as H1; [|by injection E as <- <-].
  destruct (bytes_eqb (path_Dir local) dot) eqn:Ed; [injection E as <- <-; split; [done|]; intros l El; apply IOk_inj in El; by subst|].
  assert (inside (path_Dir local)) as Hd by (apply inside_dir; [done|]; intros Hd; rewrite Hd in Ed; discriminate Ed).
  destruct (act (MkdirAll (path_Dir local)) t1) as [[?|?] t2] eqn:E2; pose proof (act_safe' _ _ _ _ E2 Hd H1) as H2; injection E as <- <-; (split; [done|]); [|done].
  intros l El. apply IOk_inj in El. by subst.
Qed.

Lemma temp_loop_safe local : inside local -> forall n t r t', temp_loop n (path_Dir local) t = (r, t') -> tree_safe t ->
  tree_safe t' /\ forall tmp, r = IOk tmp -> inside tmp.
Proof.
  intros Hl. induction n as [|n IH]; intros t r t' E Ht; cbn [temp_loop] in E; [by injection E as <- <-|]. destruct (draw 8 (ot_rng t)) as [suffix rg].
  pose proof (temp_inside local suffix Hl) as Hin. destruct (act _ (set_rng rg t)) as [[taken|?] t1] eqn:E1; pose proof (act_safe' _ _ _ _ E1 Hin Ht) as H1; [|by injection E as <- <-].
  destruct (taken =? 1); [by eapply IH|]. injection E as <- <-. split; [done|]. intros tmp Htmp. apply IOk_inj in Htmp. by subst.
Qed.

Lemma createTemp_safe name t r t' : createTemp name t = (r, t') -> tree_safe t -> tree_safe t' /\ forall tmp local, r = IOk (tmp, local) -> inside tmp /\ inside local.
Proof.
  unfold createTemp. intros E Ht. destruct (prepare name t) as [[local|e] t1] eqn:E1; destruct (prepare_safe _ _ _ _ E1 Ht) as [H1 Hl]; [|by injection E as <- <-].
  destruct (temp_loop _ _ t1) as [[tmp|e] t2] eqn:E2; destruct (temp_loop_safe local (Hl local eq_refl) _ _ _ _ E2 H1) as [H2 Htmp]; injection E as <- <-; (split; [done|]); [|done].
  intros tmp' local' Heq. apply IOk_inj in Heq. injection Heq as <- <-. split; [by apply Htmp|by apply Hl].
Qed.

Lemma writeXattrs_safe p xs : inside p -> forall t, tree_safe t -> tree_safe (snd (writeXattrs p xs t)).
Proof.
  intros Hp. induction xs as [|x xs IH]; intros t Ht; cbn [writeXattrs]; [done|].
  pose proof (act_safe (Fsetxattr p (xattr_Name x) (xattr_Value x)) t Hp Ht) as Ha. destruct (act _ t) as [r t1]. specialize (IH t1 Ha).
  destruct (writeXattrs p xs t1) as [failed t2]. exact IH.
Qed.

Lemma restoreOwnership_safe o chown t : (forall u g, owner = true -> confined owner (chown u g)) -> tree_safe t -> tree_safe (restoreOwnership o chown t).
Proof.
  intros Hc Ht. unfold restoreOwnership. destruct o as [o|]; [|done]. destruct (ot_restoreOwner t) eqn:Eo; cbn [negb]; [|by apply warnOnce_safe].
  assert (owner = true) as Hown by (destruct Ht as (_ & _ & <-); exact Eo).
  pose proof (act_safe (chown (UID o) (GID o)) t (Hc _ _ Hown) Ht) as Ha. destruct (act _ t) as [[?|?] t1]; [exact Ha|by apply warnOnce_safe].
Qed.

Lemma plain_fileMode mode : Z.land mode 3584 = 0 -> Z.land (fileMode mode) 511 = fileMode mode.
Proof.
  intros Hm. assert (forall b, Z.land 3584 b = b -> has mode b = false) as Hb.
  { intros b E. unfold has. rewrite <- E, Z.land_assoc, Hm. done. }
  unfold fileMode. rewrite !Hb by done. by rewrite <- Z.land_assoc.
Qed.

Lemma tree_mode_safe mode t : tree_safe t -> tree_safe (snd (tree_mode mode t)) /\
  (owner = true \/ Z.land (fst (tree_mode mode t)) 511 = fst (tree_mode mode t)).
Proof.
  intros Ht. pose proof Ht as (_ & _ & Ho). unfold tree_mode. rewrite Ho. destruct owner; cbn [negb andb]; [by split; [|left]|].
  destruct (Z.eqb_spec (Z.land mode 3584) 0) as [E|E]; cbn [negb fst snd]; (split; [first [done|by apply warnOnce_safe]|right]); apply plain_fileMode; [done|].
  by rewrite <- Z.land_assoc, Z.land_0_r.
Qed.

Lemma applyAttributes_safe f local attrs perm t : inside f -> Z.land perm 511 = perm -> tree_safe t -> tree_safe (applyAttributes f local attrs perm t).
Proof.
  intros Hf Hperm Ht. unfold applyAttributes. destruct attrs as [a|]; [|apply warn_unless_safe; [by split; [|right]|done]]. pose proof (writeXattrs_safe f (Xattrs a) Hf t Ht) as Hx.
  destruct (writeXattrs f (Xattrs a) t) as [failed t1]. cbn [snd] in Hx. set (t2 := if 0 <? failed then _ else t1).
  assert (tree_safe t2) as H2 by (unfold t2; by destruct (0 <? failed)). pose proof (restoreOwnership_safe (attr_Owner a) (Chown f) t2 (fun _ _ => conj Hf) H2) as H3.
  set (t3 := restoreOwnership _ _ t2) in *. destruct (tree_mode_safe (Mode a) t3 H3) as [H4 Hm].
  destruct (tree_mode (Mode a) t3) as [mode t4]. by apply warn_unless_safe.
Qed.

Lemma setModTime_safe local m t : inside local -> tree_safe t -> tree_safe (setModTime local m t).
Proof. intros Hl Ht. unfold setModTime. destruct (_ =? _); [done|]. by apply warn_unless_safe. Qed.

Lemma publish_safe tmp local attrs perm t : inside tmp -> inside local -> Z.land perm 511 = perm -> tree_safe t -> tree_safe (snd (tree_publish tmp local attrs perm t)).
Proof.
  intros Hp Hl Hperm Ht. unfold tree_publish. pose proof (applyAttributes_safe tmp local attrs perm t Hp Hperm Ht) as H1. set (t1 := applyAttributes _ _ _ _ t) in *.
  pose proof (act_safe (CloseFile tmp) t1 Hp H1) as H2. destruct (act (CloseFile tmp) t1) as [[?|?] t2]; [|exact H2].
  pose proof (act_safe (Rename tmp local) t2 (conj Hp Hl) H2) as H3. destruct (act (Rename tmp local) t2) as [[?|?] t3]; [|exact H3]. cbn [snd].
  destruct attrs as [at1|]; [by apply setModTime_safe|exact H3].
Qed.

Lemma discard_safe tmp t : inside tmp -> tree_safe t -> tree_safe (tree_discard tmp t).
Proof. intros Hp Ht. unfold tree_discard. apply act_safe; [done|]. by apply act_safe. Qed.

Lemma writeFile_safe name data attrs t : tree_safe t -> tree_safe (snd (writeFile name data attrs t)).
Proof.
  intros Ht. unfold writeFile. destruct (createTemp name t) as [[[tmp local]|e] t1] eqn:E1; destruct (createTemp_safe _ _ _ _ E1 Ht) as [H1 Hn]; [|done].
  destruct (Hn tmp local eq_refl) as [Hp Hl]. pose proof (act_safe (WriteTo tmp data) t1 Hp H1) as H2. destruct (act (WriteTo tmp data) t1) as [[?|?] t2]; [|by apply discard_safe].
  pose proof (publish_safe tmp local (Some attrs) 420 t2 Hp Hl eq_refl H2) as H3. destruct (tree_publish _ _ _ _ t2) as [[?|?] t3]; [exact H3|by apply discard_safe].
Qed.

Lemma removeExisting_safe local t : inside local -> tree_safe t -> tree_safe (removeExisting local t).
Proof.
  intros Hl Ht. unfold removeExisting. pose proof (act_safe (Lstat local) t Hl Ht) as H1. destruct (act (Lstat local) t) as [[d|?] t1]; [|exact H1].
  destruct (d =? 1); [exact H1|]. by apply act_safe.
Qed.

Lemma special_safe name attrs t : tree_safe t -> tree_safe (snd (special name attrs t)).
Proof.
  intros Ht. unfold special, directory, symlink, hardlink.
  assert (forall k : bytes -> outputTree R -> iores unit * outputTree R, (forall local t, inside local -> tree_safe t -> tree_safe (snd (k local t))) ->
    tree_safe (snd (match prepare name t with (IErr e, t) => (IErr e, t) | (IOk local, t) => k local t end))) as Hk.
  { intros k Hk. destruct (prepare name t) as [[local|e] t1] eqn:E; destruct (prepare_safe _ _ _ _ E Ht) as [H1 Hl]; [|exact H1]. apply Hk; [by apply Hl|exact H1]. }
  destruct (Kind attrs =? KindDirectory); [|destruct (Kind attrs =? KindSymlink); [|destruct (Kind attrs =? KindHardlink); [|exact Ht]]].
  - apply Hk. intros local t1 Hl H1. pose proof (act_safe (MkdirAll local) t1 Hl H1) as H2. destruct (act _ t1) as [[?|?] t2]; [|exact H2].
    destruct H2 as (Hi & Hd & Ho). split; [exact Hi|]. split; [|exact Ho]. cbn. apply Forall_app. split; [done|]. by constructor.
  - apply Hk. intros local t1 Hl H1. pose proof (removeExisting_safe local t1 Hl H1) as H2.
    pose proof (act_safe (Symlink (LinkTarget attrs) local) _ Hl H2) as H3. destruct (act _ (removeExisting local t1)) as [[?|?] t2]; [|exact H3].
    apply (restoreOwnership_safe (attr_Owner attrs) (Lchown local) t2); [by intros u g Ho|exact H3].
  - destruct (localName (LinkTarget attrs)) as [target|e] eqn:El; [|exact Ht]. apply localName_inside in El as [Htg _].
    apply Hk. intros local t1 Hl H1. pose proof (removeExisting_safe local t1 Hl H1) as H2.
    pose proof (act_safe (Link target local) _ (conj Htg Hl) H2) as H3. destruct (act _ (removeExisting local t1)) as [[?|?] t2]; exact H3.
Qed.

Lemma close_dirs_safe dirs : Forall (fun d => inside (fst d)) dirs -> forall t, tree_safe t -> tree_safe (close_dirs dirs t).
Proof.
  induction 1 as [|[local attrs] dirs Hl _ IH]; intros t Ht; cbn [close_dirs]; [done|]. cbn [fst] in Hl. apply IH.
  pose proof (act_safe (OpenFile local) t Hl Ht) as H1. destruct (act (OpenFile local) t) as [[?|?] t1]; [|exact H1].
  apply setModTime_safe; [done|]. apply act_safe; [done|]. by apply applyAttributes_safe.
Qed.

Lemma close_safe t : tree_safe t -> tree_safe (tree_close t).
Proof.
  intros Ht. unfold tree_close. destruct (negb _); [done|]. apply close_dirs_safe; [|done]. rewrite stable_sort_perm. apply Ht.
Qed.
End Safe.

(** ** The extractor on any directory *)

Section Keeps.
Context `{C : Crypto} `{ZS : Zstd} {T : Type} `{TR : !Tree T} (J : T -> Prop).

(** Every operation of the output directory keeps [J]. *)
Record tree_keeps : Prop := {
  tk_create : forall n t, J t -> J (snd (t_create n t));
  tk_append : forall pt t t', t_append pt t = Some t' -> J t -> J t';
  tk_publish : forall n a perm t, Z.land perm 511 = perm -> J t -> J (snd (t_publish n a perm t));
  tk_discard : forall t, J t -> J (t_discard t);
  tk_special : forall n a t, J t -> J (snd (t_special n a t));
  tk_writeFile : forall n d a t, J t -> J (snd (t_writeFile n d a t))
}.
Context (HK : tree_keeps).

Definition keeps {X} (m : rt X) : Prop := forall t s, J t -> J (snd (fst (m t s))).

Lemma keeps_lift {X} (m : rd X) : keeps (lift m).
Proof. intros t s Ht. unfold lift. by destruct (m s). Qed.

Lemma keeps_fail {X} e : keeps (@tfail T X e).
Proof. by intros t s Ht. Qed.

Lemma keeps_bind {X Y} (m : rt X) (k : X -> rt Y) : keeps m -> (forall x, keeps (k x)) -> keeps (tbind m k).
Proof.
  intros Hm Hk t s Ht. unfold tbind. specialize (Hm t s Ht). destruct (m t s) as [[[x|e] t1] s1]; [by apply Hk|exact Hm].
Qed.

Lemma keeps_discard {X} (m : rt X) : keeps m -> keeps (with_discard m).
Proof.
  intros Hm t s Ht. unfold with_discard. specialize (Hm t s Ht). destruct (m t s) as [[[x|e] t1] s1]; [exact Hm|].
  by apply (tk_discard HK).
Qed.

Lemma deliver_keeps key codec bs : forall st, J (fst st) -> J (fst (fst (deliver file_sink key codec st bs))).
Proof.
  induction bs as [|b bs IH]; intros [t p] Ht; cbn [deliver]; [done|]. destruct (open_block key codec b) as [pt|]; [|done].
  unfold file_sink at 1. cbn [fst]. destruct (t_append pt t) as [t'|] eqn:E; [|done]. apply IH. by eapply (tk_append HK).
Qed.

Lemma extract_regular_keeps keys key pm name : keeps (extract_regular keys key pm name).
Proof.
  intros t s Ht. unfold extract_regular. pose proof (tk_create HK name t Ht) as Hc. destruct (t_create name t) as [[u|e] t1]; cbn [snd] in Hc.
  - apply keeps_discard; [|done]. apply keeps_bind; [apply keeps_lift|]. intros _ t2 s2 H2. unfold streamDataBlocks.
    destruct (read_blocks _ s2) as [[bs readErr] rest]. pose proof (deliver_keeps key (pm_Codec pm) bs (t2, []) H2) as Hd.
    destruct (deliver file_sink key (pm_Codec pm) (t2, []) bs) as [[t3 plain] fe]. cbn [fst] in Hd.
    match goal with |- context [match ?x with Some _ => _ | None => _ end] => destruct x as [e|] end.
    + destruct (IsFatal e); [exact Hd|]. apply keeps_bind; [apply keeps_lift|intros; apply keeps_fail|exact Hd].
    + apply keeps_bind; [apply keeps_lift| |exact Hd]. intros trailer. destruct (verifyPlaintext _ _ _); [|apply keeps_fail]. intros t4 s4 H4.
      pose proof (tk_publish HK name (pm_Attributes pm) (Z.land (Permissions pm) 511) t4 ltac:(by rewrite <- Z.land_assoc) H4) as Hp. destruct (t_publish _ _ _ t4) as [[?|?] t5]; exact Hp.
  - destruct (IsFatal e); [exact Hc|]. apply keeps_bind; [apply keeps_lift|intros; apply keeps_fail|exact Hc].
Qed.

Lemma extractSpecial_keeps name attrs : keeps (extractSpecial name attrs).
Proof.
  apply keeps_bind; [apply keeps_lift|]. intros _ t s Ht. pose proof (tk_special HK name attrs t Ht) as Hs. destruct (t_special name attrs t) as [[?|e] t1]; [exact Hs|].
  destruct (IsFatal e); exact Hs.
Qed.

Lemma write_members_keeps ms : forall t, J t -> J (snd (write_members ms t)).
Proof.
  induction ms as [|m ms IH]; intros t Ht; cbn [write_members]; [done|]. pose proof (tk_writeFile HK (sm_Name m) (sm_Data m) (sm_Attributes m) t Ht) as Hw.
  destruct (t_writeFile _ _ _ t) as [[?|e] t1]; cbn [snd] in Hw.
  - specialize (IH t1 Hw). destruct (write_members ms t1) as [[rs err] t2]. exact IH.
  - destruct (IsFatal e); [exact Hw|]. specialize (IH t1 Hw). destruct (write_members ms t1) as [[rs err] t2]. exact IH.
Qed.

Lemma extractEntry_keeps keys ty : keeps (extractEntry keys ty).
Proof.
  apply keeps_bind; [apply keeps_lift|]. intros head. destruct (_ =? _).
  - apply keeps_bind; [apply keeps_lift|]. intros m t s Ht. pose proof (write_members_keeps (fst (fst m)) t Ht) as Hw.
    destruct (write_members _ t) as [[rs [e|]] t1]; exact Hw.
  - apply keeps_bind; [|intros r t s Ht; exact Ht]. unfold extractFileBody. destruct (decryptFilename _ _) as [name|]; [|apply keeps_bind; [apply keeps_lift|intros; apply keeps_fail]].
    destruct (pm_Attributes _) as [a|]; [destruct (negb _); [apply extractSpecial_keeps|]|]; apply extract_regular_keeps.
Qed.

Lemma extract_loop_keeps keys : forall fuel t s, J t -> J (snd (fst (extract_loop fuel keys t s))).
Proof.
  induction fuel as [|fuel IH]; intros t s Ht; cbn [extract_loop]; [done|]. destruct (nextEntryType keys s) as [[[ty|]|e] s1]; [|exact Ht|exact Ht].
  pose proof (extractEntry_keeps keys ty t s1 Ht) as He. destruct (extractEntry keys ty t s1) as [[[r|e] t1] s2]; cbn [fst snd] in He.
  - specialize (IH t1 s2 He). destruct (extract_loop fuel keys t1 s2) as [[[rs err] t2] s3]. exact IH.
  - destruct (IsFatal e); [exact He|]. specialize (IH t1 s2 He). destruct (extract_loop fuel keys t1 s2) as [[[rs err] t2] s3]. exact IH.
Qed.
End Keeps.

(** ** Extraction is confined *)

(** A root that also records the calls made on it. *)
#[global] Instance traced_Root {R} `{!Root R} : Root (R * list call) := fun c s =>
  let '(r, s') := perform c (fst s) in (r, (s', snd s ++ [c])).

Section Confined.
Context `{C : Crypto} `{ZS : Zstd} {R : Type} `{RT : !Root R} (owner : bool).

Definition trace (t : outputTree (R * list call)) : list call := snd (ot_root t).

Lemma traced_keeps c (s : R * list call) : confined owner c -> Forall (confined owner) (snd s) -> Forall (confined owner) (snd (snd (perform c s))).
Proof. intros Hc Hs. unfold perform, traced_Root. destruct (perform c (fst s)) as [r s']. cbn [snd]. apply Forall_app. split; [done|by constructor]. Qed.

Definition extraction_safe (x : extraction (R * list call)) : Prop :=
  tree_safe owner (fun s => Forall (confined owner) (snd s)) (ex_tree x) /\ forall v, ex_file x = Some v -> inside (vf_tmp v) /\ inside (vf_local v).

Abbreviation safe := (tree_safe owner (fun s : R * list call => Forall (confined owner) (snd s))).

Lemma buf_write_safe tmp p buf (t : outputTree (R * list call)) buf' t' : inside tmp -> buf_write tmp p buf t = Some (buf', t') -> safe t -> safe t'.
Proof.
  intros Hp. assert (forall q t1 b t2, buf_direct tmp q t1 = Some (b, t2) -> safe t1 -> safe t2) as Hd.
  { intros q t1 b t2. unfold buf_direct. destruct (_ <? _); [|by intros [= <- <-]]. intros E Hs.
    pose proof (act_safe owner _ traced_keeps (WriteTo tmp q) t1 Hp Hs) as H2. destruct (act _ t1) as [[?|?] t3]; [|done]. by injection E as <- <-. }
  unfold buf_write. destruct (_ <=? _); [by intros [= <- <-]|]. destruct (bytes_eqb buf []); [by apply Hd|]. intros E Hs.
  pose proof (act_safe owner _ traced_keeps (WriteTo tmp (buf ++ ztake (verifiedFileBufferSize - len buf) p)) t Hp Hs) as H2.
  destruct (act _ t) as [[?|?] t1]; [|done]. by eapply Hd.
Qed.

Lemma outputTree_keeps : tree_keeps extraction_safe.
Proof.
  constructor.
  - intros n x [Ht Hf]. cbn [t_create outputTree_Tree]. unfold newVerifiedFile. destruct (createTemp n (ex_tree x)) as [[[tmp local]|e] t1] eqn:E;
      destruct (createTemp_safe owner _ traced_keeps _ _ _ _ E Ht) as [H1 Hn]; (split; [exact H1|]); [|exact Hf]. intros v [= <-]. by apply Hn.
  - intros pt x x' E [Ht Hf]. cbn [t_append outputTree_Tree] in E. unfold vf_write in E. destruct (ex_file x) as [v|] eqn:Ev; [|done].
    destruct (Hf v eq_refl) as [Hp Hl]. destruct (buf_write _ _ _ _) as [[buf t1]|] eqn:Eb; [|done]. injection E as <-.
    split; [exact (buf_write_safe _ _ _ _ _ _ Hp Eb Ht)|]. by intros v' [= <-].
  - intros n a perm x Hperm [Ht Hf]. cbn [t_publish outputTree_Tree]. unfold vf_publish. destruct (ex_file x) as [v|] eqn:Ev; [|split; [exact Ht|cbn [snd]; intros v' Hv'; congruence]].
    destruct (Hf v eq_refl) as [Hp Hl]. assert (safe (snd (vf_flush v (ex_tree x)))) as H1
      by (unfold vf_flush; destruct (bytes_eqb _ _); [exact Ht|by apply (act_safe owner _ traced_keeps)]).
    destruct (vf_flush v (ex_tree x)) as [[?|?] t1]; [|split; [exact H1|by intros v' [= <-]]].
    pose proof (publish_safe owner _ traced_keeps (vf_tmp v) (vf_local v) a perm t1 Hp Hl Hperm H1) as H2.
    destruct (tree_publish _ _ _ _ t1) as [[?|?] t2]; (split; [exact H2|]); [done|by intros v' [= <-]].
  - intros x [Ht Hf]. cbn [t_discard outputTree_Tree]. unfold vf_discard. destruct (ex_file x) as [v|] eqn:Ev; [|split; [exact Ht|cbn [snd]; intros v' Hv'; congruence]].
    destruct (Hf v eq_refl) as [Hp _]. split; [by apply (discard_safe owner _ traced_keeps)|done].
  - intros n a x [Ht Hf]. cbn [t_special outputTree_Tree]. pose proof (special_safe owner _ traced_keeps n a (ex_tree x) Ht) as Hs.
    destruct (special n a (ex_tree x)) as [r t1]. by split.
  - intros n d a x [Ht Hf]. cbn [t_writeFile outputTree_Tree]. pose proof (writeFile_safe owner _ traced_keeps n d a (ex_tree x) Ht) as Hs.
    destruct (writeFile n d a (ex_tree x)) as [r t1]. by split.
Qed.

(** C8. Whatever bytes are extracted and whatever calls fail, every system call of the
    extraction, from the first temporary file to the directory attributes at the end,
    names only paths below the output directory: no absolute path, no empty, "." or ".."
    element. Without [owner] no owner is changed and no setuid, setgid or sticky
    bit is set. *)
Theorem extraction_confined (keys : KeySchedule) (s : bytes) (root : R) (r : rng) :
  let x := snd (fst (extractEntries keys (mk_extraction (newOutputTree (root, []) owner r) None) s)) in
  Forall (confined owner) (trace (tree_close (ex_tree x))).
Proof.
  intros x. assert (extraction_safe x) as [Hs _].
  { apply (extract_loop_keeps _ outputTree_keeps). split; [by split_and!; [constructor|constructor|]|done]. }
  apply (close_safe owner _ traced_keeps) in Hs. apply Hs.
Qed.
End Confined.
