(* ===== verification/ExtractorLemmas.v ===== *)
(** * Framing lemmas of the extractor

    [takes m x v]: on an input starting with [x], the reader step [m] consumes exactly [x]
    and returns [v]. Every part of a well-framed entry is taken by the reader of that part
    and by the skipper of that part, whatever the keys say about its contents. *)

From S2P Require Import Prelude Bytes Names Attributes Metadata IndexCodec Directory Solid Crypto Codec Frames.
From S2P Require Import Checksum Writer Recipients IOErrors Extractor.
Open Scope go_scope.

Definition takes {A} (m : rd A) (x : bytes) (v : A) : Prop := forall r, m (x ++ r) = (IOk v, r).

Lemma takes_ret {A} (v : A) : takes (rret v) [] v.
Proof. done. Qed.

Lemma takes_bind {A B} (m : rd A) (k : A -> rd B) x y v w :
  takes m x v -> takes (k v) y w -> takes (rbind m k) (x ++ y) w.
Proof. intros Hm Hk r. unfold rbind. rewrite <- app_assoc, Hm. apply Hk. Qed.

Lemma takes_bind_last {A B} (m : rd A) (k : A -> rd B) x v w :
  takes m x v -> takes (k v) [] w -> takes (rbind m k) x w.
Proof. intros. rewrite <- (app_nil_r x). by eapply takes_bind. Qed.

Lemma takes_rfull n e x : n = len x -> takes (rfull n e) x x.
Proof.
  intros -> r. unfold rfull. rewrite len_app, (proj2 (Z.leb_le _ _)) by len_lia.
  by rewrite ztake_app, zdrop_app.
Qed.

Lemma takes_skipPadding e pad : len pad < 2 ^ 32 -> takes (skipPadding e) (encode_padding pad) tt.
Proof.
  intros Hp. pose proof (len_nonneg pad). unfold skipPadding, encode_padding.
  eapply takes_bind; [by apply takes_rfull|].
  assert (le_u32 (le_bytes 4 (len pad)) = len pad) as ->.
  { rewrite <- (app_nil_r (le_bytes 4 _)). by apply le_u32_app. }
  eapply takes_bind_last; [by apply takes_rfull|]. apply takes_ret.
Qed.

(** The sealed fields of an entry. *)
Definition sealed_ok (lo hi : Z) (b : EncryptedBlock) : Prop :=
  len (eb_Nonce b) = NonceSize /\ lo <= len (eb_Ciphertext b) <= hi.

Record well_framed (e : FileEntry) : Prop := {
  wf_salt : len (EntrySalt e) = SaltSize;
  wf_frame : len (FrameHdr e) = FrameHeaderSize;
  wf_meta : sealed_ok 0 maxMetadataCiphertext (MetaBlock e);
  wf_inter : len (InterBlockPad e) < 2 ^ 32;
  wf_blocks : Forall (sealed_ok GCMTagSize maxBlockCiphertext) (DataBlocks e);
  wf_pad : len (RandomPadding (Trailer e)) < 2 ^ 32;
  wf_trailer : sealed_ok 0 (TrailerPayloadSize + GCMTagSize)
                 (mk_block (PlaintextHMACNonce (Trailer e)) (PlaintextHMACSealed (Trailer e)));
  wf_checksum : len (EntryChecksum (Trailer e)) = 8
}.

Lemma le_u32_exact z : 0 <= z < 2 ^ 32 -> le_u32 (le_bytes 4 z) = z.
Proof. intros. rewrite <- (app_nil_r (le_bytes 4 _)). by apply le_u32_app. Qed.

Section Framing.
Context `{C : Crypto} `{ZS : Zstd} `{AG : Age}.

Lemma takes_metadata mb : sealed_ok 0 maxMetadataCiphertext mb ->
  takes readMetadataBlock (encode_sealed mb) mb.
Proof.
  intros [Hn [Hlo Hhi]]. assert (maxMetadataCiphertext < 2 ^ 32) by done.
  unfold readMetadataBlock, encode_sealed.
  eapply takes_bind; [by apply takes_rfull|]. eapply takes_bind; [by apply takes_rfull|].
  rewrite le_u32_exact by lia. cbv zeta. ltb_false.
  eapply takes_bind_last; [by apply takes_rfull|]. destruct mb; apply takes_ret.
Qed.

Lemma takes_skipTrailer t cause : len (RandomPadding t) < 2 ^ 32 ->
  sealed_ok 0 (TrailerPayloadSize + GCMTagSize) (mk_block (PlaintextHMACNonce t) (PlaintextHMACSealed t)) ->
  len (EntryChecksum t) = 8 -> forall r,
  skipTrailer cause (encode_trailer t ++ r) = (match cause with Some e => IErr e | None => IOk tt end, r).
Proof.
  intros Hp [Hn [Hlo Hhi]] Hc r. cbn [eb_Nonce eb_Ciphertext] in *.
  assert (TrailerPayloadSize + GCMTagSize < 2 ^ 32) by done.
  unfold skipTrailer, encode_trailer, encode_sealed. cbn [eb_Nonce eb_Ciphertext].
  unfold rbind at 1. rewrite <- !app_assoc. rewrite takes_skipPadding by done.
  unfold rbind at 1. rewrite (app_assoc (PlaintextHMACNonce t)).
  rewrite (takes_rfull (NonceSize + 4)) by (rewrite len_app, len_le_bytes; lia).
  cbv zeta. rewrite zdrop_app, le_u32_exact by lia. ltb_false.
  unfold rbind at 1. rewrite (app_assoc (PlaintextHMACSealed t)).
  rewrite takes_rfull by (rewrite len_app; lia). by destruct cause.
Qed.

Lemma data_sentinel_len : len data_sentinel = NonceSize + 4.
Proof. done. Qed.

(** The stored size of skipped blocks, computed the way the skipper does. *)
Lemma takes_skip_blocks bs : Forall (sealed_ok GCMTagSize maxBlockCiphertext) bs ->
  forall fuel stored r, (length bs < fuel)%nat ->
  skip_blocks fuel stored (encode_blocks bs ++ r) = (IOk (stored + stored_size bs), r).
Proof.
  assert (maxBlockCiphertext < 2 ^ 32) by done.
  induction 1 as [|b bs [Hn [Hlo Hhi]] _ IH]; intros fuel stored r Hf;
    (destruct fuel as [|fuel]; [cbn in Hf; lia|]); cbn [skip_blocks]; unfold encode_blocks; cbn [map concat].
  - cbn [app]. unfold rbind at 1. rewrite takes_rfull by done.
    change (le_u32 (zdrop NonceSize data_sentinel) =? 0) with true. cbn. unfold rret. do 2 f_equal. lia.
  - unfold encode_sealed at 1. rewrite <- !app_assoc. unfold rbind at 1.
    rewrite (app_assoc (eb_Nonce b)). rewrite (takes_rfull (NonceSize + 4)) by (rewrite len_app, len_le_bytes; lia).
    cbv zeta. unfold GCMTagSize in *. rewrite zdrop_app, le_u32_exact by lia. eqb_false.
    rewrite (proj2 (Z.ltb_ge maxBlockCiphertext _)), (proj2 (Z.ltb_ge _ 16)) by lia. cbn [orb].
    unfold rbind at 1. rewrite takes_rfull by done.
    specialize (IH fuel (stored + (len (eb_Ciphertext b) - 16)) r). unfold encode_blocks in IH.
    rewrite <- app_assoc in IH. rewrite IH by (cbn in Hf; lia). cbn [stored_size foldr]. unfold stored_size, GCMTagSize.
    do 2 f_equal. lia.
Qed.

Lemma encode_blocks_length bs r : (length bs < S (length (encode_blocks bs ++ r)))%nat.
Proof.
  unfold encode_blocks. rewrite !length_app. assert (length bs <= length (concat (map encode_sealed bs)))%nat; [|lia].
  induction bs as [|b bs IH]; cbn [map concat length]; [lia|]. unfold encode_sealed at 1.
  rewrite !length_app, length_le_bytes. lia.
Qed.

Lemma takes_skipDataBlocks bs : Forall (sealed_ok GCMTagSize maxBlockCiphertext) bs ->
  takes skipDataBlocks (encode_blocks bs) (stored_size bs).
Proof.
  intros Hb r. unfold skipDataBlocks. rewrite takes_skip_blocks; [by rewrite Z.add_0_l|done|].
  apply encode_blocks_length.
Qed.

Lemma skipEntryBody_framed e cause r : well_framed e ->
  skipEntryBody cause (encode_body e ++ r) = (match cause with Some err => IErr err | None => IOk tt end, r).
Proof.
  intros []. unfold skipEntryBody, encode_body. unfold rbind at 1. rewrite <- !app_assoc.
  rewrite takes_skipPadding by done. unfold rbind at 1. rewrite takes_skipDataBlocks by done.
  by apply takes_skipTrailer.
Qed.

Lemma read_blocks_framed bs : Forall (sealed_ok GCMTagSize maxBlockCiphertext) bs ->
  forall fuel r, (length bs < fuel)%nat -> read_blocks fuel (encode_blocks bs ++ r) = (bs, None, r).
Proof.
  assert (maxBlockCiphertext < 2 ^ 32) by done.
  induction 1 as [|b bs [Hn [Hlo Hhi]] _ IH]; intros fuel r Hf;
    (destruct fuel as [|fuel]; [cbn in Hf; lia|]); cbn [read_blocks]; unfold encode_blocks; cbn [map concat].
  - rewrite (proj2 (Z.ltb_ge _ NonceSize)) by (unfold NonceSize; rewrite len_app; change (len ([] ++ data_sentinel)) with 16; len_lia).
    cbn [app]. unfold data_sentinel. change (Z.to_nat (NonceSize + 4)) with (12 + 4)%nat.
    rewrite replicate_add, <- app_assoc. rewrite (zdrop_app NonceSize) by done.
    rewrite (proj2 (Z.ltb_ge _ 4)) by (rewrite len_app, len_replicate; len_lia).
    change (replicate 4 Byte.x00) with (le_bytes 4 0). rewrite le_u32_app by lia. cbn [Z.eqb].
    by rewrite zdrop_app.
  - set (rest := concat (map encode_sealed bs)). unfold encode_sealed. rewrite <- !app_assoc.
    unfold GCMTagSize, NonceSize in *.
    rewrite (proj2 (Z.ltb_ge _ 12)) by (rewrite len_app; len_lia).
    rewrite (ztake_app 12), (zdrop_app 12) by done.
    rewrite (proj2 (Z.ltb_ge _ 4)) by (rewrite len_app, len_le_bytes; len_lia).
    rewrite le_u32_app by lia. eqb_false. rewrite zdrop_app by done.
    rewrite (proj2 (Z.ltb_ge maxBlockCiphertext _)) by lia.
    rewrite (proj2 (Z.ltb_ge _ (len (eb_Ciphertext b)))) by (rewrite len_app; len_lia).
    rewrite ztake_app, zdrop_app by done.
    specialize (IH fuel r). unfold encode_blocks in IH. rewrite <- app_assoc in IH.
    unfold rest. rewrite IH by (cbn in Hf; lia). by destruct b.
Qed.

Lemma streamDataBlocks_framed {S} (sink : S -> bytes -> option S) fileKey codec st bs r :
  Forall (sealed_ok GCMTagSize maxBlockCiphertext) bs ->
  exists st' e, streamDataBlocks sink fileKey codec st (encode_blocks bs ++ r) = (st', e, r) /\
    deliver sink fileKey codec st bs = (st', match e with None => None | Some _ => snd (deliver sink fileKey codec st bs) end) /\
    (e = None -> snd (deliver sink fileKey codec st bs) = None) /\
    (forall err, e = Some err -> IsFatal err = false).
Proof.
  intros Hb. unfold streamDataBlocks. rewrite read_blocks_framed; [|done|apply encode_blocks_length].
  destruct (deliver sink fileKey codec st bs) as [st' fe] eqn:Ed.
  exists st'. eexists. split; [reflexivity|]. cbn [snd].
  destruct fe as [[]|]; (split; [done|]); (split; [done|]); intros err [= <-]; done.
Qed.
End Framing.
