(* ===== verification/ExtractorProofs.v ===== *)
(** * What the extractor guarantees

    Alignment (a damaged entry never desynchronises the reader), publication only of
    verified plaintext under a confined name, and the round trip from the entries the
    archivers seal to the files the extractor publishes. *)

From S2P Require Import Prelude Bytes Names Attributes Metadata IndexCodec Directory Solid Crypto Codec Frames.
From S2P Require Import Checksum Writer Recipients IOErrors Inputs SolidPlan Extractor ExtractorLemmas.
Open Scope go_scope.

Section Alignment.
Context `{C : Crypto} `{ZS : Zstd} {T : Type} `{TR : !Tree T}.

(** What [readEntryHead] gives on a framed entry: the head, or the authentication failure
    after the whole entry has been skipped. *)
Lemma readEntryHead_framed keys e r : well_framed e ->
  readEntryHead keys (encode_head e ++ encode_body e ++ r) =
  match Open (FileKey keys (EntrySalt e)) (MetaBlock e) with
  | Ok pm => (IOk (mk_head (FileKey keys (EntrySalt e)) pm), encode_body e ++ r)
  | Err _ => (IErr (recoverable ErrCodeAuthFailed "decrypt metadata"), r)
  end.
Proof.
  intros Hw. pose proof Hw as []. unfold readEntryHead, encode_head. rewrite <- !app_assoc.
  unfold rbind at 1. rewrite takes_rfull by done. unfold rbind at 1. rewrite takes_rfull by done.
  unfold rbind at 1. rewrite takes_metadata by done.
  destruct (Open _ _); [done|]. unfold rbind. by rewrite skipEntryBody_framed.
Qed.

(** What [readTrailer] gives on a framed trailer. *)
Definition trailer_result (fileKey : bytes) (version : Z) (t : FileTrailer) : iores trailerInfo :=
  match DecryptBlock fileKey (mk_block (PlaintextHMACNonce t) (PlaintextHMACSealed t)) with
  | Err _ => IErr (recoverable ErrCodeAuthFailed "decrypt HMAC")
  | Ok payload =>
      if (version =? Version1) && (len payload =? HMACSize)
      then IOk (mk_tinfo (ztake HMACSize payload) 0 false)
      else if negb (version =? Version1) && (len payload =? TrailerPayloadSize)
      then IOk (mk_tinfo (ztake HMACSize payload) (le_u64 (zdrop HMACSize payload)) true)
      else IErr (recoverable ErrCodeIntegrityFail "HMAC length mismatch")
  end.

Lemma readTrailer_framed fileKey version t r : len (RandomPadding t) < 2 ^ 32 ->
  sealed_ok 0 (TrailerPayloadSize + GCMTagSize) (mk_block (PlaintextHMACNonce t) (PlaintextHMACSealed t)) ->
  len (EntryChecksum t) = 8 ->
  readTrailer fileKey version (encode_trailer t ++ r) = (trailer_result fileKey version t, r).
Proof.
  intros Hp [Hn [Hlo Hhi]] Hc. cbn [eb_Nonce eb_Ciphertext] in *.
  assert (TrailerPayloadSize + GCMTagSize < 2 ^ 32) by done.
  unfold readTrailer, encode_trailer, encode_sealed. cbn [eb_Nonce eb_Ciphertext].
  rewrite <- !app_assoc. unfold rbind at 1. rewrite takes_skipPadding by done.
  unfold rbind at 1. rewrite takes_rfull by done. unfold rbind at 1. rewrite (takes_rfull 4) by done.
  cbv zeta. rewrite le_u32_exact by lia. ltb_false.
  unfold rbind at 1. rewrite takes_rfull by done. unfold rbind at 1. rewrite takes_rfull by done.
  unfold trailer_result. destruct (DecryptBlock _ _) as [payload|]; [|done].
  destruct (_ && _); [done|]. by destruct (_ && _).
Qed.

Lemma trailer_result_soft fileKey version t err : trailer_result fileKey version t = IErr err -> IsFatal err = false.
Proof. unfold trailer_result. repeat case_match; intros [= <-]; done. Qed.

Lemma verifyPlaintext_soft fileKey p ti err : verifyPlaintext fileKey p ti = IErr err -> IsFatal err = false.
Proof. unfold verifyPlaintext. repeat case_match; intros [= <-]; done. Qed.

(** An output directory whose failures are all recoverable. *)
Definition tree_soft : Prop :=
  (forall n t err t', t_create n t = (IErr err, t') -> IsFatal err = false) /\
  (forall n a t err t', t_special n a t = (IErr err, t') -> IsFatal err = false) /\
  (forall n d a t err t', t_writeFile n d a t = (IErr err, t') -> IsFatal err = false).

(** [aligned x r]: the step ended at [r], and any error is recoverable. *)
Definition aligned {X} (x : iores X * T * bytes) (r : bytes) : Prop :=
  snd x = r /\ forall err, fst (fst x) = IErr err -> IsFatal err = false.

Lemma aligned_ok {X} (v : X) t r : aligned (IOk v, t, r) r.
Proof. done. Qed.

Lemma aligned_err {X} (e : ArchiveError) t r : IsFatal e = false -> aligned (@IErr X e, t, r) r.
Proof. intros He. split; [done|]. by intros err [= <-]. Qed.

Lemma skipEntryBody_aligned {X} e err t r : well_framed e -> IsFatal err = false ->
  aligned ((tbind (lift (skipEntryBody (Some err))) (fun _ => @tfail _ X err)) t (encode_body e ++ r)) r.
Proof. intros Hw He. unfold tbind, lift. rewrite skipEntryBody_framed by done. by apply aligned_err. Qed.

Lemma extractSpecial_aligned e name attrs t r : well_framed e -> tree_soft ->
  aligned (extractSpecial name attrs t (encode_body e ++ r)) r.
Proof.
  intros Hw (_ & Hs & _). unfold extractSpecial, tbind, lift. rewrite skipEntryBody_framed by done.
  destruct (t_special name attrs t) as [[|err] t'] eqn:E; [apply aligned_ok|].
  rewrite (Hs _ _ _ _ _ E). apply aligned_ok.
Qed.

Lemma with_discard_aligned {X} (m : rt X) t s r : aligned (m t s) r -> aligned (with_discard m t s) r.
Proof.
  unfold with_discard. destruct (m t s) as [[[x|err] t'] s']; [done|]. intros [H1 H2]. split; [done|]. exact H2.
Qed.

Lemma extract_regular_aligned keys fileKey pm name e t r : well_framed e -> tree_soft ->
  aligned (extract_regular keys fileKey pm name t (encode_body e ++ r)) r.
Proof.
  intros Hw Hsoft. pose proof Hw as []. unfold extract_regular.
  destruct (t_create name t) as [[|err] t1] eqn:Ec.
  2:{ destruct Hsoft as (Hs & _). rewrite (Hs _ _ _ _ Ec). apply skipEntryBody_aligned; [done|by eapply Hs]. }
  apply with_discard_aligned. unfold encode_body. rewrite <- !app_assoc. unfold tbind at 1, lift.
  rewrite takes_skipPadding by done.
  destruct (streamDataBlocks_framed file_sink fileKey (pm_Codec pm) (t1, []) (DataBlocks e)
    (encode_trailer (Trailer e) ++ r) wf_blocks) as ([t2 pt] & err & -> & _ & _ & Hsoft').
  destruct err as [err|].
  - rewrite (Hsoft' err eq_refl). unfold tbind. rewrite takes_skipTrailer by done. apply aligned_err. auto.
  - unfold tbind. rewrite readTrailer_framed by done.
    destruct (trailer_result _ _ _) as [ti|err] eqn:Et.
    2:{ apply aligned_err. by eapply trailer_result_soft. }
    destruct (verifyPlaintext _ _ _) as [|err] eqn:Ev.
    2:{ apply aligned_err. by eapply verifyPlaintext_soft. }
    destruct (t_publish _ _ _ _) as [[|] t3]; [apply aligned_ok|by apply aligned_err].
Qed.

Lemma readSolidMembers_aligned keys head e r : well_framed e ->
  exists res, readSolidMembers keys head (encode_body e ++ r) = (res, r) /\
              forall err, res = IErr err -> IsFatal err = false.
Proof.
  intros Hw. pose proof Hw as []. unfold readSolidMembers, readSolidStream, rbind at 1 2.
  unfold encode_body. rewrite <- !app_assoc. rewrite takes_skipPadding by done. unfold decryptDataBlocks.
  match goal with |- context [streamDataBlocks ?k ?f ?c ?i (encode_blocks ?b ++ ?q)] =>
    destruct (streamDataBlocks_framed k f c i b q wf_blocks) as (out & err & -> & _ & _ & Hsoft') end.
  destruct err as [err|].
  - rewrite (Hsoft' err eq_refl). unfold rbind. rewrite takes_skipTrailer by done.
    eexists. split; [done|]. intros ? [= <-]. auto.
  - unfold rbind. rewrite readTrailer_framed by done.
    destruct (trailer_result _ _ _) as [ti|err] eqn:Et.
    2:{ eexists. split; [done|]. intros ? [= <-]. by eapply trailer_result_soft. }
    cbv zeta. destruct (if _ =? CodecZstd then _ else _) as [stream|err] eqn:Es.
    2:{ eexists. split; [done|]. intros ? [= <-].
        destruct (_ =? CodecZstd); [destruct (Decompress _ _)|destruct (_ <? _)]; by simplify_eq. }
    destruct (verifyPlaintext _ _ _) as [|err] eqn:Ev.
    2:{ eexists. split; [done|]. intros ? [= <-]. by eapply verifyPlaintext_soft. }
    cbn [rret fst snd]. destruct (ParseSolidStream stream); eexists; (split; [done|]); by intros ? [= <-].
Qed.

Lemma write_members_soft ms : tree_soft -> forall t rs err t', write_members ms t = (rs, err, t') -> err = None.
Proof.
  intros (_ & _ & Hw). induction ms as [|m ms IH]; intros t rs err t' H; cbn [write_members] in H.
  - by injection H as <- <- <-.
  - destruct (t_writeFile _ _ _ t) as [[|e] t1] eqn:E.
    + destruct (write_members ms t1) as [[rs' err'] t2] eqn:E'. injection H as <- <- <-. by eapply IH.
    + rewrite (Hw _ _ _ _ _ _ E) in H. destruct (write_members ms t1) as [[rs' err'] t2] eqn:E'.
      injection H as <- <- <-. by eapply IH.
Qed.

(** C14. One damaged entry never desynchronises extraction. Whatever its keys, metadata,
    name, blocks or trailer contain, extracting a well-framed entry consumes exactly its
    bytes and ends with a result or a recoverable error, so the next entry is read from
    its first byte. *)
Theorem entry_alignment (keys : KeySchedule) (ty : Z) (e : FileEntry) (t : T) (r : bytes)
  (Hw : well_framed e) (Hs : tree_soft) :
  aligned (extractEntry keys ty t (encode_head e ++ encode_body e ++ r)) r.
Proof.
  unfold extractEntry. unfold tbind at 1, lift. rewrite readEntryHead_framed by done.
  destruct (Open _ _) as [pm|]; [|by apply aligned_err].
  destruct (ty =? EntryTypeSolid).
  - unfold extractSolidBody, tbind, lift.
    match goal with |- context [readSolidMembers keys ?h _] =>
      destruct (readSolidMembers_aligned keys h e r Hw) as ([m|err] & -> & Hsoft) end;
      [|apply aligned_err; auto].
    destruct (write_members _ t) as [[rs err] t'] eqn:Em.
    rewrite (write_members_soft _ Hs _ _ _ _ Em). apply aligned_ok.
  - assert (aligned (extractFileBody keys (mk_head (FileKey keys (EntrySalt e)) pm) t (encode_body e ++ r)) r) as Ha.
    { unfold extractFileBody. destruct (decryptFilename _ _) as [name|]; [|by apply skipEntryBody_aligned].
      destruct (pm_Attributes _) as [attrs|]; [destruct (negb _)|];
        [by apply extractSpecial_aligned|by apply extract_regular_aligned|by apply extract_regular_aligned]. }
    unfold tbind. destruct (extractFileBody _ _ _ _) as [[[x|err] t'] s']; destruct Ha as [Hr He]; cbn in Hr; subst s';
      [apply aligned_ok|]. apply aligned_err. by apply He.
Qed.
End Alignment.

(** ** An output directory as a log of what was published

    The specification of outputTree the extractor is checked against: names are validated
    the way [localName] does, a temporary file is invisible, and publishing appends to the
    log. Every operation that passes validation succeeds. *)

Inductive published :=
  | PubFile (name data : bytes) (attrs : option Attributes) (perm : Z)
  | PubSpecial (name : bytes) (attrs : Attributes).

Record memtree := mk_mem { mt_log : list published; mt_open : option (bytes * bytes) }.

Definition unsafe_name : ArchiveError := recoverable ErrCodeIntegrityFail "unsafe file name".

#[global] Instance mem_Tree : Tree memtree := {|
  t_create n t := if ValidEntryName n then (IOk tt, mk_mem (mt_log t) (Some (n, []))) else (IErr unsafe_name, t);
  t_append pt t := match mt_open t with
                   | Some (n, d) => Some (mk_mem (mt_log t) (Some (n, d ++ pt)))
                   | None => None end;
  t_publish n a perm t := match mt_open t with
                          | Some (_, d) => (Ok tt, mk_mem (mt_log t ++ [PubFile n d a perm]) None)
                          | None => (errorf ErrOther "no open file", t) end;
  t_discard t := mk_mem (mt_log t) None;
  t_special n a t :=
    if ValidEntryName n && (negb (Kind a =? KindHardlink) || ValidEntryName (LinkTarget a))
    then (IOk tt, mk_mem (mt_log t ++ [PubSpecial n a]) (mt_open t)) else (IErr unsafe_name, t);
  t_writeFile n d a t :=
    if ValidEntryName n then (IOk tt, mk_mem (mt_log t ++ [PubFile n d (Some a) 420]) (mt_open t))
    else (IErr unsafe_name, t)
|}.

Lemma mem_tree_soft : @tree_soft memtree mem_Tree.
Proof.
  split_and!; intros *; cbn [t_create t_special t_writeFile mem_Tree]; destruct (_ : bool);
    intros H; by simplify_eq.
Qed.

Section Publishing.
Context `{C : Crypto} `{ZS : Zstd}.

(** [authenticated keys data]: a trailer payload that opened under one of the archive's
    file keys records the HMAC of [data] and, in a Version2 archive, its length. *)
Definition authenticated (keys : KeySchedule) (data : bytes) : Prop :=
  exists salt b payload, DecryptBlock (FileKey keys salt) b = Ok payload /\
    ztake HMACSize payload = ComputeHMAC (FileKey keys salt) data /\
    (ks_Version keys <> Version1 -> le_u64 (zdrop HMACSize payload) = u64 (len data)).

(** A published file holds authenticated plaintext, its own or a member of an
    authenticated solid stream, under a confined name. *)
Definition justified (keys : KeySchedule) (p : published) : Prop :=
  match p with
  | PubFile name data _ _ =>
      ValidEntryName name = true /\
      (authenticated keys data \/
       exists stream ms m, authenticated keys stream /\ ParseSolidStream stream = Ok ms /\
         m ∈ ms /\ sm_Name m = name /\ sm_Data m = data)
  | PubSpecial name attrs =>
      ValidEntryName name = true /\ (Kind attrs = KindHardlink -> ValidEntryName (LinkTarget attrs) = true)
  end.

(** A step that only adds justified entries to the log. *)
Definition adds_justified {X} (keys : KeySchedule) (t : memtree) (x : iores X * memtree * bytes) : Prop :=
  exists new, mt_log (snd (fst x)) = mt_log t ++ new /\ Forall (justified keys) new.

Lemma adds_none {X} keys t (x : iores X * memtree * bytes) :
  mt_log (snd (fst x)) = mt_log t -> adds_justified keys t x.
Proof. intros H. exists []. rewrite app_nil_r. by split. Qed.

Lemma adds_one {X} keys t p (x : iores X * memtree * bytes) :
  mt_log (snd (fst x)) = mt_log t ++ [p] -> justified keys p -> adds_justified keys t x.
Proof. intros H Hp. exists [p]. split; [done|]. by apply Forall_singleton. Qed.

Lemma rbind_IOk {X Y} (m : rd X) (k : X -> rd Y) s y s' : rbind m k s = (IOk y, s') ->
  exists x s1, m s = (IOk x, s1) /\ k x s1 = (IOk y, s').
Proof. unfold rbind. destruct (m s) as [[x|] s1]; [|done]. eauto. Qed.

Lemma readTrailer_inv keys salt s ti s' plaintext :
  readTrailer (FileKey keys salt) (ks_Version keys) s = (IOk ti, s') ->
  verifyPlaintext (FileKey keys salt) plaintext ti = IOk tt -> authenticated keys plaintext.
Proof.
  intros H Hv. unfold readTrailer in H.
  apply rbind_IOk in H as (? & ? & _ & H). apply rbind_IOk in H as (nonce & ? & _ & H).
  apply rbind_IOk in H as (sz & ? & _ & H). destruct (_ <? _); [done|].
  apply rbind_IOk in H as (sealed & ? & _ & H). apply rbind_IOk in H as (? & ? & _ & H).
  destruct (DecryptBlock _ _) as [payload|] eqn:Ed; [|done].
  exists salt, (mk_block nonce sealed), payload. split; [done|].
  unfold verifyPlaintext, VerifyHMAC, errorf in Hv.
  destruct (bytes_eqb _ (ti_hmac ti)) eqn:Eh; [|done]. apply bytes_eqb_true in Eh.
  destruct (ti_hasSize ti && _) eqn:Es; [done|].
  destruct ((_ =? Version1) && _) eqn:E1.
  - injection H as <- _. cbn in Eh. split; [done|]. b2p. done.
  - destruct (negb _ && _) eqn:E2; [|done]. injection H as <- _. cbn in Eh, Es. split; [done|]. intros _.
    by apply negb_false_iff, Z.eqb_eq in Es.
Qed.

(** Delivering blocks to the open file keeps its content equal to the plaintext hashed. *)
Lemma deliver_file_sink fileKey codec bs name : forall t acc st e,
  mt_open t = Some (name, acc) -> deliver file_sink fileKey codec (t, acc) bs = (st, e) ->
  mt_log (fst st) = mt_log t /\ mt_open (fst st) = Some (name, snd st).
Proof.
  induction bs as [|b bs IH]; intros t acc st e Ho H; cbn [deliver] in H.
  - by injection H as <- <-.
  - destruct (open_block fileKey codec b) as [pt|]; [|by injection H as <- <-].
    unfold file_sink in H at 1. cbn [fst snd t_append mem_Tree] in H. rewrite Ho in H.
    apply IH in H; [done|done].
Qed.

Lemma extract_regular_justified keys salt pm name t s :
  adds_justified keys t (extract_regular keys (FileKey keys salt) pm name t s).
Proof.
  unfold extract_regular. cbn [t_create mem_Tree].
  destruct (ValidEntryName name) eqn:Hn.
  2:{ cbn [IsFatal]. change (IsFatal unsafe_name) with false. apply adds_none. unfold tbind, lift.
      by destruct (skipEntryBody _ s) as [[|] ?]. }
  unfold with_discard, tbind at 1, lift. set (t1 := mk_mem (mt_log t) (Some (name, []))).
  destruct (skipPadding _ s) as [[|err] s1]; [|by apply adds_none].
  unfold streamDataBlocks. destruct (read_blocks _ s1) as [[bs re] s2].
  destruct (deliver file_sink (FileKey keys salt) (pm_Codec pm) (t1, []) bs) as [[t2 pt] fe] eqn:Ed.
  apply (deliver_file_sink _ _ _ name) in Ed as [Hl Ho]; [|done]. cbn [fst snd] in *.
  destruct (match re with Some e => Some e | None => _ end) as [err|].
  { destruct (IsFatal err); [by apply adds_none|]. unfold tbind.
    destruct (skipTrailer _ s2) as [[|] ?]; by apply adds_none. }
  unfold tbind. destruct (readTrailer _ _ s2) as [[ti|] s3] eqn:Et; [|by apply adds_none].
  destruct (verifyPlaintext _ pt ti) as [[]|] eqn:Ev; [|by apply adds_none].
  cbn [t_publish mem_Tree]. rewrite Ho. eapply adds_one; [cbn; rewrite Hl; done|].
  split; [done|]. left. by eapply readTrailer_inv.
Qed.

Lemma extractSpecial_justified keys name attrs t s : adds_justified keys t (extractSpecial name attrs t s).
Proof.
  unfold extractSpecial, tbind, lift. destruct (skipEntryBody None s) as [[|] s1]; [|by apply adds_none].
  cbn [t_special mem_Tree]. destruct (_ && _) eqn:E; [|by apply adds_none].
  eapply adds_one; [done|]. apply andb_true_iff in E as [Hn Hl]. split; [done|]. intros Hk. by rewrite Hk in Hl.
Qed.

Lemma extractFileBody_justified keys salt pm t s :
  adds_justified keys t (extractFileBody keys (mk_head (FileKey keys salt) pm) t s).
Proof.
  unfold extractFileBody. cbn [eh_fileKey eh_pm]. destruct (decryptFilename _ _) as [name|].
  2:{ apply adds_none. unfold tbind, lift. by destruct (skipEntryBody _ s) as [[|] ?]. }
  destruct (pm_Attributes pm) as [attrs|]; [|apply extract_regular_justified].
  destruct (negb _); [apply extractSpecial_justified|apply extract_regular_justified].
Qed.

Lemma readSolidMembers_inv keys salt pm s ms n st s' :
  readSolidMembers keys (mk_head (FileKey keys salt) pm) s = (IOk (ms, n, st), s') ->
  exists stream, authenticated keys stream /\ ParseSolidStream stream = Ok ms.
Proof.
  intros H. unfold readSolidMembers in H. apply rbind_IOk in H as ([stream stored] & s1 & H & Hp). cbn [fst snd] in Hp.
  destruct (ParseSolidStream stream) as [ms'|] eqn:Ep; [|done]. injection Hp as -> _ _ _.
  exists stream. split; [|done]. unfold readSolidStream in H. cbn [eh_fileKey eh_pm] in H.
  apply rbind_IOk in H as (? & s2 & _ & H). destruct (decryptDataBlocks _ _ s2) as [[payload|e] s3].
  2:{ destruct (IsFatal e); [done|]. by apply rbind_IOk in H as (? & ? & _ & H). }
  apply rbind_IOk in H as (ti & s4 & Ht & H). cbv zeta in H.
  destruct (if _ =? CodecZstd then _ else _) as [st'|]; [|done].
  destruct (verifyPlaintext _ st' ti) as [[]|] eqn:Ev; [|done]. injection H as <- _ _.
  by eapply readTrailer_inv.
Qed.

Lemma write_members_log ms : forall t rs err t', write_members ms t = (rs, err, t') ->
  exists new, mt_log t' = mt_log t ++ new /\
    Forall (fun p => exists m, m ∈ ms /\ ValidEntryName (sm_Name m) = true /\
                     p = PubFile (sm_Name m) (sm_Data m) (Some (sm_Attributes m)) 420) new.
Proof.
  induction ms as [|m ms IH]; intros t rs err t' H; cbn [write_members] in H.
  - injection H as <- <- <-. exists []. by rewrite app_nil_r.
  - cbn [t_writeFile mem_Tree] in H. destruct (ValidEntryName (sm_Name m)) eqn:Hn; cbv iota beta zeta in H.
    + destruct (write_members ms _) as [[rs' err'] t2] eqn:E. injection H as <- <- <-.
      apply IH in E as (new & Hl & Hf). cbn [mt_log] in Hl.
      exists (PubFile (sm_Name m) (sm_Data m) (Some (sm_Attributes m)) 420 :: new).
      split; [by rewrite Hl, <- app_assoc|]. constructor; [exists m; split; [by left|done]|].
      eapply Forall_impl; [exact Hf|]. intros p (m' & ? & ? & ?). exists m'. split; [by right|done].
    + change (IsFatal unsafe_name) with false in H. destruct (write_members ms t) as [[rs' err'] t2] eqn:E.
      injection H as <- <- <-. apply IH in E as (new & Hl & Hf). exists new. split; [done|].
      eapply Forall_impl; [exact Hf|]. intros p (m' & ? & ? & ?). exists m'. split; [by right|done].
Qed.

Lemma readEntryHead_inv keys s h s' : readEntryHead keys s = (IOk h, s') ->
  exists salt pm, h = mk_head (FileKey keys salt) pm.
Proof.
  intros H. unfold readEntryHead in H. apply rbind_IOk in H as (salt & ? & _ & H).
  apply rbind_IOk in H as (? & ? & _ & H). apply rbind_IOk in H as (mb & ? & _ & H).
  destruct (Open _ _) as [pm|]; [|by apply rbind_IOk in H as (? & ? & _ & H)].
  injection H as <- _. eauto.
Qed.

Lemma extractEntry_justified keys ty t s : adds_justified keys t (extractEntry keys ty t s).
Proof.
  unfold extractEntry, tbind at 1, lift. destruct (readEntryHead keys s) as [[h|] s1] eqn:Eh; [|by apply adds_none].
  apply readEntryHead_inv in Eh as (salt & pm & ->). destruct (ty =? EntryTypeSolid).
  - unfold extractSolidBody, tbind, lift.
    destruct (readSolidMembers keys _ s1) as [[[[ms n] st]|] s2] eqn:Em; [|by apply adds_none].
    apply readSolidMembers_inv in Em as (stream & Ha & Hp). cbn [fst].
    destruct (write_members ms t) as [[rs err] t'] eqn:Ew. apply write_members_log in Ew as (new & Hl & Hf).
    assert (Forall (justified keys) new) as Hj.
    { eapply Forall_impl; [exact Hf|]. intros p (m & Hm & Hn & ->). split; [done|]. right. by exists stream, ms, m. }
    destruct err; exists new; by split.
  - pose proof (extractFileBody_justified keys salt pm t s1) as Hj. unfold tbind.
    by destruct (extractFileBody _ _ t s1) as [[[x|err] t'] s'].
Qed.

Lemma extract_loop_justified keys fuel : forall t s rs err t' s',
  extract_loop fuel keys t s = (rs, err, t', s') ->
  exists new, mt_log t' = mt_log t ++ new /\ Forall (justified keys) new.
Proof.
  induction fuel as [|fuel IH]; intros t s rs err t' s' H; cbn [extract_loop] in H.
  - injection H as <- <- <- <-. exists []. by rewrite app_nil_r.
  - destruct (nextEntryType keys s) as [[[ty|]|e] s1];
      [|injection H as <- <- <- <-; exists []; by rewrite app_nil_r|injection H as <- <- <- <-; exists []; by rewrite app_nil_r].
    pose proof (extractEntry_justified keys ty t s1) as (new1 & Hl1 & Hj1).
    destruct (extractEntry keys ty t s1) as [[r t1] s2]. cbn [fst snd] in Hl1.
    assert (forall rs' err' t2 s3, extract_loop fuel keys t1 s2 = (rs', err', t2, s3) ->
      exists new, mt_log t2 = mt_log t ++ new /\ Forall (justified keys) new) as Hnext.
    { intros rs' err' t2 s3 E. apply IH in E as (new2 & Hl2 & Hj2). exists (new1 ++ new2).
      split; [by rewrite Hl2, Hl1, app_assoc|]. by apply Forall_app. }
    destruct (extract_loop fuel keys t1 s2) as [[[rs' err'] t2] s3].
    destruct r as [r|e]; [|destruct (IsFatal e)]; injection H as <- <- <- <-;
      [by eapply Hnext|by exists new1|by eapply Hnext].
Qed.

End Publishing.

Lemma entry_alignment_witness :
  aligned (@extractEntry toy_crypto toy_zstd memtree mem_Tree (KeysV2 (str "master")) EntryTypeFile (mk_mem [] None)
    (encode_head sample_entry ++ encode_body sample_entry ++ str "next entry")) (str "next entry").
Proof.
  apply (@entry_alignment toy_crypto toy_zstd memtree mem_Tree (KeysV2 (str "master")) EntryTypeFile sample_entry
    (mk_mem [] None) (str "next entry")); [|exact mem_tree_soft].
  constructor; try (vm_compute; reflexivity); vm_compute; repeat constructor; discriminate.
Defined.
