(* ===== verification/RoundTrip.v ===== *)
(** * From archiving to extraction

    The entries the archivers seal, written by [ArchiveWriter] and read back by
    [SafeExtractor], publish the original files: first one entry of each kind (streamed
    file, link or directory, solid group), then a whole archive with header, directory and
    footer. *)

From S2P Require Import Prelude Bytes Names Attributes Metadata IndexCodec Directory Solid Crypto Codec Frames.
From S2P Require Import Checksum Writer Recipients IOErrors Inputs SolidPlan Extractor ExtractorLemmas ExtractorProofs.
Open Scope go_scope.

Section RoundTrip.
Context `{C : Crypto} `{CL : !CryptoLaws C} `{ZS : Zstd} `{ZL : !ZstdLaws ZS}.

(** ** Sealed parts *)

Lemma randomRange_len lo hi r x r' : 0 <= lo <= hi -> randomRange lo hi r = (x, r') -> lo <= len x <= hi.
Proof. apply secureRandomRange_len. Qed.

Lemma BuildTrailer_ok fb hmac size r t r' : BuildTrailer fb hmac size r = (t, r') -> len hmac = HMACSize ->
  0 <= size < 2 ^ 64 ->
  len (RandomPadding t) < 2 ^ 32 /\ len (EntryChecksum t) = 8 /\
  sealed_ok 0 (TrailerPayloadSize + GCMTagSize) (mk_block (PlaintextHMACNonce t) (PlaintextHMACSealed t)) /\
  trailer_result (fb_key fb) Version2 t = IOk (mk_tinfo hmac size true).
Proof.
  unfold BuildTrailer. intros H Hh Hs. destruct (padding_Trailer r) as [pad r1] eqn:Ep.
  apply secureRandomRange_len in Ep; [|done].
  destruct (EncryptBlock _ _ r1) as [b r2] eqn:Eb. apply DecryptBlock_EncryptBlock in Eb as (Hd & Hn & Hc).
  destruct (draw 8 r2) as [cs r3] eqn:Ec. apply draw_len in Ec; [|done]. injection H as <- <-.
  cbn [RandomPadding EntryChecksum PlaintextHMACNonce PlaintextHMACSealed].
  assert (len (hmac ++ le_bytes 8 size) = TrailerPayloadSize) as Hl by (rewrite len_app, len_le_bytes, Hh; done).
  split; [unfold TrailerPadMax in Ep; lia|]. split; [done|]. split.
  - split; [done|]. cbn [eb_Ciphertext]. rewrite Hc, Hl. split; [done|lia].
  - unfold trailer_result. cbn [PlaintextHMACNonce PlaintextHMACSealed].
    replace (mk_block (eb_Nonce b) (eb_Ciphertext b)) with b by by destruct b.
    rewrite Hd, Hl. change (Version2 =? Version1) with false. rewrite Z.eqb_refl. cbn [andb negb].
    rewrite ztake_app, zdrop_app by done. by rewrite <- (app_nil_r (le_bytes 8 size)), le_u64_app.
Qed.

Lemma Seal_ok key pm r mb r' : pm_typed pm -> Seal key pm r = (Ok mb, r') ->
  Open key mb = Ok pm /\ sealed_ok 0 maxMetadataCiphertext mb.
Proof.
  unfold Seal, Open. intros Ht H. destruct (marshalMetadata pm) as [raw|] eqn:Em; [|done].
  destruct (EncryptBlock key raw r) as [b r1] eqn:Eb. injection H as <- <-.
  apply DecryptBlock_EncryptBlock in Eb as (Hd & Hn & Hc). rewrite Hd. split; [by apply unmarshal_marshal|].
  apply marshalMetadata_len in Em; [|apply Ht]. split; [done|]. rewrite Hc. unfold maxMetadataCiphertext. len_lia.
Qed.

Lemma decrypt_encryptFilename name key r x r' : encryptFilename name key r = (x, r') -> decryptFilename x key = Ok name.
Proof.
  unfold encryptFilename, decryptFilename. destruct (EncryptBlock key name r) as [b r1] eqn:Eb. intros [= <- <-].
  apply DecryptBlock_EncryptBlock in Eb as (Hd & Hn & Hc).
  rewrite (proj2 (Z.ltb_ge _ _)) by (rewrite len_app; len_lia).
  rewrite ztake_app, zdrop_app by done. by destruct b.
Qed.

(** ** Data blocks *)

(** The codec of a frame builder can be undone by the block decoder. *)
Definition fb_ok (fb : FrameBuilder) : Prop :=
  match fb_compressor fb with None => True | Some bc => bc_window bc <= zstdWindowSize end.

(** [opens_to key codec b c]: block [b] is framed within the reader's limits and opens to
    chunk [c]. *)
Definition opens_to (key : bytes) (codec : Z) (b : EncryptedBlock) (c : bytes) : Prop :=
  open_block key codec b = inl c /\ sealed_ok GCMTagSize maxBlockCiphertext b.

Lemma EncryptChunk_opens fb chunk r b r' : fb_ok fb -> len chunk <= MaxChunkSize ->
  EncryptChunk fb chunk r = (b, r') -> opens_to (fb_key fb) (fb_Codec fb) b chunk.
Proof.
  intros Hfb Hl H. unfold EncryptChunk in H. apply DecryptBlock_EncryptBlock in H as (Hd & Hn & Hc).
  unfold opens_to, open_block. rewrite Hd. unfold fb_Codec, encodeInto, fb_ok in *.
  pose proof (len_nonneg chunk). unfold sealed_ok, maxBlockCiphertext, MaxPayloadSize.
  destruct (fb_compressor fb) as [bc|].
  - rewrite Z.eqb_refl. rewrite Decompress_Compress by done. split; [done|]. split; [done|].
    pose proof (zstd_overhead (bc_level bc) (bc_window bc) chunk Hl). unfold Compress in Hc.
    pose proof (len_nonneg (zstd_encode (bc_level bc) (bc_window bc) chunk)). lia.
  - split; [done|]. split; [done|]. unfold zstdMaxOverhead. lia.
Qed.

Lemma NextChunkSize_range r n r' : NextChunkSize r = (n, r') -> 1 <= n <= MaxChunkSize.
Proof.
  unfold NextChunkSize. intros H. apply next_size_range in H; [|done].
  unfold MaxChunkSize, BaseBlockSize, BlockVariance in *. lia.
Qed.

Lemma ztake_short {X} n (l : list X) : 0 <= n -> len (ztake n l) < n -> ztake n l = l.
Proof. unfold ztake, len. intros Hn H. apply take_ge. rewrite length_take in H. lia. Qed.

Lemma chunk_loop_opens fb : fb_ok fb -> forall fuel data r bs r', (length data < fuel)%nat ->
  chunk_loop fuel fb data r = (bs, r') ->
  exists chunks, concat chunks = data /\ Forall2 (opens_to (fb_key fb) (fb_Codec fb)) bs chunks.
Proof.
  intros Hfb. induction fuel as [|fuel IH]; intros data r bs r' Hf H; [lia|]. cbn [chunk_loop] in H.
  destruct (NextChunkSize r) as [size r1] eqn:Es. apply NextChunkSize_range in Es.
  pose proof (len_ztake_max size data ltac:(lia)) as Hmax.
  destruct (Z.ltb_spec 0 (len (ztake size data))) as [Hp|Hp].
  - destruct (EncryptChunk fb _ r1) as [b r2] eqn:Eb. apply EncryptChunk_opens in Eb; [|done|lia].
    destruct (Z.ltb_spec (len (ztake size data)) size) as [Hlt|Hge].
    + injection H as <- <-. exists [ztake size data]. cbn [concat]. rewrite app_nil_r.
      split; [apply ztake_short; lia|]. constructor; [done|constructor].
    + destruct (chunk_loop fuel fb (zdrop size data) r2) as [rest r3] eqn:Er. injection H as <- <-.
      pose proof (len_ztake_le size data).
      apply IH in Er as (chunks & Hc & Hf2); [|unfold zdrop, len in *; rewrite length_drop; lia].
      exists (ztake size data :: chunks). cbn [concat app]. rewrite Hc, ztake_zdrop. split; [done|by constructor].
  - destruct (Z.ltb_spec (len (ztake size data)) size); [|lia]. injection H as <- <-. exists [].
    split; [|constructor]. symmetry. apply len_0_nil. rewrite <- (ztake_short size data) by lia. len_lia.
Qed.

Lemma payload_loop_opens fb : fb_ok fb -> forall fuel payload r bs r', (length payload <= fuel)%nat ->
  payload_loop fuel fb payload r = (bs, r') ->
  exists chunks, concat chunks = payload /\ Forall2 (opens_to (fb_key fb) (fb_Codec fb)) bs chunks.
Proof.
  intros Hfb. induction fuel as [|fuel IH]; intros payload r bs r' Hf H; cbn [payload_loop] in H.
  - injection H as <- <-. destruct payload; [|cbn in Hf; lia]. exists []. by split.
  - destruct (Z.ltb_spec 0 (len payload)) as [Hp|Hp]; cbn [negb] in H.
    2:{ injection H as <- <-. rewrite (len_0_nil payload) by len_lia. exists []. by split. }
    destruct (NextChunkSize r) as [size r1] eqn:Es. apply NextChunkSize_range in Es. cbv zeta in H.
    set (n := Z.min size (len payload)) in *. destruct (EncryptChunk fb _ r1) as [b r2] eqn:Eb.
    apply EncryptChunk_opens in Eb; [|done|rewrite len_ztake; lia].
    destruct (payload_loop fuel fb (zdrop n payload) r2) as [rest r3] eqn:Er. injection H as <- <-.
    apply IH in Er as (chunks & Hc & Hf2).
    + exists (ztake n payload :: chunks). cbn [concat]. rewrite Hc, ztake_zdrop. split; [done|by constructor].
    + unfold zdrop, len in *. rewrite length_drop. lia.
Qed.

Lemma stream_blocks_opens mapped fb data r bs r' : fb_ok fb -> stream_blocks mapped fb data r = (bs, r') ->
  exists chunks, concat chunks = data /\ Forall2 (opens_to (fb_key fb) (fb_Codec fb)) bs chunks.
Proof.
  intros Hfb H. destruct mapped; [by eapply payload_loop_opens|]. eapply chunk_loop_opens; [done| |exact H]. lia.
Qed.

Lemma opens_framed key codec bs chunks : Forall2 (opens_to key codec) bs chunks ->
  Forall (sealed_ok GCMTagSize maxBlockCiphertext) bs.
Proof. induction 1 as [|b c bs cs [_ H] _ IH]; by constructor. Qed.

Lemma deliver_opens {S} (sink : S -> bytes -> option S) (step : S -> bytes -> S) key codec bs chunks (Inv : S -> Prop) :
  Forall2 (opens_to key codec) bs chunks ->
  (forall st c, Inv st -> sink st c = Some (step st c) /\ Inv (step st c)) ->
  forall st, Inv st -> deliver sink key codec st bs = (fold_left step chunks st, None).
Proof.
  intros Hf Hs. induction Hf as [|b c bs cs [Ho _] _ IH]; intros st Hi; cbn [deliver fold_left]; [done|].
  rewrite Ho. destruct (Hs st c Hi) as [-> Hi']. by apply IH.
Qed.

(** ** One entry *)

(** [extracts ks e rs ps]: extracting entry [e] from an idle output directory consumes it
    exactly, reports [rs] and publishes [ps]. *)
Definition extracts (ks : KeySchedule) (e : FileEntry) (rs : list ExtractionResult) (ps : list published) : Prop :=
  (EntryType e = EntryTypeFile \/ EntryType e = EntryTypeSolid) /\
  forall log r, extractEntry ks (EntryType e) (mk_mem log None) (encode_head e ++ encode_body e ++ r) =
                (IOk rs, mk_mem (log ++ ps) None, r).

(** What an archiver must supply for a regular file. *)
Record file_input_ok (i : inputFile) (perm : Z) (data : bytes) : Prop := {
  fi_name : ValidEntryName (in_name i) = true;
  fi_kind : Kind (in_attrs i) = KindRegular;
  fi_typed : Attributes_typed (in_attrs i);
  fi_perm : 0 <= perm < 2 ^ 32;
  fi_data : len data < 2 ^ 63
}.

Lemma BucketizeSize_range n : 0 <= BucketizeSize n < 2 ^ 8.
Proof. unfold BucketizeSize, BucketTiny, BucketSmall, BucketMedium, BucketLarge, BucketHuge. repeat case_match; lia. Qed.

Lemma fold_append_file chunks log name : forall acc,
  fold_left (fun st c => (mk_mem log (Some (name, snd st ++ c)), snd st ++ c)) chunks
    (mk_mem log (Some (name, acc)), acc) = (mk_mem log (Some (name, acc ++ concat chunks)), acc ++ concat chunks).
Proof.
  induction chunks as [|c chunks IH]; intros acc; cbn [fold_left concat snd]; [by rewrite app_nil_r|].
  rewrite IH. by rewrite app_assoc.
Qed.

(** Streaming framed blocks into the open file leaves exactly the plaintext in it. *)
Lemma stream_file key codec bs chunks log name r : Forall2 (opens_to key codec) bs chunks ->
  streamDataBlocks file_sink key codec (mk_mem log (Some (name, [])), []) (encode_blocks bs ++ r) =
  ((mk_mem log (Some (name, concat chunks)), concat chunks), None, r).
Proof.
  intros Hf. unfold streamDataBlocks. rewrite read_blocks_framed by (eauto using opens_framed, encode_blocks_length).
  rewrite (deliver_opens file_sink (fun st c => (mk_mem log (Some (name, snd st ++ c)), snd st ++ c)) key codec bs chunks
    (fun st => fst st = mk_mem log (Some (name, snd st)))); [|done| |done].
  - by rewrite fold_append_file.
  - intros [t acc] c Ht. cbn [fst snd] in *. subst t. done.
Qed.

Lemma verify_self key data : len data < 2 ^ 63 ->
  verifyPlaintext key data (mk_tinfo (ComputeHMAC key data) (len data) true) = IOk tt.
Proof.
  intros Hl. pose proof (len_nonneg data). unfold verifyPlaintext, VerifyHMAC. cbn [ti_hmac ti_hasSize ti_size].
  rewrite bytes_eqb_refl. unfold u64. rewrite Z.mod_small by lia. by rewrite Z.eqb_refl.
Qed.

Lemma streamed_entry_framed master mkfb mapped codec perm mtime statSize i data r0 r e :
  file_input_ok i perm data -> (forall k, fb_key (mkfb k) = k /\ fb_ok (mkfb k) /\ fb_Codec (mkfb k) = codec) ->
  streamed_entry (KeysV2 master) mkfb mapped codec perm mtime statSize i data r0 r = IOk e ->
  exists pm chunks, well_framed e /\ EntryType e = EntryTypeFile /\
    Open (FileKey (KeysV2 master) (EntrySalt e)) (MetaBlock e) = Ok pm /\
    decryptFilename (EncryptedFilename pm) (FileKey (KeysV2 master) (EntrySalt e)) = Ok (in_name i) /\
    pm_Codec pm = codec /\ pm_Attributes pm = Some (in_attrs i) /\ Permissions pm = perm /\
    SizeBucket pm = BucketizeSize statSize /\ concat chunks = data /\ Forall2 (opens_to (FileKey (KeysV2 master) (EntrySalt e)) codec) (DataBlocks e) chunks /\
    trailer_result (FileKey (KeysV2 master) (EntrySalt e)) Version2 (Trailer e) =
      IOk (mk_tinfo (ComputeHMAC (FileKey (KeysV2 master) (EntrySalt e)) data) (len data) true).
Proof.
  intros [] Hfb H. unfold streamed_entry in H. destruct (draw SaltSize r0) as [salt r01] eqn:E1.
  apply draw_len in E1; [|done]. set (key := FileKey (KeysV2 master) salt) in *.
  destruct (Hfb key) as (Hk & Hok & Hc). destruct (FrameHeader r) as [fh r1] eqn:E2. apply draw_len in E2; [|done].
  destruct (encryptFilename (in_name i) key r01) as [en r02] eqn:E3. apply decrypt_encryptFilename in E3.
  destruct (Seal key _ r02) as [[mb|] r03] eqn:E4; [|done]. cbn [or_fatal] in H.
  apply Seal_ok in E4 as [Ho Hm].
  2:{ split; [apply BucketizeSize_range|]. split; [apply len_hmac|]. split; [done|]. by intros a [= <-]. }
  destruct (InterBlockPadding r1) as [ip r2] eqn:E5. apply randomRange_len in E5; [|done].
  destruct (stream_blocks mapped (mkfb key) data r2) as [bs r3] eqn:E6. apply stream_blocks_opens in E6 as (chunks & Hcc & Hf2); [|done].
  destruct (BuildTrailer (mkfb key) _ _ r3) as [tr r4] eqn:E7. pose proof (len_nonneg data).
  apply BuildTrailer_ok in E7 as (Hp & Hcs & Hs & Ht); [|apply len_hmac|lia]. rewrite Hk in *. rewrite Hc in Hf2.
  injection H as <-. eexists _, chunks. cbn [EntrySalt EntryType MetaBlock DataBlocks Trailer].
  split; [|repeat (split; [done|]); done].
  constructor; cbn [EntrySalt FrameHdr MetaBlock InterBlockPad DataBlocks Trailer]; try done.
  - unfold interBlockPadMax in E5. lia.
  - by eapply opens_framed.
Qed.

(** A streamed file is extracted as itself. *)
Lemma streamed_entry_extracts master mkfb mapped codec perm mtime statSize i data r0 r e :
  file_input_ok i perm data -> (forall k, fb_key (mkfb k) = k /\ fb_ok (mkfb k) /\ fb_Codec (mkfb k) = codec) ->
  streamed_entry (KeysV2 master) mkfb mapped codec perm mtime statSize i data r0 r = IOk e ->
  extracts (KeysV2 master) e [mk_xr (in_name i) (len data) true None]
    [PubFile (in_name i) data (Some (in_attrs i)) (Z.land perm 511)].
Proof.
  intros Hi Hfb H. destruct (streamed_entry_framed _ _ _ _ _ _ _ _ _ _ _ _ Hi Hfb H)
    as (pm & chunks & Hw & Hty & Ho & Hn & Hc & Ha & Hpm & _ & Hcc & Hf2 & Ht). clear H.
  pose proof Hw as []. destruct Hi. split; [by left|]. intros log rest. rewrite Hty.
  unfold extractEntry, tbind at 1, lift. rewrite readEntryHead_framed, Ho by done.
  change (EntryTypeFile =? EntryTypeSolid) with false. cbv iota.
  unfold extractFileBody. cbn [eh_fileKey eh_pm]. rewrite Hn, Ha, fi_kind0.
  change (KindRegular =? KindRegular) with true. cbn [negb].
  unfold tbind at 1, extract_regular. cbn [t_create mem_Tree]. rewrite fi_name0. cbn [mt_log].
  unfold with_discard, encode_body. rewrite <- !app_assoc. unfold tbind at 1, lift.
  rewrite takes_skipPadding by done. rewrite Hc, (stream_file _ _ _ _ _ _ _ Hf2), Hcc.
  unfold tbind at 1. rewrite readTrailer_framed by done. change (ks_Version (KeysV2 master)) with Version2.
  rewrite Ht. rewrite verify_self by done. cbn [t_publish mem_Tree mt_open mt_log tret]. by rewrite Hpm, Ha.
Qed.

Lemma special_entry_framed master i r0 r e : Attributes_typed (in_attrs i) -> sealSpecialEntry (KeysV2 master) i r0 r = IOk e ->
  exists pm, well_framed e /\ EntryType e = EntryTypeFile /\ DataBlocks e = [] /\
    Open (FileKey (KeysV2 master) (EntrySalt e)) (MetaBlock e) = Ok pm /\
    decryptFilename (EncryptedFilename pm) (FileKey (KeysV2 master) (EntrySalt e)) = Ok (in_name i) /\
    SizeBucket pm = BucketTiny /\ pm_Codec pm = CodecNone /\ pm_Attributes pm = Some (in_attrs i) /\
    trailer_result (FileKey (KeysV2 master) (EntrySalt e)) Version2 (Trailer e) =
      IOk (mk_tinfo (ComputeHMAC (FileKey (KeysV2 master) (EntrySalt e)) []) 0 true).
Proof.
  intros Htyped H. unfold sealSpecialEntry in H.
  destruct (draw SaltSize r0) as [salt r01] eqn:E1. apply draw_len in E1; [|done].
  set (key := FileKey (KeysV2 master) salt) in *. destruct (FrameHeader r) as [fh r1] eqn:E2. apply draw_len in E2; [|done].
  destruct (encryptFilename (in_name i) key r01) as [en r02] eqn:E3. apply decrypt_encryptFilename in E3.
  destruct (Seal key _ r02) as [[mb|] r03] eqn:E4; [|done]. cbn [or_fatal] in H.
  apply Seal_ok in E4 as [Ho Hm].
  2:{ split; [done|]. split; [done|]. cbn [Permissions pm_Attributes]. destruct Htyped as (? & ? & ? & ?).
      split; [|by intros a [= <-]]. change 511 with (Z.ones 9). rewrite Z.land_ones by lia.
      pose proof (Z.mod_pos_bound (Mode (in_attrs i)) (2 ^ 9)). lia. }
  destruct (InterBlockPadding r1) as [ip r2] eqn:E5. apply randomRange_len in E5; [|done].
  destruct (BuildTrailer _ _ _ r2) as [tr r4] eqn:E7.
  apply BuildTrailer_ok in E7 as (Hp & Hcs & Hs & Ht); [|apply len_hmac|lia].
  injection H as <-. eexists. cbn [EntrySalt EntryType MetaBlock DataBlocks Trailer].
  split; [|repeat (split; [done|]); done].
  constructor; cbn [EntrySalt FrameHdr MetaBlock InterBlockPad DataBlocks Trailer]; try done.
  unfold interBlockPadMax in E5. lia.
Qed.

(** A directory, symlink or hard link is extracted as itself. *)
Lemma special_entry_extracts master i r0 r e :
  ValidEntryName (in_name i) = true -> regular i = false ->
  (Kind (in_attrs i) = KindHardlink -> ValidEntryName (LinkTarget (in_attrs i)) = true) ->
  Attributes_typed (in_attrs i) ->
  sealSpecialEntry (KeysV2 master) i r0 r = IOk e ->
  extracts (KeysV2 master) e [mk_xr (in_name i) 0 true None] [PubSpecial (in_name i) (in_attrs i)].
Proof.
  intros Hname Hreg Hlink Htyped H.
  destruct (special_entry_framed _ _ _ _ _ Htyped H) as (pm & Hw & Hty & _ & Ho & Hn & _ & _ & Ha & _).
  split; [by left|]. intros log rest. rewrite Hty.
  unfold extractEntry, tbind at 1, lift. rewrite readEntryHead_framed, Ho by done.
  change (EntryTypeFile =? EntryTypeSolid) with false. cbv iota.
  unfold extractFileBody. cbn [eh_fileKey eh_pm]. rewrite Hn, Ha.
  unfold regular in Hreg. rewrite Hreg. cbn [negb]. unfold tbind at 1, extractSpecial, tbind at 1, lift.
  rewrite skipEntryBody_framed by done. cbn [t_special mem_Tree mt_log mt_open]. rewrite Hname.
  assert (negb (Kind (in_attrs i) =? KindHardlink) || ValidEntryName (LinkTarget (in_attrs i)) = true) as ->; [|done].
  destruct (Z.eqb_spec (Kind (in_attrs i)) KindHardlink); [|done]. by rewrite Hlink.
Qed.

Lemma fold_append_bytes chunks : forall acc : bytes, fold_left (fun a c => a ++ c) chunks acc = acc ++ concat chunks.
Proof.
  induction chunks as [|c chunks IH]; intros acc; cbn [fold_left concat]; [by rewrite app_nil_r|].
  rewrite IH. by rewrite app_assoc.
Qed.

Lemma write_members_all ms : Forall member_ok ms -> forall t,
  write_members ms t =
  (map (fun m => mk_xr (sm_Name m) (len (sm_Data m)) true None) ms, None,
   mk_mem (mt_log t ++ map (fun m => PubFile (sm_Name m) (sm_Data m) (Some (sm_Attributes m)) 420) ms) (mt_open t)).
Proof.
  induction 1 as [|m ms [] _ IH]; intros t; cbn [write_members map].
  - rewrite app_nil_r. by destruct t.
  - cbn [t_writeFile mem_Tree]. rewrite mo_name. rewrite IH. cbn [mt_log mt_open]. by rewrite <- app_assoc.
Qed.

(** A payload entry: the stream inside it is recovered exactly. *)
Lemma payload_entry_framed master ty codec payload plaintext r0 r e :
  len plaintext < 2 ^ 63 -> sealPayloadEntry (KeysV2 master) ty codec payload plaintext r0 r = IOk e ->
  exists pm chunks, well_framed e /\ EntryType e = ty /\
    Open (FileKey (KeysV2 master) (EntrySalt e)) (MetaBlock e) = Ok pm /\ pm_Codec pm = codec /\
    concat chunks = payload /\
    Forall2 (opens_to (FileKey (KeysV2 master) (EntrySalt e)) CodecNone) (DataBlocks e) chunks /\
    trailer_result (FileKey (KeysV2 master) (EntrySalt e)) Version2 (Trailer e) =
      IOk (mk_tinfo (ComputeHMAC (FileKey (KeysV2 master) (EntrySalt e)) plaintext) (len plaintext) true).
Proof.
  intros Hpl H. unfold sealPayloadEntry in H. destruct (draw SaltSize r0) as [salt r01] eqn:E1.
  apply draw_len in E1; [|done]. set (key := FileKey (KeysV2 master) salt) in *.
  destruct (FrameHeader r) as [fh r1] eqn:E2. apply draw_len in E2; [|done].
  destruct (Seal key _ r01) as [[mb|] r03] eqn:E4; [|done]. cbn [or_fatal] in H.
  apply Seal_ok in E4 as [Ho Hm]; [|split; [apply BucketizeSize_range|]; done].
  destruct (InterBlockPadding r1) as [ip r2] eqn:E5. apply randomRange_len in E5; [|done].
  destruct (payload_loop _ (mk_fb key None) payload r2) as [bs r3] eqn:E6.
  apply payload_loop_opens in E6 as (chunks & Hcc & Hf2); [|done|lia].
  destruct (BuildTrailer _ _ _ r3) as [tr r4] eqn:E7. pose proof (len_nonneg plaintext).
  apply BuildTrailer_ok in E7 as (Hp & Hcs & Hs & Ht); [|apply len_hmac|lia].
  injection H as <-. eexists _, chunks. cbn [EntrySalt EntryType MetaBlock DataBlocks Trailer].
  split; [|repeat (split; [done|]); done].
  constructor; cbn [EntrySalt FrameHdr MetaBlock InterBlockPad DataBlocks Trailer]; try done.
  - unfold interBlockPadMax in E5. lia.
  - by eapply opens_framed.
Qed.

Lemma readSolidStream_payload master codec payload stream r0 r e pm rest :
  len stream <= MaxSolidStreamSize ->
  sealPayloadEntry (KeysV2 master) EntryTypeSolid codec payload stream r0 r = IOk e ->
  (codec = CodecZstd /\ Decompress NewSolidDecompressor payload = Ok stream \/ codec = CodecNone /\ payload = stream) ->
  Open (FileKey (KeysV2 master) (EntrySalt e)) (MetaBlock e) = Ok pm ->
  readSolidStream (KeysV2 master) (mk_head (FileKey (KeysV2 master) (EntrySalt e)) pm) (encode_body e ++ rest) =
  (IOk (stream, len payload), rest).
Proof.
  intros Hs He Hcodec Hopen. assert (len stream < 2 ^ 63) as Hs' by (unfold MaxSolidStreamSize in Hs; lia).
  apply payload_entry_framed in He as (pm' & chunks & Hw & Hty & Ho & Hc & Hcc & Hf2 & Ht); [|done].
  rewrite Ho in Hopen. injection Hopen as ->. pose proof Hw as []. unfold readSolidStream. cbn [eh_fileKey eh_pm].
  unfold rbind at 1, encode_body. rewrite <- !app_assoc, takes_skipPadding by done. unfold decryptDataBlocks, streamDataBlocks.
  rewrite read_blocks_framed by (eauto using opens_framed, encode_blocks_length).
  rewrite (deliver_opens _ (fun a c => a ++ c) _ _ _ chunks (fun _ => True)) by done.
  rewrite fold_append_bytes, app_nil_l, Hcc.
  unfold rbind at 1. rewrite readTrailer_framed by done. change (ks_Version (KeysV2 master)) with Version2.
  rewrite Ht, Hc. cbv zeta. destruct Hcodec as [[-> Hd]|[-> ->]].
  - rewrite Z.eqb_refl, Hd. by rewrite verify_self.
  - change (CodecNone =? CodecZstd) with false. cbv iota. rewrite (proj2 (Z.ltb_ge _ _)) by done.
    by rewrite verify_self.
Qed.

(** The payload of a sealed solid group undoes to its record stream. *)
Lemma sealSolidEntry_payload toLower opts p keys stream r0 r e codec :
  newCompressionPolicy opts = Ok p -> len stream <= MaxSolidStreamSize ->
  sealSolidEntry toLower keys p stream r0 r = Some (IOk (e, codec)) ->
  exists payload, sealPayloadEntry keys EntryTypeSolid codec payload stream r0 r = IOk e /\
    (codec = CodecZstd /\ Decompress NewSolidDecompressor payload = Ok stream \/ codec = CodecNone /\ payload = stream).
Proof.
  intros Hpol Hs H. unfold sealSolidEntry in H.
  destruct (solidCodecFor toLower p stream) as [c|] eqn:Ec; [|done]. cbv zeta in H.
  match type of H with context [sealPayloadEntry _ _ _ ?pl _ _ _] => set (payload := pl) in * end.
  destruct (sealPayloadEntry _ _ _ _ _ _ _) as [e'|] eqn:Es; [|done]. injection H as -> ->. exists payload. split; [done|].
  unfold payload. unfold solidCodecFor in Ec. destruct (cp_solidCompressor p) as [bc|] eqn:Eb; [|injection Ec as <-; by right].
  destruct (codecFor_defined toLower opts p [] (ztake (Z.min (len stream) compressionProbeSize) stream) Hpol)
    as (c' & Hc' & [->|Hc''] & _); rewrite Ec in Hc'; injection Hc' as ->; [by right|left].
  split; [done|]. rewrite Hc'', Z.eqb_refl. apply Decompress_Compress; [|done].
  enough (bc_window bc = MaxSolidStreamSize) as -> by done. clear -Hpol Eb.
  unfold newCompressionPolicy, NewBlockCompressor, NewSolidCompressor, newCompressor, errorf in Hpol.
  repeat case_match; simplify_eq; cbn in Eb; by simplify_eq.
Qed.

(** A sealed solid group reads back as its members, with the size of its payload. *)
Lemma readSolidMembers_sealed toLower opts p master ms r0 r e codec :
  newCompressionPolicy opts = Ok p -> Forall member_ok ms -> ms <> [] -> len (encode_members ms) <= MaxSolidStreamSize ->
  sealSolidEntry toLower (KeysV2 master) p (encode_members ms) r0 r = Some (IOk (e, codec)) ->
  exists pm payload, well_framed e /\ EntryType e = EntryTypeSolid /\ pm_Codec pm = codec /\
    (codec = CodecNone \/ codec = CodecZstd) /\
    sealPayloadEntry (KeysV2 master) EntryTypeSolid codec payload (encode_members ms) r0 r = IOk e /\
    Open (FileKey (KeysV2 master) (EntrySalt e)) (MetaBlock e) = Ok pm /\
    takes (readSolidMembers (KeysV2 master) (mk_head (FileKey (KeysV2 master) (EntrySalt e)) pm)) (encode_body e)
      (ms, len (encode_members ms), len payload).
Proof.
  intros Hpol Hms Hne Hs H. destruct (sealSolidEntry_payload _ _ _ _ _ _ _ _ _ Hpol Hs H) as (payload & Es & Hcodec).
  pose proof Es as Es'. apply payload_entry_framed in Es' as (pm & chunks & Hw & Hty & Ho & Hc & _);
    [|unfold MaxSolidStreamSize in Hs; lia].
  exists pm, payload. repeat (split; [done|]). split; [destruct Hcodec as [[? _]|[? _]]; auto|]. repeat (split; [done|]).
  intros rest. unfold readSolidMembers, rbind at 1.
  rewrite (readSolidStream_payload master codec payload (encode_members ms) r0 r e pm rest) by done. cbn [fst snd].
  assert (ParseSolidStream (encode_members ms) = Ok ms) as ->; [|done].
  unfold ParseSolidStream. rewrite solid_records_app by done. destruct ms; [done|]. rewrite len_cons. by eqb_false.
Qed.

(** A solid group is extracted as its members. *)
Lemma solid_entry_extracts toLower opts p master ms r0 r e codec :
  newCompressionPolicy opts = Ok p -> Forall member_ok ms -> ms <> [] ->
  len (encode_members ms) <= MaxSolidStreamSize ->
  sealSolidEntry toLower (KeysV2 master) p (encode_members ms) r0 r = Some (IOk (e, codec)) ->
  extracts (KeysV2 master) e (map (fun m => mk_xr (sm_Name m) (len (sm_Data m)) true None) ms)
    (map (fun m => PubFile (sm_Name m) (sm_Data m) (Some (sm_Attributes m)) 420) ms).
Proof.
  intros Hpol Hms Hne Hs H.
  destruct (readSolidMembers_sealed _ _ _ _ _ _ _ _ _ Hpol Hms Hne Hs H) as (pm & payload & Hw & Hty & _ & _ & _ & Ho & Hr).
  split; [by right|]. intros log rest. rewrite Hty. unfold extractEntry, tbind at 1, lift.
  rewrite readEntryHead_framed, Ho by done. change (EntryTypeSolid =? EntryTypeSolid) with true. cbv iota.
  unfold extractSolidBody, tbind at 1, lift. rewrite Hr. cbn [fst snd]. by rewrite write_members_all.
Qed.

(** ** The whole archive *)

Record item := mk_item { it_entry : FileEntry; it_results : list ExtractionResult; it_published : list published }.

Definition item_ok (ks : KeySchedule) (it : item) : Prop := extracts ks (it_entry it) (it_results it) (it_published it).

Lemma nextEntryType_entry master e r : EntryType e = EntryTypeFile \/ EntryType e = EntryTypeSolid ->
  nextEntryType (KeysV2 master) (encode_entry e ++ r) = (IOk (Some (EntryType e)), encode_head e ++ encode_body e ++ r).
Proof.
  intros Hty. unfold nextEntryType, encode_entry. cbn [next_entry app]. rewrite bz_zb.
  change (ks_Version (KeysV2 master) =? Version1) with false. cbv iota. rewrite <- app_assoc.
  destruct Hty as [-> | ->]; reflexivity.
Qed.

Lemma extract_loop_items master items tail fin : Forall (item_ok (KeysV2 master)) items ->
  nextEntryType (KeysV2 master) tail = (IOk None, fin) -> forall fuel log, (length items < fuel)%nat ->
  extract_loop fuel (KeysV2 master) (mk_mem log None) (concat (map encode_entry (map it_entry items)) ++ tail) =
  (concat (map it_results items), None, mk_mem (log ++ concat (map it_published items)) None, fin).
Proof.
  intros Hi Ht. induction Hi as [|it items [Hty He] _ IH]; intros fuel log Hf;
    (destruct fuel as [|fuel]; [cbn in Hf; lia|]); cbn [extract_loop map concat].
  - rewrite app_nil_l, Ht. by rewrite app_nil_r.
  - rewrite <- app_assoc, nextEntryType_entry by done. rewrite He. rewrite IH by (cbn in Hf; lia).
    by rewrite app_assoc.
Qed.

(** The directory entry and its locator, which sequential readers pass over. *)
Definition encode_directory (dir : option FileEntry) (offset : Z) : bytes :=
  match dir with Some d => encode_entry d ++ AppendDirectoryLocator [] (u64 offset) | None => [] end.

Definition dir_ok (ks : KeySchedule) (dir : option FileEntry) : Prop :=
  match dir with
  | None => True
  | Some d => well_framed d /\ EntryType d = EntryTypeDirectory /\
              exists pm, Open (FileKey ks (EntrySalt d)) (MetaBlock d) = Ok pm
  end.

Lemma skipDirectory_entry master d r : dir_ok (KeysV2 master) (Some d) ->
  skipDirectory (KeysV2 master) EntryTypeDirectory (encode_head d ++ encode_body d ++ r) = (IOk tt, r).
Proof.
  intros (Hw & _ & pm & Ho). unfold skipDirectory. change (EntryTypeDirectory =? EntryTypeDirectoryLocator) with false.
  cbv beta iota. rewrite readEntryHead_framed, Ho by done. by rewrite skipEntryBody_framed.
Qed.

Lemma skipDirectory_locator master offset r : 0 <= offset < 2 ^ 64 ->
  skipDirectory (KeysV2 master) EntryTypeDirectoryLocator ((directoryLocatorMagic ++ le_bytes 8 offset) ++ r) = (IOk tt, r).
Proof.
  intros Ho. unfold skipDirectory. rewrite Z.eqb_refl. unfold rbind. rewrite takes_rfull by done.
  assert (ParseDirectoryLocator ([zb EntryTypeDirectoryLocator] ++ directoryLocatorMagic ++ le_bytes 8 offset) = Ok offset) as ->; [|done].
  by apply ParseDirectoryLocator_Append.
Qed.

Lemma nextEntryType_tail master dir offset fin : dir_ok (KeysV2 master) dir ->
  nextEntryType (KeysV2 master) (encode_directory dir offset ++ [zb EntryTypeEnd] ++ fin) = (IOk None, fin).
Proof.
  intros Hd. unfold nextEntryType. destruct dir as [d|]; [|reflexivity]. pose proof Hd as (_ & Hty & _).
  unfold encode_directory, encode_entry, AppendDirectoryLocator. rewrite Hty, app_nil_l.
  set (n := length _). assert (3 <= S n)%nat as Hn.
  { unfold n. rewrite !length_app. cbn [length]. lia. }
  destruct n as [|[|n]]; [lia|lia|]. rewrite <- !app_assoc. cbn [next_entry app]. rewrite bz_zb.
  change (ks_Version (KeysV2 master) =? Version1) with false. cbv iota.
  change (EntryTypeDirectory mod 256) with EntryTypeDirectory.
  change ((EntryTypeDirectory =? EntryTypeFile) || _) with false. change (EntryTypeDirectory =? EntryTypeEnd) with false.
  change ((EntryTypeDirectory =? EntryTypeDirectory) || _) with true. cbv iota.
  unfold rbind at 1. rewrite skipDirectory_entry by done. rewrite bz_zb.
  change (EntryTypeDirectoryLocator mod 256) with EntryTypeDirectoryLocator.
  change ((EntryTypeDirectoryLocator =? EntryTypeFile) || _) with false.
  change (EntryTypeDirectoryLocator =? EntryTypeEnd) with false.
  change ((EntryTypeDirectoryLocator =? EntryTypeDirectory) || _) with true. cbv iota.
  unfold rbind at 1. rewrite (app_assoc directoryLocatorMagic), skipDirectory_locator
    by (unfold u64; apply Z.mod_pos_bound; lia).
  destruct n; reflexivity.
Qed.
End RoundTrip.

Section WholeArchive.
Context `{C : Crypto} `{CL : !CryptoLaws C} `{ZS : Zstd} `{ZL : !ZstdLaws ZS} `{SH : Sha256} `{SL : !Sha256Laws SH} `{AG : Age}.

(** The three kinds of entry the archivers seal, with what each should publish. *)
Inductive sealed_input (toLower : bytes -> bytes) (ks : KeySchedule) : item -> Prop :=
  | sealed_file mkfb mapped codec perm mtime statSize i data r0 r e :
      file_input_ok i perm data ->
      (forall k, fb_key (mkfb k) = k /\ fb_ok (mkfb k) /\ fb_Codec (mkfb k) = codec) ->
      streamed_entry ks mkfb mapped codec perm mtime statSize i data r0 r = IOk e ->
      sealed_input toLower ks (mk_item e [mk_xr (in_name i) (len data) true None]
        [PubFile (in_name i) data (Some (in_attrs i)) (Z.land perm 511)])
  | sealed_special i r0 r e :
      ValidEntryName (in_name i) = true -> regular i = false ->
      (Kind (in_attrs i) = KindHardlink -> ValidEntryName (LinkTarget (in_attrs i)) = true) ->
      Attributes_typed (in_attrs i) ->
      sealSpecialEntry ks i r0 r = IOk e ->
      sealed_input toLower ks (mk_item e [mk_xr (in_name i) 0 true None] [PubSpecial (in_name i) (in_attrs i)])
  | sealed_solid opts p ms r0 r e codec :
      newCompressionPolicy opts = Ok p -> Forall member_ok ms -> ms <> [] ->
      len (encode_members ms) <= MaxSolidStreamSize ->
      sealSolidEntry toLower ks p (encode_members ms) r0 r = Some (IOk (e, codec)) ->
      sealed_input toLower ks (mk_item e (map (fun m => mk_xr (sm_Name m) (len (sm_Data m)) true None) ms)
        (map (fun m => PubFile (sm_Name m) (sm_Data m) (Some (sm_Attributes m)) 420) ms)).

Lemma sealed_item_ok toLower master it : sealed_input toLower (KeysV2 master) it -> item_ok (KeysV2 master) it.
Proof.
  destruct 1; unfold item_ok; cbn [it_entry it_results it_published];
    [by eapply streamed_entry_extracts|by eapply special_entry_extracts|by eapply solid_entry_extracts].
Qed.

Lemma SealFileCount_len master count r sealed r' : SealFileCount (KeysV2 master) count r = (Ok sealed, r') -> len sealed = FileCountSealedSize.
Proof.
  unfold SealFileCount, HeaderKey. destruct (EncryptBlock _ _ r) as [b r1] eqn:Eb.
  apply DecryptBlock_EncryptBlock in Eb as (_ & Hn & Hl). intros [= <- <-]. rewrite len_le_bytes in Hl. rewrite len_app, Hn, Hl. done.
Qed.

Lemma SealFileCount_opens master count r sealed r' : 0 <= count < 2 ^ 64 ->
  SealFileCount (KeysV2 master) count r = (Ok sealed, r') ->
  len sealed = FileCountSealedSize /\ openFileCount (KeysV2 master) sealed = Ok count.
Proof.
  intros Hc. unfold SealFileCount, openFileCount, HeaderKey. destruct (EncryptBlock _ _ r) as [b r1] eqn:Eb.
  apply DecryptBlock_EncryptBlock in Eb as (Hd & Hn & Hl). intros [= <- <-]. rewrite len_le_bytes in Hl.
  split; [rewrite len_app, Hn, Hl; done|]. rewrite ztake_app, zdrop_app by done.
  replace (mk_block (eb_Nonce b) (eb_Ciphertext b)) with b by by destruct b. rewrite Hd, len_le_bytes. cbn [negb Z.of_nat].
  by rewrite <- (app_nil_r (le_bytes 8 count)), le_u64_app.
Qed.

(** The header a fresh writer writes is opened by any credential holder. *)
Lemma readHeader_written cek block u count flags r aw : OpenRecipientBlock block u = Opened cek ->
  len block <= MaxRecipientBlockSize -> 0 <= count < 2 ^ 64 -> 0 <= flags < 256 ->
  WriteHeaderWithFlags count flags r (NewArchiveWriter cek block) = Ok aw ->
  exists B, wrote aw [] B /\ forall s, readHeader u (B ++ s) = (IOk (KeysV2 cek, mk_hinfo flags count (len block)), s).
Proof.
  intros Ho Hb Hc Hf. unfold WriteHeaderWithFlags. cbn [aw_keys NewArchiveWriter newArchiveWriter aw_recipients].
  destruct (SealFileCount _ _ _) as [[sealed|] r1] eqn:Es; [|done]. apply SealFileCount_opens in Es as [Hl Hs]; [|done].
  intros E. inv_ok E. eexists. split; [apply wrote_tee, wrote_new|]. intros s. rewrite app_nil_l.
  pose proof (len_nonneg block). unfold MaxRecipientBlockSize in Hb.
  unfold readHeader, rbind at 1. rewrite <- !app_assoc. rewrite (takes_rfull 4) by done. rewrite bytes_eqb_refl. cbn [negb].
  unfold rbind at 1. rewrite (takes_rfull 2) by done.
  replace (le_u16 (le_bytes 2 (ks_Version (KeysV2 cek)))) with Version2 by done. cbv zeta.
  change (Version2 =? Version1) with false. change (Version2 =? Version2) with true. cbv iota.
  unfold readVersion2Header, rbind at 1. rewrite (takes_rfull 4) by done. rewrite le_u32_exact by lia. cbv zeta.
  rewrite (proj2 (Z.ltb_ge _ _)) by done.
  unfold rbind at 1. rewrite (takes_rfull (len block)) by done. unfold rbind at 1. rewrite (takes_rfull FileCountSealedSize) by done.
  unfold rbind at 1. rewrite (app_assoc [zb flags]), (takes_rfull ReservedSize) by done.
  rewrite Ho, Hs. cbn [app hd]. rewrite bz_zb, Z.mod_small by lia. done.
Qed.

Lemma wrote_entries es : forall aw P B, wrote aw P B ->
  wrote (fold_left (fun aw e => WriteFileEntry e aw) es aw) P (B ++ concat (map encode_entry es)).
Proof.
  induction es as [|e es IH]; intros aw P B Hw; cbn [fold_left map concat]; [by rewrite app_nil_r|].
  rewrite app_assoc. by apply IH, wrote_entry.
Qed.

(** [directoryBuilder.write]: the directory entry, then a locator pointing at it. *)
Definition write_directory (dir : option FileEntry) (aw : ArchiveWriter) : ArchiveWriter :=
  match dir with
  | None => aw
  | Some d => WriteDirectoryLocator (aw_offset aw) (WriteFileEntry d aw)
  end.

Lemma wrote_directory dir aw P B : wrote aw P B ->
  wrote (write_directory dir aw) P (B ++ encode_directory dir (aw_offset aw)).
Proof.
  intros Hw. destruct dir as [d|]; cbn [write_directory encode_directory]; [|by rewrite app_nil_r].
  rewrite app_assoc. by apply wrote_tee, wrote_entry.
Qed.

Lemma archive_extracts (toLower : bytes -> bytes) (cek block : bytes) (u : Unlockers) (count : Z) (r : rng)
  (aw1 : ArchiveWriter) (items : list item) (dir : option FileEntry) (extra : bytes)
  (Hopen : OpenRecipientBlock block u = Opened cek) (Hblock : len block <= MaxRecipientBlockSize)
  (Hcount : 0 <= count < 2 ^ 64)
  (Hhdr : WriteHeader count r (NewArchiveWriter cek block) = Ok aw1)
  (Hitems : Forall (sealed_input toLower (KeysV2 cek)) items)
  (Hdir : forall d, dir = Some d -> exists pt r0 r1, len pt < 2 ^ 63 /\
     sealPayloadEntry (KeysV2 cek) EntryTypeDirectory CodecNone pt pt r0 r1 = IOk d) :
  let archive := aw_out (WriteFooter (write_directory dir
    (fold_left (fun aw e => WriteFileEntry e aw) (map it_entry items) aw1))) in
  exists s fin,
    readHeader u (archive ++ extra) = (IOk (KeysV2 cek, mk_hinfo 0 count (len block)), s) /\
    extractEntries (KeysV2 cek) (mk_mem [] None) s =
      (concat (map it_results items), None, mk_mem (concat (map it_published items)) None, fin) /\
    len fin = FooterSize + len extra.
Proof.
  cbv zeta. destruct (readHeader_written cek block u count 0 r aw1) as (B & Hw & Hread); [done..|].
  apply (wrote_entries (map it_entry items)) in Hw.
  pose proof (wrote_directory dir _ _ _ Hw) as Hw2. destruct (WriteFooter_out _ _ _ Hw2) as [-> _].
  rewrite <- !app_assoc. rewrite Hread. eexists _, _. split; [reflexivity|].
  assert (dir_ok (KeysV2 cek) dir) as Hd.
  { destruct dir as [d|]; [|done]. destruct (Hdir d eq_refl) as (pt & r0 & r1 & Hl & Hs).
    apply payload_entry_framed in Hs as (pm & chunks & Hwf & Hty & Ho & _); [|done]. split; [done|]. split; [done|]. by exists pm. }
  split.
  - unfold extractEntries. erewrite (extract_loop_items cek items).
    + reflexivity.
    + eapply Forall_impl; [exact Hitems|]. intros it. apply sealed_item_ok.
    + by apply nextEntryType_tail.
    + rewrite length_app. assert (length items <= length (concat (map encode_entry (map it_entry items))))%nat; [|lia].
      clear. induction items as [|it items IH]; cbn [map concat length]; [lia|]. rewrite length_app. unfold encode_entry at 1.
      cbn [app length]. lia.
  - rewrite !len_app, len_sha_sum, len_replicate. change (Z.of_nat 32) with 32. unfold FooterSize, HMACSize, ReservedSize. lia.
Qed.

(** Archives round trip. Any mix of streamed files, directories and links, and solid
    groups, sealed under a fresh CEK, written between a header and a footer with or without
    a directory, is unlocked by any credential that opens its recipient block and extracted
    to exactly those files, links and directories, in order, without error; only the footer
    is left unread. *)
Theorem archive_roundtrip (toLower : bytes -> bytes) (cek block : bytes) (u : Unlockers) (count : Z) (r : rng)
  (aw1 : ArchiveWriter) (items : list item) (dir : option FileEntry)
  (Hopen : OpenRecipientBlock block u = Opened cek) (Hblock : len block <= MaxRecipientBlockSize)
  (Hcount : 0 <= count < 2 ^ 64)
  (Hhdr : WriteHeader count r (NewArchiveWriter cek block) = Ok aw1)
  (Hitems : Forall (sealed_input toLower (KeysV2 cek)) items)
  (Hdir : forall d, dir = Some d -> exists pt r0 r1, len pt < 2 ^ 63 /\
     sealPayloadEntry (KeysV2 cek) EntryTypeDirectory CodecNone pt pt r0 r1 = IOk d) :
  let archive := aw_out (WriteFooter (write_directory dir
    (fold_left (fun aw e => WriteFileEntry e aw) (map it_entry items) aw1))) in
  exists s fin,
    readHeader u archive = (IOk (KeysV2 cek, mk_hinfo 0 count (len block)), s) /\
    extractEntries (KeysV2 cek) (mk_mem [] None) s =
      (concat (map it_results items), None, mk_mem (concat (map it_published items)) None, fin) /\
    len fin = FooterSize.
Proof.
  destruct (archive_extracts toLower cek block u count r aw1 items dir [] Hopen Hblock Hcount Hhdr Hitems Hdir) as (s & fin & Hs & He & Hl).
  exists s, fin. rewrite app_nil_r in Hs. rewrite len_nil, Z.add_0_r in Hl. done.
Qed.
End WholeArchive.

(** ** An example archive

    A file, a directory and a solid group of two files, with no directory entry. *)
Definition sample_input : inputFile := mk_input (str "/in/a.txt") (str "a.txt") zero_attributes.
Definition sample_dir : inputFile := mk_input (str "/in/d") (str "d") (mk_attributes KindDirectory 493 5 [] None []).

Definition sample_entry_or (e : iores FileEntry) : FileEntry := match e with IOk e => e | IErr _ => sample_entry end.

Definition sample_items : list item :=
  [mk_item (sample_entry_or (@streamed_entry toy_crypto toy_zstd (KeysV2 sample_cek) (fun k => mk_fb k None) false CodecNone
      420 86400 5 sample_input (str "hello") toy_rng toy_rng))
     [mk_xr (str "a.txt") 5 true None] [PubFile (str "a.txt") (str "hello") (Some zero_attributes) 420];
   mk_item (sample_entry_or (@sealSpecialEntry toy_crypto (KeysV2 sample_cek) sample_dir toy_rng toy_rng))
     [mk_xr (str "d") 0 true None] [PubSpecial (str "d") (in_attrs sample_dir)];
   mk_item (sample_entry_or (@sealPayloadEntry toy_crypto toy_zstd (KeysV2 sample_cek) EntryTypeSolid CodecNone
      (encode_members sample_members) (encode_members sample_members) toy_rng toy_rng))
     [mk_xr (str "a") 5 true None; mk_xr (str "d/b") 0 true None]
     [PubFile (str "a") (str "hello") (Some zero_attributes) 420;
      PubFile (str "d/b") [] (Some (mk_attributes 0 420 77 [] None [])) 420]].

Definition sample_aw1 : @ArchiveWriter toy_sha :=
  match @WriteHeader toy_crypto toy_sha 4 toy_rng (@NewArchiveWriter toy_sha sample_cek sample_block) with
  | Ok aw => aw | Err _ => sample_writer end.

Definition sample_archive : bytes :=
  @aw_out toy_sha (WriteFooter (write_directory None
    (fold_left (fun aw e => WriteFileEntry e aw) (map it_entry sample_items) sample_aw1))).

Lemma sample_items_sealed : Forall (@sealed_input toy_crypto toy_zstd (fun b => b) (KeysV2 sample_cek)) sample_items.
Proof.
  repeat (apply Forall_cons; split); [| | |by apply Forall_nil].
  - eapply (@sealed_file toy_crypto toy_zstd _ _ (fun k => mk_fb k None) false CodecNone 420 86400 5 sample_input
      (str "hello") toy_rng toy_rng).
    + constructor; [vm_compute; reflexivity|reflexivity|apply zero_attributes_typed|lia|reflexivity].
    + done.
    + vm_compute. reflexivity.
  - eapply (@sealed_special toy_crypto toy_zstd _ _ sample_dir toy_rng toy_rng).
    + vm_compute. reflexivity.
    + reflexivity.
    + done.
    + unfold Attributes_typed. cbn [sample_dir in_attrs Kind Mode ModTime attr_Owner]. unfold KindDirectory.
      split_and!; try lia; done.
    + vm_compute. reflexivity.
  - eapply (@sealed_solid toy_crypto toy_zstd _ _ (mk_copts CompressionNever 0 true) _ sample_members toy_rng toy_rng _ CodecNone).
    + reflexivity.
    + apply sample_members_ok.
    + discriminate.
    + vm_compute. discriminate.
    + vm_compute. reflexivity.
Defined.

Lemma archive_roundtrip_witness :
  exists s fin,
    @readHeader toy_crypto toy_age sample_unlockers sample_archive =
      (IOk (KeysV2 sample_cek, mk_hinfo 0 4 (len sample_block)), s) /\
    @extractEntries toy_crypto toy_zstd memtree mem_Tree (KeysV2 sample_cek) (mk_mem [] None) s =
      (concat (map it_results sample_items), None, mk_mem (concat (map it_published sample_items)) None, fin) /\
    len fin = FooterSize.
Proof.
  refine (@archive_roundtrip toy_crypto toy_laws toy_zstd toy_zstd_laws toy_sha toy_sha_laws toy_age
    (fun b => b) sample_cek sample_block sample_unlockers 4 toy_rng sample_aw1 sample_items None _ _ _ _ _ _).
  - vm_compute. reflexivity.
  - vm_compute. discriminate.
  - lia.
  - unfold sample_aw1. destruct (WriteHeader _ _ _) as [aw|e] eqn:E; [reflexivity|]. discriminate E.
  - apply sample_items_sealed.
  - discriminate.
Defined.
