(* ===== verification/Incremental.v ===== *)
(** * Reading incremental archives (io/incremental.go)

    The authenticated state of an incremental archive: its newest checkpoint, or the last
    complete session found by scanning, the chain of session indexes back to the first,
    and the chunks and files they add up to. A file is its bytes; [Panics] is a Go panic
    and [Loops] is running out of fuel, which the theorems exclude. *)

From S2P Require Import Prelude Bytes Names Attributes Metadata IndexCodec Checkpoint Crypto Codec Frames.
From S2P Require Import Checksum Writer Signatures IOErrors SolidPlan Extractor.
Open Scope go_scope.

Inductive run (A : Type) := Returns (r : iores A) | Panics | Loops.
Arguments Returns {A} r.
Arguments Panics {A}.
Arguments Loops {A}.

(** [let^ x := e in k]: go on with the value of [e]. *)
Notation "'let^' x ':=' e 'in' k" :=
  (match e with Returns (IOk x) => k | Returns (IErr err) => Returns (IErr err) | Panics => Panics | Loops => Loops end)
  (at level 10, x name, e at level 100, k at level 200) : go_scope.

Definition of_panic {A} (x : option (iores A)) : run A := match x with Some r => Returns r | None => Panics end.

(** ** State *)

Record chunkLocation := mk_loc {
  cl_id : bytes;
  cl_packOffset : Z;
  cl_offset : Z;
  cl_stored : Z;
  cl_raw : Z;
  cl_codec : Z
}.

Section Loader.
Context `{C : Crypto} `{ZS : Zstd}.

Record incrementalArchive := mk_ia {
  ia_keys : KeySchedule;
  ia_header : headerInfo;
  ia_sessions : Z;
  ia_lastIndex : Z;
  ia_tail : Z;
  ia_hashState : option bytes;
  ia_recovered : bool;
  ia_chunks : list chunkLocation;
  ia_files : gmap bytes FileVersion
}.

Definition sortedFiles (ia : incrementalArchive) : list FileVersion :=
  stable_sort (fun a b => bytes_ltb (fv_Name a) (fv_Name b)) (map snd (map_to_list (ia_files ia))).

(** ** Payload entries *)

Definition payload_sink (limit : Z) (acc pt : bytes) : option bytes :=
  if limit <? len acc + len pt then None else Some (acc ++ pt).

Definition readPayloadBody (keys : KeySchedule) (limit : Z) (what : string) : rd bytes := fun s =>
  match readEntryHead keys s with
  | (IErr _, s) => (IErr (fatal ErrCodeIntegrityFail (String.append "open " what)), s)
  | (IOk head, s) =>
  match skipPadding (fatal ErrCodeTruncated (String.append "skip " (String.append what " padding"))) s with
  | (IErr e, s) => (IErr e, s)
  | (IOk _, s) =>
  match streamDataBlocks (payload_sink limit) (eh_fileKey head) CodecNone [] s with
  | (_, Some _, s) => (IErr (fatal ErrCodeIntegrityFail (String.append "decrypt " what)), s)
  | (plaintext, None, s) =>
  match readTrailer (eh_fileKey head) (ks_Version keys) s with
  | (IErr _, s) => (IErr (fatal ErrCodeIntegrityFail (String.append "read " (String.append what " trailer"))), s)
  | (IOk trailer, s) =>
  match verifyPlaintext (eh_fileKey head) plaintext trailer with
  | IErr _ => (IErr (fatal ErrCodeIntegrityFail (String.append what " failed verification")), s)
  | IOk _ => (IOk plaintext, s)
  end end end end end.

Definition readIndexBody (keys : KeySchedule) (s : bytes) : option (iores SessionIndex * bytes) :=
  match readPayloadBody keys MaxIndexSize "session index" s with
  | (IErr e, s) => Some (IErr e, s)
  | (IOk plaintext, s) =>
      match ParseSessionIndex plaintext with
      | None => None
      | Some (Err _) => Some (IErr (fatal ErrCodeIntegrityFail "parse session index"), s)
      | Some (Ok si) => Some (IOk si, s)
      end
  end.

(** [entryReaderAt]: the bytes from [offset] to [size]. *)
Definition entryReaderAt (ra : bytes) (size offset : Z) : bytes := ztake (size - offset) (zdrop offset ra).

Definition readIndexAt (ra : bytes) (size : Z) (keys : KeySchedule) (offset : Z) : option (iores SessionIndex) :=
  match entryReaderAt ra size offset with
  | [] => Some (IErr (fatal ErrCodeTruncated "read session index"))
  | ty :: s =>
      if negb (bz ty =? EntryTypeIndex) then Some (IErr (fatal ErrCodeIntegrityFail "expected a session index entry"))
      else match readIndexBody keys s with None => None | Some (r, _) => Some r end
  end.

(** ** Finding the newest session *)

Definition readCheckpoint (ra : bytes) (size headerEnd : Z) : iores (Z * Z * bytes) :=
  let tail := size - TailSize in
  if tail <? headerEnd then IErr (fatal ErrCodeTruncated "incremental archive is too short")
  else
    let@ buf := or_fatal ErrCodeReadFailed "read archive tail" (read_at ra tail TailSize) in
    match ParseCheckpoint (ztake CheckpointSize buf) with
    | Err _ => IErr (fatal ErrCodeIntegrityFail "damaged archive tail")
    | Ok cp =>
        if negb (byte_at CheckpointSize buf =? EntryTypeEnd) then IErr (fatal ErrCodeIntegrityFail "damaged archive tail")
        else if (LastIndex cp <? u64 headerEnd) || (u64 tail <=? LastIndex cp)
        then IErr (fatal ErrCodeIntegrityFail "checkpoint points outside the archive")
        else IOk (i64 (LastIndex cp), tail, HashState cp)
    end.

(** The loop of [scanForLastIndex] on the unread bytes [s], the last of them at [fin]: the
    last complete index and the offset just past it. *)
Fixpoint scan_loop (fuel : nat) (keys : KeySchedule) (fin : Z) (s : bytes) (found : option (Z * Z)) : run (option (Z * Z)) :=
  match fuel with
  | O => Loops
  | S fuel =>
      let entryStart := fin - len s in
      match s with
      | [] => Returns (IOk found)
      | ty :: s =>
          if bz ty =? EntryTypePack then
            match readEntryHead keys s with
            | (IErr _, _) => Returns (IOk found)
            | (IOk _, s) => match skipEntryBody None s with
                            | (IErr _, _) => Returns (IOk found)
                            | (IOk _, s) => scan_loop fuel keys fin s found
                            end
            end
          else if negb (bz ty =? EntryTypeIndex) then Returns (IOk found)
          else match readIndexBody keys s with
               | None => Panics
               | Some (IErr _, _) => Returns (IOk found)
               | Some (IOk _, s) => scan_loop fuel keys fin s (Some (entryStart, fin - len s))
               end
      end
  end.

Definition scanForLastIndex (ra : bytes) (size : Z) (keys : KeySchedule) (start : Z) : run (Z * Z) :=
  let s := entryReaderAt ra size start in
  let^ found := scan_loop (S (length s)) keys (start + len s) s None in
  match found with
  | None => Returns (IErr (fatal ErrCodeIntegrityFail "incremental archive has no complete session"))
  | Some x => Returns (IOk x)
  end.

(** ** The index chain *)

(** The loop of [readIndexChain]: the indexes read so far with their offsets, oldest first. *)
Fixpoint chain_loop (fuel : nat) (ra : bytes) (size : Z) (keys : KeySchedule) (headerEnd off : Z)
  (chain : list (SessionIndex * Z)) : run (list (SessionIndex * Z)) :=
  match fuel with
  | O => Loops
  | S fuel =>
      match readIndexAt ra size keys off with
      | None => Panics
      | Some (IErr e) => Returns (IErr e)
      | Some (IOk si) =>
          if match chain with (next, _) :: _ => negb (Session si =? u64 (Session next - 1)) | [] => false end
          then Returns (IErr (fatal ErrCodeIntegrityFail "session index chain is out of order"))
          else if Session si =? 1
          then if negb (PrevIndex si =? 0)
               then Returns (IErr (fatal ErrCodeIntegrityFail "first session index has a predecessor"))
               else Returns (IOk ((si, off) :: chain))
          else if (PrevIndex si <? u64 headerEnd) || (u64 off <=? PrevIndex si)
          then Returns (IErr (fatal ErrCodeIntegrityFail "session index chain points outside the archive"))
          else chain_loop fuel ra size keys headerEnd (i64 (PrevIndex si)) ((si, off) :: chain)
      end
  end.

Definition readIndexChain (ra : bytes) (size : Z) (keys : KeySchedule) (headerEnd lastIndex : Z) : run (list (SessionIndex * Z)) :=
  chain_loop (S (Z.to_nat lastIndex)) ra size keys headerEnd lastIndex [].

(** ** Applying sessions *)

Definition chunk_location (packs : list Z) (c : ChunkRecord) : option chunkLocation :=
  match packs !! Z.to_nat (cr_Pack c) with
  | Some p => Some (mk_loc (cr_ID c) (i64 p) (cr_Offset c) (cr_StoredLen c) (cr_RawLen c) (cr_Codec c))
  | None => None
  end.

(** [ia.chunks[n].raw] summed over a file's chunks, in 64 bits. *)
Fixpoint chunks_total (chunks : list chunkLocation) (ns : list Z) (total : Z) : option Z :=
  match ns with
  | [] => Some total
  | n :: ns => match chunks !! Z.to_nat n with
               | Some c => chunks_total chunks ns (u64 (total + cl_raw c))
               | None => None
               end
  end.

Fixpoint apply_files (chunks : list chunkLocation) (fs : list FileVersion) (files : gmap bytes FileVersion) :
  option (iores (gmap bytes FileVersion)) :=
  match fs with
  | [] => Some (IOk files)
  | f :: fs =>
      match chunks_total chunks (fv_Chunks f) 0 with
      | None => None
      | Some total =>
          if negb (total =? fv_Size f) then Some (IErr (fatal ErrCodeIntegrityFail "file size does not match its chunks"))
          else apply_files chunks fs (<[fv_Name f := f]> files)
      end
  end.

Definition apply_session (ia : incrementalArchive) (si : SessionIndex) (indexOffset : Z) : option (iores incrementalArchive) :=
  if negb (FirstChunk si =? len (ia_chunks ia))
  then Some (IErr (fatal ErrCodeIntegrityFail "session index chunk numbering is inconsistent"))
  else if existsb (fun p => (p <? u64 (hi_end (ia_header ia))) || (u64 indexOffset <=? p)) (Packs si)
  then Some (IErr (fatal ErrCodeIntegrityFail "pack lies outside its session"))
  else match mapM (chunk_location (Packs si)) (Chunks si) with
  | None => None
  | Some locs =>
      let chunks := ia_chunks ia ++ locs in
      match apply_files chunks (Files si) (ia_files ia) with
      | None => None
      | Some (IErr e) => Some (IErr e)
      | Some (IOk files) =>
          Some (IOk (mk_ia (ia_keys ia) (ia_header ia) (ia_sessions ia) (ia_lastIndex ia) (ia_tail ia) (ia_hashState ia)
            (ia_recovered ia) chunks (fold_left (fun fs name => delete name fs) (Deleted si) files)))
      end
  end.

Fixpoint apply_chain (chain : list (SessionIndex * Z)) (ia : incrementalArchive) : option (iores incrementalArchive) :=
  match chain with
  | [] => Some (IOk ia)
  | (si, off) :: chain =>
      match apply_session ia si off with
      | Some (IOk ia) => apply_chain chain ia
      | r => r
      end
  end.

Definition newest_session (chain : list (SessionIndex * Z)) : Z :=
  match last chain with Some (si, _) => Session si | None => 0 end.

(** The newest session: through the checkpoint, or by scanning. *)
Definition find_newest (ra : bytes) (size : Z) (keys : KeySchedule) (headerEnd : Z) : run (Z * Z * option bytes * bool) :=
  match readCheckpoint ra size headerEnd with
  | IOk (lastIndex, tail, state) => Returns (IOk (lastIndex, tail, Some state, false))
  | IErr _ => let^ found := scanForLastIndex ra size keys headerEnd in
              Returns (IOk (fst found, snd found, None, true))
  end.

Definition loadIncremental (ra : bytes) (size : Z) (keys : KeySchedule) (header : headerInfo) : run incrementalArchive :=
  let^ newest := find_newest ra size keys (hi_end header) in
  let '(lastIndex, tail, state, recovered) := newest in
  let^ chain := readIndexChain ra size keys (hi_end header) lastIndex in
  if newest_session chain <? hi_sealedCount header
  then Returns (IErr (fatal ErrCodeIntegrityFail "incremental archive is missing its newest sessions"))
  else
    let^ ia := of_panic (apply_chain chain (mk_ia keys header 0 lastIndex tail state recovered [] ∅)) in
    Returns (IOk (mk_ia keys header (newest_session chain) lastIndex tail state recovered (ia_chunks ia) (ia_files ia))).

(** [openIncremental] of a file of [size] bytes, without its signature. *)
Definition openIncremental (ra : bytes) (keys : KeySchedule) (header : headerInfo) : run incrementalArchive :=
  let^ split := Returns (splitSignature ra (len ra)) in
  loadIncremental ra (fst split) keys header.

(** ** The index chain ends, and is a chain *)

(** [chain] counts sessions up from [n], and each index points at the one before it, which
    lies after the header and before it. *)
Fixpoint linked (headerEnd n : Z) (chain : list (SessionIndex * Z)) : Prop :=
  match chain with
  | [] => True
  | (si, off) :: rest =>
      Session si = n /\
      match rest with
      | (si', off') :: _ => PrevIndex si' = off /\ headerEnd <= off < off'
      | [] => True
      end /\ linked headerEnd (n + 1) rest
  end.

Lemma readIndexAt_checked ra size keys off si : readIndexAt ra size keys off = Some (IOk si) -> index_checked si.
Proof.
  unfold readIndexAt, readIndexBody. destruct (entryReaderAt _ _ _) as [|ty s]; [done|]. destruct (negb _); [done|].
  destruct (readPayloadBody _ _ _ _) as [[pt|] s']; [|done]. destruct (ParseSessionIndex pt) as [[si'|]|] eqn:E; [|done|done].
  intros [= <-]. by eapply ParseSessionIndex_checked.
Qed.

Lemma linked_cons headerEnd si off chain : index_checked si ->
  match chain with (next, noff) :: _ => PrevIndex next = off /\ headerEnd <= off < noff /\ Session si = Session next - 1 | [] => True end ->
  (forall n next noff, head chain = Some (next, noff) -> Session next = n -> linked headerEnd n chain) ->
  linked headerEnd (Session si) ((si, off) :: chain).
Proof.
  intros _ Hc Hl. cbn [linked]. split; [done|]. destruct chain as [|[next noff] chain]; [done|].
  destruct Hc as (Hp & Ho & Hs). split; [done|]. apply (Hl _ next noff); [done|lia].
Qed.

Lemma chain_loop_spec ra size keys headerEnd : 0 <= headerEnd < 2 ^ 63 -> forall fuel off chain, 0 <= off < 2 ^ 63 -> (Z.to_nat off < fuel)%nat ->
  match chain with (next, noff) :: _ => PrevIndex next = off /\ headerEnd <= off < noff /\ Session next <> 1 | [] => True end ->
  (match chain with (next, _) :: _ => index_checked next /\ linked headerEnd (Session next) chain | [] => True end) ->
  match chain_loop fuel ra size keys headerEnd off chain with
  | Loops => False
  | Returns (IOk l) => linked headerEnd 1 l /\ exists front si, l = front ++ (si, off) :: chain /\
      Forall (fun x => readIndexAt ra size keys (snd x) = Some (IOk (fst x))) (front ++ [(si, off)])
  | _ => True
  end.
Proof.
  intros Hh. induction fuel as [|fuel IH]; intros off chain Ho Hf Hc Hl; [lia|]. cbn [chain_loop].
  destruct (readIndexAt ra size keys off) as [[si|]|] eqn:Er; [|done|done]. pose proof (readIndexAt_checked _ _ _ _ _ Er) as Hck.
  assert (1 <= Session si < 2 ^ 64) as Hs by apply Hck.
  assert (forall x, x = linked headerEnd (Session si) ((si, off) :: chain) ->
    (match chain with (next, _) :: _ => negb (Session si =? u64 (Session next - 1)) | [] => false end = false) -> x) as Hlink.
  { intros x -> Hn. apply linked_cons; [done| |].
    - destruct chain as [|[next noff] chain]; [done|]. destruct Hc as (Hp & Hb & _), Hl as [Hnx _]. b2p.
      assert (1 <= Session next < 2 ^ 64) by apply Hnx. unfold u64 in *. rewrite Z.mod_small in * by lia. done.
    - intros n next noff Hhd <-. destruct chain as [|[next' noff'] chain]; [done|]. cbn in Hhd. injection Hhd as -> ->. by destruct Hl. }
  destruct (match chain with [] => false | _ => _ end); [done|]. specialize (Hlink _ eq_refl eq_refl).
  destruct (Z.eqb_spec (Session si) 1) as [H1|H1].
  - destruct (negb _); [done|]. rewrite H1 in Hlink. split; [done|]. exists [], si. split; [done|]. by constructor.
  - destruct (_ || _) eqn:Eb; [done|]. apply orb_false_iff in Eb as [Eb1 Eb2]. b2p. unfold u64 in *. rewrite Z.mod_small in Eb2 by lia.
    rewrite Z.mod_small in Eb1 by lia. rewrite i64_small by lia.
    specialize (IH (PrevIndex si) ((si, off) :: chain)).
    destruct (chain_loop fuel ra size keys headerEnd (PrevIndex si) ((si, off) :: chain)) as [[l|]| |];
      [|done|done|apply IH; [lia|lia|split; [done|]; lia|done]].
    destruct IH as (Hl1 & front & si' & -> & Hfa); [lia|lia|split; [done|]; lia|done|]. split; [done|].
    exists (front ++ [(si', PrevIndex si)]), si. rewrite <- app_assoc. split; [done|].
    apply Forall_app. split; [done|]. by constructor.
Qed.

(** ** Applying a chain *)

(** Every file's chunks exist and add up to its size. *)
Definition files_whole (chunks : list chunkLocation) (files : gmap bytes FileVersion) : Prop :=
  forall name f, files !! name = Some f -> fv_Name f = name /\ ValidEntryName name = true /\
    Forall (fun n => 0 <= n < len chunks) (fv_Chunks f) /\ chunks_total chunks (fv_Chunks f) 0 = Some (fv_Size f) /\
    len (fv_Chunks f) <= MaxIndexSize.

Lemma lookup_lt_len {A} (l : list A) n : 0 <= n < len l -> exists x, l !! Z.to_nat n = Some x.
Proof. intros Hn. apply lookup_lt_is_Some_2. unfold len in Hn. lia. Qed.

Lemma chunks_total_some chunks ns : Forall (fun n => 0 <= n < len chunks) ns -> forall total, exists t, chunks_total chunks ns total = Some t.
Proof.
  induction 1 as [|n ns Hn _ IH]; intros total; cbn [chunks_total]; [by exists total|].
  destruct (lookup_lt_len chunks n Hn) as [c ->]. apply IH.
Qed.

Lemma chunks_total_app chunks more ns : Forall (fun n => 0 <= n < len chunks) ns -> forall total,
  chunks_total (chunks ++ more) ns total = chunks_total chunks ns total.
Proof.
  induction 1 as [|n ns Hn _ IH]; intros total; cbn [chunks_total]; [done|].
  destruct (lookup_lt_len chunks n Hn) as [c Hc]. rewrite (lookup_app_l_Some _ _ _ _ Hc), Hc. apply IH.
Qed.

Lemma files_whole_app chunks more files : files_whole chunks files -> files_whole (chunks ++ more) files.
Proof.
  intros Hf name f Hn. destruct (Hf name f Hn) as (H1 & H2 & H3 & H4 & H5). split_and!; [done|done|..|done].
  - eapply Forall_impl; [exact H3|]. intros n. cbn. rewrite len_app. pose proof (len_nonneg more). lia.
  - by rewrite chunks_total_app.
Qed.

Lemma apply_files_spec chunks limit fs : limit <= len chunks -> Forall (fun f => file_wf limit f /\ len (fv_Chunks f) <= MaxIndexSize) fs -> forall files, files_whole chunks files ->
  exists r, apply_files chunks fs files = Some r /\ forall files', r = IOk files' -> files_whole chunks files'.
Proof.
  intros Hlim. induction 1 as [|f fs [Hf Hfl] _ IH]; intros files Hw; cbn [apply_files].
  - eexists. split; [done|]. by intros files' [= <-].
  - assert (Forall (fun n => 0 <= n < len chunks) (fv_Chunks f)) as Hc
      by (eapply Forall_impl; [apply (fw_chunks _ _ Hf)|]; cbn; lia).
    destruct (chunks_total_some chunks _ Hc 0) as [t Ht]. rewrite Ht. destruct (Z.eqb_spec t (fv_Size f)) as [->|]; cbn [negb].
    2:{ eexists. by split. }
    apply IH. intros name g Hg. destruct (decide (fv_Name f = name)) as [<-|Hne].
    + rewrite lookup_insert_eq in Hg. injection Hg as <-. split; [done|]. split; [apply Hf|]. by split_and!.
    + rewrite lookup_insert_ne in Hg by done. by apply Hw.
Qed.

Lemma chunk_locations packs cs : Forall (chunk_wf (len packs)) cs -> exists locs, mapM (chunk_location packs) cs = Some locs /\ len locs = len cs.
Proof.
  induction 1 as [|c cs Hc _ IH]; [by exists []|]. destruct IH as (locs & Hm & Hl).
  destruct (chunk_problem_None _ _ _ _ _ _ (cw_ok _ _ Hc)) as [Hp _]. pose proof (cw_pack _ _ Hc).
  destruct (lookup_lt_len packs (cr_Pack c)) as [p Hpk]; [lia|].
  assert (exists loc, chunk_location packs c = Some loc) as [loc Hloc] by (unfold chunk_location; rewrite Hpk; by eexists).
  exists (loc :: locs). cbn. rewrite Hloc. cbn. rewrite Hm. split; [done|]. len_lia.
Qed.

Lemma fold_delete_whole chunks names : forall files, files_whole chunks files ->
  files_whole chunks (fold_left (fun fs name => delete name fs) names files).
Proof.
  induction names as [|n names IH]; intros files Hw; cbn [fold_left]; [done|]. apply IH. intros name f Hn.
  apply lookup_delete_Some in Hn as [_ Hn]. by apply Hw.
Qed.

(** Applying an index the parser accepted never panics, and keeps the state whole. *)
Lemma apply_session_spec ia si off : index_checked si -> files_whole (ia_chunks ia) (ia_files ia) ->
  exists r, apply_session ia si off = Some r /\ forall ia', r = IOk ia' ->
    files_whole (ia_chunks ia') (ia_files ia') /\ len (ia_chunks ia') = len (ia_chunks ia) + len (Chunks si).
Proof.
  intros Hc Hw. unfold apply_session. destruct (Z.eqb_spec (FirstChunk si) (len (ia_chunks ia))) as [Hf|]; cbn [negb]; [|by eexists].
  destruct (existsb _ _); [by eexists|]. destruct (chunk_locations _ _ (ic_chunks _ Hc)) as (locs & -> & Hl).
  destruct (apply_files_spec (ia_chunks ia ++ locs) (u64 (FirstChunk si + len (Chunks si))) (Files si)) with (files := ia_files ia)
    as (r & -> & Hr); [|apply Hc|by apply files_whole_app|].
  { rewrite len_app, Hl, Hf. unfold u64. apply Z.mod_le; [|lia]. pose proof (len_nonneg (ia_chunks ia)). pose proof (len_nonneg (Chunks si)). lia. }
  destruct r as [files|e]; [|by eexists]. eexists. split; [done|]. intros ia' [= <-]. cbn [ia_chunks ia_files].
  split; [by apply fold_delete_whole, Hr|]. by rewrite len_app, Hl.
Qed.

Lemma apply_chain_spec chain : Forall (fun x => index_checked (fst x)) chain -> forall ia, files_whole (ia_chunks ia) (ia_files ia) ->
  exists r, apply_chain chain ia = Some r /\ forall ia', r = IOk ia' -> files_whole (ia_chunks ia') (ia_files ia').
Proof.
  induction 1 as [|[si off] chain Hc _ IH]; intros ia Hw; cbn [apply_chain]; [eexists; split; [done|]; by intros ia' [= <-]|].
  destruct (apply_session_spec ia si off Hc Hw) as (r & -> & Hr). destruct r as [ia1|e]; [|by eexists].
  apply IH. by apply Hr.
Qed.

(** Chunks an index lists have something stored and bounded sizes. *)
Definition sized (c : chunkLocation) : Prop := 1 <= cl_stored c /\ 0 <= cl_raw c <= MaxCDCChunkSize.

Lemma chunk_locations_sized packs cs locs : Forall (chunk_wf (len packs)) cs -> mapM (chunk_location packs) cs = Some locs -> Forall sized locs.
Proof.
  intros Hc Hm%mapM_Some. revert Hc. induction Hm as [|c loc cs locs Hl _ IH]; intros Hc; [constructor|]. apply Forall_cons in Hc as [Hc Hcs]. constructor; [|by apply IH].
  unfold chunk_location in Hl. destruct (packs !! _); [|done]. injection Hl as <-. pose proof (chunk_problem_None _ _ _ _ _ _ (cw_ok _ _ Hc)).
  pose proof (cw_stored _ _ Hc). pose proof (cw_raw _ _ Hc). unfold sized. cbn [cl_stored cl_raw]. lia.
Qed.

Lemma apply_chain_sized chain : Forall (fun x => index_checked (fst x)) chain -> forall ia ia', Forall sized (ia_chunks ia) ->
  apply_chain chain ia = Some (IOk ia') -> Forall sized (ia_chunks ia').
Proof.
  induction 1 as [|[si off] chain Hc _ IH]; intros ia ia' Hs; cbn [apply_chain]; [by intros [= <-]|].
  destruct (apply_session ia si off) as [[ia1|e]|] eqn:Ea; [|done..]. apply IH. unfold apply_session in Ea. destruct (negb _); [done|]. destruct (existsb _ _); [done|].
  destruct (mapM _ _) as [locs|] eqn:Em; [|done]. destruct (apply_files _ _ _) as [[files|]|]; [|done..]. injection Ea as <-. cbn [ia_chunks].
  apply Forall_app. split; [done|]. eapply chunk_locations_sized; [apply (ic_chunks _ Hc)|exact Em].
Qed.
End Loader.
