(* ===== verification/IncrementalProofs.v ===== *)
(** * Loading incremental archives ends, and what it accepts is whole

    Readers only ever consume their input, so the scan for the last complete session ends;
    the index chain goes strictly back to the first session; and the state that is loaded
    has every chunk its files name, files as long as their chunks, and no fewer sessions
    than the header seals. *)

From S2P Require Import Prelude Bytes Names Attributes Metadata IndexCodec Checkpoint Crypto Codec Frames.
From S2P Require Import Checksum Writer Signatures IOErrors SolidPlan Extractor Incremental.
Open Scope go_scope.

(** ** Readers consume their input *)

Definition consuming {A} (m : rd A) : Prop := forall s, snd (m s) `suffix_of` s.

Lemma suffix_zdrop {A} n (l : list A) : zdrop n l `suffix_of` l.
Proof. exists (ztake n l). symmetry. apply ztake_zdrop. Qed.

Lemma suffix_tail {A} (x : A) s l : s `suffix_of` l -> s `suffix_of` x :: l.
Proof. intros [k ->]. by exists (x :: k). Qed.

Lemma consuming_ret {A} (a : A) : consuming (rret a).
Proof. intros s. cbn. done. Qed.
Lemma consuming_fail {A} e : consuming (@rfail A e).
Proof. intros s. cbn. done. Qed.
Lemma consuming_rfull n e : consuming (rfull n e).
Proof. intros s. unfold rfull. destruct (n <=? len s); cbn [snd]; [apply suffix_zdrop|apply suffix_nil]. Qed.

Lemma consuming_bind {A B} (m : rd A) (k : A -> rd B) : consuming m -> (forall a, consuming (k a)) -> consuming (rbind m k).
Proof.
  intros Hm Hk s. unfold rbind. specialize (Hm s). destruct (m s) as [[a|e] s']; cbn [snd] in *; [|done].
  etrans; [apply Hk|done].
Qed.

Create HintDb consuming.
#[export] Hint Resolve consuming_ret consuming_fail consuming_rfull consuming_bind : consuming.

Lemma consuming_skipPadding e : consuming (skipPadding e).
Proof. unfold skipPadding. auto 6 with consuming. Qed.
#[export] Hint Resolve consuming_skipPadding : consuming.

Lemma consuming_skip_blocks fuel : forall stored, consuming (skip_blocks fuel stored).
Proof.
  induction fuel as [|fuel IH]; intros stored; cbn [skip_blocks]; [auto with consuming|].
  apply consuming_bind; [auto with consuming|]. intros header. destruct (_ =? 0); [auto with consuming|].
  destruct (_ || _); auto with consuming.
Qed.

Section Consuming.
Context `{C : Crypto} `{ZS : Zstd}.

Lemma consuming_skipTrailer cause : consuming (skipTrailer cause).
Proof.
  unfold skipTrailer. repeat first [apply consuming_bind; [auto with consuming|]; intros ? | case_match]; auto with consuming.
Qed.

Lemma consuming_skipEntryBody cause : consuming (skipEntryBody cause).
Proof.
  unfold skipEntryBody. apply consuming_bind; [auto with consuming|]. intros _.
  apply consuming_bind; [intros s; apply consuming_skip_blocks|]. intros _. apply consuming_skipTrailer.
Qed.

Lemma consuming_readEntryHead keys : consuming (readEntryHead keys).
Proof.
  unfold readEntryHead, readMetadataBlock.
  repeat first [apply consuming_skipEntryBody | apply consuming_bind; [|intros ?] | progress auto with consuming | case_match];
    auto with consuming.
Qed.

Lemma suffix_read_blocks fuel : forall s, snd (read_blocks fuel s) `suffix_of` s.
Proof.
  induction fuel as [|fuel IH]; intros s; cbn [read_blocks]; [done|].
  destruct (len s <? NonceSize); [apply suffix_nil|]. cbv zeta. destruct (_ <? 4); [apply suffix_nil|].
  assert (zdrop 4 (zdrop NonceSize s) `suffix_of` s) as Hs by (etrans; apply suffix_zdrop).
  destruct (_ =? 0); [done|]. destruct (_ <? _); [done|]. destruct (_ <? _); [apply suffix_nil|].
  specialize (IH (zdrop (le_u32 (zdrop NonceSize s)) (zdrop 4 (zdrop NonceSize s)))).
  destruct (read_blocks fuel _) as [[bs e] rest]. cbn [snd] in *. etrans; [exact IH|]. etrans; [apply suffix_zdrop|done].
Qed.

Lemma suffix_streamDataBlocks {S} (sink : S -> bytes -> option S) key codec st s :
  snd (streamDataBlocks sink key codec st s) `suffix_of` s.
Proof.
  unfold streamDataBlocks. pose proof (suffix_read_blocks (Datatypes.S (length s)) s) as Hs.
  destruct (read_blocks _ s) as [[bs e] rest]. destruct (deliver sink key codec st bs) as [st' fe]. done.
Qed.

Lemma consuming_readTrailer key version : consuming (readTrailer key version).
Proof.
  unfold readTrailer.
  repeat first [apply consuming_bind; [auto with consuming|]; intros ? | case_match]; auto with consuming.
Qed.

Lemma consuming_readPayloadBody keys limit what : consuming (readPayloadBody keys limit what).
Proof.
  intros s. unfold readPayloadBody. pose proof (consuming_readEntryHead keys s) as H1.
  destruct (readEntryHead keys s) as [[head|] s1]; cbn [snd] in *; [|done].
  pose proof (consuming_skipPadding (fatal ErrCodeTruncated (String.append "skip " (String.append what " padding"))) s1) as H2.
  destruct (skipPadding _ s1) as [[[]|] s2]; cbn [snd] in *; [|by etrans].
  pose proof (suffix_streamDataBlocks (payload_sink limit) (eh_fileKey head) CodecNone [] s2) as H3.
  destruct (streamDataBlocks _ _ _ _ s2) as [[pt [e|]] s3]; cbn [snd] in *; [by do 2 (etrans; [eassumption|])|].
  pose proof (consuming_readTrailer (eh_fileKey head) (ks_Version keys) s3) as H4.
  assert (s3 `suffix_of` s) by (by do 2 (etrans; [eassumption|])).
  destruct (readTrailer _ _ s3) as [[tr|] s4]; cbn [snd] in *; [|by etrans]. destruct (verifyPlaintext _ _ _); by etrans.
Qed.

Lemma readIndexBody_suffix keys s r s' : readIndexBody keys s = Some (r, s') -> s' `suffix_of` s.
Proof.
  unfold readIndexBody. pose proof (consuming_readPayloadBody keys MaxIndexSize "session index" s) as H.
  destruct (readPayloadBody _ _ _ s) as [[pt|] s1]; cbn [snd] in H; [|by intros [= <- <-]].
  destruct (ParseSessionIndex pt) as [[si|]|]; [by intros [= <- <-]..|done].
Qed.

(** The scan ends within its fuel, and what it finds lies between its ends. *)
Lemma scan_loop_spec keys fin start fuel : forall s found, (length s < fuel)%nat -> start <= fin - len s ->
  (forall off past, found = Some (off, past) -> start <= off < past /\ past <= fin - len s) ->
  match scan_loop fuel keys fin s found with
  | Loops => False
  | Returns (IOk (Some (off, past))) => start <= off < past /\ past <= fin
  | Returns (IErr _) => False
  | _ => True
  end.
Proof.
  induction fuel as [|fuel IH]; intros s found Hf Hs Hfound; [lia|]. cbn [scan_loop]. cbv zeta.
  assert (match Returns (IOk found) with Loops => False | Returns (IOk (Some (off, past))) => start <= off < past /\ past <= fin
          | Returns (IErr _) => False | _ => True end) as Hend.
  { destruct found as [[off past]|]; [|done]. destruct (Hfound off past eq_refl). pose proof (len_nonneg s). lia. }
  destruct s as [|ty s]; [done|]. cbn [length] in Hf. rewrite len_cons in *.
  assert (forall s', s' `suffix_of` s -> (length s' <= length s)%nat /\ len s' <= len s) as Hsuf.
  { intros s' Hx%suffix_length. unfold len. lia. }
  destruct (_ =? EntryTypePack).
  - pose proof (consuming_readEntryHead keys s) as H1. destruct (readEntryHead keys s) as [[head|] s1]; [|done]. cbn [snd] in H1.
    pose proof (consuming_skipEntryBody None s1) as H2. destruct (skipEntryBody None s1) as [[[]|] s2]; [|done]. cbn [snd] in H2.
    destruct (Hsuf s2) as [? ?]; [by etrans|]. apply IH; [lia|lia|]. intros off past Ho. destruct (Hfound off past Ho). lia.
  - destruct (negb _); [done|]. destruct (readIndexBody keys s) as [[[si|e] s1]|] eqn:Er; [|done|done].
    apply readIndexBody_suffix, Hsuf in Er as [? ?]. apply IH; [lia|lia|]. intros off past [= <- <-]. lia.
Qed.

Lemma entryReaderAt_len ra size off : 0 <= off -> len (entryReaderAt ra size off) <= Z.max 0 (size - off) /\
  off + len (entryReaderAt ra size off) <= Z.max off (len ra).
Proof.
  intros Ho. unfold entryReaderAt, len, ztake, zdrop. rewrite length_take, length_drop. lia.
Qed.

(** Where the newest session was found, by checkpoint or by scanning. *)
Lemma find_newest_spec ra size keys headerEnd : 0 <= headerEnd < 2 ^ 63 -> 0 <= size <= len ra -> len ra < 2 ^ 63 ->
  match find_newest ra size keys headerEnd with
  | Loops => False
  | Returns (IOk (lastIndex, tail, _, _)) => headerEnd <= lastIndex < tail /\ tail <= len ra
  | _ => True
  end.
Proof.
  intros Hh Hs Hra. unfold find_newest.
  destruct (readCheckpoint ra size headerEnd) as [[[li tail] st]|e] eqn:Er.
  - unfold readCheckpoint in Er. destruct (Z.ltb_spec (size - TailSize) headerEnd) as [|Ht]; [done|].
    destruct (read_at ra _ _) as [buf|]; [|done]. cbn [or_fatal] in Er.
    destruct (ParseCheckpoint _) as [cp|] eqn:Ep; [|done]. destruct (negb _); [done|]. destruct (_ || _) eqn:Eb; [done|].
    injection Er as <- <- <-. b2p. assert (0 < TailSize) by done. unfold u64 in *. rewrite Z.mod_small in * by lia.
    rewrite i64_small by lia. lia.
  - unfold scanForLastIndex. set (s := entryReaderAt ra size headerEnd).
    pose proof (entryReaderAt_len ra size headerEnd ltac:(lia)) as [_ Hl]. fold s in Hl.
    pose proof (scan_loop_spec keys (headerEnd + len s) headerEnd (S (length s)) s None ltac:(lia) ltac:(lia) ltac:(done)) as Hsc.
    destruct (scan_loop _ _ _ _ _) as [[[[off past]|]|]| |]; cbn [fst snd]; try done. pose proof (len_nonneg s).
    split; [lia|]. destruct (Z.max_spec headerEnd (len ra)); lia.
Qed.

(** ** What loading accepts *)

Lemma linked_nonempty headerEnd n chain : linked headerEnd n chain -> forall si off, last chain = Some (si, off) ->
  Session si = n + len chain - 1.
Proof.
  revert n. induction chain as [|[si' off'] chain IH]; intros n Hl si off Hla; [done|].
  cbn [linked] in Hl. destruct Hl as (Hs & _ & Hl). rewrite len_cons. destruct chain as [|x chain].
  - injection Hla as <- <-. rewrite len_nil. lia.
  - rewrite (IH (n + 1) Hl si off); [lia|]. exact Hla.
Qed.

Lemma last_app_single {A} (a : list A) x : last (a ++ [x]) = Some x.
Proof. apply last_snoc. Qed.

Lemma readIndexChain_spec ra size keys headerEnd lastIndex : 0 <= headerEnd < 2 ^ 63 -> 0 <= lastIndex < 2 ^ 63 ->
  match readIndexChain ra size keys headerEnd lastIndex with
  | Loops => False
  | Returns (IOk chain) => linked headerEnd 1 chain /\ Forall (fun x => readIndexAt ra size keys (snd x) = Some (IOk (fst x))) chain /\
      exists si, last chain = Some (si, lastIndex) /\ Session si = len chain
  | _ => True
  end.
Proof.
  intros Hh Hl. unfold readIndexChain.
  pose proof (chain_loop_spec ra size keys headerEnd Hh (S (Z.to_nat lastIndex)) lastIndex [] Hl ltac:(lia) I I) as Hc.
  destruct (chain_loop _ _ _ _ _ _ _) as [[l|]| |]; try done. destruct Hc as (Hk & front & si & -> & Hf).
  split; [done|]. split; [done|]. exists si. rewrite last_app_single. split; [done|].
  rewrite (linked_nonempty _ _ _ Hk si lastIndex) by apply last_app_single. lia.
Qed.


Lemma loadIncremental_spec ra size keys header : 0 <= hi_end header < 2 ^ 63 -> 0 <= size <= len ra -> len ra < 2 ^ 63 ->
  match loadIncremental ra size keys header with
  | Loops => False
  | Returns (IOk ia) => files_whole (ia_chunks ia) (ia_files ia) /\ hi_sealedCount header <= ia_sessions ia /\ 1 <= ia_sessions ia /\ Forall sized (ia_chunks ia)
  | _ => True
  end.
Proof.
  intros Hh Hs Hra. unfold loadIncremental. pose proof (find_newest_spec ra size keys (hi_end header) Hh Hs Hra) as Hn.
  destruct (find_newest _ _ _ _) as [[[[[li tail] st] rec]|]| |]; try done.
  pose proof (readIndexChain_spec ra size keys (hi_end header) li Hh ltac:(lia)) as Hc.
  destruct (readIndexChain _ _ _ _ _) as [[chain|]| |]; try done. destruct Hc as (Hk & Hf & si & Hla & Hse).
  destruct (Z.ltb_spec (newest_session chain) (hi_sealedCount header)) as [|Hsc]; [done|].
  assert (Forall (fun x => index_checked (fst x)) chain) as Hck by (eapply Forall_impl; [exact Hf|]; intros x; apply readIndexAt_checked).
  destruct (apply_chain_spec chain) with (ia := mk_ia keys header 0 li tail st rec [] (∅ : gmap bytes FileVersion))
    as (r & Hr & Hw).
  { done. }
  { intros name f Hx. cbn [ia_files] in Hx. by rewrite lookup_empty in Hx. }
  rewrite Hr. destruct r as [ia|e]; cbn [of_panic]; [|done]. cbn [ia_chunks ia_files ia_sessions]. split; [by apply Hw|].
  split; [done|]. split; [|by eapply (apply_chain_sized chain Hck); [|exact Hr]].
  unfold newest_session. rewrite Hla, Hse. destruct chain; [done|]. rewrite len_cons. len_lia.
Qed.

End Consuming.

(** ** Examples *)

(** Two bytes that claim to be an index entry. *)
Definition sample_torn : bytes := [zb EntryTypeIndex; zb 0].


