(* ===== verification/Listing.v ===== *)
(** * Listing archives (io/extractor.go, io/directory.go, io/solid.go, io/incremental.go)

    [List] decrypts metadata only: file entries are read by their heads and trailers, solid
    groups by their records. An archive with a directory is listed through it, an
    incremental archive through its session indexes. The sequential reader is its unread
    bytes, the random-access file its bytes. *)

From stdpp Require Import pretty.
From S2P Require Import Prelude Bytes Names Attributes Metadata IndexCodec Directory Solid Crypto Codec Frames.
From S2P Require Import Checksum Writer Signatures Recipients IOErrors SolidPlan Extractor Incremental.
Open Scope go_scope.

Record ListResult := mk_list {
  lr_Filename : bytes;
  lr_SizeBucket : string;
  lr_Codec : string;
  lr_Solid : bool;
  lr_OriginalBytes : Z;
  lr_StoredBytes : Z;
  lr_Kind : Z;
  lr_Mode : Z;
  lr_LinkTarget : bytes;
  lr_ModTime : Z;
  lr_Err : option ArchiveError
}.

(** A listing before its attributes are filled in; [KindRegular] is the zero kind. *)
Definition new_listing (name : bytes) (bucket codec : string) (solid : bool) (original stored : Z) : ListResult :=
  mk_list name bucket codec solid original stored KindRegular 0 [] 0 None.

Definition codec_text (c : Z) : string :=
  match Codec_String c with Some s => s | None => ("unknown(" +:+ pretty c +:+ ")")%string end.

Definition bucketName (b : Z) : string :=
  if b =? BucketTiny then "0-1 KB"
  else if b =? BucketSmall then "1-10 KB"
  else if b =? BucketMedium then "10-100 KB"
  else if b =? BucketLarge then "100 KB-1 MB"
  else ">1 MB".

Definition withAttributes (r : ListResult) (attrs : option Attributes) (permissions : Z) : ListResult :=
  match attrs with
  | None => mk_list (lr_Filename r) (lr_SizeBucket r) (lr_Codec r) (lr_Solid r) (lr_OriginalBytes r) (lr_StoredBytes r)
              (lr_Kind r) (Z.land permissions 511) (lr_LinkTarget r) (lr_ModTime r) (lr_Err r)
  | Some a => mk_list (lr_Filename r) (lr_SizeBucket r) (lr_Codec r) (lr_Solid r) (lr_OriginalBytes r) (lr_StoredBytes r)
                (Kind a) (Mode a) (LinkTarget a) (ModTime a) (lr_Err r)
  end.

(** [directoryListing]. *)
Definition record_listing (r : DirectoryRecord) : ListResult :=
  withAttributes (new_listing (dr_Name r) (bucketName (dr_SizeBucket r)) (codec_text (dr_Codec r)) (dr_Solid r)
    (i64 (dr_OriginalSize r)) (i64 (dr_StoredSize r))) (Some (dr_Attributes r)) 0.

Definition directoryListing (records : list DirectoryRecord) : list ListResult := map record_listing records.

Section Listing.
Context `{C : Crypto} `{ZS : Zstd} `{A : Age}.

(** ** Scanning *)

Definition listFileBody (keys : KeySchedule) (head : entryHead) : rd ListResult :=
  let fileKey := eh_fileKey head in
  let pm := eh_pm head in
  match decryptFilename (EncryptedFilename pm) fileKey with
  | Err _ =>
      let* _ := skipEntryBody (Some (recoverable ErrCodeAuthFailed "decrypt filename")) in
      rfail (recoverable ErrCodeAuthFailed "decrypt filename")
  | Ok filename =>
      let* _ := skipPadding (truncated "skip inter-block padding") in
      let* stored := skipDataBlocks in
      let* trailer := readTrailer fileKey (ks_Version keys) in
      let original := if ti_hasSize trailer then i64 (ti_size trailer) else stored in
      rret (withAttributes (new_listing filename (bucketName (SizeBucket pm)) (codec_text (pm_Codec pm)) false original stored)
              (pm_Attributes pm) (Permissions pm))
  end.

Definition member_listing (codec stored streamSize : Z) (m : SolidMember) : ListResult :=
  let size := len (sm_Data m) in
  withAttributes (new_listing (sm_Name m) (bucketName (BucketizeSize size)) (codec_text codec) true size
    (i64 (Z.quot (i64 (size * stored)) streamSize))) (Some (sm_Attributes m)) 0.

Definition listSolidBody (keys : KeySchedule) (head : entryHead) : rd (list ListResult) :=
  let* m := readSolidMembers keys head in
  rret (map (member_listing (pm_Codec (eh_pm head)) (snd m) (snd (fst m))) (fst (fst m))).

Definition listEntry (keys : KeySchedule) (entryType : Z) : rd (list ListResult) :=
  let* head := readEntryHead keys in
  if entryType =? EntryTypeSolid then listSolidBody keys head
  else let* r := listFileBody keys head in rret [r].

Definition decrypt_error (e : ArchiveError) : ListResult :=
  mk_list (str "<decrypt error>") "?" "?" false 0 0 KindRegular 0 [] 0 (Some e).

(** The loop of [scanList]: the listing so far and the error that stopped it. *)
Fixpoint list_loop (fuel : nat) (keys : KeySchedule) (s : bytes) : list ListResult * option ArchiveError :=
  match fuel with
  | O => ([], None)
  | S fuel =>
      match nextEntryType keys s with
      | (IErr e, _) => ([], Some e)
      | (IOk None, _) => ([], None)
      | (IOk (Some ty), s) =>
          match listEntry keys ty s with
          | (IErr e, s) => if IsFatal e then ([], Some e)
                           else let '(rs, err) := list_loop fuel keys s in (decrypt_error e :: rs, err)
          | (IOk r, s) => let '(rs, err) := list_loop fuel keys s in (r ++ rs, err)
          end
      end
  end.

Definition scanList (keys : KeySchedule) (s : bytes) : list ListResult * option ArchiveError := list_loop (S (length s)) keys s.

(** ** The directory *)

(** The records, [None] without a directory; the outer [None] is a panic of the parser. *)
Definition readDirectory (ra : bytes) (size : Z) (keys : KeySchedule) (header : headerInfo) : option (iores (option (list DirectoryRecord))) :=
  match splitSignature ra size with
  | IErr e => Some (IErr e)
  | IOk (proper, _) =>
  let tail := proper - DirectoryTailSize in
  if tail <? hi_end header then Some (IOk None)
  else match read_at ra tail DirectoryTailSize with
  | Err _ => Some (IErr (fatal ErrCodeReadFailed "read archive tail"))
  | Ok buf =>
  match ParseDirectoryLocator (ztake DirectoryLocatorSize buf) with
  | Err _ => Some (IOk None)
  | Ok offset =>
  if negb (byte_at DirectoryLocatorSize buf =? EntryTypeEnd) then Some (IErr (fatal ErrCodeIntegrityFail "damaged archive tail"))
  else if (offset <? u64 (hi_end header)) || (u64 tail <=? offset)
  then Some (IErr (fatal ErrCodeIntegrityFail "directory locator points outside the archive"))
  else match entryReaderAt ra tail (i64 offset) with
  | [] => Some (IErr (fatal ErrCodeTruncated "read directory"))
  | ty :: s =>
  if negb (bz ty =? EntryTypeDirectory) then Some (IErr (fatal ErrCodeIntegrityFail "expected a directory entry"))
  else match readPayloadBody keys MaxDirectorySize "directory" s with
  | (IErr e, _) => Some (IErr e)
  | (IOk plaintext, _) =>
  match ParseDirectory plaintext with
  | None => None
  | Some (Err _) => Some (IErr (fatal ErrCodeIntegrityFail "parse directory"))
  | Some (Ok records) =>
      if existsb (fun r => (dr_Offset r <? u64 (hi_end header)) || (offset <=? dr_Offset r)) records
      then Some (IErr (fatal ErrCodeIntegrityFail "directory entry points outside the archive"))
      else Some (IOk (Some records))
  end end end end end end.

(** ** Incremental archives *)

(** [ia.chunks[n].stored] summed over a file's chunks. *)
Fixpoint chunks_stored (chunks : list chunkLocation) (ns : list Z) (stored : Z) : option Z :=
  match ns with
  | [] => Some stored
  | n :: ns => match chunks !! Z.to_nat n with
               | Some c => chunks_stored chunks ns (i64 (stored + cl_stored c))
               | None => None
               end
  end.

Definition version_listing (chunks : list chunkLocation) (f : FileVersion) : option ListResult :=
  match chunks_stored chunks (fv_Chunks f) 0 with
  | None => None
  | Some stored => Some (withAttributes (new_listing (fv_Name f) (bucketName (BucketizeSize (i64 (fv_Size f)))) "chunked" false
                           (i64 (fv_Size f)) stored) (Some (fv_Attributes f)) 0)
  end.

(** [listIncremental] on the random-access file, [None] for a pipe. *)
Definition listIncremental (random : option bytes) (keys : KeySchedule) (header : headerInfo) : run (list ListResult) :=
  match random with
  | None => Returns (IErr (fatal ErrCodeInvalidOption "incremental archives must be read from a file, not a pipe"))
  | Some ra =>
      let^ ia := openIncremental ra keys header in
      match mapM (version_listing (ia_chunks ia)) (sortedFiles ia) with Some rs => Returns (IOk rs) | None => Panics end
  end.

(** ** [List] *)

(** What [List] returns: a listing, possibly with an error, or a panic or endless run of the
    incremental loader. *)
Definition listed : Type := option (list ListResult * option ArchiveError).

Definition of_run (r : run (list ListResult)) : listed :=
  match r with
  | Returns (IOk rs) => Some (rs, None)
  | Returns (IErr e) => Some ([], Some e)
  | Panics | Loops => None
  end.

Definition listRandom (u : Unlockers) (ra stream : bytes) : listed :=
  match readHeader u ra with
  | (IErr e, _) => Some ([], Some e)
  | (IOk (keys, header), rest) =>
      if hi_incremental header then of_run (listIncremental (Some ra) keys header)
      else
        let scan :=
          match rfull (len ra - len rest) (fatal ErrCodeTruncated "read header") stream with
          | (IErr e, _) => Some ([], Some e)
          | (IOk _, s) => Some (scanList keys s)
          end in
        if ks_Version keys =? Version1 then scan
        else match readDirectory ra (len ra) keys header with
             | None => None
             | Some (IErr e) => Some ([], Some e)
             | Some (IOk (Some records)) => Some (directoryListing records, None)
             | Some (IOk None) => scan
             end
  end.

Definition List (u : Unlockers) (random : option bytes) (stream : bytes) : listed :=
  match random with
  | Some ra => listRandom u ra stream
  | None =>
      match readHeader u stream with
      | (IErr e, _) => Some ([], Some e)
      | (IOk (keys, header), s) =>
          if hi_incremental header then of_run (listIncremental None keys header) else Some (scanList keys s)
      end
  end.
End Listing.
