(* ===== verification/Packs.v ===== *)
(** * Packs (packWriter of io/incremental_write.go, chunkRouter of io/incremental_restore.go)

    A pack entry holds the stored chunks of a session back to back. The writer seals them
    in data blocks of random sizes, buffering what does not fill a block; the router cuts
    the plaintext stream of a pack back into the chunks that are needed. *)

From S2P Require Import Prelude Bytes Names Attributes Metadata IndexCodec Crypto Codec Frames.
From S2P Require Import Checksum Writer IOErrors Inputs SolidPlan Extractor ExtractorLemmas ExtractorProofs RoundTrip Incremental.
Open Scope go_scope.

(** ** Writing packs *)

Section PackWriter.
Context `{C : Crypto} `{ZS : Zstd} `{H : Sha256}.

(** [pw_mac] is what the running HMAC has been fed, [pw_buf] the plaintext not yet sealed
    and [pw_next] the size of the next block. *)
Record packWriter := mk_pw {
  pw_fb : FrameBuilder;
  pw_mac : bytes;
  pw_size : Z;
  pw_buf : bytes;
  pw_next : Z;
  pw_r : rng
}.

Definition openPack (r0 r : rng) (aw : ArchiveWriter) : iores (packWriter * ArchiveWriter) :=
  let '(salt, r0) := draw SaltSize r0 in
  let key := FileKey (aw_keys aw) salt in
  let fb := mk_fb key None in
  let '(frameHdr, r) := FrameHeader r in
  let '(meta, r0) := Seal key (mk_pm [] BucketHuge (replicate 32 Byte.x00) 0 CodecNone None) r0 in
  let@ meta := or_fatal ErrCodeWriteFailed "seal metadata" meta in
  let '(interPad, r) := InterBlockPadding r in
  let aw := BeginFileEntry EntryTypePack salt frameHdr meta interPad aw in
  let '(next, r) := NextChunkSize r in
  IOk (mk_pw fb [] 0 [] next r, aw).

(** [seal] encrypts one block and draws the size of the next. *)
Definition pack_seal (block : bytes) (x : packWriter * ArchiveWriter) : packWriter * ArchiveWriter :=
  let '(p, aw) := x in
  let '(db, r) := EncryptChunk (pw_fb p) block (pw_r p) in
  let aw := AppendDataBlock aw db in
  let '(next, r) := NextChunkSize r in
  (mk_pw (pw_fb p) (pw_mac p) (pw_size p) (pw_buf p) next r, aw).

Definition set_buf (b : bytes) (p : packWriter) : packWriter :=
  mk_pw (pw_fb p) (pw_mac p) (pw_size p) b (pw_next p) (pw_r p).

(** [for len(data) >= p.next]: seal whole blocks straight from the data, then keep the
    rest. A block has at least one byte, so [length data] steps are enough. *)
Fixpoint seal_loop (fuel : nat) (data : bytes) (x : packWriter * ArchiveWriter) : packWriter * ArchiveWriter :=
  match fuel with
  | O => x
  | S fuel =>
      let '(p, aw) := x in
      if pw_next p <=? len data
      then seal_loop fuel (zdrop (pw_next p) data) (pack_seal (ztake (pw_next p) data) x)
      else (set_buf (pw_buf p ++ data) p, aw)
  end.

Definition pack_write (data : bytes) (x : packWriter * ArchiveWriter) : packWriter * ArchiveWriter :=
  let '(p, aw) := x in
  let p := mk_pw (pw_fb p) (pw_mac p ++ data) (u64 (pw_size p + len data)) (pw_buf p) (pw_next p) (pw_r p) in
  if 0 <? len (pw_buf p) then
    let take := Z.min (pw_next p - len (pw_buf p)) (len data) in
    let p := set_buf (pw_buf p ++ ztake take data) p in
    let data := zdrop take data in
    if len (pw_buf p) <? pw_next p then (p, aw)
    else
      let '(p, aw) := pack_seal (pw_buf p) (p, aw) in
      seal_loop (S (length data)) data (set_buf [] p, aw)
  else seal_loop (S (length data)) data (p, aw).

Definition pack_close (x : packWriter * ArchiveWriter) : ArchiveWriter :=
  let '(p, aw) := if 0 <? len (pw_buf (fst x)) then pack_seal (pw_buf (fst x)) x else x in
  let '(trailer, r) := BuildTrailer (pw_fb p) (hmac_sha256 (fb_key (pw_fb p)) (pw_mac p)) (pw_size p) (pw_r p) in
  EndFileEntry trailer aw.
End PackWriter.

(** ** Cutting a pack's plaintext into chunks *)

Section Router.
Context {D : Type} (deliver : Z -> bytes -> D -> iores D).

(** [ro_needed] are the chunks still to deliver, with their locations; [ro_err] is sticky. *)
Record chunkRouter := mk_router {
  ro_needed : list (Z * chunkLocation);
  ro_pos : Z;
  ro_buf : bytes;
  ro_err : option ArchiveError;
  ro_st : D
}.

(** One pass of the loop of [feed]: the rest of the data and the router. *)
Definition feed_step (n : Z) (c : chunkLocation) (rest : list (Z * chunkLocation)) (pt : bytes) (r : chunkRouter) :
  bytes * chunkRouter :=
  if (len (ro_buf r) =? 0) && (ro_pos r <? cl_offset c) then
    let skip := Z.min (cl_offset c - ro_pos r) (len pt) in
    (zdrop skip pt, mk_router (ro_needed r) (ro_pos r + skip) (ro_buf r) None (ro_st r))
  else if (len (ro_buf r) =? 0) && (cl_offset c <? ro_pos r) then
    (pt, mk_router (ro_needed r) (ro_pos r) (ro_buf r) (Some (recoverable ErrCodeIntegrityFail "overlapping chunks in pack")) (ro_st r))
  else
    let take := Z.min (cl_stored c - len (ro_buf r)) (len pt) in
    let buf := ro_buf r ++ ztake take pt in
    let pos := ro_pos r + take in
    if len buf =? cl_stored c then
      match deliver n buf (ro_st r) with
      | IErr e => (zdrop take pt, mk_router (ro_needed r) pos buf (Some e) (ro_st r))
      | IOk st => (zdrop take pt, mk_router rest pos [] None st)
      end
    else (zdrop take pt, mk_router (ro_needed r) pos buf None (ro_st r)).

(** Each pass uses up data or a chunk. *)
Fixpoint feed_loop (fuel : nat) (pt : bytes) (r : chunkRouter) : option chunkRouter :=
  match fuel with
  | O => None
  | S fuel =>
      match ro_err r, ro_needed r with
      | Some _, _ => Some r
      | None, [] => Some (mk_router [] (ro_pos r + len pt) (ro_buf r) None (ro_st r))
      | None, (n, c) :: rest =>
          if len pt =? 0 then Some r
          else let '(pt, r) := feed_step n c rest pt r in feed_loop fuel pt r
      end
  end.

Definition feed (pt : bytes) (r : chunkRouter) : option chunkRouter :=
  feed_loop (S (length pt + length (ro_needed r))) pt r.

(** ** Routing ends and does not depend on the blocks *)

(** A partly collected chunk is shorter than the chunk, and chunks are not empty. *)
Definition router_ok (r : chunkRouter) : Prop :=
  Forall (fun x => 1 <= cl_stored (snd x)) (ro_needed r) /\
  (ro_err r = None -> match ro_needed r with (_, c) :: _ => len (ro_buf r) < cl_stored c | [] => ro_buf r = [] end).

Definition work (pt : bytes) (r : chunkRouter) : nat := length pt + length (ro_needed r).

Lemma length_zdrop_pos {A} k (l : list A) : 0 < k -> 0 < len l -> (length (zdrop k l) < length l)%nat.
Proof. unfold zdrop, len. rewrite length_drop. lia. Qed.

Lemma feed_step_ok n c rest pt r pt' r' : router_ok r -> ro_err r = None -> ro_needed r = (n, c) :: rest -> 0 < len pt ->
  feed_step n c rest pt r = (pt', r') -> router_ok r' /\ (ro_err r' = None -> (work pt' r' < work pt r)%nat).
Proof.
  intros [Hf Hb] He Hn Hp. rewrite Hn in *. specialize (Hb He). unfold feed_step, work. pose proof (len_nonneg (ro_buf r)) as Hnn.
  assert (1 <= cl_stored c) as Hc by (by inversion Hf). assert (Forall (fun x : Z * chunkLocation => 1 <= cl_stored (snd x)) rest) as Hr by (by inversion Hf).
  destruct ((len (ro_buf r) =? 0) && (ro_pos r <? cl_offset c)) eqn:E1.
  { b2p. intros [= <- <-]. cbn [ro_needed ro_err ro_buf]. split; [split; [by rewrite Hn|]; intros _; by rewrite Hn|].
    intros _. rewrite Hn. cbn [length]. pose proof (length_zdrop_pos (Z.min (cl_offset c - ro_pos r) (len pt)) pt ltac:(lia) Hp). lia. }
  destruct ((len (ro_buf r) =? 0) && (cl_offset c <? ro_pos r)) eqn:E2; [by intros [= <- <-]; split; [split; [by rewrite Hn|]|]|].
  cbv zeta. set (take := Z.min (cl_stored c - len (ro_buf r)) (len pt)). assert (0 < take <= len pt) as Ht by lia.
  pose proof (length_zdrop_pos take pt ltac:(lia) ltac:(lia)) as Hd.
  destruct (Z.eqb_spec (len (ro_buf r ++ ztake take pt)) (cl_stored c)) as [Hl|Hl].
  - destruct (deliver n _ _) as [st|e]; intros [= <- <-]; cbn [ro_needed ro_err ro_buf]; [|by split; [split; [by rewrite Hn|]|]].
    split; [|intros _; rewrite Hn; cbn [length]; lia]. split; [done|]. intros _. cbn [ro_needed ro_buf]. destruct rest as [|[n' c'] rest]; [done|].
    inversion Hr; subst. cbn [snd] in *. rewrite len_nil. lia.
  - intros [= <- <-]. cbn [ro_needed ro_err ro_buf]. split; [|intros _; rewrite Hn; cbn [length]; lia]. split; [by rewrite Hn|].
    intros _. cbn [ro_needed ro_buf]. rewrite Hn. rewrite len_app, len_ztake in * by lia. lia.
Qed.

(** Enough fuel, and any more, gives the same router. *)
Lemma feed_loop_total : forall fuel pt r, router_ok r -> (work pt r < fuel)%nat ->
  exists r', router_ok r' /\ forall fuel', (work pt r < fuel')%nat -> feed_loop fuel' pt r = Some r'.
Proof.
  induction fuel as [|fuel IH]; intros pt r Hr Hf; [lia|]. destruct (ro_err r) as [e|] eqn:He.
  { exists r. split; [done|]. intros [|f] Hf'; [lia|]. cbn [feed_loop]. by rewrite He. }
  destruct (ro_needed r) as [|[n c] rest] eqn:Hn.
  { eexists. split; [|intros [|f] Hf'; [lia|]; cbn [feed_loop]; rewrite He, Hn; reflexivity]. destruct Hr as [Hr1 Hr2]. specialize (Hr2 He). rewrite Hn in Hr2.
    split; [constructor|]. intros _. done. }
  destruct (Z.eqb_spec (len pt) 0) as [Hp|Hp].
  { exists r. split; [done|]. intros [|f] Hf'; [lia|]. cbn [feed_loop]. rewrite He, Hn. by rewrite Hp. }
  destruct (feed_step n c rest pt r) as [pt' r1] eqn:Es.
  destruct (feed_step_ok _ _ _ pt _ _ _ Hr He Hn ltac:(pose proof (len_nonneg pt); lia) Es) as [Hok Hw].
  destruct (ro_err r1) as [e|] eqn:He1.
  - exists r1. split; [done|]. intros [|[|f]] Hf'; [lia| |].
    + unfold work in Hf'. rewrite Hn in Hf'. cbn [length] in Hf'. lia.
    + cbn [feed_loop]. rewrite He, Hn. rewrite (proj2 (Z.eqb_neq _ _)) by done. rewrite Es. by rewrite He1.
  - specialize (Hw eq_refl). destruct (IH pt' r1 Hok ltac:(lia)) as (r' & Hok' & Hr'). exists r'. split; [done|].
    intros [|f] Hf'; [lia|]. cbn [feed_loop]. rewrite He, Hn. rewrite (proj2 (Z.eqb_neq _ _)) by done. rewrite Es. apply Hr'. lia.
Qed.

Lemma feed_total pt r : router_ok r -> exists r', feed pt r = Some r' /\ router_ok r'.
Proof.
  intros Hr. destruct (feed_loop_total (S (work pt r)) pt r Hr ltac:(lia)) as (r' & Hok & Hl). exists r'. split; [|done]. apply Hl. unfold work. lia.
Qed.

(** The equation of the loop. *)
Lemma feed_eq pt r : router_ok r -> feed pt r =
  match ro_err r, ro_needed r with
  | Some _, _ => Some r
  | None, [] => Some (mk_router [] (ro_pos r + len pt) (ro_buf r) None (ro_st r))
  | None, (n, c) :: rest => if len pt =? 0 then Some r else let '(pt, r) := feed_step n c rest pt r in feed pt r
  end.
Proof.
  intros Hr. unfold feed at 1. cbn [feed_loop]. destruct (ro_err r) as [e|] eqn:He; [done|].
  destruct (ro_needed r) as [|[n c] rest] eqn:Hn; [done|]. destruct (Z.eqb_spec (len pt) 0) as [|Hp]; [done|].
  destruct (feed_step n c rest pt r) as [pt' r1] eqn:Es.
  destruct (feed_step_ok _ _ _ pt _ _ _ Hr He Hn ltac:(pose proof (len_nonneg pt); lia) Es) as [Hok Hw].
  destruct (feed_loop_total (S (work pt' r1)) pt' r1 Hok ltac:(lia)) as (r' & _ & Hl). unfold feed. fold (work pt' r1). rewrite (Hl (S (work pt' r1))) by lia.
  destruct (ro_err r1) as [e|] eqn:He1.
  - specialize (Hl (S (work pt' r1)) ltac:(lia)). cbn [feed_loop] in Hl. rewrite He1 in Hl. rewrite <- Hl.
    destruct (length pt + length ((n, c) :: rest))%nat as [|f] eqn:Ef; [cbn [length] in Ef; lia|]. cbn [feed_loop]. by rewrite He1.
  - apply Hl. specialize (Hw eq_refl). unfold work in Hw |- *. rewrite Hn in Hw. exact Hw.
Qed.

Lemma feed_nil r : router_ok r -> feed [] r = Some r.
Proof.
  intros Hr. rewrite feed_eq by done. destruct (ro_err r) as [e|] eqn:He; [done|]. destruct (ro_needed r) as [|[n c] rest] eqn:Hn; [|done].
  change (len []) with 0. rewrite Z.add_0_r. destruct r; cbn in *; by subst.
Qed.

Lemma feed_sticky pt r : router_ok r -> ro_err r <> None -> feed pt r = Some r.
Proof. intros Hr He. rewrite feed_eq by done. by destruct (ro_err r). Qed.

(** A step that does not use up [a] does the same on [a ++ b]; one that does leaves the
    router where a step on [a ++ b] from it goes on. *)
Lemma feed_step_app n c rest a b r a' r1 : router_ok r -> ro_err r = None -> ro_needed r = (n, c) :: rest -> 0 < len a -> 0 < len b ->
  feed_step n c rest a r = (a', r1) ->
  feed_step n c rest (a ++ b) r = (a' ++ b, r1) \/
  (a' = [] /\ ro_err r1 = None /\ ro_needed r1 = (n, c) :: rest /\ feed_step n c rest (a ++ b) r = feed_step n c rest b r1).
Proof.
  intros [Hf Hb] He Hn Ha Hlb. specialize (Hb He). rewrite Hn in Hb. unfold feed_step. pose proof (len_nonneg (ro_buf r)) as Hnn.
  destruct ((len (ro_buf r) =? 0) && (ro_pos r <? cl_offset c)) eqn:E1.
  { apply andb_true_iff in E1 as [E0 E1]. b2p. cbv zeta. rewrite (len_app a b). intros [= <- <-]. cbn [ro_buf ro_pos ro_needed ro_err ro_st].
    destruct (Z.le_gt_cases (cl_offset c - ro_pos r) (len a)) as [Hle|Hgt].
    - left. rewrite !Z.min_l by lia. by rewrite zdrop_app_le.
    - right. rewrite (Z.min_r _ (len a)) by lia. rewrite zdrop_all by done. split; [done|]. split; [done|]. split; [done|].
      rewrite E0. change (0 =? 0) with true. cbn [andb]. rewrite (proj2 (Z.ltb_lt (ro_pos r + len a) _)) by lia.
      rewrite zdrop_app_ge by lia. f_equal; [f_equal; lia|f_equal; lia]. }
  destruct ((len (ro_buf r) =? 0) && (cl_offset c <? ro_pos r)) eqn:E2; [intros [= <- <-]; by left|].
  cbv zeta. rewrite (len_app a b). destruct (Z.le_gt_cases (cl_stored c - len (ro_buf r)) (len a)) as [Hle|Hgt].
  - rewrite !Z.min_l by lia. rewrite ztake_app_le, zdrop_app_le by lia.
    destruct (len _ =? cl_stored c); [destruct (deliver n _ _)|]; intros [= <- <-]; by left.
  - rewrite (Z.min_r _ (len a)) by lia. rewrite (ztake_all (len a)), (zdrop_all (len a)) by done. rewrite !len_app.
    rewrite (proj2 (Z.eqb_neq (len (ro_buf r) + len a) _)) by lia. intros [= <- <-]. cbn [ro_buf ro_pos ro_needed ro_err ro_st]. right.
    split; [done|]. split; [done|]. split; [done|]. rewrite (proj2 (Z.eqb_neq (len (ro_buf r ++ a)) 0)) by (rewrite len_app; lia). cbn [andb].
    rewrite len_app. replace (Z.min (cl_stored c - len (ro_buf r)) (len a + len b)) with (len a + Z.min (cl_stored c - (len (ro_buf r) + len a)) (len b)) by lia.
    set (k := Z.min (cl_stored c - (len (ro_buf r) + len a)) (len b)). assert (0 <= k) by lia.
    rewrite ztake_app_ge, zdrop_app_ge by lia. replace (len a + k - len a) with k by lia. rewrite <- !app_assoc, !len_app.
    by rewrite !Z.add_assoc.
Qed.

(** The router does not care how the plaintext is cut into blocks. *)
Lemma feed_app b : forall m a r, router_ok r -> (work a r < m)%nat ->
  feed (a ++ b) r = match feed a r with Some r1 => feed b r1 | None => None end.
Proof.
  induction m as [|m IH]; intros a r Hr Hm; [lia|]. rewrite (feed_eq a) by done.
  destruct (ro_err r) as [e|] eqn:He; [by rewrite !feed_sticky by (done || by rewrite He)|].
  destruct (ro_needed r) as [|[n c] rest] eqn:Hn.
  { assert (router_ok (mk_router [] (ro_pos r + len a) (ro_buf r) None (ro_st r))) as Hr'
      by (destruct Hr as [_ Hr2]; split; [constructor|]; intros _; cbn [ro_needed ro_buf]; specialize (Hr2 He); by rewrite Hn in Hr2).
    rewrite (feed_eq (a ++ b) r Hr), (feed_eq b _ Hr'), He, Hn. cbn [ro_err ro_needed ro_pos ro_buf ro_st]. rewrite len_app. do 2 f_equal. lia. }
  destruct (Z.eqb_spec (len a) 0) as [Ha|Ha]; [by rewrite (len_0_nil a Ha)|]. pose proof (len_nonneg a).
  destruct (Z.eqb_spec (len b) 0) as [Hb|Hb].
  { rewrite (len_0_nil b Hb), app_nil_r. rewrite (feed_eq a r Hr), He, Hn. rewrite (proj2 (Z.eqb_neq _ _)) by done.
    destruct (feed_step n c rest a r) as [a' r1] eqn:Es. destruct (feed_step_ok _ _ _ a _ _ _ Hr He Hn ltac:(lia) Es) as [Hok _].
    destruct (feed_total a' r1 Hok) as (r' & -> & Hr'). by rewrite feed_nil. }
  pose proof (len_nonneg b). rewrite (feed_eq (a ++ b) r Hr), He, Hn. rewrite (proj2 (Z.eqb_neq _ _)) by (rewrite len_app; lia).
  destruct (feed_step n c rest a r) as [a' r1] eqn:Es. destruct (feed_step_ok _ _ _ a _ _ _ Hr He Hn ltac:(lia) Es) as [Hok Hw].
  destruct (feed_step_app n c rest a b r a' r1 Hr He Hn ltac:(lia) ltac:(lia) Es) as [->|(-> & He1 & Hn1 & ->)].
  - destruct (ro_err r1) as [e|] eqn:He1; [by rewrite !feed_sticky by (done || by rewrite He1)|]. apply IH; [done|]. specialize (Hw eq_refl). lia.
  - rewrite (feed_nil r1 Hok). rewrite (feed_eq b r1 Hok), He1, Hn1. by rewrite (proj2 (Z.eqb_neq _ _)).
Qed.

(** Feeding a stream block by block. *)
Fixpoint feeds (pts : list bytes) (r : chunkRouter) : option chunkRouter :=
  match pts with
  | [] => Some r
  | pt :: pts => match feed pt r with Some r => feeds pts r | None => None end
  end.

Lemma feeds_concat pts : forall r, router_ok r -> feeds pts r = feed (concat pts) r.
Proof.
  induction pts as [|pt pts IH]; intros r Hr; cbn [feeds concat]; [by rewrite feed_nil|].
  rewrite (feed_app (concat pts) (S (work pt r))) by (done || lia). destruct (feed_total pt r Hr) as (r1 & -> & Hr1). by apply IH.
Qed.

(** What is delivered satisfies whatever each delivery establishes. *)
Lemma feed_invariant (I : D -> list (Z * chunkLocation) -> Prop) :
  (forall st n c rest stored st', I st ((n, c) :: rest) -> len stored = cl_stored c -> deliver n stored st = IOk st' -> I st' rest) ->
  forall m pt r r', router_ok r -> (work pt r < m)%nat -> I (ro_st r) (ro_needed r) -> feed pt r = Some r' -> I (ro_st r') (ro_needed r').
Proof.
  intros Hd. induction m as [|m IH]; intros pt r r' Hr Hm Hi; [lia|]. rewrite (feed_eq pt r Hr).
  destruct (ro_err r) as [e|] eqn:He; [by intros [= <-]|]. destruct (ro_needed r) as [|[n c] rest] eqn:Hn; [by intros [= <-]|].
  destruct (Z.eqb_spec (len pt) 0) as [|Hp]; [intros [= <-]; by rewrite Hn|]. pose proof (len_nonneg pt).
  destruct (feed_step n c rest pt r) as [pt' r1] eqn:Es. destruct (feed_step_ok _ _ _ pt _ _ _ Hr He Hn ltac:(lia) Es) as [Hok Hw].
  assert (I (ro_st r1) (ro_needed r1)) as Hi1.
  { unfold feed_step in Es. destruct (_ && _); [injection Es as <- <-; cbn; by rewrite Hn|]. destruct (_ && _); [injection Es as <- <-; cbn; by rewrite Hn|].
    cbv zeta in Es. destruct (Z.eqb_spec (len (ro_buf r ++ ztake (Z.min (cl_stored c - len (ro_buf r)) (len pt)) pt)) (cl_stored c)) as [Hl|];
      [|injection Es as <- <-; cbn; by rewrite Hn].
    destruct (deliver n _ _) as [st|e] eqn:Ed; injection Es as <- <-; cbn; [by eapply Hd|by rewrite Hn]. }
  intros Hf. destruct (ro_err r1) as [e|] eqn:He1.
  - rewrite feed_sticky in Hf by (done || by rewrite He1). injection Hf as <-. done.
  - eapply (IH pt' r1); [done| |done|done]. specialize (Hw eq_refl). lia.
Qed.
(** ** What a router delivers *)

(** The reference: deliver the slice of the plaintext each chunk names, in order, up to the
    first error. *)
Fixpoint deliver_all (cs : list (Z * chunkLocation)) (P : bytes) (st : D) : option ArchiveError * D :=
  match cs with
  | [] => (None, st)
  | (n, c) :: cs => match deliver n (ztake (cl_stored c) (zdrop (cl_offset c) P)) st with
                    | IErr e => (Some e, st)
                    | IOk st => deliver_all cs P st
                    end
  end.

(** Chunks that follow each other from [pos] on and end within [size]. *)
Fixpoint ordered (pos size : Z) (cs : list (Z * chunkLocation)) : Prop :=
  match cs with
  | [] => True
  | (_, c) :: cs => pos <= cl_offset c /\ 1 <= cl_stored c /\ cl_offset c + cl_stored c <= size /\
                    ordered (cl_offset c + cl_stored c) size cs
  end.

Definition newRouter (cs : list (Z * chunkLocation)) (st : D) : chunkRouter := mk_router cs 0 [] None st.

Lemma ordered_stored pos size cs : ordered pos size cs -> Forall (fun x => 1 <= cl_stored (snd x)) cs.
Proof. revert pos. induction cs as [|[n c] cs IH]; intros pos; cbn [ordered]; [by constructor|]. intros (_ & ? & _ & ?). constructor; [done|by eapply IH]. Qed.

Lemma router_ok_at cs pos st : Forall (fun x => 1 <= cl_stored (snd x)) cs -> router_ok (mk_router cs pos [] None st).
Proof. intros Hf. split; [done|]. intros _. cbn [ro_needed ro_buf]. destruct cs as [|[n c] cs]; [done|]. inversion Hf; subst. cbn [snd] in *. rewrite len_nil. lia. Qed.

Lemma feed_take n c cs P pos st : 1 <= cl_stored c -> Forall (fun x => 1 <= cl_stored (snd x)) cs -> cl_offset c = pos -> 0 <= pos ->
  pos + cl_stored c <= len P ->
  feed (zdrop pos P) (mk_router ((n, c) :: cs) pos [] None st) =
  match deliver n (ztake (cl_stored c) (zdrop pos P)) st with
  | IErr e => Some (mk_router ((n, c) :: cs) (pos + cl_stored c) (ztake (cl_stored c) (zdrop pos P)) (Some e) st)
  | IOk st => feed (zdrop (pos + cl_stored c) P) (mk_router cs (pos + cl_stored c) [] None st)
  end.
Proof.
  intros Hc Hf Ho Hp Hl. rewrite feed_eq by (apply router_ok_at; by constructor). cbn [ro_err ro_needed].
  assert (len (zdrop pos P) = len P - pos) as Hz by (apply len_zdrop; lia). rewrite Hz. rewrite (proj2 (Z.eqb_neq _ _)) by lia.
  unfold feed_step. cbn [ro_buf ro_pos ro_st ro_needed]. change (len []) with 0. change (0 =? 0) with true. cbn [andb].
  rewrite Ho, Z.ltb_irrefl. rewrite Z.sub_0_r, Hz, Z.min_l by lia. cbv zeta. rewrite app_nil_l, len_ztake by lia. rewrite Z.eqb_refl.
  destruct (deliver n _ st) as [st'|e]; [by rewrite zdrop_zdrop by lia|].
  apply feed_sticky; [|done]. split; [by constructor|done].
Qed.

Lemma feed_chunk n c cs P pos st : 1 <= cl_stored c -> Forall (fun x => 1 <= cl_stored (snd x)) cs -> 0 <= pos <= cl_offset c ->
  cl_offset c + cl_stored c <= len P ->
  feed (zdrop pos P) (mk_router ((n, c) :: cs) pos [] None st) = feed (zdrop (cl_offset c) P) (mk_router ((n, c) :: cs) (cl_offset c) [] None st).
Proof.
  intros Hc Hf Hp Hl. destruct (Z.eq_dec pos (cl_offset c)) as [->|Hne]; [done|].
  rewrite feed_eq by (apply router_ok_at; by constructor). cbn [ro_err ro_needed].
  assert (len (zdrop pos P) = len P - pos) as Hz by (apply len_zdrop; lia). rewrite Hz. rewrite (proj2 (Z.eqb_neq _ _)) by lia.
  unfold feed_step. cbn [ro_buf ro_pos ro_st ro_needed]. change (len []) with 0. change (0 =? 0) with true. cbn [andb].
  rewrite (proj2 (Z.ltb_lt _ _)) by lia. cbv zeta. rewrite Hz, Z.min_l by lia. rewrite zdrop_zdrop by lia.
  by replace (pos + (cl_offset c - pos)) with (cl_offset c) by lia.
Qed.

Lemma feed_all P cs : forall pos st, 0 <= pos <= len P -> ordered pos (len P) cs ->
  exists r, feed (zdrop pos P) (mk_router cs pos [] None st) = Some r /\ (ro_err r, ro_st r) = deliver_all cs P st /\
    (ro_err r = None -> ro_needed r = []).
Proof.
  induction cs as [|[n c] cs IH]; intros pos st Hp Ho; cbn [ordered deliver_all] in *.
  - rewrite feed_eq by (by apply router_ok_at; constructor). cbn [ro_err ro_needed]. eexists. split; [done|]. by split.
  - destruct Ho as (Ho & Hs & He & Ho'). pose proof (ordered_stored _ _ _ Ho') as Hf. rewrite feed_chunk by (done || lia).
    rewrite feed_take by (done || lia). destruct (deliver n _ st) as [st'|e]; [|by eexists]. apply IH; [lia|done].
Qed.

(** The router hands on exactly the needed chunks, however the plaintext of the pack is
    cut into blocks: for chunks that follow each other inside the pack, feeding the blocks
    one by one delivers the slice each chunk names, in order, once, up to the first
    delivery that fails, whose error it keeps. *)
Theorem routing_exact (pts : list bytes) (cs : list (Z * chunkLocation)) (st : D)
  (Ho : ordered 0 (len (concat pts)) cs) :
  exists r, feeds pts (newRouter cs st) = Some r /\ (ro_err r, ro_st r) = deliver_all cs (concat pts) st /\
    (ro_err r = None -> ro_needed r = []).
Proof.
  rewrite feeds_concat by (by apply router_ok_at; eapply ordered_stored).
  apply (feed_all (concat pts) cs 0 st); [|done]. pose proof (len_nonneg (concat pts)). lia.
Qed.
End Router.

(** Two chunks of a pack of eleven bytes, delivered from four blocks. *)
Definition sample_chunks : list (Z * chunkLocation) := [(0, mk_loc [] 0 1 4 4 0); (1, mk_loc [] 0 6 5 5 0)].

Lemma routing_exact_witness : exists r,
  feeds (fun n stored st => IOk (st ++ [(n, stored)])) [str "x"; str "first"; str "sec"; str "nd"] (newRouter sample_chunks []) = Some r /\
  (ro_err r, ro_st r) = (None, [(0, str "firs"); (1, str "secnd")]) /\ (ro_err r = None -> ro_needed r = []).
Proof.
  apply (routing_exact (fun n stored st => IOk (st ++ [(n, stored)])) [str "x"; str "first"; str "sec"; str "nd"] sample_chunks []).
  cbn [ordered sample_chunks cl_offset cl_stored]. vm_compute. repeat split; discriminate.
Defined.

(** ** A pack is one entry *)

Section PackEntry.
Context `{C : Crypto} `{CL : !CryptoLaws C} `{ZS : Zstd} `{ZL : !ZstdLaws ZS} `{H : Sha256}.

(** What identifies a pack entry being written: salt, frame header, metadata, padding. *)
Record pack_head := mk_ph { ph_key : bytes; ph_salt : bytes; ph_frame : bytes; ph_meta : MetadataBlock; ph_pad : bytes }.

Definition pack_begin (h : pack_head) (aw0 : ArchiveWriter) : ArchiveWriter :=
  BeginFileEntry EntryTypePack (ph_salt h) (ph_frame h) (ph_meta h) (ph_pad h) aw0.

(** The writer has sealed [sealed] in data blocks since the pack was opened. *)
Definition pack_core (h : pack_head) (aw0 : ArchiveWriter) (sealed : bytes) (x : packWriter * ArchiveWriter) : Prop :=
  pw_fb (fst x) = mk_fb (ph_key h) None /\ 1 <= pw_next (fst x) <= MaxChunkSize /\
  exists bs chunks, snd x = fold_left AppendDataBlock bs (pack_begin h aw0) /\
    Forall2 (opens_to (ph_key h) CodecNone) bs chunks /\ concat chunks = sealed.

(** What has been written: sealed plaintext, then less than a block of buffer. *)
Definition packing (h : pack_head) (aw0 : ArchiveWriter) (written : bytes) (x : packWriter * ArchiveWriter) : Prop :=
  exists sealed, pack_core h aw0 sealed x /\ written = sealed ++ pw_buf (fst x) /\ len (pw_buf (fst x)) < pw_next (fst x) /\
    pw_mac (fst x) = written /\ pw_size (fst x) = u64 (len written).

Lemma pack_seal_core h aw0 sealed x block : pack_core h aw0 sealed x -> len block <= MaxChunkSize ->
  pack_core h aw0 (sealed ++ block) (pack_seal block x) /\ pw_mac (fst (pack_seal block x)) = pw_mac (fst x) /\
  pw_size (fst (pack_seal block x)) = pw_size (fst x) /\ pw_buf (fst (pack_seal block x)) = pw_buf (fst x).
Proof.
  intros (Hfb & Hn & bs & chunks & Haw & Hf & Hc) Hl. destruct x as [p aw]. cbn [fst snd] in *. unfold pack_seal.
  destruct (EncryptChunk (pw_fb p) block (pw_r p)) as [db r] eqn:Ee. rewrite Hfb in Ee. apply EncryptChunk_opens in Ee; [|done|done]. cbn in Ee.
  destruct (NextChunkSize r) as [next r2] eqn:En. apply NextChunkSize_range in En. cbn [fst snd pw_mac pw_size pw_buf]. split; [|done].
  split; [done|]. split; [done|]. exists (bs ++ [db]), (chunks ++ [block]). split_and!.
  - cbn [snd]. by rewrite fold_left_app, Haw.
  - apply Forall2_app; [done|]. by constructor.
  - rewrite concat_app, Hc. cbn [concat]. by rewrite app_nil_r.
Qed.

Lemma set_buf_core h aw0 sealed p aw b : pack_core h aw0 sealed (p, aw) -> pack_core h aw0 sealed (set_buf b p, aw).
Proof. done. Qed.

Lemma seal_loop_core h aw0 : forall fuel data sealed x, (length data < fuel)%nat -> pack_core h aw0 sealed x -> pw_buf (fst x) = [] ->
  exists a b, data = a ++ b /\ let y := seal_loop fuel data x in pack_core h aw0 (sealed ++ a) y /\ pw_buf (fst y) = b /\
    len b < pw_next (fst y) /\ pw_mac (fst y) = pw_mac (fst x) /\ pw_size (fst y) = pw_size (fst x).
Proof.
  induction fuel as [|fuel IH]; intros data sealed x Hf Hc Hb; [lia|]. cbn [seal_loop]. pose proof Hc as (Hfb & Hn & _). destruct x as [p aw].
  cbn [fst] in *. destruct (Z.leb_spec (pw_next p) (len data)) as [Hle|Hgt].
  - destruct (pack_seal_core h aw0 sealed (p, aw) (ztake (pw_next p) data)) as (Hc' & Hm & Hs & Hb'); [done|rewrite len_ztake; lia|].
    destruct (IH (zdrop (pw_next p) data) (sealed ++ ztake (pw_next p) data) (pack_seal (ztake (pw_next p) data) (p, aw)))
      as (a & b & Hd & Hy).
    + pose proof (len_zdrop (pw_next p) data ltac:(lia)). unfold len in *. lia.
    + done.
    + by rewrite Hb'.
    + exists (ztake (pw_next p) data ++ a), b. rewrite <- app_assoc, <- Hd, ztake_zdrop. split; [done|]. cbv zeta in Hy |- *.
      rewrite Hm, Hs in Hy. by rewrite app_assoc.
  - exists [], data. rewrite app_nil_r. cbv zeta. cbn [fst set_buf pw_buf pw_next pw_mac pw_size]. by rewrite Hb.
Qed.

Lemma u64_add a b : u64 (u64 a + b) = u64 (a + b).
Proof. unfold u64. by rewrite Zplus_mod_idemp_l. Qed.

Lemma pack_write_packing h aw0 written data x : packing h aw0 written x -> packing h aw0 (written ++ data) (pack_write data x).
Proof.
  intros (sealed & Hc & -> & Hb & Hm & Hs). destruct x as [p aw]. cbn [fst] in *. unfold pack_write.
  set (p1 := mk_pw (pw_fb p) (pw_mac p ++ data) (u64 (pw_size p + len data)) (pw_buf p) (pw_next p) (pw_r p)).
  assert (pw_mac p1 = (sealed ++ pw_buf p) ++ data) as Hm1 by (cbn; by rewrite Hm).
  assert (pw_size p1 = u64 (len ((sealed ++ pw_buf p) ++ data))) as Hs1 by (cbn; by rewrite Hs, u64_add, (len_app (_ ++ _) data)).
  assert (pack_core h aw0 sealed (p1, aw)) as Hc1 by done. change (pw_buf p1) with (pw_buf p). change (pw_next p1) with (pw_next p).
  pose proof Hc as (_ & Hn & _). cbn [fst] in Hn. pose proof (len_nonneg (pw_buf p)). pose proof (len_nonneg data).
  destruct (Z.ltb_spec 0 (len (pw_buf p))) as [Hp|Hp].
  - cbv zeta. set (take := Z.min (pw_next p - len (pw_buf p)) (len data)). cbn [set_buf pw_buf pw_next]. rewrite len_app, len_ztake by lia.
    change (pw_next p1) with (pw_next p). destruct (Z.ltb_spec (len (pw_buf p) + take) (pw_next p)) as [Hlt|Hge].
    + exists sealed. split; [done|]. cbn [fst set_buf pw_buf pw_next pw_mac pw_size]. change (pw_next p1) with (pw_next p).
      assert (take = len data) as Ht by lia. rewrite Ht, ztake_all by done. rewrite len_app, <- app_assoc. split; [done|]. split; [lia|].
      split; [by rewrite Hm1, <- app_assoc|]. by rewrite Hs1, <- app_assoc.
    + set (p2 := set_buf (pw_buf p ++ ztake take data) p1).
      destruct (pack_seal_core h aw0 sealed (p2, aw) (pw_buf p ++ ztake take data)) as (Hc2 & Hm2 & Hs2 & Hb2);
        [done|rewrite len_app, len_ztake by lia; lia|].
      cbn [pw_buf]. destruct (pack_seal (pw_buf p ++ ztake take data) (p2, aw)) as [p3 aw3]. cbn [fst] in *.
      destruct (seal_loop_core h aw0 (S (length (zdrop take data))) (zdrop take data) (sealed ++ pw_buf p ++ ztake take data) (set_buf [] p3, aw3))
        as (a & b & Hd & Hy); [lia|done|done|]. cbv zeta in Hy. destruct Hy as (Hcy & Hby & Hny & Hmy & Hsy). eexists. split; [exact Hcy|].
      rewrite Hby, Hmy, Hsy. cbn [set_buf fst pw_mac pw_size]. rewrite Hm2, Hs2. cbn [p2 set_buf pw_mac pw_size]. fold p1. rewrite Hm1, Hs1.
      split; [by rewrite <- !app_assoc, <- Hd, ztake_zdrop|]. done.
  - assert (pw_buf p = []) as Hnil by (apply len_0_nil; lia).
    destruct (seal_loop_core h aw0 (S (length data)) data sealed (p1, aw)) as (a & b & Hd & Hy); [lia|done|done|]. cbv zeta in Hy.
    destruct Hy as (Hcy & Hby & Hny & Hmy & Hsy). eexists. split; [exact Hcy|]. rewrite Hby, Hmy, Hsy. cbn [fst]. rewrite Hm1, Hs1.
    split; [|done]. by rewrite Hnil, app_nil_r, Hd, app_assoc.
Qed.

(** [holds_payload master ty pt e]: [e] is an entry of type [ty] that opens under the
    archive's keys, frames and authenticates the plaintext [pt]. *)
Record holds_payload (master : bytes) (ty : Z) (pt : bytes) (e : FileEntry) : Prop := {
  hp_framed : well_framed e;
  hp_type : EntryType e = ty;
  hp_open : exists pm, Open (FileKey (KeysV2 master) (EntrySalt e)) (MetaBlock e) = Ok pm;
  hp_blocks : exists chunks, concat chunks = pt /\
    Forall2 (opens_to (FileKey (KeysV2 master) (EntrySalt e)) CodecNone) (DataBlocks e) chunks;
  hp_trailer : trailer_result (FileKey (KeysV2 master) (EntrySalt e)) Version2 (Trailer e) =
    IOk (mk_tinfo (ComputeHMAC (FileKey (KeysV2 master) (EntrySalt e)) pt) (len pt) true)
}.

Lemma sealed_payload master ty pt r0 r e : len pt < 2 ^ 63 ->
  sealPayloadEntry (KeysV2 master) ty CodecNone pt pt r0 r = IOk e -> holds_payload master ty pt e.
Proof.
  intros Hl He. apply payload_entry_framed in He as (pm & chunks & Hw & Hty & Ho & _ & Hc & Hf & Ht); [|done].
  constructor; [done|done|by eexists|by exists chunks|done].
Qed.

(** The head of a pack opens under the archive's keys and is framed within the limits. *)
Definition head_ok (master : bytes) (h : pack_head) : Prop :=
  ph_key h = FileKey (KeysV2 master) (ph_salt h) /\ len (ph_salt h) = SaltSize /\ len (ph_frame h) = FrameHeaderSize /\
  len (ph_pad h) < 2 ^ 32 /\ sealed_ok 0 maxMetadataCiphertext (ph_meta h) /\ exists pm, Open (ph_key h) (ph_meta h) = Ok pm.

Lemma openPack_packing master r0 r aw0 x : aw_keys aw0 = KeysV2 master -> openPack r0 r aw0 = IOk x ->
  exists h, packing h aw0 [] x /\ head_ok master h.
Proof.
  intros Hk. unfold openPack. rewrite Hk. destruct (draw SaltSize r0) as [salt r01] eqn:E1. apply draw_len in E1; [|done].
  set (key := FileKey (KeysV2 master) salt). destruct (FrameHeader r) as [fh r1] eqn:E2. apply draw_len in E2; [|done].
  destruct (Seal key _ r01) as [[mb|] r02] eqn:E3; [|done]. cbn [or_fatal]. apply Seal_ok in E3 as [Ho Hm]; [|done].
  destruct (InterBlockPadding r1) as [ip r2] eqn:E4. apply randomRange_len in E4; [|done]. unfold interBlockPadMax in E4.
  destruct (NextChunkSize r2) as [next r3] eqn:E5. apply NextChunkSize_range in E5. intros [= <-]. exists (mk_ph key salt fh mb ip).
  unfold head_ok. cbn [ph_key ph_salt ph_frame ph_pad ph_meta]. split; [|repeat (split; [done || lia|]); by eexists].
  exists []. split; [|cbn [fst pw_buf pw_next pw_mac pw_size]; change (len (@nil byte)) with 0; repeat split; lia].
  split; [done|]. split; [done|]. exists [], []. done.
Qed.

(** Closing a pack completes one entry that holds everything written to it. *)
Lemma pack_close_entry master h aw0 written x : packing h aw0 written x -> len written < 2 ^ 63 -> head_ok master h ->
  exists e, pack_close x = WriteFileEntry e aw0 /\ holds_payload master EntryTypePack written e.
Proof.
  intros (sealed & Hc & -> & Hb & Hm & Hs) Hl (Hk & Hsa & Hfr & Hpd & Hme & Hop). pose proof (len_nonneg (sealed ++ pw_buf (fst x))) as Hnn.
  unfold pack_close. set (y := if 0 <? len (pw_buf (fst x)) then pack_seal (pw_buf (fst x)) x else x).
  assert (pack_core h aw0 (sealed ++ pw_buf (fst x)) y /\ pw_mac (fst y) = pw_mac (fst x) /\ pw_size (fst y) = pw_size (fst x)) as (Hcy & Hmy & Hsy).
  { unfold y. pose proof Hc as (_ & Hn & _). destruct (Z.ltb_spec 0 (len (pw_buf (fst x)))) as [Hp|Hp].
    - destruct (pack_seal_core h aw0 sealed x (pw_buf (fst x))) as (? & ? & ? & _); [done|lia|done].
    - rewrite (len_0_nil (pw_buf (fst x))) by (pose proof (len_nonneg (pw_buf (fst x))); lia). by rewrite app_nil_r. }
  destruct y as [p aw]. cbn [fst snd] in *. destruct Hcy as (Hfb & _ & bs & chunks & Haw & Hf & Hcc). cbn [fst snd] in *.
  rewrite Hmy, Hsy, Hm, Hs, Hfb. cbn [fb_key]. destruct (BuildTrailer _ _ _ _) as [tr r'] eqn:Eb. unfold u64 in Eb. rewrite Z.mod_small in Eb by lia.
  apply BuildTrailer_ok in Eb as (Hp & Hcs & Hso & Ht); [|apply len_hmac|lia]. cbn [fb_key] in Ht.
  exists (mk_entry EntryTypePack (ph_salt h) (ph_frame h) (ph_meta h) (ph_pad h) bs tr). split; [by rewrite Haw|].
  constructor; cbn [EntrySalt EntryType MetaBlock DataBlocks Trailer]; rewrite <- ?Hk; try done; [|by exists chunks].
  constructor; cbn [EntrySalt FrameHdr MetaBlock InterBlockPad DataBlocks Trailer]; try done. by eapply opens_framed.
Qed.

(** A pack is one entry, however its chunks were written: after any sequence of writes
    of fewer than 2^63 bytes, what [openPack], the writes and [close] have emitted is
    exactly one whole pack entry, whose blocks open in order to the concatenation of the
    writes and whose trailer authenticates it. *)
Theorem pack_is_one_entry (master : bytes) (r0 r : rng) (aw0 : ArchiveWriter) (x : packWriter * ArchiveWriter) (ds : list bytes)
  (Hk : aw_keys aw0 = KeysV2 master) (Ho : openPack r0 r aw0 = IOk x) (Hl : len (concat ds) < 2 ^ 63) :
  exists e, pack_close (fold_left (fun x d => pack_write d x) ds x) = WriteFileEntry e aw0 /\
    holds_payload master EntryTypePack (concat ds) e.
Proof.
  apply (openPack_packing master) in Ho as (h & Hp & Hh); [|done].
  assert (forall written x, packing h aw0 written x ->
    packing h aw0 (written ++ concat ds) (fold_left (fun x d => pack_write d x) ds x)) as Hw.
  { clear Hl Hp. clear x. induction ds as [|d ds IH]; intros written x Hp; cbn [concat fold_left]; [by rewrite app_nil_r|].
    rewrite app_assoc. by apply IH, pack_write_packing. }
  by eapply pack_close_entry; [apply (Hw [] x Hp)|..].
Qed.
End PackEntry.

Definition sample_pack : iores (packWriter * ArchiveWriter) := @openPack toy_crypto toy_sha toy_rng toy_rng sample_writer.

Lemma pack_is_one_entry_witness : exists x e, sample_pack = IOk x /\
  @pack_close toy_crypto toy_zstd toy_sha (fold_left (fun x d => @pack_write toy_crypto toy_zstd toy_sha d x) [str "first"; []; str "second"] x) =
    WriteFileEntry e sample_writer /\
  @holds_payload toy_crypto toy_zstd (replicate 32 (zb 9)) EntryTypePack (str "firstsecond") e.
Proof.
  destruct sample_pack as [x|err] eqn:E; [|discriminate E].
  destruct (@pack_is_one_entry toy_crypto toy_laws toy_zstd toy_zstd_laws toy_sha (replicate 32 (zb 9)) toy_rng toy_rng sample_writer x
    [str "first"; []; str "second"] eq_refl E ltac:(vm_compute; reflexivity)) as (e & Hc & Hp).
  exists x, e. split; [done|]. split; [exact Hc|exact Hp].
Defined.
