(* ===== verification/Restore.v ===== *)
(** * Restoring an incremental archive (io/incremental_restore.go)

    Files are assembled from chunks in temporary files and renamed into place when every
    chunk has been written. [None] is a panic (a chunk number outside the index). The map
    from chunk numbers to targets is iterated in random order by the source; the order does
    not matter, because packs and the chunks of a pack are sorted before use, and chunks at
    equal offsets overlap and fail the pack in either order. *)

From S2P Require Import Prelude Bytes Names Attributes Metadata IndexCodec Crypto Codec Frames.
From S2P Require Import Checksum Writer Signatures IOErrors SolidPlan Extractor OutputTree Incremental Packs.
Open Scope go_scope.

Record restoreFile := mk_rf {
  rf_version : FileVersion;
  rf_local : bytes;
  rf_tmp : bytes;
  rf_pending : Z;
  rf_err : option ArchiveError
}.

(** A position that a chunk fills: the file's index in the list of restored files, and
    the offset. *)
Record chunkTarget := mk_target { tg_file : nat; tg_offset : Z }.

Definition set_err (e : ArchiveError) (rf : restoreFile) : restoreFile :=
  mk_rf (rf_version rf) (rf_local rf) (rf_tmp rf) (rf_pending rf) (Some e).

Section Restore.
Context `{C : Crypto} `{ZS : Zstd} {R : Type} `{RT : !Root R}.

(** The output directory and the files being restored. *)
Definition restoring : Type := outputTree R * list restoreFile.

Definition add_target (n : Z) (t : chunkTarget) (targets : gmap Z (list chunkTarget)) : gmap Z (list chunkTarget) :=
  <[n := default [] (targets !! n) ++ [t]]> targets.

Fixpoint add_targets (chunks : list chunkLocation) (file : nat) (ns : list Z) (offset : Z) (targets : gmap Z (list chunkTarget)) :
  option (gmap Z (list chunkTarget)) :=
  match ns with
  | [] => Some targets
  | n :: ns =>
      match chunks !! Z.to_nat n with
      | None => None
      | Some c => add_targets chunks file ns (i64 (offset + cl_raw c)) (add_target n (mk_target file offset) targets)
      end
  end.

(** The loop of [prepareRestore] over the regular files. *)
Fixpoint prepare_files (chunks : list chunkLocation) (files : list FileVersion) (restores : list restoreFile)
  (targets : gmap Z (list chunkTarget)) (t : outputTree R) :
  option (iores (list restoreFile * gmap Z (list chunkTarget)) * outputTree R) :=
  match files with
  | [] => Some (IOk (restores, targets), t)
  | f :: files =>
      let rf tmp local err := mk_rf f local tmp (len (fv_Chunks f)) err in
      match createTemp (fv_Name f) t with
      | (IErr e, t) => if IsFatal e then Some (IErr e, t)
                       else prepare_files chunks files (restores ++ [rf [] [] (Some e)]) targets t
      | (IOk (tmp, local), t) =>
          match act (CloseFile tmp) t with
          | (Err _, t) => prepare_files chunks files
              (restores ++ [rf tmp local (Some (recoverable ErrCodeWriteFailed "create file"))]) targets t
          | (Ok _, t) =>
              match add_targets chunks (length restores) (fv_Chunks f) 0 targets with
              | None => None
              | Some targets => prepare_files chunks files (restores ++ [rf tmp local None]) targets t
              end
          end
      end
  end.

Definition specialOrder (kind : Z) : Z :=
  if kind =? KindDirectory then 0 else if kind =? KindHardlink then 1 else 2.

Definition is_regular (f : FileVersion) : bool := Kind (fv_Attributes f) =? KindRegular.

Definition special_files (files : list FileVersion) : list FileVersion :=
  stable_sort (fun a b => specialOrder (Kind (fv_Attributes a)) <? specialOrder (Kind (fv_Attributes b)))
    (List.filter (fun f => negb (is_regular f)) files).

Definition prepareRestore (ia : incrementalArchive) (t : outputTree R) :
  option (iores (list restoreFile * list FileVersion * gmap Z (list chunkTarget)) * outputTree R) :=
  let files := sortedFiles ia in
  match prepare_files (ia_chunks ia) (List.filter is_regular files) [] ∅ t with
  | None => None
  | Some (IErr e, t) => Some (IErr e, t)
  | Some (IOk (restores, targets), t) => Some (IOk (restores, special_files files, targets), t)
  end.

Fixpoint restoreSpecial (files : list FileVersion) (t : outputTree R) : list ExtractionResult * outputTree R :=
  match files with
  | [] => ([], t)
  | f :: files =>
      let '(r, t) := special (fv_Name f) (fv_Attributes f) t in
      let '(rs, t) := restoreSpecial files t in
      (match r with
       | IErr e => mk_xr (fv_Name f) 0 false (Some e)
       | IOk _ => mk_xr (fv_Name f) 0 true None
       end :: rs, t)
  end.

(** ** Chunks *)

Definition writeAtTemp (tmp data : bytes) (offset : Z) (t : outputTree R) : bool * outputTree R :=
  match act (OpenFile tmp) t with
  | (Err _, t) => (false, t)
  | (Ok _, t) =>
      match act (WriteToAt tmp data offset) t with
      | (Err _, t) => (false, snd (act (CloseFile tmp) t))
      | (Ok _, t) => match act (CloseFile tmp) t with (Ok _, t) => (true, t) | (Err _, t) => (false, t) end
      end
  end.

Definition write_target (raw : bytes) (x : restoring) (tg : chunkTarget) : restoring :=
  match snd x !! tg_file tg with
  | None => x
  | Some rf =>
      match rf_err rf with
      | Some _ => x
      | None =>
          let '(ok, t) := writeAtTemp (rf_tmp rf) raw (tg_offset tg) (fst x) in
          (t, <[tg_file tg :=
                if ok then mk_rf (rf_version rf) (rf_local rf) (rf_tmp rf) (rf_pending rf - 1) None
                else set_err (recoverable ErrCodeWriteFailed "write file") rf]> (snd x))
      end
  end.

Definition deliverChunk (loc : chunkLocation) (idKey stored : bytes) (targets : list chunkTarget) (x : restoring) : iores restoring :=
  match (if cl_codec loc =? CodecZstd then Decompress NewChunkDecompressor stored else Ok stored) with
  | Err _ => IErr (recoverable ErrCodeIntegrityFail "decompress chunk")
  | Ok raw =>
      if negb (len raw =? cl_raw loc) || negb (bytes_eqb (ComputeHMAC idKey raw) (cl_id loc))
      then IErr (recoverable ErrCodeIntegrityFail "chunk failed verification")
      else IOk (fold_left (write_target raw) targets x)
  end.

(** ** Packs *)

(** The sink of [restorePack]: the router, which keeps its first error and then ignores
    further data, and the plaintext the HMAC covers. *)
Definition pack_sink (deliver : Z -> bytes -> restoring -> iores restoring) (st : @chunkRouter restoring * bytes) (pt : bytes) :
  option (@chunkRouter restoring * bytes) :=
  match feed deliver pt (fst st) with Some r => Some (r, snd st ++ pt) | None => None end.

Definition restorePack (ra : bytes) (size : Z) (ia : incrementalArchive) (idKey : bytes) (packOffset : Z)
  (needed : list (Z * chunkLocation)) (targets : gmap Z (list chunkTarget)) (x : restoring) : option ArchiveError * restoring :=
  match entryReaderAt ra size packOffset with
  | [] => (Some (recoverable ErrCodeTruncated "read pack"), x)
  | ty :: s =>
  if negb (bz ty =? EntryTypePack) then (Some (recoverable ErrCodeIntegrityFail "expected a pack entry"), x)
  else match readEntryHead (ia_keys ia) s with
  | (IErr e, _) => (Some e, x)
  | (IOk head, s) =>
  match skipPadding (recoverable ErrCodeTruncated "skip pack padding") s with
  | (IErr e, _) => (Some e, x)
  | (IOk _, s) =>
  let deliver n stored x :=
    match ia_chunks ia !! Z.to_nat n with
    | Some loc => deliverChunk loc idKey stored (default [] (targets !! n)) x
    | None => IErr (recoverable ErrCodeIntegrityFail "unknown chunk")
    end in
  let '((router, plain), err, s) :=
    streamDataBlocks (pack_sink deliver) (eh_fileKey head) CodecNone (newRouter needed x, []) s in
  (match ro_err router with
   | Some e => Some e
   | None =>
   match err with
   | Some e => Some e
   | None =>
   if negb (bool_decide (ro_needed router = [])) then Some (recoverable ErrCodeIntegrityFail "pack is shorter than its index")
   else match readTrailer (eh_fileKey head) (ks_Version (ia_keys ia)) s with
   | (IErr e, _) => Some e
   | (IOk ti, _) =>
       if negb (bytes_eqb (ComputeHMAC (eh_fileKey head) plain) (ti_hmac ti)) || negb (ti_size ti =? u64 (len plain))
       then Some (recoverable ErrCodeIntegrityFail "pack HMAC mismatch") else None
   end end end, ro_st router)
  end end end.

(** The chunks of [needed] with their locations. *)
Definition locate (chunks : list chunkLocation) (ns : list Z) : option (list (Z * chunkLocation)) :=
  mapM (fun n => c ← chunks !! Z.to_nat n; Some (n, c)) ns.

(** A pack that failed fails every file that needs it. *)
Definition fail_targets (e : ArchiveError) (targets : list chunkTarget) (restores : list restoreFile) : list restoreFile :=
  fold_left (fun rs tg => alter (fun rf => match rf_err rf with None => set_err e rf | Some _ => rf end) (tg_file tg) rs) targets restores.

Fixpoint restore_packs (ra : bytes) (size : Z) (ia : incrementalArchive) (idKey : bytes) (located : list (Z * chunkLocation)) (packs : list Z)
  (targets : gmap Z (list chunkTarget)) (x : restoring) : restoring :=
  match packs with
  | [] => x
  | p :: packs =>
      let needed := stable_sort (fun a b => cl_offset (snd a) <? cl_offset (snd b))
                      (List.filter (fun y => cl_packOffset (snd y) =? p) located) in
      let '(err, x) := restorePack ra size ia idKey p needed targets x in
      let x := match err with
               | None => x
               | Some e => (fst x, fail_targets e (concat (map (fun y => default [] (targets !! fst y)) needed)) (snd x))
               end in
      restore_packs ra size ia idKey located packs targets x
  end.

(** ** Publishing *)

Definition publishRestore (rf : restoreFile) (t : outputTree R) : option ArchiveError * outputTree R :=
  match act (OpenFile (rf_tmp rf)) t with
  | (Err _, t) => (Some (recoverable ErrCodeWriteFailed "write file"), t)
  | (Ok _, t) =>
      match tree_publish (rf_tmp rf) (rf_local rf) (Some (fv_Attributes (rf_version rf))) 0 t with
      | (Err _, t) => (Some (recoverable ErrCodeWriteFailed "write file"), snd (act (CloseFile (rf_tmp rf)) t))
      | (Ok _, t) => (None, t)
      end
  end.

(** The results, and the temporary files left to remove. *)
Fixpoint publishRestores (restores : list restoreFile) (t : outputTree R) : list ExtractionResult * list bytes * outputTree R :=
  match restores with
  | [] => ([], [], t)
  | rf :: restores =>
      let name := fv_Name (rf_version rf) in
      let '(err, t) :=
        match rf_err rf with
        | Some e => (Some e, t)
        | None => if negb (rf_pending rf =? 0) then (Some (recoverable ErrCodeIntegrityFail "file is missing chunks"), t)
                  else publishRestore rf t
        end in
      let '(rs, temps, t) := publishRestores restores t in
      match err with
      | Some e => (mk_xr name 0 false (Some e) :: rs, (if bytes_eqb (rf_tmp rf) [] then temps else rf_tmp rf :: temps), t)
      | None => (mk_xr name (i64 (fv_Size (rf_version rf))) true None :: rs, temps, t)
      end
  end.

Definition remove_temps (temps : list bytes) (t : outputTree R) : outputTree R := fold_left (fun t p => snd (act (Remove p) t)) temps t.

(** [extractIncremental], after [openIncremental]. *)
Definition extractIncremental (ra : bytes) (size : Z) (ia : incrementalArchive) (t : outputTree R) :
  option (iores (list ExtractionResult) * outputTree R) :=
  match prepareRestore ia t with
  | None => None
  | Some (IErr e, t) => Some (IErr e, t)
  | Some (IOk (restores, specials, targets), t) =>
  match locate (ia_chunks ia) (map fst (map_to_list targets)) with
  | None => None
  | Some located =>
  let packs := stable_sort Z.ltb (remove_dups (map (fun y => cl_packOffset (snd y)) located)) in
  match ChunkIDKey (ia_keys ia) with
  | Err _ => Some (IErr (fatal ErrCodeAuthFailed "derive chunk key"),
                   remove_temps (List.filter (fun p => negb (bytes_eqb p [])) (map rf_tmp restores)) t)
  | Ok idKey =>
  let '(t, restores) := restore_packs ra size ia idKey located packs targets (t, restores) in
  let '(rs, temps, t) := publishRestores restores t in
  let '(rs', t) := restoreSpecial specials t in
  Some (IOk (rs ++ rs'), remove_temps temps t)
  end end end.
End Restore.
