(* ===== verification/RestoreFiles.v ===== *)
(** * Temporary files of a restore

    What the system calls do to file contents ([FileRoot], the part of a file system a
    restore relies on), and how a file is assembled by writing its chunks at their offsets
    in any order. *)

From S2P Require Import Prelude Bytes Names Attributes Metadata IndexCodec Crypto Codec Frames.
From S2P Require Import Checksum Writer Signatures IOErrors SolidPlan Extractor OutputTree Incremental Packs Restore.
Open Scope go_scope.

(** ** Contents *)

Definition patch (c : bytes) (off : Z) (d : bytes) : bytes :=
  ztake off (c ++ replicate (Z.to_nat (off - len c)) Byte.x00) ++ d ++ zdrop (off + len d) c.

(** The files a call can change or create. *)
Definition touched (c : call) : list bytes :=
  match c with
  | CreateExcl p | WriteTo p _ | WriteToAt p _ _ | Remove p | Symlink _ p => [p]
  | Rename a b => [a; b]
  | Link _ b => [b]
  | _ => []
  end.

(** A directory without symbolic links to directories: each path is its own file. *)
Class FileRoot (R : Type) `{RT : !Root R} := {
  content : R -> bytes -> option bytes;
  fr_other : forall c s p, p ∉ touched c -> content (snd (perform c s)) p = content s p;
  fr_create : forall p s z, fst (perform (CreateExcl p) s) = Ok z -> z <> 1 ->
    content s p = None /\ content (snd (perform (CreateExcl p) s)) p = Some [];
  fr_excl : forall p s c, content s p = Some c -> content (snd (perform (CreateExcl p) s)) p = Some c;
  fr_writeAt : forall p d off s z c, 0 <= off -> fst (perform (WriteToAt p d off) s) = Ok z -> content s p = Some c ->
    content (snd (perform (WriteToAt p d off) s)) p = Some (patch c off d);
  fr_rename : forall a b s z, fst (perform (Rename a b) s) = Ok z -> content (snd (perform (Rename a b) s)) b = content s a
}.

(** ** Slices of a patched file *)

Definition slice (o l : Z) (c : bytes) : bytes := ztake l (zdrop o c).

Lemma zdrop_ge {X} n (l : list X) : len l <= n -> zdrop n l = [].
Proof. intros Hl. unfold zdrop, len in *. apply drop_ge. lia. Qed.

Lemma len_patch c o d : 0 <= o -> len (patch c o d) = Z.max (len c) (o + len d).
Proof.
  intros Ho. unfold patch. pose proof (len_nonneg c). pose proof (len_nonneg d). rewrite !len_app, len_ztake by (rewrite len_app, len_replicate; lia).
  destruct (Z.le_gt_cases (o + len d) (len c)) as [Hl|Hl]; [rewrite len_zdrop by lia; lia|]. rewrite zdrop_ge by lia. change (len []) with 0. lia.
Qed.

Lemma patch_same c o d : 0 <= o -> slice o (len d) (patch c o d) = d.
Proof.
  intros Ho. unfold slice, patch. pose proof (len_nonneg c). rewrite zdrop_app by (rewrite len_ztake; [done|rewrite len_app, len_replicate; lia]). by apply ztake_app.
Qed.

Lemma patch_other c o d o' l : 0 <= o -> 0 <= o' -> 0 <= l -> o' + l <= len c -> o' + l <= o \/ o + len d <= o' ->
  slice o' l (patch c o d) = slice o' l c.
Proof.
  intros Ho Ho' Hl Hc Hd. assert (exists a s r, c = a ++ s ++ r /\ len a = o' /\ len s = l) as (a & s & r & -> & Ha & Hs).
  { exists (ztake o' c), (slice o' l c), (zdrop l (zdrop o' c)). unfold slice. rewrite !ztake_zdrop, !len_ztake by (rewrite ?len_zdrop; lia). done. }
  pose proof (len_nonneg d). unfold slice. rewrite (zdrop_app o' a), (ztake_app l s) by done. unfold patch. set (z := replicate _ _).
  destruct Hd as [Hd|Hd].
  - replace ((a ++ s ++ r) ++ z) with ((a ++ s) ++ (r ++ z)) by (by rewrite <- !app_assoc). rewrite ztake_app_ge by (rewrite len_app; lia).
    rewrite <- !app_assoc. rewrite zdrop_app, ztake_app by done. done.
  - rewrite <- app_assoc, ztake_app_le, (zdrop_app_le (o + len d) a) by lia. rewrite !app_assoc, <- (app_assoc _ s r). rewrite zdrop_app; [by apply ztake_app|].
    rewrite !len_app, len_ztake, len_zdrop by lia. lia.
Qed.

(** ** Assembling a file *)

(** Where the chunks of a file go: [ns] are chunk numbers, [raw n] their sizes. *)
Section Assemble.
Context (raw : Z -> Z) (Hraw : forall n, 0 <= raw n).

Fixpoint total (ns : list Z) : Z := match ns with [] => 0 | n :: ns => raw n + total ns end.

(** The offsets in a file at which chunk [n] belongs, from [o] on. *)
Fixpoint positions (n : Z) (ns : list Z) (o : Z) : list Z :=
  match ns with
  | [] => []
  | m :: ns => if m =? n then o :: positions n ns (o + raw m) else positions n ns (o + raw m)
  end.

Lemma total_nonneg ns : 0 <= total ns.
Proof. induction ns as [|n ns IH]; cbn [total]; [lia|]. specialize (Hraw n). lia. Qed.

(** The chunks in [D] are in place: [c] is the file, written from [o] on. *)
Fixpoint placed (D : gmap Z bytes) (ns : list Z) (o : Z) (c : bytes) : Prop :=
  match ns with
  | [] => True
  | n :: ns => match D !! n with Some d => slice o (raw n) c = d /\ o + raw n <= len c | None => True end /\ placed D ns (o + raw n) c
  end.

Lemma placed_nil ns : forall o c, placed ∅ ns o c.
Proof. induction ns as [|n ns IH]; intros o c; cbn [placed]; [done|]. rewrite lookup_empty. split; [done|apply IH]. Qed.

(** Writing outside the file's range from [o] on changes nothing there. *)
Lemma placed_patch D p d : forall ns o c, 0 <= o -> 0 <= p -> p + len d <= o -> placed D ns o c -> placed D ns o (patch c p d).
Proof.
  induction ns as [|n ns IH]; intros o c Ho Hp Hd; cbn [placed]; [done|]. intros [H1 H2]. specialize (Hraw n). split; [|apply IH; [lia..|done]].
  destruct (D !! n) as [x|]; [|done]. destruct H1 as [H1 H1']. split; [rewrite patch_other by (done || lia); done|]. rewrite len_patch by done. lia.
Qed.

Definition patches (c : bytes) (d : bytes) (os : list Z) : bytes := fold_left (fun c o => patch c o d) os c.

Lemma positions_ge n ns : forall o, Forall (fun p => o <= p /\ p + raw n <= o + total ns) (positions n ns o).
Proof.
  induction ns as [|m ns IH]; intros o; cbn [positions total]; [constructor|]. pose proof (Hraw m). pose proof (Hraw n). pose proof (total_nonneg ns).
  assert (Forall (fun p => o <= p /\ p + raw n <= o + (raw m + total ns)) (positions n ns (o + raw m))) as Hf.
  { eapply Forall_impl; [apply IH|]. intros p. cbv beta. lia. }
  destruct (Z.eqb_spec m n) as [->|]; [|done]. constructor; [lia|done].
Qed.

Lemma patches_len d os : forall c m, Forall (fun p => 0 <= p /\ p + len d <= m) os -> len c <= m -> len c <= len (patches c d os) <= m.
Proof.
  induction os as [|o os IH]; intros c m Hf Hc; cbn [patches fold_left]; [lia|]. apply Forall_cons in Hf as [[Ho Hm] Hf].
  specialize (IH (patch c o d) m Hf). rewrite len_patch in IH by done. unfold patches in *. lia.
Qed.

(** Later writes at or above [o + l] leave the slice before them. *)
Lemma patches_below d os : forall c o l, 0 <= o -> 0 <= l -> o + l <= len c -> Forall (fun p => o + l <= p) os -> slice o l (patches c d os) = slice o l c.
Proof.
  induction os as [|p os IH]; intros c o l Ho Hl Hc Hf; cbn [patches fold_left]; [done|]. apply Forall_cons in Hf as [Hp Hf].
  fold (patches (patch c p d) d os). rewrite IH by (try done; rewrite ?len_patch; lia). apply patch_other; lia.
Qed.

Lemma placed_patches_below D d os : forall c ns o, 0 <= o -> Forall (fun p => 0 <= p /\ p + len d <= o) os -> placed D ns o c -> placed D ns o (patches c d os).
Proof.
  induction os as [|p os IH]; intros c ns o Ho Hf Hp; cbn [patches fold_left]; [done|]. apply Forall_cons in Hf as [[Hp0 Hpd] Hf].
  apply IH; [done|done|]. by apply placed_patch.
Qed.

(** Writing chunk [n] everywhere it belongs puts it in place and keeps the others. *)
Lemma placed_deliver D n d : len d = raw n -> D !! n = None -> forall ns o c, 0 <= o -> placed D ns o c ->
  placed (<[n := d]> D) ns o (patches c d (positions n ns o)).
Proof.
  intros Hd Hn. induction ns as [|m ns IH]; intros o c Ho Hp; cbn [placed positions]; [done|]. cbn [placed] in Hp. destruct Hp as [H1 H2].
  pose proof (Hraw m). pose proof (positions_ge n ns (o + raw m)) as Hge.
  assert (Forall (fun p => o + raw m <= p) (positions n ns (o + raw m))) as Hb by (eapply Forall_impl; [exact Hge|]; intros p; cbv beta; lia).
  assert (forall p, 0 <= p -> p + len d <= o + raw m -> placed D ns (o + raw m) (patch c p d)) as Hpp by (intros p Hp0 Hpd; apply placed_patch; [lia..|done]).
  destruct (Z.eqb_spec m n) as [->|Hne].
  - rewrite lookup_insert_eq. change (patches c d (o :: positions n ns (o + raw n))) with (patches (patch c o d) d (positions n ns (o + raw n))).
    assert (o + raw n <= len (patch c o d)) as Hl by (rewrite len_patch; lia). split; [|apply IH; [lia|apply Hpp; lia]]. split.
    + rewrite patches_below by (done || lia). rewrite <- Hd. by apply patch_same.
    + pose proof (patches_len d (positions n ns (o + raw n)) (patch c o d) (Z.max (len (patch c o d)) (o + raw n + total ns))). pose proof (total_nonneg ns).
      assert (Forall (fun p => 0 <= p /\ p + len d <= Z.max (len (patch c o d)) (o + raw n + total ns)) (positions n ns (o + raw n))) as Hf
        by (eapply Forall_impl; [exact Hge|]; intros p; cbv beta; lia). specialize (H0 Hf ltac:(lia)). lia.
  - rewrite lookup_insert_ne by done. split; [|by apply IH; [lia|]]. destruct (D !! m) as [x|]; [|done]. destruct H1 as [H1 H1'].
    split; [rewrite patches_below by (done || lia); done|]. pose proof (total_nonneg ns).
    assert (Forall (fun p => 0 <= p /\ p + len d <= Z.max (len c) (o + raw m + total ns)) (positions n ns (o + raw m))) as Hf
        by (eapply Forall_impl; [exact Hge|]; intros p; cbv beta; lia).
    pose proof (patches_len d (positions n ns (o + raw m)) c _ Hf ltac:(lia)). lia.
Qed.

(** The chunks of the file that are not in [D]. *)
Definition missing (D : gmap Z bytes) (ns : list Z) : Z := len (filter (fun n => D !! n = None) ns).

Lemma missing_deliver D n d ns o : D !! n = None -> missing (<[n := d]> D) ns = missing D ns - len (positions n ns o).
Proof.
  intros Hn. unfold missing. revert o. induction ns as [|m ns IH]; intros o; cbn [positions]; [done|]. rewrite !filter_cons. specialize (IH (o + raw m)).
  destruct (Z.eqb_spec m n) as [->|Hne].
  - rewrite decide_False by (by rewrite lookup_insert_eq). rewrite decide_True by done. rewrite !len_cons, IH. lia.
  - rewrite lookup_insert_ne by done. case_decide; [rewrite !len_cons, IH; lia|exact IH].
Qed.

(** A file with every chunk in place and nothing after the last. *)
Lemma assembled D : forall ns o c, 0 <= o -> missing D ns = 0 -> placed D ns o c -> len c <= o + total ns ->
  exists parts, Forall2 (fun n part => D !! n = Some part) ns parts /\ zdrop o c = concat parts.
Proof.
  induction ns as [|n ns IH]; intros o c Ho Hm Hp Hl; cbn [placed total] in *.
  - exists []. split; [constructor|]. apply zdrop_ge. lia.
  - unfold missing in Hm. rewrite filter_cons in Hm. case_decide as Hd; [rewrite len_cons in Hm; len_lia|]. destruct (D !! n) as [d|] eqn:E; [|done].
    destruct Hp as [[Hs Hle] Hp]. pose proof (Hraw n). destruct (IH (o + raw n) c ltac:(lia) Hm Hp ltac:(lia)) as (parts & Hf & Hc).
    exists (d :: parts). split; [by constructor|]. cbn [concat]. rewrite <- Hc, <- Hs. unfold slice. rewrite <- zdrop_zdrop by lia. symmetry. apply ztake_zdrop.
Qed.
End Assemble.
