(* ===== verification/RestoreProofs.v ===== *)
(** * A restored file is what its chunks say

    The invariant of a restore, over any archive bytes and any failing system calls: the
    chunks delivered so far, each checked against its keyed ID, are in place in every file
    that has not failed. A file that is published is the concatenation of such chunks. *)

From S2P Require Import Prelude Bytes Names Attributes Metadata IndexCodec Crypto Codec Frames.
From S2P Require Import Checksum Writer Signatures IOErrors SolidPlan Extractor OutputTree OutputProofs Incremental Packs Restore RestoreFiles.
Open Scope go_scope.

Lemma not_single {X} (p q : X) : p <> q -> p ∉ [q].
Proof. intros Hne Hin%list_elem_of_singleton. done. Qed.

Section Tracking.
Context {R : Type} `{RT : !Root R} `{FR : !FileRoot R}.

Definition tc (t : outputTree R) (p : bytes) : option bytes := content (ot_root t) p.

Lemma act_root c t : snd (perform c (ot_root t)) = ot_root (snd (act c t)) /\ fst (perform c (ot_root t)) = fst (act c t).
Proof. unfold act. by destruct (perform c (ot_root t)). Qed.

Lemma act_other c t p : p ∉ touched c -> tc (snd (act c t)) p = tc t p.
Proof. intros Hp. unfold tc. destruct (act_root c t) as [<- _]. by apply fr_other. Qed.

Lemma act_quiet c t r t' p : act c t = (r, t') -> touched c = [] -> tc t' p = tc t p.
Proof. intros E Hc. pose proof (act_other c t p) as Ho. rewrite E, Hc in Ho. apply Ho, not_elem_of_nil. Qed.

Lemma act_away c t r t' p : act c t = (r, t') -> p ∉ touched c -> tc t' p = tc t p.
Proof. intros E Hp. pose proof (act_other c t p Hp) as Ho. by rewrite E in Ho. Qed.

Lemma warnOnce_tc m t p : tc (warnOnce m t) p = tc t p.
Proof. unfold warnOnce. by destruct (existsb _ _). Qed.

Lemma warn_unless_tc local m c t p : touched c = [] -> tc (warn_unless local m (act c t)) p = tc t p.
Proof. intros Hc. destruct (act c t) as [[?|?] t'] eqn:E; exact (act_quiet _ _ _ _ p E Hc). Qed.

Lemma writeXattrs_tc f xs p : forall t, tc (snd (writeXattrs f xs t)) p = tc t p.
Proof.
  induction xs as [|x xs IH]; intros t; cbn [writeXattrs]; [done|]. destruct (act _ t) as [r t1] eqn:E. pose proof (act_quiet _ _ _ _ p E eq_refl) as H1.
  specialize (IH t1). destruct (writeXattrs f xs t1) as [failed t2]. cbn [snd] in *. congruence.
Qed.

Lemma restoreOwnership_tc o chown t p : (forall u g, touched (chown u g) = []) -> tc (restoreOwnership o chown t) p = tc t p.
Proof.
  intros Hc. unfold restoreOwnership. destruct o as [o|]; [|done]. destruct (negb _); [apply warnOnce_tc|].
  destruct (act _ t) as [[?|?] t1] eqn:E; pose proof (act_quiet _ _ _ _ p E (Hc _ _)) as H1; [done|]. by rewrite warnOnce_tc.
Qed.

Lemma applyAttributes_tc f local attrs perm t p : tc (applyAttributes f local attrs perm t) p = tc t p.
Proof.
  unfold applyAttributes. destruct attrs as [a|]; [|by apply warn_unless_tc]. pose proof (writeXattrs_tc f (Xattrs a) p t) as H1.
  destruct (writeXattrs f (Xattrs a) t) as [failed t1]. cbn [snd] in H1. set (t2 := if 0 <? failed then _ else t1).
  assert (tc t2 p = tc t p) as H2 by (unfold t2; by destruct (0 <? failed)).
  assert (tc (restoreOwnership (attr_Owner a) (Chown f) t2) p = tc t p) as H3 by (by rewrite restoreOwnership_tc).
  set (t3 := restoreOwnership _ _ t2) in *. assert (tc (snd (tree_mode (Mode a) t3)) p = tc t p) as H4 by (unfold tree_mode; destruct (_ && _); cbn [snd]; [by rewrite warnOnce_tc|done]).
  destruct (tree_mode (Mode a) t3) as [mode t4]. cbn [snd] in H4. by rewrite warn_unless_tc.
Qed.

Lemma setModTime_tc local m t p : tc (setModTime local m t) p = tc t p.
Proof. unfold setModTime. destruct (_ =? _); [done|]. by apply warn_unless_tc. Qed.

Lemma prepare_tc name t r t' p : prepare name t = (r, t') -> tc t' p = tc t p.
Proof.
  unfold prepare. destruct (localName name) as [local|e]; [|by intros [= <- <-]].
  assert (tc (snd (tree_open t)) p = tc t p) as Ho.
  { unfold tree_open. destruct (ot_opened t); [done|]. destruct (act MkdirOutput t) as [[?|?] t1] eqn:E1; pose proof (act_quiet _ _ _ _ p E1 eq_refl) as H1; [|done].
    destruct (act OpenRoot t1) as [[?|?] t2] eqn:E2; pose proof (act_quiet _ _ _ _ p E2 eq_refl) as H2; cbn [snd]; unfold set_opened, tc in *; cbn in *; congruence. }
  destruct (tree_open t) as [[u|e] t1]; cbn [snd] in Ho; [|by intros [= <- <-]]. destruct (bytes_eqb _ _); [by intros [= <- <-]|].
  destruct (act _ t1) as [[?|?] t2] eqn:E2; pose proof (act_quiet _ _ _ _ p E2 eq_refl) as H2; intros [= <- <-]; congruence.
Qed.

Lemma prepare_local name t local t' : prepare name t = (IOk local, t') -> local = name /\ ValidEntryName name = true.
Proof.
  unfold prepare. destruct (localName name) as [l|e] eqn:El; [|done]. assert (ValidEntryName name = true) as Hv.
  { unfold localName in El. by destruct (ValidEntryName name). }
  apply localName_inside in El as [_ ->]. destruct (tree_open t) as [[u|e] t1]; [|done]. destruct (bytes_eqb _ _); [intros E; apply (f_equal fst) in E; by apply IOk_inj in E|].
  destruct (act _ t1) as [[?|?] t2]; [|done]. intros E; apply (f_equal fst) in E; by apply IOk_inj in E.
Qed.

(** A new temporary file is empty, and was not there before. *)
Lemma temp_loop_tc parent : forall n t r t', temp_loop n parent t = (r, t') ->
  (forall p c, tc t p = Some c -> tc t' p = Some c) /\
  forall tmp, r = IOk tmp -> tc t' tmp = Some [] /\ tc t tmp = None /\ exists suffix, tmp = path_Join parent (tempFilePrefix ++ EncodeToString suffix).
Proof.
  induction n as [|n IH]; intros t r t' E; cbn [temp_loop] in E; [by injection E as <- <-|]. destruct (draw 8 (ot_rng t)) as [suffix rg].
  set (tmp := path_Join parent _) in *. set (t0 := set_rng rg t) in *. destruct (act (CreateExcl tmp) t0) as [r1 t1] eqn:Ea.
  destruct (act_root (CreateExcl tmp) t0) as [Hr1 Hr2]. rewrite Ea in Hr1, Hr2. cbn [fst snd] in Hr1, Hr2.
  assert (forall p c, tc t p = Some c -> tc t1 p = Some c) as Hkeep.
  { intros p c Hp. destruct (decide (p = tmp)) as [->|Hne].
    - unfold tc. rewrite <- Hr1. by apply fr_excl.
    - rewrite (act_away _ _ _ _ p Ea) by (by apply not_single). exact Hp. }
  destruct r1 as [taken|er]; [|by injection E as <- <-]. destruct (Z.eqb_spec taken 1) as [->|Hne].
  - destruct (IH t1 r t' E) as [H1 H2]. split; [intros p c Hp; by apply H1, Hkeep|]. intros tmp' Htmp. destruct (H2 tmp' Htmp) as (Hc & Hn & Hs). split; [done|]. split; [|done].
    destruct (tc t tmp') as [c|] eqn:Ec; [|done]. apply Hkeep in Ec. congruence.
  - injection E as <- <-. split; [done|]. intros tmp' Htmp. apply IOk_inj in Htmp. subst tmp'.
    destruct (fr_create tmp (ot_root t0) taken Hr2 Hne) as [Hn Hc]. rewrite Hr1 in Hc. split; [exact Hc|]. split; [exact Hn|]. by exists suffix.
Qed.

Lemma createTemp_tc name t r t' : createTemp name t = (r, t') ->
  (forall p c, tc t p = Some c -> tc t' p = Some c) /\
  forall tmp local, r = IOk (tmp, local) -> local = name /\ tc t' tmp = Some [] /\ tc t tmp = None /\
    exists suffix, tmp = path_Join (path_Dir name) (tempFilePrefix ++ EncodeToString suffix).
Proof.
  unfold createTemp. destruct (prepare name t) as [[l|e] t1] eqn:Ep.
  - destruct (prepare_local _ _ _ _ Ep) as [-> _]. destruct (temp_loop _ _ t1) as [r2 t2] eqn:Et. destruct (temp_loop_tc _ _ _ _ _ Et) as [H1 H2].
    assert (forall p c, tc t p = Some c -> tc t2 p = Some c) as Hk by (intros p c Hp; apply H1; rewrite (prepare_tc _ _ _ _ p Ep); exact Hp).
    destruct r2 as [tmp|e]; intros [= <- <-]; (split; [done|]); [|done]. intros tmp' local' Heq. apply IOk_inj in Heq. injection Heq as <- <-.
    destruct (H2 tmp eq_refl) as (Ha & Hb & Hc). split; [done|]. split; [done|]. split; [|done]. rewrite <- (prepare_tc _ _ _ _ tmp Ep). exact Hb.
  - intros [= <- <-]. split; [|done]. intros p c Hp. by rewrite (prepare_tc _ _ _ _ p Ep).
Qed.

Lemma writeAtTemp_tc tmp d off t ok t' : writeAtTemp tmp d off t = (ok, t') -> 0 <= off ->
  (forall p, p <> tmp -> tc t' p = tc t p) /\ (ok = true -> forall c, tc t tmp = Some c -> tc t' tmp = Some (patch c off d)).
Proof.
  intros E Hoff. unfold writeAtTemp in E. destruct (act (OpenFile tmp) t) as [[?|?] t1] eqn:E1; [|injection E as <- <-; split; [intros p _; exact (act_quiet _ _ _ _ p E1 eq_refl)|done]].
  destruct (act (WriteToAt tmp d off) t1) as [r2 t2] eqn:E2. destruct (act_root (WriteToAt tmp d off) t1) as [Hr1 Hr2]. rewrite E2 in Hr1, Hr2. cbn [fst snd] in Hr1, Hr2.
  assert (forall p, p <> tmp -> tc t2 p = tc t p) as Ho.
  { intros p Hp. rewrite (act_away _ _ _ _ p E2) by (by apply not_single). exact (act_quiet _ _ _ _ p E1 eq_refl). }
  destruct (act (CloseFile tmp) t2) as [r3 t3] eqn:E3. assert (forall p, tc t3 p = tc t2 p) as Hc by (intros p; exact (act_quiet _ _ _ _ p E3 eq_refl)).
  assert (t' = t3 /\ (ok = true -> exists z, r2 = Ok z)) as [-> Hok].
  { destruct r2 as [z|e]; [|injection E as <- <-; done]. destruct r3; injection E as <- <-; (split; [done|]); [by exists z|done]. }
  split; [intros p Hp; rewrite Hc; by apply Ho|]. intros Ht c Hct. destruct (Hok Ht) as [z ->]. rewrite Hc. unfold tc at 1. rewrite <- Hr1.
  eapply fr_writeAt; [done|exact Hr2|]. pose proof (act_quiet _ _ _ _ tmp E1 eq_refl) as Hq. unfold tc in *. congruence.
Qed.

Lemma publish_tc tmp local attrs perm t r t' : tree_publish tmp local attrs perm t = (r, t') ->
  (forall p, p <> tmp -> p <> local -> tc t' p = tc t p) /\ (r = Ok tt -> tc t' local = tc t tmp).
Proof.
  unfold tree_publish. intros E. pose proof (applyAttributes_tc tmp local attrs perm t) as Ha. set (t0 := applyAttributes _ _ _ _ t) in *.
  destruct (act (CloseFile tmp) t0) as [[?|?] t1] eqn:E1; pose proof (fun p => act_quiet _ _ _ _ p E1 eq_refl) as H1; [|injection E as <- <-; split; [intros p _ _; congruence|done]].
  destruct (act (Rename tmp local) t1) as [r2 t2] eqn:E2. destruct (act_root (Rename tmp local) t1) as [Hr1 Hr2]. rewrite E2 in Hr1, Hr2. cbn [fst snd] in Hr1, Hr2.
  assert (forall p, p <> tmp -> p <> local -> tc t2 p = tc t p) as Ho.
  { intros p Hp Hl. rewrite (act_away _ _ _ _ p E2); [congruence|]. cbn [touched]. intros [|[|?%elem_of_nil]%elem_of_cons]%elem_of_cons; done. }
  destruct r2 as [z|e]; injection E as <- <-; [|split; [exact Ho|done]].
  assert (forall p, tc (match attrs with Some a => setModTime local (ModTime a) t2 | None => t2 end) p = tc t2 p) as Hm by (intros p; destruct attrs; [apply setModTime_tc|done]).
  split; [intros p Hp Hl; rewrite Hm; by apply Ho|]. intros _. rewrite Hm. unfold tc at 1. rewrite <- Hr1, (fr_rename _ _ _ _ Hr2). fold (tc t1 tmp). congruence.
Qed.

Lemma removeExisting_tc local t p : p <> local -> tc (removeExisting local t) p = tc t p.
Proof.
  intros Hp. unfold removeExisting. destruct (act (Lstat local) t) as [[d|?] t1] eqn:E; pose proof (act_quiet _ _ _ _ p E eq_refl) as H1; [|done].
  destruct (d =? 1); [done|]. rewrite act_other; [done|]. by apply not_single.
Qed.

Lemma special_tc name attrs t p : p <> name -> tc (snd (special name attrs t)) p = tc t p.
Proof.
  intros Hp. unfold special, directory, symlink, hardlink.
  assert (forall k : bytes -> outputTree R -> iores unit * outputTree R, (forall t, tc (snd (k name t)) p = tc t p) ->
    tc (snd (match prepare name t with (IErr e, t) => (IErr e, t) | (IOk local, t) => k local t end)) p = tc t p) as Hk.
  { intros k Hk. destruct (prepare name t) as [[local|e] t1] eqn:E; pose proof (prepare_tc _ _ _ _ p E) as H1; [|exact H1]. destruct (prepare_local _ _ _ _ E) as [-> _].
    rewrite Hk. exact H1. }
  destruct (Kind attrs =? KindDirectory); [|destruct (Kind attrs =? KindSymlink); [|destruct (Kind attrs =? KindHardlink); [|done]]].
  - apply Hk. intros t1. destruct (act _ t1) as [[?|?] t2] eqn:E; exact (act_quiet _ _ _ _ p E eq_refl).
  - apply Hk. intros t1. destruct (act _ (removeExisting name t1)) as [[?|?] t2] eqn:E; cbn [snd]; rewrite ?restoreOwnership_tc by done;
      rewrite (act_away _ _ _ _ p E) by (by apply not_single); by apply removeExisting_tc.
  - destruct (localName (LinkTarget attrs)) as [target|e]; [|done]. apply Hk. intros t1. destruct (act _ (removeExisting name t1)) as [[?|?] t2] eqn:E; cbn [snd];
      rewrite (act_away _ _ _ _ p E) by (by apply not_single); by apply removeExisting_tc.
Qed.
End Tracking.

(** ** Delivering a chunk *)

Definition offsets_of (i : nat) (tgs : list chunkTarget) : list Z := map tg_offset (List.filter (fun tg => Nat.eqb (tg_file tg) i) tgs).

Definition same_file (rf rf' : restoreFile) : Prop :=
  rf_version rf' = rf_version rf /\ rf_local rf' = rf_local rf /\ rf_tmp rf' = rf_tmp rf /\ (rf_err rf' = None -> rf_err rf = None).

#[local] Instance same_file_preorder : PreOrder same_file.
Proof. split; [by intros rf|]. intros a b c (? & ? & ? & ?) (? & ? & ? & ?). unfold same_file. split_and!; [congruence..|tauto]. Qed.

(** The files that have not failed have different temporary files. *)
Definition distinct (rs : list restoreFile) : Prop :=
  forall i j rf rf', rs !! i = Some rf -> rs !! j = Some rf' -> rf_err rf = None -> rf_err rf' = None -> rf_tmp rf = rf_tmp rf' -> i = j.

Lemma distinct_same rs rs' : (forall i rf', rs' !! i = Some rf' -> exists rf, rs !! i = Some rf /\ same_file rf rf') -> distinct rs -> distinct rs'.
Proof.
  intros Hs Hd i j rf rf' Hi Hj He He' Ht. destruct (Hs _ _ Hi) as (rf1 & H1 & _ & _ & Ht1 & Hn1), (Hs _ _ Hj) as (rf2 & H2 & _ & _ & Ht2 & Hn2).
  apply (Hd i j rf1 rf2); auto; congruence.
Qed.

Section Deliver.
Context `{C : Crypto} `{ZS : Zstd} {R : Type} `{RT : !Root R} `{FR : !FileRoot R}.

(** What became of each file when chunk [d] was written at [tgs]. *)
Definition delivered (d : bytes) (tgs : list chunkTarget) (x x' : restoring (R := R)) : Prop :=
  length (snd x') = length (snd x) /\
  forall i rf', snd x' !! i = Some rf' -> exists rf, snd x !! i = Some rf /\ same_file rf rf' /\
    (rf_err rf' = None -> rf_pending rf' = rf_pending rf - len (offsets_of i tgs) /\
      forall c, tc (fst x) (rf_tmp rf) = Some c -> tc (fst x') (rf_tmp rf) = Some (patches c d (offsets_of i tgs))).

Lemma delivered_step d tg x : distinct (snd x) -> 0 <= tg_offset tg -> delivered d [tg] x (write_target d x tg).
Proof.
  intros Hd Ho. unfold write_target. destruct x as [t rs]. cbn [fst snd] in *.
  assert (forall i, i <> tg_file tg -> offsets_of i [tg] = []) as Hnone by (intros i Hi; unfold offsets_of; cbn [List.filter]; by rewrite (proj2 (Nat.eqb_neq _ _)) by done).
  assert (offsets_of (tg_file tg) [tg] = [tg_offset tg]) as Hone by (unfold offsets_of; cbn [List.filter]; by rewrite Nat.eqb_refl).
  destruct (rs !! tg_file tg) as [rf|] eqn:Erf.
  2:{ split; [done|]. intros i rf' Hi. cbn [snd] in Hi. exists rf'. split; [done|]. split; [done|]. intros _. rewrite Hnone by (intros ->; congruence). change (len []) with 0. split; [lia|done]. }
  destruct (rf_err rf) as [e|] eqn:Ee.
  { split; [done|]. intros i rf' Hi. cbn [snd] in Hi. exists rf'. split; [done|]. split; [done|]. intros He. rewrite Hnone by (intros ->; congruence). change (len []) with 0. split; [lia|done]. }
  destruct (writeAtTemp (rf_tmp rf) d (tg_offset tg) t) as [ok t'] eqn:Ew. destruct (writeAtTemp_tc _ _ _ _ _ _ Ew Ho) as [Hother Hthis].
  split; [cbn [snd]; apply length_insert|]. intros i rf' Hi. cbn [fst snd] in *. destruct (decide (i = tg_file tg)) as [->|Hne].
  - rewrite list_lookup_insert_eq in Hi by (by apply lookup_lt_is_Some_1; eexists). injection Hi as <-. exists rf. split; [done|]. rewrite Hone.
    destruct ok; (split; [by split_and!|]); [|done]. intros _. split; [change (len [tg_offset tg]) with 1; cbn [rf_pending]; lia|]. intros c Hc. cbn [patches fold_left]. by apply Hthis.
  - rewrite list_lookup_insert_ne in Hi by done. exists rf'. split; [done|]. split; [done|]. intros He. rewrite Hnone by done. cbn [patches fold_left]. change (len []) with 0. split; [lia|].
    intros c Hc. rewrite Hother; [done|]. intros Ht. apply Hne. by eapply Hd.
Qed.

Lemma delivered_fold d tgs : Forall (fun tg => 0 <= tg_offset tg) tgs -> forall x, distinct (snd x) ->
  delivered d tgs x (fold_left (write_target d) tgs x).
Proof.
  induction 1 as [|tg tgs Ho _ IH]; intros x Hd; cbn [fold_left].
  - split; [done|]. intros i rf' Hi. exists rf'. split; [done|]. split; [done|]. intros _. change (offsets_of i []) with (@nil Z). change (len []) with 0. split; [lia|done].
  - destruct (delivered_step d tg x Hd Ho) as [Hl1 H1]. assert (distinct (snd (write_target d x tg))) as Hd'.
    { eapply distinct_same; [|exact Hd]. intros i rf' Hi. destruct (H1 i rf' Hi) as (rf & Hrf & Hs & _). by exists rf. }
    destruct (IH (write_target d x tg) Hd') as [Hl2 H2]. split; [congruence|]. intros i rf' Hi. destruct (H2 i rf' Hi) as (rf1 & Hi1 & Hs1 & He1).
    destruct (H1 i rf1 Hi1) as (rf & Hi0 & Hs0 & He0). exists rf. split; [done|]. split; [by etrans|]. intros He.
    assert (offsets_of i (tg :: tgs) = offsets_of i [tg] ++ offsets_of i tgs) as Hof by (unfold offsets_of; cbn [List.filter]; by destruct (Nat.eqb _ _)).
    destruct (He1 He) as [Hp1 Hc1]. destruct (He0 (proj2 (proj2 (proj2 Hs1)) He)) as [Hp0 Hc0]. rewrite Hof, len_app. split; [lia|]. intros c Hc.
    unfold patches. rewrite fold_left_app. pose proof (proj1 (proj2 (proj2 Hs0))) as Htm. rewrite <- Htm. apply Hc1. rewrite Htm. by apply Hc0.
Qed.
End Deliver.

(** ** The invariant *)

Definition is_temp (p : bytes) : Prop := exists parent suffix, p = path_Join parent (tempFilePrefix ++ EncodeToString suffix).

Section Assembling.
Context `{C : Crypto} `{ZS : Zstd} {R : Type} `{RT : !Root R} `{FR : !FileRoot R}.
Context (chunks : list chunkLocation) (idKey : bytes) (targets : gmap Z (list chunkTarget)) (versions : list FileVersion).
Context (Htargets : forall n, Forall (fun tg => 0 <= tg_offset tg) (default [] (targets !! n))).

Definition raw_len (n : Z) : Z := match chunks !! Z.to_nat n with Some c => Z.max 0 (cl_raw c) | None => 0 end.

Lemma raw_len_nonneg n : 0 <= raw_len n.
Proof. unfold raw_len. destruct (chunks !! Z.to_nat n); lia. Qed.

(** [d] has the size and the keyed ID of chunk [n]. *)
Definition verified (n : Z) (d : bytes) : Prop :=
  exists c, chunks !! Z.to_nat n = Some c /\ len d = cl_raw c /\ ComputeHMAC idKey d = cl_id c.

(** File [rf], number [i], with the chunks of [D] in place. *)
Record file_ok (t : outputTree R) (D : gmap Z bytes) (i : nat) (rf : restoreFile) : Prop := {
  fo_temp : is_temp (rf_tmp rf);
  fo_local : rf_local rf = fv_Name (rf_version rf);
  fo_targets : forall n, offsets_of i (default [] (targets !! n)) = positions raw_len n (fv_Chunks (rf_version rf)) 0;
  fo_pending : rf_pending rf = missing D (fv_Chunks (rf_version rf));
  fo_content : exists c, tc t (rf_tmp rf) = Some c /\ placed raw_len D (fv_Chunks (rf_version rf)) 0 c /\ len c <= total raw_len (fv_Chunks (rf_version rf))
}.

Record assembling (x : restoring (R := R)) (D : gmap Z bytes) : Prop := {
  as_verified : forall n d, D !! n = Some d -> verified n d;
  as_versions : map rf_version (snd x) = versions;
  as_distinct : distinct (snd x);
  as_temps : Forall (fun rf => rf_tmp rf = [] \/ is_temp (rf_tmp rf)) (snd x);
  as_files : forall i rf, snd x !! i = Some rf -> rf_err rf = None -> file_ok (fst x) D i rf
}.

Lemma same_versions (rs rs' : list restoreFile) : length rs' = length rs ->
  (forall i rf', rs' !! i = Some rf' -> exists rf, rs !! i = Some rf /\ rf_version rf' = rf_version rf) -> map rf_version rs' = map rf_version rs.
Proof.
  revert rs. induction rs' as [|rf' rs' IH]; intros [|rf rs] Hl Hs; try done. cbn [map]. f_equal.
  - destruct (Hs 0%nat rf' eq_refl) as (rf0 & Hrf & Hv). injection Hrf as <-. exact Hv.
  - apply IH; [by injection Hl|]. intros i rf1 Hi. exact (Hs (S i) rf1 Hi).
Qed.

(** A delivered chunk was verified, and is in place everywhere it belongs. *)
Lemma deliver_assembling x D n loc stored x' : assembling x D -> D !! n = None -> chunks !! Z.to_nat n = Some loc ->
  deliverChunk loc idKey stored (default [] (targets !! n)) x = IOk x' ->
  exists d, (if cl_codec loc =? CodecZstd then Decompress NewChunkDecompressor stored else Ok stored) = Ok d /\ assembling x' (<[n := d]> D).
Proof.
  intros [Hv Hvs Hd Ht Hf] Hn Hloc. unfold deliverChunk. destruct (if cl_codec loc =? CodecZstd then _ else _) as [d|] eqn:Edec; [|done].
  destruct (_ || _) eqn:Eb; [done|]. intros E. apply IOk_inj in E. subst x'. apply orb_false_iff in Eb as [Eb1 Eb2]. b2p.
  assert (len d = raw_len n) as Hraw by (unfold raw_len; rewrite Hloc; pose proof (len_nonneg d); lia).
  destruct (delivered_fold d _ (Htargets n) x Hd) as [Hlen Hdel]. set (x' := fold_left _ _ x) in *. exists d. split; [done|]. constructor.
  - intros m dm. destruct (decide (n = m)) as [<-|Hne]; [rewrite lookup_insert_eq; intros [= <-]; by exists loc|]. rewrite lookup_insert_ne by done. apply Hv.
  - rewrite <- Hvs. apply same_versions; [exact Hlen|]. intros i rf' Hi. destruct (Hdel i rf' Hi) as (rf & Hrf & (Hsv & _) & _). by exists rf.
  - eapply distinct_same; [|exact Hd]. intros i rf' Hi. destruct (Hdel i rf' Hi) as (rf & Hrf & Hs & _). by exists rf.
  - apply Forall_lookup. intros i rf' Hi. destruct (Hdel i rf' Hi) as (rf & Hrf & (_ & _ & -> & _) & _). rewrite Forall_lookup in Ht. by eapply Ht.
  - intros i rf' Hi He. destruct (Hdel i rf' Hi) as (rf & Hrf & (Hsv & Hsl & Hst & Hse) & Hx). destruct (Hx He) as [Hp Hc].
    destruct (Hf i rf Hrf (Hse He)) as [F1 F2 F3 F4 (c & F5 & F6 & F7)]. pose proof raw_len_nonneg as Hnn. constructor; rewrite ?Hst, ?Hsv, ?Hsl; try done.
    + rewrite Hp, F4, (missing_deliver raw_len D n d _ 0 Hn), F3. done.
    + eexists. split; [by apply Hc|]. rewrite F3. split; [by apply placed_deliver|].
      pose proof (positions_ge raw_len Hnn n (fv_Chunks (rf_version rf)) 0) as Hge.
      apply (patches_len d (positions raw_len n (fv_Chunks (rf_version rf)) 0) c); [|done]. eapply Forall_impl; [exact Hge|]. intros p. cbv beta. lia.
Qed.

(** Failing files keeps the invariant. *)
Lemma fail_targets_same e tgs : forall rs i rf', fail_targets e tgs rs !! i = Some rf' -> exists rf, rs !! i = Some rf /\ same_file rf rf' /\ rf_pending rf' = rf_pending rf.
Proof.
  unfold fail_targets. induction tgs as [|tg tgs IH]; intros rs i rf' Hi; cbn [fold_left] in Hi; [by exists rf'|].
  destruct (IH _ i rf' Hi) as (rf1 & H1 & Hs & Hp). destruct (decide (i = tg_file tg)) as [->|Hne].
  - rewrite list_lookup_alter_eq in H1. destruct (rs !! tg_file tg) as [rf|]; [|done]. injection H1 as <-. exists rf. split; [done|].
    destruct (rf_err rf) eqn:Ee; [done|]. split; [|done]. etrans; [|exact Hs]. by split_and!.
  - rewrite list_lookup_alter_ne in H1 by done. by exists rf1.
Qed.

Lemma fail_targets_length e tgs : forall rs, length (fail_targets e tgs rs) = length rs.
Proof. unfold fail_targets. induction tgs as [|tg tgs IH]; intros rs; cbn [fold_left]; [done|]. rewrite IH. apply length_alter. Qed.

Lemma fail_assembling e tgs x D : assembling x D -> assembling (fst x, fail_targets e tgs (snd x)) D.
Proof.
  intros [Hv Hvs Hd Ht Hf]. pose proof (fail_targets_same e tgs (snd x)) as Hsame. constructor; cbn [fst snd]; try done.
  - rewrite <- Hvs. apply same_versions; [apply fail_targets_length|]. intros i rf' Hi. destruct (Hsame i rf' Hi) as (rf & Hrf & (Hsv & _) & _). by exists rf.
  - eapply distinct_same; [|exact Hd]. intros i rf' Hi. destruct (Hsame i rf' Hi) as (rf & H1 & H2 & _). by exists rf.
  - apply Forall_lookup. intros i rf' Hi. destruct (Hsame i rf' Hi) as (rf & Hrf & (_ & _ & -> & _) & _). rewrite Forall_lookup in Ht. by eapply Ht.
  - intros i rf' Hi He. destruct (Hsame i rf' Hi) as (rf & Hrf & (Hsv & Hsl & Hst & Hse) & Hp). destruct (Hf i rf Hrf (Hse He)).
    constructor; rewrite ?Hst, ?Hsv, ?Hsl, ?Hp; done.
Qed.

(** ** Packs *)

Definition located (y : Z * chunkLocation) : Prop := chunks !! Z.to_nat (fst y) = Some (snd y).

(** The invariant while a router works: the chunks it still needs are not in place yet. *)
Definition routing (D0 : gmap Z bytes) (all : list Z) (x : restoring (R := R)) (rest : list (Z * chunkLocation)) : Prop :=
  exists D, assembling x D /\ NoDup (map fst rest) /\ Forall located rest /\ Forall (fun y => D !! fst y = None) rest /\
    (forall n, is_Some (D !! n) -> is_Some (D0 !! n) \/ n ∈ all) /\ Forall (fun y => fst y ∈ all) rest.

Lemma pack_sink_keeps D0 all key codec deliver :
  (forall x n c rest stored x', routing D0 all x ((n, c) :: rest) -> len stored = cl_stored c -> deliver n stored x = IOk x' -> routing D0 all x' rest) ->
  forall bs st, router_ok (fst st) -> routing D0 all (ro_st (fst st)) (ro_needed (fst st)) ->
  let st' := fst (Extractor.deliver (pack_sink deliver) key codec st bs) in routing D0 all (ro_st (fst st')) (ro_needed (fst st')).
Proof.
  intros Hd. cbv zeta. induction bs as [|b bs IH]; intros st Hok Hi; cbn [Extractor.deliver]; [done|]. destruct (open_block key codec b) as [pt|]; [|done].
  destruct (feed_total deliver pt (fst st) Hok) as (r & Hr & Hok').
  assert (pack_sink deliver st pt = Some (r, snd st ++ pt)) as -> by (unfold pack_sink; by rewrite Hr). apply IH; [done|].
  by apply (feed_invariant deliver (routing D0 all) Hd (S (work pt (fst st))) pt (fst st) r); [|lia|..].
Qed.

Lemma restorePack_assembling ra size ia p needed x D err x' :
  ia_chunks ia = chunks -> assembling x D -> NoDup (map fst needed) -> Forall located needed -> Forall (fun y => D !! fst y = None) needed ->
  Forall (fun y => 1 <= cl_stored (snd y)) needed -> restorePack ra size ia idKey p needed targets x = (err, x') ->
  exists D', assembling x' D' /\ forall n, is_Some (D' !! n) -> is_Some (D !! n) \/ n ∈ map fst needed.
Proof.
  intros Hia Ha Hnd Hloc Hnew Hst. unfold restorePack.
  assert (exists D', assembling x D' /\ forall n, is_Some (D' !! n) -> is_Some (D !! n) \/ n ∈ map fst needed) as Hsame by (exists D; split; [done|by left]).
  destruct (entryReaderAt ra size p) as [|ty s]; [by intros [= <- <-]|]. destruct (negb _); [by intros [= <- <-]|].
  destruct (readEntryHead (ia_keys ia) s) as [[head|e] s1]; [|by intros [= <- <-]]. destruct (skipPadding _ s1) as [[u|e] s2]; [|by intros [= <- <-]].
  set (dl := fun n stored y => match ia_chunks ia !! Z.to_nat n with Some loc => _ | None => _ end).
  assert (forall y n c rest stored y', routing D (map fst needed) y ((n, c) :: rest) -> len stored = cl_stored c -> dl n stored y = IOk y' ->
    routing D (map fst needed) y' rest) as Hstep.
  { intros y n c rest stored y' (D1 & H1 & H2 & H3 & H4 & H5 & H6) _ Hy. apply NoDup_cons in H2 as [Hn H2]. apply Forall_cons in H3 as [Hl H3], H4 as [Hm H4], H6 as [Hin H6].
    unfold located in Hl. cbn [fst snd] in *. unfold dl in Hy. rewrite Hia, Hl in Hy. destruct (deliver_assembling y D1 n c stored y' H1 Hm Hl Hy) as (d & _ & Hd).
    exists (<[n := d]> D1). split; [done|]. split; [done|]. split; [done|]. split.
    - apply Forall_forall. intros z Hz. rewrite lookup_insert_ne; [rewrite Forall_forall in H4; by apply H4|]. intros ->. apply Hn. apply list_elem_of_fmap. by exists z.
    - split; [|done]. intros m Hs. destruct (decide (n = m)) as [<-|Hne]; [by right|]. rewrite lookup_insert_ne in Hs by done. by apply H5. }
  unfold streamDataBlocks. destruct (read_blocks _ s2) as [[bs readErr] rest].
  pose proof (pack_sink_keeps D (map fst needed) (eh_fileKey head) CodecNone dl Hstep bs (newRouter needed x, [])) as Hk.
  cbn [fst newRouter ro_st ro_needed] in Hk. specialize (Hk (router_ok_at needed 0 x Hst)).
  destruct (Extractor.deliver (pack_sink dl) (eh_fileKey head) CodecNone (newRouter needed x, []) bs) as [[router plain] fe]. cbn [fst] in Hk.
  destruct Hk as (D' & H1 & _ & _ & _ & H5 & _).
  { exists D. split; [done|]. split; [done|]. split; [done|]. split; [done|]. split; [by left|]. apply Forall_forall. intros y Hy. apply list_elem_of_fmap. by exists y. }
  intros E. apply (f_equal snd) in E. cbn [snd] in E. subst x'. by exists D'.
Qed.

Lemma NoDup_filter_map {X Y} (f : X -> Y) P (l : list X) : NoDup (map f l) -> NoDup (map f (List.filter P l)).
Proof.
  induction l as [|x l IH]; cbn [map List.filter]; [done|]. intros [Hn Hd]%NoDup_cons. destruct (P x); [|by apply IH]. cbn [map]. constructor; [|by apply IH].
  intros (y & Hy & Hin)%list_elem_of_fmap. apply Hn, list_elem_of_fmap. exists y. split; [done|]. apply list_elem_of_In, filter_In in Hin as [Hin _]. by apply list_elem_of_In.
Qed.

Lemma stable_sort_elem {X} lt (l : list X) x : x ∈ stable_sort lt l <-> x ∈ l.
Proof. by rewrite stable_sort_perm. Qed.

Lemma restore_packs_assembling ra size ia (locs : list (Z * chunkLocation)) : ia_chunks ia = chunks -> Forall located locs ->
  Forall (fun y => 1 <= cl_stored (snd y)) locs -> NoDup (map fst locs) ->
  forall packs x D, NoDup packs -> assembling x D -> Forall (fun y => cl_packOffset (snd y) ∈ packs -> D !! fst y = None) locs ->
  exists D', assembling (restore_packs ra size ia idKey locs packs targets x) D'.
Proof.
  intros Hia Hloc Hst Hnd. induction packs as [|p packs IH]; intros x D Hnp Ha Hnew; cbn [restore_packs]; [by exists D|].
  apply NoDup_cons in Hnp as [Hp Hnp]. set (needed := stable_sort _ (List.filter _ locs)).
  assert (forall y, y ∈ needed <-> y ∈ locs /\ cl_packOffset (snd y) = p) as Hin.
  { intros y. unfold needed. rewrite stable_sort_elem. rewrite list_elem_of_In, filter_In, <- list_elem_of_In. by rewrite Z.eqb_eq. }
  rewrite Forall_forall in Hloc, Hst, Hnew.
  assert (NoDup (map fst needed)) as Hndn.
  { unfold needed. rewrite stable_sort_perm. by apply NoDup_filter_map. }
  destruct (restorePack ra size ia idKey p needed targets x) as [err x'] eqn:Er.
  destruct (restorePack_assembling ra size ia p needed x D err x' Hia Ha Hndn) as (D' & Ha' & HD'); [..|exact Er|].
  - apply Forall_forall. intros y [Hy _]%Hin. by apply Hloc.
  - apply Forall_forall. intros y [Hy Hyp]%Hin. apply Hnew; [done|]. rewrite Hyp. by left.
  - apply Forall_forall. intros y [Hy _]%Hin. by apply Hst.
  - eapply IH with (D := D'); [done|by destruct err; [apply fail_assembling|]|].
    apply Forall_forall. intros y Hy Hyp. destruct (D' !! fst y) as [d|] eqn:Ed; [|done]. exfalso.
    destruct (HD' (fst y) ltac:(by rewrite Ed)) as [[d0 Hd0]|Hn].
    + rewrite (Hnew y Hy) in Hd0; [done|]. by right.
    + apply list_elem_of_fmap in Hn as (z & Hz & [Hzl Hzp]%Hin). assert (y = z) as ->; [|rewrite Hzp in Hyp; done].
      specialize (Hloc y Hy) as Hl1. specialize (Hloc z Hzl) as Hl2. unfold located in *. rewrite Hz in Hl1. destruct y, z; cbn in *. congruence.
Qed.

(** ** Publishing *)

(** Every published file is the concatenation of the chunks delivered, which are verified. *)
Definition made_of (V : Z -> bytes -> Prop) (v : FileVersion) (data : bytes) : Prop := exists parts, Forall2 V (fv_Chunks v) parts /\ data = concat parts.
Definition restored : FileVersion -> bytes -> Prop := made_of verified.


Lemma complete_content V t D i rf : (forall n d, D !! n = Some d -> V n d) -> file_ok t D i rf -> rf_pending rf = 0 ->
  exists data, tc t (rf_tmp rf) = Some data /\ made_of V (rf_version rf) data.
Proof.
  intros Hv [_ _ _ Hp (c & Hc & Hpl & Hl)] H0. rewrite Hp in H0. exists c. split; [done|].
  destruct (assembled raw_len raw_len_nonneg D (fv_Chunks (rf_version rf)) 0 c ltac:(lia) H0 Hpl ltac:(lia)) as (parts & Hf & Hz). rewrite zdrop_0 in Hz.
  exists parts. split; [|done]. eapply Forall2_impl; [exact Hf|]. intros n part. apply Hv.
Qed.

Lemma publishRestore_tc rf t err t' : publishRestore rf t = (err, t') ->
  (forall p, p <> rf_tmp rf -> p <> rf_local rf -> tc t' p = tc t p) /\ (err = None -> tc t' (rf_local rf) = tc t (rf_tmp rf)).
Proof.
  unfold publishRestore. destruct (act (OpenFile (rf_tmp rf)) t) as [[?|?] t1] eqn:E1; pose proof (fun p => act_quiet _ _ _ _ p E1 eq_refl) as H1.
  - destruct (tree_publish _ _ _ _ t1) as [[u|e] t2] eqn:E2; destruct (publish_tc _ _ _ _ _ _ _ E2) as [Ho Hr]; intros [= <- <-].
    + split; [intros p Hp Hl; rewrite Ho by done; apply H1|]. intros _. destruct u. rewrite Hr by done. apply H1.
    + split; [|done]. intros p Hp Hl. rewrite act_other by apply not_elem_of_nil. rewrite Ho by done. apply H1.
  - intros [= <- <-]. split; [intros p _ _; apply H1|done].
Qed.

(** The results, file by file. *)
Definition published_ok (V : Z -> bytes -> Prop) (t : outputTree R) (rf : restoreFile) (r : ExtractionResult) : Prop :=
  xr_Filename r = fv_Name (rf_version rf) /\
  (xr_OK r = true -> exists data, tc t (fv_Name (rf_version rf)) = Some data /\ made_of V (rf_version rf) data).

Lemma publishRestores_spec V D : (forall n d, D !! n = Some d -> V n d) ->
  forall rs k all t res temps t', distinct all -> NoDup (map (fun rf => fv_Name (rf_version rf)) rs) ->
  (forall i rf, rs !! i = Some rf -> all !! (k + i)%nat = Some rf) ->
  Forall (fun rf => ~ is_temp (fv_Name (rf_version rf)) /\ (rf_tmp rf = [] \/ is_temp (rf_tmp rf))) rs ->
  (forall i rf, rs !! i = Some rf -> rf_err rf = None -> file_ok t D (k + i) rf) ->
  publishRestores rs t = (res, temps, t') ->
  Forall is_temp temps /\ Forall2 (published_ok V t') rs res /\
  forall p, ~ is_temp p -> p ∉ map (fun rf => fv_Name (rf_version rf)) rs -> tc t' p = tc t p.
Proof.
  intros Hv. induction rs as [|rf rs IH]; intros k all t res temps t' Hd Hnd Hall Hn Hf Hpub; cbn [publishRestores] in Hpub.
  { injection Hpub as <- <- <-. split; [constructor|]. split; [constructor|done]. }
  apply NoDup_cons in Hnd as [Hnew Hnd]. apply Forall_cons in Hn as [[Hname Htmp] Hn].
  set (name := fv_Name (rf_version rf)) in *. set (step := match rf_err rf with Some e => _ | None => _ end) in Hpub.
  assert (exists err t1, step = (err, t1) /\ (forall p, p <> rf_tmp rf -> p <> name -> tc t1 p = tc t p) /\
    (rf_err rf <> None -> t1 = t) /\ (err = None -> exists data, tc t1 name = Some data /\ made_of V (rf_version rf) data)) as (err & t1 & Hs & Ho & Hskip & Hok).
  { unfold step. destruct (rf_err rf) as [e|] eqn:Ee; [by eexists _, t|]. pose proof (Hf 0%nat rf eq_refl Ee) as Hfo.
    destruct (Z.eqb_spec (rf_pending rf) 0) as [H0|H0]; cbn [negb]; [|by eexists _, t].
    destruct (publishRestore rf t) as [err t1] eqn:Ep. destruct (publishRestore_tc _ _ _ _ Ep) as [Ho Hr]. exists err, t1. split; [done|].
    rewrite (fo_local _ _ _ _ Hfo) in Ho, Hr. split; [done|]. split; [done|]. intros He. destruct (complete_content V t D _ rf Hv Hfo H0) as (data & Hdt & Hre).
    exists data. split; [|done]. unfold name. rewrite Hr by done. exact Hdt. }
  rewrite Hs in Hpub. destruct (publishRestores rs t1) as [[rs' temps'] t2] eqn:Er.
  destruct (IH (S k) all t1 rs' temps' t2 Hd Hnd) as (IH1 & IH2 & IH3); [..|exact Er|].
  - intros i rf' Hi. replace (S k + i)%nat with (k + S i)%nat by lia. by apply Hall.
  - done.
  - intros i rf' Hi He. replace (S k + i)%nat with (k + S i)%nat by lia. destruct (Hf (S i) rf' Hi He) as [F1 F2 F3 F4 (c & F5 & F6)].
    constructor; try done. exists c. split; [|done]. rewrite <- F5. destruct (rf_err rf) as [e|] eqn:Ee; [by rewrite Hskip|]. apply Ho.
    + intros Ht. assert (k + S i = k + 0)%nat as Hij; [|lia]. apply (Hd _ _ rf' rf); [by apply Hall|by apply Hall|done..].
    + intros Ht. apply Hname. by rewrite <- Ht.
  - assert (forall p, ~ is_temp p -> p ∉ name :: map (fun rf => fv_Name (rf_version rf)) rs -> tc t2 p = tc t p) as Hkeep.
    { intros p Hp Hpn. rewrite IH3 by (try done; intros Hin; apply Hpn; by right). destruct (rf_err rf) as [e|] eqn:Ee; [by rewrite Hskip|]. apply Ho; [|intros ->; apply Hpn; by left].
      intros ->. pose proof (Hf 0%nat rf eq_refl Ee) as Hfo. apply Hp. exact (fo_temp _ _ _ _ Hfo). }
    assert (forall r, xr_Filename r = name -> (xr_OK r = true -> err = None) -> published_ok V t2 rf r) as Hres.
    { intros r Hr1 Hr2. split; [done|]. intros Hokr. destruct (Hok (Hr2 Hokr)) as (data & Hdt & Hre). exists data. split; [|done]. fold name.
      rewrite IH3 by done. exact Hdt. }
    destruct err as [e|]; injection Hpub as <- <- <-; (split; [|split; [constructor; [by apply Hres|done]|exact Hkeep]]); [|done].
    destruct (bytes_eqb (rf_tmp rf) []) eqn:Eb; [done|]. constructor; [|done]. destruct Htmp as [Ht|Ht]; [rewrite Ht in Eb; discriminate Eb|done].
Qed.
End Assembling.

(** ** Preparing *)

Section Preparing.
Context `{C : Crypto} `{ZS : Zstd} {R : Type} `{RT : !Root R} `{FR : !FileRoot R}.
Context (chunks : list chunkLocation) (Hchunks : Forall (fun c => 0 <= cl_raw c) chunks) (idKey : bytes).

Abbreviation target_list targets n := (default [] (targets !! n)).

Lemma offsets_app i a b : offsets_of i (a ++ b) = offsets_of i a ++ offsets_of i b.
Proof. unfold offsets_of. by rewrite List.filter_app, map_app. Qed.

Lemma add_target_spec n tg (targets : gmap Z (list chunkTarget)) m :
  target_list (add_target n tg targets) m = if decide (m = n) then target_list targets m ++ [tg] else target_list targets m.
Proof.
  unfold add_target. case_decide as Hm; [subst; by rewrite lookup_insert_eq|]. by rewrite lookup_insert_ne by done.
Qed.

Lemma offsets_one i j o : offsets_of j [mk_target i o] = if decide (j = i) then [o] else [].
Proof. unfold offsets_of. cbn [List.filter tg_file]. case_decide as Hj; [subst; by rewrite Nat.eqb_refl|]. by rewrite (proj2 (Nat.eqb_neq _ _)) by done. Qed.

Lemma add_targets_spec i ns : forall o targets targets', 0 <= o -> o + total (raw_len chunks) ns < 2 ^ 63 -> add_targets chunks i ns o targets = Some targets' ->
  (forall n j, offsets_of j (target_list targets' n) =
     if decide (j = i) then offsets_of i (target_list targets n) ++ positions (raw_len chunks) n ns o else offsets_of j (target_list targets n)) /\
  (forall n, Forall (fun tg => 0 <= tg_offset tg) (target_list targets n) -> Forall (fun tg => 0 <= tg_offset tg) (target_list targets' n)) /\
  (forall n, is_Some (targets' !! n) -> is_Some (targets !! n) \/ is_Some (chunks !! Z.to_nat n) /\ n ∈ ns).
Proof.
  induction ns as [|m ns IH]; intros o targets targets' Ho Ht Ha; cbn [add_targets total positions] in *.
  { injection Ha as <-. split; [|split; [done|intros n Hs; by left]]. intros n j. case_decide; [subst; by rewrite app_nil_r|done]. }
  destruct (chunks !! Z.to_nat m) as [c|] eqn:Ec; [|done]. assert (raw_len chunks m = cl_raw c) as Hr.
  { unfold raw_len. rewrite Ec. rewrite Forall_lookup in Hchunks. specialize (Hchunks _ _ Ec). cbv beta in Hchunks. lia. }
  pose proof (raw_len_nonneg chunks m). pose proof (total_nonneg (raw_len chunks) (raw_len_nonneg chunks) ns).
  rewrite <- Hr in Ha. rewrite i64_small in Ha by lia.
  destruct (IH (o + raw_len chunks m) _ _ ltac:(lia) ltac:(lia) Ha) as (H1 & H2 & H3). split_and!.
  - intros n j. rewrite H1, add_target_spec. destruct (Z.eqb_spec m n) as [->|Hne].
    + rewrite (decide_True (P := n = n)) by done. rewrite !offsets_app, !offsets_one. case_decide as Hj; [subst; rewrite decide_True by done; by rewrite <- app_assoc|]. by rewrite app_nil_r.
    + by rewrite (decide_False (P := n = m)) by done.
  - intros n Hn. apply H2. rewrite add_target_spec. case_decide; [|done]. apply Forall_app. split; [done|]. by constructor.
  - intros n [x Hn]. destruct (H3 n ltac:(by rewrite Hn)) as [Hs|[Hs Hin]]; [|right; split; [done|by right]]. unfold add_target in Hs. destruct (decide (m = n)) as [<-|Hne].
    + right. split; [by rewrite Ec|by left].
    + rewrite lookup_insert_ne in Hs by done. by left.
Qed.

(** The files prepared so far. *)
Record prepared (t : outputTree R) (rs : list restoreFile) (targets : gmap Z (list chunkTarget)) : Prop := {
  pr_ok : assembling chunks idKey targets (map rf_version rs) (t, rs) ∅;
  pr_fresh : forall n i, (length rs <= i)%nat -> offsets_of i (target_list targets n) = [];
  pr_nonneg : forall n, Forall (fun tg => 0 <= tg_offset tg) (target_list targets n);
  pr_keys : forall n, is_Some (targets !! n) -> is_Some (chunks !! Z.to_nat n) /\ exists rf, rf ∈ rs /\ n ∈ fv_Chunks (rf_version rf)
}.

Lemma missing_empty ns : missing ∅ ns = len ns.
Proof.
  unfold missing. induction ns as [|n ns IH]; [done|]. rewrite filter_cons, decide_True by (by rewrite lookup_empty). by rewrite !len_cons, IH.
Qed.

(** A file that already failed needs nothing. *)
Lemma prepared_failed t t' rs targets rf : prepared t rs targets -> (forall p c, tc t p = Some c -> tc t' p = Some c) ->
  rf_err rf <> None -> rf_tmp rf = [] \/ is_temp (rf_tmp rf) -> prepared t' (rs ++ [rf]) targets.
Proof.
  intros [[Hv _ Hd Ht Hf] H2 H3 H4] Hk He Htmp. assert (forall i x, (rs ++ [rf]) !! i = Some x -> rf_err x = None -> rs !! i = Some x) as Hold.
  { intros i x Hi Hx. apply lookup_app_Some in Hi as [Hi|[_ Hi]]; [done|]. destruct (i - length rs)%nat; [injection Hi as <-; done|done]. }
  constructor; try done; [constructor; cbn [fst snd]; try done|..].
  - intros i j x y Hi Hj Hx Hy. apply (Hd i j x y); auto.
  - apply Forall_app. split; [done|by constructor].
  - intros i x Hi Hx. destruct (Hf i x (Hold i x Hi Hx) Hx) as [F1 F2 F3 F4 (c & F5 & F6)]. constructor; try done. exists c. split; [by apply Hk|done].
  - intros n i Hi. apply H2. rewrite length_app in Hi. lia.
  - intros n Hn. destruct (H4 n Hn) as (Hc & rf' & Hrf & Hin). split; [done|]. exists rf'. split; [|done]. apply elem_of_app. by left.
Qed.

Lemma prepared_new t t' rs targets targets' f tmp : prepared t rs targets -> (forall p c, tc t p = Some c -> tc t' p = Some c) ->
  tc t' tmp = Some [] -> tc t tmp = None -> is_temp tmp -> total (raw_len chunks) (fv_Chunks f) < 2 ^ 63 ->
  add_targets chunks (length rs) (fv_Chunks f) 0 targets = Some targets' ->
  prepared t' (rs ++ [mk_rf f (fv_Name f) tmp (len (fv_Chunks f)) None]) targets'.
Proof.
  intros [[Hv _ Hd Ht Hf] H2 H3 H4] Hk Hc Hn Htmp Hsz Ha. destruct (add_targets_spec (length rs) (fv_Chunks f) 0 targets targets' ltac:(lia) ltac:(lia) Ha) as (A1 & A2 & A3).
  set (rf := mk_rf _ _ _ _ _).
  assert (forall i x, (rs ++ [rf]) !! i = Some x -> rs !! i = Some x /\ (i < length rs)%nat \/ i = length rs /\ x = rf) as Hold.
  { intros i x Hi. apply lookup_app_Some in Hi as [Hi|[Hle Hi]]; [left; split; [done|by apply lookup_lt_Some in Hi]|]. right.
    destruct (i - length rs)%nat eqn:E; [injection Hi as <-; split; [lia|done]|done]. }
  assert (forall i x, rs !! i = Some x -> rf_err x = None -> rf_tmp x <> tmp) as Hdiff.
  { intros i x Hi Hx Heq. destruct (Hf i x Hi Hx) as [_ _ _ _ (c & F5 & _)]. cbn [fst] in F5. congruence. }
  constructor; [constructor; cbn [fst snd]; try done|..].
  - intros i j x y Hi Hj Hx Hy Heq. destruct (Hold _ _ Hi) as [[Hi' _]|[-> ->]], (Hold _ _ Hj) as [[Hj' _]|[-> ->]]; [by apply (Hd i j x y)|..|done].
    + by destruct (Hdiff i x Hi' Hx).
    + by destruct (Hdiff j y Hj' Hy).
  - apply Forall_app. split; [done|]. constructor; [by right|constructor].
  - intros i x Hi Hx. destruct (Hold _ _ Hi) as [[Hi' Hlt]|[-> ->]].
    + destruct (Hf i x Hi' Hx) as [F1 F2 F3 F4 (c & F5 & F6)]. constructor; try done; [|exists c; split; [by apply Hk|done]].
      intros n. rewrite A1, decide_False by lia. apply F3.
    + constructor; cbn [rf rf_version rf_local rf_tmp rf_pending]; try done.
      * intros n. rewrite A1, decide_True by done. by rewrite H2 by lia.
      * by rewrite missing_empty.
      * exists []. split; [done|]. split; [apply placed_nil|]. apply (total_nonneg _ (raw_len_nonneg chunks)).
  - intros n i Hi. rewrite length_app in Hi. cbn in Hi. rewrite A1, decide_False by lia. apply H2. lia.
  - intros n. apply A2, H3.
  - intros n Hs. destruct (A3 n Hs) as [Hs'|[Hc' Hin]].
    + destruct (H4 n Hs') as (Hc' & rf' & Hrf & Hin). split; [done|]. exists rf'. split; [|done]. apply elem_of_app. by left.
    + split; [done|]. exists rf. split; [|done]. apply elem_of_app. right. by left.
Qed.

Lemma prepare_files_spec files : Forall (fun f => total (raw_len chunks) (fv_Chunks f) < 2 ^ 63) files ->
  forall rs targets t r t', prepared t rs targets -> prepare_files chunks files rs targets t = Some (r, t') ->
  (forall p c, tc t p = Some c -> tc t' p = Some c) /\
  forall rs' targets', r = IOk (rs', targets') -> prepared t' rs' targets' /\ map rf_version rs' = map rf_version rs ++ files.
Proof.
  induction 1 as [|f files Hf _ IH]; intros rs targets t r t' Hp Hr; cbn [prepare_files] in Hr.
  { injection Hr as <- <-. split; [done|]. intros rs' targets' E. apply IOk_inj in E. injection E as <- <-. split; [done|]. by rewrite app_nil_r. }
  destruct (createTemp (fv_Name f) t) as [[[tmp local]|e] t1] eqn:Ec; destruct (createTemp_tc _ _ _ _ Ec) as [Hk Hn].
  - destruct (Hn tmp local eq_refl) as (-> & Hempty & Hnone & suffix & Hsuf). assert (is_temp tmp) as Htmp by (by eexists _, suffix).
    destruct (act (CloseFile tmp) t1) as [[z|e] t2] eqn:Ea; pose proof (fun p => act_quiet _ _ _ _ p Ea eq_refl) as Hq.
    + destruct (add_targets chunks (length rs) (fv_Chunks f) 0 targets) as [targets1|] eqn:Et; [|done].
      assert (forall p c, tc t p = Some c -> tc t2 p = Some c) as Hk2 by (intros p c Hp'; rewrite Hq; by apply Hk).
      destruct (IH _ _ _ _ _ (prepared_new t t2 rs targets targets1 f tmp Hp Hk2 ltac:(by rewrite Hq) Hnone Htmp Hf Et) Hr) as [I1 I2].
      split; [intros p c Hp'; by apply I1, Hk2|]. intros rs' targets' E. destruct (I2 rs' targets' E) as [J1 J2]. split; [done|]. rewrite J2, map_app. by rewrite <- app_assoc.
    + assert (forall p c, tc t p = Some c -> tc t2 p = Some c) as Hk2 by (intros p c Hp'; rewrite Hq; by apply Hk).
      destruct (IH _ _ _ _ _ (prepared_failed t t2 rs targets (mk_rf f (fv_Name f) tmp (len (fv_Chunks f)) (Some (recoverable ErrCodeWriteFailed "create file"))) Hp Hk2 ltac:(done) (or_intror Htmp)) Hr) as [I1 I2].
      split; [intros p c Hp'; by apply I1, Hk2|]. intros rs' targets' E. destruct (I2 rs' targets' E) as [J1 J2]. split; [done|]. rewrite J2, map_app. by rewrite <- app_assoc.
  - destruct (IsFatal e); [injection Hr as <- <-; split; [done|]; done|].
    destruct (IH _ _ _ _ _ (prepared_failed t t1 rs targets (mk_rf f [] [] (len (fv_Chunks f)) (Some e)) Hp Hk ltac:(done) (or_introl eq_refl)) Hr) as [I1 I2].
    split; [intros p c Hp'; by apply I1, Hk|]. intros rs' targets' E. destruct (I2 rs' targets' E) as [J1 J2]. split; [done|]. rewrite J2, map_app. by rewrite <- app_assoc.
Qed.
End Preparing.
