(* ===== verification/RestoreSafety.v ===== *)
(** * Restoring never publishes unverified data

    The composition of loading, preparing, restoring packs and publishing, for archives of
    any content and file systems in which any call can fail. *)

From S2P Require Import Prelude Bytes Names Attributes Metadata IndexCodec Crypto Codec Frames.
From S2P Require Import Checksum Writer Signatures IOErrors SolidPlan Extractor OutputTree OutputProofs Incremental IncrementalProofs Packs Restore RestoreFiles RestoreProofs.
Open Scope go_scope.

(** ** The files of a loaded archive *)

Lemma sortedFiles_elem ia f : f ∈ sortedFiles ia <-> exists name, ia_files ia !! name = Some f.
Proof.
  unfold sortedFiles. rewrite stable_sort_elem, list_elem_of_fmap. split.
  - intros ([name g] & -> & Hin%elem_of_map_to_list). by exists name.
  - intros [name Hn]. exists (name, f). split; [done|]. by apply elem_of_map_to_list.
Qed.

Lemma sortedFiles_names ia chunks : files_whole chunks (ia_files ia) -> NoDup (map fv_Name (sortedFiles ia)).
Proof.
  intros Hw. unfold sortedFiles. rewrite stable_sort_perm, map_map.
  assert (map (fun y : bytes * FileVersion => fv_Name (snd y)) (map_to_list (ia_files ia)) = map fst (map_to_list (ia_files ia))) as ->; [|apply NoDup_fst_map_to_list].
  apply map_ext_in. intros [name f] Hin%list_elem_of_In%elem_of_map_to_list. by destruct (Hw name f Hin).
Qed.

Lemma total_bound chunks : Forall sized chunks -> forall ns, total (raw_len chunks) ns <= len ns * MaxCDCChunkSize.
Proof.
  intros Hs. assert (forall n, raw_len chunks n <= MaxCDCChunkSize) as Hn.
  { intros n. unfold raw_len. rewrite Forall_lookup in Hs. destruct (chunks !! Z.to_nat n) as [c|] eqn:E; [|done]. destruct (Hs _ _ E) as [_ ?]. unfold MaxCDCChunkSize in *. lia. }
  induction ns as [|n ns IH]; cbn [total]; [done|]. rewrite len_cons. specialize (Hn n). lia.
Qed.

Lemma unique_names ia chunks f g : files_whole chunks (ia_files ia) -> f ∈ sortedFiles ia -> g ∈ sortedFiles ia -> fv_Name f = fv_Name g -> f = g.
Proof.
  intros Hw [nf Hfn]%sortedFiles_elem [ng Hgn]%sortedFiles_elem Heq. destruct (Hw nf f Hfn) as [<- _], (Hw ng g Hgn) as [<- _]. rewrite Heq in Hfn. congruence.
Qed.

Lemma special_not_regular ia f : files_whole (ia_chunks ia) (ia_files ia) -> f ∈ List.filter is_regular (sortedFiles ia) -> fv_Name f ∉ map fv_Name (special_files (sortedFiles ia)).
Proof.
  intros Hw Hf (g & Hg & Hgs)%list_elem_of_fmap. unfold special_files in Hgs. apply stable_sort_elem, list_elem_of_In, filter_In in Hgs as [Hgs Hgr].
  apply list_elem_of_In, filter_In in Hf as [Hf Hfr]. apply list_elem_of_In in Hgs, Hf. rewrite (unique_names ia _ f g Hw Hf Hgs Hg) in Hfr. by rewrite Hfr in Hgr.
Qed.

Section Safety.
Context `{C : Crypto} `{ZS : Zstd} {R : Type} `{RT : !Root R} `{FR : !FileRoot R}.

Lemma remove_temps_tc temps p : p ∉ temps -> forall t : outputTree R, tc (remove_temps temps t) p = tc t p.
Proof.
  unfold remove_temps. induction temps as [|q temps IH]; intros Hp t; cbn [fold_left]; [done|]. apply not_elem_of_cons in Hp as [Hq Hp].
  rewrite IH by done. apply act_other. by apply not_single.
Qed.

Lemma restoreSpecial_tc fs p : p ∉ map fv_Name fs -> forall t : outputTree R, tc (snd (restoreSpecial fs t)) p = tc t p.
Proof.
  induction fs as [|f fs IH]; intros Hp t; cbn [restoreSpecial]; [done|]. cbn [map] in Hp. apply not_elem_of_cons in Hp as [Hf Hp].
  pose proof (special_tc (fv_Name f) (fv_Attributes f) t p Hf) as Hs. destruct (special _ _ t) as [r t1]. cbn [snd] in Hs. specialize (IH Hp t1).
  destruct (restoreSpecial fs t1) as [rs t2]. cbn [snd] in *. congruence.
Qed.

Lemma restoreSpecial_names fs : forall t : outputTree R, map xr_Filename (fst (restoreSpecial fs t)) = map fv_Name fs.
Proof.
  induction fs as [|f fs IH]; intros t; cbn [restoreSpecial]; [done|]. destruct (special _ _ t) as [r t1]. specialize (IH t1).
  destruct (restoreSpecial fs t1) as [rs t2]. cbn [fst map] in *. rewrite IH. by destruct r.
Qed.

Lemma publish_names rs : forall t : outputTree R, map xr_Filename (fst (fst (publishRestores rs t))) = map (fun rf => fv_Name (rf_version rf)) rs.
Proof.
  induction rs as [|rf rs IH]; intros t; cbn [publishRestores map]; [done|]. destruct (match rf_err rf with Some _ => _ | None => _ end) as [err t1]. specialize (IH t1).
  destruct (publishRestores rs t1) as [[res temps] t2]. cbn [fst] in IH. destruct err; cbn [fst map xr_Filename]; by f_equal.
Qed.

(** ** No panic *)

Lemma add_targets_some chunks i ns : Forall (fun n => 0 <= n < len chunks) ns -> forall o targets, is_Some (add_targets chunks i ns o targets).
Proof.
  induction 1 as [|n ns Hn _ IH]; intros o targets; cbn [add_targets]; [by eexists|]. destruct (lookup_lt_len chunks n Hn) as [c ->]. apply IH.
Qed.

Lemma prepare_files_some chunks files : Forall (fun f => Forall (fun n => 0 <= n < len chunks) (fv_Chunks f)) files ->
  forall rs targets (t : outputTree R), is_Some (prepare_files chunks files rs targets t).
Proof.
  induction 1 as [|f files Hf _ IH]; intros rs targets t; cbn [prepare_files]; [by eexists|]. destruct (createTemp _ t) as [[[tmp local]|e] t1].
  - destruct (act _ t1) as [[z|e] t2]; [|apply IH]. destruct (add_targets_some chunks (length rs) _ Hf 0 targets) as [targets1 ->]. apply IH.
  - destruct (IsFatal e); [by eexists|apply IH].
Qed.

Lemma locate_spec chunks ns : Forall (fun n => is_Some (chunks !! Z.to_nat n)) ns -> exists locs, locate chunks ns = Some locs /\
  map fst locs = ns /\ Forall (located chunks) locs.
Proof.
  unfold locate. induction 1 as [|n ns [c Hc] _ (locs & Hm & Hf & Hl)]; [by exists []|]. exists ((n, c) :: locs). cbn. rewrite Hc. cbn. rewrite Hm. split; [done|].
  split; [by f_equal|]. by constructor.
Qed.

(** ** The whole restore *)

(** The first half: the files are prepared, and the chunks they need are known. *)
Lemma prepareRestore_spec ia (t : outputTree R) idKey :
  files_whole (ia_chunks ia) (ia_files ia) -> Forall sized (ia_chunks ia) ->
  exists r t1, prepareRestore ia t = Some (r, t1) /\ forall rs specials targets, r = IOk (rs, specials, targets) ->
    prepared (ia_chunks ia) idKey t1 rs targets /\ map rf_version rs = List.filter is_regular (sortedFiles ia) /\ specials = special_files (sortedFiles ia) /\
    exists locs, locate (ia_chunks ia) (map fst (map_to_list targets)) = Some locs /\ map fst locs = map fst (map_to_list targets) /\
      NoDup (map fst locs) /\ Forall (located (ia_chunks ia)) locs /\ Forall (fun y => 1 <= cl_stored (snd y)) locs.
Proof.
  intros Hw Hs. unfold prepareRestore. set (files := List.filter is_regular (sortedFiles ia)).
  assert (forall f, f ∈ files -> Forall (fun n => 0 <= n < len (ia_chunks ia)) (fv_Chunks f) /\ len (fv_Chunks f) <= MaxIndexSize) as Hwf.
  { intros f [Hin _]%list_elem_of_In%filter_In. apply list_elem_of_In, sortedFiles_elem in Hin as [name Hn]. destruct (Hw name f Hn) as (_ & _ & ? & _ & ?). done. }
  destruct (prepare_files_some (ia_chunks ia) files) with (rs := @nil restoreFile) (targets := ∅ : gmap Z (list chunkTarget)) (t := t) as [[r t1] Hp].
  { apply Forall_forall. intros f Hf. by apply Hwf. }
  rewrite Hp. assert (Forall (fun c => 0 <= cl_raw c) (ia_chunks ia)) as Hraw by (eapply Forall_impl; [exact Hs|]; intros c []; lia).
  assert (prepared (ia_chunks ia) idKey t [] ∅) as H0.
  { constructor; [constructor|..]; cbn [fst snd]; intros *; rewrite ?lookup_empty; try done; try constructor; by intros []. }
  destruct (prepare_files_spec (ia_chunks ia) Hraw idKey files) with (rs := @nil restoreFile) (targets := ∅ : gmap Z (list chunkTarget)) (t := t) (r := r) (t' := t1) as [_ Hprep]; [|done..|].
  { apply Forall_forall. intros f Hf. destruct (Hwf f Hf) as [_ Hl]. pose proof (total_bound _ Hs (fv_Chunks f)). unfold MaxIndexSize, MaxCDCChunkSize in *. lia. }
  destruct r as [[rs targets]|e]; [|by eexists _, _]. eexists _, _. split; [done|]. intros rs' specials targets' E. apply IOk_inj in E. injection E as <- <- <-.
  destruct (Hprep rs targets eq_refl) as [H1 H2]. split; [done|]. split; [done|]. split; [done|].
  destruct (locate_spec (ia_chunks ia) (map fst (map_to_list targets))) as (locs & Hlo & Hf & Hl).
  { apply Forall_forall. intros n ([m tgs] & -> & Hin%elem_of_map_to_list)%list_elem_of_fmap. eapply (pr_keys _ _ _ _ _ H1). cbn [fst]. rewrite Hin. by eexists. }
  exists locs. split; [done|]. split; [done|]. rewrite Hf. split; [apply NoDup_fst_map_to_list|]. split; [done|]. eapply Forall_impl; [exact Hl|]. intros [n c] Hn. unfold located in Hn. cbn [fst snd] in *.
  rewrite Forall_lookup in Hs. by destruct (Hs _ _ Hn).
Qed.

(** Restoring an archive with whole files: it does not panic, and what it reports as
    restored is verified. *)
Lemma extractIncremental_spec ra size ia (t : outputTree R) :
  files_whole (ia_chunks ia) (ia_files ia) -> Forall sized (ia_chunks ia) -> (forall f, f ∈ sortedFiles ia -> ~ is_temp (fv_Name f)) ->
  exists r t', extractIncremental ra size ia t = Some (r, t') /\ forall results, r = IOk results ->
    exists idKey, ChunkIDKey (ia_keys ia) = Ok idKey /\
    map xr_Filename results = map fv_Name (List.filter is_regular (sortedFiles ia) ++ special_files (sortedFiles ia)) /\
    forall f res, f ∈ sortedFiles ia -> is_regular f = true -> res ∈ results -> xr_Filename res = fv_Name f -> xr_OK res = true ->
      exists data, tc t' (fv_Name f) = Some data /\ restored (ia_chunks ia) idKey f data.
Proof.
  intros Hw Hs Hnt. unfold extractIncremental. set (key := match ChunkIDKey (ia_keys ia) with Ok k => k | Err _ => [] end).
  destruct (prepareRestore_spec ia t key Hw Hs) as (r & t1 & -> & Hr). destruct r as [[[rs specials] targets]|e]; [|by eexists _, _].
  destruct (Hr rs specials targets eq_refl) as (Hp & Hver & -> & locs & -> & _ & Hnd & Hloc & Hst). clear Hr.
  destruct (ChunkIDKey (ia_keys ia)) as [idKey|e]; [|by eexists _, _]. subst key. set (packs := stable_sort _ _).
  destruct (restore_packs_assembling (ia_chunks ia) idKey targets (map rf_version rs) (pr_nonneg _ _ _ _ _ Hp) ra size ia locs eq_refl Hloc Hst Hnd packs (t1, rs) ∅) as [D HD].
  { unfold packs. rewrite stable_sort_perm. apply NoDup_remove_dups. }
  { apply Hp. }
  { apply Forall_forall. intros y _ _. apply lookup_empty. }
  destruct (restore_packs ra size ia idKey locs packs targets (t1, rs)) as [t2 rs2] eqn:Erp.
  destruct (publishRestores rs2 t2) as [[res temps] t3] eqn:Epub. destruct (restoreSpecial (special_files (sortedFiles ia)) t3) as [res' t4] eqn:Esp.
  eexists _, _. split; [done|]. intros results E. apply IOk_inj in E. subst results. exists idKey. split; [done|].
  pose proof (publish_names rs2 t2) as Hnames. rewrite Epub in Hnames. cbn [fst] in Hnames.
  pose proof (restoreSpecial_names (special_files (sortedFiles ia)) t3) as Hnames'. rewrite Esp in Hnames'. cbn [fst] in Hnames'.
  destruct HD as [Hv Hvs Hd Ht Hf]. cbn [fst snd] in *. rewrite Hver in Hvs.
  assert (map (fun rf => fv_Name (rf_version rf)) rs2 = map fv_Name (List.filter is_regular (sortedFiles ia))) as Hnm by (rewrite <- Hvs, map_map; done).
  split; [by rewrite map_app, Hnames, Hnames', Hnm, map_app|].
  assert (forall rf, rf ∈ rs2 -> rf_version rf ∈ sortedFiles ia) as Hin2.
  { intros rf Hrf. assert (rf_version rf ∈ List.filter is_regular (sortedFiles ia)) as Hx by (rewrite <- Hvs; apply list_elem_of_fmap; by exists rf).
    apply list_elem_of_In, filter_In in Hx as [Hx _]. by apply list_elem_of_In. }
  destruct (publishRestores_spec (ia_chunks ia) targets (verified (ia_chunks ia) idKey) D Hv rs2 0 rs2 t2 res temps t3 Hd) as (Htemps & Hres & _); [..|exact Epub|].
  { rewrite Hnm. by apply NoDup_filter_map, (sortedFiles_names ia (ia_chunks ia)). }
  { done. }
  { apply Forall_forall. intros rf Hrf. split; [by apply Hnt, Hin2|]. rewrite Forall_forall in Ht. by apply Ht. }
  { done. }
  intros f r0 Hfs Hreg Hr0 Hname Hok. assert (fv_Name f ∉ map fv_Name (special_files (sortedFiles ia))) as Hns.
  { apply special_not_regular; [done|]. apply list_elem_of_In, filter_In. split; [by apply list_elem_of_In|done]. }
  apply elem_of_app in Hr0 as [Hr0|Hr0].
  2:{ exfalso. apply Hns. rewrite <- Hname, <- Hnames'. apply list_elem_of_fmap. by exists r0. }
  apply list_elem_of_lookup in Hr0 as [i Hi]. destruct (Forall2_lookup_r _ _ _ _ _ Hres Hi) as (rf & Hrf & Hpn & Hpo).
  apply list_elem_of_lookup_2 in Hrf. rewrite Hname in Hpn. assert (rf_version rf = f) as Heq by (apply (unique_names ia (ia_chunks ia)); auto). rewrite Heq in Hpo.
  destruct (Hpo Hok) as (data & Hdt & Hre). exists data. split; [|done]. rewrite remove_temps_tc.
  - pose proof (restoreSpecial_tc _ _ Hns t3) as Hsp. rewrite Esp in Hsp. cbn [snd] in Hsp. congruence.
  - intros Hin. rewrite Forall_forall in Htemps. by apply (Hnt f Hfs), Htemps.
Qed.
End Safety.
