(* ===== verification/Archiver.v ===== *)
(** * The archivers (io/streaming.go, io/concurrent.go, io/solid.go, io/special.go,
    io/directory.go, io/signature.go)

    [addFileStreaming] and [encryptFile] on files that may fail to open, stat or read; the
    solid groups and special entries; the directory collected on the way; and the two
    archivers that drive them. The archive is written to a sink that accepts every write
    (archive/writer.go is modelled in Writer.v); randomness is an argument per entry.
    Which pipeline encrypts a file does not matter (Pipelines.v). A panic on a missing
    compressor is [None]. *)

From S2P Require Import Prelude Bytes Names Attributes Metadata IndexCodec Directory Solid Crypto Codec Frames.
From S2P Require Import Checksum Writer IOErrors Inputs SolidPlan.
Open Scope go_scope.

(** ** Files to archive *)

(** An open file: its [Stat], whether the probe [ReadAt] works, its content up to a read
    error, if any, and what [mmap] gives when the platform supports it. *)
Record hostFile := mk_host {
  hf_stat : result fileInfo;
  hf_probe : bool;
  hf_content : bytes;
  hf_readErr : option error;
  hf_mmap : option bytes
}.

(** [io.ReadAll] through a limit of one byte more than a member may have. *)
Definition as_openFile (h : hostFile) : openFile :=
  mk_open (hf_stat h)
    (match hf_readErr h with
     | Some e => if SolidMemberMaxSize <? len (hf_content h) then Ok (ztake (SolidMemberMaxSize + 1) (hf_content h)) else Err e
     | None => Ok (ztake (SolidMemberMaxSize + 1) (hf_content h))
     end).

Definition open_member (open : bytes -> result hostFile) (p : bytes) : result openFile :=
  match open p with Ok h => Ok (as_openFile h) | Err e => Err e end.

Definition minParallelFileSize : Z := 4194304.
Definition inlineStreamThreshold : Z := minParallelFileSize.
Definition mmapThreshold : Z := 67108864.

Definition tryMmap (h : hostFile) (size : Z) : option bytes := if size <? mmapThreshold then None else hf_mmap h.

Definition readProbe (h : hostFile) (size : Z) (mode : CompressionMode) : result bytes :=
  match mode with
  | CompressionAuto =>
      if size =? 0 then Ok []
      else if hf_probe h then Ok (ztake (Z.min size compressionProbeSize) (hf_content h))
      else errorf ErrOther "read probe"
  | _ => Ok []
  end.

Record entrySummary := mk_sum { es_bucket : Z; es_codec : Z; es_original : Z }.

Definition specialSummary : entrySummary := mk_sum BucketTiny CodecNone 0.

Section Archiver.
Context `{C : Crypto} `{ZS : Zstd} `{H : Sha256}.
Context (toLower : bytes -> bytes) (policy : compressionPolicy).

(** The policy's [newFrameBuilder], with the codec it stands for. *)
Definition builder_for (codec : Z) (fileKey : bytes) : option FrameBuilder := newFrameBuilder policy fileKey codec.

(** [addFileStreaming]: the summary or the error, and the writer, which after an
    encryption error holds the beginning of an entry. *)
Definition addFileStreaming (open : bytes -> result hostFile) (i : inputFile) (r0 r : rng) (aw : ArchiveWriter) :
  option (iores entrySummary * ArchiveWriter) :=
  match open (in_path i) with
  | Err _ => Some (IErr (recoverable ErrCodeReadFailed "open file"), aw)
  | Ok f =>
  match hf_stat f with
  | Err _ => Some (IErr (recoverable ErrCodeReadFailed "stat file"), aw)
  | Ok info =>
  let '(salt, r0) := draw SaltSize r0 in
  let fileKey := FileKey (aw_keys aw) salt in
  match readProbe f (fi_Size info) (cp_mode policy) with
  | Err _ => Some (IErr (recoverable ErrCodeReadFailed "read compression probe"), aw)
  | Ok probe =>
  match codecFor toLower policy (in_name i) probe with
  | None => None
  | Some codec =>
  match builder_for codec fileKey with
  | None => None
  | Some fb =>
  let '(frameHdr, r) := FrameHeader r in
  let '(encName, r0) := encryptFilename (in_name i) fileKey r0 in
  let bucket := BucketizeSize (fi_Size info) in
  let '(meta, r0) := Seal fileKey
    (mk_pm encName bucket (HashTimestamp salt (fi_ModTime info)) (Z.land (fi_Mode info) 511) codec (Some (in_attrs i))) r0 in
  match meta with
  | Err _ => Some (IErr (fatal ErrCodeWriteFailed "seal metadata"), aw)
  | Ok meta =>
  let '(interPad, r) := InterBlockPadding r in
  let aw := BeginFileEntry EntryTypeFile salt frameHdr meta interPad aw in
  let '(mapped, data, readErr) :=
    match tryMmap f (fi_Size info) with
    | Some data => (true, data, None)
    | None => (false, hf_content f, hf_readErr f)
    end in
  let '(blocks, r) := stream_blocks mapped fb data r in
  let aw := fold_left AppendDataBlock blocks aw in
  match readErr with
  | Some _ => Some (IErr (fatal ErrCodeWriteFailed "encrypt stream"), aw)
  | None =>
  let '(trailer, r) := BuildTrailer fb (ComputeHMAC fileKey data) (len data) r in
  Some (IOk (mk_sum bucket codec (len data)), EndFileEntry trailer aw)
  end end end end end end end.

(** [encryptFile]: the whole entry in memory. *)
Definition encryptFile (open : bytes -> result hostFile) (keys : KeySchedule) (i : inputFile) (r0 r : rng) :
  option (iores (FileEntry * entrySummary)) :=
  match open (in_path i) with
  | Err _ => Some (IErr (recoverable ErrCodeReadFailed "open file"))
  | Ok f =>
  match hf_stat f with
  | Err _ => Some (IErr (recoverable ErrCodeReadFailed "stat file"))
  | Ok info =>
  let '(salt, r0) := draw SaltSize r0 in
  let fileKey := FileKey keys salt in
  match hf_readErr f with
  | Some _ => Some (IErr (recoverable ErrCodeReadFailed "read file"))
  | None =>
  let plaintext := hf_content f in
  match codecFor toLower policy (in_name i) (ztake (Z.min (len plaintext) compressionProbeSize) plaintext) with
  | None => None
  | Some codec =>
  match builder_for codec fileKey with
  | None => None
  | Some fb =>
  let '(frameHdr, r) := FrameHeader r in
  let '(encName, r0) := encryptFilename (in_name i) fileKey r0 in
  let bucket := BucketizeSize (fi_Size info) in
  let '(meta, r0) := Seal fileKey
    (mk_pm encName bucket (HashTimestamp salt (fi_ModTime info)) (Z.land (fi_Mode info) 511) codec (Some (in_attrs i))) r0 in
  match meta with
  | Err _ => Some (IErr (fatal ErrCodeWriteFailed "seal metadata"))
  | Ok meta =>
  let '(interPad, r) := InterBlockPadding r in
  let '(blocks, r) := fb_EncryptStream fb plaintext r in
  let '(trailer, r) := BuildTrailer fb (ComputeHMAC fileKey plaintext) (len plaintext) r in
  Some (IOk (mk_entry EntryTypeFile salt frameHdr meta interPad blocks trailer, mk_sum bucket codec (len plaintext)))
  end end end end end end.

(** [buildSolidEntry]: the entry, unless no member could be read, and a result per member. *)
Definition buildSolidEntry (open : bytes -> result hostFile) (keys : KeySchedule) (members : list inputFile) (r0 r : rng) :
  option (iores (option FileEntry * list solidMemberResult)) :=
  let '(stream, results) := packSolid (open_member open) [] members in
  if forallb (fun m => match smr_err m with Some _ => true | None => false end) results
  then Some (IOk (None, results))
  else match sealSolidEntry toLower keys policy stream r0 r with
  | None => None
  | Some (IErr e) => Some (IErr e)
  | Some (IOk (entry, codec)) =>
      Some (IOk (Some entry, map (share_stored codec (stored_size (DataBlocks entry)) stream) results))
  end.

(** ** The directory builder (io/directory.go) *)

Record directoryBuilder := mk_db { db_plaintext : bytes; db_full : bool }.

Definition newDirectoryBuilder : directoryBuilder := mk_db NewDirectory false.

Definition db_add (r : DirectoryRecord) (d : directoryBuilder) : iores directoryBuilder :=
  if db_full d then IOk d
  else match AppendDirectoryRecord (db_plaintext d) r with
       | Err _ => IErr (fatal ErrCodeWriteFailed "record directory entry")
       | Ok out => if MaxDirectorySize <? len out then IOk (mk_db [] true) else IOk (mk_db out false)
       end.

(** The record [addEntry] adds for the entry the writer wrote last. *)
Definition entry_record (aw : ArchiveWriter) (i : inputFile) (sum : entrySummary) : DirectoryRecord :=
  let '(offset, stored) := LastEntry aw in
  mk_dirrec (u64 offset) (in_name i) (in_attrs i) (es_bucket sum) (es_codec sum) false (u64 (es_original sum)) (u64 stored).

Definition addEntry (aw : ArchiveWriter) (i : inputFile) (sum : entrySummary) (d : directoryBuilder) : iores directoryBuilder :=
  db_add (entry_record aw i sum) d.

Definition member_record (offset : Z) (m : solidMemberResult) : DirectoryRecord :=
  mk_dirrec (u64 offset) (smr_name m) (smr_attrs m) (BucketizeSize (smr_size m)) (smr_codec m) true (u64 (smr_size m)) (u64 (smr_stored m)).

Fixpoint add_members (offset : Z) (ms : list solidMemberResult) (d : directoryBuilder) : iores directoryBuilder :=
  match ms with
  | [] => IOk d
  | m :: ms => match smr_err m with
               | Some _ => add_members offset ms d
               | None => let@ d := db_add (member_record offset m) d in add_members offset ms d
               end
  end.

Definition addSolid (aw : ArchiveWriter) (ms : list solidMemberResult) (d : directoryBuilder) : iores directoryBuilder :=
  add_members (fst (LastEntry aw)) ms d.

Definition db_write (d : directoryBuilder) (r0 r : rng) (aw : ArchiveWriter) : iores ArchiveWriter :=
  if db_full d then IOk aw
  else
    let offset := aw_offset aw in
    let@ entry := sealPayloadEntry (aw_keys aw) EntryTypeDirectory CodecNone (db_plaintext d) (db_plaintext d) r0 r in
    IOk (WriteDirectoryLocator offset (WriteFileEntry entry aw)).

(** ** Special entries and the end of the archive *)

(** What an archiver has written and recorded; [ar_seq] numbers the entries sealed, each
    with its own randomness. *)
Record arch := mk_arch { ar_w : ArchiveWriter; ar_dir : directoryBuilder; ar_seq : nat }.

Context (rnd : nat -> rng * rng).

Definition write_entry (e : FileEntry) (a : arch) : arch := mk_arch (WriteFileEntry e (ar_w a)) (ar_dir a) (ar_seq a).

Fixpoint writeSpecialEntries (special : list inputFile) (a : arch) : iores arch :=
  match special with
  | [] => IOk a
  | i :: special =>
      let '(r0, r) := rnd (ar_seq a) in
      let@ entry := sealSpecialEntry (aw_keys (ar_w a)) i r0 r in
      let aw := WriteFileEntry entry (ar_w a) in
      let@ d := addEntry aw i specialSummary (ar_dir a) in
      writeSpecialEntries special (mk_arch aw d (S (ar_seq a)))
  end.

(** [finishArchive]; [sign] makes the signature block for a checksum. The result is the
    complete output. *)
Definition finishArchive (sign : option (bytes -> iores bytes)) (a : arch) : iores bytes :=
  let '(r0, r) := rnd (ar_seq a) in
  let@ aw := db_write (ar_dir a) r0 r (ar_w a) in
  let aw := WriteFooter aw in
  match sign with
  | None => IOk (aw_out aw)
  | Some sign => let@ block := sign (aw_checksum aw) in IOk (aw_out aw ++ block)
  end.

(** ** ConcurrentArchiver *)

Context (open : bytes -> result hostFile) (f : fs).

Inductive fileJob := JFile (i : inputFile) (inline : bool) | JGroup (members : list inputFile).

Definition isLargeFile (path : bytes) : bool :=
  match fs_Stat f path with
  | Ok info => IsRegular (fi_Mode info) && (inlineStreamThreshold <=? fi_Size info)
  | Err _ => false
  end.

Definition planJobs (files : list inputFile) : list fileJob :=
  if cp_solid policy then
    let plan := planSolid f toLower files in
    map (fun i => JFile i (isLargeFile (in_path i))) (individual plan) ++ map JGroup (groups plan)
  else map (fun i => JFile i (isLargeFile (in_path i))) files.

(** [streamInline]. *)
Definition streamInline (i : inputFile) (a : arch) : option (iores arch) :=
  let '(r0, r) := rnd (ar_seq a) in
  match addFileStreaming open i r0 r (ar_w a) with
  | None => None
  | Some (IErr e, aw) => Some (if IsFatal e then IErr e else IOk (mk_arch aw (ar_dir a) (S (ar_seq a))))
  | Some (IOk sum, aw) => Some (let@ d := addEntry aw i sum (ar_dir a) in IOk (mk_arch aw d (S (ar_seq a))))
  end.

(** [runJob] on a worker, then [writeResult] on the writer goroutine. *)
Definition run_and_write (j : fileJob) (a : arch) : option (iores arch) :=
  let '(r0, r) := rnd (ar_seq a) in
  let skip := mk_arch (ar_w a) (ar_dir a) (S (ar_seq a)) in
  match j with
  | JGroup members =>
      match buildSolidEntry open (aw_keys (ar_w a)) members r0 r with
      | None => None
      | Some (IErr e) => Some (if IsFatal e then IErr e else IOk skip)
      | Some (IOk (None, _)) => Some (IOk skip)
      | Some (IOk (Some entry, results)) =>
          let aw := WriteFileEntry entry (ar_w a) in
          Some (let@ d := addSolid aw results (ar_dir a) in IOk (mk_arch aw d (S (ar_seq a))))
      end
  | JFile i _ =>
      match encryptFile open (aw_keys (ar_w a)) i r0 r with
      | None => None
      | Some (IErr e) => Some (if IsFatal e then IErr e else IOk skip)
      | Some (IOk (entry, sum)) =>
          let aw := WriteFileEntry entry (ar_w a) in
          Some (let@ d := addEntry aw i sum (ar_dir a) in IOk (mk_arch aw d (S (ar_seq a))))
      end
  end.

(** The writer loop of [archiveJobs]: jobs in order, each inline or through its result
    channel. *)
Fixpoint write_jobs (jobs : list fileJob) (a : arch) : option (iores arch) :=
  match jobs with
  | [] => Some (IOk a)
  | j :: jobs =>
      match (match j with JFile i true => streamInline i a | _ => run_and_write j a end) with
      | None => None
      | Some (IErr e) => Some (IErr e)
      | Some (IOk a) => write_jobs jobs a
      end
  end.

Definition archiveJobs (jobs : list fileJob) (special : list inputFile) (sign : option (bytes -> iores bytes)) (a : arch) :
  option (iores bytes) :=
  match write_jobs jobs a with
  | None => None
  | Some (IErr e) => Some (IErr e)
  | Some (IOk a) => Some (let@ a := writeSpecialEntries special a in finishArchive sign a)
  end.

(** [Archive] on the entries [expandInputs] found. *)
Definition Archive (entries : list inputFile) (sign : option (bytes -> iores bytes)) (a : arch) : option (iores bytes) :=
  let '(files, special) := splitSpecial entries in
  match files with
  | [i] => archiveJobs [JFile i true] special sign a
  | _ => archiveJobs (planJobs files) special sign a
  end.

(** ** StreamingArchiver *)

Record StreamingArchiver := mk_sa {
  sa_arch : arch;
  sa_special : list inputFile;
  sa_pending : list inputFile;
  sa_pendingSize : Z
}.

(** [addStreamed]. A fatal error ends the run, so what it leaves half written does not
    matter; after a recoverable one the archiver goes on. *)
Definition addStreamed (i : inputFile) (a : arch) : option (iores (option ArchiveError * arch)) :=
  let '(r0, r) := rnd (ar_seq a) in
  match addFileStreaming open i r0 r (ar_w a) with
  | None => None
  | Some (IErr e, aw) => Some (if IsFatal e then IErr e else IOk (Some e, mk_arch aw (ar_dir a) (S (ar_seq a))))
  | Some (IOk sum, aw) => Some (let@ d := addEntry aw i sum (ar_dir a) in IOk (None, mk_arch aw d (S (ar_seq a))))
  end.

(** [flushSolid] of the queued members; recoverable errors are only reported. *)
Definition flush_pending (pending : list inputFile) (a : arch) : option (iores arch) :=
  match pending with
  | [] => Some (IOk a)
  | [i] => match addStreamed i a with
           | None => None
           | Some (IErr e) => Some (IErr e)
           | Some (IOk (_, a)) => Some (IOk a)
           end
  | _ => run_and_write (JGroup pending) a
  end.

Definition flushSolid (sa : StreamingArchiver) : option (iores StreamingArchiver) :=
  match flush_pending (sa_pending sa) (sa_arch sa) with
  | None => None
  | Some (IErr e) => Some (IErr e)
  | Some (IOk a) => Some (IOk (mk_sa a (sa_special sa) [] 0))
  end.

(** [addInput]: a fatal error, or a recoverable one, if any, and the archiver. *)
Definition addInput (i : inputFile) (sa : StreamingArchiver) : option (iores (option ArchiveError * StreamingArchiver)) :=
  match (if cp_solid policy then solidCandidate f i else None) with
  | Some record =>
      let queue sa := Some (IOk (None, mk_sa (sa_arch sa) (sa_special sa) (sa_pending sa ++ [i]) (sa_pendingSize sa + record))) in
      if MaxSolidStreamSize <? sa_pendingSize sa + record
      then match flushSolid sa with
           | None => None
           | Some (IErr e) => Some (IErr e)
           | Some (IOk sa) => queue sa
           end
      else queue sa
  | None =>
      match addStreamed i (sa_arch sa) with
      | None => None
      | Some (IErr e) => Some (IErr e)
      | Some (IOk (e, a)) => Some (IOk (e, mk_sa a (sa_special sa) (sa_pending sa) (sa_pendingSize sa)))
      end
  end.

(** The file loop of [AddFile] on a directory: only fatal errors stop it. *)
Fixpoint add_inputs (files : list inputFile) (sa : StreamingArchiver) : option (iores (option ArchiveError * StreamingArchiver)) :=
  match files with
  | [] => Some (IOk (None, sa))
  | i :: files =>
      match addInput i sa with
      | None => None
      | Some (IErr e) => Some (IErr e)
      | Some (IOk (_, sa)) => add_inputs files sa
      end
  end.

(** [AddFile] on the entries and skipped inputs [expandInputs] found for its path. An error
    of the path itself leaves the archiver as it was; indexing no entry panics. *)
Definition AddFile (isDir : bool) (entries : list inputFile) (skipped : list skippedInput) (sa : StreamingArchiver) :
  option (iores (option ArchiveError * StreamingArchiver)) :=
  if isDir then
    let '(files, special) := splitSpecial entries in
    add_inputs files (mk_sa (sa_arch sa) (sa_special sa ++ special) (sa_pending sa) (sa_pendingSize sa))
  else match filter (fun s => negb (sk_warning s)) skipped with
       | s :: _ => Some (if IsFatal (sk_err s) then IErr (sk_err s) else IOk (Some (sk_err s), sa))
       | [] => match entries with [] => None | i :: _ => addInput i sa end
       end.

Definition Finalize (sign : option (bytes -> iores bytes)) (sa : StreamingArchiver) : option (iores bytes) :=
  match flushSolid sa with
  | None => None
  | Some (IErr e) => Some (IErr e)
  | Some (IOk sa) => Some (let@ a := writeSpecialEntries (sa_special sa) (sa_arch sa) in finishArchive sign a)
  end.
(** The calls a caller of the streaming archiver makes before [Finalize], going on after
    recoverable errors: the path is a directory or not, and what [expandInputs] found. *)
Record addCall := mk_call { ac_dir : bool; ac_entries : list inputFile; ac_skipped : list skippedInput }.

Fixpoint add_calls (calls : list addCall) (sa : StreamingArchiver) : option (iores StreamingArchiver) :=
  match calls with
  | [] => Some (IOk sa)
  | c :: calls => match AddFile (ac_dir c) (ac_entries c) (ac_skipped c) sa with
                  | None => None
                  | Some (IErr e) => Some (IErr e)
                  | Some (IOk (_, sa)) => add_calls calls sa
                  end
  end.
End Archiver.
