(* ===== verification/ListingLemmas.v ===== *)
(** * Listing what the archivers seal

    [lists ks e rs]: scanning entry [e] consumes it exactly and lists [rs]. Every entry the
    archivers seal is listed, and the records the directory builder keeps for it list the
    same: names, buckets, codecs, sizes and attributes. *)

From S2P Require Import Prelude Bytes Names Attributes Metadata IndexCodec Directory Solid Crypto Codec Frames.
From S2P Require Import Checksum Writer Signatures Recipients IOErrors Inputs SolidPlan Extractor ExtractorLemmas ExtractorProofs.
From S2P Require Import RoundTrip Incremental Listing Archiver.
Open Scope go_scope.

Section Lists.
Context `{C : Crypto} `{CL : !CryptoLaws C} `{ZS : Zstd} `{ZL : !ZstdLaws ZS} `{SH : Sha256}.

Definition lists (ks : KeySchedule) (e : FileEntry) (rs : list ListResult) : Prop :=
  (EntryType e = EntryTypeFile \/ EntryType e = EntryTypeSolid) /\
  takes (listEntry ks (EntryType e)) (encode_head e ++ encode_body e) rs.

(** ** Stored sizes *)

Lemma stored_size_cons b bs : stored_size (b :: bs) = len (eb_Ciphertext b) - GCMTagSize + stored_size bs.
Proof. done. Qed.

Lemma stored_size_range bs : Forall (sealed_ok GCMTagSize maxBlockCiphertext) bs -> 0 <= stored_size bs <= len (encode_blocks bs).
Proof.
  intros Hf. unfold encode_blocks. rewrite len_app. pose proof (len_nonneg data_sentinel).
  enough (0 <= stored_size bs <= len (concat (map encode_sealed bs))) by lia. revert Hf.
  induction 1 as [|b bs [_ Hb] _ IH]; [done|]. rewrite stored_size_cons. cbn [map concat]. unfold encode_sealed at 1.
  rewrite !len_app. pose proof (len_nonneg (eb_Nonce b)). pose proof (len_nonneg (le_bytes 4 (len (eb_Ciphertext b)))).
  unfold GCMTagSize in *. lia.
Qed.

Lemma entry_stored_range e : well_framed e -> 0 <= stored_size (DataBlocks e) <= len (encode_entry e).
Proof.
  intros Hw. pose proof (stored_size_range _ (wf_blocks _ Hw)). unfold encode_entry, encode_body. rewrite !len_app.
  pose proof (len_nonneg [zb (EntryType e)]). pose proof (len_nonneg (encode_head e)).
  pose proof (len_nonneg (encode_padding (InterBlockPad e))). pose proof (len_nonneg (encode_trailer (Trailer e))). lia.
Qed.

(** Without compression the stored size is the size of the payload. *)
Lemma payload_loop_stored key : forall fuel payload r bs r', (length payload <= fuel)%nat ->
  payload_loop fuel (mk_fb key None) payload r = (bs, r') -> stored_size bs = len payload.
Proof.
  induction fuel as [|fuel IH]; intros payload r bs r' Hf H; cbn [payload_loop] in H.
  - injection H as <- <-. by destruct payload; [|cbn in Hf; lia].
  - destruct (Z.ltb_spec 0 (len payload)) as [Hp|Hp]; cbn [negb] in H.
    2:{ injection H as <- <-. cbn. len_lia. }
    destruct (NextChunkSize r) as [size r1] eqn:Es. apply NextChunkSize_range in Es. cbv zeta in H.
    set (n := Z.min size (len payload)) in *. destruct (EncryptChunk _ _ r1) as [b r2] eqn:Eb.
    unfold EncryptChunk in Eb. apply DecryptBlock_EncryptBlock in Eb as (_ & _ & Hb). cbn [encodeInto fb_compressor] in Hb.
    destruct (payload_loop fuel _ (zdrop n payload) r2) as [rest r3] eqn:Er. injection H as <- <-.
    rewrite stored_size_cons, Hb. apply IH in Er; [|unfold zdrop, len in *; rewrite length_drop; lia].
    rewrite Er, len_zdrop, len_ztake by lia. lia.
Qed.

Lemma payload_entry_stored ks ty codec payload plaintext r0 r e :
  sealPayloadEntry ks ty codec payload plaintext r0 r = IOk e -> stored_size (DataBlocks e) = len payload.
Proof.
  unfold sealPayloadEntry. destruct (draw SaltSize r0) as [salt r01]. destruct (FrameHeader r) as [fh r1].
  destruct (Seal _ _ r01) as [[mb|] r03]; [|done]. cbn [or_fatal]. destruct (InterBlockPadding r1) as [ip r2].
  destruct (payload_loop _ _ payload r2) as [bs r3] eqn:E. destruct (BuildTrailer _ _ _ r3) as [tr r4]. intros [= <-].
  cbn [DataBlocks]. by eapply payload_loop_stored.
Qed.

(** ** Listing one entry *)

(** The listing of a file or link entry, from its decrypted head and its trailer. *)
Lemma file_entry_lists master e pm name attrs size : well_framed e -> EntryType e = EntryTypeFile ->
  Open (FileKey (KeysV2 master) (EntrySalt e)) (MetaBlock e) = Ok pm ->
  decryptFilename (EncryptedFilename pm) (FileKey (KeysV2 master) (EntrySalt e)) = Ok name ->
  pm_Attributes pm = Some attrs -> 0 <= size < 2 ^ 63 ->
  (exists hmac, trailer_result (FileKey (KeysV2 master) (EntrySalt e)) Version2 (Trailer e) = IOk (mk_tinfo hmac size true)) ->
  lists (KeysV2 master) e [withAttributes (new_listing name (bucketName (SizeBucket pm)) (codec_text (pm_Codec pm)) false
    size (stored_size (DataBlocks e))) (Some attrs) 0].
Proof.
  intros Hw Hty Ho Hn Ha Hd [hmac Ht]. pose proof Hw as []. split; [by left|]. intros rest. rewrite Hty.
  unfold listEntry, rbind at 1. rewrite <- app_assoc, readEntryHead_framed, Ho by done.
  change (EntryTypeFile =? EntryTypeSolid) with false. cbv iota. unfold rbind at 1, listFileBody. cbn [eh_fileKey eh_pm].
  rewrite Hn. unfold encode_body. rewrite <- !app_assoc. unfold rbind at 1. rewrite takes_skipPadding by done.
  unfold rbind at 1. rewrite takes_skipDataBlocks by done. unfold rbind at 1. rewrite readTrailer_framed by done.
  change (ks_Version (KeysV2 master)) with Version2. rewrite Ht. cbn [ti_hasSize ti_size]. unfold rret. rewrite Ha.
  by rewrite i64_small by lia.
Qed.

(** ** The records of one entry *)

(** What the builder may assume of a record before it checks it. *)
Record record_pre (r : DirectoryRecord) : Prop := {
  rp_offset : 0 <= dr_Offset r < 2 ^ 64;
  rp_typed : Attributes_typed (dr_Attributes r);
  rp_bucket : 0 <= dr_SizeBucket r <= BucketHuge;
  rp_codec : dr_Codec r = CodecNone \/ dr_Codec r = CodecZstd;
  rp_original : 0 <= dr_OriginalSize r < 2 ^ 64;
  rp_stored : 0 <= dr_StoredSize r < 2 ^ 64
}.

(** A record names what extraction publishes. *)
Definition record_for (r : DirectoryRecord) (p : published) : Prop :=
  match p with
  | PubFile name data attrs _ => dr_Name r = name /\ attrs = Some (dr_Attributes r) /\ dr_OriginalSize r = len data /\ len data < 2 ^ 63
  | PubSpecial name attrs => dr_Name r = name /\ attrs = dr_Attributes r /\ dr_OriginalSize r = 0
  end.

(** [recs] are the records of entry [e] written at [off], which publishes [pubs]. *)
Record recorded (ks : KeySchedule) (off : Z) (e : FileEntry) (recs : list DirectoryRecord) (pubs : list published) : Prop := {
  rc_framed : well_framed e;
  rc_lists : exists rs, lists ks e rs /\ (stored_size (DataBlocks e) < 2 ^ 63 -> map record_listing recs = rs);
  rc_pre : Forall record_pre recs;
  rc_for : Forall2 record_for recs pubs;
  rc_offset : Forall (fun r => dr_Offset r = u64 off) recs
}.

Lemma u64_pos z : 0 <= u64 z < 2 ^ 64.
Proof. unfold u64. apply Z.mod_pos_bound. lia. Qed.

Lemma BucketizeSize_huge n : 0 <= BucketizeSize n <= BucketHuge.
Proof. unfold BucketizeSize, BucketTiny, BucketSmall, BucketMedium, BucketLarge, BucketHuge. repeat case_match; lia. Qed.

Definition file_record (off : Z) (i : inputFile) (bucket codec original stored : Z) : DirectoryRecord :=
  mk_dirrec (u64 off) (in_name i) (in_attrs i) bucket codec false (u64 original) (u64 stored).

Lemma file_record_pre off i bucket codec original stored : Attributes_typed (in_attrs i) -> 0 <= bucket <= BucketHuge ->
  codec = CodecNone \/ codec = CodecZstd -> record_pre (file_record off i bucket codec original stored).
Proof. intros. split; cbn; try done; apply u64_pos. Qed.

Lemma file_record_listing off i bucket codec original stored : 0 <= original < 2 ^ 63 -> 0 <= stored < 2 ^ 63 ->
  record_listing (file_record off i bucket codec original stored) =
  withAttributes (new_listing (in_name i) (bucketName bucket) (codec_text codec) false original stored) (Some (in_attrs i)) 0.
Proof. intros. unfold record_listing. cbn. by rewrite !i64_u64 by lia. Qed.

Lemma streamed_recorded master mkfb mapped codec perm mtime statSize i data r0 r e off :
  file_input_ok i perm data -> (forall k, fb_key (mkfb k) = k /\ fb_ok (mkfb k) /\ fb_Codec (mkfb k) = codec) ->
  streamed_entry (KeysV2 master) mkfb mapped codec perm mtime statSize i data r0 r = IOk e ->
  recorded (KeysV2 master) off e [file_record off i (BucketizeSize statSize) codec (len data) (stored_size (DataBlocks e))]
    [PubFile (in_name i) data (Some (in_attrs i)) perm].
Proof.
  intros Hi Hfb H. destruct (streamed_entry_framed _ _ _ _ _ _ _ _ _ _ _ _ Hi Hfb H)
    as (pm & chunks & Hw & Hty & Ho & Hn & Hc & Ha & _ & Hb & _ & _ & Ht).
  pose proof (fi_data _ _ _ Hi) as Hl. pose proof (len_nonneg data). pose proof (entry_stored_range _ Hw).
  split; [done| | | |].
  - eexists. split; [eapply file_entry_lists; [done|done|exact Ho|exact Hn|exact Ha| |by eexists]; lia|].
    intros Hs. cbn [map]. rewrite file_record_listing by lia. by rewrite Hb, Hc.
  - constructor; [|done]. apply file_record_pre; [apply Hi|apply BucketizeSize_huge|].
    destruct (Hfb []) as (_ & _ & <-). unfold fb_Codec. destruct (fb_compressor _); auto.
  - constructor; [|done]. cbn. by rewrite u64_small by lia.
  - by constructor.
Qed.

Lemma special_recorded master i r0 r e off : Attributes_typed (in_attrs i) -> sealSpecialEntry (KeysV2 master) i r0 r = IOk e ->
  recorded (KeysV2 master) off e [file_record off i BucketTiny CodecNone 0 (stored_size (DataBlocks e))]
    [PubSpecial (in_name i) (in_attrs i)].
Proof.
  intros Ht H. destruct (special_entry_framed _ _ _ _ _ Ht H) as (pm & Hw & Hty & Hd & Ho & Hn & Hb & Hc & Ha & Htr).
  split; [done| | | |by constructor].
  - eexists. split; [eapply file_entry_lists; [done|done|exact Ho|exact Hn|exact Ha| |by eexists]; lia|].
    intros _. cbn [map]. rewrite Hd, Hb, Hc. by rewrite file_record_listing by done.
  - constructor; [|done]. apply file_record_pre; [done|done|by left].
  - by constructor.
Qed.

(** ** The records of a solid group *)

Definition smr_ok (m : solidMemberResult) : bool := match smr_err m with None => true | Some _ => false end.

Definition solid_record (off codec stored : Z) (stream : bytes) (m : SolidMember) : DirectoryRecord :=
  mk_dirrec (u64 off) (sm_Name m) (sm_Attributes m) (BucketizeSize (len (sm_Data m))) codec true (u64 (len (sm_Data m)))
    (u64 (i64 (Z.quot (i64 (len (sm_Data m) * stored)) (len stream)))).

(** The results without error are those of the packed members. *)
Lemma packed_records open off codec stored all members : Forall (fun i => Attributes_typed (in_attrs i)) members ->
  forall stream, len stream <= MaxSolidStreamSize ->
  map (member_record off) (filter smr_ok (map (share_stored codec stored all) (snd (packSolid open stream members)))) =
  map (solid_record off codec stored all) (packed open stream members).
Proof.
  induction 1 as [|i members Hi _ IH]; intros stream Hs; cbn [packSolid packed]; [done|].
  destruct (appendSolidMember open stream i) as [stream' res] eqn:E. pose proof E as E'.
  apply appendSolidMember_inv in E as (Hl & [[Hr ->]|(Hr & fl & data & Ho & Hd & -> & Hm & Hz)]); [| |done|done].
  - specialize (IH stream Hs). destruct (packSolid open stream members) as [st rs]. cbn [snd map] in *.
    destruct (smr_err res) eqn:Er; [|done]. rewrite filter_cons_False by (unfold smr_ok; cbn; rewrite Er; auto). done.
  - specialize (IH _ Hl). rewrite Hr, Ho, Hd. destruct (packSolid open _ members) as [st rs]. cbn [snd map] in *.
    rewrite filter_cons_True by (unfold smr_ok; cbn; by rewrite Hr). cbn [map]. rewrite IH. f_equal.
    unfold appendSolidMember in E'. rewrite Ho, Hd in E'. destruct (of_stat fl); [|injection E' as _ E'; by subst res].
    destruct (_ || _); [by injection E' as _ <-|]. destruct (AppendSolidRecord _ _) as [out [err|]]; [by injection E' as _ <-|].
    by injection E' as _ <-.
Qed.

Lemma solid_record_listing off codec stored stream m : member_ok m ->
  record_listing (solid_record off codec stored stream m) = member_listing codec stored (len stream) m.
Proof.
  intros []. pose proof (len_nonneg (sm_Data m)). unfold record_listing, member_listing. cbn.
  rewrite i64_u64 by lia. by rewrite i64_u64 by apply i64_range.
Qed.

Lemma solid_recorded toLower opts p master ms r0 r e codec off :
  newCompressionPolicy opts = Ok p -> Forall member_ok ms -> ms <> [] -> len (encode_members ms) <= MaxSolidStreamSize ->
  sealSolidEntry toLower (KeysV2 master) p (encode_members ms) r0 r = Some (IOk (e, codec)) ->
  recorded (KeysV2 master) off e (map (solid_record off codec (stored_size (DataBlocks e)) (encode_members ms)) ms)
    (map (fun m => PubFile (sm_Name m) (sm_Data m) (Some (sm_Attributes m)) 420) ms).
Proof.
  intros Hpol Hms Hne Hs H.
  destruct (readSolidMembers_sealed _ _ _ _ _ _ _ _ _ Hpol Hms Hne Hs H) as (pm & payload & Hw & Hty & Hc & Hcc & Hse & Ho & Hr).
  apply payload_entry_stored in Hse. split; [done| | | |].
  - exists (map (member_listing codec (len payload) (len (encode_members ms))) ms). split.
    + split; [by right|]. intros rest. rewrite Hty. unfold listEntry, rbind at 1. rewrite <- app_assoc, readEntryHead_framed, Ho by done.
      change (EntryTypeSolid =? EntryTypeSolid) with true. cbv iota. unfold listSolidBody, rbind at 1. rewrite Hr.
      cbn [fst snd eh_pm]. by rewrite Hc.
    + intros _. rewrite map_map, Hse. apply map_ext_Forall. eapply Forall_impl; [exact Hms|]. intros m. apply solid_record_listing.
  - apply Forall_map. eapply Forall_impl; [exact Hms|]. intros m [].
    split; cbn; try done; [apply u64_pos|apply BucketizeSize_huge|apply u64_pos|apply u64_pos].
  - generalize (encode_members ms) as st. intros st. clear -Hms. induction Hms as [|m ms [] _ IH]; cbn [map]; constructor; [|done].
    pose proof (len_nonneg (sm_Data m)). cbn. by rewrite u64_small by lia.
  - apply Forall_map. by apply Forall_true.
Qed.

(** ** The directory builder *)

Definition dir_bytes (recs : list DirectoryRecord) : bytes := NewDirectory ++ concat (map encode_record recs).

(** The builder holds exactly [recs], or gave up because they outgrew the limit. *)
Definition keeps (d : directoryBuilder) (recs : list DirectoryRecord) : Prop :=
  if db_full d then MaxDirectorySize < len (dir_bytes recs)
  else db_plaintext d = dir_bytes recs /\ len (dir_bytes recs) <= MaxDirectorySize /\ Forall record_wf recs.

Lemma dir_bytes_snoc recs r : dir_bytes (recs ++ [r]) = dir_bytes recs ++ encode_record r.
Proof. unfold dir_bytes. rewrite map_app, concat_app. cbn [map concat]. by rewrite app_nil_r, app_assoc. Qed.

Lemma keeps_new : keeps newDirectoryBuilder [].
Proof. split; [done|]. split; [vm_compute; discriminate|constructor]. Qed.

Lemma AppendDirectoryRecord_wf dir r b : record_pre r -> AppendDirectoryRecord dir r = Ok b -> record_wf r.
Proof.
  intros [] H. unfold AppendDirectoryRecord, errorf in H. destruct (ValidEntryName (dr_Name r)) eqn:En; [|done]. cbn [negb] in H.
  destruct (_ && _) eqn:Ek; [done|]. destruct (AppendAttributes [] _) as [attrs|] eqn:Ea; [|done].
  apply AppendAttributes_Ok in Ea as [Hv _]. split; try done.
  destruct (Z.eqb_spec (Kind (dr_Attributes r)) KindRegular); [by left|right]. cbn [negb andb] in Ek.
  apply orb_false_iff in Ek as [E1 E2]. b2p. done.
Qed.

Lemma db_add_keeps r d d' recs : db_add r d = IOk d' -> record_pre r -> keeps d recs -> keeps d' (recs ++ [r]).
Proof.
  unfold db_add, keeps. intros Ha Hp Hk. rewrite dir_bytes_snoc, len_app. pose proof (encode_record_nonempty r).
  destruct (db_full d) eqn:Ef; [apply IOk_inj in Ha; subst d'; rewrite Ef; lia|]. destruct Hk as (Hb & Hl & Hw).
  destruct (AppendDirectoryRecord _ r) as [out|] eqn:Eo; [|done]. pose proof (AppendDirectoryRecord_wf _ _ _ Hp Eo) as Hr.
  apply AppendDirectoryRecord_Ok in Eo. rewrite Hb in Eo. subst out. rewrite len_app in Ha.
  destruct (Z.ltb_spec MaxDirectorySize (len (dir_bytes recs) + len (encode_record r))); apply IOk_inj in Ha; subst d'; cbn [db_full db_plaintext]; [lia|].
  split; [done|]. split; [done|]. apply Forall_app. split; [done|]. by constructor.
Qed.

Lemma add_members_keeps off ms : forall d d' recs, add_members off ms d = IOk d' ->
  Forall record_pre (map (member_record off) (filter smr_ok ms)) -> keeps d recs ->
  keeps d' (recs ++ map (member_record off) (filter smr_ok ms)).
Proof.
  induction ms as [|m ms IH]; intros d d' recs Ha Hp Hk; cbn [add_members] in Ha.
  - apply IOk_inj in Ha. subst d'. cbn. by rewrite app_nil_r.
  - destruct (smr_err m) eqn:Er.
    + rewrite filter_cons_False in * by (unfold smr_ok; rewrite Er; auto). by eapply IH.
    + rewrite filter_cons_True in * by (unfold smr_ok; by rewrite Er). cbn [map] in *. apply Forall_cons in Hp as [Hp Hps].
      destruct (db_add _ d) as [d1|] eqn:Ed; [|done]. cbn in Ha.
      rewrite cons_middle, app_assoc. eapply IH; [done|done|]. by eapply db_add_keeps.
Qed.

(** ** Where the writer is *)

Lemma aw_offset_tee p aw : aw_offset (tee p aw) = aw_offset aw + len p.
Proof. done. Qed.

Lemma sealed_offset b aw : aw_offset (writeSealed b aw) = aw_offset aw + len (encode_sealed b).
Proof. unfold writeSealed, encode_sealed. rewrite !aw_offset_tee, !len_app. lia. Qed.

Lemma blocks_offset bs : forall aw, aw_offset (fold_left AppendDataBlock bs aw) = aw_offset aw + len (concat (map encode_sealed bs)).
Proof.
  induction bs as [|b bs IH]; intros aw; cbn [fold_left map concat]; [rewrite len_nil; lia|].
  rewrite IH. unfold AppendDataBlock, writeDataBlock. rewrite sealed_offset, len_app. cbn [aw_offset]. lia.
Qed.

Lemma aw_offset_entry e aw : aw_offset (WriteFileEntry e aw) = aw_offset aw + len (encode_entry e).
Proof.
  unfold WriteFileEntry, writeTrailer, writePadding, writeMetadataBlock. cbv zeta.
  rewrite ?aw_offset_tee, ?sealed_offset, ?aw_offset_tee, blocks_offset, ?aw_offset_tee, ?sealed_offset, ?aw_offset_tee.
  unfold encode_entry, encode_head, encode_body, encode_blocks, encode_trailer, encode_padding.
  rewrite !len_app. change (aw_offset (startEntry aw)) with (aw_offset aw). lia.
Qed.

Lemma LastEntry_entry e aw : LastEntry (WriteFileEntry e aw) = (aw_offset aw, stored_size (DataBlocks e)).
Proof.
  unfold WriteFileEntry, writeTrailer, writeSealed, writePadding, LastEntry. cbn -[fold_left].
  match goal with |- context [fold_left AppendDataBlock ?bs ?a] => destruct (entry_bookkeeping bs a) as [-> ->] end. done.
Qed.
End Lists.
