(* ===== verification/Sessions.v ===== *)
(** * Writing sessions (io/incremental_write.go)

    An incremental archive on disk is its bytes; updating it overwrites the tail. A session
    chunks the changed files, appends the chunks the archive does not hold yet to pack
    entries, and closes with an index, a checkpoint and a footer. File reads may fail, and
    the archive file accepts every write; a missing compressor (a nil dereference) and
    running out of fuel are [None]. [rnd n] is the randomness of the n-th entry sealed. *)

From S2P Require Import Prelude Bytes Names Attributes Metadata IndexCodec Chunker Checkpoint Crypto Codec Frames.
From S2P Require Import Checksum Writer Signatures Recipients IOErrors Inputs SolidPlan Extractor Incremental Archiver Packs.
Open Scope go_scope.

(** ** Data *)

Record IncrementalResult := mk_ires {
  ir_Session : Z;
  ir_Created : bool;
  ir_Changed : Z;
  ir_Unchanged : Z;
  ir_Deleted : Z;
  ir_Failed : Z;
  ir_ChangedBytes : Z;
  ir_NewChunks : Z;
  ir_AppendedBytes : Z;
  ir_Repaired : bool;
  ir_Signed : bool;
  ir_SignatureRemoved : bool
}.

Definition zero_ires : IncrementalResult := mk_ires 0 false 0 0 0 0 0 0 0 false false false.

(** An input to record, with the [Stat] of a regular file, or the error that prevents it. *)
Record changedFile := mk_changed { cf_in : inputFile; cf_info : option fileInfo; cf_err : option ArchiveError }.

Inductive sessionError := errEmptySession | SessionFailed (e : ArchiveError).

(** ** Comparing inputs with the archive *)

(** [sameAttributes]; owners and attribute lists are compared by value. *)
Definition sameOwner (a b : option Owner) : bool :=
  match a, b with
  | None, None => true
  | Some x, Some y => bool_decide (x = y)
  | _, _ => false
  end.

Fixpoint sameXattrs (a b : list Xattr) : bool :=
  match a, b with
  | [], [] => true
  | x :: a, y :: b => bytes_eqb (xattr_Name x) (xattr_Name y) && bytes_eqb (xattr_Value x) (xattr_Value y) && sameXattrs a b
  | _, _ => false
  end.

Definition sameAttributes (a b : Attributes) : bool :=
  (Kind a =? Kind b) && (Mode a =? Mode b) && (ModTime a =? ModTime b) && bytes_eqb (LinkTarget a) (LinkTarget b) &&
  sameOwner (attr_Owner a) (attr_Owner b) && sameXattrs (Xattrs a) (Xattrs b).

Definition underAny (name : bytes) (prefixes : list bytes) : bool :=
  existsb (fun p => bytes_eqb name p || has_prefix (p ++ str "/") name) prefixes.

(** The entry of one input in the walk of [diffInputs]: [None] when it is unchanged. *)
Definition diff_input (stat : bytes -> result fileInfo) (files : gmap bytes FileVersion) (i : inputFile) : option changedFile :=
  let prev := files !! in_name i in
  if negb (regular i) then
    match prev with
    | Some p => if sameAttributes (fv_Attributes p) (in_attrs i) then None else Some (mk_changed i None None)
    | None => Some (mk_changed i None None)
    end
  else match stat (in_path i) with
  | Err _ => Some (mk_changed i None (Some (recoverable ErrCodeReadFailed "stat file")))
  | Ok info =>
      match prev with
      | Some p => if (fv_Size p =? u64 (fi_Size info)) && sameAttributes (fv_Attributes p) (in_attrs i)
                  then None else Some (mk_changed i (Some info) None)
      | None => Some (mk_changed i (Some info) None)
      end
  end.

Fixpoint diff_files (stat : bytes -> result fileInfo) (files : gmap bytes FileVersion) (ins : list inputFile) :
  list changedFile * Z :=
  match ins with
  | [] => ([], 0)
  | i :: ins =>
      let '(changed, unchanged) := diff_files stat files ins in
      match diff_input stat files i with
      | Some c => (c :: changed, unchanged)
      | None => (changed, 1 + unchanged)
      end
  end.

Section Sessions.
Context `{C : Crypto} `{ZS : Zstd} `{H : Sha256}.

Definition diffInputs (stat : bytes -> result fileInfo) (ia : incrementalArchive) (files : list inputFile) (skipped : list skippedInput) :
  list changedFile * list bytes * Z :=
  let '(changed, unchanged) := diff_files stat (ia_files ia) files in
  let protected := map sk_name (filter (fun s => sk_unreadable s = true /\ sk_name s <> []) skipped) in
  let deleted := filter (fun n => (n ∉ map in_name files) /\ underAny n protected = false) (map fv_Name (sortedFiles ia)) in
  (changed, deleted, unchanged).

(** ** The session writer *)

Record sessionWriter := mk_sw {
  sw_aw : ArchiveWriter;
  sw_ia : incrementalArchive;
  sw_idKey : bytes;
  sw_gear : list Z;
  sw_policy : compressionPolicy;
  sw_compressor : option BlockCompressor;
  sw_known : gmap bytes Z;
  sw_index : SessionIndex;
  sw_pack : option packWriter;
  sw_seq : nat
}.

Context (toLower : bytes -> bytes) (rnd : nat -> rng * rng) (now : Z).

Fixpoint known_chunks (n : Z) (chunks : list chunkLocation) (known : gmap bytes Z) : gmap bytes Z :=
  match chunks with
  | [] => known
  | c :: chunks => known_chunks (n + 1) chunks (<[cl_id c := n]> known)
  end.

Definition newSessionWriter (aw : ArchiveWriter) (ia : incrementalArchive) (opts : CompressionOptions) : iores sessionWriter :=
  let@ policy := or_fatal ErrCodeInvalidOption "invalid compression options" (newCompressionPolicy opts) in
  let@ idKey := or_fatal ErrCodeWriteFailed "derive chunk key" (ChunkIDKey (ia_keys ia)) in
  let@ gear := or_fatal ErrCodeWriteFailed "derive chunker table" (GearTable (ia_keys ia)) in
  let@ compressor :=
    match co_Mode opts with
    | CompressionNever => IOk None
    | _ => match NewChunkCompressor (co_Level opts) with
           | Ok bc => IOk (Some bc)
           | Err _ => IErr (fatal ErrCodeInvalidOption "invalid compression options")
           end
    end in
  IOk (mk_sw aw ia idKey gear policy compressor (known_chunks 0 (ia_chunks ia) ∅)
    (mk_index (u64 (ia_sessions ia + 1)) now (u64 (ia_lastIndex ia)) (u64 (len (ia_chunks ia))) [] [] [] []) None 0).

Definition sw_with (aw : ArchiveWriter) (si : SessionIndex) (p : option packWriter) (seq : nat) (sw : sessionWriter) : sessionWriter :=
  mk_sw aw (sw_ia sw) (sw_idKey sw) (sw_gear sw) (sw_policy sw) (sw_compressor sw) (sw_known sw) si p seq.

Definition sw_closePack (sw : sessionWriter) : sessionWriter :=
  match sw_pack sw with
  | None => sw
  | Some p => sw_with (pack_close (p, sw_aw sw)) (sw_index sw) None (sw_seq sw) sw
  end.

Definition add_pack (off : Z) (si : SessionIndex) : SessionIndex :=
  mk_index (Session si) (Time si) (PrevIndex si) (FirstChunk si) (Packs si ++ [off]) (Chunks si) (Files si) (Deleted si).
Definition add_chunk (c : ChunkRecord) (si : SessionIndex) : SessionIndex :=
  mk_index (Session si) (Time si) (PrevIndex si) (FirstChunk si) (Packs si) (Chunks si ++ [c]) (Files si) (Deleted si).
Definition add_file (f : FileVersion) (si : SessionIndex) : SessionIndex :=
  mk_index (Session si) (Time si) (PrevIndex si) (FirstChunk si) (Packs si) (Chunks si) (Files si ++ [f]) (Deleted si).
Definition set_deleted (d : list bytes) (si : SessionIndex) : SessionIndex :=
  mk_index (Session si) (Time si) (PrevIndex si) (FirstChunk si) (Packs si) (Chunks si) (Files si) d.

(** The pack [storeChunk] writes to: the open one, or a new one, recorded in the index. *)
Definition current_pack (sw : sessionWriter) : iores packWriter * sessionWriter :=
  match sw_pack sw with
  | Some p => (IOk p, sw)
  | None =>
      let si := add_pack (u64 (aw_offset (sw_aw sw))) (sw_index sw) in
      let '(r0, r) := rnd (sw_seq sw) in
      match openPack r0 r (sw_aw sw) with
      | IErr e => (IErr e, sw_with (sw_aw sw) si None (S (sw_seq sw)) sw)
      | IOk (p, aw) => (IOk p, sw_with aw si (Some p) (S (sw_seq sw)) sw)
      end
  end.

(** How [storeChunk] stores a chunk: compressed when that makes it smaller. *)
Definition stored_form (compressor : option BlockCompressor) (chunk : bytes) (codec : Z) : bytes * Z :=
  match compressor with
  | Some bc => if (codec =? CodecZstd) && (len (Compress bc chunk) <? len chunk) then (Compress bc chunk, CodecZstd) else (chunk, CodecNone)
  | None => (chunk, CodecNone)
  end.

Definition storeChunk (id chunk : bytes) (codec : Z) (sw : sessionWriter) : iores Z * sessionWriter :=
  let '(stored, storedCodec) := stored_form (sw_compressor sw) chunk codec in
  let sw := match sw_pack sw with
            | Some p => if MaxPackSize <? u64 (pw_size p + len stored) then sw_closePack sw else sw
            | None => sw
            end in
  match current_pack sw with
  | (IErr e, sw) => (IErr e, sw)
  | (IOk p, sw) =>
      let offset := pw_size p in
      let '(p, aw) := pack_write stored (p, sw_aw sw) in
      let ia := sw_ia sw in
      let n := u64 (len (ia_chunks ia)) in
      let packs := Packs (sw_index sw) in
      let packOffset := i64 (default 0 (last packs)) in
      let c := mk_chunk id (u32 (len packs - 1)) offset (u32 (len stored)) (u32 (len chunk)) storedCodec in
      let loc := mk_loc id packOffset offset (u32 (len stored)) (u32 (len chunk)) storedCodec in
      let ia := mk_ia (ia_keys ia) (ia_header ia) (ia_sessions ia) (ia_lastIndex ia) (ia_tail ia) (ia_hashState ia) (ia_recovered ia)
                      (ia_chunks ia ++ [loc]) (ia_files ia) in
      (IOk n, mk_sw aw ia (sw_idKey sw) (sw_gear sw) (sw_policy sw) (sw_compressor sw) (<[id := n]> (sw_known sw))
                (add_chunk c (sw_index sw)) (Some p) (sw_seq sw))
  end.

(** The chunk loop of [addFile]: the size and chunk numbers so far. *)
Fixpoint add_chunks (fuel : nat) (codec : Z) (ck : Chunker) (size : Z) (ns : list Z) (sw : sessionWriter) :
  option (iores (Z * list Z) * sessionWriter) :=
  match fuel with
  | O => None
  | S fuel =>
      match Next (sw_gear sw) ck with
      | (Err _, _) => Some (IErr (recoverable ErrCodeReadFailed "read file"), sw)
      | (Ok None, _) => Some (IOk (size, ns), sw)
      | (Ok (Some chunk), ck) =>
          let size := u64 (size + len chunk) in
          let id := ComputeHMAC (sw_idKey sw) chunk in
          match sw_known sw !! id with
          | Some n => add_chunks fuel codec ck size (ns ++ [n]) sw
          | None => match storeChunk id chunk codec sw with
                    | (IErr e, sw) => Some (IErr e, sw)
                    | (IOk n, sw) => add_chunks fuel codec ck size (ns ++ [n]) sw
                    end
          end
      end
  end.

Definition addFile (open : bytes -> result hostFile) (i : inputFile) (info : option fileInfo) (sw : sessionWriter) :
  option (iores FileVersion * sessionWriter) :=
  match open (in_path i) with
  | Err _ => Some (IErr (recoverable ErrCodeReadFailed "open file"), sw)
  | Ok f =>
  match info with
  | None => None
  | Some info =>
  match readProbe f (fi_Size info) (cp_mode (sw_policy sw)) with
  | Err _ => Some (IErr (recoverable ErrCodeReadFailed "read compression probe"), sw)
  | Ok probe =>
  match codecFor toLower (sw_policy sw) (in_name i) probe with
  | None => None
  | Some codec =>
  match add_chunks (S (length (hf_content f))) codec (NewChunker (mk_reader [hf_content f] (hf_readErr f))) 0 [] sw with
  | None => None
  | Some (IErr e, sw) => Some (IErr e, sw)
  | Some (IOk (size, ns), sw) => Some (IOk (mk_fileversion (in_name i) (in_attrs i) size ns), sw)
  end end end end end.

Definition sw_add_file (f : FileVersion) (sw : sessionWriter) : sessionWriter :=
  sw_with (sw_aw sw) (add_file f (sw_index sw)) (sw_pack sw) (sw_seq sw) sw.

Definition count_changed (bytes : Z) (res : IncrementalResult) : IncrementalResult :=
  mk_ires (ir_Session res) (ir_Created res) (ir_Changed res + 1) (ir_Unchanged res) (ir_Deleted res) (ir_Failed res)
    (i64 (ir_ChangedBytes res + bytes)) (ir_NewChunks res) (ir_AppendedBytes res) (ir_Repaired res) (ir_Signed res) (ir_SignatureRemoved res).
Definition count_failed (res : IncrementalResult) : IncrementalResult :=
  mk_ires (ir_Session res) (ir_Created res) (ir_Changed res) (ir_Unchanged res) (ir_Deleted res) (ir_Failed res + 1)
    (ir_ChangedBytes res) (ir_NewChunks res) (ir_AppendedBytes res) (ir_Repaired res) (ir_Signed res) (ir_SignatureRemoved res).

(** The loop of [writeSession] over the changed files. *)
Fixpoint add_changed (open : bytes -> result hostFile) (changed : list changedFile) (res : IncrementalResult) (sw : sessionWriter) :
  option (IncrementalResult * sessionWriter * option ArchiveError) :=
  match changed with
  | [] => Some (res, sw, None)
  | c :: changed =>
      match cf_err c with
      | Some _ => add_changed open changed (count_failed res) sw
      | None =>
          if negb (regular (cf_in c))
          then add_changed open changed (count_changed 0 res)
                 (sw_add_file (mk_fileversion (in_name (cf_in c)) (in_attrs (cf_in c)) 0 []) sw)
          else match addFile open (cf_in c) (cf_info c) sw with
               | None => None
               | Some (IErr e, sw) => if IsFatal e then Some (res, sw, Some e) else add_changed open changed (count_failed res) sw
               | Some (IOk v, sw) => add_changed open changed (count_changed (i64 (fv_Size v)) res) (sw_add_file v sw)
               end
      end
  end.

Definition writeIndex (sw : sessionWriter) : iores (Z * sessionWriter) :=
  let@ plaintext := or_fatal ErrCodeWriteFailed "encode session index" (Marshal (sw_index sw)) in
  let '(r0, r) := rnd (sw_seq sw) in
  let@ entry := sealPayloadEntry (aw_keys (sw_aw sw)) EntryTypeIndex CodecNone plaintext plaintext r0 r in
  let offset := aw_offset (sw_aw sw) in
  IOk (offset, sw_with (WriteFileEntry entry (sw_aw sw)) (sw_index sw) (sw_pack sw) (S (sw_seq sw)) sw).

(** [writeSession]: the result, the writer (also after a failure, when it holds what was
    written), and the error. *)
Definition writeSession (open : bytes -> result hostFile) (aw : ArchiveWriter) (ia : incrementalArchive) (changed : list changedFile)
  (deleted : list bytes) (opts : CompressionOptions) (allowEmpty : bool) :
  option (IncrementalResult * ArchiveWriter * option sessionError) :=
  match newSessionWriter aw ia opts with
  | IErr e => Some (zero_ires, aw, Some (SessionFailed e))
  | IOk sw =>
  let res := mk_ires (u64 (ia_sessions ia + 1)) false 0 0 (len deleted) 0 0 0 0 false false false in
  match add_changed open changed res sw with
  | None => None
  | Some (res, sw, Some e) => Some (res, sw_aw sw, Some (SessionFailed e))
  | Some (res, sw, None) =>
  if negb allowEmpty && (ir_Changed res =? 0) && (len deleted =? 0) then Some (res, sw_aw sw, Some errEmptySession)
  else
  let sw := sw_closePack sw in
  let sw := sw_with (sw_aw sw) (set_deleted deleted (sw_index sw)) (sw_pack sw) (sw_seq sw) sw in
  match writeIndex sw with
  | IErr e => Some (res, sw_aw sw, Some (SessionFailed e))
  | IOk (indexOffset, sw) =>
  match WriteCheckpointFooter indexOffset (sw_aw sw) with
  | Err _ => Some (res, sw_aw sw, Some (SessionFailed (fatal ErrCodeWriteFailed "write archive tail")))
  | Ok aw =>
      Some (mk_ires (ir_Session res) (ir_Created res) (ir_Changed res) (ir_Unchanged res) (ir_Deleted res) (ir_Failed res)
              (ir_ChangedBytes res) (len (Chunks (sw_index sw))) (ir_AppendedBytes res) (ir_Repaired res) (ir_Signed res)
              (ir_SignatureRemoved res), aw, None)
  end end end end.
End Sessions.
