(* ===== verification/Updates.v ===== *)
(** * Creating and updating incremental archives (io/incremental_write.go)

    The archive file is its bytes before and after: [writeTail] and [appendSession]
    overwrite it from the tail on, [truncateAndSync] cuts it, and a failed session puts
    back what it overwrote. *)

From S2P Require Import Prelude Bytes Names Attributes Metadata IndexCodec Chunker Checkpoint Crypto Codec Frames.
From S2P Require Import Checksum Writer Signatures Recipients IOErrors Inputs SolidPlan Extractor Incremental Archiver Packs Sessions.
Open Scope go_scope.

Section Updates.
Context `{C : Crypto} `{ZS : Zstd} `{H : Sha256} `{A : Age} `{SS : Ssh}.
Context (toLower : bytes -> bytes) (rnd : nat -> rng * rng) (rseal : rng) (now : Z).
Context (stat : bytes -> result fileInfo) (open : bytes -> result hostFile).

Definition truncateAndSync (size : Z) (f : bytes) : bytes := truncate size f.

Definition writeTail (f : bytes) (ia : incrementalArchive) (offset : Z) (hashState : bytes) (lastIndex : Z) : iores (bytes * bytes) :=
  let@ aw := or_fatal ErrCodeIntegrityFail "resume archive" (ResumeArchiveWriter (ia_keys ia) offset hashState) in
  let@ aw := or_fatal ErrCodeWriteFailed "write archive tail" (WriteCheckpointFooter lastIndex aw) in
  IOk (aw_checksum aw, truncateAndSync (aw_offset aw + FooterSize) (write_at f offset (aw_out aw))).

(** [repairTail]: the footer checksum, the file and the state it leaves. *)
Definition repairTail (f : bytes) (ia : incrementalArchive) : iores (bytes * bytes * incrementalArchive) :=
  let sum := cs_Write NewArchiveChecksum (ztake (ia_tail ia) f) in
  let@ state := or_fatal ErrCodeWriteFailed "save checksum state" (cs_MarshalBinary sum) in
  let@ '(checksum, f) := writeTail f ia (ia_tail ia) state (ia_lastIndex ia) in
  IOk (checksum, f, mk_ia (ia_keys ia) (ia_header ia) (ia_sessions ia) (ia_lastIndex ia) (ia_tail ia) (Some state) false
                          (ia_chunks ia) (ia_files ia)).

(** Putting back everything from the tail on, as [restore] in [appendSession]. *)
Definition restore_tail (oldTail : bytes) (tail size : Z) (f : bytes) : bytes := truncateAndSync size (write_at f tail oldTail).

(** [appendSession]: the result, the new footer checksum and end of the archive when a
    session was written, the error, and the file. *)
Definition appendSession (f : bytes) (ia : incrementalArchive) (changed : list changedFile) (deleted : list bytes)
  (opts : CompressionOptions) (res : IncrementalResult) (size : Z) :
  option (IncrementalResult * option (bytes * Z) * option ArchiveError * bytes) :=
  match read_at f (ia_tail ia) (size - ia_tail ia) with
  | Err _ => Some (res, None, Some (fatal ErrCodeReadFailed "read archive tail"), f)
  | Ok oldTail =>
  let archiveEnd := ia_tail ia + TailSize in
  match ResumeArchiveWriter (ia_keys ia) (ia_tail ia) (default [] (ia_hashState ia)) with
  | Err _ => Some (res, None, Some (fatal ErrCodeIntegrityFail "resume archive"), f)
  | Ok aw =>
  match writeSession toLower rnd now open aw ia changed deleted opts false with
  | None => None
  | Some (sessionRes, aw, err) =>
  let written := write_at f (ia_tail ia) (aw_out aw) in
  match err with
  | Some errEmptySession =>
      Some (mk_ires (ir_Session res) (ir_Created res) (ir_Changed res) (ir_Unchanged res) (ir_Deleted res) (ir_Failed sessionRes)
              (ir_ChangedBytes res) (ir_NewChunks res) (ir_AppendedBytes res) (ir_Repaired res) (ir_Signed res) (ir_SignatureRemoved res),
            None, None, restore_tail oldTail (ia_tail ia) size written)
  | Some (SessionFailed e) => Some (res, None, Some e, restore_tail oldTail (ia_tail ia) size written)
  | None =>
      let fin := aw_offset aw + FooterSize in
      let written := truncateAndSync fin written in
      match fst (SealFileCount (ia_keys ia) (ir_Session sessionRes) rseal) with
      | Err _ => Some (res, None, Some (fatal ErrCodeWriteFailed "seal session count"), written)
      | Ok sealed =>
          Some (mk_ires (ir_Session sessionRes) (ir_Created sessionRes) (ir_Changed sessionRes) (ir_Unchanged res) (ir_Deleted sessionRes)
                  (ir_Failed sessionRes) (ir_ChangedBytes sessionRes) (ir_NewChunks sessionRes) (fin - archiveEnd) (ir_Repaired res)
                  (ir_Signed sessionRes) (ir_SignatureRemoved sessionRes),
                Some (aw_checksum aw, fin), None,
                write_at written (FileCountOffset (hi_recipientBlockLen (ia_header ia))) sealed)
      end
  end end end end.

Definition set_signed (res : IncrementalResult) : IncrementalResult :=
  mk_ires (ir_Session res) (ir_Created res) (ir_Changed res) (ir_Unchanged res) (ir_Deleted res) (ir_Failed res)
    (ir_ChangedBytes res) (ir_NewChunks res) (ir_AppendedBytes res) (ir_Repaired res) true (ir_SignatureRemoved res).
Definition set_removed (b : bool) (res : IncrementalResult) : IncrementalResult :=
  mk_ires (ir_Session res) (ir_Created res) (ir_Changed res) (ir_Unchanged res) (ir_Deleted res) (ir_Failed res)
    (ir_ChangedBytes res) (ir_NewChunks res) (ir_AppendedBytes res) (ir_Repaired res) (ir_Signed res) b.

(** Sign [f] at [fin], the last step of a run. *)
Definition sign_file (f : bytes) (fin : Z) (checksum : bytes) (signer : Signer) (res : IncrementalResult) :
  IncrementalResult * option ArchiveError * bytes :=
  match writeSignature f fin checksum signer with
  | IErr e => (res, Some e, f)
  | IOk f => (set_signed res, None, f)
  end.

Definition finishUnchanged (f : bytes) (ia : incrementalArchive) (res : IncrementalResult) (signature checksum : option bytes)
  (signer : option Signer) : IncrementalResult * option ArchiveError * bytes :=
  let fin := ia_tail ia + TailSize in
  match signer with
  | None => (set_removed (ir_Repaired res && bool_decide (is_Some signature)) res, None, f)
  | Some signer =>
      match checksum with
      | Some checksum => sign_file f fin checksum signer res
      | None =>
          match read_at f (fin - FooterSize) HMACSize with
          | Err _ => (res, Some (fatal ErrCodeReadFailed "read footer"), f)
          | Ok footer =>
              if match signature with Some sg => signedBy sg footer (sg_PublicKey signer) | None => false end
              then (res, None, f)
              else match archiveChecksum f fin with
                   | IErr e => (res, Some e, f)
                   | IOk checksum => sign_file f fin checksum signer res
                   end
          end
      end
  end.

(** The part of [updateIncremental] after the archive was loaded and repaired. *)
Definition update_loaded (f : bytes) (ia : incrementalArchive) (files : list inputFile) (skipped : list skippedInput)
  (opts : CompressionOptions) (signer : option Signer) (res : IncrementalResult) (signature checksum : option bytes) (size : Z) :
  option (IncrementalResult * option ArchiveError * bytes) :=
  let '(changed, deleted, unchanged) := diffInputs stat ia files skipped in
  let res := mk_ires (ir_Session res) (ir_Created res) (ir_Changed res) unchanged (ir_Deleted res) (ir_Failed res)
               (ir_ChangedBytes res) (ir_NewChunks res) (ir_AppendedBytes res) (ir_Repaired res) (ir_Signed res) (ir_SignatureRemoved res) in
  if (len changed =? 0) && (len deleted =? 0)
  then Some (finishUnchanged f ia res signature checksum signer)
  else match appendSession f ia changed deleted opts res size with
  | None => None
  | Some (res, None, err, f) => Some (res, err, f)
  | Some (res, Some _, Some e, f) => Some (res, Some e, f)
  | Some (res, Some (checksum, fin), None, f) =>
      Some (match signer, signature with
            | Some signer, _ => sign_file f fin checksum signer res
            | None, Some _ => (set_removed true res, None, f)
            | None, None => (res, None, f)
            end)
  end.

Definition updateIncremental (u : Unlockers) (f : bytes) (files : list inputFile) (skipped : list skippedInput)
  (opts : CompressionOptions) (signer : option Signer) : option (IncrementalResult * option ArchiveError * bytes) :=
  match fst (readHeader u f) with
  | IErr e => Some (zero_ires, Some e, f)
  | IOk (keys, header) =>
  if negb (hi_incremental header)
  then Some (zero_ires, Some (fatal ErrCodeInvalidOption "the output exists and is not an incremental archive"), f)
  else match splitSignature f (len f) with
  | IErr e => Some (zero_ires, Some e, f)
  | IOk (proper, signature) =>
  match loadIncremental f proper keys header with
  | Panics | Loops => None
  | Returns (IErr e) => Some (zero_ires, Some e, f)
  | Returns (IOk ia) =>
  let res := mk_ires (ia_sessions ia) false 0 0 0 0 0 0 0 false false false in
  if ia_recovered ia then
    match repairTail f ia with
    | IErr e => Some (res, Some e, f)
    | IOk (checksum, f, ia) =>
        update_loaded f ia files skipped opts signer
          (mk_ires (ia_sessions ia) false 0 0 0 0 0 0 0 true false false) signature (Some checksum) (ia_tail ia + TailSize)
    end
  else update_loaded f ia files skipped opts signer res signature None (len f)
  end end end.

(** The changes [createIncremental] records: every input. *)
Definition initial_changes (files : list inputFile) : list changedFile :=
  map (fun i => if negb (regular i) then mk_changed i None None
                else match stat (in_path i) with
                     | Ok info => mk_changed i (Some info) None
                     | Err _ => mk_changed i None (Some (recoverable ErrCodeReadFailed "stat file"))
                     end) files.

(** [createIncremental], after [newCredentialedWriter] has made the key [cek] and its
    recipient block: the new archive, unless it failed. *)
Definition createIncremental (cek block : bytes) (r : rng) (files : list inputFile) (opts : CompressionOptions) (signer : option Signer) :
  option (IncrementalResult * option ArchiveError * option bytes) :=
  match WriteHeaderWithFlags 1 HeaderFlagIncremental r (NewArchiveWriter cek block) with
  | Err _ => Some (zero_ires, Some (fatal ErrCodeWriteFailed "write header"), None)
  | Ok aw =>
  let ia := mk_ia (aw_keys aw) (mk_hinfo 0 0 0) 0 0 0 None false [] ∅ in
  match writeSession toLower rnd now open aw ia (initial_changes files) [] opts true with
  | None => None
  | Some (res, aw, Some (SessionFailed e)) => Some (res, Some e, None)
  | Some (res, aw, Some errEmptySession) => Some (res, None, None)
  | Some (res, aw, None) =>
      let created signed out :=
        Some (mk_ires (ir_Session res) true (ir_Changed res) (ir_Unchanged res) (ir_Deleted res) (ir_Failed res) (ir_ChangedBytes res)
                (ir_NewChunks res) (aw_offset aw + FooterSize) (ir_Repaired res) signed (ir_SignatureRemoved res), None, Some out) in
      match signer with
      | None => created false (aw_out aw)
      | Some signer =>
          match signatureBlock (aw_checksum aw) signer with
          | IErr e => Some (res, Some e, None)
          | IOk sig => created true (aw_out aw ++ sig)
          end
      end
  end end.

(** [ArchiveIncremental] on the archive file at the path, if there is one. *)
Definition ArchiveIncremental (files : list inputFile) (skipped : list skippedInput) (existing : option bytes) (u : Unlockers)
  (cek block : bytes) (r : rng) (opts : CompressionOptions) (signer : option Signer) :
  option (IncrementalResult * option ArchiveError * option bytes) :=
  if co_Solid opts then Some (zero_ires, Some (fatal ErrCodeInvalidOption "solid mode does not apply to incremental archives"), existing)
  else if existsb (fun s => sk_unreadable s && bytes_eqb (sk_name s) []) skipped
  then Some (zero_ires, Some (fatal ErrCodeReadFailed "cannot read input; refusing to record its files as deleted"), existing)
  else match existing with
  | None => createIncremental cek block r files opts signer
  | Some f => match updateIncremental u f files skipped opts signer with
              | None => None
              | Some (res, e, f) => Some (res, e, Some f)
              end
  end.
End Updates.
