(* ===== verification/SessionLemmas.v ===== *)
(** * Sessions inside an archive: where entries lie and what they hold

    Entries at offsets of a file, the packs and chunks a session relies on, and the session
    writer's invariant: every chunk it has numbered is stored where its location says. *)

From S2P Require Import Prelude Bytes Names Attributes Metadata IndexCodec Chunker Checkpoint Crypto Codec Frames.
From S2P Require Import Checksum Writer Signatures Recipients IOErrors Inputs SolidPlan Extractor ExtractorLemmas ExtractorProofs.
From S2P Require Import RoundTrip Incremental Archiver Packs Sessions.
Open Scope go_scope.

(** ** Entries in a file *)

(** Entry [e] lies in [F] at offset [off]. *)
Definition entry_at (F : bytes) (off : Z) (e : FileEntry) : Prop :=
  exists pre post, F = pre ++ encode_entry e ++ post /\ len pre = off.

Lemma entry_at_app F off e X : entry_at F off e -> entry_at (F ++ X) off e.
Proof. intros (pre & post & -> & Hp). exists pre, (post ++ X). by rewrite <- !app_assoc. Qed.

Lemma entry_at_end F e : entry_at (F ++ encode_entry e) (len F) e.
Proof. exists F, []. by rewrite app_nil_r. Qed.

Lemma encode_entry_pos e : 0 < len (encode_entry e).
Proof. unfold encode_entry. rewrite len_app, len_cons. len_lia. Qed.

Lemma entry_at_range F off e : entry_at F off e -> 0 <= off /\ off + len (encode_entry e) <= len F.
Proof. intros (pre & post & -> & <-). rewrite !len_app. pose proof (len_nonneg pre). pose proof (len_nonneg post). lia. Qed.

(** Overwriting bytes before an entry, as resealing the header does, leaves it alone. *)
Lemma entry_at_header F F' hl off e : zdrop hl F = zdrop hl F' -> 0 <= hl <= off -> hl <= len F' -> hl <= len F -> entry_at F off e -> entry_at F' off e.
Proof.
  intros Hz Ho Hl Hl2 (pre & post & -> & Hp). exists (ztake hl F' ++ zdrop hl pre), post. split.
  - rewrite <- app_assoc, <- zdrop_app_le by lia. rewrite Hz. symmetry. apply ztake_zdrop.
  - rewrite len_app, len_ztake, len_zdrop by lia. lia.
Qed.

(** Reading at an entry's offset, within any size that includes it. *)
Lemma entryReaderAt_entry F off e ra size : entry_at F off e -> F `prefix_of` ra -> len F <= size ->
  exists rest, entryReaderAt ra size off = zb (EntryType e) :: encode_head e ++ encode_body e ++ rest.
Proof.
  intros (pre & post & -> & <-) [X ->] Hs. unfold entryReaderAt. rewrite <- !app_assoc, zdrop_app by done.
  rewrite !len_app in Hs. pose proof (len_nonneg post).
  exists (ztake (size - len pre - len (encode_entry e)) (post ++ X)). rewrite ztake_app_ge by lia. unfold encode_entry at 1. by rewrite <- !app_assoc.
Qed.

Section Stored.
Context `{C : Crypto} `{CL : !CryptoLaws C} `{ZS : Zstd} `{ZL : !ZstdLaws ZS} `{H : Sha256} `{HL : !Sha256Laws H}.
Context (master : bytes).

(** ** Reading payload entries back *)

Lemma deliver_payload key limit bs chunks : Forall2 (opens_to key CodecNone) bs chunks -> forall acc,
  len (acc ++ concat chunks) <= limit -> deliver (payload_sink limit) key CodecNone acc bs = (acc ++ concat chunks, None).
Proof.
  induction 1 as [|b c bs cs [Ho _] _ IH]; intros acc Hl; cbn [deliver concat] in *; [by rewrite app_nil_r|].
  rewrite Ho. unfold payload_sink. rewrite (proj2 (Z.ltb_ge _ _)); [|rewrite !len_app in Hl; pose proof (len_nonneg (concat cs)); lia].
  rewrite IH; [|by rewrite <- app_assoc]. by rewrite <- app_assoc.
Qed.

Lemma readPayloadBody_holds ty pt e limit what rest : holds_payload master ty pt e -> len pt <= limit -> len pt < 2 ^ 63 ->
  readPayloadBody (KeysV2 master) limit what (encode_head e ++ encode_body e ++ rest) = (IOk pt, rest).
Proof.
  intros [Hw Hty [pm Ho] (chunks & Hc & Hf) Ht] Hl Hb. pose proof Hw as []. unfold readPayloadBody.
  rewrite readEntryHead_framed, Ho by done. unfold encode_body. rewrite <- !app_assoc. rewrite takes_skipPadding by done.
  cbn [eh_fileKey]. unfold streamDataBlocks. rewrite read_blocks_framed; [|done|apply encode_blocks_length].
  rewrite (deliver_payload _ _ _ _ Hf) by (cbn; by rewrite Hc). cbn [app]. rewrite readTrailer_framed by done.
  change (ks_Version (KeysV2 master)) with Version2. rewrite Ht, Hc. by rewrite verify_self.
Qed.

(** [si] is the session index at [off]. *)
Definition index_at (F : bytes) (off : Z) (si : SessionIndex) : Prop :=
  exists e pt, entry_at F off e /\ holds_payload master EntryTypeIndex pt e /\ len pt <= MaxIndexSize /\ ParseSessionIndex pt = Some (Ok si).

Lemma index_at_app F off si X : index_at F off si -> index_at (F ++ X) off si.
Proof. intros (e & pt & He & Hr). exists e, pt. split; [by apply entry_at_app|done]. Qed.

Lemma readIndexBody_holds pt e si rest : holds_payload master EntryTypeIndex pt e -> len pt <= MaxIndexSize -> ParseSessionIndex pt = Some (Ok si) ->
  readIndexBody (KeysV2 master) (encode_head e ++ encode_body e ++ rest) = Some (IOk si, rest).
Proof.
  intros Hh Hl Hp. unfold readIndexBody. rewrite (readPayloadBody_holds _ _ _ _ _ _ Hh) by (unfold MaxIndexSize in *; lia). by rewrite Hp.
Qed.

Lemma readIndexAt_index F off si ra size : index_at F off si -> F `prefix_of` ra -> len F <= size ->
  readIndexAt ra size (KeysV2 master) off = Some (IOk si).
Proof.
  intros (e & pt & He & Hh & Hl & Hp) Hra Hs. unfold readIndexAt.
  destruct (entryReaderAt_entry F off e ra size He Hra Hs) as [rest ->].
  rewrite (hp_type _ _ _ _ Hh). change (bz (zb EntryTypeIndex) =? EntryTypeIndex) with true. cbn [negb].
  by rewrite (readIndexBody_holds pt e si).
Qed.

(** ** Packs and chunks *)

(** The packs of [F]: offset and plaintext. *)
Definition packs_in (F : bytes) (packs : gmap Z bytes) : Prop :=
  forall off pt, packs !! off = Some pt -> exists e, entry_at F off e /\ holds_payload master EntryTypePack pt e.

Lemma packs_in_app F packs X : packs_in F packs -> packs_in (F ++ X) packs.
Proof. intros Hp off pt Ho. destruct (Hp off pt Ho) as (e & He & Hh). exists e. split; [by apply entry_at_app|done]. Qed.

Lemma packs_in_range F packs off pt : packs_in F packs -> packs !! off = Some pt -> 0 <= off < len F.
Proof. intros Hp Ho. destruct (Hp off pt Ho) as (e & He & _). apply entry_at_range in He. pose proof (encode_entry_pos e). lia. Qed.

(** [deliverChunk]'s decoding of stored bytes. *)
Definition decode_chunk (codec : Z) (stored : bytes) : result bytes :=
  if codec =? CodecZstd then Decompress NewChunkDecompressor stored else Ok stored.

(** Chunk [c] of a pack with plaintext [pt] holds [raw]. *)
Record chunk_holds (pt : bytes) (c : chunkLocation) (raw : bytes) : Prop := {
  kh_offset : 0 <= cl_offset c;
  kh_stored : 1 <= cl_stored c;
  kh_end : cl_offset c + cl_stored c <= len pt;
  kh_decode : decode_chunk (cl_codec c) (ztake (cl_stored c) (zdrop (cl_offset c) pt)) = Ok raw;
  kh_raw : len raw = cl_raw c;
  kh_pos : 0 < cl_raw c;
  kh_id : cl_id c = ComputeHMAC (DeriveChunkIDKey master) raw
}.

Lemma chunk_holds_app pt c raw X : chunk_holds pt c raw -> chunk_holds (pt ++ X) c raw.
Proof.
  intros []. constructor; try done; [rewrite len_app; pose proof (len_nonneg X); lia|].
  rewrite zdrop_app_le by lia. rewrite ztake_app_le; [done|]. rewrite len_zdrop; lia.
Qed.

(** Every chunk is stored in one of [packs], and the chunks of a pack follow each other. *)
Record chunk_store (packs : gmap Z bytes) (chunks : list chunkLocation) (raws : list bytes) : Prop := {
  st_held : Forall2 (fun c raw => exists pt, packs !! cl_packOffset c = Some pt /\ chunk_holds pt c raw) chunks raws;
  st_order : forall i j c d, (i < j)%nat -> chunks !! i = Some c -> chunks !! j = Some d ->
    cl_packOffset c = cl_packOffset d -> cl_offset c + cl_stored c <= cl_offset d
}.

Lemma chunk_store_nil packs : chunk_store packs [] [].
Proof. split; [constructor|]. intros i j c d _ Hi. by rewrite lookup_nil in Hi. Qed.

Lemma chunk_store_len packs chunks raws : chunk_store packs chunks raws -> length chunks = length raws.
Proof. intros [Hf _]. by apply Forall2_length in Hf. Qed.

(** The plaintext of the pack at [off] grows. *)
Lemma chunk_store_grow packs chunks raws off pt X : chunk_store packs chunks raws -> packs !! off = Some pt ->
  chunk_store (<[off := pt ++ X]> packs) chunks raws.
Proof.
  intros [Hf Ho] Hp. split; [|done]. eapply Forall2_impl; [exact Hf|]. intros c raw (pt' & Hc & Hh). cbn.
  destruct (decide (off = cl_packOffset c)) as [->|Hne].
  - rewrite lookup_insert_eq. rewrite Hp in Hc. injection Hc as <-. eexists. split; [done|]. by apply chunk_holds_app.
  - rewrite lookup_insert_ne by done. by exists pt'.
Qed.

Lemma chunk_store_new_pack packs chunks raws off pt : chunk_store packs chunks raws -> packs !! off = None ->
  chunk_store (<[off := pt]> packs) chunks raws.
Proof.
  intros [Hf Ho] Hp. split; [|done]. eapply Forall2_impl; [exact Hf|]. intros c raw (pt' & Hc & Hh). cbn.
  rewrite lookup_insert_ne by (intros ->; congruence). by exists pt'.
Qed.

(** A chunk added at the end of a pack. *)
Lemma chunk_store_snoc packs chunks raws c raw pt : chunk_store packs chunks raws -> packs !! cl_packOffset c = Some pt ->
  chunk_holds pt c raw -> (forall d, d ∈ chunks -> cl_packOffset d = cl_packOffset c -> cl_offset d + cl_stored d <= cl_offset c) ->
  chunk_store packs (chunks ++ [c]) (raws ++ [raw]).
Proof.
  intros [Hf Ho] Hp Hh Hl. split.
  - apply Forall2_app; [done|]. constructor; [by exists pt|constructor].
  - intros i j d1 d2 Hij Hi Hj Hpo. assert (j < length (chunks ++ [c]))%nat as Hjl by (by eapply lookup_lt_Some). rewrite length_app in Hjl. cbn in Hjl.
    destruct (decide (j < length chunks)%nat) as [Hlt|Hge].
    + rewrite lookup_app_l in Hj by done. rewrite lookup_app_l in Hi by lia. exact (Ho i j d1 d2 Hij Hi Hj Hpo).
    + assert (j = length chunks) as -> by lia. rewrite list_lookup_middle in Hj by done. injection Hj as <-.
      rewrite lookup_app_l in Hi by lia. apply Hl; [by eapply list_elem_of_lookup_2|done].
Qed.

(** ** The writer only appends *)

Definition extends (a b : ArchiveWriter) : Prop := exists X, aw_out b = aw_out a ++ X /\ aw_offset b = aw_offset a + len X.

#[export] Instance extends_preorder : PreOrder extends.
Proof.
  split; [intros a; exists []; rewrite app_nil_r; change (len []) with 0; split; [done|lia]|].
  intros a b c (X & Ho & Hf) (Y & Ho' & Hf'). exists (X ++ Y). rewrite Ho', Ho, app_assoc, len_app. split; [done|lia].
Qed.

Lemma extends_offset a b : extends a b -> aw_offset a <= aw_offset b.
Proof. intros (X & _ & ->). pose proof (len_nonneg X). lia. Qed.

Lemma extends_tee p aw : extends aw (tee p aw).
Proof. by exists p. Qed.

Lemma extends_sealed b aw : extends aw (writeSealed b aw).
Proof. unfold writeSealed. do 2 (etrans; [|apply extends_tee]). apply extends_tee. Qed.

Lemma extends_padding pad aw : extends aw (writePadding pad aw).
Proof. unfold writePadding. etrans; [|apply extends_tee]. apply extends_tee. Qed.

Lemma extends_blocks bs : forall aw, extends aw (fold_left AppendDataBlock bs aw).
Proof.
  induction bs as [|b bs IH]; intros aw; cbn [fold_left]; [done|]. etrans; [|apply IH]. unfold AppendDataBlock, writeDataBlock.
  etrans; [|apply extends_sealed]. exists []. cbn [aw_out aw_offset]. rewrite app_nil_r. change (len []) with 0. split; [done|lia].
Qed.

Lemma keys_blocks bs : forall aw, aw_keys (fold_left AppendDataBlock bs aw) = aw_keys aw.
Proof. induction bs as [|b bs IH]; intros aw; cbn [fold_left]; [done|]. by rewrite IH. Qed.

Lemma keys_entry e aw : aw_keys (WriteFileEntry e aw) = aw_keys aw.
Proof. etrans; [apply (keys_blocks (DataBlocks e))|reflexivity]. Qed.

Lemma extends_begin ty salt fh meta pad aw : extends aw (BeginFileEntry ty salt fh meta pad aw).
Proof.
  unfold BeginFileEntry, writeMetadataBlock. etrans; [|apply extends_padding]. etrans; [|apply extends_sealed].
  do 3 (etrans; [|apply extends_tee]). exists []. cbn [aw_out aw_offset startEntry]. rewrite app_nil_r. change (len []) with 0. split; [done|lia].
Qed.

Lemma extends_end t aw : extends aw (EndFileEntry t aw).
Proof.
  unfold EndFileEntry, writeTrailer. etrans; [|apply extends_tee]. etrans; [|apply extends_sealed]. etrans; [|apply extends_padding]. apply extends_tee.
Qed.

Lemma extends_file_entry e aw : extends aw (WriteFileEntry e aw).
Proof.
  rewrite <- streamed_is_whole. etrans; [|apply extends_end]. etrans; [|apply extends_blocks]. apply extends_begin.
Qed.

Lemma openPack_extends r0 r aw p aw' : openPack r0 r aw = IOk (p, aw') -> extends aw aw'.
Proof.
  unfold openPack. destruct (draw SaltSize r0) as [salt r1]. destruct (FrameHeader r) as [fh r2]. destruct (Seal _ _ r1) as [[mb|] r3]; [|done].
  cbn [or_fatal]. destruct (InterBlockPadding r2) as [ip r4]. destruct (NextChunkSize r4) as [next r5]. intros E. apply IOk_inj in E.
  assert (aw' = snd (p, aw')) as -> by done. rewrite <- E. cbn [snd]. apply extends_begin.
Qed.

Lemma pack_seal_extends block x : extends (snd x) (snd (pack_seal block x)).
Proof.
  destruct x as [p aw]. unfold pack_seal. destruct (EncryptChunk _ _ _) as [db r]. destruct (NextChunkSize r) as [next r2]. cbn [snd].
  apply (extends_blocks [db] aw).
Qed.

Lemma seal_loop_extends fuel : forall data x, extends (snd x) (snd (seal_loop fuel data x)).
Proof.
  induction fuel as [|fuel IH]; intros data [p aw]; cbn [seal_loop]; [done|]. destruct (_ <=? _); [|done].
  etrans; [|apply IH]. apply (pack_seal_extends _ (p, aw)).
Qed.

Lemma pack_write_extends data x : extends (snd x) (snd (pack_write data x)).
Proof.
  destruct x as [p aw]. unfold pack_write. destruct (0 <? _); [|match goal with |- context [seal_loop ?f ?d ?x] => exact (seal_loop_extends f d x) end]. cbv zeta.
  destruct (_ <? _); [done|]. match goal with |- context [pack_seal ?b ?x] => pose proof (pack_seal_extends b x) as Hs; destruct (pack_seal b x) as [p' aw'] end.
  cbn [snd] in *. etrans; [exact Hs|]. match goal with |- context [seal_loop ?f ?d ?x] => exact (seal_loop_extends f d x) end.
Qed.

Lemma pack_close_extends x : extends (snd x) (pack_close x).
Proof.
  unfold pack_close. destruct (0 <? _).
  - pose proof (pack_seal_extends (pw_buf (fst x)) x) as Hs. destruct (pack_seal _ x) as [p aw]. destruct (BuildTrailer _ _ _ _) as [t r].
    cbn [snd] in Hs. etrans; [exact Hs|apply extends_end].
  - destruct x as [p aw]. destruct (BuildTrailer _ _ _ _) as [t r]. apply extends_end.
Qed.

(** ** Where the session writer is *)

(** The archive is [F] up to the pack being written, if any, and its packs, the open one
    included, hold [packs]; [ps] are the pack offsets recorded in the index. *)
Definition writing (P : bytes) (aw : ArchiveWriter) (pk : option packWriter) (ps : list Z) (F : bytes) (packs : gmap Z bytes) : Prop :=
  match pk with
  | None => exists B, wrote aw P B /\ F = P ++ B /\ aw_keys aw = KeysV2 master /\ packs_in F packs /\ Forall (fun p => p < len F) ps
  | Some p => exists aw0 h B w packs0, wrote aw0 P B /\ F = P ++ B /\ aw_keys aw0 = KeysV2 master /\ head_ok master h /\
      packing h aw0 w (p, aw) /\ packs_in F packs0 /\ packs = <[len F := w]> packs0 /\ len w <= MaxPackSize /\
      last ps = Some (len F) /\ Forall (fun p => p <= len F) ps
  end.

(** The bytes of the pack being written. *)
Lemma writing_open P aw p ps F packs : writing P aw (Some p) ps F packs ->
  exists w, packs !! len F = Some w /\ pw_size p = len w /\ len w <= MaxPackSize.
Proof.
  intros (aw0 & h & B & w & packs0 & _ & _ & _ & _ & (sealed & _ & _ & _ & _ & Hs) & _ & -> & Hl & _). exists w.
  rewrite lookup_insert_eq. split; [done|]. split; [|done]. cbn [fst] in Hs. rewrite Hs. pose proof (len_nonneg w).
  unfold u64, MaxPackSize in *. apply Z.mod_small. lia.
Qed.

Lemma writing_fresh P aw ps F packs : writing P aw None ps F packs -> packs !! len F = None.
Proof.
  intros (B & _ & _ & _ & Hp & _). destruct (packs !! len F) as [pt|] eqn:E; [|done].
  apply (packs_in_range _ _ _ _ Hp) in E. lia.
Qed.

Lemma writing_close P aw p ps F packs : writing P aw (Some p) ps F packs ->
  exists F', F `prefix_of` F' /\ writing P (pack_close (p, aw)) None ps F' packs.
Proof.
  intros (aw0 & h & B & w & packs0 & Hw & -> & Hk & Hh & Hp & Hin & -> & Hl & _ & Hps).
  destruct (pack_close_entry master h aw0 w (p, aw) Hp ltac:(unfold MaxPackSize in Hl; lia) Hh) as (e & -> & He).
  exists ((P ++ B) ++ encode_entry e). split; [by eexists|]. exists (B ++ encode_entry e). split; [by apply wrote_entry|].
  split; [by rewrite app_assoc|]. split; [by rewrite keys_entry|]. split.
  - intros off pt Ho. destruct (decide (off = len (P ++ B))) as [->|Hne].
    + rewrite lookup_insert_eq in Ho. injection Ho as <-. exists e. split; [apply entry_at_end|done].
    + rewrite lookup_insert_ne in Ho by done. destruct (Hin off pt Ho) as (e' & He' & Hh'). exists e'. split; [by apply entry_at_app|done].
  - eapply Forall_impl; [exact Hps|]. intros q Hq. cbv beta in *. rewrite (len_app (P ++ B)). pose proof (encode_entry_pos e). lia.
Qed.

Lemma writing_new P aw ps F packs r0 r p aw' : writing P aw None ps F packs -> openPack r0 r aw = IOk (p, aw') ->
  writing P aw' (Some p) (ps ++ [len F]) F (<[len F := []]> packs).
Proof.
  intros (B & Hw & -> & Hk & Hin & Hps) Ho. destruct (openPack_packing master r0 r aw (p, aw') Hk Ho) as (h & Hp & Hh).
  exists aw, h, B, [], packs. repeat (split; [done|]). split; [apply last_snoc|].
  apply Forall_app. split; [|by constructor]. eapply Forall_impl; [exact Hps|]. intros q Hq. cbv beta in *. lia.
Qed.

Lemma writing_write P aw p ps F packs w stored : writing P aw (Some p) ps F packs -> packs !! len F = Some w -> len (w ++ stored) <= MaxPackSize ->
  forall p' aw', pack_write stored (p, aw) = (p', aw') -> writing P aw' (Some p') ps F (<[len F := w ++ stored]> packs).
Proof.
  intros (aw0 & h & B & w0 & packs0 & Hw & -> & Hk & Hh & Hp & Hin & -> & Hl & Hla & Hps) Hlk Hlen p' aw' E.
  rewrite lookup_insert_eq in Hlk. injection Hlk as ->. exists aw0, h, B, (w ++ stored), packs0. repeat (split; [done|]).
  split; [rewrite <- E; by apply pack_write_packing|]. split; [done|]. split; [by rewrite insert_insert_eq|]. done.
Qed.
End Stored.
