(* ===== verification/SessionWriter.v ===== *)
(** * The session writer stores what it numbers

    The invariant of [sessionWriter] and its preservation by [storeChunk], [addFile] and
    the loop of [writeSession]: each chunk has a number, each number has a location, each
    location a pack, and each file the numbers of its content. *)

From S2P Require Import Prelude Bytes Names Attributes Metadata IndexCodec Chunker Checkpoint Crypto Codec Frames.
From S2P Require Import Checksum Writer Signatures Recipients IOErrors Inputs SolidPlan Extractor ExtractorLemmas ExtractorProofs.
From S2P Require Import RoundTrip Incremental Archiver Packs Sessions SessionLemmas.
Open Scope go_scope.

Lemma len_lookup_last {A} (l : list A) x : last l = Some x -> 1 <= len l /\ l !! Z.to_nat (len l - 1) = Some x.
Proof.
  intros Hl. destruct l as [|y l] using rev_ind; [done|]. rewrite last_snoc in Hl. injection Hl as ->. rewrite len_app, len_cons, len_nil.
  pose proof (len_nonneg l). split; [lia|]. replace (Z.to_nat (len l + (1 + 0) - 1)) with (length l) by (unfold len; lia). by apply list_lookup_middle.
Qed.

Lemma chunk_wf_more packs packs' c : packs <= packs' -> chunk_wf packs c -> chunk_wf packs' c.
Proof.
  intros Hp []. constructor; try done. unfold chunk_problem in *. destruct (Z.leb_spec packs (cr_Pack c)); [done|].
  rewrite (proj2 (Z.leb_gt packs' _)) by lia. done.
Qed.

Lemma chunk_location_app ps q c : chunk_wf (len ps) c -> chunk_location (ps ++ [q]) c = chunk_location ps c.
Proof.
  intros Hw. destruct (chunk_problem_None _ _ _ _ _ _ (cw_ok _ _ Hw)) as [Hp _]. pose proof (cw_pack _ _ Hw).
  unfold chunk_location. rewrite lookup_app_l; [done|]. unfold len in Hp. lia.
Qed.

Lemma mapM_chunk_location ps q cs locs : Forall (chunk_wf (len ps)) cs -> mapM (chunk_location ps) cs = Some locs ->
  mapM (chunk_location (ps ++ [q])) cs = Some locs.
Proof.
  intros Hf. rewrite !mapM_Some. intros Hm. revert Hf. induction Hm as [|c loc cs locs Hc _ IH]; intros Hf; [constructor|].
  apply Forall_cons in Hf as [Hw Hf]. constructor; [by rewrite chunk_location_app|by apply IH].
Qed.

(** The chunks of a file that ends in [e]. *)
Lemma file_chunks gear content e : exists chunks,
  next_all gear (S (length content)) (NewChunker (mk_reader [content] e)) = Some (chunks, e) /\
  chunks `prefix_of` cdc gear MaxCDCChunkSize content /\ (e = None -> concat chunks = content).
Proof.
  assert (MinCDCChunkSize <= MaxCDCChunkSize) as Hmax by (unfold MinCDCChunkSize, MaxCDCChunkSize; lia).
  assert (left_of (NewChunker (mk_reader [content] e)) = content) as Hleft by (change (content ++ [] = content); by rewrite app_nil_r).
  destruct (next_all_spec gear MaxCDCChunkSize Hmax (S (length content)) (NewChunker (mk_reader [content] e))) as (chunks & Hn & Hp & He).
  { split; cbn [NewChunker ck_size ck_cut ck_buf ck_eof]; [done|done|unfold MaxCDCChunkSize; done|done]. }
  { rewrite Hleft. lia. }
  rewrite Hleft in *. exists chunks. split; [done|]. split; [done|]. intros ->. rewrite (He eq_refl). by apply (cdc_concat gear MaxCDCChunkSize Hmax).
Qed.

Lemma chunk_sizes_Forall max cs : MinCDCChunkSize <= max -> chunk_sizes max cs -> Forall (fun c => 0 < len c <= max) cs.
Proof.
  intros Hm. induction cs as [|c cs IH]; [constructor|]. intros Hs. destruct cs as [|d cs]; [by constructor|]. destruct Hs as [Hc Hs].
  constructor; [|by apply IH]. unfold MinCDCChunkSize in *. lia.
Qed.

Section SessionWriter.
Context `{C : Crypto} `{CL : !CryptoLaws C} `{ZS : Zstd} `{ZL : !ZstdLaws ZS} `{H : Sha256} `{HL : !Sha256Laws H}.
Context (toLower : bytes -> bytes) (rnd : nat -> rng * rng).
Context (master : bytes) (gear : list Z) (policy : compressionPolicy).
(** The archive before the session, as written by this writer ([P] before it), its state,
    the fixed fields of the index, and the chunks that may occur. *)
Context (hl : Z) (P F0 : bytes) (Hhl : hl <= len F0) (ia0 : incrementalArchive) (si0 : SessionIndex) (U : bytes -> Prop).

(** ** Growth *)

(** The counters that only grow, and the sizes that keep them in their widths. *)
Definition sw_le (a b : sessionWriter) : Prop :=
  extends (sw_aw a) (sw_aw b) /\ len (Packs (sw_index a)) <= len (Packs (sw_index b)) /\
  len (ia_chunks (sw_ia a)) <= len (ia_chunks (sw_ia b)) /\
  len (ia_chunks (sw_ia b)) + len (Chunks (sw_index a)) = len (ia_chunks (sw_ia a)) + len (Chunks (sw_index b)).

Definition bounded (sw : sessionWriter) : Prop :=
  aw_offset (sw_aw sw) < 2 ^ 63 /\ len (Packs (sw_index sw)) < 2 ^ 32 /\ len (ia_chunks (sw_ia sw)) < 2 ^ 63.

#[export] Instance sw_le_preorder : PreOrder sw_le.
Proof. split; [intros a; split; [done|]; lia|]. intros a b c (? & ? & ? & ?) (? & ? & ? & ?). split; [by etrans|]. lia. Qed.

Lemma bounded_le a b : sw_le a b -> bounded b -> bounded a.
Proof. intros (Ho%extends_offset & ? & ? & _) (? & ? & ?). repeat split; lia. Qed.

Lemma sw_closePack_le sw : sw_le sw (sw_closePack sw).
Proof.
  unfold sw_closePack. destruct (sw_pack sw) as [p|]; [|done]. split; [|split_and!; cbn; lia]. cbn [sw_aw sw_with].
  apply (pack_close_extends (p, sw_aw sw)).
Qed.

Lemma current_pack_le sw r sw' : current_pack rnd sw = (r, sw') -> sw_le sw sw'.
Proof.
  unfold current_pack. destruct (sw_pack sw) as [p|]; [by intros [= <- <-]|]. destruct (rnd (sw_seq sw)) as [r0 r1].
  destruct (openPack r0 r1 (sw_aw sw)) as [[p aw]|e] eqn:E; intros [= <- <-]; split_and!; cbn; rewrite ?len_app; try len_lia; [by apply openPack_extends in E|done].
Qed.

Lemma storeChunk_le id chunk codec sw r sw' : storeChunk rnd id chunk codec sw = (r, sw') -> sw_le sw sw'.
Proof.
  unfold storeChunk. destruct (stored_form _ _ _) as [stored sc].
  set (sw1 := match sw_pack sw with Some p => if MaxPackSize <? u64 (pw_size p + len stored) then sw_closePack sw else sw | None => sw end).
  assert (sw_le sw sw1) as H1 by (unfold sw1; destruct (sw_pack sw); [|done]; destruct (_ <? _); [apply sw_closePack_le|done]).
  destruct (current_pack rnd sw1) as [[p|e] sw2] eqn:E; apply current_pack_le in E; [|intros [= <- <-]; by etrans].
  destruct (pack_write stored (p, sw_aw sw2)) as [p' aw'] eqn:Ew. intros [= <- <-]. etrans; [exact H1|]. etrans; [exact E|].
  pose proof (pack_write_extends stored (p, sw_aw sw2)) as Ho. rewrite Ew in Ho. cbn [snd] in Ho.
  split; [exact Ho|]. split_and!; cbn; rewrite ?len_app; len_lia.
Qed.

(** ** The invariant *)

Record facts (sw : sessionWriter) (files : list FileVersion) (F : bytes) (packs : gmap Z bytes) (raws : list bytes) : Prop := {
  sf_writing : writing master P (sw_aw sw) (sw_pack sw) (Packs (sw_index sw)) F packs;
  sf_grown : F0 `prefix_of` F;
  sf_packs : Forall (fun p => len F0 <= p) (Packs (sw_index sw));
  sf_after : forall off pt, packs !! off = Some pt -> hl <= off;
  sf_store : chunk_store master packs (ia_chunks (sw_ia sw)) raws;
  sf_locs : exists locs, ia_chunks (sw_ia sw) = ia_chunks ia0 ++ locs /\
    mapM (chunk_location (Packs (sw_index sw))) (Chunks (sw_index sw)) = Some locs;
  sf_recs : Forall (chunk_wf (len (Packs (sw_index sw)))) (Chunks (sw_index sw));
  sf_known : forall id n, sw_known sw !! id = Some n -> 0 <= n /\ exists raw, raws !! Z.to_nat n = Some raw /\
    id = ComputeHMAC (DeriveChunkIDKey master) raw;
  sf_all : forall c, c ∈ ia_chunks (sw_ia sw) -> is_Some (sw_known sw !! cl_id c);
  sf_distinct : NoDup (map cl_id (ia_chunks (sw_ia sw)));
  sf_U : Forall U raws;
  sf_idKey : sw_idKey sw = DeriveChunkIDKey master;
  sf_gear : sw_gear sw = gear;
  sf_policy : sw_policy sw = policy;
  sf_comp : forall bc, sw_compressor sw = Some bc -> bc_window bc <= MaxCDCChunkSize;
  sf_ia : ia_files (sw_ia sw) = ia_files ia0;
  sf_index : (Session (sw_index sw), Time (sw_index sw), PrevIndex (sw_index sw), FirstChunk (sw_index sw)) =
             (Session si0, Time si0, PrevIndex si0, FirstChunk si0) /\ Files (sw_index sw) = files /\ Deleted (sw_index sw) = []
}.

(** ** How a chunk is stored *)

Lemma stored_form_ok compressor chunk codec stored sc : (forall bc, compressor = Some bc -> bc_window bc <= MaxCDCChunkSize) ->
  0 < len chunk <= MaxCDCChunkSize -> stored_form compressor chunk codec = (stored, sc) ->
  decode_chunk sc stored = Ok chunk /\ 1 <= len stored <= len chunk /\ (sc = CodecNone /\ stored = chunk \/ sc = CodecZstd).
Proof.
  intros Hc Hl. unfold stored_form. assert ((chunk, CodecNone) = (stored, sc) -> decode_chunk sc stored = Ok chunk /\ 1 <= len stored <= len chunk /\
    (sc = CodecNone /\ stored = chunk \/ sc = CodecZstd)) as Hraw by (intros [= <- <-]; split; [done|]; split; [lia|by left]).
  destruct compressor as [bc|]; [|done]. destruct (_ && _) eqn:E; [|done]. b2p. intros [= <- <-]. specialize (Hc bc eq_refl). split_and!.
  - unfold decode_chunk. rewrite Z.eqb_refl. apply Decompress_Compress; [exact Hc|exact (proj2 Hl)].
  - pose proof (zstd_nonempty (bc_level bc) (bc_window bc) chunk ltac:(lia)). unfold Compress in *. lia.
  - lia.
  - by right.
Qed.

Lemma u32_small z : 0 <= z < 2 ^ 32 -> u32 z = z.
Proof. apply Z.mod_small. Qed.

(** [storeChunk] up to the pack it writes to, with room for the stored bytes. *)
Lemma pack_ready sw files F packs raws (stored : bytes) : facts sw files F packs raws -> 1 <= len stored <= MaxCDCChunkSize ->
  let sw1 := match sw_pack sw with Some p => if MaxPackSize <? u64 (pw_size p + len stored) then sw_closePack sw else sw | None => sw end in
  forall p sw2, current_pack rnd sw1 = (IOk p, sw2) -> bounded sw2 ->
  exists F2 packs2 w, facts sw2 files F2 packs2 raws /\ sw_pack sw2 = Some p /\ packs2 !! len F2 = Some w /\ len w + len stored <= MaxPackSize /\
    sw_known sw2 = sw_known sw /\ sw_ia sw2 = sw_ia sw /\ Chunks (sw_index sw2) = Chunks (sw_index sw) /\ sw_compressor sw2 = sw_compressor sw.
Proof.
  intros Hf Hl sw1 p sw2 Hc Hb. assert (MaxCDCChunkSize <= MaxPackSize < 2 ^ 62) as Hm by done.
  assert (exists F1, facts sw1 files F1 packs raws /\ sw_known sw1 = sw_known sw /\ sw_ia sw1 = sw_ia sw /\ Chunks (sw_index sw1) = Chunks (sw_index sw) /\
    sw_compressor sw1 = sw_compressor sw /\ forall p, sw_pack sw1 = Some p -> pw_size p + len stored <= MaxPackSize) as (F1 & Hf1 & Hk1 & Hi1 & Hc1 & Hco1 & Hroom).
  { unfold sw1. clear sw1 Hc. destruct (sw_pack sw) as [q|] eqn:Eq; [|exists F; by rewrite Eq].
    pose proof (sf_writing _ _ _ _ _ Hf) as Hw. rewrite Eq in Hw. destruct (writing_open master P _ _ _ _ _ Hw) as (w & _ & Hs & Hwl).
    pose proof (len_nonneg w). rewrite u64_small by lia. destruct (Z.ltb_spec MaxPackSize (pw_size q + len stored)) as [Hgt|Hle].
    2:{ exists F. rewrite Eq. split; [done|]. repeat (split; [done|]). by intros p' [= <-]. }
    destruct (writing_close master P _ _ _ _ _ Hw) as (F' & Hpre & Hw'). exists F'. unfold sw_closePack. rewrite Eq. split; [|done].
    destruct Hf. constructor; try done. by etrans. }
  clearbody sw1. unfold current_pack in Hc. destruct (sw_pack sw1) as [q|] eqn:Eq.
  - injection Hc as <- <-. pose proof (sf_writing _ _ _ _ _ Hf1) as Hw. rewrite Eq in Hw.
    destruct (writing_open master P _ _ _ _ _ Hw) as (w & Hlk & Hs & _). exists F1, packs, w. specialize (Hroom q eq_refl).
    split_and!; try done; lia.
  - pose proof (sf_writing _ _ _ _ _ Hf1) as Hw. rewrite Eq in Hw. pose proof (writing_fresh _ _ _ _ _ _ Hw) as Hfresh.
    destruct (rnd (sw_seq sw1)) as [r0 r1]. destruct (openPack r0 r1 (sw_aw sw1)) as [[q aw]|e] eqn:Eo; [|done]. injection Hc as <- <-.
    pose proof (extends_offset _ _ (openPack_extends r0 r1 _ _ _ Eo)) as Hoff. destruct Hb as (Hb1 & Hb2 & Hb3). cbn [sw_with sw_aw sw_index add_pack Packs sw_ia] in Hb1, Hb2, Hb3.
    pose proof Hw as (B & (_ & _ & Ho) & HF & _ & _ & Hps). assert (aw_offset (sw_aw sw1) = len F1) as HoF by (rewrite Ho, HF, len_app; done).
    pose proof (len_nonneg F1). assert (u64 (aw_offset (sw_aw sw1)) = len F1) as Hu by (rewrite HoF; apply u64_small; lia).
    apply (writing_new master P _ _ _ _ r0 r1 q aw) in Hw; [|done].
    exists F1, (<[len F1 := []]> packs), []. rewrite lookup_insert_eq. split; [|split_and!; try done; change (len []) with 0; lia].
    destruct Hf1. constructor; cbn [sw_with sw_aw sw_ia sw_idKey sw_gear sw_policy sw_compressor sw_known sw_index sw_pack add_pack Packs Chunks Files Deleted Session Time PrevIndex FirstChunk];
      try done; rewrite ?Hu; try done.
    + apply Forall_app. split; [done|]. constructor; [|constructor]. destruct sf_grown0 as [X ->]. rewrite len_app. len_lia.
    + intros off pt Hop. destruct (decide (len F1 = off)) as [<-|Hne]; [destruct sf_grown0 as [X ->]; rewrite len_app; len_lia|].
      rewrite lookup_insert_ne in Hop by done. by eapply sf_after0.
    + by apply chunk_store_new_pack.
    + destruct sf_locs0 as (locs & Hl1 & Hl2). exists locs. split; [done|]. by apply mapM_chunk_location.
    + eapply Forall_impl; [exact sf_recs0|]. intros c. apply chunk_wf_more. rewrite len_app. len_lia.
Qed.

(** A chunk that has just been written to the open pack. *)
Lemma written_chunk w stored sc chunk off : decode_chunk sc stored = Ok chunk -> 1 <= len stored <= len chunk -> 0 < len chunk <= MaxCDCChunkSize ->
  chunk_holds master (w ++ stored) (mk_loc (ComputeHMAC (DeriveChunkIDKey master) chunk) off (len w) (len stored) (len chunk) sc) chunk.
Proof.
  intros Hd Hs Hc. constructor; cbn [cl_offset cl_stored cl_codec cl_raw cl_id]; try done.
  - apply len_nonneg.
  - lia.
  - rewrite len_app. lia.
  - rewrite zdrop_app by done. by rewrite ztake_all.
  - lia.
Qed.

Lemma written_record (w stored : bytes) sc (chunk : bytes) (ps : list Z) (n : Z) : 1 <= len stored <= len chunk -> 0 < len chunk <= MaxCDCChunkSize -> len w + len stored <= MaxPackSize ->
  (sc = CodecNone /\ stored = chunk \/ sc = CodecZstd) -> 1 <= len ps < 2 ^ 32 -> n = len ps - 1 ->
  chunk_wf (len ps) (mk_chunk (ComputeHMAC (DeriveChunkIDKey master) chunk) n (len w) (len stored) (len chunk) sc).
Proof.
  intros Hs Hc Hw Hsc Hp ->. pose proof (len_nonneg w). assert (MaxCDCChunkSize < MaxStoredChunkSize < 2 ^ 32) as Hm by done. assert (MaxPackSize < 2 ^ 32) as Hm2 by done.
  constructor; cbn [cr_ID cr_Pack cr_Offset cr_StoredLen cr_RawLen cr_Codec]; try lia; [apply len_hmac|destruct Hsc as [[-> _]| ->]; done|].
  unfold chunk_problem. rewrite (proj2 (Z.leb_gt _ _)) by lia. rewrite !(proj2 (Z.eqb_neq _ 0)) by lia.
  rewrite (proj2 (Z.ltb_ge MaxStoredChunkSize _)) by lia. rewrite (proj2 (Z.ltb_ge MaxCDCChunkSize _)) by lia. cbn [orb].
  rewrite (proj2 (Z.ltb_ge MaxPackSize _)) by lia. rewrite (proj2 (Z.ltb_ge (MaxPackSize - len w) _)) by lia. cbn [orb].
  destruct Hsc as [[-> ->]| ->]; cbn; [|done]. by rewrite Z.eqb_refl.
Qed.

Lemma storeChunk_facts chunk codec sw files F packs raws n sw' :
  facts sw files F packs raws -> 0 < len chunk <= MaxCDCChunkSize -> U chunk ->
  sw_known sw !! ComputeHMAC (DeriveChunkIDKey master) chunk = None ->
  storeChunk rnd (ComputeHMAC (DeriveChunkIDKey master) chunk) chunk codec sw = (IOk n, sw') -> bounded sw' ->
  exists F' packs', facts sw' files F' packs' (raws ++ [chunk]) /\ n = len raws.
Proof.
  intros Hf Hl HU Hk Hst Hb. unfold storeChunk in Hst. destruct (stored_form _ _ _) as [stored sc] eqn:Ef.
  destruct (stored_form_ok _ _ _ _ _ (sf_comp _ _ _ _ _ Hf) Hl Ef) as (Hdec & Hsl & Hsc).
  match type of Hst with context [current_pack rnd ?x] => destruct (current_pack rnd x) as [[p|e] sw2] eqn:Ec end; [|done].
  destruct (pack_write stored (p, sw_aw sw2)) as [p' aw'] eqn:Ew. injection Hst as <- <-.
  assert (bounded sw2) as Hb2.
  { eapply bounded_le; [|exact Hb]. pose proof (pack_write_extends stored (p, sw_aw sw2)) as Ho. rewrite Ew in Ho. cbn [snd] in Ho.
    split; [exact Ho|]. split_and!; cbn; rewrite ?len_app; len_lia. }
  destruct (pack_ready sw files F packs raws stored Hf ltac:(lia) p sw2 Ec Hb2) as (F2 & packs2 & w & Hf2 & Hp2 & Hw2 & Hroom & Hk2 & Hi2 & Hc2 & Hco2).
  pose proof (chunk_store_len _ _ _ _ (sf_store _ _ _ _ _ Hf2)) as Hlen.
  destruct Hb as (Hb1 & Hb2' & Hb3). cbn [sw_ia ia_chunks] in Hb3. rewrite len_app in Hb3. pose proof (len_nonneg (ia_chunks (sw_ia sw2))).
  assert (len (ia_chunks (sw_ia sw2)) = len raws) as Hlr by (unfold len; by rewrite Hlen).
  rewrite u64_small by (rewrite len_cons in Hb3; len_lia). pose proof (sf_writing _ _ _ _ _ Hf2) as Hw. rewrite Hp2 in Hw.
  destruct (writing_open master P _ _ _ _ _ Hw) as (w' & Hw' & Hsz & _). rewrite Hw2 in Hw'. injection Hw' as <-. rewrite Hsz.
  assert (exists B, F2 = P ++ B /\ last (Packs (sw_index sw2)) = Some (len F2) /\ 0 <= len F2 < 2 ^ 63) as (B & _ & Hlast & HF2).
  { destruct Hw as (aw0 & h & B & w0 & packs0 & (_ & _ & Ho) & -> & _ & _ & (sealed & (_ & _ & bs & cs & Haw & _) & _) & _ & _ & _ & Hla & _).
    exists B. split; [done|]. split; [done|]. split; [apply len_nonneg|]. pose proof (extends_offset _ _ (extends_blocks bs (pack_begin h aw0))) as Hob.
    cbn [snd] in Haw. rewrite <- Haw in Hob. unfold pack_begin in Hob. pose proof (extends_offset _ _ (extends_begin EntryTypePack (ph_salt h) (ph_frame h) (ph_meta h) (ph_pad h) aw0)).
    rewrite len_app, <- Ho. destruct Hb2 as (? & _). lia. }
  destruct (len_lookup_last _ _ Hlast) as [Hps1 Hps2]. destruct Hb2 as (_ & Hb2p & _).
  assert (MaxCDCChunkSize < 2 ^ 32) as Hmx by done. rewrite !u32_small by lia. rewrite Hlast. change (default 0 (Some (len F2))) with (len F2). rewrite i64_small by lia.
  set (loc := mk_loc (ComputeHMAC (DeriveChunkIDKey master) chunk) (len F2) (len w) (len stored) (len chunk) sc).
  set (rec := mk_chunk (ComputeHMAC (DeriveChunkIDKey master) chunk) (len (Packs (sw_index sw2)) - 1) (len w) (len stored) (len chunk) sc).
  pose proof (written_chunk w stored sc chunk (len F2) Hdec Hsl Hl) as Hholds. fold loc in Hholds.
  assert (chunk_wf (len (Packs (sw_index sw2))) rec) as Hrec by (by apply written_record).
  exists F2, (<[len F2 := w ++ stored]> packs2). split; [|done]. rewrite Hlr.
  assert (forall c, c ∈ ia_chunks (sw_ia sw2) -> exists raw pt, packs2 !! cl_packOffset c = Some pt /\ chunk_holds master pt c raw) as Hheld.
  { intros c Hc. destruct (sf_store _ _ _ _ _ Hf2) as [Hfa _]. apply list_elem_of_lookup in Hc as [k Hc].
    destruct (Forall2_lookup_l _ _ _ _ _ Hfa Hc) as (raw & _ & pt & Hx). by exists raw, pt. }
  destruct Hf2. constructor; cbn [sw_aw sw_ia sw_idKey sw_gear sw_policy sw_compressor sw_known sw_index sw_pack ia_chunks ia_files add_chunk Packs Chunks Files Deleted Session Time PrevIndex FirstChunk];
    try done.
  - eapply writing_write; [exact Hw|exact Hw2|rewrite len_app; lia|exact Ew].
  - intros off pt Hop. destruct (decide (len F2 = off)) as [<-|Hne]; [by eapply sf_after0|]. rewrite lookup_insert_ne in Hop by done. by eapply sf_after0.
  - eapply chunk_store_snoc; [by eapply chunk_store_grow|cbn [cl_packOffset loc]; apply lookup_insert_eq|exact Hholds|].
    intros d Hd Hpo. cbn [cl_packOffset cl_offset loc] in *. destruct (Hheld d Hd) as (raw & pt & Hpt & Hh). rewrite Hpo, Hw2 in Hpt. injection Hpt as <-. apply Hh.
  - destruct sf_locs0 as (locs & Hl1 & Hl2). exists (locs ++ [loc]). split; [by rewrite Hl1, app_assoc|].
    apply mapM_Some. apply Forall2_app; [by apply mapM_Some|]. constructor; [|constructor]. unfold chunk_location. cbn [rec cr_Pack]. rewrite Hps2.
    rewrite i64_small by lia. done.
  - apply Forall_app. split; [done|]. by constructor.
  - intros id n Hn. destruct (decide (id = ComputeHMAC (DeriveChunkIDKey master) chunk)) as [->|Hne].
    + rewrite lookup_insert_eq in Hn. injection Hn as <-. split; [apply len_nonneg|]. exists chunk. split; [|done].
      unfold len. rewrite Nat2Z.id. by apply list_lookup_middle.
    + rewrite lookup_insert_ne in Hn by done. destruct (sf_known0 id n Hn) as (Hn0 & raw & Hr & Hid). split; [done|]. exists raw. split; [|done].
      by apply lookup_app_l_Some.
  - intros c [Hc|Hc%list_elem_of_singleton]%elem_of_app.
    + destruct (decide (cl_id c = ComputeHMAC (DeriveChunkIDKey master) chunk)) as [->|Hne]; [rewrite lookup_insert_eq; done|].
      rewrite lookup_insert_ne by done. by apply sf_all0.
    + subst c. rewrite lookup_insert_eq. done.
  - rewrite map_app. apply NoDup_app. split; [done|]. split; [|apply NoDup_singleton].
    intros id Hid Hx. apply list_elem_of_singleton in Hx. subst id. apply list_elem_of_fmap in Hid as (c & Hc & Hin).
    destruct (sf_all0 c Hin) as [n Hn]. rewrite Hk2, <- Hc in Hn. cbn [cl_id loc] in Hn. congruence.
  - apply Forall_app. split; [done|]. by constructor.
Qed.

(** ** Storing never fails *)

Lemma openPack_ok r0 r aw : exists p aw', openPack r0 r aw = IOk (p, aw').
Proof.
  unfold openPack. destruct (draw SaltSize r0) as [salt r1]. destruct (FrameHeader r) as [fh r2]. unfold Seal.
  assert (exists raw, marshalMetadata (mk_pm [] BucketHuge (replicate 32 Byte.x00) 0 CodecNone None) = Ok raw) as [raw ->] by (eexists; vm_compute; reflexivity).
  destruct (EncryptBlock _ raw r1) as [b r3]. cbn [or_fatal]. destruct (InterBlockPadding r2) as [ip r4]. destruct (NextChunkSize r4) as [next r5]. by eexists _, _.
Qed.

Definition sw_config (sw : sessionWriter) := (sw_idKey sw, sw_gear sw, sw_policy sw, sw_compressor sw).

Lemma storeChunk_ok id chunk codec sw : exists n sw', storeChunk rnd id chunk codec sw = (IOk n, sw') /\ sw_config sw' = sw_config sw.
Proof.
  unfold storeChunk. destruct (stored_form _ _ _) as [stored sc].
  set (sw1 := match sw_pack sw with Some p => if MaxPackSize <? u64 (pw_size p + len stored) then sw_closePack sw else sw | None => sw end).
  assert (sw_config sw1 = sw_config sw) as Hc1.
  { unfold sw1, sw_closePack. destruct (sw_pack sw); [|done]. by destruct (_ <? _). }
  clearbody sw1. assert (exists p sw2, current_pack rnd sw1 = (IOk p, sw2) /\ sw_config sw2 = sw_config sw1) as (p & sw2 & -> & Hc2).
  { unfold current_pack. destruct (sw_pack sw1) as [p|]; [by eexists _, _|]. destruct (rnd (sw_seq sw1)) as [r0 r].
    destruct (openPack_ok r0 r (sw_aw sw1)) as (p & aw' & ->). by eexists _, _. }
  destruct (pack_write stored (p, sw_aw sw2)) as [p' aw']. eexists _, _. split; [done|]. etrans; [|exact Hc1]. exact Hc2.
Qed.

(** ** Files *)

(** The chunks numbered [ns] add up to [content]. *)
Definition content_of (raws : list bytes) (ns : list Z) (content : bytes) : Prop :=
  exists parts, Forall2 (fun n part => 0 <= n /\ raws !! Z.to_nat n = Some part) ns parts /\ content = concat parts.

Lemma content_of_prefix raws raws' ns content : raws `prefix_of` raws' -> content_of raws ns content -> content_of raws' ns content.
Proof.
  intros [X ->] (parts & Hf & ->). exists parts. split; [|done]. eapply Forall2_impl; [exact Hf|]. intros n part [Hn Hl]. split; [done|]. by apply lookup_app_l_Some.
Qed.

Lemma content_of_snoc raws ns content n part : content_of raws ns content -> 0 <= n -> raws !! Z.to_nat n = Some part ->
  content_of raws (ns ++ [n]) (content ++ part).
Proof.
  intros (parts & Hf & ->) Hn Hl. exists (parts ++ [part]). split; [|rewrite concat_app; cbn [concat]; by rewrite app_nil_r].
  apply Forall2_app; [done|]. by constructor.
Qed.

Definition chunk_fits (c : bytes) : Prop := 0 < len c <= MaxCDCChunkSize /\ U c.

Context (Hcf : forall a b, U a -> U b -> ComputeHMAC (DeriveChunkIDKey master) a = ComputeHMAC (DeriveChunkIDKey master) b -> a = b).

(** The chunk loop of [addFile] on a chunker that yields [chunks] and ends with [e]. *)
Lemma add_chunks_spec codec : forall fuel ck chunks e, next_all gear fuel ck = Some (chunks, e) ->
  forall size ns sw, sw_gear sw = gear -> sw_idKey sw = DeriveChunkIDKey master ->
  exists r sw', add_chunks rnd fuel codec ck size ns sw = Some (r, sw') /\ sw_le sw sw' /\ sw_config sw' = sw_config sw /\
    (forall err, r = IErr err -> e <> None /\ IsFatal err = false) /\ (forall x, r = IOk x -> e = None) /\
    forall files F packs raws content, facts sw files F packs raws -> Forall chunk_fits chunks -> bounded sw' ->
      content_of raws ns content -> size = u64 (len content) ->
      exists F' packs' raws', facts sw' files F' packs' raws' /\ raws `prefix_of` raws' /\
        forall size' ns', r = IOk (size', ns') -> e = None /\ content_of raws' ns' (content ++ concat chunks) /\ size' = u64 (len (content ++ concat chunks)).
Proof.
  induction fuel as [|fuel IH]; intros ck chunks e Hn size ns sw Hg Hid; [done|]. cbn [next_all] in Hn. cbn [add_chunks]. rewrite Hg.
  destruct (Next gear ck) as [[[chunk|]|err] ck'].
  - destruct (next_all gear fuel ck') as [[chunks' e']|] eqn:En; [|done]. injection Hn as <- <-. rewrite Hid. cbv zeta.
    set (id := ComputeHMAC (DeriveChunkIDKey master) chunk).
    destruct (sw_known sw !! id) as [n|] eqn:Ek.
    + destruct (IH ck' chunks' e' En (u64 (size + len chunk)) (ns ++ [n]) sw Hg Hid) as (r & sw' & Ha & Hle & Hcfg & Herr & Hok & Hf).
      exists r, sw'. split; [done|]. split; [done|]. split; [done|]. split; [done|]. split; [done|]. intros files F packs raws content Hfa Hch Hb Hc ->. apply Forall_cons in Hch as [Hc1 Hch].
      destruct (sf_known _ _ _ _ _ Hfa id n Ek) as (Hn0 & raw & Hr & Hidr).
      assert (raw = chunk) as ->.
      { apply Hcf; [|apply Hc1|done]. pose proof (sf_U _ _ _ _ _ Hfa) as HU. rewrite Forall_lookup in HU. by eapply HU. }
      destruct (Hf files F packs raws (content ++ chunk) Hfa Hch Hb) as (F' & packs' & raws' & Hfa' & Hpre & Hres);
        [by apply content_of_snoc|by rewrite u64_add, len_app|].
      exists F', packs', raws'. split; [done|]. split; [done|]. cbn [concat]. by rewrite app_assoc.
    + destruct (storeChunk_ok id chunk codec sw) as (n & sw1 & Hst & Hcfg1). rewrite Hst.
      assert (sw_gear sw1 = gear /\ sw_idKey sw1 = DeriveChunkIDKey master) as [Hg1 Hid1] by (unfold sw_config in Hcfg1; injection Hcfg1 as ? ? ? ?; split; congruence).
      destruct (IH ck' chunks' e' En (u64 (size + len chunk)) (ns ++ [n]) sw1 Hg1 Hid1) as (r & sw' & Ha & Hle & Hcfg & Herr & Hok & Hf).
      exists r, sw'. split; [done|]. split; [etrans; [by eapply storeChunk_le|done]|]. split; [by rewrite Hcfg|]. split; [done|]. split; [done|].
      intros files F packs raws content Hfa Hch Hb Hc ->. apply Forall_cons in Hch as [[Hc1 HU1] Hch].
      destruct (storeChunk_facts chunk codec sw files F packs raws n sw1 Hfa Hc1 HU1 Ek Hst) as (F1 & packs1 & Hfa1 & ->); [by eapply bounded_le|].
      destruct (Hf files F1 packs1 (raws ++ [chunk]) (content ++ chunk) Hfa1 Hch Hb) as (F' & packs' & raws' & Hfa' & Hpre & Hres).
      * apply content_of_snoc; [eapply content_of_prefix; [|exact Hc]; by eexists|apply len_nonneg|]. unfold len. rewrite Nat2Z.id. by apply list_lookup_middle.
      * by rewrite u64_add, len_app.
      * exists F', packs', raws'. split; [done|]. split; [etrans; [|exact Hpre]; by eexists|]. cbn [concat]. by rewrite app_assoc.
  - injection Hn as <- <-. exists (IOk (size, ns)), sw. split; [done|]. split; [done|]. split; [done|]. split; [done|]. split; [done|].
    intros files F packs raws content Hfa _ _ Hc ->. exists F, packs, raws. split; [done|]. split; [done|]. intros size' ns' [= <- <-].
    cbn [concat]. by rewrite app_nil_r.
  - injection Hn as <- <-. eexists _, sw. split; [done|]. split; [done|]. split; [done|]. split; [by intros err' [= <-]|]. split; [done|].
    intros files F packs raws content Hfa _ _ Hc ->. exists F, packs, raws. split; [done|]. split; [done|]. done.
Qed.

(** What [addFile] reads of a regular file, if it can. *)
Definition readable (open : bytes -> result hostFile) (i : inputFile) (info : option fileInfo) : option bytes :=
  match open (in_path i), info with
  | Ok f, Some info =>
      match readProbe f (fi_Size info) (cp_mode policy), hf_readErr f with
      | Ok _, None => Some (hf_content f)
      | _, _ => None
      end
  | _, _ => None
  end.

(** Every file that can be opened has chunks in [U] and fewer than 2^63 bytes. *)
Definition contents_ok (open : bytes -> result hostFile) : Prop :=
  forall p f, open p = Ok f -> len (hf_content f) < 2 ^ 63 /\ Forall U (cdc gear MaxCDCChunkSize (hf_content f)).

Context (opts : CompressionOptions) (Hpolicy : newCompressionPolicy opts = Ok policy).
Context (open : bytes -> result hostFile) (Hopen : contents_ok open).

Lemma addFile_spec i info sw : sw_config sw = (DeriveChunkIDKey master, gear, policy, sw_compressor sw) -> (forall f, open (in_path i) = Ok f -> info <> None) ->
  exists r sw', addFile toLower rnd open i info sw = Some (r, sw') /\ sw_le sw sw' /\ sw_config sw' = sw_config sw /\
    (forall err, r = IErr err -> IsFatal err = false /\ readable open i info = None) /\ (forall v, r = IOk v -> readable open i info <> None) /\
    forall files F packs raws, facts sw files F packs raws -> bounded sw' ->
      exists F' packs' raws', facts sw' files F' packs' raws' /\ raws `prefix_of` raws' /\
        forall v, r = IOk v -> exists content, readable open i info = Some content /\ content_of raws' (fv_Chunks v) content /\
          fv_Size v = len content /\ len content < 2 ^ 63 /\ fv_Name v = in_name i /\ fv_Attributes v = in_attrs i.
Proof.
  intros Hcfg Hinfo. unfold sw_config in Hcfg. injection Hcfg as Hid Hg Hpol. unfold addFile, readable.
  assert (forall err, IsFatal err = false -> exists r sw', Some (@IErr FileVersion err, sw) = Some (r, sw') /\ sw_le sw sw' /\ sw_config sw' = sw_config sw /\
    (forall err, r = IErr err -> IsFatal err = false /\ @None bytes = None) /\ (forall v, r = IOk v -> @None bytes <> None) /\
    forall files F packs raws, facts sw files F packs raws -> bounded sw' ->
      exists F' packs' raws', facts sw' files F' packs' raws' /\ raws `prefix_of` raws' /\
        forall v, r = IOk v -> exists content, @None bytes = Some content /\ content_of raws' (fv_Chunks v) content /\
          fv_Size v = len content /\ len content < 2 ^ 63 /\ fv_Name v = in_name i /\ fv_Attributes v = in_attrs i) as Hfail.
  { intros err He. eexists _, sw. split; [done|]. split; [done|]. split; [done|]. split; [by intros err' [= <-]|]. split; [done|].
    intros files F packs raws Hf _. by exists F, packs, raws. }
  destruct (open (in_path i)) as [f|e] eqn:Eo; [|by apply Hfail]. destruct info as [info|]; [|by destruct (Hinfo f)]. rewrite Hpol.
  destruct (readProbe f (fi_Size info) (cp_mode policy)) as [probe|]; [|by apply Hfail].
  destruct (codecFor_defined toLower opts policy (in_name i) probe Hpolicy) as (codec & -> & _).
  destruct (file_chunks gear (hf_content f) (hf_readErr f)) as (chunks & Hn & Hpre & Hcc).
  destruct (add_chunks_spec codec _ _ _ _ Hn 0 [] sw Hg Hid) as (r & sw' & -> & Hle & Hcfg' & Herr & Hok & Hf).
  destruct (Hopen _ _ Eo) as [Hl HU]. exists (match r with IErr e => IErr e | IOk (size, ns) => IOk (mk_fileversion (in_name i) (in_attrs i) size ns) end), sw'.
  split; [by destruct r as [[size ns]|]|]. split; [done|]. split; [done|]. split.
  { intros err Hr. destruct r as [[size ns]|e]; [done|]. injection Hr as ->. destruct (Herr err eq_refl) as [He Hnf]. by destruct (hf_readErr f). }
  split; [intros v Hv; destruct r as [[size ns]|e]; [|done]; by rewrite (Hok _ eq_refl)|].
  intros files F packs raws Hfa Hb. destruct (Hf files F packs raws [] Hfa) as (F' & packs' & raws' & Hfa' & Hpr & Hres).
  - destruct Hpre as [X Hx]. assert (MinCDCChunkSize <= MaxCDCChunkSize) as Hmm by (unfold MinCDCChunkSize, MaxCDCChunkSize; lia).
    pose proof (chunk_sizes_Forall MaxCDCChunkSize _ Hmm (cdc_sizes gear MaxCDCChunkSize Hmm (hf_content f))) as Hs.
    rewrite Hx in HU, Hs. apply Forall_app in HU as [HU _], Hs as [Hs _]. unfold chunk_fits. apply Forall_and. done.
  - done.
  - exists []. split; [constructor|done].
  - done.
  - exists F', packs', raws'. split; [done|]. split; [done|]. intros v Hv. destruct r as [[size ns]|e]; [|done]. injection Hv as <-.
    destruct (Hres size ns eq_refl) as (He & Hc & ->). rewrite He. exists (hf_content f). cbn [app fv_Chunks fv_Size fv_Name fv_Attributes] in *. rewrite (Hcc He) in *.
    repeat (split; [done|]). split; [|done]. apply u64_small. pose proof (len_nonneg (hf_content f)). lia.
Qed.

(** ** The changed files of a session *)

(** What a session records: directories and links, and the files that could be read. *)
Fixpoint recorded (changed : list changedFile) : list (inputFile * bytes) :=
  match changed with
  | [] => []
  | c :: changed =>
      match cf_err c with
      | Some _ => recorded changed
      | None =>
          if negb (regular (cf_in c)) then (cf_in c, []) :: recorded changed
          else match readable open (cf_in c) (cf_info c) with
               | Some content => (cf_in c, content) :: recorded changed
               | None => recorded changed
               end
      end
  end.

(** A recorded file version holds its input's content. *)
Definition version_of (raws : list bytes) (v : FileVersion) (r : inputFile * bytes) : Prop :=
  fv_Name v = in_name (fst r) /\ fv_Attributes v = in_attrs (fst r) /\ content_of raws (fv_Chunks v) (snd r) /\
  fv_Size v = len (snd r) /\ len (snd r) < 2 ^ 63 /\ (regular (fst r) = false -> fv_Chunks v = [] /\ fv_Size v = 0).

Lemma versions_prefix raws raws' vs rs : raws `prefix_of` raws' -> Forall2 (version_of raws) vs rs -> Forall2 (version_of raws') vs rs.
Proof.
  intros Hp Hf. eapply Forall2_impl; [exact Hf|]. intros v r (Hn & Ha & Hc & Hs). split; [done|]. split; [done|]. split; [by eapply content_of_prefix|done].
Qed.

Lemma facts_add_file sw files F packs raws v : facts sw files F packs raws -> facts (sw_add_file v sw) (files ++ [v]) F packs raws.
Proof. intros []. constructor; try done. destruct sf_index0 as (? & Hfi & ?). split; [done|]. split; [|done]. cbn. by rewrite Hfi. Qed.

Definition changed_ok (c : changedFile) : Prop := cf_err c = None -> regular (cf_in c) = true -> cf_info c <> None.

Lemma add_changed_spec changed : Forall changed_ok changed -> forall res sw, sw_config sw = (DeriveChunkIDKey master, gear, policy, sw_compressor sw) ->
  exists res' sw', add_changed toLower rnd open changed res sw = Some (res', sw', None) /\ sw_le sw sw' /\ sw_config sw' = sw_config sw /\
    ir_Changed res' = ir_Changed res + len (recorded changed) /\ ir_Session res' = ir_Session res /\
    forall files F packs raws rs, facts sw files F packs raws -> bounded sw' -> Forall2 (version_of raws) files rs ->
      exists files' F' packs' raws', facts sw' files' F' packs' raws' /\ raws `prefix_of` raws' /\ Forall2 (version_of raws') files' (rs ++ recorded changed).
Proof.
  induction 1 as [|c changed Hc _ IH]; intros res sw Hcfg; cbn [add_changed recorded].
  { exists res, sw. repeat (split; [done|]). split; [change (len []) with 0; lia|]. split; [done|]. intros files F packs raws rs Hf _ Hv.
    exists files, F, packs, raws. rewrite app_nil_r. done. }
  unfold changed_ok in Hc. destruct (cf_err c) as [err|] eqn:Ee; [apply (IH (count_failed res) sw Hcfg)|].
  destruct (negb (regular (cf_in c))) eqn:Er.
  - apply negb_true_iff in Er. set (v := mk_fileversion _ _ _ _). destruct (IH (count_changed 0 res) (sw_add_file v sw) Hcfg) as (res' & sw' & Ha & Hle & Hcfg' & Hch & Hse & Hf).
    exists res', sw'. split; [done|]. split; [done|]. split; [done|]. cbn [count_changed ir_Changed ir_Session] in *. split; [rewrite len_cons; lia|]. split; [done|].
    intros files F packs raws rs Hfa Hb Hv. destruct (Hf (files ++ [v]) F packs raws (rs ++ [(cf_in c, [])])) as (files' & F' & packs' & raws' & Hx & Hp & Hv');
      [by apply facts_add_file|done| |].
    + apply Forall2_app; [done|]. constructor; [|constructor]. split_and!; cbn; try done. exists []. by split.
    + exists files', F', packs', raws'. rewrite <- app_assoc in Hv'. done.
  - apply negb_false_iff in Er. destruct (addFile_spec (cf_in c) (cf_info c) sw Hcfg ltac:(intros f _; by apply Hc)) as (r & sw1 & -> & Hle1 & Hcfg1 & Herr & Hok & Hf1).
    assert (sw_config sw1 = (DeriveChunkIDKey master, gear, policy, sw_compressor sw1)) as Hcfg1'
      by (unfold sw_config in *; injection Hcfg as ? ? ?; injection Hcfg1 as ? ? ? ?; congruence).
    assert (forall sw', sw_le sw1 sw' -> bounded sw' -> bounded sw1) as Hbb by (intros sw' Hle Hb; by eapply bounded_le).
    destruct r as [v|err].
    + destruct (IH (count_changed (i64 (fv_Size v)) res) (sw_add_file v sw1) Hcfg1') as (res' & sw' & Ha & Hle & Hcfg' & Hch & Hse & Hf).
      exists res', sw'. split; [done|]. split; [etrans; [exact Hle1|]; etrans; [|exact Hle]; done|]. split; [rewrite Hcfg'; exact Hcfg1|].
      cbn [count_changed ir_Changed ir_Session] in *.
      destruct (readable open (cf_in c) (cf_info c)) as [content|] eqn:Erd; [|by destruct (Hok v eq_refl)]. split; [rewrite len_cons; lia|]. split; [done|].
      intros files F packs raws rs Hfa Hb Hv. destruct (Hf1 files F packs raws Hfa) as (F1 & packs1 & raws1 & Hfa1 & Hp1 & Hv1); [by eapply Hbb|].
      destruct (Hv1 v eq_refl) as (content' & [= <-] & Hco & Hsz & Hlen & Hna & Hat).
      destruct (Hf (files ++ [v]) F1 packs1 raws1 (rs ++ [(cf_in c, content)])) as (files' & F' & packs' & raws' & Hx & Hp & Hv');
        [by apply facts_add_file|done| |].
      * apply Forall2_app; [by eapply versions_prefix|]. constructor; [|constructor]. split_and!; cbn; try done. by rewrite Er.
      * exists files', F', packs', raws'. rewrite <- app_assoc in Hv'. split; [done|]. split; [by etrans|done].
    + destruct (Herr err eq_refl) as [-> Hrd]. rewrite Hrd.
      destruct (IH (count_failed res) sw1 Hcfg1') as (res' & sw' & Ha & Hle & Hcfg' & Hch & Hse & Hf).
      exists res', sw'. split; [done|]. split; [by etrans|]. split; [rewrite Hcfg'; exact Hcfg1|]. split; [done|]. split; [done|].
      intros files F packs raws rs Hfa Hb Hv. destruct (Hf1 files F packs raws Hfa) as (F1 & packs1 & raws1 & Hfa1 & Hp1 & _); [by eapply Hbb|].
      destruct (Hf files F1 packs1 raws1 rs Hfa1 Hb) as (files' & F' & packs' & raws' & Hx & Hp & Hv'); [by eapply versions_prefix|].
      exists files', F', packs', raws'. split; [done|]. split; [by etrans|done].
Qed.
End SessionWriter.
