(* ===== verification/SessionProofs.v ===== *)
(** * Loading what sessions wrote

    The abstract store an incremental archive implements, a map from names to attributes
    and contents, and the layout that represents it: a header, the packs and indexes of
    the sessions, a checkpoint and a footer. Loading such a file gives back its state. *)

From S2P Require Import Prelude Bytes Names Attributes Metadata IndexCodec Chunker Checkpoint Crypto Codec Frames.
From S2P Require Import Checksum Writer Signatures Recipients IOErrors Inputs SolidPlan Extractor ExtractorLemmas ExtractorProofs.
From S2P Require Import RoundTrip Incremental IncrementalProofs Archiver Packs Sessions SessionLemmas SessionWriter.
Open Scope go_scope.

(** ** The abstract store *)

Abbreviation snapshot := (gmap bytes (Attributes * bytes)).

(** The effect of a session: record new versions, then delete. *)
Definition record_all (snap : snapshot) (rs : list (inputFile * bytes)) : snapshot :=
  fold_left (fun m r => <[in_name (fst r) := (in_attrs (fst r), snd r)]> m) rs snap.

Definition delete_all {V} (names : list bytes) (m : gmap bytes V) : gmap bytes V := fold_left (fun m n => delete n m) names m.

(** File versions stand for the contents their chunks add up to. *)
Definition stands_for (raws : list bytes) (name : bytes) (v : FileVersion) (x : Attributes * bytes) : Prop :=
  fv_Name v = name /\ fv_Attributes v = fst x /\ content_of raws (fv_Chunks v) (snd x) /\ fv_Size v = len (snd x) /\ len (snd x) < 2 ^ 63.

Definition represents (raws : list bytes) (files : gmap bytes FileVersion) (snap : snapshot) : Prop :=
  forall name, match files !! name, snap !! name with
               | Some v, Some x => stands_for raws name v x
               | None, None => True
               | _, _ => False
               end.

Lemma represents_empty raws : represents raws ∅ ∅.
Proof. intros name. by rewrite !lookup_empty. Qed.

Lemma represents_prefix raws raws' files snap : raws `prefix_of` raws' -> represents raws files snap -> represents raws' files snap.
Proof.
  intros Hp Hr name. specialize (Hr name). destruct (files !! name) as [v|], (snap !! name) as [x|]; try done.
  destruct Hr as (Hn & Ha & Hc & Hs). split; [done|]. split; [done|]. split; [by eapply content_of_prefix|done].
Qed.

Lemma represents_insert raws files snap v r : represents raws files snap -> version_of raws v r ->
  represents raws (<[fv_Name v := v]> files) (<[in_name (fst r) := (in_attrs (fst r), snd r)]> snap).
Proof.
  intros Hr (Hn & Ha & Hc & Hs & Hl & _) name. rewrite Hn. destruct (decide (in_name (fst r) = name)) as [<-|Hne].
  - rewrite !lookup_insert_eq. split; [done|]. split; [done|]. done.
  - rewrite !lookup_insert_ne by done. apply Hr.
Qed.

Lemma represents_record raws vs rs : Forall2 (version_of raws) vs rs -> forall files snap, represents raws files snap ->
  represents raws (fold_left (fun m v => <[fv_Name v := v]> m) vs files) (record_all snap rs).
Proof. induction 1 as [|v r vs rs Hv _ IH]; intros files snap Hr; [done|]. cbn [fold_left record_all]. apply IH. by apply represents_insert. Qed.

Lemma represents_delete raws names : forall files snap, represents raws files snap -> represents raws (delete_all names files) (delete_all names snap).
Proof.
  induction names as [|n names IH]; intros files snap Hr; [done|]. apply IH. intros name.
  destruct (decide (n = name)) as [->|Hne]; [by rewrite !lookup_delete_eq|]. rewrite !lookup_delete_ne by done. apply Hr.
Qed.

Lemma u64_u64 z : u64 (u64 z) = u64 z.
Proof. unfold u64. by apply Z.mod_mod. Qed.

(** ** Applying a session to a store *)

Section Layout.
Context `{C : Crypto} `{CL : !CryptoLaws C} `{ZS : Zstd} `{ZL : !ZstdLaws ZS} `{H : Sha256} `{HL : !Sha256Laws H}.
Context (master : bytes).

Lemma store_raw packs chunks raws n part : chunk_store master packs chunks raws -> raws !! n = Some part ->
  exists c, chunks !! n = Some c /\ cl_raw c = len part.
Proof.
  intros [Hf _] Hr. destruct (Forall2_lookup_r _ _ _ _ _ Hf Hr) as (c & Hc & pt & _ & Hh). exists c. split; [done|]. symmetry. apply Hh.
Qed.

Lemma chunks_total_content packs chunks raws ns content t : chunk_store master packs chunks raws -> content_of raws ns content -> u64 t = t ->
  chunks_total chunks ns t = Some (u64 (t + len content)).
Proof.
  intros Hs (parts & Hf & ->). revert t. induction Hf as [|n part ns parts [Hn Hr] _ IH]; intros t Ht; cbn [chunks_total concat].
  - change (len []) with 0. by rewrite Z.add_0_r, Ht.
  - destruct (store_raw _ _ _ _ _ Hs Hr) as (c & -> & ->). rewrite IH by apply u64_u64.
    rewrite u64_add, len_app. by rewrite Z.add_assoc.
Qed.

Lemma apply_files_versions packs chunks raws vs rs : chunk_store master packs chunks raws -> Forall2 (version_of raws) vs rs -> forall files,
  apply_files chunks vs files = Some (IOk (fold_left (fun m v => <[fv_Name v := v]> m) vs files)).
Proof.
  intros Hs. induction 1 as [|v r vs rs (Hn & Ha & Hc & Hz & Hl & _) _ IH]; intros files; cbn [apply_files fold_left]; [done|].
  rewrite (chunks_total_content packs chunks raws _ _ 0 Hs Hc eq_refl). rewrite u64_small by (pose proof (len_nonneg (snd r)); lia).
  rewrite Z.add_0_l, <- Hz, Z.eqb_refl. cbn [negb]. apply IH.
Qed.

(** The chain of indexes builds a state from nothing. *)
Definition builds (hl : Z) (chain : list (SessionIndex * Z)) (chunks : list chunkLocation) (files : gmap bytes FileVersion) : Prop :=
  forall ia, hi_end (ia_header ia) = hl -> ia_chunks ia = [] -> ia_files ia = ∅ ->
  exists ia', apply_chain chain ia = Some (IOk ia') /\ ia_chunks ia' = chunks /\ ia_files ia' = files /\ ia_header ia' = ia_header ia.

Lemma apply_chain_snoc chain si off : forall ia ia', apply_chain chain ia = Some (IOk ia') ->
  apply_chain (chain ++ [(si, off)]) ia = apply_session ia' si off.
Proof.
  induction chain as [|[si' off'] chain IH]; intros ia ia' Ha; cbn [apply_chain app] in *.
  - injection Ha as ->. by destruct (apply_session ia' si off) as [[]|].
  - destruct (apply_session ia si' off') as [[ia1|e]|]; try done. by apply IH.
Qed.

Lemma builds_snoc hl chain chunks files si off locs packs raws rs : builds hl chain chunks files -> 0 <= hl < 2 ^ 63 -> 0 <= off < 2 ^ 63 ->
  FirstChunk si = len chunks -> Forall (fun p => hl <= p < off) (Packs si) -> mapM (chunk_location (Packs si)) (Chunks si) = Some locs ->
  chunk_store master packs (chunks ++ locs) raws -> Forall2 (version_of raws) (Files si) rs ->
  builds hl (chain ++ [(si, off)]) (chunks ++ locs) (delete_all (Deleted si) (fold_left (fun m v => <[fv_Name v := v]> m) (Files si) files)).
Proof.
  intros Hb Hh Hoff Hfirst Hp Hm Hs Hv ia Hhl Hc Hfi. destruct (Hb ia Hhl Hc Hfi) as (ia' & Ha & Hc' & Hf' & Hh').
  rewrite (apply_chain_snoc _ _ _ _ _ Ha). unfold apply_session. rewrite Hc', Hfirst, Z.eqb_refl. cbn [negb]. rewrite Hh', Hhl.
  assert (existsb (fun p => (p <? u64 hl) || (u64 off <=? p)) (Packs si) = false) as ->.
  { rewrite !u64_small by lia. apply not_true_iff_false. intros (p & Hin & Hx)%existsb_exists. rewrite Forall_forall in Hp.
    apply list_elem_of_In in Hin. apply Hp in Hin. destruct (Z.ltb_spec p hl), (Z.leb_spec off p); try done; lia. }
  rewrite Hm, Hf', (apply_files_versions packs _ raws _ _ Hs Hv). eexists. split; [done|]. done.
Qed.

(** ** The checkpoint *)

Definition tail_bytes (F : bytes) (cp : bytes) : bytes :=
  cp ++ [zb EntryTypeEnd] ++ sha_sum (sha_write sha_init (masked ((F ++ cp) ++ [zb EntryTypeEnd]))) ++ replicate 32 Byte.x00.

(** A file that starts with an archive whose newest index is at [li]. *)
Definition checkpointed (F : bytes) (li : Z) (cp : bytes) : Prop :=
  cs_done (cs_after F) = true /\ MarshalCheckpoint (mk_checkpoint li (sha_marshal (cs_h (cs_after F)))) = Ok cp.

Lemma tail_bytes_len F cp : len cp = CheckpointSize -> len (tail_bytes F cp) = TailSize.
Proof.
  intros Hl. unfold tail_bytes. rewrite !len_app, Hl, len_sha_sum, len_replicate. unfold TailSize, FooterSize, HMACSize, ReservedSize. rewrite len_cons, len_nil. lia.
Qed.

Lemma cs_after_state F : cs_done (cs_after F) = true -> exists x, cs_h (cs_after F) = sha_write sha_init x.
Proof. unfold cs_after. destruct (flush_head false F) as [x|]; [|done]. intros _. by exists x. Qed.

(** Finishing a session: the writer emits the checkpoint and the footer. *)
Lemma WriteCheckpointFooter_out aw Pre B li : wrote aw Pre B -> cs_done (cs_after (Pre ++ B)) = true -> 0 <= li < 2 ^ 63 ->
  exists aw' cp, WriteCheckpointFooter li aw = Ok aw' /\ checkpointed (Pre ++ B) li cp /\ aw_out aw' = B ++ tail_bytes (Pre ++ B) cp /\
    aw_offset aw' + FooterSize = len (Pre ++ B) + TailSize /\ len cp = CheckpointSize /\
    aw_checksum aw' = sha_sum (sha_write sha_init (masked (((Pre ++ B) ++ cp) ++ [zb EntryTypeEnd]))).
Proof.
  intros Hw Hd Hli. unfold WriteCheckpointFooter, cs_MarshalBinary. pose proof Hw as (_ & Hh & Ho). rewrite Hh, Hd.
  rewrite u64_small by lia. destruct (cs_after_state _ Hd) as [x Hx].
  assert (exists cp, MarshalCheckpoint (mk_checkpoint li (sha_marshal (cs_h (cs_after (Pre ++ B))))) = Ok cp) as [cp Hcp].
  { unfold MarshalCheckpoint. cbn [HashState]. rewrite Hx. pose proof (len_sha_marshal x). unfold checkpointStateSize. rewrite (proj2 (Z.ltb_ge _ _)) by done. by eexists. }
  rewrite Hcp. pose proof (MarshalCheckpoint_Ok _ _ Hcp) as (_ & Hcl & _). eexists _, cp. split; [reflexivity|]. split; [by split|].
  destruct (WriteFooter_out _ _ _ (wrote_tee aw Pre B cp Hw)) as [-> ->]. rewrite (app_assoc Pre). split; [|split; [|split; [done|done]]].
  - unfold tail_bytes. by rewrite <- !app_assoc.
  - unfold WriteFooter. cbn [raw_write aw_offset tee]. rewrite Ho, Hcl, len_app. change (len [zb EntryTypeEnd]) with 1. unfold TailSize. lia.
Qed.

Lemma readCheckpoint_tail F li cp ra size hl : checkpointed F li cp -> (F ++ tail_bytes F cp) `prefix_of` ra -> size = len (F ++ tail_bytes F cp) ->
  0 <= hl <= li -> li < len F -> len F < 2 ^ 63 ->
  readCheckpoint ra size hl = IOk (li, len F, sha_marshal (cs_h (cs_after F))).
Proof.
  intros [Hd Hcp] [X ->] -> Hh Hli HF. pose proof (MarshalCheckpoint_Ok _ _ Hcp) as (_ & Hcl & _). unfold readCheckpoint.
  rewrite (len_app F), (tail_bytes_len F cp Hcl). replace (len F + TailSize - TailSize) with (len F) by lia. cbv zeta.
  rewrite (proj2 (Z.ltb_ge _ _)) by lia. assert (0 <= TailSize) by done. pose proof (len_nonneg X). pose proof (len_nonneg F).
  rewrite read_at_ok by (rewrite ?len_app, ?(tail_bytes_len F cp Hcl); lia). cbn [or_fatal].
  rewrite <- app_assoc, zdrop_app by done. rewrite ztake_app by (by rewrite tail_bytes_len).
  unfold tail_bytes at 1. rewrite ztake_app by done.
  assert (ParseCheckpoint cp = Ok (mk_checkpoint li (sha_marshal (cs_h (cs_after F))))) as ->.
  { apply Parse_MarshalCheckpoint; [|done]. unfold Checkpoint_typed. cbn [LastIndex]. lia. }
  assert (byte_at CheckpointSize (tail_bytes F cp) = EntryTypeEnd) as ->.
  { unfold byte_at, tail_bytes. rewrite zdrop_app by done. done. }
  change (negb (EntryTypeEnd =? EntryTypeEnd)) with false. cbv iota. cbn [LastIndex HashState]. rewrite !u64_small by lia.
  rewrite (proj2 (Z.ltb_ge _ _)) by lia. rewrite (proj2 (Z.leb_gt _ _)) by lia. cbn [orb]. by rewrite i64_small by lia.
Qed.

(** ** The index chain *)

Lemma linked_app hl n front si off back : linked hl n (front ++ (si, off) :: back) ->
  Session si = n + len front /\ linked hl (n + len front) ((si, off) :: back).
Proof.
  revert n. induction front as [|[si' off'] front IH]; intros n Hl.
  - change (len []) with 0. rewrite Z.add_0_r. split; [apply Hl|done].
  - destruct Hl as (_ & _ & Hl). rewrite len_cons. replace (n + (1 + len front)) with (n + 1 + len front) by lia. by apply IH.
Qed.

Lemma linked_two hl n front si' off' si off back : linked hl n (front ++ (si', off') :: (si, off) :: back) ->
  PrevIndex si = off' /\ hl <= off' < off.
Proof. intros Hl. apply linked_app in Hl as [_ Hl]. destruct Hl as (_ & Hl & _). exact Hl. Qed.

(** Offsets grow along a chain. *)
Lemma linked_offsets hl n front si off back : 0 <= hl -> linked hl n (front ++ (si, off) :: back) -> 0 <= off -> len front <= off.
Proof.
  intros Hh Hl. revert si off back Hl. induction front as [|[si' off'] front IH] using rev_ind; intros si off back Hl Hoff; [change (len []) with 0; lia|].
  rewrite <- app_assoc in Hl. cbn [app] in Hl. destruct (linked_two _ _ _ _ _ _ _ _ Hl) as [_ Ho].
  specialize (IH si' off' ((si, off) :: back) Hl ltac:(lia)). rewrite len_app, len_cons, len_nil. lia.
Qed.

(** A chain as a session writer leaves it in [F]. *)
Record chain_in (hl : Z) (F : bytes) (chain : list (SessionIndex * Z)) : Prop := {
  ch_linked : linked hl 1 chain;
  ch_first : match chain with (si, _) :: _ => PrevIndex si = 0 | [] => True end;
  ch_read : Forall (fun x => index_at master F (snd x) (fst x) /\ hl <= snd x) chain
}.

Lemma index_at_range F off si : index_at master F off si -> 0 <= off < len F.
Proof. intros (e & pt & He & _). apply entry_at_range in He. pose proof (encode_entry_pos e). lia. Qed.

Lemma chain_loop_reads hl F chain ra size : chain_in hl F chain -> F `prefix_of` ra -> len F <= size -> 0 <= hl -> len F < 2 ^ 63 ->
  forall front si off back fuel, chain = front ++ (si, off) :: back -> (length front < fuel)%nat ->
  chain_loop fuel ra size (KeysV2 master) hl off back = Returns (IOk chain).
Proof.
  intros [Hl Hfi Hr] Hra Hs Hh HF front. induction front as [|[si' off'] front IH] using rev_ind; intros si off back fuel Hc Hf;
    (destruct fuel as [|fuel]; [lia|]); cbn [chain_loop].
  - subst chain. cbn [app] in *. apply Forall_cons in Hr as [[Hi _] Hr]. cbn [fst snd] in Hi. rewrite (readIndexAt_index master F off si ra size Hi Hra Hs).
    destruct Hl as (Hs1 & _ & Hl). rewrite Hs1, Hfi.
    assert (match back with [] => false | (next, _) :: _ => negb (1 =? u64 (Session next - 1)) end = false) as ->; [|done].
    destruct back as [|[next noff] back]; [done|]. destruct Hl as (-> & _). done.
  - subst chain. rewrite <- app_assoc in *. cbn [app] in *. rewrite Forall_app in Hr. destruct Hr as [_ Hr].
    apply Forall_cons in Hr as [[Hi' _] Hr]. apply Forall_cons in Hr as [[Hi _] Hr]. cbn [fst snd] in *.
    rewrite (readIndexAt_index master F off si ra size Hi Hra Hs). pose proof (index_at_range _ _ _ Hi) as Hoff.
    destruct (linked_two _ _ _ _ _ _ _ _ Hl) as [Hp Ho]. assert (linked hl 1 ((front ++ [(si', off')]) ++ (si, off) :: back)) as Hl2 by (rewrite <- app_assoc; exact Hl).
    apply linked_app in Hl2 as [Hse Hl2]. rewrite len_app, len_cons, len_nil in Hse, Hl2. pose proof (len_nonneg front).
    pose proof (linked_offsets hl 1 front si' off' ((si, off) :: back) ltac:(lia) Hl ltac:(lia)) as Hlo.
    assert (match back with [] => false | (next, _) :: _ => negb (Session si =? u64 (Session next - 1)) end = false) as ->.
    { destruct back as [|[next noff] back]; [done|]. destruct Hl2 as (_ & _ & -> & _). rewrite u64_small by lia. rewrite Hse.
      by rewrite (proj2 (Z.eqb_eq _ _)) by lia. }
    rewrite (proj2 (Z.eqb_neq (Session si) 1)) by lia. rewrite Hp, !u64_small by lia. rewrite (proj2 (Z.ltb_ge _ _)) by lia.
    rewrite (proj2 (Z.leb_gt _ _)) by lia. cbn [orb]. rewrite i64_small by lia. apply (IH si' off' ((si, off) :: back)); [done|].
    rewrite length_app in Hf. cbn in Hf. lia.
Qed.

Lemma readIndexChain_reads hl F chain si off ra size : chain_in hl F chain -> last chain = Some (si, off) -> F `prefix_of` ra -> len F <= size ->
  0 <= hl -> len F < 2 ^ 63 -> readIndexChain ra size (KeysV2 master) hl off = Returns (IOk chain).
Proof.
  intros Hc Hla Hra Hs Hh HF. apply last_Some in Hla as [front Hch]. unfold readIndexChain.
  eapply (chain_loop_reads hl F chain ra size Hc Hra Hs Hh HF front si off []); [done|].
  destruct Hc as [Hl _ Hr]. rewrite Hch in Hl, Hr. apply Forall_app in Hr as [_ Hr]. apply Forall_cons in Hr as [[Hi _] _]. cbn in Hi.
  apply index_at_range in Hi. pose proof (linked_offsets hl 1 front si off [] Hh Hl ltac:(lia)). unfold len in *. lia.
Qed.

(** ** A whole archive *)

(** [F] holds the sessions of [chain], whose chunks are [raws] and whose files stand for
    [snap]. *)
Record archive_ok (hl : Z) (F : bytes) (chain : list (SessionIndex * Z)) (chunks : list chunkLocation) (files : gmap bytes FileVersion)
  (packs : gmap Z bytes) (raws : list bytes) (snap : snapshot) : Prop := {
  ao_chain : chain_in hl F chain;
  ao_builds : builds hl chain chunks files;
  ao_packs : packs_in master F packs;
  ao_after : forall off pt, packs !! off = Some pt -> hl <= off;
  ao_store : chunk_store master packs chunks raws;
  ao_distinct : NoDup (map cl_id chunks);
  ao_count : len chunks <= len F;
  ao_snap : represents raws files snap
}.

Lemma chain_sessions hl chain si off : linked hl 1 chain -> last chain = Some (si, off) -> Session si = len chain.
Proof. intros Hl Hla. rewrite (linked_nonempty hl 1 chain Hl si off Hla). lia. Qed.

(** Loading gives back the state the sessions built. *)
Lemma load_archive hl F chain chunks files packs raws snap si li cp ra size header :
  archive_ok hl F chain chunks files packs raws snap -> last chain = Some (si, li) -> checkpointed F li cp ->
  (F ++ tail_bytes F cp) `prefix_of` ra -> size = len (F ++ tail_bytes F cp) -> hi_end header = hl -> hi_sealedCount header <= len chain ->
  0 <= hl -> len F < 2 ^ 63 ->
  loadIncremental ra size (KeysV2 master) header =
    Returns (IOk (mk_ia (KeysV2 master) header (len chain) li (len F) (Some (sha_marshal (cs_h (cs_after F)))) false chunks files)).
Proof.
  intros Ha Hla Hcp Hra Hsz Hhl Hcount Hh HF. unfold loadIncremental, find_newest. destruct Ha as [Hc Hb _ _ _ _ _ _].
  assert (hl <= li < len F) as Hli.
  { apply last_Some in Hla as [front ->]. destruct Hc as [_ _ Hr]. apply Forall_app in Hr as [_ Hr]. apply Forall_cons in Hr as [[Hi Hge] _].
    cbn in *. apply index_at_range in Hi. lia. }
  rewrite Hhl, (readCheckpoint_tail F li cp ra size hl Hcp Hra Hsz) by lia.
  assert (F `prefix_of` ra) as HFra by (etrans; [|exact Hra]; by eexists).
  rewrite (readIndexChain_reads hl F chain si li ra size Hc Hla HFra) by (try done; rewrite Hsz, len_app; pose proof (len_nonneg (tail_bytes F cp)); lia).
  assert (newest_session chain = len chain) as Hns by (unfold newest_session; rewrite Hla; by apply (chain_sessions hl chain si li); [apply Hc|]).
  rewrite Hns, (proj2 (Z.ltb_ge _ _)) by done.
  destruct (Hb (mk_ia (KeysV2 master) header 0 li (len F) (Some (sha_marshal (cs_h (cs_after F)))) false [] ∅)) as (ia' & -> & Hc1 & Hf1 & _); [done..|].
  cbn [of_panic]. by rewrite Hc1, Hf1.
Qed.
End Layout.
