(* ===== verification/SessionRefine.v ===== *)
(** * A session refines an update of the abstract store

    [writeSession], started where an archive holds a snapshot, extends it to an archive
    that holds the snapshot with the recorded files added and the deleted names removed. *)

From S2P Require Import Prelude Bytes Names Attributes Metadata IndexCodec Chunker Checkpoint Crypto Codec Frames.
From S2P Require Import Checksum Writer Signatures Recipients IOErrors Inputs SolidPlan Extractor ExtractorLemmas ExtractorProofs.
From S2P Require Import RoundTrip Incremental IncrementalProofs Archiver Packs Sessions SessionLemmas SessionWriter SessionProofs.
Open Scope go_scope.

Section Refine.
Context `{C : Crypto} `{CL : !CryptoLaws C} `{ZS : Zstd} `{ZL : !ZstdLaws ZS} `{H : Sha256} `{HL : !Sha256Laws H}.

(** ** An entry is at least as long as its payload *)

Lemma encode_sealed_len b : len (eb_Ciphertext b) <= len (encode_sealed b).
Proof. unfold encode_sealed. rewrite !len_app. len_lia. Qed.

Lemma payload_loop_len key : forall fuel payload r bs r', (length payload <= fuel)%nat ->
  payload_loop fuel (mk_fb key None) payload r = (bs, r') -> len payload <= len (concat (map encode_sealed bs)).
Proof.
  induction fuel as [|fuel IH]; intros payload r bs r' Hf Hp; cbn [payload_loop] in Hp.
  { destruct payload; [|cbn in Hf; lia]. rewrite len_nil. apply len_nonneg. }
  destruct (Z.ltb_spec 0 (len payload)) as [Hl|Hl]; cbn [negb] in Hp; [|pose proof (len_nonneg (concat (map encode_sealed bs))); lia].
  destruct (NextChunkSize r) as [size r1] eqn:Es. apply NextChunkSize_range in Es. set (n := Z.min size (len payload)) in *.
  destruct (EncryptChunk (mk_fb key None) (ztake n payload) r1) as [b r2] eqn:Eb. unfold EncryptChunk in Eb.
  apply DecryptBlock_EncryptBlock in Eb as (_ & _ & Hc). cbn [encodeInto fb_compressor] in Hc. rewrite len_ztake in Hc by lia.
  destruct (payload_loop fuel (mk_fb key None) (zdrop n payload) r2) as [rest r3] eqn:Er. injection Hp as <- <-.
  pose proof (len_zdrop n payload ltac:(lia)) as Hd. apply IH in Er; [|unfold len in *; lia]. cbn [map concat]. rewrite len_app.
  pose proof (encode_sealed_len b). unfold GCMTagSize in Hc. lia.
Qed.

Lemma sealed_entry_len ks ty codec pt r0 r e : sealPayloadEntry ks ty codec pt pt r0 r = IOk e -> len pt <= len (encode_entry e).
Proof.
  unfold sealPayloadEntry. destruct (draw SaltSize r0) as [salt r01]. destruct (FrameHeader r) as [fh r1]. destruct (Seal _ _ r01) as [[mb|] r02]; [|done].
  cbn [or_fatal]. destruct (InterBlockPadding r1) as [ip r2]. destruct (payload_loop _ _ pt r2) as [bs r3] eqn:Ep. destruct (BuildTrailer _ _ _ r3) as [tr r4].
  intros E. apply IOk_inj in E. subst e. apply payload_loop_len in Ep; [|lia]. unfold encode_entry, encode_body, encode_blocks. cbn [DataBlocks].
  rewrite !len_app. len_lia.
Qed.

(** What [Marshal] says about the index it encoded. *)
Lemma marshal_list_Forall {X} (f : X -> result bytes) l bs : marshal_list f l = Ok bs -> Forall (fun x => exists b, f x = Ok b) l.
Proof.
  revert bs. induction l as [|x l IH]; intros bs; cbn [marshal_list]; [constructor|]. destruct (f x) as [b|] eqn:E; [|done].
  destruct (marshal_list f l) as [bs'|] eqn:El; [|done]. intros _. constructor; [by exists b|by eapply IH].
Qed.

Lemma Marshal_names si b : Marshal si = Ok b ->
  Forall (fun f => ValidEntryName (fv_Name f) = true /\ validate (fv_Attributes f) = Ok tt) (Files si) /\
  Forall (fun n => ValidEntryName n = true) (Deleted si).
Proof.
  unfold Marshal. destruct (marshal_list marshal_file (Files si)) as [fs|] eqn:Ef; [|done].
  destruct (marshal_list marshal_deleted (Deleted si)) as [ds|] eqn:Ed; [|done]. intros _. split.
  - eapply Forall_impl; [by eapply marshal_list_Forall|]. intros f [x Hx]. revert Hx. unfold marshal_file.
    destruct (ValidEntryName (fv_Name f)); [|done]. cbn [negb]. destruct (negb _ && _); [done|]. unfold AppendAttributes.
    destruct (validate (fv_Attributes f)) as [[]|]; done.
  - eapply Forall_impl; [by eapply marshal_list_Forall|]. intros n [x Hx]. revert Hx. unfold marshal_deleted. by destruct (ValidEntryName n).
Qed.

Lemma encode_index_len si b : Marshal si = Ok b -> len b <= MaxIndexSize /\ len (Packs si) <= len b /\ len (Chunks si) <= len b.
Proof.
  intros Hm. pose proof Hm as [Hb Hl]%Marshal_Ok. split; [exact Hl|]. rewrite Hb. unfold encode_index.
  assert (len (Packs si) * 1 <= len (concat (map put_uvarint (Packs si)))) as H1.
  { apply concat_map_len. apply Forall_forall. intros p _. apply put_uvarint_nonempty. }
  assert (len (Chunks si) * 1 <= len (concat (map encode_chunk (Chunks si)))) as H2.
  { apply concat_map_len. apply Forall_forall. intros c _. unfold encode_chunk. rewrite !len_app, len_cons. len_lia. }
  rewrite !len_app. repeat match goal with |- context [len ?x] => lazymatch goal with _ : 0 <= len x |- _ => fail | _ => pose proof (len_nonneg x) end end. lia.
Qed.

(** ** Starting a session *)

Lemma known_chunks_lookup id k chunks : forall n known, known_chunks n chunks known !! id = Some k ->
  (exists i c, chunks !! i = Some c /\ cl_id c = id /\ k = n + Z.of_nat i) \/ known !! id = Some k.
Proof.
  induction chunks as [|c chunks IH]; intros n known Hk; cbn [known_chunks] in Hk; [by right|].
  apply IH in Hk as [(i & c' & Hi & Hid & ->)|Hk]; [left; exists (S i), c'; split; [done|]; split; [done|lia]|].
  destruct (decide (cl_id c = id)) as [<-|Hne]; [|rewrite lookup_insert_ne in Hk by done; by right].
  rewrite lookup_insert_eq in Hk. injection Hk as <-. left. exists 0%nat, c. split; [done|]. split; [done|lia].
Qed.

Lemma known_chunks_some chunks : forall n known id, is_Some (known !! id) \/ (exists c, c ∈ chunks /\ cl_id c = id) ->
  is_Some (known_chunks n chunks known !! id).
Proof.
  induction chunks as [|c chunks IH]; intros n known id Hk; cbn [known_chunks].
  - destruct Hk as [Hk|(c & Hc & _)]; [done|]. by apply elem_of_nil in Hc.
  - apply IH. destruct (decide (cl_id c = id)) as [<-|Hne]; [left; by rewrite lookup_insert_eq|].
    rewrite lookup_insert_ne by done. destruct Hk as [Hk|(c' & Hc & Hid)]; [by left|]. apply elem_of_cons in Hc as [->|Hc]; [done|]. right. by exists c'.
Qed.

Section Session.
Context (toLower : bytes -> bytes) (rnd : nat -> rng * rng) (now : Z) (Hnow : - 2 ^ 63 <= now < 2 ^ 63).
Context (master : bytes) (opts : CompressionOptions) (policy : compressionPolicy) (Hpolicy : newCompressionPolicy opts = Ok policy).
Context (U : bytes -> Prop)
  (Hcf : forall a b, U a -> U b -> ComputeHMAC (DeriveChunkIDKey master) a = ComputeHMAC (DeriveChunkIDKey master) b -> a = b).
Context (open : bytes -> result hostFile) (Hopen : contents_ok (DeriveGearTable master) U open).

(** Before a session: the archive up to here is [P ++ B], holding [snap], and [aw] is at
    its end. *)
Record ready (hl : Z) (P B : bytes) (aw : ArchiveWriter) (ia : incrementalArchive) (chain : list (SessionIndex * Z)) (packs : gmap Z bytes)
  (raws : list bytes) (snap : snapshot) : Prop := {
  rs_wrote : wrote aw P B;
  rs_keys : aw_keys aw = KeysV2 master;
  rs_iakeys : ia_keys ia = KeysV2 master;
  rs_archive : archive_ok master hl (P ++ B) chain (ia_chunks ia) (ia_files ia) packs raws snap;
  rs_hl : 0 <= hl <= len (P ++ B);
  rs_sessions : ia_sessions ia = len chain;
  rs_last : match last chain with Some (_, li) => ia_lastIndex ia = li | None => ia_lastIndex ia = 0 end;
  rs_hashed : cs_done (cs_after (P ++ B)) = true;
  rs_U : Forall U raws
}.

Definition session_index0 (ia : incrementalArchive) : SessionIndex :=
  mk_index (u64 (ia_sessions ia + 1)) now (u64 (ia_lastIndex ia)) (u64 (len (ia_chunks ia))) [] [] [] [].

Lemma newSessionWriter_facts hl P B aw ia chain packs raws snap : ready hl P B aw ia chain packs raws snap ->
  exists sw, newSessionWriter now aw ia opts = IOk sw /\
    facts master (DeriveGearTable master) policy hl P (P ++ B) ia (session_index0 ia) U sw [] (P ++ B) packs raws /\
    sw_config sw = (DeriveChunkIDKey master, DeriveGearTable master, policy, sw_compressor sw) /\ sw_aw sw = aw /\ sw_ia sw = ia /\ sw_index sw = session_index0 ia.
Proof.
  intros []. unfold newSessionWriter. rewrite Hpolicy, rs_iakeys0. cbn [or_fatal ChunkIDKey GearTable].
  assert (exists comp, (match co_Mode opts with CompressionNever => IOk None | _ => match NewChunkCompressor (co_Level opts) with
      Ok bc => IOk (Some bc) | Err _ => IErr (fatal ErrCodeInvalidOption "invalid compression options") end end : iores (option BlockCompressor)) = IOk comp /\
    forall bc, comp = Some bc -> bc_window bc <= MaxCDCChunkSize) as (comp & -> & Hcomp).
  { unfold newCompressionPolicy, NewBlockCompressor, NewChunkCompressor, newCompressor in *. destruct (co_Mode opts); [..|by exists None];
      (destruct (_ || _); [done|]); eexists; (split; [done|]); intros bc [= <-]; done. }
  eexists. split; [reflexivity|]. split; [|done]. destruct rs_archive0 as [Hch Hb Hp Haf Hst Hd Hct Hsn].
  constructor; cbn [sw_aw sw_pack sw_index sw_ia sw_known sw_idKey sw_gear sw_policy sw_compressor Packs Chunks session_index0 Files Deleted]; try done.
  - exists B. split; [done|]. split; [done|]. split; [done|]. split; [done|constructor].
  - exists []. by rewrite app_nil_r.
  - intros id n Hn. apply known_chunks_lookup in Hn as [(i & c & Hi & <- & ->)|Hn]; [|by rewrite lookup_empty in Hn]. split; [lia|].
    destruct Hst as [Hf _]. destruct (Forall2_lookup_l _ _ _ _ _ Hf Hi) as (raw & Hr & pt & _ & Hh). exists raw.
    replace (Z.to_nat (0 + Z.of_nat i)) with i by lia. split; [done|apply Hh].
  - intros c Hc. apply known_chunks_some. right. by exists c.
Qed.

Lemma closePack_facts hl P F0 ia si0 sw files F packs raws : facts master (DeriveGearTable master) policy hl P F0 ia si0 U sw files F packs raws ->
  exists F', facts master (DeriveGearTable master) policy hl P F0 ia si0 U (sw_closePack sw) files F' packs raws /\ sw_pack (sw_closePack sw) = None /\
    F `prefix_of` F'.
Proof.
  intros Hf. unfold sw_closePack. destruct (sw_pack sw) as [p|] eqn:Ep; [|by exists F].
  pose proof (sf_writing _ _ _ _ _ _ _ _ _ _ _ _ _ _ Hf) as Hw. rewrite Ep in Hw. destruct (writing_close master P _ _ _ _ _ Hw) as (F' & Hpre & Hw').
  exists F'. split; [|done]. destruct Hf. constructor; try done. by etrans.
Qed.

Lemma linked_snoc hl chain si off : linked hl 1 chain -> Session si = len chain + 1 ->
  match last chain with Some (_, li) => PrevIndex si = li /\ hl <= li < off | None => True end -> linked hl 1 (chain ++ [(si, off)]).
Proof.
  intros Hl Hs Hla. assert (forall n, linked hl n chain -> Session si = n + len chain -> linked hl n (chain ++ [(si, off)])) as Hg.
  { clear Hl Hs. induction chain as [|[si' off'] chain IH]; intros n Hl Hs; cbn [app linked]; [change (len []) with 0 in Hs; split; [lia|done]|].
    destruct Hl as (Hs' & Hn & Hl). split; [done|]. rewrite len_cons in Hs. destruct chain as [|[si2 off2] chain].
    - cbn [app] in *. cbn in Hla. split; [exact Hla|]. apply IH; [done|done|lia].
    - cbn [app] in *. split; [done|]. apply IH; [exact Hla|done|lia]. }
  apply Hg; [done|lia].
Qed.

(** ** Ending a session *)

Lemma version_chunks raws v r : version_of raws v r -> Forall (fun n => 0 <= n < len raws) (fv_Chunks v).
Proof.
  intros (_ & _ & (parts & Hf & _) & _). induction Hf as [|n part ns parts [Hn Hr] _ IH]; [constructor|]. constructor; [|done].
  apply lookup_lt_Some in Hr. unfold len. lia.
Qed.

(** The index of a finished session is well formed, so it parses back. *)
Lemma session_index_wf hl P F0 ia si0 sw files F packs raws rs deleted b :
  facts master (DeriveGearTable master) policy hl P F0 ia si0 U sw files F packs raws -> sw_pack sw = None -> bounded sw ->
  1 <= Session si0 < 2 ^ 64 -> Time si0 = now -> 0 <= PrevIndex si0 < 2 ^ 64 -> FirstChunk si0 = len (ia_chunks ia) ->
  Forall2 (version_of raws) files rs -> Forall (fun r => Attributes_typed (in_attrs (fst r))) rs ->
  Marshal (set_deleted deleted (sw_index sw)) = Ok b -> index_wf (set_deleted deleted (sw_index sw)).
Proof.
  intros Hf Hpk (Hb1 & Hb2 & Hb3) Hse Hti Hpr Hfc Hv Hty Hm. apply Marshal_names in Hm as [Hfn Hdn]. cbn [set_deleted Files Deleted] in Hfn, Hdn.
  pose proof (sf_writing _ _ _ _ _ _ _ _ _ _ _ _ _ _ Hf) as Hw. rewrite Hpk in Hw. destruct Hw as (B' & (_ & _ & Ho) & HF & _ & _ & Hps).
  destruct (sf_locs _ _ _ _ _ _ _ _ _ _ _ _ _ _ Hf) as (locs & Hl1 & Hl2). apply mapM_Some, Forall2_length in Hl2.
  pose proof (chunk_store_len _ _ _ _ (sf_store _ _ _ _ _ _ _ _ _ _ _ _ _ _ Hf)) as Hlr.
  assert (FirstChunk si0 + len (Chunks (sw_index sw)) = len (ia_chunks (sw_ia sw))) as Htot by (rewrite Hfc, Hl1, len_app; unfold len; lia).
  destruct (sf_index _ _ _ _ _ _ _ _ _ _ _ _ _ _ Hf) as (Hi & Hfi & _). injection Hi as Hi1 Hi2 Hi3 Hi4.
  constructor; cbn [set_deleted Session Time PrevIndex FirstChunk Packs Chunks Files Deleted]; rewrite ?Hi1, ?Hi2, ?Hi3, ?Hi4; try done.
  - rewrite Hti. exact Hnow.
  - rewrite Hfc. apply len_nonneg.
  - lia.
  - eapply Forall_impl; [apply Forall_and; split; [exact (sf_packs _ _ _ _ _ _ _ _ _ _ _ _ _ _ Hf)|exact Hps]|].
    intros p [Hp1 Hp2]. cbv beta in *. pose proof (len_nonneg F0). rewrite HF, len_app, <- Ho in Hp2. lia.
  - exact (sf_recs _ _ _ _ _ _ _ _ _ _ _ _ _ _ Hf).
  - rewrite Hfi in *. rewrite Htot. clear -Hv Hty Hfn Hlr. revert Hty Hfn. induction Hv as [|v r vs rs Hv _ IH]; intros Hty Hfn; [constructor|].
    apply Forall_cons in Hty as [Hty1 Hty], Hfn as [[Hn1 Hn2] Hfn]. constructor; [|by apply IH].
    pose proof (version_chunks _ _ _ Hv) as Hvc. destruct Hv as (Hn & Ha & _ & Hs & Hl & Hk). constructor; try done.
    + by rewrite Ha.
    + rewrite Hs. pose proof (len_nonneg (snd r)). lia.
    + eapply Forall_impl; [exact Hvc|]. intros n. cbv beta. unfold len. lia.
    + rewrite Ha. unfold regular in Hk. destruct (Z.eqb_spec (Kind (in_attrs (fst r))) KindRegular); [by left|right]. destruct (Hk eq_refl). done.
Qed.

Lemma cs_done_app F X : cs_done (cs_after F) = true -> cs_done (cs_after (F ++ X)) = true.
Proof.
  unfold cs_after. destruct (flush_head false F) as [x|] eqn:E; [|done]. intros _. apply (flush_head_app F X) in E as [-> _]. done.
Qed.

Lemma recorded_typed changed : Forall (fun c => Attributes_typed (in_attrs (cf_in c))) changed ->
  Forall (fun r => Attributes_typed (in_attrs (fst r))) (recorded policy open changed).
Proof.
  induction 1 as [|c changed Hc _ IH]; cbn [recorded]; [constructor|]. destruct (cf_err c); [done|]. destruct (negb _); [by constructor|].
  destruct (readable _ _ _ _); [by constructor|done].
Qed.

(** The archive after a session. *)
Lemma session_archive hl P B aw ia chain packs raws snap sw files F packs' raws' rs deleted b r0 r e :
  ready hl P B aw ia chain packs raws snap ->
  facts master (DeriveGearTable master) policy hl P (P ++ B) ia (session_index0 ia) U sw files F packs' raws' -> sw_pack sw = None -> bounded sw ->
  raws `prefix_of` raws' -> Forall2 (version_of raws') files rs -> Forall (fun r => Attributes_typed (in_attrs (fst r))) rs ->
  Marshal (set_deleted deleted (sw_index sw)) = Ok b -> sealPayloadEntry (KeysV2 master) EntryTypeIndex CodecNone b b r0 r = IOk e ->
  len chain + 1 < 2 ^ 63 ->
  archive_ok master hl (F ++ encode_entry e) (chain ++ [(set_deleted deleted (sw_index sw), len F)]) (ia_chunks (sw_ia sw))
    (delete_all deleted (fold_left (fun m v => <[fv_Name v := v]> m) files (ia_files ia))) packs' raws' (delete_all deleted (record_all snap rs)).
Proof.
  intros Hr Hf Hpk Hb Hpre Hv Hty Hm Hseal Hcount. destruct Hr as [Hwr Hk Hik Ha Hhl Hse Hla Hhd HU]. destruct Ha as [Hch Hbu Hpa Haf Hst Hd Hct Hsn].
  pose proof (len_nonneg chain) as Hcl. pose proof Hb as (Hb1 & Hb2 & Hb3).
  pose proof (sf_writing _ _ _ _ _ _ _ _ _ _ _ _ _ _ Hf) as Hw. rewrite Hpk in Hw. destruct Hw as (B' & (_ & _ & Ho) & HF & _ & Hpin & Hps).
  assert (aw_offset (sw_aw sw) = len F) as HoF by (by rewrite Ho, HF, len_app). pose proof (len_nonneg F) as HF0.
  destruct (sf_grown _ _ _ _ _ _ _ _ _ _ _ _ _ _ Hf) as [X HX]. pose proof (len_nonneg X). assert (len (P ++ B) <= len F) as HBF by (rewrite HX, (len_app (P ++ B)); lia).
  destruct (sf_locs _ _ _ _ _ _ _ _ _ _ _ _ _ _ Hf) as (locs & Hl1 & Hl2). pose proof (sf_index _ _ _ _ _ _ _ _ _ _ _ _ _ _ Hf) as (Hi & Hfi & _).
  cbn [session_index0 Session Time PrevIndex FirstChunk] in Hi. injection Hi as Hi1 Hi2 Hi3 Hi4.
  pose proof (len_nonneg (ia_chunks ia)). assert (len (ia_chunks ia) <= len (ia_chunks (sw_ia sw))) by (rewrite Hl1, len_app; pose proof (len_nonneg locs); lia).
  rewrite u64_small in Hi4 by lia. rewrite Hse, u64_small in Hi1 by lia.
  assert (0 <= ia_lastIndex ia < len F /\ (chain <> [] -> hl <= ia_lastIndex ia)) as [Hli Hli2].
  { destruct (last chain) as [[si li]|] eqn:El.
    - rewrite Hla. apply last_Some in El as [front ->]. destruct Hch as [_ _ Hrd]. apply Forall_app in Hrd as [_ Hrd]. apply Forall_cons in Hrd as [[Hi Hge] _].
      cbn in Hi, Hge. apply index_at_range in Hi. split; [lia|done].
    - apply last_None in El. rewrite Hla. split; [|done]. split; [lia|]. subst chain. rewrite HX. clear -Hhd. destruct (P ++ B); [done|]. rewrite len_app, len_cons. len_lia. }
  rewrite u64_small in Hi3 by lia.
  assert (index_wf (set_deleted deleted (sw_index sw))) as Hwf.
  { eapply session_index_wf; [exact Hf|done|done|..|exact Hm]; cbn [session_index0 Session Time PrevIndex FirstChunk]; try done;
      rewrite ?Hse, ?u64_small by lia; lia || done. }
  pose proof (encode_index_len _ _ Hm) as Hlen. cbn [set_deleted Packs Chunks] in Hlen.
  destruct Hlen as (Hlb & _ & Hlc).
  assert (len b < 2 ^ 63) as Hlb' by (unfold MaxIndexSize in Hlb; lia). pose proof (sealed_payload master EntryTypeIndex b r0 r e Hlb' Hseal) as Hh.
  pose proof (sealed_entry_len _ _ _ _ _ _ _ Hseal) as Hle.
  constructor.
  - destruct Hch as [Hlk Hfi' Hrd]. constructor.
    + apply linked_snoc; [done|cbn [set_deleted Session]; lia|]. cbn [set_deleted PrevIndex].
      destruct (last chain) as [[si li]|] eqn:El; [|done]. rewrite Hi3, Hla. split; [done|].
      assert (chain <> []) as Hne by (intros ->; done). specialize (Hli2 Hne). rewrite Hla in *. lia.
    + destruct chain as [|[si off] chain]; [|done]. cbn [app set_deleted PrevIndex]. cbn in Hla. lia.
    + apply Forall_app. split.
      * eapply Forall_impl; [exact Hrd|]. intros x [Hx Hg]. split; [|done]. rewrite HX, <- app_assoc. by apply index_at_app.
      * constructor; [|constructor]. cbn [fst snd]. split; [|lia]. exists e, b. split; [apply entry_at_end|]. split; [done|]. split; [done|]. by apply Parse_Marshal.
  - rewrite Hl1. change deleted with (Deleted (set_deleted deleted (sw_index sw))) at 2. rewrite <- Hfi.
    change (Files (sw_index sw)) with (Files (set_deleted deleted (sw_index sw))).
    eapply builds_snoc; cbn [set_deleted FirstChunk Packs Chunks Files]; try done; try lia.
    + eapply Forall_impl; [apply Forall_and; split; [exact (sf_packs _ _ _ _ _ _ _ _ _ _ _ _ _ _ Hf)|exact Hps]|]. intros p [? ?]. cbv beta in *. lia.
    + rewrite <- Hl1. exact (sf_store _ _ _ _ _ _ _ _ _ _ _ _ _ _ Hf).
    + rewrite Hfi. exact Hv.
  - by apply packs_in_app.
  - exact (sf_after _ _ _ _ _ _ _ _ _ _ _ _ _ _ Hf).
  - exact (sf_store _ _ _ _ _ _ _ _ _ _ _ _ _ _ Hf).
  - exact (sf_distinct _ _ _ _ _ _ _ _ _ _ _ _ _ _ Hf).
  - rewrite Hl1, !len_app. apply mapM_Some, Forall2_length in Hl2. assert (len locs = len (Chunks (sw_index sw))) as -> by (unfold len; lia). lia.
  - apply represents_delete, represents_record; [done|]. by eapply represents_prefix.
Qed.

(** What [writeSession] did when it succeeded. *)
Lemma writeSession_inv aw ia changed deleted allowEmpty res aw' sw0 : newSessionWriter now aw ia opts = IOk sw0 ->
  writeSession toLower rnd now open aw ia changed deleted opts allowEmpty = Some (res, aw', None) ->
  exists res1 sw1 b r0 r e,
    add_changed toLower rnd open changed (mk_ires (u64 (ia_sessions ia + 1)) false 0 0 (len deleted) 0 0 0 0 false false false) sw0 = Some (res1, sw1, None) /\
    let sw2 := sw_closePack sw1 in
    Marshal (set_deleted deleted (sw_index sw2)) = Ok b /\ sealPayloadEntry (aw_keys (sw_aw sw2)) EntryTypeIndex CodecNone b b r0 r = IOk e /\
    WriteCheckpointFooter (aw_offset (sw_aw sw2)) (WriteFileEntry e (sw_aw sw2)) = Ok aw' /\ ir_Session res = ir_Session res1.
Proof.
  unfold writeSession. intros ->. destruct (add_changed _ _ _ _ _ sw0) as [[[res1 sw1] [err|]]|]; try done. destruct (_ && _); [done|].
  set (sw2 := sw_closePack sw1). intros E. exists res1, sw1. unfold writeIndex in E. cbn [sw_with sw_index sw_seq sw_aw] in E.
  destruct (Marshal (set_deleted deleted (sw_index sw2))) as [b|] eqn:Em; [|done]. cbn [or_fatal] in E. destruct (rnd (sw_seq sw2)) as [r0 r].
  destruct (sealPayloadEntry _ _ _ _ _ _ _) as [e|] eqn:Es; [|done]. cbn [sw_with sw_aw] in E.
  destruct (WriteCheckpointFooter _ _) as [aw2|] eqn:Ew; [|done]. injection E as <- <-.
  exists b, r0, r, e. split_and!; done.
Qed.

Lemma WriteCheckpointFooter_offset li aw aw' : WriteCheckpointFooter li aw = Ok aw' -> aw_offset aw <= aw_offset aw'.
Proof.
  unfold WriteCheckpointFooter. destruct (cs_MarshalBinary _) as [st|]; [|done]. destruct (MarshalCheckpoint _) as [cp|]; [|done].
  intros [= <-]. unfold WriteFooter. cbn [raw_write aw_offset tee]. len_lia.
Qed.

Lemma prefix_len (a b : bytes) : a `prefix_of` b -> len a <= len b.
Proof. intros [X ->]. rewrite len_app. len_lia. Qed.

Lemma chain_length hl F chain : chain_in master hl F chain -> 0 <= hl -> len chain <= len F.
Proof.
  intros [Hl _ Hr] Hh. destruct (last chain) as [[si off]|] eqn:El; [|apply last_None in El as ->; apply len_nonneg].
  apply last_Some in El as [front ->]. apply Forall_app in Hr as [_ Hr].
  apply Forall_cons in Hr as [[Hi Hge] _]. cbn in Hi, Hge. apply index_at_range in Hi. rewrite len_app, len_cons, len_nil.
  pose proof (linked_offsets hl 1 front si off [] Hh Hl ltac:(lia)). lia.
Qed.

Lemma writeSession_refines hl P B aw ia chain packs raws snap changed deleted allowEmpty res aw' :
  ready hl P B aw ia chain packs raws snap -> Forall changed_ok changed -> Forall (fun c => Attributes_typed (in_attrs (cf_in c))) changed ->
  writeSession toLower rnd now open aw ia changed deleted opts allowEmpty = Some (res, aw', None) -> aw_offset aw' < 2 ^ 62 ->
  exists B' si off cp chunks files packs' raws',
    aw_out aw' = B' ++ tail_bytes (P ++ B') cp /\ (P ++ B) `prefix_of` (P ++ B') /\ checkpointed (P ++ B') off cp /\
    archive_ok master hl (P ++ B') (chain ++ [(si, off)]) chunks files packs' raws'
      (delete_all deleted (record_all snap (recorded policy open changed))) /\
    Forall U raws' /\ aw_offset aw' + FooterSize = len (P ++ aw_out aw') /\ ir_Session res = len chain + 1 /\
    aw_checksum aw' = sha_sum (sha_write sha_init (masked (((P ++ B') ++ cp) ++ [zb EntryTypeEnd]))).
Proof.
  intros Hr Hok Hty Hws Hoff. destruct (newSessionWriter_facts _ _ _ _ _ _ _ _ _ Hr) as (sw0 & Hnew & Hf0 & Hcfg & Haw & Hia & Hidx).
  destruct (writeSession_inv _ _ _ _ _ _ _ _ Hnew Hws) as (res1 & sw1 & b & r0 & r & e & Hadd & Hm & Hseal & Hfoot & Hses). clear Hws Hnew.
  pose proof Hr as [Hwr Hk Hik Ha Hhl Hse Hla Hhd HU]. pose proof (len_nonneg P) as HP.
  destruct (add_changed_spec toLower rnd master (DeriveGearTable master) policy hl P (P ++ B) ltac:(lia) ia (session_index0 ia) U Hcf opts Hpolicy open Hopen changed Hok
    (mk_ires (u64 (ia_sessions ia + 1)) false 0 0 (len deleted) 0 0 0 0 false false false) sw0 Hcfg) as (res1' & sw1' & Hadd' & Hle & _ & _ & Hse1 & Hspec).
  rewrite Hadd in Hadd'. injection Hadd' as <- <-. set (sw2 := sw_closePack sw1) in *.
  assert (sw_le sw0 sw2) as Hle2 by (etrans; [exact Hle|apply sw_closePack_le]).
  pose proof (encode_index_len _ _ Hm) as (Hlb & Hlp & Hlc). cbn [set_deleted Packs Chunks] in Hlp, Hlc.
  pose proof (extends_offset _ _ (extends_file_entry e (sw_aw sw2))) as Ho2. pose proof (WriteCheckpointFooter_offset _ _ _ Hfoot) as Ho3.
  assert (bounded sw2) as Hb2.
  { destruct Hle2 as (Ho%extends_offset & _ & _ & Hch). rewrite Haw in Ho. rewrite Hia, Hidx in Hch. cbn [session_index0 Chunks] in Hch. change (len []) with 0 in Hch.
    pose proof (ao_count _ _ _ _ _ _ _ _ _ Ha) as Hct. destruct Hwr as (_ & _ & Ho0). rewrite len_app in Hct.
    unfold MaxIndexSize in Hlb. unfold bounded. lia. }
  destruct (Hspec [] (P ++ B) packs raws [] Hf0) as (files' & F1 & packs' & raws' & Hf1 & Hpre & Hv);
    [eapply bounded_le; [apply sw_closePack_le|exact Hb2]|constructor|].
  destruct (closePack_facts _ _ _ _ _ _ _ _ _ _ Hf1) as (F2 & Hf2 & Hpk & _). fold sw2 in Hf2, Hpk. cbn [app] in Hv.
  pose proof (sf_writing _ _ _ _ _ _ _ _ _ _ _ _ _ _ Hf2) as Hw. rewrite Hpk in Hw. destruct Hw as (B2 & Hw2 & HF2 & Hk2 & _).
  rewrite Hk2 in Hseal. pose proof (chain_length _ _ _ (ao_chain _ _ _ _ _ _ _ _ _ Ha) ltac:(lia)) as Hcl.
  pose proof (sf_grown _ _ _ _ _ _ _ _ _ _ _ _ _ _ Hf2) as Hgr. pose proof (prefix_len _ _ Hgr) as Hgl. destruct Hb2 as (Hb21 & Hb22 & Hb23).
  assert (aw_offset (sw_aw sw2) = len F2) as HoF by (destruct Hw2 as (_ & _ & Ho); by rewrite Ho, HF2, len_app).
  pose proof (session_archive _ _ _ _ _ _ _ _ _ _ _ _ _ _ _ deleted b r0 r e Hr Hf2 Hpk ltac:(done) Hpre Hv ltac:(by apply recorded_typed) Hm Hseal ltac:(lia)) as Harch.
  assert (cs_done (cs_after (P ++ B2 ++ encode_entry e)) = true) as Hdone.
  { rewrite app_assoc, <- HF2. apply cs_done_app. destruct Hgr as [X ->]. by apply cs_done_app. }
  destruct (WriteCheckpointFooter_out _ _ _ (len F2) (wrote_entry _ _ _ e Hw2) Hdone ltac:(pose proof (len_nonneg F2); lia)) as (aw2 & cp & Hfoot' & Hcp & Hout & Hend & Hcpl & Hsum).
  rewrite HoF, Hfoot' in Hfoot. injection Hfoot as ->. exists (B2 ++ encode_entry e), (set_deleted deleted (sw_index sw2)), (len F2), cp.
  eexists _, _, packs', raws'. split; [exact Hout|]. split; [rewrite app_assoc, <- HF2; destruct Hgr as [X ->]; rewrite <- app_assoc; by eexists|].
  split; [exact Hcp|]. split; [rewrite app_assoc, <- HF2; exact Harch|]. split; [apply (sf_U _ _ _ _ _ _ _ _ _ _ _ _ _ _ Hf2)|]. split.
  { rewrite Hend, Hout. set (T := tail_bytes _ cp). assert (len T = TailSize) as HT by (by apply tail_bytes_len). rewrite !len_app. lia. }
  split; [|exact Hsum]. rewrite Hses, Hse1. cbn [ir_Session]. rewrite Hse. apply u64_small. pose proof (len_nonneg chain). lia.
Qed.
End Session.
End Refine.
