(* ===== verification/StoreFile.v ===== *)
(** * Incremental archive files

    The bytes of an incremental archive at rest: a header whose sealed session count is
    rewritten in place, the sessions, the checkpoint and footer, and possibly a signature.
    [holds] says which snapshot a file holds; the checksum and the sessions do not depend on
    the sealed count. *)

From S2P Require Import Prelude Bytes Names Attributes Metadata IndexCodec Chunker Checkpoint Crypto Codec Frames.
From S2P Require Import Checksum Writer Signatures Recipients IOErrors Inputs SolidPlan Extractor ExtractorLemmas ExtractorProofs.
From S2P Require Import RoundTrip Incremental IncrementalProofs Archiver Packs Sessions SessionLemmas SessionWriter SessionProofs SessionRefine.
Open Scope go_scope.

(** ** Writing in place *)

Lemma write_at_app (a b x : bytes) : write_at (a ++ b) (len a) x = a ++ x ++ zdrop (len x) b.
Proof. unfold write_at. rewrite ztake_app by done. rewrite zdrop_app_ge by len_lia. by replace (len a + len x - len a) with (len x) by lia. Qed.

Lemma write_at_same (a b x rest : bytes) : len b = len x -> write_at (a ++ b ++ rest) (len a) x = a ++ x ++ rest.
Proof. intros Hl. rewrite write_at_app, <- Hl, zdrop_app by done. done. Qed.

(** ** The header *)

Definition header_bytes (block sealed : bytes) : bytes :=
  Magic ++ le_bytes 2 Version2 ++ le_bytes 4 (len block) ++ block ++ sealed ++ [zb HeaderFlagIncremental] ++ replicate 31 Byte.x00.

Section Header.
Context (block : bytes) (Hblock : len block <= MaxRecipientBlockSize).

Lemma header_split (sealed X : bytes) : len sealed = FileCountSealedSize ->
  let b := header_bytes block sealed ++ X in
  headerPrefixLen <= len b /\ v2_header b = true /\ le_u32 (zdrop 6 b) = len block /\ countOff b = headerPrefixLen + len block /\
  flagOff b < len b /\ byte_at (flagOff b) b = HeaderFlagIncremental.
Proof.
  intros Hs b. pose proof (len_nonneg block). pose proof (len_nonneg X). unfold MaxRecipientBlockSize in Hblock.
  assert (FileCountSealedSize = 36 /\ ReservedSize = 32 /\ headerPrefixLen = 10) as (Hc1 & Hc2 & Hc3) by done.
  assert (len b = headerPrefixLen + len block + FileCountSealedSize + ReservedSize + len X) as Hl.
  { unfold b, header_bytes. rewrite !len_app, Hs, !len_le_bytes.
    change (len Magic) with 4. change (len [zb HeaderFlagIncremental]) with 1. change (len (replicate 31 Byte.x00)) with 31. lia. }
  assert (le_u32 (zdrop 6 b) = len block) as Hu.
  { unfold b, header_bytes. rewrite app_assoc, <- (app_assoc (Magic ++ _)). rewrite zdrop_app by done. rewrite <- app_assoc. apply le_u32_app. lia. }
  assert (countOff b = headerPrefixLen + len block) as Hc by (unfold countOff; by rewrite Hu).
  assert (flagOff b = headerPrefixLen + len block + FileCountSealedSize) as Hf by (unfold flagOff; by rewrite Hc).
  split_and!; try done.
  - rewrite Hl. lia.
  - unfold v2_header. rewrite (proj2 (Z.leb_le _ _)) by lia. unfold b, header_bytes.
    rewrite <- app_assoc, ztake_app, bytes_eqb_refl by done. rewrite zdrop_app, <- app_assoc by done. by rewrite le_u16_app by done.
  - rewrite Hf, Hl. lia.
  - rewrite Hf. unfold byte_at, b, header_bytes.
    replace (Magic ++ _) with ((Magic ++ le_bytes 2 Version2 ++ le_bytes 4 (len block) ++ block ++ sealed) ++ [zb HeaderFlagIncremental] ++ replicate 31 Byte.x00)
      by (by rewrite <- !app_assoc).
    rewrite <- app_assoc, zdrop_app; [done|]. rewrite !len_app, !len_le_bytes, Hs. change (len Magic) with 4. unfold headerPrefixLen. lia.
Qed.

(** Sealing another count changes neither the checksum nor its state. *)
Lemma flush_header sealed sealed' final X : len sealed = FileCountSealedSize -> len sealed' = FileCountSealedSize ->
  flush_head final (header_bytes block sealed ++ X) = flush_head final (header_bytes block sealed' ++ X).
Proof.
  intros Hs Hs'. assert (forall s, len s = FileCountSealedSize -> flush_head final (header_bytes block s ++ X) =
    Some (header_bytes block (replicate (Z.to_nat FileCountSealedSize) Byte.x00) ++ X)) as Hf; [|by rewrite !Hf].
  clear -Hblock. intros s Hs. destruct (header_split s X Hs) as (Hp & Hv & Hu & Hc & Hl & Hb). unfold flush_head.
  rewrite (proj2 (Z.ltb_ge _ _)), Hv, Hu by done. rewrite (proj2 (Z.leb_le _ _) Hblock). cbn [andb negb].
  rewrite (proj2 (Z.leb_gt _ _)), (proj2 (Z.ltb_lt _ _)), Hb by done. cbn [andb negb]. change (negb _) with true. cbv iota. f_equal.
  unfold clear_range, flagOff. rewrite Hc. replace (headerPrefixLen + len block + FileCountSealedSize - (headerPrefixLen + len block)) with FileCountSealedSize by lia.
  set (A := Magic ++ le_bytes 2 Version2 ++ le_bytes 4 (len block) ++ block). assert (len A = headerPrefixLen + len block) as HA.
  { unfold A. rewrite !len_app, !len_le_bytes. change (len Magic) with 4. unfold headerPrefixLen. lia. }
  assert (forall s', header_bytes block s' = A ++ s' ++ [zb HeaderFlagIncremental] ++ replicate 31 Byte.x00) as Hh by (intros; unfold header_bytes, A; by rewrite <- !app_assoc).
  rewrite !Hh, <- !app_assoc. rewrite ztake_app by done. rewrite (app_assoc A s), zdrop_app by (rewrite len_app, Hs; lia). done.
Qed.

Lemma header_len sealed : len sealed = FileCountSealedSize -> len (header_bytes block sealed) = FileCountOffset (len block) + FileCountSealedSize + ReservedSize.
Proof. intros Hs. unfold header_bytes, FileCountOffset. rewrite !len_app, Hs, !len_le_bytes, len_replicate, len_cons, len_nil. unfold ReservedSize. lia. Qed.

(** Resealing rewrites the count in place. *)
Lemma reseal sealed sealed' X : len sealed = FileCountSealedSize -> len sealed' = FileCountSealedSize ->
  write_at (header_bytes block sealed ++ X) (FileCountOffset (len block)) sealed' = header_bytes block sealed' ++ X.
Proof.
  intros Hs Hs'. set (A := Magic ++ le_bytes 2 Version2 ++ le_bytes 4 (len block) ++ block).
  assert (len A = FileCountOffset (len block)) as <- by (unfold A, FileCountOffset; rewrite !len_app, !len_le_bytes; lia).
  assert (forall s', header_bytes block s' ++ X = A ++ s' ++ [zb HeaderFlagIncremental] ++ replicate 31 Byte.x00 ++ X) as Hh
    by (intros; unfold header_bytes, A; by rewrite <- !app_assoc).
  rewrite !Hh. apply write_at_same. congruence.
Qed.

Section Hashed.
Context `{H : Sha256}.

Lemma cs_after_header sealed sealed' X : len sealed = FileCountSealedSize -> len sealed' = FileCountSealedSize ->
  cs_after (header_bytes block sealed ++ X) = cs_after (header_bytes block sealed' ++ X) \/
  cs_done (cs_after (header_bytes block sealed ++ X)) = false.
Proof.
  intros Hs Hs'. unfold cs_after. rewrite (flush_header sealed sealed' false X Hs Hs'). destruct (flush_head false _); [by left|by right].
Qed.

Lemma masked_header sealed sealed' X : len sealed = FileCountSealedSize -> len sealed' = FileCountSealedSize ->
  masked (header_bytes block sealed ++ X) = masked (header_bytes block sealed' ++ X).
Proof. intros Hs Hs'. pose proof (flush_header sealed sealed' true X Hs Hs') as Hf. rewrite !flush_head_final in Hf. by injection Hf. Qed.
End Hashed.
End Header.

(** The parts that follow a count that is resealed. *)
Section Resealed.
Context `{C : Crypto} `{ZS : Zstd} `{H : Sha256}.
Context (master block : bytes) (Hblock : len block <= MaxRecipientBlockSize) (sealed sealed' : bytes).
Context (Hs : len sealed = FileCountSealedSize) (Hs' : len sealed' = FileCountSealedSize).

Lemma reseal_tail body cp : tail_bytes (header_bytes block sealed ++ body) cp = tail_bytes (header_bytes block sealed' ++ body) cp.
Proof. unfold tail_bytes. rewrite <- !app_assoc. by rewrite (masked_header block Hblock sealed sealed'). Qed.

Lemma reseal_checkpoint body li cp : checkpointed (header_bytes block sealed ++ body) li cp -> checkpointed (header_bytes block sealed' ++ body) li cp.
Proof.
  intros [Hd Hc]. destruct (cs_after_header block Hblock sealed sealed' body Hs Hs') as [He|He]; [|congruence]. split; by rewrite <- He.
Qed.

Lemma reseal_archive body chain chunks files packs raws snap : let hl := len (header_bytes block sealed) in
  archive_ok master hl (header_bytes block sealed ++ body) chain chunks files packs raws snap ->
  archive_ok master hl (header_bytes block sealed' ++ body) chain chunks files packs raws snap.
Proof.
  intros hl [Hch Hb Hp Ha Hst Hd Hc Hsn]. assert (len (header_bytes block sealed') = hl) as Hl by (unfold hl; by rewrite !header_len).
  assert (forall off e, hl <= off -> entry_at (header_bytes block sealed ++ body) off e -> entry_at (header_bytes block sealed' ++ body) off e) as He.
  { intros off e Ho. apply entry_at_header with hl; rewrite ?len_app, ?Hl; fold hl; try len_lia.
    rewrite !zdrop_app by done. done. }
  constructor; try done.
  - destruct Hch as [Hlk Hfi Hr]. constructor; [done|done|]. eapply Forall_impl; [exact Hr|]. intros [si off] [(e & pt & Hen & Hx) Hg]. cbn [fst snd] in *.
    split; [|done]. exists e, pt. split; [by apply He|done].
  - intros off pt Ho. destruct (Hp off pt Ho) as (e & Hen & Hx). exists e. split; [apply He; [by eapply Ha|done]|done].
  - rewrite len_app in *. rewrite Hl. exact Hc.
Qed.
End Resealed.

(** ** Files *)

(** Nothing, or a signature block. *)
Definition signature_suffix (sg : bytes) (signature : option bytes) : Prop :=
  match signature with
  | None => sg = []
  | Some sig => 0 < len sig <= MaxSignatureSize /\ sg = sig ++ le_bytes 4 (len sig) ++ signatureMagic
  end.

Section Holds.
Context `{C : Crypto} `{CL : !CryptoLaws C} `{ZS : Zstd} `{ZL : !ZstdLaws ZS} `{H : Sha256} `{HL : !Sha256Laws H} `{A : Age}.
Context (cek block : bytes) (U : bytes -> Prop).

(** The parts of an incremental archive file that holds [snap]. *)
Record layout (f : bytes) (snap : snapshot) (sealed body : bytes) (chain : list (SessionIndex * Z)) (li : Z) (cp sg : bytes)
  (signature : option bytes) (chunks : list chunkLocation) (files : gmap bytes FileVersion) (packs : gmap Z bytes) (raws : list bytes) (count : Z) : Prop := {
  lo_block : len block <= MaxRecipientBlockSize;
  lo_file : f = (header_bytes block sealed ++ body) ++ tail_bytes (header_bytes block sealed ++ body) cp ++ sg;
  lo_sealed : len sealed = FileCountSealedSize;
  lo_count : openFileCount (KeysV2 cek) sealed = Ok count /\ 0 <= count <= len chain;
  lo_archive : archive_ok cek (len (header_bytes block sealed)) (header_bytes block sealed ++ body) chain chunks files packs raws snap;
  lo_last : exists si, last chain = Some (si, li);
  lo_checkpoint : checkpointed (header_bytes block sealed ++ body) li cp;
  lo_signature : signature_suffix sg signature;
  lo_raws : Forall U raws;
  lo_size : len f < 2 ^ 62
}.

(** File [f] is an incremental archive, under content key [cek] and recipient block
    [block], whose newest session leaves [snap]. *)
Definition holds (f : bytes) (snap : snapshot) : Prop :=
  exists sealed body chain li cp sg signature chunks files packs raws count,
    layout f snap sealed body chain li cp sg signature chunks files packs raws count.

Lemma layout_holds f snap sealed body chain li cp sg signature chunks files packs raws count :
  layout f snap sealed body chain li cp sg signature chunks files packs raws count -> holds f snap.
Proof. intros Hl. by exists sealed, body, chain, li, cp, sg, signature, chunks, files, packs, raws, count. Qed.

(** The header of such a file opens with its credentials. *)
Lemma readHeader_holds u sealed count X : OpenRecipientBlock block u = Opened cek -> len block <= MaxRecipientBlockSize ->
  len sealed = FileCountSealedSize -> openFileCount (KeysV2 cek) sealed = Ok count ->
  readHeader u (header_bytes block sealed ++ X) = (IOk (KeysV2 cek, mk_hinfo HeaderFlagIncremental count (len block)), X).
Proof.
  intros Ho Hb Hl Hs. pose proof (len_nonneg block). unfold MaxRecipientBlockSize in Hb. unfold header_bytes.
  unfold readHeader, rbind at 1. rewrite <- !app_assoc. rewrite (takes_rfull 4) by done. rewrite bytes_eqb_refl. cbn [negb].
  unfold rbind at 1. rewrite (takes_rfull 2) by done.
  replace (le_u16 (le_bytes 2 Version2)) with Version2 by done. cbv zeta.
  change (Version2 =? Version1) with false. change (Version2 =? Version2) with true. cbv iota.
  unfold readVersion2Header, rbind at 1. rewrite (takes_rfull 4) by done. rewrite le_u32_exact by lia. cbv zeta.
  rewrite (proj2 (Z.ltb_ge _ _)) by done.
  unfold rbind at 1. rewrite (takes_rfull (len block)) by done. unfold rbind at 1. rewrite (takes_rfull FileCountSealedSize) by done.
  unfold rbind at 1. rewrite (app_assoc [zb HeaderFlagIncremental]), (takes_rfull ReservedSize) by done.
  rewrite Ho, Hs. done.
Qed.

Lemma splitSignature_holds proper sg signature : signature_suffix sg signature -> FooterSize <= len proper ->
  (exists b, proper = b ++ replicate 32 Byte.x00) -> splitSignature (proper ++ sg) (len (proper ++ sg)) = IOk (len proper, signature).
Proof.
  intros Hs Hp [b Hb]. destruct (splitSignature_tail (proper ++ sg)) as [-> _]. destruct signature as [sig|]; cbn [signature_suffix] in Hs.
  - destruct Hs as [Hl ->]. by rewrite splitSignatureTail_block.
  - subst sg. rewrite app_nil_r, Hb, split_unsigned. done.
Qed.

(** What loading such a file gives. *)
Definition loaded (sealed body : bytes) (count li : Z) (chain : list (SessionIndex * Z)) (chunks : list chunkLocation) (files : gmap bytes FileVersion) :
  incrementalArchive :=
  let F := header_bytes block sealed ++ body in
  mk_ia (KeysV2 cek) (mk_hinfo HeaderFlagIncremental count (len block)) (len chain) li (len F) (Some (sha_marshal (cs_h (cs_after F)))) false chunks files.

Lemma load_holds u f snap sealed body chain li cp sg signature chunks files packs raws count :
  layout f snap sealed body chain li cp sg signature chunks files packs raws count -> OpenRecipientBlock block u = Opened cek ->
  let header := mk_hinfo HeaderFlagIncremental count (len block) in
  let proper := len (header_bytes block sealed ++ body) + TailSize in
  fst (readHeader u f) = IOk (KeysV2 cek, header) /\ splitSignature f (len f) = IOk (proper, signature) /\
  loadIncremental f proper (KeysV2 cek) header = Returns (IOk (loaded sealed body count li chain chunks files)).
Proof.
  intros [] Hu header proper. set (F := header_bytes block sealed ++ body) in *. destruct lo_count0 as [Hco Hcl]. destruct lo_last0 as [si Hla].
  pose proof lo_checkpoint0 as [_ Hcp]. pose proof (MarshalCheckpoint_Ok _ _ Hcp) as (_ & Hcpl & _).
  assert (len (F ++ tail_bytes F cp) = proper) as Hp by (rewrite len_app, tail_bytes_len by done; done).
  rewrite lo_file0 in lo_size0. rewrite app_assoc, len_app, Hp in lo_size0. pose proof (len_nonneg sg). pose proof (len_nonneg F). assert (FooterSize <= TailSize /\ 0 <= TailSize) as [Hft Ht0] by done. split_and!.
  - rewrite lo_file0. unfold F at 1. rewrite <- app_assoc. by rewrite (readHeader_holds u sealed count).
  - rewrite lo_file0, app_assoc, (splitSignature_holds _ _ signature); [by rewrite Hp|done|rewrite Hp; unfold proper; lia|].
    unfold tail_bytes. eexists. by rewrite !app_assoc.
  - eapply load_archive; try done; cbn [hi_sealedCount header]; try lia.
    + rewrite lo_file0, app_assoc. by eexists.
    + unfold hi_end. cbn [hi_recipientBlockLen header]. by rewrite header_len.
    + fold F. unfold proper in *. lia.
Qed.
End Holds.
