(* ===== verification/UpdateProofs.v ===== *)
(** * Updating an archive synchronises the store

    Creating, updating and signing incremental archives, against the abstract store: an
    update is atomic, a successful one leaves the synchronised snapshot. *)

From S2P Require Import Prelude Bytes Names Attributes Metadata IndexCodec Chunker Checkpoint Crypto Codec Frames.
From S2P Require Import Checksum Writer Signatures Recipients IOErrors Inputs SolidPlan Extractor ExtractorLemmas ExtractorProofs.
From S2P Require Import RoundTrip Incremental IncrementalProofs Archiver Packs Sessions Updates.
From S2P Require Import SessionLemmas SessionWriter SessionProofs SessionRefine StoreFile.
Open Scope go_scope.

(** ** The abstract update *)

(** [diff_input] on the abstract store: metadata and size decide. *)
Definition snap_diff (stat : bytes -> result fileInfo) (snap : snapshot) (i : inputFile) : option changedFile :=
  if negb (regular i) then
    match snap !! in_name i with
    | Some (a, _) => if sameAttributes a (in_attrs i) then None else Some (mk_changed i None None)
    | None => Some (mk_changed i None None)
    end
  else match stat (in_path i) with
  | Err _ => Some (mk_changed i None (Some (recoverable ErrCodeReadFailed "stat file")))
  | Ok info =>
      match snap !! in_name i with
      | Some (a, content) => if (len content =? u64 (fi_Size info)) && sameAttributes a (in_attrs i) then None else Some (mk_changed i (Some info) None)
      | None => Some (mk_changed i (Some info) None)
      end
  end.

Definition unreadable (skipped : list skippedInput) : list bytes :=
  map sk_name (filter (fun s => sk_unreadable s = true /\ sk_name s <> []) skipped).

(** Record the inputs that differ and could be read; forget the names that are neither
    inputs nor below an input that could not be listed. *)
Definition synchronise (policy : compressionPolicy) (stat : bytes -> result fileInfo) (open : bytes -> result hostFile) (snap : snapshot)
  (files : list inputFile) (skipped : list skippedInput) : snapshot :=
  filter (fun kv => fst kv ∈ map in_name files \/ underAny (fst kv) (unreadable skipped) = true)
    (record_all snap (recorded policy open (omap (snap_diff stat snap) files))).

Lemma diff_files_omap stat files ins : fst (diff_files stat files ins) = omap (diff_input stat files) ins.
Proof.
  induction ins as [|i ins IH]; [done|]. cbn [diff_files omap list_omap]. rewrite <- IH. destruct (diff_files stat files ins) as [ch un].
  by destruct (diff_input stat files i).
Qed.

Lemma diff_represents stat raws files snap i : represents raws files snap -> diff_input stat files i = snap_diff stat snap i.
Proof.
  intros Hr. specialize (Hr (in_name i)). unfold diff_input, snap_diff. destruct (files !! in_name i) as [v|], (snap !! in_name i) as [[a content]|]; try done.
  destruct Hr as (_ & Ha & _ & Hs & _). cbn [fst snd] in *. by rewrite Ha, Hs.
Qed.

Lemma snap_diff_ok stat snap i c : snap_diff stat snap i = Some c -> changed_ok c /\ cf_in c = i.
Proof.
  unfold snap_diff, changed_ok. destruct (negb (regular i)) eqn:Er.
  - apply negb_true_iff in Er. intros Hc. assert (c = mk_changed i None None) as ->; [|cbn; by rewrite Er].
    destruct (snap !! _) as [[a x]|]; [destruct (sameAttributes _ _)|]; congruence.
  - destruct (stat _) as [info|]; [|by intros [= <-]]. intros Hc. assert (c = mk_changed i (Some info) None) as ->; [|done].
    destruct (snap !! _) as [[a x]|]; [destruct (_ && _)|]; congruence.
Qed.

Lemma delete_all_lookup {V} (names : list bytes) (m : gmap bytes V) (n : bytes) : delete_all names m !! n = if decide (n ∈ names) then None else m !! n.
Proof.
  revert m. induction names as [|x names IH]; intros m; [done|]. change (delete_all (x :: names) m) with (delete_all names (delete x m)). rewrite IH.
  destruct (decide (n ∈ names)); [by rewrite decide_True by (by right)|]. destruct (decide (n = x)) as [->|Hne].
  - rewrite lookup_delete_eq. by rewrite decide_True by (by left).
  - rewrite lookup_delete_ne by done. rewrite decide_False; [done|]. intros [|]%elem_of_cons; done.
Qed.

Lemma record_all_lookup n rs : forall snap, (forall r, r ∈ rs -> in_name (fst r) <> n) -> record_all snap rs !! n = snap !! n.
Proof.
  induction rs as [|r rs IH]; intros snap Hn; [done|]. change (record_all snap (r :: rs)) with (record_all (<[in_name (fst r) := (in_attrs (fst r), snd r)]> snap) rs).
  rewrite IH by (intros r' Hr'; apply Hn; by right). apply lookup_insert_ne. apply Hn. by left.
Qed.

Lemma recorded_names policy open changed r : r ∈ recorded policy open changed -> exists c, c ∈ changed /\ cf_in c = fst r.
Proof.
  induction changed as [|c changed IH]; cbn [recorded]; [by intros ?%elem_of_nil|]. intros Hr.
  assert (r ∈ recorded policy open changed \/ fst r = cf_in c) as [(c' & Hc & Hin)%IH|Hf].
  { destruct (cf_err c); [by left|]. destruct (negb _); [|destruct (readable _ _ _ _); [|by left]]; apply elem_of_cons in Hr as [->|Hr]; [by right|by left|by right|by left]. }
  - exists c'. split; [by right|done].
  - exists c. split; [by left|done].
Qed.

Lemma omap_names stat snap (files : list inputFile) (c : changedFile) : c ∈ omap (snap_diff stat snap) files -> exists i, i ∈ files /\ snap_diff stat snap i = Some c.
Proof. intros Hc. by apply list_elem_of_omap in Hc. Qed.

Lemma sorted_name raws ia snap n : represents raws (ia_files ia) snap -> n ∈ map fv_Name (sortedFiles ia) <-> is_Some (snap !! n).
Proof.
  intros Hr. unfold sortedFiles. rewrite stable_sort_perm. split.
  - intros (v & -> & ([k v'] & -> & Hv)%list_elem_of_fmap)%list_elem_of_fmap. apply elem_of_map_to_list in Hv. cbn [snd]. specialize (Hr k). rewrite Hv in Hr.
    destruct (snap !! k) as [x|] eqn:E; [|done]. destruct Hr as [-> _]. by rewrite E.
  - intros [x Hx]. specialize (Hr n). rewrite Hx in Hr. destruct (ia_files ia !! n) as [v|] eqn:E; [|done]. destruct Hr as [<- _].
    apply list_elem_of_fmap. exists v. split; [done|]. apply list_elem_of_fmap. exists (fv_Name v, v). split; [done|]. by apply elem_of_map_to_list.
Qed.

Lemma diffInputs_synchronise policy stat open raws ia snap files skipped changed deleted unchanged : represents raws (ia_files ia) snap ->
  diffInputs stat ia files skipped = (changed, deleted, unchanged) ->
  changed = omap (snap_diff stat snap) files /\
  delete_all deleted (record_all snap (recorded policy open changed)) = synchronise policy stat open snap files skipped.
Proof.
  intros Hr. unfold diffInputs. pose proof (diff_files_omap stat (ia_files ia) files) as Hd. destruct (diff_files stat (ia_files ia) files) as [ch un].
  intros [= <- <- <-]. cbn [fst] in Hd.
  assert (ch = omap (snap_diff stat snap) files) as -> by (rewrite Hd; apply list_omap_ext, Forall_Forall2_diag, Forall_forall; intros i _; by eapply diff_represents).
  split; [done|]. apply map_eq. intros n. rewrite delete_all_lookup. unfold synchronise. fold (unreadable skipped).
  set (rs := recorded policy open _). rewrite map_lookup_filter.
  assert (n ∉ map in_name files -> record_all snap rs !! n = snap !! n) as Hsame.
  { intros Hn. apply record_all_lookup. intros r (c & (i & Hi & Hc)%omap_names & Hin)%recorded_names Heq. apply snap_diff_ok in Hc as [_ Hc]. apply Hn.
    apply list_elem_of_fmap. exists i. split; [congruence|done]. }
  destruct (decide (n ∈ _)) as [Hdel|Hkeep].
  - apply list_elem_of_filter in Hdel as [[Hn Hu] _]. destruct (record_all snap rs !! n) as [x|] eqn:E; [|done]. cbn. rewrite option_guard_False; [done|].
    cbn [fst]. intros [?|?]; [done|congruence].
  - destruct (record_all snap rs !! n) as [x|] eqn:E; [|done]. cbn. rewrite option_guard_True; [done|]. cbn [fst].
    destruct (decide (n ∈ map in_name files)) as [?|Hn]; [by left|right]. destruct (underAny n (unreadable skipped)) eqn:Eu; [done|]. destruct Hkeep.
    apply list_elem_of_filter. split; [done|]. apply (sorted_name _ _ _ _ Hr). exists x. by rewrite <- Hsame.
Qed.

(** ** What a synchronisation mirrors *)

Lemma sameAttributes_refl a : sameAttributes a a = true.
Proof.
  unfold sameAttributes. rewrite !Z.eqb_refl, bytes_eqb_refl. cbn [andb]. assert (sameXattrs (Xattrs a) (Xattrs a) = true) as ->.
  { induction (Xattrs a) as [|x xs IH]; [done|]. cbn [sameXattrs]. by rewrite !bytes_eqb_refl, IH. }
  rewrite andb_true_r. unfold sameOwner. destruct (attr_Owner a); [by apply bool_decide_eq_true|done].
Qed.

Lemma NoDup_map_in {X Y} (g : X -> Y) (l : list X) x y : NoDup (map g l) -> x ∈ l -> y ∈ l -> g x = g y -> x = y.
Proof.
  induction l as [|z l IH]; intros Hnd Hx Hy He; [by apply elem_of_nil in Hx|]. apply NoDup_cons in Hnd as [Hn Hnd].
  apply elem_of_cons in Hx as [->|Hx], Hy as [->|Hy]; [done|destruct Hn; apply list_elem_of_fmap; by exists y|destruct Hn; apply list_elem_of_fmap; by exists x|by apply IH].
Qed.

(** The last record of a name wins; with distinct names, the only one. *)
Lemma record_all_in rs : NoDup (map (fun r => in_name (fst r)) rs) -> forall snap r, r ∈ rs ->
  record_all snap rs !! in_name (fst r) = Some (in_attrs (fst r), snd r).
Proof.
  induction rs as [|r0 rs IH]; intros Hnd snap r Hr; [by apply elem_of_nil in Hr|]. apply NoDup_cons in Hnd as [Hn Hnd].
  change (record_all snap (r0 :: rs)) with (record_all (<[in_name (fst r0) := (in_attrs (fst r0), snd r0)]> snap) rs).
  apply elem_of_cons in Hr as [->|Hr]; [|by apply IH]. rewrite record_all_lookup; [apply lookup_insert_eq|].
  intros r' Hr' Heq. apply Hn. rewrite <- Heq. apply list_elem_of_fmap. by exists r'.
Qed.

(** The content of an input that can be read whole, as its [Stat] announces it. *)
Definition current policy (stat : bytes -> result fileInfo) (open : bytes -> result hostFile) (content : inputFile -> bytes) (i : inputFile) : Prop :=
  if regular i then exists info, stat (in_path i) = Ok info /\ readable policy open i (Some info) = Some (content i) /\ u64 (fi_Size info) = len (content i)
  else content i = [].

Lemma recorded_current policy stat (open : bytes -> result hostFile) content snap ins : Forall (current policy stat open content) ins ->
  recorded policy open (omap (snap_diff stat snap) ins) =
    map (fun i => (i, content i)) (filter (fun i => is_Some (snap_diff stat snap i)) ins).
Proof.
  induction 1 as [|i ins Hi _ IH]; [done|]. cbn [omap list_omap]. rewrite filter_cons. destruct (snap_diff stat snap i) as [c|] eqn:Ec.
  - rewrite decide_True by done. cbn [recorded map]. rewrite IH. unfold current, snap_diff in *. destruct (regular i) eqn:Er; cbn [negb] in Ec.
    + destruct Hi as (info & Hs & Hr & Hl). rewrite Hs in Ec. assert (c = mk_changed i (Some info) None) as ->.
      { destruct (snap !! in_name i) as [[a x]|]; [destruct (_ && _)|]; congruence. }
      cbn [cf_err cf_in cf_info]. rewrite Er. cbn [negb]. by rewrite Hr.
    + assert (c = mk_changed i None None) as ->; [destruct (snap !! in_name i) as [[a x]|]; [destruct (sameAttributes _ _)|]; congruence|].
      cbn [cf_err cf_in cf_info]. rewrite Er, Hi. done.
  - rewrite decide_False by (intros [? ?]; done). exact IH.
Qed.


Section UpdateProofs.
Context `{C : Crypto} `{CL : !CryptoLaws C} `{ZS : Zstd} `{ZL : !ZstdLaws ZS} `{H : Sha256} `{HL : !Sha256Laws H} `{A : Age} `{SS : Ssh}.

(** ** Files that are put back *)

Lemma restore_tail_exact (f x : bytes) tail : 0 <= tail <= len f -> restore_tail (zdrop tail f) tail (len f) (write_at f tail x) = f.
Proof.
  intros Ht. assert (exists a b, f = a ++ b /\ len a = tail) as (a & b & -> & <-).
  { exists (ztake tail f), (zdrop tail f). split; [symmetry; apply ztake_zdrop|]. rewrite len_ztake; lia. }
  unfold restore_tail, truncateAndSync, truncate. rewrite zdrop_app, !write_at_app, app_assoc by done. by apply ztake_app.
Qed.

(** Overwriting from the end of [F] on, and cutting after what was written. *)
Lemma overwrite_tail (F rest X : bytes) : truncateAndSync (len F + len X) (write_at (F ++ rest) (len F) X) = F ++ X.
Proof. unfold truncateAndSync, truncate. rewrite write_at_app, app_assoc. apply ztake_app. by rewrite len_app. Qed.

Section Session.
Context (toLower : bytes -> bytes) (rnd : nat -> rng * rng) (rseal : rng) (now : Z) (Hnow : - 2 ^ 63 <= now < 2 ^ 63).
Context (cek block : bytes) (opts : CompressionOptions) (policy : compressionPolicy) (Hpolicy : newCompressionPolicy opts = Ok policy).
Context (U : bytes -> Prop)
  (Hcf : forall a b, U a -> U b -> ComputeHMAC (DeriveChunkIDKey cek) a = ComputeHMAC (DeriveChunkIDKey cek) b -> a = b).
Context (stat : bytes -> result fileInfo) (open : bytes -> result hostFile) (Hopen : contents_ok (DeriveGearTable cek) U open).

(** A session always ends, and says so when there is nothing to record. *)
Lemma writeSession_returns hl P B aw ia chain packs raws snap changed deleted allowEmpty :
  ready cek U hl P B aw ia chain packs raws snap -> Forall changed_ok changed ->
  exists res aw' err, writeSession toLower rnd now open aw ia changed deleted opts allowEmpty = Some (res, aw', err) /\
    (err = Some errEmptySession -> recorded policy open changed = [] /\ deleted = []) /\
    (err = None -> exists X, aw_out aw' = aw_out aw ++ X /\ aw_offset aw' + FooterSize = aw_offset aw + len X).
Proof.
  intros Hr Hok. pose proof Hr as [Hwr Hk Hik Ha Hhl _ _ _ _]. pose proof (len_nonneg (P ++ B)).
  destruct (newSessionWriter_facts now cek opts policy Hpolicy U _ _ _ _ _ _ _ _ _ Hr) as (sw0 & Hnew & _ & Hcfg & Haw & _).
  destruct (add_changed_spec toLower rnd cek (DeriveGearTable cek) policy hl P (P ++ B) ltac:(lia) ia (session_index0 now ia) U Hcf opts Hpolicy open Hopen changed Hok
    (mk_ires (u64 (ia_sessions ia + 1)) false 0 0 (len deleted) 0 0 0 0 false false false) sw0 Hcfg) as (res1 & sw1 & Hadd & Hle & _ & Hch & _ & _).
  unfold writeSession. rewrite Hnew, Hadd. destruct (negb allowEmpty && _ && _) eqn:Ee.
  { eexists _, _, _. split; [reflexivity|]. split; [|done]. intros _. b2p. cbn [ir_Changed] in Hch. split; [destruct (recorded _ _ _); [done|rewrite len_cons in Hch; len_lia]|].
    destruct deleted; [done|]. rewrite len_cons in *. len_lia. }
  set (sw2 := sw_closePack sw1). assert (sw_le sw0 sw2) as (Hex & _ & _) by (etrans; [exact Hle|apply sw_closePack_le]). rewrite Haw in Hex.
  unfold writeIndex. cbn [sw_with sw_index sw_seq sw_aw]. destruct (Marshal _) as [b|]; [|by eexists _, _, _]. cbn [or_fatal].
  destruct (rnd (sw_seq sw2)) as [r0 r]. destruct (sealPayloadEntry _ _ _ _ _ _ _) as [e|]; [|by eexists _, _, _]. cbn [sw_with sw_aw].
  destruct (WriteCheckpointFooter _ _) as [aw2|] eqn:Ew; [|by eexists _, _, _]. eexists _, _, _. split; [reflexivity|]. split; [done|]. intros _.
  assert (extends aw (WriteFileEntry e (sw_aw sw2))) as (X & Ho & Hf) by (etrans; [exact Hex|apply extends_file_entry]).
  revert Ew. unfold WriteCheckpointFooter. destruct (cs_MarshalBinary _) as [st|]; [|done]. destruct (MarshalCheckpoint _) as [cp|]; [|done]. intros [= <-].
  unfold WriteFooter. cbn [raw_write tee aw_out aw_offset]. rewrite Ho, Hf, <- !app_assoc. eexists. split; [reflexivity|].
  unfold cs_Sum. rewrite !len_app, len_ztake by (rewrite len_app, len_sha_sum, len_replicate; done). rewrite len_replicate, len_cons, len_nil. unfold FooterSize, ReservedSize. lia.
Qed.

(** A session appended to a file: it lands as a whole, or the file is as before. *)
Lemma appendSession_holds f snap sealed body chain li cp sg signature chunks files packs raws count changed deleted res :
  layout cek block U f snap sealed body chain li cp sg signature chunks files packs raws count ->
  Forall changed_ok changed -> Forall (fun c => Attributes_typed (in_attrs (cf_in c))) changed ->
  exists res' fin err f', appendSession toLower rnd rseal now open f (loaded cek block sealed body count li chain chunks files) changed deleted opts res (len f) =
      Some (res', fin, err, f') /\
    match fin with
    | None => f' = f /\ (err = None -> recorded policy open changed = [] /\ deleted = [])
    | Some (_, e) => err = None /\ e = len f' /\ (len f' < 2 ^ 62 -> exists sealed' body' chain' li' cp' chunks' files' packs' raws' count',
        layout cek block U f' (delete_all deleted (record_all snap (recorded policy open changed)))
          sealed' body' chain' li' cp' [] None chunks' files' packs' raws' count')
    end.
Proof.
  intros [] Hok Hty. set (F := header_bytes block sealed ++ body) in *. pose proof (len_nonneg F) as HF0.
  set (X := tail_bytes F cp ++ sg) in *. assert (len f = len F + len X) as Hlf by (by rewrite lo_file, len_app). pose proof (len_nonneg X) as HX0.
  assert (zdrop (len F) f = X) as Hdrop by (rewrite lo_file; by apply zdrop_app).
  unfold appendSession. cbn [loaded ia_tail ia_keys ia_hashState ia_header hi_recipientBlockLen]. fold F.
  rewrite read_at_ok by lia. rewrite ztake_all by (rewrite Hdrop; lia). cbn [default].
  pose proof lo_checkpoint as [Hdone Hcp]. destruct (wrote_resume (KeysV2 cek) F _ Hdone eq_refl) as (aw & Haw & Hwr). unfold id. rewrite Haw.
  assert (ready cek U (len (header_bytes block sealed)) F [] aw (loaded cek block sealed body count li chain chunks files) chain packs raws snap) as Hready.
  { constructor; rewrite ?app_nil_r; try done.
    - unfold ResumeArchiveWriter in Haw. destruct (ResumeArchiveChecksum _); [|done]. by injection Haw as <-.
    - split; [apply len_nonneg|]. unfold F. rewrite len_app. len_lia.
    - destruct lo_last as [si ->]. done. }
  destruct (writeSession_returns _ _ _ _ _ _ _ _ _ changed deleted false Hready Hok) as (sres & aw' & err & Hws & Hempty & Hend). rewrite Hws.
  assert (restore_tail (zdrop (len F) f) (len F) (len f) (write_at f (len F) (aw_out aw')) = f) as Hrest by (apply restore_tail_exact; lia).
  destruct err as [[|e]|]; [eexists _, _, _, _; (split; [reflexivity|]); split; [exact Hrest|by intros _; apply Hempty]|eexists _, _, _, _; (split; [reflexivity|]); by split|].
  destruct (Hend eq_refl) as (Y & HY & Hoff). destruct Hwr as (Ho & _ & Hof). change (len []) with 0 in Hof. rewrite Z.add_0_r in Hof. rewrite Ho in HY. cbn [app] in HY. rewrite HY.
  assert (truncateAndSync (aw_offset aw' + FooterSize) (write_at f (len F) Y) = F ++ Y) as ->.
  { rewrite Hoff, Hof, lo_file. apply overwrite_tail. }
  destruct (SealFileCount (KeysV2 cek) (ir_Session sres) rseal) as [[sealed'|er] r'] eqn:Es; [|unfold SealFileCount, HeaderKey in Es; by destruct (EncryptBlock _ _ _)].
  cbn [fst]. eexists _, _, _, _. split; [reflexivity|]. split; [done|]. pose proof (SealFileCount_len _ _ _ _ _ Es) as Hls.
  assert (F ++ Y = header_bytes block sealed ++ body ++ Y) as -> by (unfold F; by rewrite <- app_assoc). rewrite reseal by done.
  assert (len (header_bytes block sealed' ++ body ++ Y) = len F + len Y) as Hlen by (unfold F; rewrite !len_app, !header_len by done; lia). split; [lia|]. intros Hsize.
  assert (aw_offset aw' < 2 ^ 62) as Hoff62 by (assert (0 <= FooterSize) by done; lia).
  destruct (writeSession_refines toLower rnd now Hnow cek opts policy Hpolicy U Hcf open Hopen _ _ _ _ _ _ _ _ _ _ _ _ _ _ Hready Hok Hty Hws Hoff62)
    as (B' & si & off & cp' & chunks' & files' & packs' & raws' & Hout & _ & Hck & Harch & HU' & _ & Hses & _).
  assert (Y = B' ++ tail_bytes (F ++ B') cp') as HYe by congruence.
  apply SealFileCount_opens in Es as [_ Hcount]; [|pose proof (chain_length _ _ _ _ (ao_chain _ _ _ _ _ _ _ _ _ lo_archive) ltac:(apply len_nonneg)); fold F in H0; len_lia].
  assert (F ++ B' = header_bytes block sealed ++ body ++ B') as HFB by (unfold F; by rewrite <- app_assoc). rewrite HFB in *.
  exists sealed', (body ++ B'), (chain ++ [(si, off)]), off, cp', chunks', files', packs', raws', (ir_Session sres). constructor; try done.
  - rewrite app_nil_r, HYe, (reseal_tail block lo_block sealed sealed' lo_sealed Hls). by rewrite <- !app_assoc.
  - split; [exact Hcount|]. pose proof (len_nonneg chain). rewrite (len_app chain). change (len [(si, off)]) with 1. lia.
  - replace (len (header_bytes block sealed')) with (len (header_bytes block sealed)) by (by rewrite !header_len).
    by apply reseal_archive.
  - rewrite last_snoc. by eexists.
  - by apply (reseal_checkpoint block lo_block sealed sealed').
Qed.

(** ** Signing *)

Lemma layout_resign f snap sealed body chain li cp sg signature chunks files packs raws count sg' signature' f' :
  layout cek block U f snap sealed body chain li cp sg signature chunks files packs raws count -> signature_suffix sg' signature' ->
  f' = ((header_bytes block sealed ++ body) ++ tail_bytes (header_bytes block sealed ++ body) cp) ++ sg' -> len f' < 2 ^ 62 -> holds cek block U f' snap.
Proof.
  intros [] Hs -> Hl. exists sealed, body, chain, li, cp, sg', signature', chunks, files, packs, raws, count. constructor; try done. by rewrite <- app_assoc.
Qed.

Lemma signatureBlock_suffix checksum signer sg : signatureBlock checksum signer = IOk sg -> exists sig, signature_suffix sg (Some sig).
Proof.
  unfold signatureBlock. destruct (SignMessage signer checksum) as [sig|]; [|done]. cbn [or_fatal]. unfold AppendSignatureBlock.
  destruct (_ || _) eqn:E; [done|]. cbn [or_fatal app]. intros Hx. apply IOk_inj in Hx. exists sig. b2p. pose proof (len_nonneg sig). split; [lia|done].
Qed.

Lemma sign_file_holds f snap sealed body chain li cp sg signature chunks files packs raws count checksum signer res res' err f' :
  layout cek block U f snap sealed body chain li cp sg signature chunks files packs raws count ->
  sign_file f (len (header_bytes block sealed ++ body) + TailSize) checksum signer res = (res', err, f') -> len f' < 2 ^ 62 -> holds cek block U f' snap.
Proof.
  intros Hl. unfold sign_file, writeSignature. destruct (signatureBlock checksum signer) as [sg'|e] eqn:Es; [|intros [= <- <- <-] _; by eapply layout_holds].
  destruct (signatureBlock_suffix _ _ _ Es) as [sig Hsig]. intros E Hs. apply (f_equal snd) in E as Hf. cbn [snd] in Hf. eapply layout_resign; [exact Hl|exact Hsig| |exact Hs].
  rewrite <- Hf. destruct Hl. pose proof lo_checkpoint as [_ Hcp]. pose proof (MarshalCheckpoint_Ok _ _ Hcp) as (_ & Hcpl & _).
  set (F := header_bytes block sealed ++ body) in *. assert (len F + TailSize = len (F ++ tail_bytes F cp)) as -> by (by rewrite len_app, tail_bytes_len).
  rewrite app_assoc in lo_file. rewrite lo_file. apply overwrite_tail.
Qed.

Lemma sign_file_grows f checksum signer res res' err f' : sign_file f (len f) checksum signer res = (res', err, f') -> len f <= len f'.
Proof.
  unfold sign_file, writeSignature. destruct (signatureBlock checksum signer) as [sg|e]; intros E; apply (f_equal snd) in E; cbn [snd] in E; rewrite <- E; [|lia].
  pose proof (overwrite_tail f [] sg) as Ho. rewrite app_nil_r in Ho. unfold truncateAndSync in Ho. rewrite Ho, len_app. len_lia.
Qed.

Lemma finishUnchanged_holds f snap sealed body chain li cp sg signature chunks files packs raws count signer res res' err f' :
  layout cek block U f snap sealed body chain li cp sg signature chunks files packs raws count ->
  finishUnchanged f (loaded cek block sealed body count li chain chunks files) res signature None signer = (res', err, f') -> len f' < 2 ^ 62 -> holds cek block U f' snap.
Proof.
  intros Hl. assert (holds cek block U f snap) as Hf by (by eapply layout_holds). unfold finishUnchanged. cbn [loaded ia_tail].
  destruct signer as [signer|]; [|by intros [= <- <- <-] _]. destruct (read_at _ _ _) as [footer|]; [|by intros [= <- <- <-] _].
  destruct (match signature with Some _ => _ | None => _ end); [by intros [= <- <- <-] _|]. destruct (archiveChecksum _ _) as [sum|]; [|by intros [= <- <- <-] _].
  by apply (sign_file_holds f snap sealed body chain li cp sg signature chunks files packs raws count).
Qed.

(** ** Updating *)

Lemma snap_diff_Forall snap files (P : inputFile -> Prop) : Forall P files ->
  Forall changed_ok (omap (snap_diff stat snap) files) /\ Forall (fun c => P (cf_in c)) (omap (snap_diff stat snap) files).
Proof.
  intros Hf. split; apply Forall_forall; intros c (i & Hi & Hc)%omap_names; apply snap_diff_ok in Hc as [Hok Hin]; [done|].
  rewrite Hin. rewrite Forall_forall in Hf. by apply Hf.
Qed.

Definition outcome (snap snap' : snapshot) (err : option ArchiveError) (f' : bytes) : Prop :=
  holds cek block U f' snap' \/ err <> None /\ holds cek block U f' snap.

Lemma update_loaded_holds f snap sealed body chain li cp sg signature chunks files packs raws count ins skipped signer res :
  layout cek block U f snap sealed body chain li cp sg signature chunks files packs raws count -> Forall (fun i => Attributes_typed (in_attrs i)) ins ->
  exists res' err f', update_loaded toLower rnd rseal now stat open f (loaded cek block sealed body count li chain chunks files) ins skipped opts signer res
      signature None (len f) = Some (res', err, f') /\
    (len f' < 2 ^ 62 -> outcome snap (synchronise policy stat open snap ins skipped) err f').
Proof.
  intros Hl Hty. pose proof (ao_snap _ _ _ _ _ _ _ _ _ (lo_archive _ _ _ _ _ _ _ _ _ _ _ _ _ _ _ _ _ Hl)) as Hsn. unfold update_loaded.
  destruct (diffInputs stat _ ins skipped) as [[changed deleted] unchanged] eqn:Ed.
  destruct (diffInputs_synchronise policy stat open raws (loaded cek block sealed body count li chain chunks files) snap _ _ _ _ _ Hsn Ed) as [-> Hsync].
  set (changed := omap (snap_diff stat snap) ins) in *. rewrite <- Hsync. destruct (snap_diff_Forall snap ins _ Hty) as [Hok Hty'].
  destruct (_ && _) eqn:Ez.
  - b2p. assert (changed = [] /\ deleted = []) as [-> ->] by (split; [destruct changed|destruct deleted]; rewrite ?len_cons in *; try done; len_lia).
    match goal with |- context [finishUnchanged ?a ?b ?c ?d ?e ?g] => destruct (finishUnchanged a b c d e g) as [[res' err] f'] eqn:Ef end.
    exists res', err, f'. split; [done|]. intros Hs. left. by eapply finishUnchanged_holds.
  - match goal with |- context [appendSession _ _ _ _ _ _ _ _ _ _ ?r] => set (res0 := r) end.
    destruct (appendSession_holds _ _ _ _ _ _ _ _ _ _ _ _ _ _ changed deleted res0 Hl Hok Hty') as (res' & fin & err & f' & -> & Hx).
    destruct fin as [[sum e]|].
    + destruct Hx as (-> & -> & Hx). assert (len f' < 2 ^ 62 -> holds cek block U f' (delete_all deleted (record_all snap (recorded policy open changed)))) as Hh
        by (intros Hs; destruct (Hx Hs) as (? & ? & ? & ? & ? & ? & ? & ? & ? & ? & Hx'); by eapply layout_holds).
      destruct signer as [signer|]; [|destruct signature; (eexists _, _, _; (split; [reflexivity|]); intros Hs; left; by apply Hh)].
      destruct (sign_file f' (len f') sum signer res') as [[res2 err2] f2] eqn:Es. exists res2, err2, f2. split; [done|]. intros Hs. left.
      assert (len f' <= len f2) as Hle by (by apply sign_file_grows in Es). destruct (Hx ltac:(lia)) as (sealed' & body' & ? & ? & cp' & ? & ? & ? & ? & ? & Hx').
      eapply sign_file_holds; [exact Hx'| |exact Hs]. rewrite <- Es. f_equal.
      pose proof (lo_checkpoint _ _ _ _ _ _ _ _ _ _ _ _ _ _ _ _ _ Hx') as [_ Hcp]. pose proof (MarshalCheckpoint_Ok _ _ Hcp) as (_ & Hcpl & _).
      rewrite (lo_file _ _ _ _ _ _ _ _ _ _ _ _ _ _ _ _ _ Hx'), app_nil_r, (len_app _ (tail_bytes _ _)), tail_bytes_len; done.
    + destruct Hx as [-> Hx]. exists res', err, f. split; [done|]. intros _. apply layout_holds in Hl. destruct err as [err|]; [by right|left].
      destruct (Hx eq_refl) as [-> ->]. exact Hl.
Qed.

Lemma updateIncremental_holds u f snap ins skipped signer : holds cek block U f snap -> OpenRecipientBlock block u = Opened cek ->
  Forall (fun i => Attributes_typed (in_attrs i)) ins ->
  exists res err f', updateIncremental toLower rnd rseal now stat open u f ins skipped opts signer = Some (res, err, f') /\
    (len f' < 2 ^ 62 -> outcome snap (synchronise policy stat open snap ins skipped) err f').
Proof.
  intros (sealed & body & chain & li & cp & sg & signature & chunks & files & packs & raws & count & Hl) Hu Hty.
  destruct (load_holds cek block U u _ _ _ _ _ _ _ _ _ _ _ _ _ _ Hl Hu) as (Hh & Hs & Hld). unfold updateIncremental. rewrite Hh.
  change (hi_incremental _) with true. cbn [negb]. rewrite Hs, Hld. cbn [loaded ia_recovered ia_sessions]. by apply (update_loaded_holds f snap sealed body chain li cp sg signature chunks files packs raws count).
Qed.

(** ** Creating *)

Lemma header_done sealed : len block <= MaxRecipientBlockSize -> len sealed = FileCountSealedSize -> cs_done (cs_after (header_bytes block sealed)) = true.
Proof.
  intros Hb Hs. destruct (header_split block Hb sealed [] Hs) as (Hp & Hv & Hu & _ & Hl & Hf). rewrite app_nil_r in *. unfold cs_after, flush_head.
  rewrite (proj2 (Z.ltb_ge _ _)), Hv, Hu by done. rewrite (proj2 (Z.leb_le _ _) Hb). cbn [andb negb].
  rewrite (proj2 (Z.leb_gt _ _)), (proj2 (Z.ltb_lt _ _)), Hf by done. done.
Qed.

Lemma initial_changes_omap ins : initial_changes stat ins = omap (snap_diff stat ∅) ins.
Proof.
  induction ins as [|i ins IH]; [done|]. cbn [initial_changes map omap list_omap]. unfold snap_diff at 1. rewrite lookup_empty.
  destruct (negb (regular i)); [by f_equal|]. destruct (stat (in_path i)); by f_equal.
Qed.

Lemma initial_synchronise ins skipped : record_all ∅ (recorded policy open (initial_changes stat ins)) = synchronise policy stat open ∅ ins skipped.
Proof.
  rewrite initial_changes_omap.
  unfold synchronise. symmetry. apply map_filter_id. intros n x Hx. left. cbn [fst].
  destruct (decide (n ∈ map in_name ins)) as [?|Hn]; [done|]. rewrite record_all_lookup in Hx; [by rewrite lookup_empty in Hx|].
  intros r (c & (i & Hi & Hc)%omap_names & Hin)%recorded_names Heq. apply snap_diff_ok in Hc as [_ Hc]. apply Hn.
  apply list_elem_of_fmap. exists i. split; [congruence|done].
Qed.

Lemma createIncremental_holds r ins signer : len block <= MaxRecipientBlockSize -> Forall (fun i => Attributes_typed (in_attrs i)) ins ->
  exists res err out, createIncremental toLower rnd now stat open cek block r ins opts signer = Some (res, err, out) /\ (err = None -> out <> None) /\
    forall f', out = Some f' -> len f' < 2 ^ 62 -> holds cek block U f' (record_all ∅ (recorded policy open (initial_changes stat ins))).
Proof.
  intros Hb Hty. unfold createIncremental, WriteHeaderWithFlags. cbn [aw_keys NewArchiveWriter newArchiveWriter aw_recipients].
  destruct (SealFileCount _ _ r) as [[sealed|er] r1] eqn:Es; [|unfold SealFileCount, HeaderKey in Es; by destruct (EncryptBlock _ _ _)]. apply SealFileCount_opens in Es as [Hls Hcount]; [|done].
  cbv zeta. match goal with |- context [writeSession _ _ _ _ ?a] => set (aw := a) end.
  match goal with |- context [writeSession _ _ _ _ _ ?i] => set (ia := i) end.
  assert (wrote aw [] (header_bytes block sealed)) as Hwr by (apply (wrote_tee _ [] []), wrote_new).
  assert (ready cek U (len (header_bytes block sealed)) [] (header_bytes block sealed) aw ia [] ∅ [] ∅) as Hready.
  { constructor; try done; rewrite ?app_nil_l; [|by apply header_done]. constructor; try done.
    - intros ia' _ Hc Hfi. exists ia'. done.
    - constructor. }
  destruct (snap_diff_Forall ∅ ins _ Hty) as [Hok Hty']. rewrite <- initial_changes_omap in Hok, Hty'.
  destruct (writeSession_returns _ _ _ _ _ _ _ _ _ (initial_changes stat ins) [] true Hready Hok) as (sres & aw' & err & Hws & Hemp & Hend).
  rewrite Hws. destruct err as [[|e]|]; [|by eexists _, _, _|].
  { exfalso. revert Hws. unfold writeSession. destruct (newSessionWriter _ _ _ _); [|done]. destruct (add_changed _ _ _ _ _ _) as [[[? ?] [?|]]|]; try done. cbn [negb andb].
    destruct (writeIndex _ _) as [[? ?]|]; [|done]. by destruct (WriteCheckpointFooter _ _). }
  assert (aw_offset aw' + FooterSize < 2 ^ 62 -> forall sg signature, signature_suffix sg signature -> len (aw_out aw' ++ sg) < 2 ^ 62 ->
    holds cek block U (aw_out aw' ++ sg) (record_all ∅ (recorded policy open (initial_changes stat ins)))) as Hholds.
  { intros Hoff sg signature Hsg Hlen. assert (aw_offset aw' < 2 ^ 62) as Hoff62 by (assert (0 <= FooterSize) by done; lia).
    destruct (writeSession_refines toLower rnd now Hnow cek opts policy Hpolicy U Hcf open Hopen _ _ _ _ _ _ _ _ _ _ _ _ _ _ Hready Hok Hty' Hws Hoff62)
      as (B' & si & off & cp' & chunks' & files' & packs' & raws' & Hout & [body HB] & Hck & Harch & HU' & _ & _ & _). cbn [app] in HB. rewrite !app_nil_l in *. subst B'.
    exists sealed, body, [(si, off)], off, cp', sg, signature, chunks', files', packs', raws', 1. constructor; try done; [by rewrite Hout, <- app_assoc|by exists si]. }
  destruct (Hend eq_refl) as (Y & HY & Hoff). assert (aw_offset aw = len (aw_out aw)) as Haw by (destruct Hwr as (-> & _ & ->); change (len []) with 0; lia).
  assert (aw_offset aw' + FooterSize = len (aw_out aw')) as Hlen by (rewrite HY, len_app; lia). destruct signer as [signer|].
  - destruct (signatureBlock _ _) as [sg|e] eqn:Esg; [|by eexists _, _, _]. eexists _, _, _. split; [reflexivity|]. split; [done|]. intros f' [= <-] Hs.
    apply signatureBlock_suffix in Esg as [sig Hsig]. apply (Hholds ltac:(rewrite len_app in Hs; len_lia) sg (Some sig)); done.
  - eexists _, _, _. split; [reflexivity|]. split; [done|]. intros f' [= <-] Hs. rewrite <- (app_nil_r (aw_out aw')). apply (Hholds ltac:(lia) [] None); [done|].
    by rewrite app_nil_r.
Qed.

(** What a run leaves. *)
Lemma ArchiveIncremental_holds (existing : option bytes) (snap : snapshot) (u : Unlockers) (r : rng) (ins : list inputFile)
  (skipped : list skippedInput) (signer : option Signer)
  (Hstart : match existing with None => snap = ∅ | Some f => holds cek block U f snap end)
  (Hblock : len block <= MaxRecipientBlockSize) (Hu : OpenRecipientBlock block u = Opened cek)
  (Hty : Forall (fun i => Attributes_typed (in_attrs i)) ins) :
  exists res err out, ArchiveIncremental toLower rnd rseal now stat open ins skipped existing u cek block r opts signer = Some (res, err, out) /\
    (err = None -> out <> None) /\
    forall f', out = Some f' -> len f' < 2 ^ 62 ->
      holds cek block U f' (synchronise policy stat open snap ins skipped) \/ err <> None /\ holds cek block U f' snap.
Proof.
  unfold ArchiveIncremental. assert (forall (res : IncrementalResult) (e : ArchiveError), exists res' err out, Some (res, Some e, existing) = Some (res', err, out) /\ (err = None -> out <> None) /\
    forall f', out = Some f' -> len f' < 2 ^ 62 -> holds cek block U f' (synchronise policy stat open snap ins skipped) \/ err <> None /\ holds cek block U f' snap) as Herr.
  { intros res e. exists res, (Some e), existing. split; [done|]. split; [done|]. intros f' -> _. by right. }
  destruct (co_Solid opts); [apply Herr|]. destruct (existsb _ _); [apply Herr|]. destruct existing as [f|].
  - destruct (updateIncremental_holds u f snap ins skipped signer Hstart Hu Hty) as (res & err & f' & -> & Ho). exists res, err, (Some f'). split; [done|].
    split; [done|]. intros f2 [= <-]. exact Ho.
  - subst snap. destruct (createIncremental_holds r ins signer Hblock Hty) as (res & err & out & -> & Hne & Ho). exists res, err, out. split; [done|]. split; [done|].
    intros f' Hf' Hs. left. rewrite <- initial_synchronise. by apply Ho.
Qed.

End Session.

End UpdateProofs.

(** ** Examples *)

Definition sample_inc_text : bytes := str "incremental".
Definition sample_inc_file : inputFile := mk_input (str "/d/a.txt") (str "a.txt") (mk_attributes KindRegular 420 0 [] None []).
Definition sample_inc_stat (p : bytes) : result fileInfo := Ok (mk_info (str "a.txt") 420 0 11 None None).
Definition sample_inc_open (p : bytes) : result hostFile := Ok (mk_host (sample_inc_stat p) true sample_inc_text None None).
Definition sample_inc_policy : compressionPolicy := mk_policy CompressionNever false None None None.
Definition sample_inc_opts : CompressionOptions := mk_copts CompressionNever 3 false.

Lemma sample_inc_contents : @contents_ok (@DeriveGearTable toy_crypto sample_cek) (fun c => c = sample_inc_text) sample_inc_open.
Proof. intros p f [= <-]. split; [done|]. vm_compute. by repeat constructor. Qed.



Definition sample_inc_content (i : inputFile) : bytes := sample_inc_text.
Definition sample_inc_empty : snapshot := ∅.

