(* ===== verification/RestoreComplete.v ===== *)
(** * Restoring an intact archive gives the snapshot back

    On a file system in which no call fails, an archive that holds a snapshot is restored
    to it: every chunk a file needs is delivered, and every file is published. *)

From S2P Require Import Prelude Bytes Names Attributes Metadata IndexCodec Chunker Checkpoint Crypto Codec Frames.
From S2P Require Import Checksum Writer Signatures Recipients IOErrors Inputs SolidPlan Extractor ExtractorLemmas ExtractorProofs OutputTree OutputProofs.
From S2P Require Import RoundTrip Incremental IncrementalProofs Archiver Packs Sessions Updates SessionLemmas SessionWriter SessionProofs SessionRefine StoreFile UpdateProofs.
From S2P Require Import Restore RestoreFiles RestoreProofs RestoreSafety.
Open Scope go_scope.

(** ** Sorting *)

Lemma stable_insert_sorted {X} (key : X -> Z) x l : StronglySorted (fun a b => key a <= key b) l ->
  StronglySorted (fun a b => key a <= key b) (stable_insert (fun a b => key a <? key b) x l).
Proof.
  induction 1 as [|y l Hs IH Hf]; cbn [stable_insert]; [by repeat constructor|]. destruct (Z.ltb_spec (key x) (key y)) as [Hlt|Hge].
  - constructor; [by constructor|]. constructor; [lia|]. eapply Forall_impl; [exact Hf|]. cbn. lia.
  - constructor; [done|]. assert (stable_insert (fun a b => key a <? key b) x l ≡ₚ x :: l) as Hp.
    { clear. induction l as [|z l IH]; cbn [stable_insert]; [done|]. destruct (_ <? _); [done|]. rewrite IH. apply Permutation_swap. }
    rewrite Hp. by constructor.
Qed.

Lemma stable_sort_sorted {X} (key : X -> Z) l : StronglySorted (fun a b => key a <= key b) (stable_sort (fun a b => key a <? key b) l).
Proof.
  unfold stable_sort. assert (forall acc, StronglySorted (fun a b => key a <= key b) acc ->
    StronglySorted (fun a b => key a <= key b) (fold_left (fun acc x => stable_insert (fun a b => key a <? key b) x acc) l acc)) as Hf.
  { induction l as [|x l IH]; intros acc Ha; cbn [fold_left]; [done|]. by apply IH, stable_insert_sorted. }
  apply Hf. constructor.
Qed.

(** ** A file system in which no call on a file fails *)

Class Working (R : Type) `{RT : !Root R} `{FR : !FileRoot R} : Prop := {
  wk_open : forall p s c, content s p = Some c -> exists z, fst (perform (OpenFile p) s) = Ok z;
  wk_write : forall p d off s c, content s p = Some c -> exists z, fst (perform (WriteToAt p d off) s) = Ok z;
  wk_close : forall p s, exists z, fst (perform (CloseFile p) s) = Ok z;
  wk_rename : forall a b s c, content s a = Some c -> exists z, fst (perform (Rename a b) s) = Ok z
}.

Section Alive.
Context `{C : Crypto} `{ZS : Zstd} {R : Type} `{RT : !Root R} `{FR : !FileRoot R} `{WK : !Working R}.

Lemma act_works c (t : outputTree R) : (exists z, fst (perform c (ot_root t)) = Ok z) -> exists z t', act c t = (Ok z, t').
Proof. intros [z Hz]. destruct (act_root c t) as [_ Hr]. rewrite Hz in Hr. destruct (act c t) as [r t']. exists z, t'. cbn [fst] in Hr. by rewrite Hr. Qed.

(** No file has failed, and every temporary file is there. *)
Definition alive (x : restoring (R := R)) : Prop :=
  forall i rf, snd x !! i = Some rf -> rf_err rf = None /\ is_Some (tc (fst x) (rf_tmp rf)).

Lemma writeAtTemp_works tmp d off (t : outputTree R) : 0 <= off -> is_Some (tc t tmp) ->
  exists t', writeAtTemp tmp d off t = (true, t') /\ forall p, is_Some (tc t p) -> is_Some (tc t' p).
Proof.
  intros Ho [c Hc]. destruct (writeAtTemp tmp d off t) as [ok t'] eqn:E. destruct (writeAtTemp_tc _ _ _ _ _ _ E Ho) as [Hother Hthis]. assert (ok = true) as ->.
  { unfold writeAtTemp in E. destruct (act_works (OpenFile tmp) t) as (z1 & t1 & H1); [by eapply wk_open|]. rewrite H1 in E.
    destruct (act_works (WriteToAt tmp d off) t1) as (z2 & t2 & H2); [eapply wk_write; pose proof (act_quiet _ _ _ _ tmp H1 eq_refl) as Hq; unfold tc in *; by rewrite Hq|]. rewrite H2 in E.
    destruct (act_works (CloseFile tmp) t2) as (z3 & t3 & H3); [apply wk_close|]. rewrite H3 in E. by injection E as <- _. }
  exists t'. split; [done|]. intros p Hp. destruct (decide (p = tmp)) as [->|Hne]; [by rewrite (Hthis eq_refl c Hc)|]. by rewrite Hother.
Qed.

Lemma write_target_alive d x tg : 0 <= tg_offset tg -> alive x -> alive (write_target d x tg).
Proof.
  intros Ho Ha. unfold write_target. destruct (snd x !! tg_file tg) as [rf|] eqn:Erf; [|done]. destruct (Ha _ _ Erf) as [-> Hc].
  destruct (writeAtTemp_works (rf_tmp rf) d (tg_offset tg) (fst x) Ho Hc) as (t' & -> & Hk). intros i rf' Hi. cbn [fst snd] in *.
  destruct (decide (i = tg_file tg)) as [->|Hne].
  - rewrite list_lookup_insert_eq in Hi by (by apply lookup_lt_is_Some_1; eexists). injection Hi as <-. split; [done|]. cbn [rf_tmp]. by apply Hk.
  - rewrite list_lookup_insert_ne in Hi by done. destruct (Ha i rf' Hi) as [He Hc']. split; [done|]. by apply Hk.
Qed.

Lemma write_targets_alive d tgs : Forall (fun tg => 0 <= tg_offset tg) tgs -> forall x, alive x -> alive (fold_left (write_target d) tgs x).
Proof. induction 1 as [|tg tgs Ho _ IH]; intros x Ha; cbn [fold_left]; [done|]. by apply IH, write_target_alive. Qed.

Lemma publishRestore_works rf (t : outputTree R) : is_Some (tc t (rf_tmp rf)) -> exists t', publishRestore rf t = (None, t').
Proof.
  intros [c Hc]. unfold publishRestore. destruct (act_works (OpenFile (rf_tmp rf)) t) as (z1 & t1 & H1); [by eapply wk_open|]. rewrite H1.
  unfold tree_publish. set (t0 := applyAttributes _ _ _ _ t1). assert (tc t0 (rf_tmp rf) = Some c) as H0 by (unfold t0; rewrite applyAttributes_tc, (act_quiet _ _ _ _ _ H1 eq_refl); done).
  destruct (act_works (CloseFile (rf_tmp rf)) t0) as (z2 & t2 & H2); [apply wk_close|]. rewrite H2.
  destruct (act_works (Rename (rf_tmp rf) (rf_local rf)) t2) as (z3 & t3 & H3).
  { eapply wk_rename. pose proof (act_quiet _ _ _ _ (rf_tmp rf) H2 eq_refl) as Hq. unfold tc in *. by rewrite Hq. }
  rewrite H3. by eexists.
Qed.

(** Every file complete: every file is published. *)
Lemma publishRestores_works rs : distinct rs -> forall t : outputTree R,
  (forall i rf, rs !! i = Some rf -> rf_err rf = None /\ rf_pending rf = 0 /\ is_Some (tc t (rf_tmp rf)) /\ forall j rf', rs !! j = Some rf' -> rf_tmp rf <> rf_local rf') ->
  exists t', publishRestores rs t = (map (fun rf => mk_xr (fv_Name (rf_version rf)) (i64 (fv_Size (rf_version rf))) true None) rs, [], t').
Proof.
  induction rs as [|rf rs IH]; intros Hd t Hall; cbn [publishRestores map]; [by eexists|]. destruct (Hall 0%nat rf eq_refl) as (He & Hp & Hc & Hl). rewrite He, Hp.
  change (negb (0 =? 0)) with false. cbv iota. destruct (publishRestore_works rf t Hc) as [t1 H1]. rewrite H1. destruct (publishRestore_tc _ _ _ _ H1) as [Ho _].
  destruct (IH) with (t := t1) as [t2 H2].
  - intros i j a b Hi Hj Ha Hb Hab. assert (S i = S j)%nat as Hs; [|lia]. by apply (Hd (S i) (S j) a b).
  - intros i rf' Hi. destruct (Hall (S i) rf' Hi) as (He' & Hp' & Hc' & Hl'). split_and!; [done|done| |intros j rf2 Hj; by apply (Hl' (S j))].
    rewrite Ho; [done| |by apply (Hl' 0%nat)]. intros Heq. assert (S i = 0)%nat as Hs; [|lia]. by apply (Hd (S i) 0%nat rf' rf).
  - rewrite H2. by eexists.
Qed.
End Alive.

(** ** Intact packs *)

Lemma payload_size `{C : Crypto} `{ZS : Zstd} master ty pt e : holds_payload master ty pt e -> u64 (len pt) = len pt.
Proof.
  intros Hh. pose proof (hp_trailer _ _ _ _ Hh) as Ht. unfold trailer_result in Ht. destruct (DecryptBlock _ _) as [payload|]; [|done].
  destruct (_ && _); [apply IOk_inj in Ht; by injection Ht|]. destruct (_ && _); [|done]. apply IOk_inj in Ht. injection Ht as _ Ht.
  pose proof (le_u64_range (zdrop HMACSize payload)). apply u64_small. lia.
Qed.

Section Intact.
Context `{C : Crypto} `{CL : !CryptoLaws C} `{ZS : Zstd} `{ZL : !ZstdLaws ZS} {R : Type} `{RT : !Root R} `{FR : !FileRoot R} `{WK : !Working R}.
Context (master : bytes) (packs : gmap Z bytes) (chunks : list chunkLocation) (raws : list bytes) (Hstore : chunk_store master packs chunks raws).
Context (targets : gmap Z (list chunkTarget)) (versions : list FileVersion).
Context (Htargets : forall n, Forall (fun tg => 0 <= tg_offset tg) (default [] (targets !! n))).

(** Chunk [n] is [d]. *)
Definition exactly (n : Z) (d : bytes) : Prop := raws !! Z.to_nat n = Some d.

(** The files are being assembled, none has failed, and [D] is what has been delivered. *)
Record restoring_ok (x : restoring (R := R)) (D : gmap Z bytes) : Prop := {
  ro_assembling : assembling chunks (DeriveChunkIDKey master) targets versions x D;
  ro_alive : alive x;
  ro_exact : forall n d, D !! n = Some d -> exactly n d
}.

Abbreviation dl ia := (fun (n : Z) (stored : bytes) (y : restoring (R := R)) =>
    match ia_chunks ia !! Z.to_nat n with
    | Some loc => deliverChunk loc (DeriveChunkIDKey master) stored (default [] (targets !! n)) y
    | None => IErr (recoverable ErrCodeIntegrityFail "unknown chunk")
    end).

Lemma deliver_intact ia n c pt x D : ia_chunks ia = chunks -> chunks !! Z.to_nat n = Some c -> packs !! cl_packOffset c = Some pt ->
  restoring_ok x D -> D !! n = None -> exists x' d, dl ia n (ztake (cl_stored c) (zdrop (cl_offset c) pt)) x = IOk x' /\ restoring_ok x' (<[n := d]> D).
Proof.
  intros Hia Hc Hp [Ha Hal He] Hn. cbv beta. rewrite Hia, Hc. destruct (Forall2_lookup_l _ _ _ _ _ (st_held _ _ _ _ Hstore) Hc) as (raw & Hraw & pt' & Hp' & []).
  rewrite Hp in Hp'. injection Hp' as <-. unfold decode_chunk in kh_decode.
  assert (deliverChunk c (DeriveChunkIDKey master) (ztake (cl_stored c) (zdrop (cl_offset c) pt)) (default [] (targets !! n)) x =
    IOk (fold_left (write_target raw) (default [] (targets !! n)) x)) as Hd.
  { unfold deliverChunk. rewrite kh_decode, kh_raw, kh_id, Z.eqb_refl, bytes_eqb_refl. done. }
  destruct (deliver_assembling chunks (DeriveChunkIDKey master) targets versions Htargets x D n c _ _ Ha Hn Hc Hd) as (d & Hdec & Has).
  rewrite kh_decode in Hdec. injection Hdec as <-. exists (fold_left (write_target raw) (default [] (targets !! n)) x), raw. split; [exact Hd|].
  constructor; [done|by apply write_targets_alive|]. intros m d. destruct (decide (n = m)) as [<-|Hne]; [rewrite lookup_insert_eq; by intros [= <-]|].
  rewrite lookup_insert_ne by done. apply He.
Qed.

Lemma deliver_all_intact ia p pt : ia_chunks ia = chunks -> packs !! p = Some pt -> forall cs x D,
  Forall (located chunks) cs -> Forall (fun y => cl_packOffset (snd y) = p) cs -> NoDup (map fst cs) -> Forall (fun y => D !! fst y = None) cs -> restoring_ok x D ->
  exists x' D', deliver_all (dl ia) cs pt x = (None, x') /\ restoring_ok x' D' /\ forall n, is_Some (D' !! n) <-> is_Some (D !! n) \/ n ∈ map fst cs.
Proof.
  intros Hia Hp. induction cs as [|[n c] cs IH]; intros x D Hl Hpo Hnd Hnew Hx; cbn [deliver_all].
  - exists x, D. split; [done|]. split; [done|]. intros n. cbn [map]. split; [by left|]. intros [?|?%elem_of_nil]; done.
  - apply Forall_cons in Hl as [Hlc Hl], Hpo as [Hpc Hpo], Hnew as [Hn Hnew]. apply NoDup_cons in Hnd as [Hni Hnd]. unfold located in Hlc. cbn [fst snd] in *. subst p.
    destruct (deliver_intact ia n c pt x D Hia Hlc Hp Hx Hn) as (x1 & d & Hdl & Hx1). rewrite Hdl.
    destruct (IH x1 (<[n := d]> D)) as (x' & D' & H1 & H2 & H3); [done..| |done|].
    + apply Forall_forall. intros y Hy. rewrite lookup_insert_ne; [rewrite Forall_forall in Hnew; by apply Hnew|]. intros ->. apply Hni, list_elem_of_fmap. by exists y.
    + exists x', D'. split; [done|]. split; [done|]. intros m. rewrite H3. cbn [map]. rewrite elem_of_cons. cbn [fst]. destruct (decide (n = m)) as [<-|Hne].
      * rewrite lookup_insert_eq. split; [intros _; right; by left|]. intros _. left. by eexists.
      * rewrite lookup_insert_ne by done. split; [intros [?|?]; [by left|right; by right]|]. intros [?|[?|?]]; [by left|congruence|by right].
Qed.

(** Opening the blocks of a pack feeds their plaintexts to the router. *)
Lemma pack_sink_feeds (deliver : Z -> bytes -> restoring (R := R) -> iores restoring) key bs pts : Forall2 (opens_to key CodecNone) bs pts -> forall r acc, router_ok r ->
  exists r', feeds deliver pts r = Some r' /\ Extractor.deliver (pack_sink deliver) key CodecNone (r, acc) bs = ((r', acc ++ concat pts), None).
Proof.
  induction 1 as [|b pt bs pts [Ho _] _ IH]; intros r acc Hr; cbn [feeds Extractor.deliver concat]; [exists r; by rewrite app_nil_r|].
  destruct (feed_total deliver pt r Hr) as (r1 & Hf & Hr1). rewrite Ho, Hf.
  assert (pack_sink deliver (r, acc) pt = Some (r1, acc ++ pt)) as -> by (unfold pack_sink; cbn [fst snd]; by rewrite Hf).
  destruct (IH r1 (acc ++ pt) Hr1) as (r' & H1 & H2). exists r'. split; [done|]. by rewrite H2, <- app_assoc.
Qed.

Lemma restorePack_intact F ra size ia p pt needed x D : ia_chunks ia = chunks -> ia_keys ia = KeysV2 master -> packs_in master F packs -> F `prefix_of` ra -> len F <= size ->
  packs !! p = Some pt -> Forall (located chunks) needed -> Forall (fun y => cl_packOffset (snd y) = p) needed -> NoDup (map fst needed) ->
  ordered 0 (len pt) needed -> Forall (fun y => D !! fst y = None) needed -> restoring_ok x D ->
  exists x' D', restorePack ra size ia (DeriveChunkIDKey master) p needed targets x = (None, x') /\ restoring_ok x' D' /\
    forall n, is_Some (D' !! n) <-> is_Some (D !! n) \/ n ∈ map fst needed.
Proof.
  intros Hia Hk Hpk Hpre Hsz Hp Hl Hpo Hnd Hord Hnew Hx. destruct (deliver_all_intact ia p pt Hia Hp needed x D Hl Hpo Hnd Hnew Hx) as (x' & D' & H1 & H2 & H3).
  exists x', D'. split; [|done]. destruct (Hpk p pt Hp) as (e & He & Hh). pose proof (payload_size _ _ _ _ Hh) as Hu. destruct Hh as [Hw Hty [pm Ho] (pts & Hc & Hf) Ht]. pose proof Hw as [].
  unfold restorePack. destruct (entryReaderAt_entry F p e ra size He Hpre Hsz) as [rest ->]. rewrite Hty. change (bz (zb EntryTypePack) =? EntryTypePack) with true. cbn [negb].
  rewrite Hk, readEntryHead_framed, Ho by done. unfold encode_body. rewrite <- !app_assoc. rewrite takes_skipPadding by done. cbn [eh_fileKey].
  unfold streamDataBlocks. rewrite read_blocks_framed; [|done|apply encode_blocks_length].
  destruct (pack_sink_feeds (dl ia) (FileKey (KeysV2 master) (EntrySalt e)) _ _ Hf (newRouter needed x) []) as (r' & Hr & ->); [apply router_ok_at; by eapply ordered_stored|].
  rewrite feeds_concat, Hc in Hr by (apply router_ok_at; by eapply ordered_stored).
  destruct (feed_all (dl ia) pt needed 0 x ltac:(len_lia) Hord) as (r2 & Hr2 & Hst & Hneed). change (feed (dl ia) (zdrop 0 pt) (newRouter needed x) = Some r2) in Hr2.
  rewrite zdrop_0, Hr in Hr2. injection Hr2 as <-. rewrite H1 in Hst. injection Hst as Her Hs. rewrite Her, Hs. rewrite Hneed by done. cbn [app bool_decide negb].
  rewrite readTrailer_framed by done. change (ks_Version (KeysV2 master)) with Version2. rewrite Ht. cbn [ti_hmac ti_size]. rewrite Hc, bytes_eqb_refl, Hu, Z.eqb_refl. done.
Qed.

(** Sorted by offset, the chunks of a pack follow each other. *)
Lemma ordered_needed p pt cs : packs !! p = Some pt -> StronglySorted (fun a b => cl_offset (snd a) <= cl_offset (snd b)) cs -> Forall (located chunks) cs ->
  Forall (fun y => cl_packOffset (snd y) = p /\ 0 <= fst y) cs -> NoDup (map fst cs) -> forall pos, Forall (fun y => pos <= cl_offset (snd y)) cs -> ordered pos (len pt) cs.
Proof.
  intros Hp. induction 1 as [|[n c] cs Hs IH Hle]; intros Hl Hpo Hnd pos Hpos; cbn [ordered]; [done|].
  apply Forall_cons in Hl as [Hlc Hl], Hpo as [[Hpc Hn] Hpo], Hpos as [Hposc Hpos]. apply NoDup_cons in Hnd as [Hni Hnd]. unfold located in Hlc. cbn [fst snd] in *.
  assert (forall y d, chunks !! Z.to_nat y = Some d -> cl_packOffset d = p -> 1 <= cl_stored d /\ cl_offset d + cl_stored d <= len pt) as Hh.
  { intros y d Hd Hdp. destruct (Forall2_lookup_l _ _ _ _ _ (st_held _ _ _ _ Hstore) Hd) as (raw & _ & pt' & Hp' & []). rewrite Hdp, Hp in Hp'. by injection Hp' as <-. }
  destruct (Hh n c Hlc Hpc) as [Hst Hend]. split; [done|]. split; [done|]. split; [done|]. apply IH; [done|done|done|].
  apply Forall_forall. intros [m d] Hin. cbn [snd]. rewrite Forall_forall in Hl, Hpo, Hle. specialize (Hl _ Hin). specialize (Hle _ Hin). destruct (Hpo _ Hin) as [Hdp Hm].
  unfold located in Hl. cbn [fst snd] in *. destruct (Hh m d Hl Hdp) as [Hst' _]. assert (n <> m) as Hne by (intros ->; apply Hni, list_elem_of_fmap; by exists (m, d)).
  destruct (decide (n < m)) as [Hlt|Hge].
  - apply (st_order _ _ _ _ Hstore (Z.to_nat n) (Z.to_nat m)); [lia|done|done|congruence].
  - pose proof (st_order _ _ _ _ Hstore (Z.to_nat m) (Z.to_nat n) d c ltac:(lia) Hl Hlc ltac:(congruence)). lia.
Qed.

Lemma restore_packs_intact F ra size ia locs : ia_chunks ia = chunks -> ia_keys ia = KeysV2 master -> packs_in master F packs -> F `prefix_of` ra -> len F <= size ->
  Forall (located chunks) locs -> Forall (fun y => 0 <= fst y) locs -> NoDup (map fst locs) -> forall ps x D, NoDup ps -> Forall (fun p => is_Some (packs !! p)) ps ->
  restoring_ok x D -> Forall (fun y => cl_packOffset (snd y) ∈ ps -> D !! fst y = None) locs ->
  exists D', restoring_ok (restore_packs ra size ia (DeriveChunkIDKey master) locs ps targets x) D' /\
    forall n, is_Some (D !! n) \/ (exists y, y ∈ locs /\ fst y = n /\ cl_packOffset (snd y) ∈ ps) -> is_Some (D' !! n).
Proof.
  intros Hia Hk Hpk Hpre Hsz Hloc Hpos Hnd. induction ps as [|p ps IH]; intros x D Hnp Hsome Hx Hnew; cbn [restore_packs].
  { exists D. split; [done|]. intros n [?|(y & _ & _ & []%elem_of_nil)]. done. }
  apply NoDup_cons in Hnp as [Hp Hnp]. apply Forall_cons in Hsome as [[pt Hpt] Hsome]. set (needed := stable_sort _ (List.filter _ locs)).
  assert (forall y, y ∈ needed <-> y ∈ locs /\ cl_packOffset (snd y) = p) as Hin.
  { intros y. unfold needed. rewrite stable_sort_elem, list_elem_of_In, filter_In, <- list_elem_of_In. by rewrite Z.eqb_eq. }
  assert (NoDup (map fst needed)) as Hndn.
  { unfold needed. rewrite stable_sort_perm. by apply NoDup_filter_map. }
  assert (forall P : Z * chunkLocation -> Prop, Forall P locs -> Forall P needed) as Hsub by (intros P HP; apply Forall_forall; intros y [Hy _]%Hin; rewrite Forall_forall in HP; by apply HP).
  assert (Forall (fun y => cl_packOffset (snd y) = p) needed) as Hpn by (apply Forall_forall; by intros y [_ ?]%Hin).
  assert (Forall (fun y => D !! fst y = None) needed) as Hnn.
  { apply Forall_forall. intros y [Hy Hyp]%Hin. rewrite Forall_forall in Hnew. apply Hnew; [done|]. rewrite Hyp. by left. }
  destruct (restorePack_intact F ra size ia p pt needed x D) as (x' & D' & H1 & H2 & H3); [done..|by apply Hsub|done|done| |done|done|].
  { apply (ordered_needed p pt needed Hpt); [apply (stable_sort_sorted (fun y => cl_offset (snd y)))|by apply Hsub| |done|].
    - apply Forall_forall. intros y [Hy Hyp]%Hin. split; [done|]. rewrite Forall_forall in Hpos. by apply Hpos.
    - apply Forall_forall. intros [n c] [Hy _]%Hin. rewrite Forall_forall in Hloc. specialize (Hloc _ Hy). unfold located in Hloc. cbn [fst snd] in *.
      destruct (Forall2_lookup_l _ _ _ _ _ (st_held _ _ _ _ Hstore) Hloc) as (raw & _ & pt' & _ & []). done. }
  rewrite H1. destruct (IH x' D' Hnp Hsome H2) as (D2 & H4 & H5).
  - apply Forall_forall. intros y Hy Hyp. destruct (D' !! fst y) as [d|] eqn:Ed; [|done]. exfalso. destruct (proj1 (H3 (fst y)) ltac:(by rewrite Ed)) as [[d0 Hd0]|Hn].
    + rewrite Forall_forall in Hnew. rewrite (Hnew y Hy) in Hd0; [done|]. by right.
    + apply list_elem_of_fmap in Hn as (z & Hz & [Hzl Hzp]%Hin). assert (y = z) as ->; [|rewrite Hzp in Hyp; done].
      rewrite Forall_forall in Hloc. pose proof (Hloc y Hy) as Hl1. pose proof (Hloc z Hzl) as Hl2. unfold located in *. rewrite Hz in Hl1. destruct y, z; cbn in *. congruence.
  - exists D2. split; [done|]. intros n Hn. apply H5. destruct Hn as [Hn|(y & Hy & Hyn & Hyp)]; [left; apply H3; by left|].
    apply elem_of_cons in Hyp as [Hyp|Hyp]; [|right; by exists y]. left. apply H3. right. apply list_elem_of_fmap. exists y. split; [done|]. by apply Hin.
Qed.
End Intact.

(** ** The snapshot comes back *)

Lemma missing_none (D : gmap Z bytes) ns : Forall (fun n => is_Some (D !! n)) ns -> missing D ns = 0.
Proof.
  unfold missing. induction 1 as [|n ns [d Hd] _ IH]; [done|]. rewrite filter_cons, decide_False by congruence. exact IH.
Qed.

Lemma positions_some raw n ns : forall o, n ∈ ns -> positions raw n ns o <> [].
Proof.
  induction ns as [|m ns IH]; intros o Hin; [by apply elem_of_nil in Hin|]. cbn [positions]. destruct (Z.eqb_spec m n) as [->|Hne]; [done|].
  apply elem_of_cons in Hin as [->|Hin]; [done|]. by apply IH.
Qed.

Lemma made_exactly raws v c data : content_of raws (fv_Chunks v) c -> made_of (exactly raws) v data -> data = c.
Proof.
  intros (parts & Hf & ->) (parts' & Hf' & ->). f_equal. revert parts' Hf'. induction Hf as [|n p ns ps [_ Hp] _ IH]; intros parts' Hf'; inversion Hf'; subst; [done|].
  f_equal; [|by apply IH]. unfold exactly in *. congruence.
Qed.

Section Snapshot.
Context `{C : Crypto} `{CL : !CryptoLaws C} `{ZS : Zstd} `{ZL : !ZstdLaws ZS} `{H : Sha256} `{HL : !Sha256Laws H} `{A : Age}.
Context {R : Type} `{RT : !Root R} `{FR : !FileRoot R} `{WK : !Working R}.

(** The packs restored, every file is complete. *)
Lemma complete_files master chunks targets raws versions (x : restoring (R := R)) D (locs : list (Z * chunkLocation)) :
  restoring_ok master chunks raws targets versions x D ->
  map fst locs = map fst (map_to_list targets) -> (forall n, n ∈ map fst locs -> is_Some (D !! n)) ->
  forall i rf, snd x !! i = Some rf -> rf_err rf = None /\ rf_pending rf = 0 /\ is_Some (tc (fst x) (rf_tmp rf)) /\ is_temp (rf_tmp rf) /\ rf_local rf = fv_Name (rf_version rf).
Proof.
  intros [[_ _ _ _ Hf] Hal _] Hlocs HD i rf Hi. destruct (Hal i rf Hi) as [He Hc]. destruct (Hf i rf Hi He) as [F1 F2 F3 F4 _]. split_and!; try done.
  rewrite F4. apply missing_none, Forall_forall. intros n Hn. apply HD. rewrite Hlocs. specialize (F3 n). destruct (targets !! n) as [tgs|] eqn:Et.
  - apply list_elem_of_fmap. exists (n, tgs). split; [done|]. by apply elem_of_map_to_list.
  - exfalso. cbn in F3. by apply (positions_some (raw_len chunks) n _ 0 Hn).
Qed.

(** Regular files of a snapshot are among the restored ones. *)
Lemma snapshot_file raws ia snap name a c : represents raws (ia_files ia) snap -> snap !! name = Some (a, c) -> Kind a = KindRegular ->
  exists v, v ∈ List.filter is_regular (sortedFiles ia) /\ fv_Name v = name /\ content_of raws (fv_Chunks v) c /\ fv_Size v = len c /\ len c < 2 ^ 63.
Proof.
  intros Hr Hs Hk. specialize (Hr name). rewrite Hs in Hr. destruct (ia_files ia !! name) as [v|] eqn:Ev; [|done]. destruct Hr as (Hn & Ha & Hc & Hz & Hl). cbn [fst snd] in *.
  exists v. split_and!; try done. apply list_elem_of_In, filter_In. split; [apply list_elem_of_In, sortedFiles_elem; by exists name|]. unfold is_regular. rewrite Ha, Hk. done.
Qed.

(** Preparing and restoring packs leaves every regular file complete. *)
Lemma packs_restored master F ra size ia packs raws (t : outputTree R) rs specials targets t1 :
  ia_keys ia = KeysV2 master -> packs_in master F packs -> F `prefix_of` ra -> len F <= size -> chunk_store master packs (ia_chunks ia) raws ->
  files_whole (ia_chunks ia) (ia_files ia) -> Forall sized (ia_chunks ia) ->
  prepareRestore ia t = Some (IOk (rs, specials, targets), t1) -> Forall (fun rf => rf_err rf = None) rs ->
  specials = special_files (sortedFiles ia) /\ exists locs, locate (ia_chunks ia) (map fst (map_to_list targets)) = Some locs /\
  let (t2, rs2) := restore_packs ra size ia (DeriveChunkIDKey master) locs (stable_sort Z.ltb (remove_dups (map (fun y => cl_packOffset (snd y)) locs))) targets (t1, rs) in
  exists D, (forall n d, D !! n = Some d -> exactly raws n d) /\ distinct rs2 /\ map rf_version rs2 = List.filter is_regular (sortedFiles ia) /\
    forall i rf, rs2 !! i = Some rf -> rf_err rf = None /\ rf_pending rf = 0 /\ is_Some (tc t2 (rf_tmp rf)) /\ file_ok (ia_chunks ia) targets t2 D i rf.
Proof.
  intros Hk Hpk Hpre Hsz Hst Hw Hs Hprep Herr. destruct (prepareRestore_spec ia t (DeriveChunkIDKey master) Hw Hs) as (r0 & t0 & Hp & Hr). rewrite Hprep in Hp. injection Hp as <- <-.
  destruct (Hr rs specials targets eq_refl) as (Hpr & Hver & -> & locs & Hloc & Hkeys & Hnd & Hlo & _). split; [done|]. exists locs. split; [done|]. set (ps := stable_sort _ _) in *.
  assert (forall rf, rf ∈ rs -> rf_version rf ∈ List.filter is_regular (sortedFiles ia)) as Hin by (intros rf Hrf; rewrite <- Hver; apply list_elem_of_fmap; by exists rf).
  assert (restoring_ok master (ia_chunks ia) raws targets (map rf_version rs) (t1, rs) ∅) as H0.
  { constructor; [apply Hpr| |intros n d Hd; by rewrite lookup_empty in Hd]. intros i rf Hi. cbn [fst snd] in *. rewrite Forall_lookup in Herr. pose proof (Herr i rf Hi) as He.
    split; [done|]. destruct (as_files _ _ _ _ _ _ (pr_ok _ _ _ _ _ Hpr) i rf Hi He) as [_ _ _ _ (c & Hc & _)]. by exists c. }
  destruct (restore_packs_intact master packs (ia_chunks ia) raws Hst targets (map rf_version rs) (pr_nonneg _ _ _ _ _ Hpr) F ra size ia locs eq_refl Hk Hpk Hpre Hsz Hlo) with (ps := ps) (x := (t1, rs)) (D := ∅ : gmap Z bytes)
    as (D & HD & Hall); [|done| | |done| |].
  { apply Forall_forall. intros y Hy. assert (is_Some (targets !! fst y)) as Hsome.
    { assert (fst y ∈ map fst (map_to_list targets)) as Hy' by (rewrite <- Hkeys; apply list_elem_of_fmap; by exists y). apply list_elem_of_fmap in Hy' as ([n tgs] & Heq & Hm%elem_of_map_to_list). rewrite Heq. by exists tgs. }
    destruct (pr_keys _ _ _ _ _ Hpr _ Hsome) as (_ & rf & Hrf & Hn). specialize (Hin rf Hrf). apply list_elem_of_In, filter_In in Hin as [Hin _]. apply list_elem_of_In, sortedFiles_elem in Hin as [name Hname].
    destruct (Hw name _ Hname) as (_ & _ & Hrange & _). rewrite Forall_forall in Hrange. by apply Hrange. }
  { unfold ps. rewrite stable_sort_perm. apply NoDup_remove_dups. }
  { apply Forall_forall. intros p Hp. unfold ps in Hp. apply stable_sort_elem, elem_of_remove_dups, list_elem_of_fmap in Hp as ([n c] & -> & Hy). rewrite Forall_forall in Hlo. specialize (Hlo _ Hy). unfold located in Hlo.
    cbn [fst snd] in *. destruct (Forall2_lookup_l _ _ _ _ _ (st_held _ _ _ _ Hst) Hlo) as (raw & _ & pt & Hpt & _). by exists pt. }
  { apply Forall_forall. intros y _ _. apply lookup_empty. }
  pose proof (complete_files master (ia_chunks ia) targets raws _ _ D locs HD Hkeys) as Hdone.
  destruct (restore_packs ra size ia (DeriveChunkIDKey master) locs ps targets (t1, rs)) as [t2 rs2]. exists D. destruct HD as [[_ Hvs Hd _ Hf] _ Hex]. cbn [fst snd] in *.
  split; [done|]. split; [done|]. split; [congruence|]. intros i rf Hi. destruct (Hdone) with (i := i) (rf := rf) as (H1 & H2 & H3 & _); [|done|].
  { intros n (y & -> & Hy)%list_elem_of_fmap. apply Hall. right. exists y. split_and!; try done. unfold ps. apply stable_sort_elem, elem_of_remove_dups, list_elem_of_fmap. by exists y. }
  split_and!; try done. by apply Hf.
Qed.

Lemma extract_intact master F ra size ia packs raws snap (t : outputTree R) rs specials targets t1 :
  ia_keys ia = KeysV2 master -> packs_in master F packs -> F `prefix_of` ra -> len F <= size -> chunk_store master packs (ia_chunks ia) raws ->
  represents raws (ia_files ia) snap -> files_whole (ia_chunks ia) (ia_files ia) -> Forall sized (ia_chunks ia) ->
  (forall f, f ∈ sortedFiles ia -> ~ is_temp (fv_Name f)) ->
  prepareRestore ia t = Some (IOk (rs, specials, targets), t1) -> Forall (fun rf => rf_err rf = None) rs ->
  exists results t', extractIncremental ra size ia t = Some (IOk results, t') /\
    forall name a c, snap !! name = Some (a, c) -> Kind a = KindRegular -> mk_xr name (len c) true None ∈ results /\ tc t' name = Some c.
Proof.
  intros Hk Hpk Hpre Hsz Hst Hrep Hw Hs Hnt Hprep Herr. unfold extractIncremental. rewrite Hprep.
  destruct (packs_restored master F ra size ia packs raws t rs specials targets t1 Hk Hpk Hpre Hsz Hst Hw Hs Hprep Herr) as (-> & locs & Hloc & Hpacks). rewrite Hloc, Hk. cbn [ChunkIDKey].
  destruct (restore_packs _ _ _ _ _ _ _ _) as [t2 rs2]. destruct Hpacks as (D & Hex & Hd & Hvs & Hdone).
  assert (forall rf, rf ∈ rs2 -> rf_version rf ∈ sortedFiles ia) as Hin.
  { intros rf Hrf. assert (rf_version rf ∈ List.filter is_regular (sortedFiles ia)) as Hx by (rewrite <- Hvs; apply list_elem_of_fmap; by exists rf).
    apply list_elem_of_In, filter_In in Hx as [Hx _]. by apply list_elem_of_In. }
  destruct (publishRestores_works rs2 Hd t2) as [t3 Hpub].
  { intros i rf Hi. destruct (Hdone i rf Hi) as (He & Hp0 & Hc & Hfo). split_and!; try done. intros j rf' Hj Heq. destruct (Hdone j rf' Hj) as (_ & _ & _ & Hfo').
    apply (Hnt (rf_version rf')); [apply Hin; by eapply list_elem_of_lookup_2|]. rewrite <- (fo_local _ _ _ _ _ _ Hfo'), <- Heq. apply Hfo. }
  rewrite Hpub. destruct (restoreSpecial (special_files (sortedFiles ia)) t3) as [res' t4] eqn:Esp. eexists _, _. split; [done|].
  assert (map (fun rf => fv_Name (rf_version rf)) rs2 = map fv_Name (List.filter is_regular (sortedFiles ia))) as Hnm by (rewrite <- Hvs, map_map; done).
  set (res := map _ rs2) in Hpub |- *. destruct (publishRestores_spec (ia_chunks ia) targets (exactly raws) D Hex rs2 0 rs2 t2 res [] t3 Hd) as (_ & Hres & _); [..|exact Hpub|].
  { rewrite Hnm. by apply NoDup_filter_map, (sortedFiles_names ia (ia_chunks ia)). }
  { done. }
  { apply Forall_forall. intros rf Hrf. split; [by apply Hnt, Hin|]. apply list_elem_of_lookup in Hrf as [i Hi]. destruct (Hdone i rf Hi) as (_ & _ & _ & Hfo). right. apply Hfo. }
  { intros i rf Hi _. by apply Hdone. }
  intros name a c Hsn Hkd. destruct (snapshot_file raws ia snap name a c Hrep Hsn Hkd) as (v & Hv & <- & Hc & Hz & Hl).
  assert (exists i rf, rs2 !! i = Some rf /\ rf_version rf = v) as (i & rf & Hi & <-).
  { rewrite <- Hvs in Hv. apply list_elem_of_fmap in Hv as (rf & -> & [i Hi]%list_elem_of_lookup). by exists i, rf. }
  destruct (Forall2_lookup_l _ _ _ _ _ Hres Hi) as (r0 & Hr0 & _ & Hpo). unfold res in *. rewrite list_lookup_fmap, Hi in Hr0. injection Hr0 as <-. destruct (Hpo eq_refl) as (data & Hdt & Hmade). split.
  - apply elem_of_app. left. apply list_elem_of_fmap. exists rf. split; [|by eapply list_elem_of_lookup_2]. rewrite Hz. pose proof (len_nonneg c). by rewrite i64_small by lia.
  - cbn [remove_temps fold_left]. rewrite <- (made_exactly raws _ c data Hc Hmade), <- Hdt. pose proof (restoreSpecial_tc (special_files (sortedFiles ia)) (fv_Name (rf_version rf))) as Hsp.
    specialize (Hsp (special_not_regular ia _ Hw Hv) t3). by rewrite Esp in Hsp.
Qed.
End Snapshot.
