(* ===== verification/RestoreClaims.v ===== *)
(** * What restoring guarantees

    The two properties of a restore, from the bytes of an archive on: nothing unverified is
    published, whatever the archive holds and whichever calls fail; and an intact archive
    gives its snapshot back. *)

From S2P Require Import Prelude Bytes Names Attributes Metadata IndexCodec Chunker Checkpoint Crypto Codec Frames.
From S2P Require Import Checksum Writer Signatures Recipients IOErrors Inputs SolidPlan Extractor ExtractorLemmas ExtractorProofs OutputTree OutputProofs.
From S2P Require Import RoundTrip Incremental IncrementalProofs Archiver Packs Sessions Updates SessionLemmas SessionWriter SessionProofs SessionRefine StoreFile UpdateProofs.
From S2P Require Import Restore RestoreFiles RestoreProofs RestoreSafety RestoreComplete.
Open Scope go_scope.

Section Claims.
Context `{C : Crypto} `{ZS : Zstd} {R : Type} `{RT : !Root R} `{FR : !FileRoot R}.

End Claims.

Section Snapshot.
Context `{C : Crypto} `{CL : !CryptoLaws C} `{ZS : Zstd} `{ZL : !ZstdLaws ZS} `{H : Sha256} `{HL : !Sha256Laws H} `{A : Age}.
Context {R : Type} `{RT : !Root R} `{FR : !FileRoot R} `{WK : !Working R}.

Lemma layout_bounds cek block U f snap sealed body chain li cp sg signature chunks files packs raws count :
  layout cek block U f snap sealed body chain li cp sg signature chunks files packs raws count ->
  0 <= hi_end (mk_hinfo HeaderFlagIncremental count (len block)) < 2 ^ 63 /\ 0 <= len (header_bytes block sealed ++ body) + TailSize <= len f /\ len f < 2 ^ 63 /\
  header_bytes block sealed ++ body `prefix_of` f.
Proof.
  intros []. set (F := header_bytes block sealed ++ body) in *. destruct lo_checkpoint as [_ Hcp]. pose proof (MarshalCheckpoint_Ok _ _ Hcp) as (_ & Hcpl & _).
  assert (len f = len F + TailSize + len sg) as Hlf by (rewrite lo_file; rewrite !len_app, tail_bytes_len by done; unfold F; rewrite len_app; lia).
  pose proof (len_nonneg F). pose proof (len_nonneg sg). pose proof (len_nonneg block). unfold MaxRecipientBlockSize in lo_block. assert (0 <= TailSize) by done. split_and!; try lia.
  - unfold hi_end. cbn [hi_recipientBlockLen]. unfold FileCountOffset, FileCountSealedSize, ReservedSize, NonceSize, GCMTagSize. change (len Magic) with 4. lia.
  - unfold hi_end. cbn [hi_recipientBlockLen]. unfold FileCountOffset, FileCountSealedSize, ReservedSize, NonceSize, GCMTagSize. change (len Magic) with 4. lia.
  - rewrite lo_file. by eexists.
Qed.

(** C5. Backing up and restoring are inverse: the file an incremental run leaves, which
    holds a snapshot, opens with its credentials and loads; and on a file system in which
    no call fails, once every file has its temporary file, restoring reports every regular
    file of the snapshot as restored and gives it exactly the content of the snapshot. *)
Theorem restore_returns_snapshot (cek block : bytes) (U : bytes -> Prop) (f : bytes) (snap : snapshot) (u : Unlockers) (t : outputTree R)
  (Hf : holds cek block U f snap) (Hu : OpenRecipientBlock block u = Opened cek) (Hn : forall name, is_Some (snap !! name) -> ~ is_temp name) :
  exists header size signature ia,
    fst (readHeader u f) = IOk (KeysV2 cek, header) /\ splitSignature f (len f) = IOk (size, signature) /\
    loadIncremental f size (KeysV2 cek) header = Returns (IOk ia) /\
    forall rs specials targets t1, prepareRestore ia t = Some (IOk (rs, specials, targets), t1) -> Forall (fun rf => rf_err rf = None) rs ->
      exists results t', extractIncremental f size ia t = Some (IOk results, t') /\
        forall name a c, snap !! name = Some (a, c) -> Kind a = KindRegular -> mk_xr name (len c) true None ∈ results /\ tc t' name = Some c.
Proof.
  destruct Hf as (sealed & body & chain & li & cp & sg & signature & chunks & files & packs & raws & count & Hlay).
  destruct (load_holds cek block U u f snap _ _ _ _ _ _ _ _ _ _ _ _ Hlay Hu) as (H1 & H2 & H3). eexists _, _, _, _. split; [exact H1|]. split; [exact H2|]. split; [exact H3|].
  intros rs specials targets t1 Hprep Herr. destruct (layout_bounds cek block U f snap _ _ _ _ _ _ _ _ _ _ _ _ Hlay) as (Hh & Hsz & Hlf & Hpre).
  set (F := header_bytes block sealed ++ body) in *. pose proof (loadIncremental_spec f (len F + TailSize) (KeysV2 cek) _ Hh Hsz Hlf) as Hspec. rewrite H3 in Hspec. destruct Hspec as (Hw & _ & _ & Hss).
  assert (0 <= TailSize) by done. destruct Hlay, lo_archive. apply (extract_intact cek F f _ _ packs raws snap t rs specials targets t1); try done; [lia|].
  intros v [name Hv]%sortedFiles_elem. pose proof (ao_snap name) as Hr. cbn [loaded ia_files] in Hv. rewrite Hv in Hr. destruct (snap !! name) as [x|] eqn:Ex; [|done]. destruct Hr as [-> _]. apply Hn. by rewrite Ex.
Qed.
End Snapshot.

(** ** A file system in memory *)

Abbreviation memory := (gmap bytes bytes).

#[export] Instance memory_Root : Root memory := fun c m =>
  match c with
  | CreateExcl p => match m !! p with Some _ => (Ok 1, m) | None => (Ok 0, <[p := []]> m) end
  | OpenFile p => match m !! p with Some _ => (Ok 0, m) | None => (errorf ErrOther "not found", m) end
  | WriteTo p d => match m !! p with Some c => (Ok 0, <[p := c ++ d]> m) | None => (errorf ErrOther "not found", m) end
  | WriteToAt p d off => match m !! p with Some c => (Ok 0, <[p := patch c off d]> m) | None => (errorf ErrOther "not found", m) end
  | Rename a b => match m !! a with Some c => (Ok 0, <[b := c]> (delete a m)) | None => (errorf ErrOther "not found", m) end
  | Remove p => (Ok 0, delete p m)
  | Link a b => match m !! a, m !! b with Some c, None => (Ok 0, <[b := c]> m) | _, _ => (errorf ErrOther "link", m) end
  | _ => (Ok 0, m)
  end.

#[export] Instance memory_FileRoot : FileRoot memory.
Proof.
  refine {| content := fun (m : memory) p => m !! p |}.
  - intros call m q Hq. destruct call; cbn in *; rewrite ?not_elem_of_cons in Hq; unfold perform, memory_Root; repeat case_match; cbn [snd];
      repeat first [rewrite lookup_insert_ne by (intuition congruence) | rewrite lookup_delete_ne by (intuition congruence)]; done.
  - intros p m z. unfold perform, memory_Root. destruct (m !! p) eqn:E; cbn; [by intros [= <-]|]. intros _ _. by rewrite lookup_insert_eq.
  - intros p m c Hp. unfold perform, memory_Root. by rewrite Hp.
  - intros p d off m z c _ _ Hp. unfold perform, memory_Root. rewrite Hp. cbn. by rewrite lookup_insert_eq.
  - intros a b m z. unfold perform, memory_Root. destruct (m !! a) eqn:E; [|done]. cbn. intros _. by rewrite lookup_insert_eq.
Defined.

#[export] Instance memory_Working : Working memory.
Proof. split; intros; cbn in *; unfold perform, memory_Root; repeat match goal with E : _ !! _ = Some _ |- _ => rewrite E; clear E end; by eexists. Qed.

(** The same, with calls that fail as a script says. *)
Definition faulty (R : Type) : Type := R * list bool.

#[export] Instance faulty_Root {R} `{!Root R} : Root (faulty R) := fun c s =>
  match snd s with
  | true :: fs => (errorf ErrOther "failed", (fst s, fs))
  | _ => let '(r, s') := perform c (fst s) in (r, (s', drop 1 (snd s)))
  end.

Lemma faulty_cases {R} `{RT : !Root R} c (s : faulty R) :
  (exists e, fst (perform c s) = Err e) /\ fst (snd (perform c s)) = fst s \/
  fst (perform c s) = fst (perform c (fst s)) /\ fst (snd (perform c s)) = snd (perform c (fst s)).
Proof.
  unfold perform, faulty_Root, perform. destruct s as [s [|[|] fs]]; cbn [fst snd]; [right|left; by split; [eexists|]|right]; by destruct (RT c s).
Qed.

#[export] Instance faulty_FileRoot {R} `{RT : !Root R} `{FR : !FileRoot R} : FileRoot (faulty R).
Proof.
  refine {| content := fun (s : faulty R) p => content (fst s) p |}.
  - intros c s p Hp. destruct (faulty_cases c s) as [[_ ->]|[_ ->]]; [done|by apply fr_other].
  - intros p s z. destruct (faulty_cases (CreateExcl p) s) as [[[e ->] _]|[-> ->]]; [done|apply fr_create].
  - intros p s c Hc. destruct (faulty_cases (CreateExcl p) s) as [[_ ->]|[_ ->]]; [done|by apply fr_excl].
  - intros p d off s z c Ho. destruct (faulty_cases (WriteToAt p d off) s) as [[[e ->] _]|[-> ->]]; [done|by apply fr_writeAt].
  - intros a b s z. destruct (faulty_cases (Rename a b) s) as [[[e ->] _]|[-> ->]]; [done|apply fr_rename].
Defined.

(** ** A backup of one file *)

Definition sample_snap : snapshot := {[ str "a.txt" := (mk_attributes KindRegular 420 0 [] None [], sample_inc_text) ]}.
Definition sample_out : outputTree memory := newOutputTree ∅ false toy_rng.
Definition sample_backup := @createIncremental toy_crypto toy_zstd toy_sha toy_ssh (fun b => b) (fun _ => (toy_rng, toy_rng)) 0 sample_inc_stat sample_inc_open
  sample_cek sample_block toy_rng [sample_inc_file] sample_inc_opts None.
Abbreviation sample_holds f := (@holds toy_crypto toy_zstd toy_sha sample_cek sample_block (fun c => c = sample_inc_text) f sample_snap).

Lemma sample_backup_holds : exists res err out, sample_backup = Some (res, err, out) /\ (err = None -> out <> None) /\ forall f', out = Some f' -> len f' < 2 ^ 62 -> sample_holds f'.
Proof.
  assert (record_all ∅ (recorded sample_inc_policy sample_inc_open (initial_changes sample_inc_stat [sample_inc_file])) = sample_snap) as <- by reflexivity.
  refine (@createIncremental_holds toy_crypto toy_laws toy_zstd toy_zstd_laws toy_sha toy_sha_laws toy_ssh (fun b => b) (fun _ => (toy_rng, toy_rng)) 0 _
    sample_cek sample_block sample_inc_opts sample_inc_policy eq_refl (fun c => c = sample_inc_text) _ sample_inc_stat sample_inc_open sample_inc_contents toy_rng [sample_inc_file] None _ _).
  - lia.
  - by intros a b -> ->.
  - vm_compute. discriminate.
  - constructor; [|constructor]. unfold Attributes_typed. cbn. split_and!; try done; lia.
Qed.

Lemma sample_name name : is_Some (sample_snap !! name) -> name = str "a.txt".
Proof. intros [x Hx]. unfold sample_snap in Hx. by apply lookup_singleton_Some in Hx as [<- _]. Qed.

Lemma sample_not_temp : ~ is_temp (str "a.txt").
Proof.
  intros (parent & suffix & Hp). unfold path_Join in Hp. destruct (bytes_eqb parent dot); [discriminate Hp|]. assert (slash ∈ str "a.txt") as Hs by (rewrite Hp; apply elem_of_app; right; by left).
  vm_compute in Hs. repeat (apply elem_of_cons in Hs as [Hs|Hs]; [discriminate Hs|]). by apply elem_of_nil in Hs.
Qed.

(** The backup loads, and its only file gets a temporary file. *)
Lemma sample_loads f' : sample_holds f' -> exists header size signature ia,
  fst (@readHeader toy_crypto toy_age sample_unlockers f') = IOk (KeysV2 sample_cek, header) /\ splitSignature f' (len f') = IOk (size, signature) /\
  @loadIncremental toy_crypto toy_zstd f' size (KeysV2 sample_cek) header = Returns (IOk ia) /\ 0 <= hi_end header < 2 ^ 63 /\ 0 <= size <= len f' /\ len f' < 2 ^ 63 /\
  exists v, sortedFiles ia = [v] /\ fv_Name v = str "a.txt" /\ is_regular v = true /\ Forall (fun n => 0 <= n < len (ia_chunks ia)) (fv_Chunks v).
Proof.
  intros (sealed & body & chain & li & cp & sg & signature & chunks & files & packs & raws & count & Hlay).
  destruct (@load_holds toy_crypto toy_zstd toy_sha toy_sha_laws toy_age sample_cek sample_block _ sample_unlockers f' _ _ _ _ _ _ _ _ _ _ _ _ _ Hlay eq_refl) as (H1 & H2 & H3).
  pose proof Hlay as Hb. apply (@layout_bounds toy_crypto toy_zstd toy_sha toy_sha_laws) in Hb as (Hh & Hsz & Hlf & _).
  pose proof (@loadIncremental_spec toy_crypto toy_zstd _ _ (KeysV2 sample_cek) _ Hh Hsz Hlf) as Hspec. rewrite H3 in Hspec. destruct Hspec as (Hw & _).
  eexists _, _, _, _. split; [exact H1|]. split; [exact H2|]. split; [exact H3|]. split; [done|]. split; [done|]. split; [done|]. destruct Hlay, lo_archive.
  pose proof (ao_snap (str "a.txt")) as Ha. unfold sample_snap in Ha at 1. rewrite lookup_singleton_eq in Ha. destruct (files !! str "a.txt") as [v|] eqn:Ev; [|done]. destruct Ha as (Hn & Hat & _).
  exists v. split; [|split; [done|split; [unfold is_regular; by rewrite Hat|by apply (Hw (str "a.txt") v Ev)]]]. unfold sortedFiles. cbn [loaded ia_files].
  assert (files = {[ str "a.txt" := v ]}) as ->; [|by rewrite map_to_list_singleton]. apply map_eq. intros name. specialize (ao_snap name). destruct (decide (name = str "a.txt")) as [->|Hne]; [by rewrite lookup_singleton_eq|].
  rewrite lookup_singleton_ne by done. destruct (files !! name); [|done]. unfold sample_snap in ao_snap. by rewrite lookup_singleton_ne in ao_snap by done.
Qed.

(** The prepared restore of an archive of one file named [a.txt]. *)
Lemma sample_prepared ia v : sortedFiles ia = [v] -> fv_Name v = str "a.txt" -> is_regular v = true -> Forall (fun n => 0 <= n < len (ia_chunks ia)) (fv_Chunks v) ->
  exists rs specials targets t1, prepareRestore ia sample_out = Some (IOk (rs, specials, targets), t1) /\ Forall (fun rf => rf_err rf = None) rs.
Proof.
  intros Hf Hn Hr Hc. unfold prepareRestore. rewrite Hf. cbn [List.filter]. rewrite Hr. cbn [prepare_files]. rewrite Hn.
  assert (match createTemp (str "a.txt") sample_out with (IOk (tmp, _), t1) => match act (CloseFile tmp) t1 with (Ok _, _) => true | _ => false end | _ => false end = true) as Ht by (vm_compute; reflexivity).
  destruct (createTemp _ sample_out) as [[[tmp local]|e] t1]; [|discriminate Ht]. destruct (act (CloseFile tmp) t1) as [[z|e] t2]; [|discriminate Ht]. clear Ht.
  destruct (add_targets_some (ia_chunks ia) 0 _ Hc 0 ∅) as [targets Ht]. cbn [length]. rewrite Ht. eexists _, _, _, _. split; [done|]. by repeat constructor.
Qed.


Lemma restore_returns_snapshot_witness : exists res err out, sample_backup = Some (res, err, out) /\ forall f', out = Some f' -> len f' < 2 ^ 62 ->
  exists size ia results t', @extractIncremental toy_crypto toy_zstd memory _ f' size ia sample_out = Some (IOk results, t') /\
    mk_xr (str "a.txt") 11 true None ∈ results /\ tc t' (str "a.txt") = Some sample_inc_text.
Proof.
  destruct sample_backup_holds as (res & err & out & Hb & _ & Hh). exists res, err, out. split; [exact Hb|]. intros f' Ho Hlen.
  destruct (sample_loads f' (Hh f' Ho Hlen)) as (header & size & sg & ia & H1 & H2 & Hl & _ & _ & _ & v & Hv & Hn & Hr & Hc).
  destruct (@restore_returns_snapshot toy_crypto toy_zstd toy_sha toy_sha_laws toy_age memory _ _ _ sample_cek sample_block _ f' sample_snap sample_unlockers sample_out
    (Hh f' Ho Hlen) eq_refl) as (header' & size' & sg' & ia' & H1' & H2' & Hl' & Hx).
  - intros name ->%sample_name. exact sample_not_temp.
  - assert (header' = header) as -> by congruence. assert (size' = size) as -> by congruence. assert (ia' = ia) as -> by congruence.
    destruct (sample_prepared ia v Hv Hn Hr Hc) as (rs & specials & targets & t1 & Hp & He). destruct (Hx rs specials targets t1 Hp He) as (results & t' & He' & Hall).
    exists size, ia, results, t'. split; [exact He'|]. apply (Hall (str "a.txt") (mk_attributes KindRegular 420 0 [] None []) sample_inc_text); reflexivity.
Defined.
