(* ===== verification/ArchiverProofs.v ===== *)
(** * What the archivers write is what the extractor restores

    [ConcurrentArchiver] and [StreamingArchiver] on any input files, against the extractor:
    every run that returns without a fatal error has written an archive that extracts to
    exactly the files that could be read, the solid group members, and the links and
    directories, in order. *)

From S2P Require Import Prelude Bytes Names Attributes Metadata IndexCodec Directory Solid Crypto Codec Frames.
From S2P Require Import Checksum Writer Recipients IOErrors Inputs SolidPlan Extractor ExtractorLemmas ExtractorProofs.
From S2P Require Import RoundTrip Incremental Listing Archiver ListingLemmas.
Open Scope go_scope.

(** ** What each job should publish *)

Section Expected.
Context (policy : compressionPolicy) (open : bytes -> result hostFile).

(** The bytes archived for a file, unless reading it failed recoverably: the mapped or
    buffered content when streamed, the whole content otherwise. *)
Definition file_data (inline : bool) (i : inputFile) : option (bytes * Z) :=
  match open (in_path i) with
  | Err _ => None
  | Ok f =>
      match hf_stat f with
      | Err _ => None
      | Ok info =>
          let perm := Z.land (fi_Mode info) 511 in
          if inline then
            match readProbe f (fi_Size info) (cp_mode policy) with
            | Err _ => None
            | Ok _ => Some (match tryMmap f (fi_Size info) with Some d => d | None => hf_content f end, perm)
            end
          else match hf_readErr f with Some _ => None | None => Some (hf_content f, perm) end
      end
  end.

Definition file_pubs (inline : bool) (i : inputFile) : list published :=
  match file_data inline i with
  | Some (data, perm) => [PubFile (in_name i) data (Some (in_attrs i)) perm]
  | None => []
  end.

Definition group_pubs (members : list inputFile) : list published :=
  map (fun m => PubFile (sm_Name m) (sm_Data m) (Some (sm_Attributes m)) 420) (packed (open_member open) [] members).

Definition job_pubs (j : fileJob) : list published :=
  match j with JFile i inline => file_pubs inline i | JGroup members => group_pubs members end.

Definition special_pubs (special : list inputFile) : list published :=
  map (fun i => PubSpecial (in_name i) (in_attrs i)) special.

Definition result_of (p : published) : ExtractionResult :=
  match p with
  | PubFile name data _ _ => mk_xr name (len data) true None
  | PubSpecial name _ => mk_xr name 0 true None
  end.
End Expected.

(** What the walker guarantees of every input, and the file system of every file. *)
Definition input_ok (i : inputFile) : Prop :=
  ValidEntryName (in_name i) = true /\ Attributes_typed (in_attrs i) /\
  (Kind (in_attrs i) = KindHardlink -> ValidEntryName (LinkTarget (in_attrs i)) = true).

Definition host_ok (open : bytes -> result hostFile) : Prop :=
  forall p f, open p = Ok f -> len (hf_content f) < 2 ^ 63 /\ forall d, hf_mmap f = Some d -> len d < 2 ^ 63.

Section Archivers.
Context `{C : Crypto} `{CL : !CryptoLaws C} `{ZS : Zstd} `{ZL : !ZstdLaws ZS} `{SH : Sha256} `{SL : !Sha256Laws SH} `{AG : Age}.
Context (toLower : bytes -> bytes) (opts : CompressionOptions) (policy : compressionPolicy)
  (Hpol : newCompressionPolicy opts = Ok policy) (open : bytes -> result hostFile) (Hopen : host_ok open).

(** ** One file *)

Definition mkfb (codec : Z) (k : bytes) : FrameBuilder := default (mk_fb k None) (builder_for policy codec k).

Lemma codec_builder name probe codec key fb : codecFor toLower policy name probe = Some codec ->
  builder_for policy codec key = Some fb ->
  fb = mkfb codec key /\ forall k, fb_key (mkfb codec k) = k /\ fb_ok (mkfb codec k) /\ fb_Codec (mkfb codec k) = codec.
Proof.
  intros Hc Hb. split; [unfold mkfb; by rewrite Hb|]. intros k.
  destruct (codecFor_defined toLower opts policy name probe Hpol) as (c & Hc' & Hor & Hz).
  rewrite Hc in Hc'. injection Hc' as <-. unfold mkfb, builder_for, newFrameBuilder. destruct Hor as [-> | ->].
  - change (CodecNone =? CodecZstd) with false. cbn. done.
  - rewrite Z.eqb_refl. destruct (Hz eq_refl) as (bc & -> & Hw). cbn. rewrite Hw. done.
Qed.

(** [addFileStreaming] writes a whole streamed entry, or nothing, or fails fatally. *)
Lemma addFileStreaming_ok i r0 r aw sum aw' : addFileStreaming toLower policy open i r0 r aw = Some (IOk sum, aw') ->
  exists e data perm mapped codec mtime size, file_data policy open true i = Some (data, perm) /\
    streamed_entry (aw_keys aw) (mkfb codec) mapped codec perm mtime size i data r0 r = IOk e /\
    (forall k, fb_key (mkfb codec k) = k /\ fb_ok (mkfb codec k) /\ fb_Codec (mkfb codec k) = codec) /\
    aw' = WriteFileEntry e aw /\ sum = mk_sum (BucketizeSize size) codec (len data).
Proof.
  unfold addFileStreaming, file_data, streamed_entry. destruct (open (in_path i)) as [f|]; [|done].
  destruct (hf_stat f) as [info|]; [|done]. destruct (draw SaltSize r0) as [salt r01].
  destruct (readProbe f (fi_Size info) (cp_mode policy)) as [probe|]; [|done].
  destruct (codecFor toLower policy (in_name i) probe) as [codec|] eqn:Ec; [|done].
  destruct (builder_for policy codec _) as [fb|] eqn:Eb; [|done].
  destruct (codec_builder _ _ _ _ _ Ec Eb) as [-> Hfb].
  destruct (FrameHeader r) as [fh r1] eqn:Ef. destruct (encryptFilename _ _ r01) as [en r02] eqn:En.
  destruct (Seal _ _ r02) as [[mb|] r03] eqn:Em; [|done]. destruct (InterBlockPadding r1) as [ip r2] eqn:Ei.
  set (src := match tryMmap f (fi_Size info) with Some data => (true, data, None) | None => (false, hf_content f, hf_readErr f) end).
  assert (snd (fst src) = match tryMmap f (fi_Size info) with Some d => d | None => hf_content f end) as Hd
    by (unfold src; by destruct (tryMmap f (fi_Size info))).
  destruct src as [[mapped data] readErr]. cbn [fst snd] in Hd. rewrite <- Hd.
  destruct (stream_blocks mapped _ data r2) as [bs r3] eqn:Es. destruct readErr; [done|].
  destruct (BuildTrailer _ _ _ r3) as [tr r4] eqn:Et. intros [= <- <-].
  eexists _, data, _, mapped, codec, (fi_ModTime info), (fi_Size info). split; [done|].
  rewrite Em. cbn [or_fatal]. rewrite Es, Et. split; [reflexivity|]. split; [done|]. split; [|done].
  symmetry. apply (streamed_is_whole (mk_entry EntryTypeFile salt fh mb ip bs tr)).
Qed.

Lemma addFileStreaming_recoverable i r0 r aw e aw' :
  addFileStreaming toLower policy open i r0 r aw = Some (IErr e, aw') -> IsFatal e = false ->
  aw' = aw /\ file_data policy open true i = None.
Proof.
  unfold addFileStreaming, file_data. destruct (open (in_path i)) as [f|]; [|by intros [= <- <-]].
  destruct (hf_stat f) as [info|]; [|by intros [= <- <-]]. destruct (draw SaltSize r0) as [salt r01].
  destruct (readProbe f (fi_Size info) (cp_mode policy)) as [probe|]; [|by intros [= <- <-]].
  destruct (codecFor _ _ _ _) as [codec|]; [|done]. destruct (builder_for _ _ _) as [fb|]; [|done].
  destruct (FrameHeader r) as [fh r1]. destruct (encryptFilename _ _ r01) as [en r02].
  destruct (Seal _ _ r02) as [[mb|] r03]; [|by intros [= <- <-]]. destruct (InterBlockPadding r1) as [ip r2].
  destruct (match tryMmap f (fi_Size info) with Some data => _ | None => _ end) as [[mapped data] readErr].
  destruct (stream_blocks mapped fb data r2) as [bs r3]. destruct readErr; [by intros [= <- <-]|].
  by destruct (BuildTrailer _ _ _ r3).
Qed.

(** A builder without compressor encrypts with [EncryptionManager.EncryptStream], which is
    the same loop. *)
Lemma encrypt_loop_chunks fb : fb_compressor fb = None -> forall fuel data r,
  encrypt_loop fuel BlockVariance (fb_key fb) data r = chunk_loop fuel fb data r.
Proof.
  intros Hn. induction fuel as [|fuel IH]; intros data r; cbn [encrypt_loop chunk_loop]; [done|].
  unfold NextChunkSize, EncryptChunk, encodeInto. rewrite Hn. destruct (next_size BlockVariance r) as [size r1].
  destruct (0 <? len (ztake size data)).
  - destruct (EncryptBlock _ _ r1) as [b r2]. destruct (_ <? _); [done|]. by rewrite IH.
  - destruct (_ <? _); [done|]. by rewrite IH.
Qed.

Lemma fb_EncryptStream_eq fb data r : fb_EncryptStream fb data r = stream_blocks false fb data r.
Proof.
  unfold fb_EncryptStream, encryptStreamCompressed, EncryptStream, stream_blocks.
  destruct (fb_compressor fb) eqn:E; [done|]. by apply encrypt_loop_chunks.
Qed.

Lemma encryptFile_ok keys i r0 r e sum : encryptFile toLower policy open keys i r0 r = Some (IOk (e, sum)) ->
  exists data perm codec mtime size, file_data policy open false i = Some (data, perm) /\
    streamed_entry keys (mkfb codec) false codec perm mtime size i data r0 r = IOk e /\
    (forall k, fb_key (mkfb codec k) = k /\ fb_ok (mkfb codec k) /\ fb_Codec (mkfb codec k) = codec) /\
    sum = mk_sum (BucketizeSize size) codec (len data).
Proof.
  unfold encryptFile, file_data, streamed_entry. destruct (open (in_path i)) as [f|]; [|done].
  destruct (hf_stat f) as [info|]; [|done]. destruct (draw SaltSize r0) as [salt r01].
  destruct (hf_readErr f); [done|].
  match goal with |- context [codecFor toLower policy (in_name i) ?p] => destruct (codecFor toLower policy (in_name i) p) as [codec|] eqn:Ec; [|done] end.
  destruct (builder_for policy codec _) as [fb|] eqn:Eb; [|done].
  destruct (codec_builder _ _ _ _ _ Ec Eb) as [-> Hfb].
  destruct (FrameHeader r) as [fh r1]. destruct (encryptFilename _ _ r01) as [en r02].
  destruct (Seal _ _ r02) as [[mb|] r03] eqn:Em; [|done]. destruct (InterBlockPadding r1) as [ip r2].
  rewrite fb_EncryptStream_eq. destruct (stream_blocks false _ _ r2) as [bs r3] eqn:Es.
  destruct (BuildTrailer _ _ _ r3) as [tr r4] eqn:Et. intros [= <- <-].
  eexists (hf_content f), _, codec, (fi_ModTime info), (fi_Size info). split; [done|].
  rewrite Em. cbn [or_fatal]. rewrite Es, Et. done.
Qed.

Lemma encryptFile_recoverable keys i r0 r e : encryptFile toLower policy open keys i r0 r = Some (IErr e) ->
  IsFatal e = false -> file_data policy open false i = None.
Proof.
  unfold encryptFile, file_data. destruct (open (in_path i)) as [f|]; [|done].
  destruct (hf_stat f) as [info|]; [|done]. destruct (draw SaltSize r0) as [salt r01].
  destruct (hf_readErr f); [done|]. destruct (codecFor _ _ _ _) as [codec|]; [|done]. destruct (builder_for _ _ _) as [fb|]; [|done].
  destruct (FrameHeader r) as [fh r1]. destruct (encryptFilename _ _ r01) as [en r02].
  destruct (Seal _ _ r02) as [[mb|] r03]; [|by intros [= <-]]. destruct (InterBlockPadding r1) as [ip r2].
  destruct (fb_EncryptStream fb _ r2) as [bs r3]. by destruct (BuildTrailer _ _ _ r3).
Qed.

Lemma file_data_bounded inline i data perm : file_data policy open inline i = Some (data, perm) -> len data < 2 ^ 63 /\ 0 <= perm < 2 ^ 32.
Proof.
  unfold file_data. destruct (open (in_path i)) as [f|] eqn:Eo; [|done]. destruct (Hopen _ _ Eo) as [Hc Hm].
  destruct (hf_stat f) as [info|]; [|done].
  assert (0 <= Z.land (fi_Mode info) 511 < 2 ^ 32) as Hp.
  { change 511 with (Z.ones 9). rewrite Z.land_ones by lia. pose proof (Z.mod_pos_bound (fi_Mode info) (2 ^ 9)). lia. }
  destruct inline.
  - destruct (readProbe _ _ _); [|done]. unfold tryMmap. intros [= <- <-]. split; [|done].
    destruct (_ <? _); [done|]. destruct (hf_mmap f) eqn:Em; [by apply Hm|done].
  - destruct (hf_readErr f); [done|]. by intros [= <- <-].
Qed.

(** ** The archive so far *)

Context (cek : bytes) (aw1 : ArchiveWriter) (Haw1 : aw_keys aw1 = KeysV2 cek).

Lemma aw_keys_blocks bs : forall aw, aw_keys (fold_left AppendDataBlock bs aw) = aw_keys aw.
Proof. induction bs as [|b bs IH]; intros aw; cbn [fold_left]; [done|]. by rewrite IH. Qed.

Lemma aw_keys_tee p aw : aw_keys (tee p aw) = aw_keys aw.
Proof. done. Qed.

Lemma aw_keys_start aw : aw_keys (startEntry aw) = aw_keys aw.
Proof. done. Qed.

Lemma aw_keys_entry e aw : aw_keys (WriteFileEntry e aw) = aw_keys aw.
Proof.
  unfold WriteFileEntry, writeTrailer, writePadding, writeMetadataBlock, writeSealed. cbv zeta.
  by rewrite !aw_keys_tee, aw_keys_blocks, !aw_keys_tee, aw_keys_start.
Qed.

(** The directory records what was written: a record per published file, listing what a scan
    lists, at offsets inside the archive while those are representable. *)
Definition dir_good (aw : ArchiveWriter) (d : directoryBuilder) (items : list item) : Prop :=
  exists recs Ls, Forall2 (fun it rs => lists (KeysV2 cek) (it_entry it) rs) items Ls /\ keeps d recs /\
    Forall2 record_for recs (concat (map it_published items)) /\ 0 <= aw_offset aw1 <= aw_offset aw /\
    (aw_offset aw < 2 ^ 63 -> map record_listing recs = concat Ls /\
       Forall (fun r => aw_offset aw1 <= dr_Offset r < aw_offset aw) recs).

(** The writer holds the header and then exactly the entries of [items]. *)
Record arch_good (a : arch) (items : list item) : Prop := {
  ag_writer : ar_w a = fold_left (fun aw e => WriteFileEntry e aw) (map it_entry items) aw1;
  ag_items : Forall (sealed_input toLower (KeysV2 cek)) items;
  ag_keys : aw_keys (ar_w a) = KeysV2 cek;
  ag_dir : dir_good (ar_w a) (ar_dir a) items
}.

(** Going from [a] to [a'] writes entries that publish [pubs]. *)
Definition extends (a a' : arch) (pubs : list published) : Prop :=
  forall items, arch_good a items -> exists new, arch_good a' (items ++ new) /\
    concat (map it_published new) = pubs /\ concat (map it_results new) = map result_of pubs.

Lemma extends_skip a n : extends a (mk_arch (ar_w a) (ar_dir a) n) [].
Proof. intros items []. exists []. rewrite app_nil_r. split; [by split|done]. Qed.

Lemma extends_trans a b c ps qs : extends a b ps -> extends b c qs -> extends a c (ps ++ qs).
Proof.
  intros Hab Hbc items Ha. destruct (Hab items Ha) as (n1 & Hb & Hp1 & Hr1). destruct (Hbc _ Hb) as (n2 & Hc & Hp2 & Hr2).
  exists (n1 ++ n2). rewrite app_assoc, !map_app, !concat_app, Hp1, Hp2, Hr1, Hr2. done.
Qed.

(** Writing one sealed entry and recording it. *)
Lemma dir_good_entry aw d items e recs pubs d' it : dir_good aw d items -> it_entry it = e -> it_published it = pubs ->
  recorded (KeysV2 cek) (aw_offset aw) e recs pubs -> (forall old, keeps d old -> keeps d' (old ++ recs)) ->
  dir_good (WriteFileEntry e aw) d' (items ++ [it]).
Proof.
  intros (old & Ls & Hl & Hk & Hf & Ho & Hb) He Hp [Hw (rs & Hrs & Hrl) Hpre Hfor Hoff] Hd.
  pose proof (entry_stored_range _ Hw) as Hs. assert (0 < len (encode_entry e)) as Hpos by (unfold encode_entry; rewrite len_app, len_cons; len_lia).
  exists (old ++ recs), (Ls ++ [rs]). rewrite aw_offset_entry. split.
  { apply Forall2_app; [done|]. constructor; [by rewrite He|constructor]. }
  split; [by apply Hd|]. split.
  { rewrite map_app, concat_app. cbn [map concat]. rewrite app_nil_r, Hp. by apply Forall2_app. }
  split; [lia|]. intros Hlt. destruct Hb as [Hm Hr]; [lia|]. split.
  - rewrite map_app, concat_app. cbn [concat]. by rewrite app_nil_r, Hm, Hrl by lia.
  - apply Forall_app. split; [eapply Forall_impl; [exact Hr|]; intros r ?; cbn in *; lia|].
    eapply Forall_impl; [exact Hoff|]. intros r ->. rewrite u64_small by lia. lia.
Qed.

Lemma extends_entry a e d n pubs recs : (forall it, it_entry it = e -> it_published it = pubs -> it_results it = map result_of pubs ->
    sealed_input toLower (KeysV2 cek) it) ->
  recorded (KeysV2 cek) (aw_offset (ar_w a)) e recs pubs -> (forall old, keeps (ar_dir a) old -> keeps d (old ++ recs)) ->
  extends a (mk_arch (WriteFileEntry e (ar_w a)) d n) pubs.
Proof.
  intros Hs Hrec Hd items []. exists [mk_item e (map result_of pubs) pubs]. cbn [map concat it_published it_results]. rewrite !app_nil_r.
  split; [|done]. split; cbn [ar_w ar_dir].
  - by rewrite map_app, fold_left_app, ag_writer0.
  - apply Forall_app. split; [done|]. constructor; [by apply Hs|done].
  - by rewrite aw_keys_entry.
  - by eapply dir_good_entry.
Qed.

(** A file or link recorded by [addEntry]. *)
Lemma extends_recorded_entry a e d n i sum p : (forall it, it_entry it = e -> it_published it = [p] -> it_results it = [result_of p] ->
    sealed_input toLower (KeysV2 cek) it) ->
  recorded (KeysV2 cek) (aw_offset (ar_w a)) e
    [file_record (aw_offset (ar_w a)) i (es_bucket sum) (es_codec sum) (es_original sum) (stored_size (DataBlocks e))] [p] ->
  addEntry (WriteFileEntry e (ar_w a)) i sum (ar_dir a) = IOk d -> extends a (mk_arch (WriteFileEntry e (ar_w a)) d n) [p].
Proof.
  intros Hs Hrec Ha. eapply extends_entry; [done|exact Hrec|]. intros old. unfold addEntry, entry_record in Ha.
  rewrite LastEntry_entry in Ha. eapply db_add_keeps; [exact Ha|]. by apply rc_pre, Forall_inv in Hrec.
Qed.

Lemma file_data_input_ok i data perm inline : input_ok i -> regular i = true ->
  file_data policy open inline i = Some (data, perm) -> file_input_ok i perm data /\ Z.land perm 511 = perm.
Proof.
  intros (Hn & Ht & _) Hr Hd. destruct (file_data_bounded _ _ _ _ Hd) as [Hl Hp]. split; [split; try done; by apply Z.eqb_eq|].
  unfold file_data in Hd. destruct (open (in_path i)) as [f|]; [|done]. destruct (hf_stat f) as [info|]; [|done].
  assert (Z.land (Z.land (fi_Mode info) 511) 511 = Z.land (fi_Mode info) 511) as Hi by (by rewrite <- Z.land_assoc).
  destruct inline; [destruct (readProbe _ _ _); [|done]|destruct (hf_readErr f); [done|]]; by injection Hd as _ <-.
Qed.

Lemma file_extends i e data perm mapped codec mtime size r0 r inline a d n : input_ok i -> regular i = true ->
  file_data policy open inline i = Some (data, perm) ->
  streamed_entry (KeysV2 cek) (mkfb codec) mapped codec perm mtime size i data r0 r = IOk e ->
  (forall k, fb_key (mkfb codec k) = k /\ fb_ok (mkfb codec k) /\ fb_Codec (mkfb codec k) = codec) ->
  addEntry (WriteFileEntry e (ar_w a)) i (mk_sum (BucketizeSize size) codec (len data)) (ar_dir a) = IOk d ->
  extends a (mk_arch (WriteFileEntry e (ar_w a)) d n) (file_pubs policy open inline i).
Proof.
  intros Hi Hr Hd Hs Hfb Ha. destruct (file_data_input_ok _ _ _ _ Hi Hr Hd) as [Hok Hp]. unfold file_pubs. rewrite Hd.
  eapply extends_recorded_entry; [| |exact Ha]; [|by eapply streamed_recorded].
  intros [e' rs ps]. cbn [it_entry it_published it_results]. intros -> -> ->. cbn [result_of].
  rewrite <- Hp at 1. by eapply sealed_file.
Qed.

Context (rnd : nat -> rng * rng) (f : fs).

Lemma extends_keys a a' pubs items : extends a a' pubs -> arch_good a items -> aw_keys (ar_w a) = KeysV2 cek.
Proof. intros _ []. done. Qed.

(** To extend, the keys may be assumed. *)
Lemma extends_intro a a' pubs : (aw_keys (ar_w a) = KeysV2 cek -> extends a a' pubs) -> extends a a' pubs.
Proof. intros Hk items Hg. apply Hk; [apply Hg|done]. Qed.

Lemma streamInline_extends i a a' : input_ok i -> regular i = true ->
  streamInline toLower policy rnd open i a = Some (IOk a') -> extends a a' (file_pubs policy open true i).
Proof.
  intros Hi Hr Hs. apply extends_intro. intros Hk. unfold streamInline in Hs. destruct (rnd (ar_seq a)) as [r0 r].
  destruct (addFileStreaming _ _ _ _ _ _ _) as [[[sum|e] aw]|] eqn:Ea; [| |done].
  - apply addFileStreaming_ok in Ea as (e & data & perm & mapped & codec & mtime & size & Hd & He & Hfb & -> & ->).
    destruct (addEntry _ i _ (ar_dir a)) as [d|] eqn:Ed; [|done]. injection Hs as <-. rewrite Hk in He. by eapply file_extends.
  - destruct (IsFatal e) eqn:Ef; [done|]. injection Hs as <-.
    destruct (addFileStreaming_recoverable _ _ _ _ _ _ Ea Ef) as [-> Hd]. unfold file_pubs. rewrite Hd. apply extends_skip.
Qed.

Lemma packed_none members : forall stream,
  forallb (fun m => match smr_err m with Some _ => true | None => false end) (snd (packSolid (open_member open) stream members)) = true ->
  packed (open_member open) stream members = [].
Proof.
  induction members as [|i members IH]; intros stream Hf; cbn [packSolid packed] in *; [done|].
  destruct (appendSolidMember _ stream i) as [stream' res]. specialize (IH stream').
  destruct (packSolid _ stream' members) as [st rs]. cbn [snd forallb] in *. apply andb_true_iff in Hf as [Hm Hf].
  destruct (smr_err res); [|done]. by apply IH.
Qed.

Lemma packed_some members : forall stream,
  forallb (fun m => match smr_err m with Some _ => true | None => false end) (snd (packSolid (open_member open) stream members)) = false ->
  packed (open_member open) stream members <> [].
Proof.
  induction members as [|i members IH]; intros stream Hf; cbn [packSolid packed] in *; [done|].
  destruct (appendSolidMember _ stream i) as [stream' res] eqn:Ea. specialize (IH stream').
  destruct (packSolid _ stream' members) as [st rs]. cbn [snd forallb] in *. apply andb_false_iff in Hf as [Hm|Hf].
  - destruct (smr_err res) eqn:Er; [done|]. unfold appendSolidMember in Ea.
    destruct (open_member open (in_path i)) as [fl|]; [|by injection Ea as _ <-].
    destruct (of_stat fl); [|by injection Ea as _ <-]. by destruct (of_read fl); [|injection Ea as _ <-].
  - destruct (smr_err res); [by apply IH|]. destruct (open_member open (in_path i)) as [fl|]; [|by apply IH].
    destruct (of_read fl); [done|by apply IH].
Qed.

Lemma sealSolidEntry_fatal ks stream r0 r e : sealSolidEntry toLower ks policy stream r0 r = Some (IErr e) -> IsFatal e = true.
Proof.
  unfold sealSolidEntry, sealPayloadEntry. destruct (solidCodecFor _ _ _); [|done]. destruct (draw SaltSize r0) as [salt r1].
  destruct (FrameHeader r) as [fh r2]. destruct (Seal _ _ r1) as [[mb|] r3]; cbn [or_fatal]; [|by intros [= <-]].
  destruct (InterBlockPadding r2) as [ip r4]. destruct (payload_loop _ _ _ _) as [bs r5]. by destruct (BuildTrailer _ _ _ _).
Qed.

Lemma run_and_write_extends j a a' :
  match j with JFile i _ => input_ok i /\ regular i = true | JGroup ms => Forall input_ok ms end ->
  run_and_write toLower policy rnd open j a = Some (IOk a') ->
  extends a a' (match j with JFile i _ => file_pubs policy open false i | JGroup ms => group_pubs open ms end).
Proof.
  intros Hj Hs. apply extends_intro. intros Hk. unfold run_and_write in Hs. destruct (rnd (ar_seq a)) as [r0 r]. destruct j as [i inline|ms].
  - destruct (encryptFile _ _ _ _ _ _ _) as [[[e sum]|e]|] eqn:Ee; [| |done].
    + apply encryptFile_ok in Ee as (data & perm & codec & mtime & size & Hd & He & Hfb & ->).
      destruct (addEntry _ i _ (ar_dir a)) as [d|] eqn:Ed; [|done]. injection Hs as <-. rewrite Hk in He. destruct Hj. by eapply file_extends.
    + destruct (IsFatal e) eqn:Ef; [done|]. injection Hs as <-. unfold file_pubs. rewrite (encryptFile_recoverable _ _ _ _ _ Ee Ef).
      apply extends_skip.
  - unfold buildSolidEntry in Hs. pose proof (packed_none ms []) as Hnone. pose proof (packed_some ms []) as Hsome.
    assert (Forall (fun i => Attributes_typed (in_attrs i)) ms) as Hty by (eapply Forall_impl; [exact Hj|]; by intros i (_ & ? & _)).
    destruct (packSolid_stream (open_member open) ms Hty []) as (He & Hl & Hm); [done|].
    pose proof (fun off codec st all => packed_records (open_member open) off codec st all ms Hty [] ltac:(done)) as Hrecs.
    destruct (packSolid (open_member open) [] ms) as [stream results]. cbn [fst snd] in *.
    destruct (forallb _ results) eqn:Ef.
    { injection Hs as <-. unfold group_pubs. rewrite Hnone by done. apply extends_skip. }
    destruct (sealSolidEntry _ _ _ _ _ _) as [[[e codec]|e]|] eqn:Es; [|by rewrite (sealSolidEntry_fatal _ _ _ _ _ Es) in Hs|done].
    destruct (addSolid _ _ (ar_dir a)) as [d|] eqn:Ed; [|done]. injection Hs as <-. rewrite Hk in Es.
    rewrite app_nil_l in He. subst stream. specialize (Hsome eq_refl).
    pose proof (solid_recorded toLower opts policy cek _ r0 r e codec (aw_offset (ar_w a)) Hpol Hm Hsome Hl Es) as Hrec.
    eapply extends_entry; [|exact Hrec|].
    + intros [e' rs ps]. cbn [it_entry it_published it_results]. intros -> -> ->. unfold group_pubs. rewrite map_map. cbn [result_of].
      by eapply sealed_solid.
    + intros old Hold. rewrite <- Hrecs in *. eapply add_members_keeps; [|apply Hrec|exact Hold].
      unfold addSolid in Ed. by rewrite LastEntry_entry in Ed.
Qed.

Definition job_ok (j : fileJob) : Prop :=
  match j with JFile i _ => input_ok i /\ regular i = true | JGroup ms => Forall input_ok ms end.

Lemma write_jobs_extends jobs : Forall job_ok jobs -> forall a a',
  write_jobs toLower policy rnd open jobs a = Some (IOk a') -> extends a a' (concat (map (job_pubs policy open) jobs)).
Proof.
  induction 1 as [|j jobs Hj _ IH]; intros a a' Hs; cbn [write_jobs map concat] in *.
  - injection Hs as <-. intros items Hg. exists []. by rewrite app_nil_r.
  - match type of Hs with match ?x with _ => _ end = _ => destruct x as [[a1|]|] eqn:Ej; [|done|done] end.
    eapply extends_trans; [|by apply IH].
    destruct j as [i [|]|ms]; [by destruct Hj; apply streamInline_extends|by apply (run_and_write_extends (JFile i false))|
      by apply (run_and_write_extends (JGroup ms))].
Qed.

Lemma special_extends special : Forall (fun i => input_ok i /\ regular i = false) special -> forall a a',
  writeSpecialEntries rnd special a = IOk a' -> extends a a' (special_pubs special).
Proof.
  induction 1 as [|i special [Hi Hr] _ IH]; intros a a' Hs; cbn [writeSpecialEntries special_pubs map] in *.
  - injection Hs as <-. intros items Hg. exists []. by rewrite app_nil_r.
  - apply extends_intro. intros Hk. destruct (rnd (ar_seq a)) as [r0 r].
    destruct (sealSpecialEntry _ i r0 r) as [e|] eqn:Es; [|done]. rewrite Hk in Es.
    destruct (addEntry _ i specialSummary (ar_dir a)) as [d|] eqn:Ed; [|done].
    apply (extends_trans _ (mk_arch (WriteFileEntry e (ar_w a)) d (S (ar_seq a))) _ [PubSpecial (in_name i) (in_attrs i)]); [|by apply IH].
    destruct Hi as (Hn & Ht & Hl). eapply extends_recorded_entry; [| |exact Ed]; [|by eapply special_recorded].
    intros [e' rs ps]. cbn [it_entry it_published it_results]. intros -> -> ->. by eapply sealed_special.
Qed.

(** The directory entry [finishArchive] writes: none when the builder gave up. *)
Definition written_dir (d : directoryBuilder) (dir : option FileEntry) : Prop :=
  match dir with
  | None => db_full d = true
  | Some e => db_full d = false /\ exists r0 r1,
      sealPayloadEntry (KeysV2 cek) EntryTypeDirectory CodecNone (db_plaintext d) (db_plaintext d) r0 r1 = IOk e
  end.

Lemma written_dir_sealed d dir recs : written_dir d dir -> keeps d recs -> forall e, dir = Some e ->
  exists pt r0 r1, len pt < 2 ^ 63 /\ sealPayloadEntry (KeysV2 cek) EntryTypeDirectory CodecNone pt pt r0 r1 = IOk e.
Proof.
  intros Hw Hk e ->. destruct Hw as [Hf (r0 & r1 & Hs)]. exists (db_plaintext d), r0, r1. split; [|done].
  unfold keeps in Hk. rewrite Hf in Hk. destruct Hk as (-> & Hl & _). unfold MaxDirectorySize in Hl. lia.
Qed.

(** The end of the archive: the directory, if it was kept, the footer, and a signature
    block after it. *)
Lemma finish_shape sign a out : finishArchive rnd sign a = IOk out -> aw_keys (ar_w a) = KeysV2 cek ->
  exists dir extra, out = aw_out (WriteFooter (write_directory dir (ar_w a))) ++ extra /\
    match sign with
    | None => extra = []
    | Some sign => sign (aw_checksum (WriteFooter (write_directory dir (ar_w a)))) = IOk extra
    end /\ written_dir (ar_dir a) dir.
Proof.
  intros Hf Hk. unfold finishArchive in Hf. destruct (rnd (ar_seq a)) as [r0 r].
  assert (exists dir, db_write (ar_dir a) r0 r (ar_w a) = IOk (write_directory dir (ar_w a)) /\ written_dir (ar_dir a) dir) as (dir & Hw & Hdir).
  { unfold db_write, written_dir in *. destruct (db_full (ar_dir a)) eqn:Ed; [by exists None|]. rewrite Hk in *.
    destruct (sealPayloadEntry _ _ _ _ _ _ _) as [e|] eqn:Es; [|done]. exists (Some e). split; [done|]. split; [done|]. by exists r0, r. }
  rewrite Hw in Hf. exists dir. destruct sign as [sign|].
  - destruct (sign _) as [block|] eqn:Eb; [|done]. injection Hf as <-. by exists block.
  - injection Hf as <-. exists []. by rewrite app_nil_r.
Qed.

(** ** Whole runs *)

(** The writer after the header and the entries of [items]. *)
Definition after_items (items : list item) : ArchiveWriter := fold_left (fun aw e => WriteFileEntry e aw) (map it_entry items) aw1.

Lemma finish_good a0 a1 pubs special a2 sign out :
  arch_good a0 [] -> extends a0 a1 pubs -> Forall (fun i => input_ok i /\ regular i = false) special ->
  writeSpecialEntries rnd special a1 = IOk a2 -> finishArchive rnd sign a2 = IOk out ->
  exists items dir extra d,
    out = aw_out (WriteFooter (write_directory dir (after_items items))) ++ extra /\
    match sign with
    | None => extra = []
    | Some sign => sign (aw_checksum (WriteFooter (write_directory dir (after_items items)))) = IOk extra
    end /\
    Forall (sealed_input toLower (KeysV2 cek)) items /\
    dir_good (after_items items) d items /\ written_dir d dir /\
    concat (map it_published items) = pubs ++ special_pubs special /\
    concat (map it_results items) = map result_of (pubs ++ special_pubs special).
Proof.
  intros H0 H1 Hs Hw Hf. destruct (extends_trans _ _ _ _ _ H1 (special_extends _ Hs _ _ Hw) [] H0) as (items & [] & Hp & Hr).
  rewrite app_nil_l in *. destruct (finish_shape _ _ _ Hf) as (dir & extra & -> & Hx & Hd); [done|].
  exists items, dir, extra, (ar_dir a2). unfold after_items. rewrite ag_writer0 in *. by split_and!.
Qed.

Definition job_inputs (j : fileJob) : list inputFile := match j with JFile i _ => [i] | JGroup ms => ms end.

Lemma planJobs_inputs files : concat (map job_inputs (planJobs toLower policy f files)) ≡ₚ files.
Proof.
  assert (forall l, concat (map job_inputs (map (fun i => JFile i (isLargeFile f (in_path i))) l)) = l) as Hl.
  { induction l as [|i l IH]; cbn; [done|]. by rewrite IH. }
  unfold planJobs. destruct (cp_solid policy); [|by rewrite Hl]. rewrite map_app, concat_app, Hl, map_map. cbn [job_inputs].
  rewrite map_id. apply planSolid_perm.
Qed.

(** [Archive] runs jobs that cover the regular inputs. *)
Lemma Archive_jobs entries sign a out : Archive toLower policy rnd open f entries sign a = Some (IOk out) ->
  exists jobs, concat (map job_inputs jobs) ≡ₚ fst (splitSpecial entries) /\
    archiveJobs toLower policy rnd open jobs (snd (splitSpecial entries)) sign a = Some (IOk out).
Proof.
  unfold Archive. destruct (splitSpecial entries) as [files special]. cbn [fst snd]. intros Hrun.
  destruct files as [|i [|i' files]]; [|by exists [JFile i true]|]; eexists; (split; [|exact Hrun]); apply planJobs_inputs.
Qed.

Lemma jobs_ok jobs : Forall (fun i => input_ok i /\ regular i = true) (concat (map job_inputs jobs)) -> Forall job_ok jobs.
Proof.
  induction jobs as [|j jobs IH]; intros Hf; [done|]. cbn [map concat] in Hf. apply Forall_app in Hf as [Hj Hf].
  constructor; [|by apply IH]. destruct j; cbn [job_inputs job_ok] in *; [by inversion Hj|].
  eapply Forall_impl; [exact Hj|]. by intros i [? _].
Qed.

Lemma archiveJobs_good jobs special sign a0 out :
  arch_good a0 [] -> Forall (fun i => input_ok i /\ regular i = true) (concat (map job_inputs jobs)) ->
  Forall (fun i => input_ok i /\ regular i = false) special ->
  archiveJobs toLower policy rnd open jobs special sign a0 = Some (IOk out) ->
  exists a1 a2, extends a0 a1 (concat (map (job_pubs policy open) jobs)) /\
    writeSpecialEntries rnd special a1 = IOk a2 /\ finishArchive rnd sign a2 = IOk out.
Proof.
  intros H0 Hj Hsp Ha. unfold archiveJobs in Ha. destruct (write_jobs _ _ _ _ _ _) as [[a1|]|] eqn:Ew; [|done|done].
  destruct (writeSpecialEntries rnd special a1) as [a2|] eqn:Es; [|done]. cbn in Ha. injection Ha as Ha.
  exists a1, a2. split; [|done]. apply write_jobs_extends; [|done]. by apply jobs_ok.
Qed.

Lemma Forall_split entries : Forall input_ok entries ->
  Forall (fun i => input_ok i /\ regular i = true) (fst (splitSpecial entries)) /\
  Forall (fun i => input_ok i /\ regular i = false) (snd (splitSpecial entries)).
Proof.
  intros He. unfold splitSpecial. cbn [fst snd]. rewrite !Forall_forall in *.
  split; intros i Hi; apply list_elem_of_filter in Hi as [Hr Hi]; split; [by apply He|done|by apply He|done].
Qed.

(** ** The streaming archiver *)

Lemma addStreamed_extends i a e a' : input_ok i -> regular i = true ->
  addStreamed toLower policy rnd open i a = Some (IOk (e, a')) -> extends a a' (file_pubs policy open true i).
Proof.
  intros Hi Hr Ha. apply streamInline_extends; [done..|]. unfold addStreamed, streamInline in *. destruct (rnd (ar_seq a)) as [r0 r].
  destruct (addFileStreaming _ _ _ _ _ _ _) as [[[sum|e'] aw]|]; [| |done].
  - destruct (addEntry _ i sum (ar_dir a)) as [d|]; [|done]. by injection Ha as _ <-.
  - destruct (IsFatal e'); [done|]. by injection Ha as _ <-.
Qed.

(** The files given so far are those written, in the jobs done, and those queued. *)
Definition sa_good (a0 : arch) (given special : list inputFile) (sa : StreamingArchiver) : Prop :=
  exists jobs, extends a0 (sa_arch sa) (concat (map (job_pubs policy open) jobs)) /\
    concat (map job_inputs jobs) ++ sa_pending sa ≡ₚ given /\ sa_special sa = special.

Lemma flushSolid_good a0 given special sa sa' : Forall (fun i => input_ok i /\ regular i = true) given ->
  sa_good a0 given special sa -> flushSolid toLower policy rnd open sa = Some (IOk sa') ->
  sa_good a0 given special sa' /\ sa_pending sa' = [].
Proof.
  intros Hg (jobs & He & Hp & Hsp) Hf. unfold flushSolid in Hf.
  assert (Forall (fun i => input_ok i /\ regular i = true) (sa_pending sa)) as Hpend
    by (rewrite <- Hp in Hg; by apply Forall_app in Hg as [_ ?]).
  destruct (flush_pending _ _ _ _ _ _) as [[a|]|] eqn:Ep; [|done|done]. injection Hf as <-. cbn [sa_pending]. split; [|done].
  assert (exists more, extends (sa_arch sa) a (concat (map (job_pubs policy open) more)) /\ concat (map job_inputs more) = sa_pending sa)
    as (more & Hm & Hi).
  { unfold flush_pending in Ep. destruct (sa_pending sa) as [|i [|i' pending]].
    - injection Ep as <-. exists []. split; [|done]. intros items Hit. exists []. by rewrite app_nil_r.
    - destruct (addStreamed _ _ _ _ _ _) as [[[e a']|]|] eqn:Ea; [|done|done]. injection Ep as <-.
      exists [JFile i true]. cbn. rewrite app_nil_r. split; [|done]. inversion Hpend as [|? ? [? ?]]. by eapply addStreamed_extends.
    - exists [JGroup (i :: i' :: pending)]. cbn [map concat job_inputs job_pubs]. rewrite !app_nil_r. split; [|done].
      apply (run_and_write_extends (JGroup (i :: i' :: pending))); [|done]. eapply Forall_impl; [exact Hpend|]. by intros ? [? _]. }
  exists (jobs ++ more). rewrite !map_app, !concat_app, Hi. cbn [sa_arch sa_pending sa_special]. rewrite app_nil_r.
  split; [by eapply extends_trans|done].
Qed.

Lemma addInput_good a0 given special sa i e sa' : Forall (fun i => input_ok i /\ regular i = true) (given ++ [i]) ->
  sa_good a0 given special sa -> addInput toLower policy rnd open f i sa = Some (IOk (e, sa')) ->
  sa_good a0 (given ++ [i]) special sa'.
Proof.
  intros Hg Hs Ha. apply Forall_app in Hg as [Hg Hi]. apply Forall_singleton in Hi as [Hi Hr]. unfold addInput in Ha.
  assert (forall record sb, sa_good a0 given special sb ->
    sa_good a0 (given ++ [i]) special (mk_sa (sa_arch sb) (sa_special sb) (sa_pending sb ++ [i]) (sa_pendingSize sb + record))) as Hq.
  { intros record sb (jobs & He & Hp & Hsp). exists jobs. cbn [sa_arch sa_pending sa_special]. by rewrite app_assoc, Hp. }
  destruct (if cp_solid policy then _ else _) as [record|].
  - destruct (_ <? _); [|injection Ha as _ <-; by apply Hq].
    destruct (flushSolid _ _ _ _ _) as [[sb|]|] eqn:Ef; [|done|done]. injection Ha as _ <-. apply Hq. by eapply flushSolid_good.
  - destruct (addStreamed _ _ _ _ _ _) as [[[e' a]|]|] eqn:Es; [|done|done]. injection Ha as _ <-.
    destruct Hs as (jobs & He & Hp & Hsp). exists (jobs ++ [JFile i true]). rewrite !map_app, !concat_app.
    cbn [map concat job_inputs job_pubs sa_arch sa_pending sa_special]. rewrite !app_nil_r.
    split; [eapply extends_trans; [done|by eapply addStreamed_extends]|]. split; [|done].
    rewrite <- Hp, <- !app_assoc. apply Permutation_app_head, Permutation_app_comm.
Qed.

Lemma add_inputs_good a0 special files : forall given sa e sa', Forall (fun i => input_ok i /\ regular i = true) (given ++ files) ->
  sa_good a0 given special sa -> add_inputs toLower policy rnd open f files sa = Some (IOk (e, sa')) ->
  sa_good a0 (given ++ files) special sa'.
Proof.
  induction files as [|i files IH]; intros given sa e sa' Hg Hs Ha; cbn [add_inputs] in Ha.
  - injection Ha as _ <-. by rewrite app_nil_r.
  - destruct (addInput _ _ _ _ _ _ _) as [[[e' sb]|]|] eqn:Ei; [|done|done].
    replace (given ++ i :: files) with ((given ++ [i]) ++ files) in * by (by rewrite <- app_assoc).
    eapply IH; [done| |exact Ha]. eapply addInput_good; [|done|exact Ei]. by apply Forall_app in Hg as [? _].
Qed.

(** What a call gives: a directory's entries, or the one file, unless it was skipped. *)
Definition call_entries (c : addCall) : list inputFile :=
  if ac_dir c then ac_entries c
  else match filter (fun s => negb (sk_warning s)) (ac_skipped c) with
       | _ :: _ => []
       | [] => take 1 (ac_entries c)
       end.

Definition call_ok (c : addCall) : Prop :=
  Forall input_ok (call_entries c) /\ (ac_dir c = false -> Forall (fun i => regular i = true) (call_entries c)).

Lemma splitSpecial_regular i : regular i = true -> splitSpecial [i] = ([i], []).
Proof. intros Hr. unfold splitSpecial. cbn [filter list_filter]. by rewrite Hr. Qed.

Lemma AddFile_good a0 given special sa c e sa' : Forall (fun i => input_ok i /\ regular i = true) given -> call_ok c ->
  sa_good a0 given special sa -> AddFile toLower policy rnd open f (ac_dir c) (ac_entries c) (ac_skipped c) sa = Some (IOk (e, sa')) ->
  sa_good a0 (given ++ fst (splitSpecial (call_entries c))) (special ++ snd (splitSpecial (call_entries c))) sa'.
Proof.
  intros Hg [Hc Hr] Hs Ha. destruct (Forall_split _ Hc) as [Hfiles _]. unfold AddFile, call_entries in *. destruct (ac_dir c).
  - unfold splitSpecial in *. cbn [fst snd] in *. eapply add_inputs_good; [by apply Forall_app| |exact Ha].
    destruct Hs as (jobs & He & Hp & Hsp). exists jobs. cbn [sa_arch sa_pending sa_special]. by rewrite Hsp.
  - specialize (Hr eq_refl). destruct (filter _ (ac_skipped c)) as [|s skipped].
    + destruct (ac_entries c) as [|i entries]; [done|]. change (take 1 (i :: entries)) with [i] in *.
      rewrite Forall_singleton in Hr. rewrite (splitSpecial_regular i Hr) in *. cbn [fst snd] in *.
      rewrite app_nil_r. eapply addInput_good; [by apply Forall_app|done|exact Ha].
    + cbn. rewrite !app_nil_r. destruct (IsFatal (sk_err s)); [done|]. by injection Ha as _ <-.
Qed.

Lemma add_calls_good a0 calls : forall given special sa sa', Forall (fun i => input_ok i /\ regular i = true) given -> Forall call_ok calls ->
  sa_good a0 given special sa -> add_calls toLower policy rnd open f calls sa = Some (IOk sa') ->
  sa_good a0 (given ++ fst (splitSpecial (concat (map call_entries calls)))) (special ++ snd (splitSpecial (concat (map call_entries calls)))) sa'.
Proof.
  induction calls as [|c calls IH]; intros given special sa sa' Hg Hc Hs Ha; cbn [add_calls map concat] in *.
  - injection Ha as <-. cbn. by rewrite !app_nil_r.
  - apply Forall_cons in Hc as [Hc Hcs]. destruct (AddFile _ _ _ _ _ _ _ _ _) as [[[e sb]|]|] eqn:Ea; [|done|done].
    unfold splitSpecial in *. cbn [fst snd] in *. rewrite !filter_app, !app_assoc. eapply IH; [| |by eapply AddFile_good|done]; [|done].
    apply Forall_app. split; [done|]. by apply (Forall_split _ (proj1 Hc)).
Qed.
End Archivers.

(** ** Round trips *)

Section RoundTrips.
Context `{C : Crypto} `{CL : !CryptoLaws C} `{ZS : Zstd} `{ZL : !ZstdLaws ZS} `{SH : Sha256} `{SL : !Sha256Laws SH} `{AG : Age}.

(** What extracting an archive into an empty directory gives: the header's entry count, the
    published entries in order, each reported verified, and no error. *)
Definition restores (u : Unlockers) (cek : bytes) (blockLen count : Z) (archive : bytes) (pubs : list published) : Prop :=
  exists s fin,
    readHeader u archive = (IOk (KeysV2 cek, mk_hinfo 0 count blockLen), s) /\
    extractEntries (KeysV2 cek) (mk_mem [] None) s = (map result_of pubs, None, mk_mem pubs None, fin).

(** A writer that has written its header, and a directory with no record. *)
Definition fresh_arch (aw1 : ArchiveWriter) : arch := mk_arch aw1 newDirectoryBuilder 0.

Lemma fresh_offset cek block count r aw1 : WriteHeader count r (NewArchiveWriter cek block) = Ok aw1 ->
  aw_offset aw1 = hi_end (mk_hinfo 0 count (len block)).
Proof.
  unfold WriteHeader, WriteHeaderWithFlags. cbn [aw_keys NewArchiveWriter newArchiveWriter aw_recipients].
  destruct (SealFileCount _ _ r) as [[sealed|] r'] eqn:Es; [|done]. apply SealFileCount_len in Es. intros Hh. inv_ok Hh.
  unfold writeHeader. rewrite aw_offset_tee, !len_app, Es, !len_le_bytes. unfold hi_end, FileCountOffset. cbn [aw_offset newArchiveWriter hi_recipientBlockLen].
  change (len Magic) with 4. unfold ReservedSize. rewrite len_replicate, len_cons, (len_nil (A := byte)). change (aw_offset (NewArchiveWriter cek block)) with 0. lia.
Qed.

Lemma fresh_good toLower cek block count r aw1 : WriteHeader count r (NewArchiveWriter cek block) = Ok aw1 ->
  arch_good toLower cek aw1 (fresh_arch aw1) [].
Proof.
  intros Hh. assert (aw_keys aw1 = KeysV2 cek) as Hk.
  { unfold WriteHeader, WriteHeaderWithFlags in Hh. destruct (SealFileCount _ _ r) as [[sealed|] r']; [|done]. by inv_ok Hh. }
  split; [done|done|done|]. exists [], []. cbn [fresh_arch ar_w ar_dir]. rewrite (fresh_offset _ _ _ _ _ Hh).
  assert (0 <= hi_end (mk_hinfo 0 count (len block))); [|split_and!; try done; lia].
  unfold hi_end, FileCountOffset. cbn [hi_recipientBlockLen]. pose proof (len_nonneg block). change (len Magic) with 4.
  change FileCountSealedSize with 36. change ReservedSize with 32. lia.
Qed.

Lemma good_restores toLower cek block u count r aw1 rnd special a1 a2 sign out pubs :
  OpenRecipientBlock block u = Opened cek -> len block <= MaxRecipientBlockSize -> 0 <= count < 2 ^ 64 ->
  WriteHeader count r (NewArchiveWriter cek block) = Ok aw1 ->
  extends toLower cek aw1 (fresh_arch aw1) a1 pubs -> Forall (fun i => input_ok i /\ regular i = false) special ->
  writeSpecialEntries rnd special a1 = IOk a2 -> finishArchive rnd sign a2 = IOk out ->
  restores u cek (len block) count out (pubs ++ special_pubs special).
Proof.
  intros Hu Hb Hc Hh He Hs Hw Hf.
  destruct (finish_good toLower cek aw1 rnd _ _ _ _ _ _ _ (fresh_good _ _ _ _ _ _ Hh) He Hs Hw Hf)
    as (items & dir & extra & d & -> & _ & Hi & (recs & Ls & _ & Hk & _) & Hwd & Hp & Hr).
  pose proof (written_dir_sealed cek _ _ _ Hwd Hk) as Hd.
  destruct (archive_extracts toLower cek block u count r aw1 items dir extra Hu Hb Hc Hh Hi Hd) as (s & fin & Hread & Hx & _).
  exists s, fin. rewrite <- Hr, <- Hp. done.
Qed.

(** A successful run restores what its jobs publish. *)
Lemma Archive_restores (toLower : bytes -> bytes) (opts : CompressionOptions) (policy : compressionPolicy)
  (open : bytes -> result hostFile) (f : fs) (cek block : bytes) (u : Unlockers) (count : Z) (r : rng) (aw1 : ArchiveWriter)
  (rnd : nat -> rng * rng) (entries : list inputFile) (sign : option (bytes -> iores bytes)) (out : bytes)
  (Hpol : newCompressionPolicy opts = Ok policy) (Hopen : host_ok open)
  (Hu : OpenRecipientBlock block u = Opened cek) (Hblock : len block <= MaxRecipientBlockSize) (Hcount : 0 <= count < 2 ^ 64)
  (Hhdr : WriteHeader count r (NewArchiveWriter cek block) = Ok aw1)
  (Hin : Forall input_ok entries)
  (Hrun : Archive toLower policy rnd open f entries sign (fresh_arch aw1) = Some (IOk out)) :
  let '(files, special) := splitSpecial entries in
  exists jobs, concat (map job_inputs jobs) ≡ₚ files /\
    restores u cek (len block) count out (concat (map (job_pubs policy open) jobs) ++ special_pubs special).
Proof.
  pose proof (Forall_split _ Hin) as [Hfiles Hspec]. destruct (splitSpecial entries) as [files special] eqn:Es. cbn [fst snd] in *.
  destruct (Archive_jobs _ _ _ _ _ _ _ _ _ Hrun) as (jobs & Hj & Ha). rewrite Es in Hj, Ha. cbn [fst snd] in *.
  exists jobs. split; [done|].
  destruct (archiveJobs_good toLower opts policy Hpol open Hopen cek aw1 rnd jobs special sign _ out (fresh_good _ _ _ _ _ _ Hhdr))
    as (a1 & a2 & He & Hw & Hf); [by rewrite Hj|done|done|]. by eapply good_restores.
Qed.


End RoundTrips.

(** ** Examples

    Two small files, one that cannot be opened, and a directory, stored solid. *)
Definition sample_host : bytes -> result hostFile := fun p =>
  if bytes_eqb p (str "bad") then errorf ErrOther "permission denied"
  else Ok (mk_host (Ok (mk_info p 420 5 3 None None)) true (str "abc") None None).

Definition sample_entries : list inputFile :=
  map (fun n => mk_input n n zero_attributes) [str "b.txt"; str "bad"; str "a.go"] ++ [sample_dir].

Definition sample_policy : compressionPolicy :=
  match newCompressionPolicy (mk_copts CompressionNever 3 true) with Ok p => p | Err _ => mk_policy CompressionNever true None None None end.

Abbreviation sample_run := (@Archive toy_crypto toy_zstd toy_sha (fun b => b) sample_policy (fun _ => (toy_rng, toy_rng)) sample_host sample_fs sample_entries None
    (fresh_arch sample_aw1)).

Definition sample_calls : list addCall :=
  [mk_call true sample_entries []; mk_call false [mk_input (str "c") (str "c") zero_attributes] []].

Abbreviation sample_sa := (@add_calls toy_crypto toy_zstd toy_sha (fun b => b) sample_policy (fun _ => (toy_rng, toy_rng)) sample_host sample_fs sample_calls
    (mk_sa (fresh_arch sample_aw1) [] [] 0)).

Abbreviation sample_finalize sa :=
  (@Finalize toy_crypto toy_zstd toy_sha (fun b => b) sample_policy (fun _ => (toy_rng, toy_rng)) sample_host None sa).

Definition run_ok {A} (x : option (iores A)) : bool := match x with Some (IOk _) => true | _ => false end.

Lemma run_ok_inv {A} (x : option (iores A)) : run_ok x = true -> exists a, x = Some (IOk a).
Proof. destruct x as [[a|]|]; [|done|done]. by exists a. Defined.

Lemma zero_input_ok n : ValidEntryName n = true -> input_ok (mk_input n n zero_attributes).
Proof. intros Hn. split; [done|]. split; [apply zero_attributes_typed|done]. Qed.

Lemma sample_entries_ok : Forall input_ok sample_entries.
Proof.
  apply Forall_app. split; [repeat (constructor; [by apply zero_input_ok|]); constructor|].
  constructor; [|constructor]. split; [done|]. split; [|done].
  unfold Attributes_typed. cbn [sample_dir in_attrs Kind Mode ModTime attr_Owner]. unfold KindDirectory. split_and!; try lia; done.
Qed.

Lemma sample_call_ok1 : call_ok (mk_call true sample_entries []).
Proof. split; [apply sample_entries_ok|]. cbn [ac_dir]. discriminate. Qed.

Lemma sample_host_ok : host_ok sample_host.
Proof. intros p h. unfold sample_host. destruct (bytes_eqb _ _); [done|]. intros E. inv_ok E. done. Qed.

Lemma sample_aw1_header :
  @WriteHeader toy_crypto toy_sha 4 toy_rng (@NewArchiveWriter toy_sha sample_cek sample_block) = Ok sample_aw1.
Proof. unfold sample_aw1. destruct (WriteHeader _ _ _) as [aw|e] eqn:E; [reflexivity|]. discriminate E. Qed.


