(* ===== verification/SignedArchives.v ===== *)
(** * What the archivers write verifies

    [VerifyArchive] on the output of the archivers: the checksum matches, an unsigned
    archive is reported unsigned, and a signed one is reported signed by the key that
    signed it. *)

From S2P Require Import Prelude Bytes Names Attributes Metadata IndexCodec Chunker Directory Solid Crypto Codec Frames.
From S2P Require Import Checksum Writer Signatures Recipients IOErrors Inputs SolidPlan Extractor ExtractorLemmas.
From S2P Require Import ExtractorProofs RoundTrip Archiver ArchiverProofs.
Open Scope go_scope.

Section SignedArchives.
Context `{C : Crypto} `{CL : !CryptoLaws C} `{ZS : Zstd} `{ZL : !ZstdLaws ZS} `{SH : Sha256} `{SL : !Sha256Laws SH} `{AG : Age}.
Context `{SS : Ssh} `{SSL : !SshLaws SS}.

(** The signing argument of [finishArchive]. *)
Definition sign_with (signer : option Signer) : option (bytes -> iores bytes) :=
  option_map (fun sg checksum => signatureBlock checksum sg) signer.

Definition report_of (signer : option Signer) : VerifyReport :=
  mk_report true (match signer with Some _ => true | None => false end) (option_map sg_PublicKey signer) None.

(** The end of an archive, signed or not, verifies. *)
Lemma footer_verifies B signer extra : (match signer with Some sg => signer_ok sg | None => True end) ->
  let sum := sha_sum (sha_write sha_init (masked (B ++ [zb EntryTypeEnd]))) in
  match sign_with signer with None => extra = [] | Some sign => sign sum = IOk extra end ->
  verify_end ((B ++ [zb EntryTypeEnd] ++ sum ++ replicate 32 Byte.x00) ++ extra) NewArchiveChecksum = IOk (report_of signer).
Proof.
  cbv zeta. intros Hok Hx. set (sum := sha_sum _) in *. assert (len sum = HMACSize) as Hl by apply len_sha_sum.
  set (proper := B ++ [zb EntryTypeEnd] ++ sum ++ replicate 32 Byte.x00).
  assert (len proper = len (B ++ [zb EntryTypeEnd]) + FooterSize) as Hp.
  { unfold proper. rewrite !len_app, Hl, len_replicate. unfold FooterSize, ReservedSize. lia. }
  assert (0 < FooterSize) as Hf by done. pose proof (len_nonneg (B ++ [zb EntryTypeEnd])).
  assert (proper = (B ++ [zb EntryTypeEnd]) ++ sum ++ replicate 32 Byte.x00) as He by (unfold proper; by rewrite <- app_assoc).
  assert (forall sigopt, splitSignatureTail (proper ++ extra) = (proper, sigopt) ->
    verify_end (proper ++ extra) NewArchiveChecksum = match sigopt with
      | None => IOk (mk_report true false None None)
      | Some sg => match VerifyMessage sg sum with
                   | Ok key => IOk (mk_report true true (Some key) None) | Err e => IOk (mk_report true true None (Some e)) end
      end) as Hv.
  { intros sigopt Hs. unfold verify_end. rewrite Hs. rewrite (proj2 (Z.ltb_ge _ _)) by lia.
    replace (len proper - FooterSize) with (len (B ++ [zb EntryTypeEnd])) by lia. rewrite He, ztake_app, zdrop_app by done.
    rewrite (ztake_app HMACSize) by done. rewrite <- cs_after_nil, cs_Write_after, cs_Sum_after, app_nil_l. fold sum.
    by rewrite bytes_eqb_refl. }
  destruct signer as [sg|]; cbn [sign_with option_map] in Hx.
  - unfold signatureBlock in Hx. destruct (SignMessage sg sum) as [sig|] eqn:Es; [|done]. cbn [or_fatal] in Hx.
    unfold AppendSignatureBlock in Hx. destruct (_ || _) eqn:Eb; [done|]. apply orb_false_iff in Eb as [Eb1 Eb2]. b2p.
    cbn [or_fatal] in Hx. inv_iok Hx. pose proof (len_nonneg sig).
    rewrite (Hv (Some sig)); [by rewrite (SignMessage_verifies sg sum sig Hok Es)|]. apply splitSignatureTail_block; lia.
  - subst extra. rewrite app_nil_r in *. apply (Hv None). rewrite He, app_assoc. apply split_unsigned.
Qed.

Lemma whole_archive_verifies cek block count r aw1 items dir extra signer :
  WriteHeader count r (NewArchiveWriter cek block) = Ok aw1 -> (match signer with Some sg => signer_ok sg | None => True end) ->
  let aw := WriteFooter (write_directory dir (fold_left (fun aw e => WriteFileEntry e aw) (map it_entry items) aw1)) in
  match sign_with signer with None => extra = [] | Some sign => sign (aw_checksum aw) = IOk extra end ->
  verify_end (aw_out aw ++ extra) NewArchiveChecksum = IOk (report_of signer).
Proof.
  intros Hh Hok. cbv zeta. assert (exists B, wrote aw1 [] B) as [B Hw].
  { unfold WriteHeader, WriteHeaderWithFlags in Hh. destruct (SealFileCount _ _ r) as [[sealed|] r']; [|done]. inv_ok Hh.
    eexists. apply wrote_tee, wrote_new. }
  apply (wrote_entries (map it_entry items)) in Hw. apply (wrote_directory dir) in Hw.
  destruct (WriteFooter_out _ _ _ Hw) as [-> ->]. rewrite !app_nil_l. by apply footer_verifies.
Qed.

Lemma VerifyArchive_whole content r : concat (rd_pieces r) = content -> rd_end r = None ->
  VerifyArchive (S (length (rd_pieces r) + length content)) r = Some (verify_end content NewArchiveChecksum).
Proof.
  intros <- Hend. unfold VerifyArchive. rewrite <- cs_after_nil.
  destruct (verify_loop_spec (S (length (rd_pieces r) + length (concat (rd_pieces r)))) (rd_pieces r) (rd_end r) [] [])
    as (pre & held & -> & He & Hp); [done|done|lia|].
  rewrite Hend. rewrite verify_end_suffix by done. by rewrite He, cs_after_nil.
Qed.

(** C26. Every archive a concurrent run writes verifies without a password: in however many
    reads, [VerifyArchive] finds its checksum intact and reports it unsigned, or signed by
    exactly the key it was signed with. *)
Theorem archive_verifies (toLower : bytes -> bytes) (opts : CompressionOptions) (policy : compressionPolicy)
  (open : bytes -> result hostFile) (f : fs) (cek block : bytes) (count : Z) (r : rng) (aw1 : ArchiveWriter)
  (rnd : nat -> rng * rng) (entries : list inputFile) (signer : option Signer) (out : bytes) (rd : reader)
  (Hpol : newCompressionPolicy opts = Ok policy) (Hopen : host_ok open)
  (Hhdr : WriteHeader count r (NewArchiveWriter cek block) = Ok aw1)
  (Hin : Forall input_ok entries)
  (Hsigner : match signer with Some sg => signer_ok sg | None => True end)
  (Hrun : Archive toLower policy rnd open f entries (sign_with signer) (fresh_arch aw1) = Some (IOk out))
  (Hread : concat (rd_pieces rd) = out) (Hend : rd_end rd = None) :
  VerifyArchive (S (length (rd_pieces rd) + length out)) rd = Some (IOk (report_of signer)).
Proof.
  pose proof (Forall_split _ Hin) as [Hfiles Hspec]. destruct (Archive_jobs _ _ _ _ _ _ _ _ _ Hrun) as (jobs & Hj & Ha).
  destruct (archiveJobs_good toLower opts policy Hpol open Hopen cek aw1 rnd jobs (snd (splitSpecial entries)) (sign_with signer) _ out (fresh_good _ _ _ _ _ _ Hhdr))
    as (a1 & a2 & He & Hw & Hf); [by rewrite Hj|done|done|].
  destruct (finish_good toLower cek aw1 rnd _ _ _ _ _ _ _ (fresh_good _ _ _ _ _ _ Hhdr) He Hspec Hw Hf)
    as (items & dir & extra & d & Ho & Hx & _).
  rewrite (VerifyArchive_whole _ _ Hread Hend), Ho. f_equal. by eapply whole_archive_verifies.
Qed.
End SignedArchives.

Abbreviation signed_run := (@Archive toy_crypto toy_zstd toy_sha (fun b => b) sample_policy (fun _ => (toy_rng, toy_rng)) sample_host sample_fs
  sample_entries (@sign_with toy_ssh (Some toy_signer)) (fresh_arch sample_aw1)).

Lemma archive_verifies_witness : exists out, signed_run = Some (IOk out) /\
  @VerifyArchive toy_ssh toy_sha (S (1 + length out)) (mk_reader [out] None) = Some (IOk (report_of (Some toy_signer))).
Proof.
  destruct (run_ok_inv signed_run) as [out Hrun]; [vm_compute; reflexivity|]. exists out. split; [exact Hrun|].
  refine (@archive_verifies toy_crypto toy_laws toy_zstd toy_zstd_laws toy_sha toy_sha_laws toy_ssh toy_ssh_laws
    (fun b => b) (mk_copts CompressionNever 3 true) sample_policy sample_host sample_fs sample_cek sample_block
    4 toy_rng sample_aw1 (fun _ => (toy_rng, toy_rng)) sample_entries (Some toy_signer) out (mk_reader [out] None) _ _ _ _ _ _ _ _).
  - reflexivity.
  - apply sample_host_ok.
  - apply sample_aw1_header.
  - apply sample_entries_ok.
  - apply toy_signer_ok.
  - exact Hrun.
  - apply app_nil_r.
  - reflexivity.
Defined.
