(* ===== verification/ListingProofs.v ===== *)
(** * The directory lists what a scan lists

    [List] on the output of the archivers, as a pipe and through random access: both give
    the same listing, one line per file, link and directory that extraction restores. *)

From S2P Require Import Prelude Bytes Names Attributes Metadata IndexCodec Directory Solid Crypto Codec Frames.
From S2P Require Import Checksum Writer Signatures Recipients IOErrors Inputs SolidPlan Extractor ExtractorLemmas.
From S2P Require Import ExtractorProofs RoundTrip Incremental Listing Packs SessionLemmas Archiver ListingLemmas ArchiverProofs SignedArchives.
Open Scope go_scope.

(** ** What a listing says *)

Definition describes_file (l : ListResult) (name : bytes) (size : Z) (attrs : Attributes) : Prop :=
  lr_Filename l = name /\ lr_OriginalBytes l = size /\ lr_Kind l = Kind attrs /\ lr_Mode l = Mode attrs /\
  lr_LinkTarget l = LinkTarget attrs /\ lr_ModTime l = ModTime attrs /\ lr_Err l = None.

Definition describes (l : ListResult) (p : published) : Prop :=
  match p with
  | PubFile name data (Some attrs) _ => describes_file l name (len data) attrs
  | PubFile _ _ None _ => False
  | PubSpecial name attrs => describes_file l name 0 attrs
  end.

Lemma record_describes r p : record_for r p -> describes (record_listing r) p.
Proof.
  destruct p as [name data attrs perm|name attrs]; cbn [record_for describes].
  - intros (<- & -> & Hs & Hl). pose proof (len_nonneg data). unfold describes_file, record_listing. cbn. rewrite Hs.
    by rewrite i64_small by lia.
  - intros (<- & -> & Hs). unfold describes_file, record_listing. cbn. by rewrite Hs.
Qed.

Lemma existsb_false {X} (f : X -> bool) l : existsb f l = false <-> Forall (fun x => f x = false) l.
Proof.
  induction l as [|x l IH]; cbn [existsb]; [by split; [constructor|]|]. rewrite orb_false_iff, IH, Forall_cons. done.
Qed.

Lemma parse_dir_bytes recs : Forall record_wf recs -> len (dir_bytes recs) <= MaxDirectorySize ->
  ParseDirectory (dir_bytes recs) = Some (Ok recs).
Proof.
  intros Hwf Hl. unfold ParseDirectory, dir_decoder. unfold dir_bytes, NewDirectory in *. rewrite has_prefix_app. ltb_false.
  cbn [negb orb]. rewrite zdrop_app by done. rewrite reads_records; [done|done|]. rewrite length_app. lia.
Qed.

(** A bound on the directory's size in terms of what it lists. *)
Definition pub_cost (p : published) : Z :=
  match p with
  | PubFile name _ (Some attrs) _ | PubSpecial name attrs => 64 + len name + len (encode_attributes attrs)
  | PubFile name _ None _ => 64 + len name
  end.

Definition directory_cost (pubs : list published) : Z := len NewDirectory + foldr (fun p n => pub_cost p + n) 0 pubs.

Lemma put_uvarint_short x : len (put_uvarint x) <= 10.
Proof.
  unfold put_uvarint. change 10 with (Z.of_nat MaxVarintLen64). generalize MaxVarintLen64 as n. intros n. revert x.
  induction n as [|n IH]; intros x; cbn [put_uvarint_n]; [done|].
  destruct (_ <=? _); rewrite len_cons; [specialize (IH (x / 128)); lia|rewrite (len_nil (A := byte)); lia].
Qed.

Lemma encode_record_cost r p : record_for r p -> len (encode_record r) <= pub_cost p.
Proof.
  intros Hf. assert (pub_cost p = 64 + len (dr_Name r) + len (encode_attributes (dr_Attributes r))) as ->.
  { destruct p; cbn in Hf |- *; [by destruct Hf as (-> & -> & _)|by destruct Hf as (-> & -> & _)]. }
  unfold encode_record, appendString. rewrite !len_app, !len_cons, !(len_nil (A := byte)).
  pose proof (put_uvarint_short (dr_Offset r)). pose proof (put_uvarint_short (len (dr_Name r))).
  pose proof (put_uvarint_short (len (encode_attributes (dr_Attributes r)))).
  pose proof (put_uvarint_short (dr_OriginalSize r)). pose proof (put_uvarint_short (dr_StoredSize r)). lia.
Qed.

Lemma dir_bytes_cost recs pubs : Forall2 record_for recs pubs -> len (dir_bytes recs) <= directory_cost pubs.
Proof.
  unfold dir_bytes, directory_cost. rewrite len_app. intros Hf.
  enough (len (concat (map encode_record recs)) <= foldr (fun p n => pub_cost p + n) 0 pubs) by lia.
  induction Hf as [|r p recs pubs Hr _ IH]; cbn [map concat foldr]; [done|]. rewrite len_app.
  apply encode_record_cost in Hr. lia.
Qed.

Section Listings.
Context `{C : Crypto} `{CL : !CryptoLaws C} `{ZS : Zstd} `{ZL : !ZstdLaws ZS} `{SH : Sha256} `{SL : !Sha256Laws SH} `{AG : Age}.
Context `{SS : Ssh} `{SSL : !SshLaws SS}.

(** ** Scanning *)

Lemma list_loop_entries master es Ls tail fin : Forall2 (lists (KeysV2 master)) es Ls ->
  nextEntryType (KeysV2 master) tail = (IOk None, fin) -> forall fuel, (length es < fuel)%nat ->
  list_loop fuel (KeysV2 master) (concat (map encode_entry es) ++ tail) = (concat Ls, None).
Proof.
  intros Hf Ht. induction Hf as [|e rs es Ls [Hty Hl] _ IH]; intros fuel Hfu;
    (destruct fuel as [|fuel]; [cbn in Hfu; lia|]); cbn [list_loop map concat].
  - by rewrite app_nil_l, Ht.
  - rewrite <- app_assoc, nextEntryType_entry by done. rewrite app_assoc, Hl. rewrite IH by (cbn in Hfu; lia). done.
Qed.

Lemma entries_length es : (length es <= length (concat (map encode_entry es)))%nat.
Proof. induction es as [|e es IH]; cbn [map concat length]; [lia|]. rewrite length_app. unfold encode_entry at 1. cbn [app length]. lia. Qed.

Lemma scanList_entries master es Ls tail fin : Forall2 (lists (KeysV2 master)) es Ls ->
  nextEntryType (KeysV2 master) tail = (IOk None, fin) ->
  scanList (KeysV2 master) (concat (map encode_entry es) ++ tail) = (concat Ls, None).
Proof.
  intros Hf Ht. unfold scanList. eapply list_loop_entries; [done|done|]. rewrite length_app. pose proof (entries_length es). lia.
Qed.

(** ** The directory of a written archive *)

(** Where the signature starts. *)
Lemma split_written body signer sum extra : FooterSize <= len (body ++ replicate 32 Byte.x00) ->
  match sign_with signer with None => extra = [] | Some sign => sign sum = IOk extra end ->
  exists so, splitSignature ((body ++ replicate 32 Byte.x00) ++ extra) (len ((body ++ replicate 32 Byte.x00) ++ extra)) =
    IOk (len (body ++ replicate 32 Byte.x00), so).
Proof.
  intros Hl Hx. assert (exists so, splitSignatureTail ((body ++ replicate 32 Byte.x00) ++ extra) = (body ++ replicate 32 Byte.x00, so)) as [so Hs].
  { destruct signer as [sg|]; cbn [sign_with option_map] in Hx; [|subst extra; rewrite app_nil_r, split_unsigned; eauto].
    unfold signatureBlock in Hx. destruct (SignMessage sg sum) as [sig|]; [|done]. cbn [or_fatal] in Hx.
    unfold AppendSignatureBlock in Hx. destruct (_ || _) eqn:Eb; [done|]. apply orb_false_iff in Eb as [Eb1 Eb2]. b2p.
    cbn [or_fatal] in Hx. inv_iok Hx. pose proof (len_nonneg sig). eexists. apply splitSignatureTail_block; lia. }
  exists so. destruct (splitSignature_tail ((body ++ replicate 32 Byte.x00) ++ extra)) as [-> _]. by rewrite Hs.
Qed.

(** Reading the directory entry [e] at [len B] of an archive that ends with it. *)
Lemma readDirectory_written master B e recs body footer extra so header (A : bytes) :
  A = (B ++ encode_entry e ++ AppendDirectoryLocator [] (u64 (len B)) ++ [zb EntryTypeEnd] ++ footer) ++ extra ->
  body = B ++ encode_entry e ++ AppendDirectoryLocator [] (u64 (len B)) ++ [zb EntryTypeEnd] ++ footer ->
  splitSignature A (len A) = IOk (len body, so) -> len footer = FooterSize -> len A < 2 ^ 63 ->
  0 <= hi_end header <= len B -> holds_payload master EntryTypeDirectory (dir_bytes recs) e ->
  len (dir_bytes recs) <= MaxDirectorySize -> Forall record_wf recs ->
  Forall (fun r => hi_end header <= dr_Offset r < len B) recs ->
  readDirectory A (len A) (KeysV2 master) header = Some (IOk (Some recs)).
Proof.
  intros HA Hbody Hsplit Hfoot HlA Hhdr Hh Hl Hwf Hoff. unfold readDirectory. rewrite Hsplit.
  set (loc := AppendDirectoryLocator [] (u64 (len B))) in *.
  assert (len loc = DirectoryLocatorSize) as Hloc by apply AppendDirectoryLocator_len.
  assert (len body = len (B ++ encode_entry e) + DirectoryTailSize) as Hlb.
  { rewrite Hbody, !len_app, Hloc, Hfoot, len_cons, (len_nil (A := byte)). unfold DirectoryTailSize. lia. }
  replace (len body - DirectoryTailSize) with (len (B ++ encode_entry e)) by lia.
  assert (A = (B ++ encode_entry e) ++ (loc ++ [zb EntryTypeEnd] ++ footer) ++ extra) as HA2 by (by rewrite HA, <- !app_assoc).
  pose proof (len_nonneg extra) as Hx. assert (len body + len extra = len A) as HlAe by (rewrite HA, Hbody, <- len_app; done).
  pose proof (len_nonneg (encode_entry e)) as He0. pose proof (encode_entry_pos e) as Hepos. rewrite len_app in *.
  assert (0 < DirectoryTailSize) as Htail by done.
  rewrite (proj2 (Z.ltb_ge _ _)) by lia. rewrite read_at_ok by lia.
  assert (ztake DirectoryTailSize (zdrop (len B + len (encode_entry e)) A) = loc ++ [zb EntryTypeEnd] ++ footer) as ->.
  { rewrite HA2, zdrop_app by (by rewrite len_app). apply ztake_app. rewrite !len_app, Hloc, Hfoot, len_cons, (len_nil (A := byte)).
    unfold DirectoryTailSize. lia. }
  rewrite ztake_app by done. pose proof (len_nonneg B) as HB.
  assert (u64 (len B) = len B) as Hu by (apply u64_small; lia).
  unfold loc at 1. rewrite Hu, ParseDirectoryLocator_Append by lia.
  unfold byte_at. rewrite zdrop_app by done. cbn [app hd]. change (bz (zb EntryTypeEnd) =? EntryTypeEnd) with true. cbn [negb].
  rewrite !u64_small by lia. rewrite (proj2 (Z.ltb_ge _ _)), (proj2 (Z.leb_gt _ _)) by lia. cbn [orb].
  rewrite i64_small by lia. unfold entryReaderAt.
  assert (ztake (len B + len (encode_entry e) - len B) (zdrop (len B) A) = encode_entry e) as ->.
  { rewrite HA2, <- app_assoc, zdrop_app by done. apply ztake_app. lia. }
  unfold encode_entry. cbn [app]. rewrite (hp_type _ _ _ _ Hh). change (bz (zb EntryTypeDirectory) =? EntryTypeDirectory) with true.
  cbn [negb]. rewrite <- (app_nil_r (encode_head e ++ encode_body e)), <- app_assoc.
  rewrite (readPayloadBody_holds _ _ _ _ _ _ _ Hh) by (try done; unfold MaxDirectorySize in *; lia).
  rewrite parse_dir_bytes by done. rewrite (proj2 (existsb_false _ _)); [done|].
  eapply Forall_impl; [exact Hoff|]. intros r Hr. cbn in Hr.
  rewrite (proj2 (Z.ltb_ge _ _)), (proj2 (Z.leb_gt _ _)) by lia. done.
Qed.

(** ** Whole archives *)

(** What listing [archive] gives: the same listing of [pubs] from a pipe and, unless the
    directory outgrew its limit, through random access, whatever the pipe then holds. *)
Definition listings (u : Unlockers) (archive : bytes) (pubs : list published) : Prop :=
  exists listing, Forall2 describes listing pubs /\ List u None archive = Some (listing, None) /\
    (directory_cost pubs <= MaxDirectorySize -> forall stream, List u (Some archive) stream = Some (listing, None)).

(** A header [H] that the credentials open, as [WriteHeader] leaves it. *)
Definition opens_header (u : Unlockers) (cek H : bytes) (count blockLen : Z) : Prop :=
  len H = hi_end (mk_hinfo 0 count blockLen) /\
  forall s, readHeader u (H ++ s) = (IOk (KeysV2 cek, mk_hinfo 0 count blockLen), s).

Lemma pipe_lists u cek H count bl es Ls dir offset fin : opens_header u cek H count bl ->
  Forall2 (lists (KeysV2 cek)) es Ls -> dir_ok (KeysV2 cek) dir ->
  List u None (H ++ concat (map encode_entry es) ++ encode_directory dir offset ++ [zb EntryTypeEnd] ++ fin) = Some (concat Ls, None).
Proof.
  intros [_ Hread] Hls Hd. unfold List. rewrite Hread. change (hi_incremental _) with false. cbv iota.
  by rewrite (scanList_entries cek es Ls _ fin Hls (nextEntryType_tail _ _ _ _ Hd)).
Qed.

Lemma random_lists u cek H count bl X recs e signer sum extra stream : opens_header u cek H count bl ->
  let B := H ++ X in
  let archive := (B ++ encode_directory (Some e) (len B) ++ [zb EntryTypeEnd] ++ sum ++ replicate 32 Byte.x00) ++ extra in
  holds_payload cek EntryTypeDirectory (dir_bytes recs) e -> len (dir_bytes recs) <= MaxDirectorySize -> Forall record_wf recs ->
  Forall (fun r => len H <= dr_Offset r < len B) recs -> len sum = HMACSize ->
  match sign_with signer with None => extra = [] | Some sign => sign sum = IOk extra end -> len archive < 2 ^ 63 ->
  List u (Some archive) stream = Some (directoryListing recs, None).
Proof.
  intros [Hend Hread] B archive Hh Hl Hwf Hr Hsum Hx Hlen. pose proof (len_nonneg X) as HX. pose proof (len_nonneg H) as HH.
  set (body := B ++ encode_entry e ++ AppendDirectoryLocator [] (u64 (len B)) ++ [zb EntryTypeEnd] ++ sum).
  assert (archive = (body ++ replicate 32 Byte.x00) ++ extra) as Ha.
  { unfold archive, body, encode_directory. by rewrite <- !app_assoc. }
  destruct (split_written body signer sum extra) as [so Hso]; [|done|].
  { unfold body. rewrite !len_app, Hsum, len_replicate. pose proof (len_nonneg (encode_entry e)).
    pose proof (len_nonneg (AppendDirectoryLocator [] (u64 (len B)))). pose proof (len_nonneg [zb EntryTypeEnd]).
    pose proof (len_nonneg B). unfold FooterSize, ReservedSize. lia. }
  unfold List, listRandom. assert (exists s, archive = H ++ s) as [s Hs].
  { unfold archive, B. rewrite <- !app_assoc. eauto. }
  rewrite Hs at 1. rewrite Hread. change (hi_incremental _) with false. change (ks_Version (KeysV2 cek) =? Version1) with false. cbv iota.
  rewrite (readDirectory_written cek B e recs (body ++ replicate 32 Byte.x00) (sum ++ replicate 32 Byte.x00) extra so _ archive);
    [done|by rewrite Ha; unfold body; rewrite <- !app_assoc|by unfold body; rewrite <- !app_assoc|by rewrite Ha| |done| |done|done|done|by rewrite <- Hend].
  - rewrite len_app, Hsum, len_replicate. done.
  - rewrite <- Hend. unfold B. rewrite len_app. lia.
Qed.

Lemma written_lists (cek block : bytes) (u : Unlockers) (count : Z) (r : rng) aw1 items dir d extra signer :
  let aw := WriteFooter (write_directory dir (after_items aw1 items)) in
  OpenRecipientBlock block u = Opened cek -> len block <= MaxRecipientBlockSize -> 0 <= count < 2 ^ 64 ->
  WriteHeader count r (NewArchiveWriter cek block) = Ok aw1 ->
  match sign_with signer with None => extra = [] | Some sign => sign (aw_checksum aw) = IOk extra end ->
  dir_good cek aw1 (after_items aw1 items) d items -> written_dir cek d dir -> len (aw_out aw ++ extra) < 2 ^ 63 ->
  listings u (aw_out aw ++ extra) (concat (map it_published items)).
Proof.
  cbv zeta. intros Hu Hb Hc Hh Hx (recs & Ls & Hls & Hk & Hfor & _ & Hgood) Hwd Hlen.
  destruct (readHeader_written cek block u count 0 r aw1) as (H & Hw1 & Hread); [done..|].
  assert (aw_offset aw1 = len H) as Hoff1 by (destruct Hw1 as (_ & _ & ->); by rewrite len_nil, Z.add_0_l).
  assert (opens_header u cek H count (len block)) as Hop by (split; [by rewrite <- Hoff1, (fresh_offset _ _ _ _ _ Hh)|done]).
  pose proof (wrote_entries (map it_entry items) _ _ _ Hw1) as Hw. fold (after_items aw1 items) in Hw.
  set (X := concat (map encode_entry (map it_entry items))) in *.
  assert (aw_offset (after_items aw1 items) = len (H ++ X)) as HoffB by (destruct Hw as (_ & _ & ->); by rewrite len_nil, Z.add_0_l).
  pose proof (wrote_directory dir _ _ _ Hw) as Hw2. destruct (WriteFooter_out _ _ _ Hw2) as [Ho Hsum].
  rewrite Ho, Hsum, HoffB, Hoff1 in *. set (sum := sha_sum _) in *. assert (len sum = HMACSize) as Hls' by apply len_sha_sum.
  rewrite <- (app_assoc (H ++ X)) in Hlen |- *.
  destruct Hgood as [Hmap Hrange]; [rewrite len_app, (len_app (H ++ X)) in Hlen; len_lia|].
  exists (concat Ls). split; [rewrite <- Hmap; clear -Hfor; induction Hfor; cbn; constructor; [by apply record_describes|done]|]. split.
  - rewrite <- !app_assoc. apply (pipe_lists u cek H count (len block)); [done|clear -Hls; induction Hls; cbn; by constructor|].
    destruct dir as [e|]; [|done].
    destruct (written_dir_sealed cek d (Some e) recs Hwd Hk e eq_refl) as (pt & r0 & r1 & Hpt & Hs).
    apply payload_entry_framed in Hs as (pm & chunks & Hwf & Hty & Hopen & _); [|done]. split; [done|]. split; [done|]. by exists pm.
  - intros Hcost stream. pose proof (dir_bytes_cost _ _ Hfor) as Hdc. unfold keeps in Hk.
    destruct dir as [e|]; [|cbn in Hwd; rewrite Hwd in Hk; lia]. destruct Hwd as [Hf (r0 & r1 & Hs)]. rewrite Hf in Hk. destruct Hk as (Hp & Hl & Hwf).
    rewrite Hp in Hs. apply sealed_payload in Hs; [|unfold MaxDirectorySize in Hl; lia].
    rewrite (random_lists u cek H count (len block) X recs e signer sum extra stream) by done. unfold directoryListing. by rewrite Hmap.
Qed.

(** C10. Listing an archive gives the same answer both ways. For every archive a concurrent run
    writes, signed or not, scanning it from a pipe lists exactly the files, links and
    directories that extraction restores, in order, with their names, sizes, kinds, modes,
    link targets and times; and reading its directory through random access gives the
    identical listing, buckets, codecs and stored sizes included, without the rest of the
    archive, unless the directory outgrew its limit and was dropped. *)
Theorem listings_agree (toLower : bytes -> bytes) (opts : CompressionOptions) (policy : compressionPolicy)
  (open : bytes -> result hostFile) (f : fs) (cek block : bytes) (u : Unlockers) (count : Z) (r : rng) (aw1 : ArchiveWriter)
  (rnd : nat -> rng * rng) (entries : list inputFile) (signer : option Signer) (out : bytes)
  (Hpol : newCompressionPolicy opts = Ok policy) (Hopen : host_ok open)
  (Hu : OpenRecipientBlock block u = Opened cek) (Hblock : len block <= MaxRecipientBlockSize) (Hcount : 0 <= count < 2 ^ 64)
  (Hhdr : WriteHeader count r (NewArchiveWriter cek block) = Ok aw1)
  (Hin : Forall input_ok entries)
  (Hrun : Archive toLower policy rnd open f entries (sign_with signer) (fresh_arch aw1) = Some (IOk out))
  (Hlen : len out < 2 ^ 63) :
  exists jobs, concat (map job_inputs jobs) ≡ₚ fst (splitSpecial entries) /\
    listings u out (concat (map (job_pubs policy open) jobs) ++ special_pubs (snd (splitSpecial entries))).
Proof.
  pose proof (Forall_split _ Hin) as [Hfiles Hspec].
  destruct (Archive_jobs _ _ _ _ _ _ _ _ _ Hrun) as (jobs & Hj & Ha). exists jobs. split; [done|].
  destruct (archiveJobs_good toLower opts policy Hpol open Hopen cek aw1 rnd jobs (snd (splitSpecial entries)) (sign_with signer) _ out (fresh_good _ _ _ _ _ _ Hhdr))
    as (a1 & a2 & He & Hw & Hf); [by rewrite Hj|done|done|].
  destruct (finish_good toLower cek aw1 rnd _ _ _ _ _ _ _ (fresh_good _ _ _ _ _ _ Hhdr) He Hspec Hw Hf)
    as (items & dir & extra & d & -> & Hx & _ & Hd & Hwd & <- & _). by eapply written_lists.
Qed.
End Listings.

Lemma listings_agree_witness : exists out jobs, signed_run = Some (IOk out) /\
  concat (map job_inputs jobs) ≡ₚ fst (splitSpecial sample_entries) /\
  @listings toy_crypto toy_zstd toy_age sample_unlockers out
    (concat (map (job_pubs sample_policy sample_host) jobs) ++ special_pubs (snd (splitSpecial sample_entries))).
Proof.
  assert (match signed_run with Some (IOk out) => len out <? 2 ^ 63 | _ => false end = true) as Hok by (vm_compute; reflexivity).
  destruct (run_ok_inv signed_run) as [out Hrun]; [by destruct signed_run as [[?|?]|]|]. rewrite Hrun in Hok. exists out.
  destruct (@listings_agree toy_crypto toy_laws toy_zstd toy_zstd_laws toy_sha toy_sha_laws toy_age toy_ssh
    (fun b => b) (mk_copts CompressionNever 3 true) sample_policy sample_host sample_fs sample_cek sample_block sample_unlockers
    4 toy_rng sample_aw1 (fun _ => (toy_rng, toy_rng)) sample_entries (Some toy_signer) out) as (jobs & Hj & Hl).
  - reflexivity.
  - apply sample_host_ok.
  - vm_compute. reflexivity.
  - vm_compute. discriminate.
  - lia.
  - apply sample_aw1_header.
  - apply sample_entries_ok.
  - exact Hrun.
  - apply Z.ltb_lt. exact Hok.
  - exists jobs. split; [exact Hrun|]. split; [exact Hj|]. exact Hl.
Defined.
