(* ===== verification/Float64.v ===== *)
(** * Go's float64, where the program uses it

    Sizes given on the command line and the ratios and sizes printed go through float64. A
    non-negative finite float64 is [m * 2 ^ e] with [0 <= m < 2 ^ 53] and [-1074 <= e]; every
    operation is the exact rational result rounded to nearest, ties to even. *)

From stdpp Require Import numbers.
From S2P Require Import Prelude Bytes.
Open Scope go_scope.

(** [num / den] rounded to the nearest integer, ties to even. *)
Definition round_even (num den : Z) : Z :=
  let q := num / den in
  match 2 * (num mod den) ?= den with
  | Lt => q
  | Gt => q + 1
  | Eq => if Z.even q then q else q + 1
  end.

Record f64 := mk_f64 { fl_m : Z; fl_e : Z }.

(** The value as a fraction. *)
Definition fl_num (x : f64) : Z := fl_m x * 2 ^ Z.max 0 (fl_e x).
Definition fl_den (x : f64) : Z := 2 ^ Z.max 0 (- fl_e x).

(** The exponent with which [num / den] has 53 bits before the point, or the least there is. *)
Definition exponent (num den : Z) : Z :=
  let e := Z.log2 num - Z.log2 den - 53 in
  let e := if num * 2 ^ Z.max 0 (- e) <? den * 2 ^ Z.max 0 e * 2 ^ 53 then e else e + 1 in
  Z.max e (-1074).

(** The float64 nearest to [num / den], [None] for one past the largest. *)
Definition f64_round (num den : Z) : option f64 :=
  if num =? 0 then Some (mk_f64 0 0)
  else
    let e := exponent num den in
    let x := mk_f64 (round_even (num * 2 ^ Z.max 0 (- e)) (den * 2 ^ Z.max 0 e)) e in
    if 2 ^ 1024 * fl_den x <=? fl_num x then None else Some x.

Definition f64_of_Z (z : Z) : option f64 := f64_round z 1.

(** Products and quotients; [None] is +Inf. *)
Definition f64_mul (x y : f64) : option f64 := f64_round (fl_num x * fl_num y) (fl_den x * fl_den y).
Definition f64_div (x y : f64) : option f64 := f64_round (fl_num x * fl_den y) (fl_den x * fl_num y).

(** [int64(x)], for values that fit. *)
Definition f64_trunc (x : f64) : Z := fl_num x / fl_den x.

(** [x] as a decimal with [prec] places, as [%.*f] prints it: the exact value rounded to
    nearest, ties to even. *)
Definition f64_scaled (prec : Z) (x : f64) : Z := round_even (fl_num x * 10 ^ prec) (fl_den x).

(** ** Rounding *)

Lemma round_even_exact q den : 0 < den -> round_even (q * den) den = q.
Proof.
  intros Hd. unfold round_even. rewrite Z.mod_mul, Z.div_mul by lia. rewrite Z.mul_0_r, (proj2 (Z.compare_lt_iff 0 den)) by done. done.
Qed.

(** At most half away. *)
Lemma round_even_near num den : 0 < den -> 2 * Z.abs (round_even num den * den - num) <= den.
Proof.
  intros Hd. unfold round_even. pose proof (Z.div_mod num den ltac:(lia)) as Hdm. pose proof (Z.mod_pos_bound num den Hd).
  set (q := num / den) in *. set (r := num mod den) in *.
  destruct (Z.compare_spec (2 * r) den); [destruct (Z.even q)| |]; nia.
Qed.

Lemma fl_den_pos x : 0 < fl_den x.
Proof. unfold fl_den. apply Z.pow_pos_nonneg; lia. Qed.

(** An integer that fits in 53 bits is exact. *)
Lemma f64_round_exact z den : 0 <= z < 2 ^ 53 -> 0 < den -> exists x, f64_round (z * den) den = Some x /\ fl_num x = z * fl_den x.
Proof.
  intros Hz Hd. unfold f64_round. destruct (Z.eqb_spec (z * den) 0) as [H0|H0].
  { exists (mk_f64 0 0). split; [done|]. assert (z = 0) as -> by nia. done. }
  assert (0 < z) by nia. set (e := exponent (z * den) den).
  assert (e <= 0) as He.
  { unfold e, exponent. apply Z.max_lub; [|lia]. pose proof (Z.log2_mul_above z den ltac:(lia) ltac:(lia)) as Hl.
    assert (Z.log2 z < 53) by (apply Z.log2_lt_pow2; lia). set (e0 := Z.log2 (z * den) - Z.log2 den - 53) in *.
    destruct (Z.eq_dec e0 0) as [->|]; [|destruct (_ <? _); lia]. cbn [Z.opp Z.max Z.compare]. rewrite !Z.mul_1_r.
    destruct (Z.ltb_spec (z * den) (den * 2 ^ 53)); [lia|nia]. }
  rewrite (Z.max_l 0 e), (Z.max_r 0 (- e)) by lia. replace (z * den * 2 ^ (- e)) with (z * 2 ^ (- e) * den) by ring.
  rewrite Z.mul_1_r, round_even_exact by done. cbn [fl_num fl_den fl_m fl_e]. unfold fl_num, fl_den. cbn [fl_m fl_e].
  rewrite (Z.max_l 0 e), (Z.max_r 0 (- e)) by lia. assert (0 < 2 ^ (- e)) by (apply Z.pow_pos_nonneg; lia).
  destruct (Z.leb_spec (2 ^ 1024 * 2 ^ (- e)) (z * 2 ^ (- e) * 2 ^ 0)) as [Hb|_].
  - exfalso. assert (2 ^ 53 < 2 ^ 1024) by (apply Z.pow_lt_mono_r; lia). rewrite Z.mul_1_r in Hb.
    assert (2 ^ 1024 <= z) by (eapply Z.mul_le_mono_pos_r; eauto). lia.
  - eexists. split; [done|]. cbn [fl_m fl_e]. rewrite (Z.max_l 0 e), (Z.max_r 0 (- e)) by lia. lia.
Qed.
