(* ===== verification/Storage.v ===== *)
(** * Storage locations and the local backend (storage/storage.go, storage/local/local.go)

    Locations written as [scheme://bucket/key], the registry of backends by scheme, and the
    backend that writes local files through a temporary file. Strings are their bytes;
    [strings.ToLower] is a parameter that is only relied on for ASCII. *)

From stdpp Require Import gmap.
From S2P Require Import Prelude Bytes IndexCodec Names Inputs SolidPlan.
Open Scope go_scope.

(** ** Locations *)

Record Location := mk_loc_url { loc_Scheme : bytes; loc_Bucket : bytes; loc_Key : bytes }.

Definition scheme_sep : bytes := str "://".

Definition Location_String (l : Location) : bytes := loc_Scheme l ++ scheme_sep ++ loc_Bucket l ++ [slash] ++ loc_Key l.

(** [strings.Cut]: around the first [sep]. *)
Fixpoint cut (sep s : bytes) : option (bytes * bytes) :=
  if has_prefix sep s then Some ([], zdrop (len sep) s)
  else match s with
       | [] => None
       | c :: s => match cut sep s with Some (a, b) => Some (c :: a, b) | None => None end
       end.

Definition is_upper (c : byte) : bool := (65 <=? bz c) && (bz c <=? 90).
Definition is_lower (c : byte) : bool := (97 <=? bz c) && (bz c <=? 122).
Definition ascii_digit (c : byte) : bool := (48 <=? bz c) && (bz c <=? 57).

Definition scheme_first (c : byte) : bool := is_lower c || is_upper c.
Definition scheme_rest (c : byte) : bool :=
  scheme_first c || ascii_digit c || (bz c =? 43) || (bz c =? 45) || (bz c =? 46).

Definition validScheme (s : bytes) : bool :=
  if len s <? 2 then false
  else match s with [] => false | c :: s => scheme_first c && forallb scheme_rest s end.

Definition has_suffix (p b : bytes) : bool := bytes_eqb (zdrop (len b - len p) b) p.

Definition lower_byte (c : byte) : byte := if is_upper c then zb (bz c + 32) else c.

(** [None]: not a URL. A valid scheme is ASCII, where [strings.ToLower] is [lower_byte] on
    each byte. *)
Definition ParseLocation (raw : bytes) : option (result Location) :=
  match cut scheme_sep raw with
  | None => None
  | Some (scheme, rest) =>
      if negb (validScheme scheme) then None
      else
        let '(bucket, key) := match cut [slash] rest with Some bk => bk | None => (rest, []) end in
        if bytes_eqb key [] || has_suffix [slash] key then Some (errorf ErrOther "location needs an object key")
        else Some (Ok (mk_loc_url (map lower_byte scheme) bucket key))
  end.

(** ** The registry *)

Section Registry.
Context (toLower : bytes -> bytes) {Factory : Type}.

Definition Registry : Type := gmap bytes Factory.
Definition NewRegistry : Registry := ∅.

Definition Register (scheme : bytes) (f : Factory) (r : Registry) : result Registry :=
  let scheme := toLower scheme in
  if negb (validScheme scheme) then errorf ErrOther "invalid scheme"
  else match r !! scheme with
       | Some _ => errorf ErrOther "scheme registered twice"
       | None => Ok (<[scheme := f]> r)
       end.

(** [Backend], given how a factory makes the backend of a bucket. *)
Definition registry_Backend {B} (make : Factory -> bytes -> result B) (loc : Location) (r : Registry) : result B :=
  match r !! loc_Scheme loc with
  | None => errorf ErrOther "unsupported scheme"
  | Some f => make f (loc_Bucket loc)
  end.

Definition Schemes (r : Registry) : list bytes := stable_sort bytes_ltb (map fst (map_to_list r)).
End Registry.

(** ** Writers *)

(** The calls of the [Writer] interface on the states [W] of a backend with one object: how
    many bytes a write took, whether the call succeeded, and the state it leaves. *)
Class StorageWriter (W : Type) := {
  sw_object : W -> option bytes;
  sw_Write : bytes -> W -> Z -> bool -> W -> Prop;
  sw_Close : W -> bool -> W -> Prop;
  sw_Abort : W -> bool -> W -> Prop
}.

(** What the interface promises: nothing appears until [Close], which commits what was
    written; [Abort] discards it; only the first call to either has any effect. A failed
    [Close] may have committed when only its answer was lost. [sw_open old acc] are the
    states of a writer created over the object [old] that has taken the bytes [acc]. *)
Class StorageWriterLaws (W : Type) `{StorageWriter W} := {
  sw_open : option bytes -> bytes -> W -> Prop;
  sw_done : W -> Prop;
  sw_open_object : forall old acc w, sw_open old acc w -> sw_object w = old;
  sw_open_write : forall old acc w p n ok w', sw_open old acc w -> sw_Write p w n ok w' ->
    sw_open old (acc ++ ztake n p) w' /\ (ok = true -> ztake n p = p);
  sw_open_close : forall old acc w ok w', sw_open old acc w -> sw_Close w ok w' ->
    sw_done w' /\ (sw_object w' = Some acc \/ (ok = false /\ sw_object w' = old));
  sw_open_abort : forall old acc w ok w', sw_open old acc w -> sw_Abort w ok w' -> sw_done w' /\ sw_object w' = old;
  sw_done_close : forall w ok w', sw_done w -> sw_Close w ok w' -> sw_done w' /\ sw_object w' = sw_object w;
  sw_done_abort : forall w ok w', sw_done w -> sw_Abort w ok w' -> sw_done w' /\ sw_object w' = sw_object w
}.

(** ** Parsing and printing *)

Lemma has_prefix_spec p b : has_prefix p b = true <-> exists r, b = p ++ r.
Proof.
  unfold has_prefix. rewrite bytes_eqb_true. split.
  - intros H. exists (zdrop (len p) b). rewrite <- H at 1. symmetry. apply ztake_zdrop.
  - intros [r ->]. by apply ztake_app.
Qed.

Lemma has_prefix_split p b : has_prefix p b = true -> b = p ++ zdrop (len p) b.
Proof. intros H. apply has_prefix_spec in H as [r ->]. by rewrite zdrop_app. Qed.

Lemma cut_prefix sep s : has_prefix sep s = true -> cut sep s = Some ([], zdrop (len sep) s).
Proof. intros H. destruct s; cbn [cut]; by rewrite H. Qed.

Lemma cut_spec sep s : forall a b, cut sep s = Some (a, b) -> s = a ++ sep ++ b.
Proof.
  induction s as [|c s IH]; intros a b; cbn [cut]; destruct (has_prefix sep _) eqn:E;
    try (intros [= <- <-]; by apply has_prefix_split).
  destruct (cut sep s) as [[a' b']|]; [|done]. intros [= <- <-]. by rewrite (IH a' b' eq_refl).
Qed.

(** A separator is found where it first occurs: its first byte does not occur before. *)
Lemma cut_first c sep a b : c ∉ a -> cut (c :: sep) (a ++ (c :: sep) ++ b) = Some (a, b).
Proof.
  induction a as [|x a IH]; intros Hc.
  - rewrite app_nil_l, cut_prefix by (apply has_prefix_spec; eauto). by rewrite zdrop_app.
  - cbn [app cut]. destruct (has_prefix (c :: sep) (x :: _)) eqn:E.
    { apply has_prefix_spec in E as [r [= -> _]]. set_solver. }
    cbn [app] in IH. by rewrite IH by set_solver.
Qed.

Lemma cut_before sep s : forall a b, length sep = 1%nat -> cut sep s = Some (a, b) -> Forall (fun c => [c] <> sep) a.
Proof.
  intros a b Hl. revert a b. induction s as [|c s IH]; intros a b; cbn [cut]; destruct (has_prefix sep _) eqn:E; try (by intros [= <- <-]).
  destruct (cut sep s) as [[a' b']|]; [|done]. intros [= <- <-]. constructor; [|by eapply IH]. intros <-.
  assert (has_prefix [c] (c :: s) = true) by (apply has_prefix_spec; by exists s). congruence.
Qed.

Lemma scheme_rest_range c : scheme_rest c = true -> c <> zb 58.
Proof. intros H ->. vm_compute in H. discriminate. Qed.

Lemma validScheme_bytes s : validScheme s = true -> zb 58 ∉ s.
Proof.
  unfold validScheme. destruct (len s <? 2); [done|]. destruct s as [|c s]; [done|]. intros Hv.
  apply andb_true_iff in Hv as [Hc Hs]. rewrite forallb_forall in Hs. intros Hin. apply list_elem_of_In in Hin as [Heq|Hin].
  - subst c. vm_compute in Hc. discriminate.
  - apply Hs in Hin. by apply scheme_rest_range in Hin.
Qed.

Lemma has_suffix_last c s x : has_suffix [c] (s ++ [x]) = bool_decide (x = c).
Proof.
  unfold has_suffix, bytes_eqb. rewrite len_app, !len_cons, !(len_nil (A := byte)). replace (len s + (1 + 0) - (1 + 0)) with (len s) by lia.
  rewrite zdrop_app by done. apply bool_decide_ext. split; congruence.
Qed.

(** A key is usable when it is not empty and does not end in a slash. *)
Definition key_ok (key : bytes) : Prop := key <> [] /\ has_suffix [slash] key = false.

Lemma ParseLocation_spec raw l : ParseLocation raw = Some (Ok l) <->
  exists scheme, validScheme scheme = true /\ loc_Scheme l = map lower_byte scheme /\ (slash ∉ loc_Bucket l) /\ key_ok (loc_Key l) /\
    raw = Location_String (mk_loc_url scheme (loc_Bucket l) (loc_Key l)).
Proof.
  unfold ParseLocation. split.
  - destruct (cut scheme_sep raw) as [[scheme rest]|] eqn:Ec; [|done]. apply cut_spec in Ec as ->.
    destruct (validScheme scheme) eqn:Ev; [|done]. cbn [negb]. intros H. exists scheme. split; [done|].
    destruct (cut [slash] rest) as [[bucket key]|] eqn:Eb.
    + destruct (bytes_eqb key [] || _) eqn:Ek; [done|]. apply orb_false_iff in Ek as [Ek1 Ek2]. injection H as <-. cbn.
      split; [done|]. split; [|split; [split; [|done]|]].
      * pose proof (cut_before [slash] _ _ _ eq_refl Eb) as Hf. rewrite Forall_forall in Hf. intros Hin. by apply Hf in Hin.
      * intros ->. by rewrite bytes_eqb_refl in Ek1.
      * apply cut_spec in Eb as ->. done.
    + by rewrite bytes_eqb_refl in H.
  - intros (scheme & Hv & Hs & Hb & [Hk1 Hk2] & ->). unfold Location_String. cbn [loc_Scheme loc_Bucket loc_Key].
    assert (cut scheme_sep (scheme ++ scheme_sep ++ loc_Bucket l ++ [slash] ++ loc_Key l) = Some (scheme, loc_Bucket l ++ [slash] ++ loc_Key l)) as Hcut
      by (apply (cut_first (zb 58)); by apply validScheme_bytes).
    rewrite Hcut, Hv. cbn [negb].
    assert (cut [slash] (loc_Bucket l ++ [slash] ++ loc_Key l) = Some (loc_Bucket l, loc_Key l)) as -> by (by apply (cut_first slash [])).
    destruct (bytes_eqb (loc_Key l) []) eqn:E; [by apply bytes_eqb_true in E|]. rewrite Hk2. cbn [orb]. rewrite <- Hs. by destruct l.
Qed.

Lemma lower_byte_classes c : scheme_first (lower_byte c) = scheme_first c /\ scheme_rest (lower_byte c) = scheme_rest c /\
  lower_byte (lower_byte c) = lower_byte c.
Proof. by destruct c. Qed.

Lemma validScheme_lower s : validScheme (map lower_byte s) = validScheme s.
Proof.
  unfold validScheme. rewrite len_map. destruct (len s <? 2); [done|]. destruct s as [|c s]; [done|]. cbn [map].
  destruct (lower_byte_classes c) as (-> & _ & _). f_equal. induction s as [|d s IH]; [done|].
  cbn [map forallb]. destruct (lower_byte_classes d) as (_ & -> & _). by rewrite IH.
Qed.

Lemma lower_idempotent s : map lower_byte (map lower_byte s) = map lower_byte s.
Proof. induction s as [|c s IH]; [done|]. cbn [map]. destruct (lower_byte_classes c) as (_ & _ & ->). by rewrite IH. Qed.

(** Locations parse and print consistently. A string is accepted as the location of an
    object exactly when it reads [scheme://bucket/key] with a valid scheme, a bucket
    without a slash and a usable key, and then the location has those very parts, the
    scheme in lower case; and printing that location and parsing it again gives it back,
    whatever percent signs, question marks or further slashes its key has. *)
Theorem location_roundtrip (raw : bytes) (l : Location) :
  (ParseLocation raw = Some (Ok l) <->
  exists scheme, validScheme scheme = true /\ loc_Scheme l = map lower_byte scheme /\ (slash ∉ loc_Bucket l) /\ key_ok (loc_Key l) /\
    raw = Location_String (mk_loc_url scheme (loc_Bucket l) (loc_Key l))) /\
  (ParseLocation raw = Some (Ok l) -> ParseLocation (Location_String l) = Some (Ok l)).
Proof.
  split; [apply ParseLocation_spec|]. intros H. apply ParseLocation_spec in H as (scheme & Hv & Hs & Hb & Hk & _).
  apply ParseLocation_spec. exists (loc_Scheme l). rewrite Hs, validScheme_lower, lower_idempotent. split_and!; try done.
  rewrite <- Hs. by destruct l.
Qed.
