(* ===== verification/LocalStore.v ===== *)
(** * The local storage backend (storage/local/local.go)

    Objects are files of an abstract disk. A writer fills a temporary file beside the target
    and renames it into place on [Close]; each system call may fail, as an argument says. *)

From stdpp Require Import gmap.
From S2P Require Import Prelude Bytes Names IOErrors Storage.
Open Scope go_scope.

Abbreviation disk := (gmap bytes bytes).

(** [New]: the host must be empty or localhost. *)
Definition local_New (host : bytes) : result unit :=
  if negb (bytes_eqb host []) && negb (bytes_eqb host (str "localhost"))
  then errorf ErrOther "file:// locations cannot name a remote host" else Ok tt.

(** [path], where the separator is a slash. *)
Definition local_path (key : bytes) : bytes := [slash] ++ key.

Record localWriter := mk_lw { lw_temp : bytes; lw_target : bytes; lw_done : bool }.

(** [Create]: [os.CreateTemp] gives a new, empty file beside the target, or fails. *)
Definition local_Create (temp : result bytes) (key : bytes) (d : disk) : result (localWriter * disk) :=
  match temp with
  | Err e => Err e
  | Ok t => Ok (mk_lw t (local_path key) false, <[t := []]> d)
  end.

Definition file_content (d : disk) (p : bytes) : bytes := default [] (d !! p).

(** [Write]: [fail] is how many bytes a failing write gets out; a closed file takes none. *)
Definition local_Write (p : bytes) (fail : option Z) (w : localWriter) (d : disk) : Z * bool * disk :=
  if lw_done w then (0, false, d)
  else
    let n := match fail with None => len p | Some k => Z.max 0 (Z.min k (len p)) end in
    (n, match fail with None => true | Some _ => false end,
     <[lw_temp w := file_content d (lw_temp w) ++ ztake n p]> d).

Definition os_Rename (a b : bytes) (d : disk) : disk :=
  match d !! a with Some c => <[b := c]> (delete a d) | None => d end.

Definition close_writer (w : localWriter) : localWriter := mk_lw (lw_temp w) (lw_target w) true.

(** [Close]: whether [Sync], [Close], [Rename] and, on a failure, [Remove] succeed. *)
Definition local_Close (sync close rename remove : bool) (w : localWriter) (d : disk) : bool * localWriter * disk :=
  if lw_done w then (true, w, d)
  else if sync && close && rename then (true, close_writer w, os_Rename (lw_temp w) (lw_target w) d)
  else (false, close_writer w, if remove then delete (lw_temp w) d else d).

Definition local_Abort (remove : bool) (w : localWriter) (d : disk) : bool * localWriter * disk :=
  if lw_done w then (true, w, d)
  else (remove, close_writer w, if remove then delete (lw_temp w) d else d).

(** ** Reading *)

(** [Open] on what [os.Stat] found. *)
Inductive statResult := StatMissing | StatFailed | StatFile (regular : bool) (size : Z).

Definition local_Open (st : statResult) : result Z :=
  match st with
  | StatMissing => errorf ErrOther "object not found"
  | StatFailed => errorf ErrOther "open failed"
  | StatFile regular size => if regular then Ok size else errorf ErrOther "not a regular file"
  end.

(** [NewRangeReader]: the bytes an [io.SectionReader] of the file gives, to the end of the
    size seen at [Open] when [length] is negative. *)
Definition local_NewRangeReader (size : Z) (content : result bytes) (offset length : Z) : result bytes :=
  match content with
  | Err e => Err e
  | Ok c => Ok (ztake (if length <? 0 then size - offset else length) (zdrop offset c))
  end.

(** ** Commits are atomic *)

(** The calls a client makes on one writer, with what the system does. *)
Inductive localCall :=
  | CallWrite (p : bytes) (fail : option Z)
  | CallClose (sync close rename remove : bool)
  | CallAbort (remove : bool).

(** The writer, the disk, the bytes that writes reported written, and whether a [Close]
    committed them. *)
Record localRun := mk_lrun { lr_w : localWriter; lr_disk : disk; lr_written : bytes; lr_committed : bool }.

Definition local_call (c : localCall) (s : localRun) : localRun :=
  match c with
  | CallWrite p fail =>
      let '(n, _, d) := local_Write p fail (lr_w s) (lr_disk s) in
      mk_lrun (lr_w s) d (lr_written s ++ ztake n p) (lr_committed s)
  | CallClose sync close rename remove =>
      let '(ok, w, d) := local_Close sync close rename remove (lr_w s) (lr_disk s) in
      mk_lrun w d (lr_written s) (lr_committed s || (ok && negb (lw_done (lr_w s))))
  | CallAbort remove =>
      let '(_, w, d) := local_Abort remove (lr_w s) (lr_disk s) in mk_lrun w d (lr_written s) (lr_committed s)
  end.

Record run_good (d0 : disk) (temp target : bytes) (s : localRun) : Prop := {
  rg_writer : lw_temp (lr_w s) = temp /\ lw_target (lr_w s) = target;
  rg_target : lr_disk s !! target = if lr_committed s then Some (lr_written s) else d0 !! target;
  rg_temp : lw_done (lr_w s) = false -> lr_disk s !! temp = Some (lr_written s) /\ lr_committed s = false;
  rg_others : forall p, p <> temp -> p <> target -> lr_disk s !! p = d0 !! p;
  rg_gone : lr_committed s = true -> lr_disk s !! temp = None
}.

Ltac lr_simpl := cbn [lr_w lr_disk lr_written lr_committed lw_temp lw_target lw_done close_writer default id].

Lemma local_call_good d0 temp target c s : temp <> target -> run_good d0 temp target s -> run_good d0 temp target (local_call c s).
Proof.
  intros Hne [[Ht Hg] Htar Htmp Hoth Hgone]. destruct c as [p fail|sync close rename remove|remove]; cbn [local_call].
  - unfold local_Write. destruct (lw_done (lr_w s)) eqn:Ed; cbn.
    + rewrite ztake_0, app_nil_r. split; lr_simpl; try done. by rewrite Ed.
    + destruct (Htmp eq_refl) as [Hc Hcom]. rewrite Ht, Hcom in *. unfold file_content. rewrite Hc. lr_simpl.
      split; lr_simpl; [done|by rewrite lookup_insert_ne by done| |intros q ? ?; rewrite lookup_insert_ne by done; by apply Hoth|done].
      intros _. by rewrite lookup_insert_eq.
  - unfold local_Close. destruct (lw_done (lr_w s)) eqn:Ed.
    { lr_simpl; cbn [andb negb]. rewrite orb_false_r. split; lr_simpl; try done. by rewrite Ed. }
    destruct (Htmp eq_refl) as [Hc Hcom]. rewrite Ht, Hg, Hcom in *. cbn [orb negb andb]. destruct (sync && close && rename); lr_simpl.
    + unfold os_Rename. rewrite Hc. split; lr_simpl; [done|by rewrite lookup_insert_eq|done| |].
      * intros q ? ?. rewrite lookup_insert_ne, lookup_delete_ne by done. by apply Hoth.
      * intros _. rewrite lookup_insert_ne by done. apply lookup_delete_eq.
    + split; lr_simpl; [done|destruct remove; [by rewrite lookup_delete_ne by done|done]|done| |done].
      intros q ? ?. destruct remove; [rewrite lookup_delete_ne by done|]; by apply Hoth.
  - unfold local_Abort. destruct (lw_done (lr_w s)) eqn:Ed; lr_simpl; [split; lr_simpl; try done; by rewrite Ed|].
    destruct (Htmp eq_refl) as [Hc Hcom]. rewrite Ht, Hcom in *.
    split; lr_simpl; [done|destruct remove; [by rewrite lookup_delete_ne by done|done]|done| |done].
    intros q ? ?. destruct remove; [rewrite lookup_delete_ne by done|]; by apply Hoth.
Qed.

(** Local objects appear whole or not at all. Whatever calls a client makes on a writer, in
    whatever order, and whichever system calls fail, the target holds what it held before
    until the first [Close] succeeds, and from then on exactly the bytes the writes
    reported written; no other file than the target and the temporary one is touched, and
    none is left behind by a commit. *)
Theorem local_commit_atomic (d0 : disk) (temp key : bytes) (calls : list localCall) (Hne : temp <> local_path key) (w : localWriter) (d : disk)
  (Hcreate : local_Create (Ok temp) key d0 = Ok (w, d)) :
  let s := foldl (fun s c => local_call c s) (mk_lrun w d [] false) calls in
  lr_disk s !! local_path key = (if lr_committed s then Some (lr_written s) else d0 !! local_path key) /\
  (forall p, p <> temp -> p <> local_path key -> lr_disk s !! p = d0 !! p) /\
  (lr_committed s = true -> lr_disk s !! temp = None).
Proof.
  cbv zeta. injection Hcreate as <- <-.
  assert (forall s, run_good d0 temp (local_path key) s -> run_good d0 temp (local_path key) (foldl (fun s c => local_call c s) s calls)) as Hrun.
  { induction calls as [|c calls IH]; intros s Hs; [done|]. cbn [foldl]. by apply IH, local_call_good. }
  destruct (Hrun (mk_lrun (mk_lw temp (local_path key) false) (<[temp:=[]]> d0) [] false)) as [_ Htar _ Hoth Hgone]; [|done].
  split; lr_simpl; [done|by rewrite lookup_insert_ne by done|intros _; by rewrite lookup_insert_eq|intros p ? ?; by rewrite lookup_insert_ne by done|done].
Qed.

Lemma local_commit_atomic_witness :
  let s := foldl (fun s c => local_call c s) (mk_lrun (mk_lw (str "/tmp/.a.partial") (local_path (str "tmp/a")) false)
    (<[str "/tmp/.a.partial" := []]> (<[str "/tmp/a" := str "old"]> ∅)) [] false)
    [CallWrite (str "ne") None; CallWrite (str "wer") (Some 1); CallClose true true true true; CallAbort true] in
  lr_disk s !! local_path (str "tmp/a") = (if lr_committed s then Some (lr_written s) else Some (str "old")) /\ lr_written s = str "new".
Proof.
  split; [|vm_compute; reflexivity].
  apply (local_commit_atomic (<[str "/tmp/a" := str "old"]> ∅) (str "/tmp/.a.partial") (str "tmp/a")
    [CallWrite (str "ne") None; CallWrite (str "wer") (Some 1); CallClose true true true true; CallAbort true]).
  - vm_compute. discriminate.
  - reflexivity.
Defined.

(** ** The interface *)

Section LocalInterface.
Context (temp target : bytes) (Hne : temp <> target).

(** A local writer of [target], whichever of its system calls fail. *)
#[local] Instance local_writer : StorageWriter (localWriter * disk) := {
  sw_object wd := wd.2 !! target;
  sw_Write p wd n ok wd' := exists fail, local_Write p fail wd.1 wd.2 = (n, ok, wd'.2) /\ wd'.1 = wd.1;
  sw_Close wd ok wd' := exists sync close rename remove, local_Close sync close rename remove wd.1 wd.2 = (ok, wd'.1, wd'.2);
  sw_Abort wd ok wd' := exists remove, local_Abort remove wd.1 wd.2 = (ok, wd'.1, wd'.2)
}.

Definition local_open (old : option bytes) (acc : bytes) (wd : localWriter * disk) : Prop :=
  wd.1 = mk_lw temp target false /\ wd.2 !! temp = Some acc /\ wd.2 !! target = old.

#[local, refine] Instance local_writer_laws : StorageWriterLaws (localWriter * disk) := {
  sw_open := local_open;
  sw_done wd := lw_done wd.1 = true;
  sw_open_object := _;
  sw_open_write := _;
  sw_open_close := _;
  sw_open_abort := _;
  sw_done_close := _;
  sw_done_abort := _
}.
Proof.
  - by intros old acc wd (_ & _ & ?).
  - intros old acc [w d] p n ok [w' d'] (Hw & Ht & Hg) (fail & H & Hw'). cbn in *. subst w w'. injection H as <- <- <-. unfold file_content.
    rewrite Ht. split; [split; [done|]; cbn; rewrite lookup_insert_eq, lookup_insert_ne by done; done|]. destruct fail; [done|]. by rewrite ztake_all.
  - intros old acc [w d] ok [w' d'] (Hw & Ht & Hg) (sync & close & rename & remove & H). cbn in *. subst w. unfold local_Close in H. cbn [lw_done] in H.
    destruct (sync && close && rename); injection H as <- <- <-; cbn; (split; [done|]).
    + left. unfold os_Rename. by rewrite Ht, lookup_insert_eq.
    + right. split; [done|]. destruct remove; [by rewrite lookup_delete_ne|done].
  - intros old acc [w d] ok [w' d'] (Hw & Ht & Hg) (remove & H). cbn in *. subst w. unfold local_Abort in H. cbn in H. injection H as <- <- <-. cbn.
    split; [done|]. destruct remove; [by rewrite lookup_delete_ne|done].
  - intros [w d] ok [w' d'] Hd (sync & close & rename & remove & H). cbn in *. unfold local_Close in H. rewrite Hd in H. by injection H as <- <- <-.
  - intros [w d] ok [w' d'] Hd (remove & H). cbn in *. unfold local_Abort in H. rewrite Hd in H. by injection H as <- <- <-.
Defined.
End LocalInterface.
