(* ===== verification/RangeReader.v ===== *)
(** * Resumable reads of stored objects (storage/reader.go)

    [rangeReader] reads a byte range of an object over connections that may fail to open
    or break off, reopening at the current offset after a growing delay; [readerAt] reads
    one range per call. The object is a parameter: what each attempt to open it gives, and
    what each connection then delivers. [None] is running out of fuel, which
    [rr_Read_spec] excludes. *)

From S2P Require Import Prelude Bytes.
Open Scope go_scope.

(** Errors by what [errors.Is] finds in them. *)
Inductive serr :=
  | SNotFound
  | SObjectChanged
  | SUnexpectedEOF
  | SOther (msg : string)
  | SExhausted (off attempts : Z) (cause : serr).

Fixpoint permanent (e : serr) : bool :=
  match e with
  | SNotFound | SObjectChanged => true
  | SUnexpectedEOF | SOther _ => false
  | SExhausted _ _ e => permanent e
  end.

(** How a read ends: [io.EOF] or a failure. *)
Inductive rdend := REOF | RFail (e : serr).

(** An open connection: what its successive reads deliver, [io.EOF] after the last. *)
Definition body : Type := list (bytes * option rdend).

(** [Read] into a buffer of [n] bytes: a piece that does not fit is delivered in parts, its
    error with the last. *)
Definition body_Read (n : Z) (b : body) : bytes * option rdend * body :=
  match b with
  | [] => ([], Some REOF, [])
  | (piece, e) :: b => if len piece <=? n then (piece, e, b) else (ztake n piece, None, (zdrop n piece, e) :: b)
  end.

(** An object: its size, and what the [k]-th request for [length] bytes at [offset] gives. *)
Record object := mk_object { obj_Size : Z; obj_NewRangeReader : nat -> Z -> Z -> serr + body }.

Definition maxConsecutiveResumes : Z := 5.
Definition resumeBaseDelay : Z := 200 * 1000000.
Definition resumeMaxDelay : Z := 5 * 1000000000.

(** [rr_opens] and [rr_waits] count the requests made and the failures handled. *)
Record rangeReader := mk_rr {
  rr_off : Z;
  rr_end : Z;
  rr_body : option body;
  rr_resumes : Z;
  rr_opens : nat;
  rr_waits : nat;
  rr_slept : list Z
}.

Definition newRangeReader (off fin : Z) : rangeReader := mk_rr off fin None 0 0 0 [].

(** ** Reading *)

Section RangeReader.
Context (obj : object).
(** Whether the context has ended at the [n]-th failure, and whether it ends during the
    wait after it. *)
Context (canceled interrupted : nat -> bool).

Definition backoff (e : serr) (r : rangeReader) : option serr * rangeReader :=
  let waited := mk_rr (rr_off r) (rr_end r) (rr_body r) (rr_resumes r) (rr_opens r) (S (rr_waits r)) (rr_slept r) in
  if canceled (rr_waits r) || permanent e then (Some e, waited)
  else if maxConsecutiveResumes <=? rr_resumes r then (Some (SExhausted (rr_off r) (rr_resumes r + 1) e), waited)
  else
    let delay := Z.min (Z.shiftl resumeBaseDelay (rr_resumes r)) resumeMaxDelay in
    let r' := mk_rr (rr_off r) (rr_end r) (rr_body r) (rr_resumes r + 1) (rr_opens r) (S (rr_waits r)) (rr_slept r ++ [delay]) in
    if interrupted (rr_waits r) then (Some e, r') else (None, r').

(** The connection to read from: the open one, or a new one at the current offset. *)
Definition rr_connect (r : rangeReader) : (serr + body) * rangeReader :=
  match rr_body r with
  | Some b => (inr b, r)
  | None =>
      let res := obj_NewRangeReader obj (rr_opens r) (rr_off r) (rr_end r - rr_off r) in
      (res, mk_rr (rr_off r) (rr_end r) (match res with inr b => Some b | inl _ => None end)
              (rr_resumes r) (S (rr_opens r)) (rr_waits r) (rr_slept r))
  end.

(** [r.off += n], and progress forgets earlier resumes. *)
Definition rr_advance (p : bytes) (b : option body) (r : rangeReader) : rangeReader :=
  mk_rr (rr_off r + len p) (rr_end r) b (if 0 <? len p then 0 else rr_resumes r) (rr_opens r) (rr_waits r) (rr_slept r).

Fixpoint rr_loop (fuel : nat) (n : Z) (r : rangeReader) : option (bytes * option rdend * rangeReader) :=
  match fuel with
  | O => None
  | S fuel =>
      let retry e r := match backoff e r with
                       | (Some e, r) => Some ([], Some (RFail e), r)
                       | (None, r) => rr_loop fuel n r
                       end in
      match rr_connect r with
      | (inl e, r) => retry e r
      | (inr b, r) =>
          let '(p, err, b) := body_Read n b in
          let ok := Some (p, None, rr_advance p (Some b) r) in
          match err with
          | None => ok
          | Some e =>
              let r' := rr_advance p None r in
              if (match e with REOF => true | RFail _ => false end) && (rr_end r <=? rr_off r + len p) then ok
              else if 0 <? len p then Some (p, None, r')
              else retry (match e with REOF => SUnexpectedEOF | RFail e => e end) r'
          end
      end
  end.

Definition rr_Read (n : Z) (r : rangeReader) : option (bytes * option rdend * rangeReader) :=
  if rr_end r <=? rr_off r then Some ([], Some REOF, r)
  else rr_loop (Z.to_nat maxConsecutiveResumes + 1) (Z.min n (rr_end r - rr_off r)) r.

(** Reads into buffers of the given sizes, up to the first that ends. *)
Fixpoint rr_reads (ns : list Z) (r : rangeReader) : option (bytes * option rdend * rangeReader) :=
  match ns with
  | [] => Some ([], None, r)
  | n :: ns =>
      match rr_Read n r with
      | None => None
      | Some (p, Some e, r) => Some (p, Some e, r)
      | Some (p, None, r) =>
          match rr_reads ns r with
          | None => None
          | Some (q, e, r) => Some (p ++ q, e, r)
          end
      end
  end.

Definition NewReader : rangeReader := newRangeReader 0 (obj_Size obj).

(** [io.ReadFull] of [want] bytes: [fuel] bounds the reads. *)
Fixpoint read_full (fuel : nat) (want : Z) (r : rangeReader) : option (bytes * option rdend) :=
  if want <=? 0 then Some ([], None)
  else match fuel with
  | O => None
  | S fuel =>
      match rr_Read want r with
      | None => None
      | Some (p, Some e, _) => Some (p, Some e)
      | Some (p, None, r) =>
          match read_full fuel (want - len p) r with
          | None => None
          | Some (q, e) => Some (p ++ q, e)
          end
      end
  end.

(** What [ReadAt] reports with the bytes it read. *)
Inductive aterr := ANegativeOffset | AEOF | AFail (e : serr).

(** [io.ReadFull] turns an end of file after some bytes into [io.ErrUnexpectedEOF]. *)
Definition full_error (got : bytes) (e : rdend) : aterr :=
  match e with
  | RFail e => AFail e
  | REOF => if 0 <? len got then AFail SUnexpectedEOF else AEOF
  end.

Definition ReadAt (fuel : nat) (n off : Z) : option (bytes * option aterr) :=
  if off <? 0 then Some ([], Some ANegativeOffset)
  else if obj_Size obj <=? off then Some ([], Some AEOF)
  else
    let want := Z.min n (obj_Size obj - off) in
    match read_full fuel want (newRangeReader off (off + want)) with
    | None => None
    | Some (p, Some e) => Some (p, Some (full_error p e))
    | Some (p, None) => Some (p, if want <? n then Some AEOF else None)
    end.
End RangeReader.

(** ** Faithful reads *)

Definition slice (data : bytes) (off fin : Z) : bytes := ztake (fin - off) (zdrop off data).

Definition body_bytes (b : body) : bytes := concat (map fst b).

(** What the object promises: a connection delivers a beginning of the range asked for. *)
Record object_ok (obj : object) (data : bytes) : Prop := {
  ok_size : obj_Size obj = len data;
  ok_range : forall k off n b, 0 <= off -> 0 <= n -> off + n <= len data ->
    obj_NewRangeReader obj k off n = inr b -> body_bytes b `prefix_of` slice data off (off + n)
}.

Record rr_ok (data : bytes) (r : rangeReader) : Prop := {
  ro_range : 0 <= rr_off r <= rr_end r /\ rr_end r <= len data;
  ro_resumes : 0 <= rr_resumes r <= maxConsecutiveResumes;
  ro_body : forall b, rr_body r = Some b -> body_bytes b `prefix_of` slice data (rr_off r) (rr_end r)
}.

Lemma len_slice data off fin : 0 <= off <= fin -> fin <= len data -> len (slice data off fin) = fin - off.
Proof. intros. unfold slice. rewrite len_ztake; [done|]. rewrite len_zdrop by lia. lia. Qed.

Lemma slice_all data : slice data 0 (len data) = data.
Proof. unfold slice. rewrite zdrop_0. apply ztake_all. lia. Qed.

Lemma slice_empty data off : slice data off off = [].
Proof. unfold slice. rewrite Z.sub_diag. apply ztake_0. Qed.

Lemma slice_step data off fin p : 0 <= off <= fin -> fin <= len data -> p `prefix_of` slice data off fin ->
  slice data off fin = p ++ slice data (off + len p) fin /\ off + len p <= fin.
Proof.
  intros Ho Hf [q Hq]. pose proof (len_slice data off fin Ho Hf) as Hl. rewrite Hq, len_app in Hl. pose proof (len_nonneg q).
  pose proof (len_nonneg p). split; [|lia]. rewrite Hq. f_equal. unfold slice in *.
  assert (zdrop off data = p ++ q ++ zdrop (fin - off) (zdrop off data)) as Hz by (rewrite app_assoc, <- Hq; by rewrite ztake_zdrop).
  rewrite <- zdrop_zdrop by lia. rewrite Hz at 1. rewrite zdrop_app by done.
  symmetry. apply ztake_app. lia.
Qed.

Lemma body_Read_bytes n b p e b' : 0 <= n -> body_Read n b = (p, e, b') -> body_bytes b = p ++ body_bytes b' /\ len p <= n.
Proof.
  intros Hn. unfold body_Read. destruct b as [|[piece pe] b]; [intros [= <- <- <-]; by split|].
  destruct (Z.leb_spec (len piece) n).
  - intros [= <- <- <-]. by split.
  - intros [= <- <- <-]. split; [|by apply len_ztake_max]. unfold body_bytes. cbn [map fst concat].
    by rewrite app_assoc, ztake_zdrop.
Qed.

Section Faithful.
Context (obj : object) (canceled interrupted : nat -> bool) (data : bytes) (Hobj : object_ok obj data).
Abbreviation loop := (rr_loop obj canceled interrupted).
Abbreviation Read := (rr_Read obj canceled interrupted).

Lemma backoff_ok e r : rr_ok data r ->
  rr_ok data (snd (backoff canceled interrupted e r)) /\ rr_off (snd (backoff canceled interrupted e r)) = rr_off r /\
  rr_end (snd (backoff canceled interrupted e r)) = rr_end r /\
  (fst (backoff canceled interrupted e r) = None -> rr_resumes (snd (backoff canceled interrupted e r)) = rr_resumes r + 1).
Proof.
  intros [Hr Hs Hb]. unfold backoff. destruct (_ || _); [by cbn|]. destruct (Z.leb_spec maxConsecutiveResumes (rr_resumes r)); [by cbn|].
  destruct (interrupted _); cbn; (split; [split; [done|cbn [rr_resumes]; lia|done]|done]).
Qed.

Lemma rr_connect_ok r res r' : rr_ok data r -> rr_connect obj r = (res, r') ->
  rr_ok data r' /\ rr_off r' = rr_off r /\ rr_end r' = rr_end r /\ rr_resumes r' = rr_resumes r /\
  (forall b, res = inr b -> rr_body r' = Some b).
Proof.
  intros Hok. pose proof Hok as [Hr Hs Hb]. unfold rr_connect. destruct (rr_body r) as [b|] eqn:Eb.
  - intros [= <- <-]. split; [done|]. do 3 (split; [done|]). intros b' [= <-]. done.
  - intros [= <- <-]. cbn. split; [|split; [done|]; split; [done|]; split; [done|]; by intros b ->].
    split; cbn; [done|done|]. intros b Hres. destruct (obj_NewRangeReader _ _ _ _) as [|b'] eqn:Eo; [done|]. injection Hres as <-.
    eapply (ok_range _ _ Hobj) in Eo; [|lia..]. by replace (rr_off r + (rr_end r - rr_off r)) with (rr_end r) in Eo by lia.
Qed.

(** What one read may do. *)
Definition read_good (n : Z) (r : rangeReader) (out : bytes * option rdend * rangeReader) : Prop :=
  let '(p, e, r') := out in
  rr_ok data r' /\ rr_end r' = rr_end r /\ rr_off r' = rr_off r + len p /\ len p <= n /\
  slice data (rr_off r) (rr_end r) = p ++ slice data (rr_off r') (rr_end r) /\
  (e <> None -> p = []) /\ (e = Some REOF -> rr_end r <= rr_off r).

Lemma rr_advance_ok p b r : rr_ok data r -> p `prefix_of` slice data (rr_off r) (rr_end r) ->
  (forall b', b = Some b' -> (p ++ body_bytes b') `prefix_of` slice data (rr_off r) (rr_end r)) ->
  rr_ok data (rr_advance p b r) /\ slice data (rr_off r) (rr_end r) = p ++ slice data (rr_off r + len p) (rr_end r).
Proof.
  intros [Hr Hs Hb] Hp Hb'. pose proof (len_nonneg p). destruct (slice_step data (rr_off r) (rr_end r) p) as [He Hl]; [lia|lia|done|].
  split; [|done]. split; cbn; [lia|destruct (_ <? _); [done|lia]|].
  intros b1 ->. specialize (Hb' b1 eq_refl). rewrite He in Hb'. by apply prefix_app_inv in Hb'.
Qed.

Lemma rr_loop_spec fuel : forall n r, 0 <= n -> rr_ok data r -> rr_off r < rr_end r ->
  maxConsecutiveResumes - rr_resumes r < Z.of_nat fuel -> exists out, loop fuel n r = Some out /\ read_good n r out.
Proof.
  induction fuel as [|fuel IH]; intros n r Hn Hok Hlt Hf; [destruct Hok; lia|]. cbn [rr_loop].
  assert (forall e r1, rr_ok data r1 -> rr_off r1 = rr_off r -> rr_end r1 = rr_end r -> rr_resumes r1 = rr_resumes r ->
    exists out, match backoff canceled interrupted e r1 with
                | (Some e, r) => Some ([], Some (RFail e), r) | (None, r) => loop fuel n r end = Some out /\ read_good n r out) as Hretry.
  { intros e r1 Hok1 Ho He Hres. destruct (backoff_ok e r1 Hok1) as (Hok2 & Ho2 & He2 & Hr2).
    destruct (backoff canceled interrupted e r1) as [[e'|] r2]; cbn [fst snd] in *.
    - eexists. split; [done|]. cbn. rewrite Ho2, He2, Ho, He, Z.add_0_r. done.
    - specialize (Hr2 eq_refl). destruct (IH n r2) as (out & Hout & Hg); [done|done|lia|lia|]. exists out. split; [done|].
      destruct out as [[p err] r3]. unfold read_good in *. by rewrite Ho2, He2, Ho, He in Hg. }
  destruct (rr_connect obj r) as [[e|b] r1] eqn:Ec.
  { apply rr_connect_ok in Ec as (Hok1 & Ho & He & Hr1 & _); [|done]. by apply Hretry. }
  apply rr_connect_ok in Ec as (Hok1 & Ho & He & Hr1 & Hb1); [|done]. specialize (Hb1 b eq_refl).
  pose proof (ro_body _ _ Hok1 b Hb1) as Hpre. destruct (body_Read n b) as [[p err] b'] eqn:Eb.
  apply body_Read_bytes in Eb as [Hbb Hpn]; [|done]. rewrite Hbb in Hpre.
  assert (p `prefix_of` slice data (rr_off r1) (rr_end r1)) as Hpp by (etrans; [|exact Hpre]; by apply prefix_app_r).
  assert (forall ob, (ob = Some b' \/ ob = None) -> read_good n r (p, None, rr_advance p ob r1)) as Hgood.
  { intros ob Hob. destruct (rr_advance_ok p ob r1 Hok1 Hpp) as [Ha Hs]; [by intros b2 ->; destruct Hob as [[= ->]|]|].
    unfold read_good. cbn. rewrite Ho, He in *. done. }
  destruct err as [e|]; [|eexists; split; [done|]; apply Hgood; by left].
  destruct (_ && _); [eexists; split; [done|]; apply Hgood; by left|].
  destruct (Z.ltb_spec 0 (len p)); [eexists; split; [done|]; apply Hgood; by right|].
  destruct (rr_advance_ok p None r1 Hok1 Hpp) as [Ha _]; [done|]. pose proof (len_nonneg p).
  apply Hretry; [done|cbn; lia|done|]. cbn. by rewrite (proj2 (Z.ltb_ge _ _)) by lia.
Qed.

Lemma rr_Read_spec n r : 0 <= n -> rr_ok data r -> exists out, Read n r = Some out /\ read_good n r out.
Proof.
  intros Hn Hok. unfold rr_Read. destruct (Z.leb_spec (rr_end r) (rr_off r)).
  - eexists. split; [done|]. cbn. rewrite Z.add_0_r. done.
  - pose proof (ro_resumes _ _ Hok). destruct (rr_loop_spec (Z.to_nat maxConsecutiveResumes + 1) (Z.min n (rr_end r - rr_off r)) r)
      as (out & Ho & Hg); [lia|done|lia|unfold maxConsecutiveResumes in *; lia|].
    exists out. split; [done|]. destruct out as [[p e] r']. unfold read_good in *. destruct Hg as (? & ? & ? & ? & ? & ? & ?). split_and!; try done; lia.
Qed.

Lemma rr_reads_spec ns : Forall (fun n => 0 <= n) ns -> forall r, rr_ok data r ->
  exists p e r', rr_reads obj canceled interrupted ns r = Some (p, e, r') /\ rr_ok data r' /\ rr_end r' = rr_end r /\
    slice data (rr_off r) (rr_end r) = p ++ slice data (rr_off r') (rr_end r) /\ (e = Some REOF -> rr_off r' = rr_end r).
Proof.
  induction 1 as [|n ns Hn _ IH]; intros r Hok; cbn [rr_reads].
  - exists [], None, r. by split_and!.
  - destruct (rr_Read_spec n r Hn Hok) as ([[p e] r1] & -> & Hok1 & He & Ho & _ & Hs & Hpe & Heof).
    destruct e as [e|].
    + eexists _, _, _. split; [reflexivity|]. split_and!; try done. intros Hx. specialize (Heof Hx). destruct Hok1. rewrite (Hpe ltac:(done)) in Ho.
      rewrite len_nil in Ho. rewrite He in *. lia.
    + destruct (IH r1 Hok1) as (q & e' & r2 & -> & Hok2 & He2 & Hs2 & Hx). exists (p ++ q), e', r2. rewrite He in *.
      split_and!; try done. by rewrite Hs, Hs2, app_assoc.
Qed.
End Faithful.

(** ** Recovery *)

(** A connection whose first read gives data. *)
Definition delivers (res : serr + body) : Prop := exists p e b, res = inr ((p, e) :: b) /\ p <> [].

(** An object over a bad network: requests fail and connections break, but never for a
    permanent reason, every read gives data or an error, and of any
    [maxConsecutiveResumes] requests in a row for a range one delivers data. *)
Record flaky (obj : object) (data : bytes) : Prop := {
  fl_ok : object_ok obj data;
  fl_errors : forall k off n e, obj_NewRangeReader obj k off n = inl e -> permanent e = false;
  fl_bodies : forall k off n b, obj_NewRangeReader obj k off n = inr b ->
    Forall (fun pe => (fst pe <> [] \/ snd pe <> None) /\ forall e, snd pe = Some (RFail e) -> permanent e = false) b;
  fl_recovers : forall k off n, 0 <= off -> 0 < n -> off + n <= len data ->
    exists j, (k <= j < k + Z.to_nat maxConsecutiveResumes)%nat /\ delivers (obj_NewRangeReader obj j off n)
}.

Section Recovery.
Context (obj : object) (data : bytes) (Hfl : flaky obj data).
Abbreviation never := (fun _ : nat => false).
Abbreviation loop := (rr_loop obj never never).
Abbreviation Read := (rr_Read obj never never).

Definition good_piece (pe : bytes * option rdend) : Prop :=
  (fst pe <> [] \/ snd pe <> None) /\ forall e, snd pe = Some (RFail e) -> permanent e = false.

(** The state between reads: no failure pending. *)
Definition rested (r : rangeReader) : Prop :=
  rr_ok data r /\ rr_resumes r = 0 /\ forall b, rr_body r = Some b -> Forall good_piece b.

Lemma body_Read_good n b p e b' : 0 < n -> Forall good_piece b -> body_Read n b = (p, e, b') ->
  Forall good_piece b' /\ (p = [] -> exists x, e = Some x /\ forall y, x = RFail y -> permanent y = false).
Proof.
  intros Hn Hb. unfold body_Read. destruct Hb as [|[piece pe] b [Hp Hpe] Hb]; [intros [= <- <- <-]; split; [done|]; intros _; by exists REOF|].
  cbn [fst snd] in *. destruct (Z.leb_spec (len piece) n).
  - intros [= <- <- <-]. split; [done|]. intros ->. destruct Hp as [Hp|Hp]; [done|]. destruct pe as [x|]; [|done]. exists x. split; [done|].
    intros y ->. by apply Hpe.
  - intros [= <- <- <-]. split.
    + constructor; [|done]. split; cbn [fst snd]; [|done]. left. intros Hz. apply (f_equal len) in Hz. rewrite len_zdrop, len_nil in Hz by lia. lia.
    + intros Hz. apply (f_equal len) in Hz. rewrite len_ztake, len_nil in Hz by lia. lia.
Qed.

(** A read that delivers leaves the reader rested. *)
Definition progress (out : bytes * option rdend * rangeReader) : Prop :=
  let '(p, e, r') := out in p <> [] /\ e = None /\ rr_resumes r' = 0 /\ forall b, rr_body r' = Some b -> Forall good_piece b.

(** Reading a connection whose first piece is data. *)
Lemma delivered n p e b : 0 < n -> p <> [] -> Forall good_piece ((p, e) :: b) ->
  exists q err b', body_Read n ((p, e) :: b) = (q, err, b') /\ q <> [] /\ Forall good_piece b'.
Proof.
  intros Hn Hp Hb. destruct (body_Read n ((p, e) :: b)) as [[q err] b'] eqn:Eb. exists q, err, b'. split; [done|].
  pose proof (body_Read_good _ _ _ _ _ Hn Hb Eb) as [Hb' _]. split; [|done]. unfold body_Read in Eb.
  destruct (_ <=? _); injection Eb as <- <- <-; [done|]. intros Hz. destruct p; [done|].
  apply (f_equal length) in Hz. unfold ztake in Hz. rewrite length_take in Hz. cbn in Hz. lia.
Qed.

Lemma advance_progress q b' r : q <> [] -> Forall good_piece b' ->
  progress (q, None, rr_advance q (Some b') r) /\ progress (q, None, rr_advance q None r).
Proof.
  intros Hq Hb. assert (0 < len q) as Hl by (destruct q; [done|rewrite len_cons; len_lia]).
  unfold progress, rr_advance. cbn. rewrite (proj2 (Z.ltb_lt _ _) Hl). split; (split; [done|]; split; [done|]; split; [done|]); [|done].
  by intros b [= <-].
Qed.

(** What a failure leaves: no connection, one resume used up. *)
Definition resumed (r r' : rangeReader) : Prop :=
  rr_body r' = None /\ rr_resumes r' = rr_resumes r + 1 /\ rr_opens r' = rr_opens r /\ rr_off r' = rr_off r /\ rr_end r' = rr_end r.

Lemma backoff_resumes e r : permanent e = false -> rr_body r = None -> rr_resumes r < maxConsecutiveResumes ->
  exists r', backoff never never e r = (None, r') /\ resumed r r'.
Proof.
  intros He Hb Hr. unfold backoff. rewrite He. cbn [orb]. rewrite (proj2 (Z.leb_gt _ _)) by lia. eexists. split; [done|]. by split_and!.
Qed.

(** One pass over an open connection delivers data, or the reader resumes. *)
Lemma pass fuel n r r1 b : 0 < n -> Forall good_piece b -> rr_connect obj r = (inr b, r1) -> rr_off r1 < rr_end r1 ->
  (exists out, loop (S fuel) n r = Some out /\ progress out) \/
  (~ delivers (inr b) /\ (rr_resumes r1 < maxConsecutiveResumes -> exists r2, loop (S fuel) n r = loop fuel n r2 /\ resumed r1 r2)).
Proof.
  intros Hn Hgood Hc Hlt. cbn [rr_loop]. rewrite Hc. destruct (body_Read n b) as [[p err] b'] eqn:Eb.
  destruct (body_Read_good _ _ _ _ _ Hn Hgood Eb) as [Hb' Hemp]. destruct (decide (p = [])) as [->|Hp]; [right|left].
  - destruct (Hemp eq_refl) as (x & -> & Hperm). split.
    { intros (p & e & b2 & [= ->] & Hp). destruct (delivered n p e b2 Hn Hp Hgood) as (q & err & b3 & Hq & Hq' & _). rewrite Hq in Eb. by injection Eb as -> _ _. }
    intros Hres. rewrite len_nil, Z.add_0_r. rewrite (proj2 (Z.leb_gt _ _)) by lia. rewrite andb_false_r. change (0 <? 0) with false. cbv iota.
    destruct (backoff_resumes (match x with REOF => SUnexpectedEOF | RFail e => e end) (rr_advance [] None r1)) as (r2 & -> & Hr2);
      [by destruct x as [|y]; [|apply Hperm]|done|done|].
    exists r2. split; [done|]. destruct Hr2 as (? & ? & ? & ? & ?). cbn in *. split_and!; try done. by rewrite Z.add_0_r in *.
  - destruct (advance_progress p b' r1 Hp Hb') as [H1 H2].
    assert (0 < len p) as Hl by (destruct p; [done|rewrite len_cons; len_lia]).
    destruct err as [x|]; [|eexists; split; [done|exact H1]]. destruct (_ && _); [eexists; split; [done|exact H1]|].
    rewrite (proj2 (Z.ltb_lt _ _) Hl). eexists. split; [done|exact H2].
Qed.

(** With no connection, and a request that will deliver within the resumes left. *)
Lemma loop_recovers fuel : forall n r, 0 < n -> rr_body r = None -> rr_off r < rr_end r ->
  (exists j, (rr_opens r <= j)%nat /\ Z.of_nat (j - rr_opens r) + rr_resumes r <= maxConsecutiveResumes /\
     (j - rr_opens r < fuel)%nat /\ delivers (obj_NewRangeReader obj j (rr_off r) (rr_end r - rr_off r))) ->
  exists out, loop fuel n r = Some out /\ progress out.
Proof.
  induction fuel as [|fuel IH]; intros n r Hn Hb Hlt (j & Hj & Hjr & Hjf & Hd); [lia|].
  destruct (rr_connect obj r) as [res r1] eqn:Ec. pose proof Ec as Ec'. unfold rr_connect in Ec. rewrite Hb in Ec.
  assert (res = obj_NewRangeReader obj (rr_opens r) (rr_off r) (rr_end r - rr_off r)) as Hres by congruence.
  assert (rr_opens r1 = S (rr_opens r) /\ rr_off r1 = rr_off r /\ rr_end r1 = rr_end r /\ rr_resumes r1 = rr_resumes r) as (Ho1 & Hf1 & He1 & Hr1)
    by (injection Ec as _ <-; done).
  assert (~ delivers res -> forall r2, resumed r1 r2 -> exists out, loop fuel n r2 = Some out /\ progress out) as Hnext.
  { intros Hnd r2 (Hb2 & Hr2 & Ho2 & Hf2 & He2). assert (j <> rr_opens r) by (intros ->; by rewrite Hres in Hnd).
    apply IH; [done|done|lia|]. exists j. rewrite Hf2, He2, Hf1, He1, Ho2, Ho1. split_and!; try done; lia. }
  destruct res as [e|b].
  - assert (~ delivers (inl e)) as Hnd by (by intros (? & ? & ? & ? & _)).
    assert (j <> rr_opens r) by (intros ->; by rewrite <- Hres in Hd). cbn [rr_loop]. rewrite Ec'.
    destruct (backoff_resumes e r1) as (r2 & -> & Hr2); [by eapply fl_errors|injection Ec as _ <-; cbn; by rewrite <- Hres|lia|]. by apply Hnext.
  - destruct (pass fuel n r r1 b) as [Hout|[Hnd Hr]]; [done|by eapply fl_bodies|done|lia|done|].
    assert (j <> rr_opens r) by (intros ->; rewrite <- Hres in Hd; exact (Hnd Hd)).
    destruct Hr as (r2 & -> & Hr2); [lia|]. by apply Hnext.
Qed.

Lemma Read_recovers n r : 0 < n -> rested r -> rr_off r < rr_end r -> exists out, Read n r = Some out /\ progress out.
Proof.
  intros Hn ([Hr _ _] & Hres & Hgood) Hlt. unfold rr_Read. rewrite (proj2 (Z.leb_gt _ _)) by done. change (Z.to_nat maxConsecutiveResumes + 1)%nat with 6%nat.
  destruct (fl_recovers _ _ Hfl (rr_opens r) (rr_off r) (rr_end r - rr_off r)) as (j & Hj & Hd); [lia..|]. change (Z.to_nat maxConsecutiveResumes) with 5%nat in Hj.
  destruct (rr_body r) as [b|] eqn:Eb.
  - assert (rr_connect obj r = (inr b, r)) as Hc by (unfold rr_connect; by rewrite Eb).
    destruct (pass 5 (Z.min n (rr_end r - rr_off r)) r r b) as [Hout|[_ Hnext]]; [lia|by apply Hgood|done|done|done|].
    destruct Hnext as (r2 & -> & Hb2 & Hr2 & Ho2 & Hf2 & He2); [rewrite Hres; done|].
    apply loop_recovers; [lia|done|lia|]. exists j. rewrite Hf2, He2, Ho2. unfold maxConsecutiveResumes. split_and!; try done; lia.
  - apply loop_recovers; [lia|done|done|]. exists j. unfold maxConsecutiveResumes. split_and!; try done; lia.
Qed.

Lemma read_full_recovers fuel : forall want r, rested r -> rr_off r + want = rr_end r -> want < Z.of_nat fuel ->
  read_full obj never never fuel want r = Some (slice data (rr_off r) (rr_end r), None).
Proof.
  induction fuel as [|fuel IH]; intros want r Hr Hw Hf; cbn [read_full].
  - destruct Hr as ([? _ _] & _). destruct (Z.leb_spec want 0); [|lia]. replace (rr_end r) with (rr_off r) by lia. by rewrite slice_empty.
  - pose proof Hr as ([Hrange Hres Hbody] & Hz & Hgood). destruct (Z.leb_spec want 0); [replace (rr_end r) with (rr_off r) by lia; by rewrite slice_empty|].
    destruct (Read_recovers want r) as (out & Ho & Hp); [lia|done|lia|].
    destruct (rr_Read_spec obj never never data (fl_ok _ _ Hfl) want r) as (out' & Ho' & Hg); [lia|by destruct Hr|].
    rewrite Ho in Ho'. injection Ho' as <-. rewrite Ho. destruct out as [[p e] r1]. destruct Hp as (Hne & -> & Hz1 & Hgood1).
    destruct Hg as (Hok1 & He1 & Ho1 & Hl1 & Hs & _). rewrite (IH (want - len p) r1).
    + by rewrite He1, Hs.
    + done.
    + lia.
    + destruct p; [done|]. rewrite len_cons in *. pose proof (len_nonneg p). lia.
Qed.
End Recovery.

(** ** Guarantees *)

(** C29. Reads of a remote object are faithful. However the connections to an object fail, break
    off or end early, and whatever buffers it is read into, the bytes a reader of the
    object returns are exactly the object's from the start, without loss, repetition or
    reordering; every read returns; and the end of file is only reported once the whole
    object was delivered. *)
Theorem object_read_faithful (obj : object) (canceled interrupted : nat -> bool) (data : bytes) (ns : list Z)
  (Hobj : object_ok obj data) (Hns : Forall (fun n => 0 <= n) ns) :
  exists p e r, rr_reads obj canceled interrupted ns (NewReader obj) = Some (p, e, r) /\ p = ztake (rr_off r) data /\
    rr_off r = len p /\ (e = Some REOF -> p = data).
Proof.
  assert (rr_ok data (NewReader obj)) as Hok.
  { unfold NewReader. pose proof (len_nonneg data). split; cbn; [rewrite (ok_size _ _ Hobj); lia|done|done]. }
  destruct (rr_reads_spec obj canceled interrupted data Hobj ns Hns _ Hok) as (p & e & r & Hr & [[Hro Hre] _ _] & He & Hs & Hx).
  exists p, e, r. split; [done|]. cbn [NewReader newRangeReader rr_off rr_end] in *. rewrite (ok_size _ _ Hobj) in *.
  assert (data = p ++ slice data (rr_off r) (len data)) as Hd by (by rewrite <- Hs, slice_all).
  pose proof (len_slice data (rr_off r) (len data) ltac:(lia) ltac:(lia)) as Hl. pose proof (f_equal len Hd) as Hlen. rewrite len_app in Hlen.
  split; [rewrite Hd at 1; symmetry; apply ztake_app; lia|]. split; [lia|]. intros Heof. specialize (Hx Heof).
  rewrite Hx, slice_empty, app_nil_r in Hd. done.
Qed.

(** Random access survives a bad network. As long as requests do not fail for good, and of
    any five in a row for the same range one delivers some data, [ReadAt] returns exactly
    the bytes asked for, reporting the end of file only for a range that passes it; enough
    reads are one more than the bytes wanted. *)
Theorem read_at_recovers (obj : object) (data : bytes) (n off : Z) (Hfl : flaky obj data) (Hn : 0 <= n) :
  ReadAt obj (fun _ => false) (fun _ => false) (Z.to_nat n + 1) n off =
  Some (if off <? 0 then ([], Some ANegativeOffset)
        else if len data <=? off then ([], Some AEOF)
        else (ztake n (zdrop off data), if len data - off <? n then Some AEOF else None)).
Proof.
  unfold ReadAt. rewrite (ok_size _ _ (fl_ok _ _ Hfl)). destruct (Z.ltb_spec off 0); [done|]. destruct (Z.leb_spec (len data) off); [done|]. cbv zeta.
  set (want := Z.min n (len data - off)).
  rewrite (read_full_recovers obj data Hfl); cbn [newRangeReader rr_off rr_end]; [| |lia|lia].
  - assert (slice data off (off + want) = ztake n (zdrop off data)) as ->.
    { unfold slice, want. replace (off + Z.min n (len data - off) - off) with (Z.min n (len data - off)) by lia.
      destruct (Z.min_spec n (len data - off)) as [[_ ->]|[Hle ->]]; [done|]. rewrite ztake_all by (rewrite len_zdrop by lia; lia).
      symmetry. unfold ztake. apply take_ge. pose proof (len_zdrop off data ltac:(lia)). unfold len in *. lia. }
    do 2 f_equal. unfold want. destruct (Z.ltb_spec (Z.min n (len data - off)) n), (Z.ltb_spec (len data - off) n); try done; lia.
  - split; [|done]. split; cbn; [lia|done|done].
Qed.

(** ** An example: every other request fails, and connections break after four bytes. *)
Definition hiccup (data : bytes) : object :=
  mk_object (len data) (fun k off n =>
    if Nat.even k then inl (SOther "connection refused")
    else inr [(ztake 4 (slice data off (off + n)), Some (RFail (SOther "connection reset")))]).

Lemma hiccup_ok data : object_ok (hiccup data) data.
Proof.
  split; [done|]. intros k off n b _ _ _. cbn. destruct (Nat.even k); [done|]. intros [= <-]. unfold body_bytes. cbn. rewrite app_nil_r.
  eexists. symmetry. apply ztake_zdrop.
Defined.

Lemma hiccup_flaky data : flaky (hiccup data) data.
Proof.
  split; [apply hiccup_ok| | |].
  - intros k off n e. cbn. destruct (Nat.even k); [by intros [= <-]|done].
  - intros k off n b. cbn. destruct (Nat.even k); [done|]. intros [= <-]. constructor; [|constructor]. split; [by right|]. by intros e [= <-].
  - intros k off n Ho Hn Hl. assert (len (slice data off (off + n)) = n) as Hs by (rewrite len_slice; lia).
    assert (ztake 4 (slice data off (off + n)) <> []) as Hne.
    { destruct (slice data off (off + n)) as [|x l]; [rewrite len_nil in Hs; lia|discriminate]. }
    destruct (Nat.even k) eqn:Ek; [exists (S k)|exists k]; (split; [change (Z.to_nat maxConsecutiveResumes) with 5%nat; lia|]); cbn [hiccup obj_NewRangeReader].
    + rewrite Nat.even_succ, <- Nat.negb_even, Ek. cbn [negb]. by eexists _, _, _.
    + rewrite Ek. by eexists _, _, _.
Defined.

Lemma object_read_faithful_witness : exists p e r,
  rr_reads (hiccup (str "object storage")) (fun _ => false) (fun _ => false) [3; 9; 1; 100; 100; 7] (NewReader (hiccup (str "object storage"))) = Some (p, e, r) /\
  p = str "object storage".
Proof.
  destruct (object_read_faithful (hiccup (str "object storage")) (fun _ => false) (fun _ => false) (str "object storage") [3; 9; 1; 100; 100; 7]
    (hiccup_ok _) ltac:(repeat constructor; lia)) as (p & e & r & Hr & Hp & _).
  exists p, e, r. split; [exact Hr|]. rewrite Hp. vm_compute in Hr. injection Hr as <- <- <-. reflexivity.
Defined.

Lemma read_at_recovers_witness :
  ReadAt (hiccup (str "object storage")) (fun _ => false) (fun _ => false) 7 6 7 = Some (str "storag", None).
Proof. exact (read_at_recovers (hiccup (str "object storage")) (str "object storage") 6 7 (hiccup_flaky _) ltac:(lia)). Defined.
