(* ===== verification/S3Upload.v ===== *)
(** * Uploading objects to S3 (storage/s3/s3.go)

    The writer splits what it is given into parts that goroutines upload while the client
    goes on writing, and completes the upload on [Close]. The client, the uploads and the
    cancellation of the context interleave freely, and any request may fail, before or
    after the service acted on it: [s3step] is one step of any of them. The service is the
    object visible under the key and the parts of the pending upload; completing an upload
    joins the listed parts in the order listed, and a request on an ended context is not
    sent. *)

From stdpp Require Import gmap sorting.
From S2P Require Import Prelude Bytes RangeReader.
Open Scope go_scope.

Definition MinPartSize : Z := 5 * 2 ^ 20.
Definition DefaultPartSize : Z := 16 * 2 ^ 20.
Definition maxPartSize : Z := 256 * 2 ^ 20.
Definition maxParts : Z := 10000.
Definition partGrowthInterval : Z := 1000.
Definition uploadConcurrency : Z := 4.

(** [Factory], given the part size of the options (0 means the default) and the region of
    the configuration the SDK loads: the size of the first parts of the backend. *)
Definition s3_Factory (opt : Z) (bucket : bytes) (load : result bytes) : result Z :=
  if bytes_eqb bucket [] then errorf ErrOther "s3:// location needs a bucket"
  else
    let size := if opt =? 0 then DefaultPartSize else opt in
    if (size <? MinPartSize) || (maxPartSize <? size) then errorf ErrOther "part size out of range"
    else match load with
         | Err e => Err e
         | Ok region => if bytes_eqb region [] then errorf ErrOther "no AWS region configured" else Ok size
         end.

Definition partSize (first n : Z) : Z := Z.min (i64 (Z.shiftl first (Z.quot (n - 1) partGrowthInterval))) maxPartSize.

(** ** The writer and the service *)

(** Where [flushPart] returns to. *)
Inductive after_flush := KWrite (p : bytes) | KClose.

(** The client: between calls, after a failed [Write] (the archivers stop at the first failed
    write, and only [Close] or [Abort] follows), at the head of the loop of [Write] with [p] left, in
    [flushPart] before and after the part is taken from the buffer, at [PutObject], waiting
    for the uploads in [Close] (after a failed flush or not) or [Abort], and discarding the
    upload. *)
Inductive pc :=
  | Idle
  | Broken
  | Loop (p : bytes)
  | Flush (k : after_flush)
  | Slot (part : bytes) (k : after_flush)
  | Put
  | Wait (failed : bool)
  | WaitAbort
  | Discard (closing : bool).

Record s3 := mk_s3 {
  s_buf : bytes;
  s_upload : bool;
  s_nextPart : Z;
  s_inflight : list (Z * bytes);
  s_parts : list Z;
  s_err : bool;
  s_canceled : bool;
  s_done : bool;
  s_pc : pc;
  s_accepted : bytes;
  s_closed : option bool;
  sv_object : option bytes;
  sv_parts : gmap Z bytes
}.

Definition new_s3 (object : option bytes) : s3 := mk_s3 [] false 0 [] [] false false false Idle [] None object ∅.

Definition set_pc (c : pc) (s : s3) : s3 :=
  mk_s3 (s_buf s) (s_upload s) (s_nextPart s) (s_inflight s) (s_parts s) (s_err s) (s_canceled s) (s_done s) c (s_accepted s)
    (s_closed s) (sv_object s) (sv_parts s).

(** Start [Close] or [Abort]. *)
Definition finish (cancel : bool) (c : pc) (s : s3) : s3 :=
  mk_s3 (s_buf s) (s_upload s) (s_nextPart s) (s_inflight s) (s_parts s) (s_err s) (s_canceled s || cancel) true c (s_accepted s)
    (s_closed s) (sv_object s) (sv_parts s).

(** [Close] returns: the deferred [cancel] runs. *)
Definition closed (ok : bool) (object : option bytes) (parts : gmap Z bytes) (s : s3) : s3 :=
  mk_s3 (s_buf s) (s_upload s) (s_nextPart s) (s_inflight s) (s_parts s) (s_err s) true (s_done s) Idle (s_accepted s)
    (Some ok) object parts.

Definition set_object (object : option bytes) (c : pc) (s : s3) : s3 :=
  mk_s3 (s_buf s) (s_upload s) (s_nextPart s) (s_inflight s) (s_parts s) (s_err s) (s_canceled s) (s_done s) c (s_accepted s)
    (s_closed s) object (sv_parts s).

(** Take [n] bytes of [p] into the buffer. *)
Definition take_in (n : Z) (p : bytes) (c : pc) (s : s3) : s3 :=
  mk_s3 (s_buf s ++ ztake n p) (s_upload s) (s_nextPart s) (s_inflight s) (s_parts s) (s_err s) (s_canceled s) (s_done s) c
    (s_accepted s ++ ztake n p) (s_closed s) (sv_object s) (sv_parts s).

Definition start_upload (s : s3) : s3 :=
  mk_s3 (s_buf s) true (s_nextPart s) (s_inflight s) (s_parts s) (s_err s) (s_canceled s) (s_done s) (s_pc s) (s_accepted s)
    (s_closed s) (sv_object s) (sv_parts s).

(** Number the part, and take it from the buffer. *)
Definition number_part (take : bool) (c : pc) (s : s3) : s3 :=
  mk_s3 (if take then [] else s_buf s) (s_upload s) (s_nextPart s + 1) (s_inflight s) (s_parts s) (s_err s) (s_canceled s) (s_done s) c
    (s_accepted s) (s_closed s) (sv_object s) (sv_parts s).

Definition launch (part : bytes) (c : pc) (s : s3) : s3 :=
  mk_s3 (s_buf s) (s_upload s) (s_nextPart s) (s_inflight s ++ [(s_nextPart s, part)]) (s_parts s) (s_err s) (s_canceled s) (s_done s) c
    (s_accepted s) (s_closed s) (sv_object s) (sv_parts s).

(** An upload goroutine ends. *)
Definition uploaded (n : Z) (rest : list (Z * bytes)) (part : bytes) (s : s3) : s3 :=
  mk_s3 (s_buf s) (s_upload s) (s_nextPart s) rest (s_parts s ++ [n]) (s_err s) (s_canceled s) (s_done s) (s_pc s) (s_accepted s)
    (s_closed s) (sv_object s) (<[n := part]> (sv_parts s)).

Definition upload_failed (n : Z) (rest : list (Z * bytes)) (part : bytes) (stored : bool) (s : s3) : s3 :=
  mk_s3 (s_buf s) (s_upload s) (s_nextPart s) rest (s_parts s) true true (s_done s) (s_pc s) (s_accepted s)
    (s_closed s) (sv_object s) (if stored then <[n := part]> (sv_parts s) else sv_parts s).

Definition cancel (s : s3) : s3 :=
  mk_s3 (s_buf s) (s_upload s) (s_nextPart s) (s_inflight s) (s_parts s) (s_err s) true (s_done s) (s_pc s) (s_accepted s)
    (s_closed s) (sv_object s) (sv_parts s).

(** The parts in the order [Close] lists them. *)
Definition sorted_parts (s : s3) : list Z := merge_sort Z.le (s_parts s).

(** The service joins the listed parts, all of which it must have. *)
Definition assemble (parts : gmap Z bytes) (ns : list Z) : option bytes :=
  match mapM (fun n => parts !! n) ns with Some l => Some (concat l) | None => None end.

(** ** Steps *)

(** Where [Close] goes first. *)
Definition close_pc (s : s3) : pc := if s_upload s then (if len (s_buf s) =? 0 then Wait false else Flush KClose) else Put.

Definition flushed (k : after_flush) : pc := match k with KWrite p => Loop p | KClose => Wait false end.
Definition flush_failed (k : after_flush) : pc := match k with KWrite _ => Broken | KClose => Wait true end.

Section Steps.
Context (first : Z).

Definition limit (s : s3) : Z := partSize first (s_nextPart s + 1).

Inductive s3step (s : s3) : s3 -> Prop :=
  (* Write *)
  | CallWrite p : s_pc s = Idle -> s_done s = false -> s3step s (set_pc (Loop p) s)
  | WriteEnd : s_pc s = Loop [] -> s3step s (set_pc Idle s)
  | WriteErr p : s_pc s = Loop p -> p <> [] -> s_err s = true -> s3step s (set_pc Broken s)
  | WriteFill p n : s_pc s = Loop p -> p <> [] -> s_err s = false -> n = Z.min (len p) (limit s - len (s_buf s)) ->
      s3step s (take_in n p (if len (s_buf s) + n =? limit s then Flush (KWrite (zdrop n p)) else Loop (zdrop n p)) s)
  (* flushPart *)
  | CreateUpload k : s_pc s = Flush k -> s_upload s = false -> s3step s (start_upload s)
  | CreateFailed k : s_pc s = Flush k -> s_upload s = false -> s3step s (set_pc (flush_failed k) s)
  | NumberPart k : s_pc s = Flush k -> s_upload s = true -> s_nextPart s + 1 <= maxParts ->
      s3step s (number_part true (Slot (s_buf s) k) s)
  | TooManyParts k : s_pc s = Flush k -> s_upload s = true -> maxParts < s_nextPart s + 1 ->
      s3step s (number_part false (flush_failed k) s)
  | TakeSlot part k : s_pc s = Slot part k -> len (s_inflight s) < uploadConcurrency -> s3step s (launch part (flushed k) s)
  | SlotCanceled part k : s_pc s = Slot part k -> s_canceled s = true -> s3step s (set_pc (flush_failed k) s)
  (* the upload goroutines, and the context *)
  | Uploaded n part l1 l2 : s_inflight s = l1 ++ (n, part) :: l2 -> s3step s (uploaded n (l1 ++ l2) part s)
  | UploadFailed n part l1 l2 stored : s_inflight s = l1 ++ (n, part) :: l2 -> s3step s (upload_failed n (l1 ++ l2) part stored s)
  | Cancel : s_canceled s = false -> s3step s (cancel s)
  (* Close *)
  | CallClose : s_pc s = Idle \/ s_pc s = Broken -> s_done s = false ->
      s3step s (finish false (close_pc s) s)
  | PutObject : s_pc s = Put -> s_canceled s = false -> s3step s (closed true (Some (s_buf s)) (sv_parts s) s)
  | PutFailed stored : s_pc s = Put ->
      s3step s (closed false (if stored : bool then Some (s_buf s) else sv_object s) (sv_parts s) s)
  | Complete object : s_pc s = Wait false -> s_inflight s = [] -> s_err s = false -> s_canceled s = false ->
      assemble (sv_parts s) (sorted_parts s) = Some object -> s3step s (closed true (Some object) (sv_parts s) s)
  | CompleteLost object : s_pc s = Wait false -> s_inflight s = [] -> s_err s = false -> s_canceled s = false ->
      assemble (sv_parts s) (sorted_parts s) = Some object -> s3step s (set_object (Some object) (Discard true) s)
  | CompleteFailed : s_pc s = Wait false -> s_inflight s = [] -> s_err s = false -> s3step s (set_pc (Discard true) s)
  | WaitFailed failed : s_pc s = Wait failed -> s_inflight s = [] -> failed || s_err s = true -> s3step s (set_pc (Discard true) s)
  (* Abort *)
  | CallAbort : s_pc s = Idle \/ s_pc s = Broken -> s_done s = false -> s3step s (finish true WaitAbort s)
  | AbortWaited : s_pc s = WaitAbort -> s_inflight s = [] -> s3step s (set_pc (Discard false) s)
  | Discarded closing ok : s_pc s = Discard closing ->
      s3step s (mk_s3 (s_buf s) (s_upload s) (s_nextPart s) (s_inflight s) (s_parts s) (s_err s) true (s_done s) Idle (s_accepted s)
        (if closing : bool then Some false else s_closed s) (sv_object s) (if ok : bool then ∅ else sv_parts s)).

Inductive s3_reachable (object : option bytes) : s3 -> Prop :=
  | reach_new : s3_reachable object (new_s3 object)
  | reach_step s s' : s3_reachable object s -> s3step s s' -> s3_reachable object s'.
End Steps.

(** ** Reading (the requests and errors of [object.NewRangeReader]) *)

(** [wrapErr] by the API error code and the HTTP status, when the error has them. *)
Definition s3_wrapErr (code : option string) (status : option Z) : serr :=
  let by_status := match status with
                   | Some st => if st =? 404 then SNotFound else if st =? 412 then SObjectChanged else SOther "s3"
                   | None => SOther "s3"
                   end in
  match code with
  | Some c => if bool_decide (c = "NoSuchKey" \/ c = "NotFound" \/ c = "NoSuchBucket") then SNotFound
              else if bool_decide (c = "PreconditionFailed") then SObjectChanged else by_status
  | None => by_status
  end.

(** [Open], given the size and the ETag of the response to [HeadObject]. *)
Definition s3_Open (head : serr + option Z * option bytes) : serr + Z * bytes :=
  match head with
  | inl e => inl e
  | inr (Some size, Some etag) => inr (size, etag)
  | inr _ => inl (SOther "s3: open: response lacks size or ETag")
  end.

(** A missing object was there at [Open]: it has changed. *)
Definition s3_readErr (e : serr) : serr := match e with SNotFound => SObjectChanged | e => e end.

(** [NewRangeReader], given what [GetObject] returns for the bytes from [offset] to the
    last one asked for, if any. *)
Definition s3_NewRangeReader (get : Z -> option Z -> serr + body) (offset length : Z) : serr + body :=
  if length =? 0 then inr []
  else match get offset (if 0 <? length then Some (i64 (offset + length - 1)) else None) with
       | inl e => inl (s3_readErr e)
       | inr b => inr b
       end.
