(* ===== verification/S3Proofs.v ===== *)
(** * What an upload to S3 guarantees

    Whatever interleaving of client, uploads and failures: the object under the key is the
    old one or exactly what was written, parts stay within the service's limits, and no call
    blocks for good. *)

From stdpp Require Import gmap sorting.
From S2P Require Import Prelude Bytes RangeReader S3Upload.
Open Scope go_scope.

(** ** Control *)

(** Whether a call in progress is one after [done] was set. *)
Definition pc_done (c : pc) : option bool :=
  match c with
  | Idle => None
  | Broken | Loop _ | Flush (KWrite _) | Slot _ (KWrite _) => Some false
  | Flush KClose | Slot _ KClose | Put | Wait _ | WaitAbort | Discard _ => Some true
  end.

Record control (s : s3) : Prop := {
  ct_done : match pc_done (s_pc s) with Some b => s_done s = b | None => True end;
  ct_closed : s_closed s <> None -> s_done s = true;
  ct_err : s_err s = true -> s_canceled s = true;
  ct_single : s_upload s = false -> s_accepted s = s_buf s /\ s_nextPart s = 0 /\ s_inflight s = [] /\ s_parts s = [];
  ct_pc : match s_pc s with
          | Put => s_upload s = false
          | Slot _ _ | Wait false => s_upload s = true /\ s_buf s = []
          | _ => True
          end
}.

Ltac s3_simpl := unfold close_pc in *; cbn [s_buf s_upload s_nextPart s_inflight s_parts s_err s_canceled s_done s_pc s_accepted s_closed sv_object sv_parts
  set_pc finish closed set_object take_in start_upload number_part launch uploaded upload_failed cancel flushed flush_failed pc_done] in *.

(** Case analysis on a step, with the program counter known. *)
Ltac step_cases Hs :=
  destruct Hs as [p Hpc Hdn|Hpc|p Hpc Hp He|p n Hpc Hp He Hmin|k Hpc Hu|k Hpc Hu|k Hpc Hu Hmax|k Hpc Hu Hmax|part k Hpc Hl|part k Hpc Hc
    |n part l1 l2 Hi|n part l1 l2 stored Hi|Hc|Hpc Hdn|Hpc Hc|stored Hpc|object Hpc Hi He Hc Has|object Hpc Hi He Hc Has|Hpc Hi He
    |failed Hpc Hi Hf|Hpc Hdn|Hpc Hi|closing ok Hpc];
  repeat match goal with H : s_pc _ = _ |- _ => rewrite H in * end; s3_simpl.

Lemma control_step first s s' : s3step first s s' -> control s -> control s'.
Proof.
  intros Hs [Hct Hcl Hce Hg Hcp].
  step_cases Hs; try (split; s3_simpl; solve [done | by intros; rewrite ?orb_true_r; auto | by destruct k | by auto]).
  - split; s3_simpl; [by destruct (_ =? _)|done|done| |by destruct (_ =? _)].
    intros Hu. destruct (Hg Hu) as (-> & ? & ? & ?). done.
  - split; s3_simpl; [by rewrite Hpc|done|done|done|by rewrite Hpc].
  - split; s3_simpl; [by destruct k|done|done|by rewrite Hu|done].
  - split; s3_simpl; [by destruct k|done|done|by rewrite Hu|by destruct k].
  - destruct Hcp as [Hu Hb]. split; s3_simpl; [by destruct k|done|done|by rewrite Hu|by destruct k].
  - split; s3_simpl; [done|done|done| |done]. intros Hu. destruct (Hg Hu) as (_ & _ & Hi' & _). rewrite Hi in Hi'. by destruct l1.
  - split; s3_simpl; [done|done|done| |done]. intros Hu. destruct (Hg Hu) as (_ & _ & Hi' & _). rewrite Hi in Hi'. by destruct l1.
  - split; s3_simpl; [destruct (s_upload s); [by destruct (_ =? _)|done]|done|by rewrite orb_false_r|done|].
    destruct (s_upload s); [|done]. destruct (Z.eqb_spec (len (s_buf s)) 0); [|done]. split; [done|]. apply len_0_nil. lia.
Qed.

Lemma elem_of_middle {A} (x y : A) l1 l2 : x ∈ l1 ++ l2 -> x ∈ l1 ++ y :: l2.
Proof. intros H. apply elem_of_app in H as [H|H]; apply elem_of_app; [by left|right; by constructor]. Qed.

Lemma elem_of_middle_here {A} (y : A) l1 l2 : y ∈ l1 ++ y :: l2.
Proof. apply elem_of_app. right. constructor. Qed.

(** ** Part sizes *)

Lemma partSize_range first n : MinPartSize <= first <= maxPartSize -> 1 <= n <= maxParts + 1 ->
  MinPartSize <= partSize first n <= maxPartSize.
Proof.
  unfold MinPartSize, maxPartSize, maxParts, partSize, partGrowthInterval. intros Hf Hn.
  pose proof (Z.quot_le_mono (n - 1) 10000 1000 ltac:(lia) ltac:(lia)) as Hq. change (10000 ÷ 1000) with 10 in Hq.
  pose proof (Z.quot_pos (n - 1) 1000 ltac:(lia) ltac:(lia)). set (k := (n - 1) ÷ 1000) in *. rewrite Z.shiftl_mul_pow2 by lia.
  pose proof (Z.pow_le_mono_r 2 k 10 ltac:(lia) ltac:(lia)). pose proof (Z.pow_le_mono_r 2 0 k ltac:(lia) ltac:(lia)).
  change (2 ^ 10) with 1024 in *. change (2 ^ 0) with 1 in *. rewrite i64_small by nia. unfold maxPartSize. nia.
Qed.

Section Sizes.
Context (first : Z) (Hfirst : MinPartSize <= first <= maxPartSize).

(** The client will number no more parts. *)
Definition final (c : pc) : bool := match c with Idle | Wait _ | WaitAbort | Discard _ => true | _ => false end.

(** Part [n] has its full size, or is the last one, flushed by [Close]. *)
Definition part_fits (s : s3) (n : Z) (part : bytes) : Prop :=
  1 <= n <= maxParts /\ n <= s_nextPart s /\ 0 < len part <= maxPartSize /\
  (len part = partSize first n \/ (s_done s = true /\ final (s_pc s) = true /\ n = s_nextPart s)).

Record sizes (s : s3) : Prop := {
  sz_next : 0 <= s_nextPart s /\ (s_nextPart s <= maxParts \/ match s_pc s with
    | Loop _ | Flush (KWrite _) | Slot _ _ => False | Idle => s_done s = true | _ => True end);
  sz_buf : match s_pc s with
    | Idle => s_done s = true \/ len (s_buf s) < limit first s
    | Loop _ => len (s_buf s) < limit first s
    | Flush (KWrite _) => len (s_buf s) = limit first s
    | Flush KClose => 0 < len (s_buf s) <= maxPartSize
    | Slot part (KWrite _) => len part = partSize first (s_nextPart s)
    | Slot part KClose => 0 < len part <= maxPartSize
    | Broken => len (s_buf s) <= maxPartSize
    | _ => True
    end;
  sz_slot : match s_pc s with Slot _ _ => 1 <= s_nextPart s | _ => True end;
  sz_inflight : forall n part, (n, part) ∈ s_inflight s -> part_fits s n part;
  sz_stored : forall n part, sv_parts s !! n = Some part -> part_fits s n part;
  sz_count : len (s_inflight s) <= uploadConcurrency
}.

Lemma part_fits_mono s s' n part : part_fits s n part -> s_nextPart s <= s_nextPart s' ->
  (s_done s = true -> final (s_pc s) = true -> s_done s' = true /\ final (s_pc s') = true /\ s_nextPart s' = s_nextPart s) ->
  part_fits s' n part.
Proof.
  intros (H1 & H2 & H3 & H4) Hn Hf. split; [done|]. split; [lia|]. split; [done|].
  destruct H4 as [H4|(H4 & H5 & H6)]; [by left|right]. destruct (Hf H4 H5) as (? & ? & ?). split_and!; try done. lia.
Qed.

(** A step that leaves the parts alone. *)
Lemma sizes_same s s' : sizes s -> s_inflight s' = s_inflight s -> (forall n part, sv_parts s' !! n = Some part -> sv_parts s !! n = Some part) ->
  s_nextPart s <= s_nextPart s' ->
  (s_done s = true -> final (s_pc s) = true -> s_done s' = true /\ final (s_pc s') = true /\ s_nextPart s' = s_nextPart s) ->
  (s_nextPart s' <= maxParts \/ match s_pc s' with
    | Loop _ | Flush (KWrite _) | Slot _ _ => False | Idle => s_done s' = true | _ => True end) ->
  match s_pc s' with
    | Idle => s_done s' = true \/ len (s_buf s') < limit first s'
    | Loop _ => len (s_buf s') < limit first s'
    | Flush (KWrite _) => len (s_buf s') = limit first s'
    | Flush KClose => 0 < len (s_buf s') <= maxPartSize
    | Slot part (KWrite _) => len part = partSize first (s_nextPart s')
    | Slot part KClose => 0 < len part <= maxPartSize
    | Broken => len (s_buf s') <= maxPartSize
    | _ => True
    end -> match s_pc s' with Slot _ _ => 1 <= s_nextPart s' | _ => True end -> sizes s'.
Proof.
  intros [Hn Hb Hsl Hin Hst Hc] Hi Hs Hle Hf Hn' Hb' Hsl'. split; [split; [lia|done]|done|done| | |by rewrite Hi].
  - intros n part Hp. rewrite Hi in Hp. eapply part_fits_mono; [by apply Hin|done|done].
  - intros n part Hp. eapply part_fits_mono; [by apply Hst, Hs|done|done].
Qed.

Lemma limit_range s : 0 <= s_nextPart s <= maxParts -> MinPartSize <= limit first s <= maxPartSize.
Proof. intros. apply partSize_range; [done|lia]. Qed.

Ltac same_parts s := apply (sizes_same s); s3_simpl; repeat match goal with H : s_pc _ = _ |- _ => rewrite H in * end; cbn [final] in *;
  try solve [done|by auto|lia|by intros; right|by intros; split_and!; auto].

(** The upload goroutine of part [n] ends. *)
Lemma sizes_ended s s' n part l1 l2 : sizes s -> s_inflight s = l1 ++ (n, part) :: l2 -> s_inflight s' = l1 ++ l2 ->
  (sv_parts s' = <[n := part]> (sv_parts s) \/ sv_parts s' = sv_parts s) -> s_buf s' = s_buf s -> s_nextPart s' = s_nextPart s ->
  s_done s' = s_done s -> s_pc s' = s_pc s -> sizes s'.
Proof.
  intros [Hn Hb Hsl Hin Hst Hc] Hi Hi' Hv Hbuf Hnext Hdone Hpc.
  assert (forall m q, part_fits s m q -> part_fits s' m q) as Hmono.
  { intros m q Hq. eapply part_fits_mono; [exact Hq|lia|]. intros. rewrite Hdone, Hpc. by split_and!. }
  split; unfold limit in *; rewrite ?Hpc, ?Hbuf, ?Hnext, ?Hdone; try done.
  - intros m q Hq. apply Hmono, Hin. rewrite Hi. rewrite Hi' in Hq. by apply elem_of_middle.
  - intros m q Hq. apply Hmono. destruct Hv as [Hv|Hv]; rewrite Hv in Hq; [|by apply Hst].
    apply lookup_insert_Some in Hq as [[<- <-]|[_ Hq]]; [|by apply Hst]. apply Hin. rewrite Hi. apply elem_of_middle_here.
  - rewrite Hi in Hc. rewrite Hi'. rewrite len_app, len_cons in Hc. rewrite len_app. lia.
Qed.

Lemma sizes_launch s part k : control s -> sizes s -> s_pc s = Slot part k -> len (s_inflight s) < uploadConcurrency ->
  sizes (launch part (flushed k) s).
Proof.
  intros Hct [Hn Hb Hsl Hin Hst Hc] Hpc Hl. pose proof (ct_pc _ Hct) as Hp. pose proof (ct_done _ Hct) as Hd. rewrite Hpc in *. destruct Hp as [Hu Hbuf]. s3_simpl.
  assert (s_nextPart s <= maxParts) as Hmax by (destruct Hn as [_ [?|[]]]; done).
  assert (forall n q, part_fits s n q -> part_fits (launch part (flushed k) s) n q) as Hmono.
  { intros n q Hq. eapply part_fits_mono; [exact Hq|done|]. by rewrite Hpc. }
  pose proof (partSize_range first (s_nextPart s) Hfirst ltac:(lia)) as Hr. assert (0 < MinPartSize) by done.
  split; s3_simpl.
  - split; [lia|by left].
  - destruct k; s3_simpl; [|done]. rewrite Hbuf, len_nil. pose proof (limit_range s ltac:(lia)). unfold limit in *. s3_simpl. lia.
  - by destruct k.
  - intros n q Hq. apply elem_of_app in Hq as [Hq|Hq]; [by apply Hmono, Hin|]. apply list_elem_of_singleton in Hq as [= -> ->].
    unfold part_fits. s3_simpl. destruct k; s3_simpl; [split_and!; try lia; by left|]. split_and!; try lia. by right.
  - intros n q Hq. by apply Hmono, Hst.
  - rewrite len_app, len_cons, len_nil. unfold uploadConcurrency in *. lia.
Qed.

Lemma sizes_step s s' : s3step first s s' -> control s -> sizes s -> sizes s'.
Proof.
  intros Hs Hct Hsz. pose proof Hsz as [Hn Hb Hsl Hin Hst Hcnt]. pose proof (ct_done _ Hct) as Hd. pose proof (len_nonneg (s_buf s)) as Hb0.
  assert (0 < MinPartSize) as Hpos by done. pose proof (limit_range s) as Hlim.
  step_cases Hs; try (same_parts s; fail).
  - same_parts s; rewrite Hdn in *; destruct Hn as [_ [?|?]], Hb; by auto.
  - destruct Hn as [Hn0 [Hn|[]]]. specialize (Hlim ltac:(lia)). assert (0 < len p) by (destruct p; [done|rewrite len_cons; len_lia]).
    assert (len (s_buf s ++ ztake n p) = len (s_buf s) + n) as Hl by (rewrite len_app, len_ztake; lia).
    destruct (Z.eqb_spec (len (s_buf s) + n) (limit first s)); same_parts s; rewrite Hl; unfold limit in *; s3_simpl; lia.
  - same_parts s; destruct k; auto; lia.
  - destruct Hn as [? Hn]. destruct k; same_parts s.
  - destruct Hn as [? Hn]. destruct k; same_parts s.
  - by apply sizes_launch.
  - pose proof (ct_pc _ Hct) as Hp. rewrite Hpc in Hp. destruct Hp as [_ Hbuf]. destruct k; same_parts s. rewrite Hbuf. done.
  - eapply sizes_ended; [done|exact Hi|done|by left|done..].
  - eapply sizes_ended; [done|exact Hi|done| |done..]. destruct stored; s3_simpl; auto.
  - same_parts s; try done. by destruct Hn.
  - assert (len (s_buf s) <= maxPartSize) as Hbm.
    { destruct Hpc as [Hpc|Hpc]; rewrite Hpc, ?Hdn in *; [|done]. destruct Hn as [? [?|?]]; [|done]. destruct Hb; [done|lia]. }
    destruct Hpc as [Hpc|Hpc]; (destruct (s_upload s); [destruct (Z.eqb_spec (len (s_buf s)) 0)|]); same_parts s; by rewrite Hdn.
  - same_parts s. by destruct ok.
Qed.
End Sizes.

(** ** The parts hold what was written *)

(** The part a flush has taken from the buffer and not launched. *)
Definition taken (c : pc) : bytes := match c with Slot part _ => part | _ => [] end.
Definition taking (c : pc) : Z := match c with Slot _ _ => 1 | _ => 0 end.

(** [sent] are the parts launched so far, in order: part [n] is on its way or at the
    service. *)
Record holds_parts (s : s3) (sent : list bytes) : Prop := {
  hs_accepted : s_accepted s = concat sent ++ taken (s_pc s) ++ s_buf s;
  hs_next : s_nextPart s = len sent + taking (s_pc s) \/ (maxParts < s_nextPart s /\ s_buf s <> []);
  hs_numbers : map fst (s_inflight s) ++ s_parts s ≡ₚ seqZ 1 (len sent);
  hs_inflight : forall n part, (n, part) ∈ s_inflight s -> sent !! Z.to_nat (n - 1) = Some part;
  hs_stored : forall n, n ∈ s_parts s -> sv_parts s !! n = sent !! Z.to_nat (n - 1)
}.

(** Until the context ends, nothing written is lost. *)
Definition data_kept (s : s3) : Prop := s_canceled s = true \/ exists sent, holds_parts s sent.

Lemma seqZ_snoc n : 0 <= n -> seqZ 1 (n + 1) = seqZ 1 n ++ [n + 1].
Proof. intros Hn. rewrite seqZ_app by lia. f_equal. rewrite seqZ_cons, seqZ_nil by lia. by rewrite (Z.add_comm 1). Qed.

(** Steps of the client that neither take nor launch a part. *)
Lemma holds_same s s' sent : holds_parts s sent -> s_accepted s' = s_accepted s -> s_buf s' = s_buf s -> s_nextPart s' = s_nextPart s ->
  s_inflight s' = s_inflight s -> s_parts s' = s_parts s -> sv_parts s' = sv_parts s ->
  taken (s_pc s') = taken (s_pc s) -> taking (s_pc s') = taking (s_pc s) -> holds_parts s' sent.
Proof. intros [Ha Hn Hnum Hin Hst] E1 E2 E3 E4 E5 E6 E7 E8. split; rewrite ?E1, ?E2, ?E3, ?E4, ?E5, ?E6, ?E7, ?E8; done. Qed.

Lemma holds_launch s sent part k : holds_parts s sent -> s_pc s = Slot part k -> s_nextPart s <= maxParts ->
  holds_parts (launch part (flushed k) s) (sent ++ [part]).
Proof.
  intros [Ha Hn Hnum Hin Hst] Hpc Hmax. rewrite Hpc in *. cbn [taken taking] in *. pose proof (len_nonneg sent).
  assert (s_nextPart s = len sent + 1) as Hnext by (destruct Hn as [?|[? _]]; lia).
  assert (forall n, 1 <= n <= len sent -> (sent ++ [part]) !! Z.to_nat (n - 1) = sent !! Z.to_nat (n - 1)) as Hlk
    by (intros n Hr; apply lookup_app_l; unfold len in *; lia).
  assert (forall n, n ∈ map fst (s_inflight s) ++ s_parts s -> 1 <= n <= len sent) as Hrange by (intros n; rewrite Hnum, elem_of_seqZ; lia).
  assert (taken (flushed k) = [] /\ taking (flushed k) = 0) as [Ht1 Ht2] by (by destruct k).
  split; s3_simpl; rewrite ?Ht1, ?Ht2, ?app_nil_l.
  - by rewrite concat_app, Ha, <- app_assoc; cbn; rewrite app_nil_r.
  - left. rewrite len_app, len_cons, len_nil. lia.
  - rewrite map_app, len_app, len_cons, len_nil. cbn [map fst]. change (1 + 0) with 1. rewrite seqZ_snoc, <- Hnum, <- Hnext by lia.
    rewrite <- !app_assoc. apply Permutation_app_head, Permutation_app_comm.
  - intros n q Hq. apply elem_of_app in Hq as [Hq|Hq].
    + rewrite Hlk; [by apply Hin|]. apply Hrange, elem_of_app. left. apply list_elem_of_fmap. by exists (n, q).
    + apply list_elem_of_singleton in Hq as [= -> ->]. rewrite Hnext. rewrite lookup_app_r by (unfold len; lia).
      replace (Z.to_nat (len sent + 1 - 1) - length sent)%nat with 0%nat by (unfold len; lia). done.
  - intros n Hq. rewrite Hlk; [by apply Hst|]. apply Hrange, elem_of_app. by right.
Qed.

Lemma holds_uploaded s sent n part l1 l2 : holds_parts s sent -> s_inflight s = l1 ++ (n, part) :: l2 ->
  holds_parts (uploaded n (l1 ++ l2) part s) sent.
Proof.
  intros [Ha Hn Hnum Hin Hst] Hi. assert (NoDup (map fst (s_inflight s) ++ s_parts s)) as Hnd by (rewrite Hnum; apply NoDup_seqZ).
  rewrite Hi in Hnum, Hnd. rewrite map_app in Hnum, Hnd. cbn [map fst] in *.
  split; s3_simpl; [done|done| | |].
  - rewrite <- Hnum, map_app. rewrite <- !app_assoc. apply Permutation_app_head. cbn [app]. symmetry. rewrite (app_assoc (map fst l2)). apply Permutation_cons_append.
  - intros m q Hq. apply Hin. rewrite Hi. by apply elem_of_middle.
  - intros m Hm. apply elem_of_app in Hm as [Hm|Hm].
    + rewrite lookup_insert_ne; [by apply Hst|]. intros ->. apply NoDup_app in Hnd as (_ & Hnd & _). apply (Hnd m); [|done].
      apply elem_of_middle_here.
    + apply list_elem_of_singleton in Hm as ->. rewrite lookup_insert_eq. symmetry. apply Hin. rewrite Hi. apply elem_of_middle_here.
Qed.

Lemma data_step first s s' : MinPartSize <= first <= maxPartSize -> s3step first s s' -> control s -> sizes first s -> data_kept s -> data_kept s'.
Proof.
  intros Hfirst Hs Hct Hsz [Hcan|(sent & Hh)].
  { left. destruct Hs; s3_simpl; try done; by rewrite Hcan. }
  pose proof (sz_next _ _ Hsz) as Hnx. pose proof (sz_buf _ _ Hsz) as Hbf.
  assert (forall s1, s1 = s' -> s_accepted s1 = s_accepted s -> s_buf s1 = s_buf s -> s_nextPart s1 = s_nextPart s ->
    s_inflight s1 = s_inflight s -> s_parts s1 = s_parts s -> sv_parts s1 = sv_parts s ->
    taken (s_pc s1) = taken (s_pc s) -> taking (s_pc s1) = taking (s_pc s) -> data_kept s') as Hsame.
  { intros s1 -> ? ? ? ? ? ? ? ?. right. exists sent. by eapply holds_same. }
  step_cases Hs; try (by left); try (eapply Hsame; [reflexivity|..]; s3_simpl; rewrite ?Hpc; try done; by destruct k).
  - right. exists sent. clear Hsame. destruct Hh as [Ha Hn Hnum Hin Hst]. rewrite Hpc in *. cbn [taken taking] in *.
    split; s3_simpl; [|destruct Hn as [Hn|[Hn Hb]]; [left; by destruct (_ =? _)|right; split; [done|by destruct (s_buf s)]]|done|done|done].
    rewrite Ha. assert (taken (if len (s_buf s) + n =? limit first s then Flush (KWrite (zdrop n p)) else Loop (zdrop n p)) = []) as -> by (by destruct (_ =? _)).
    by rewrite !app_nil_l, <- app_assoc.
  - right. exists sent. clear Hsame. destruct Hh as [Ha Hn Hnum Hin Hst]. rewrite Hpc in *. cbn [taken taking] in *.
    split; s3_simpl; cbn [taken taking]; [by rewrite app_nil_r, Ha|left; destruct Hn as [?|[? _]]; lia|done|done|done].
  - assert (s_buf s <> []) as Hne.
    { intros Hz. rewrite Hz, len_nil in Hbf. destruct k; [|lia]. destruct Hnx as [? [?|[]]]. pose proof (limit_range first Hfirst s ltac:(lia)).
      unfold MinPartSize in *. lia. }
    right. exists sent. clear Hsame. destruct Hh as [Ha Hn Hnum Hin Hst]. rewrite Hpc in *.
    assert (taken (flush_failed k) = []) as Ht by (by destruct k). split; s3_simpl; rewrite ?Ht; [done|right; split; [lia|done]|done|done|done].
  - right. exists (sent ++ [part]). destruct Hnx as [_ [?|[]]]. by apply holds_launch.
  - right. exists sent. by apply holds_uploaded.
  - eapply Hsame; [reflexivity|..]; s3_simpl; try done; destruct Hpc as [-> | ->]; (destruct (s_upload s); [by destruct (_ =? _)|done]).
  - left. s3_simpl. apply orb_true_r.
Qed.

(** ** The object *)

(** What [Close] completes is what was accepted. *)
Lemma assemble_sent s sent object : holds_parts s sent -> s_inflight s = [] -> s_pc s = Wait false -> s_buf s = [] ->
  assemble (sv_parts s) (sorted_parts s) = Some object -> object = s_accepted s.
Proof.
  intros [Ha _ Hnum _ Hst] Hi Hpc Hbuf Has. rewrite Hpc, Hbuf in Ha. cbn [taken] in Ha. rewrite !app_nil_r in Ha.
  rewrite Hi in Hnum. cbn [map app] in Hnum.
  assert (sorted_parts s = seqZ 1 (len sent)) as Hs.
  { unfold sorted_parts. eapply (StronglySorted_unique Z.le); [apply (StronglySorted_merge_sort Z.le)| |by rewrite merge_sort_Permutation].
    clear. unfold len. generalize (length sent) as n. intros n. generalize 1. induction n as [|n IH]; intros m; [constructor|].
    rewrite seqZ_cons by lia. replace (Z.pred (Z.of_nat (S n))) with (Z.of_nat n) by lia. constructor; [apply IH|].
    apply Forall_forall. intros x Hx. apply elem_of_seqZ in Hx. lia. }
  unfold assemble in Has. rewrite Hs in Has.
  assert (mapM (fun n => sv_parts s !! n) (seqZ 1 (len sent)) = Some sent) as Hm; [|rewrite Hm in Has; congruence].
  apply mapM_Some. apply Forall2_same_length_lookup_2; [rewrite length_seqZ; unfold len; lia|].
  intros i n part Hn Hp. apply lookup_seqZ in Hn as [-> Hi']. rewrite Hst.
  - by replace (Z.to_nat (1 + Z.of_nat i - 1)) with i by lia.
  - rewrite Hnum. apply elem_of_seqZ. lia.
Qed.

(** The object is the old one until [Close] puts or completes what was accepted. *)
Definition object_good (old : option bytes) (s : s3) : Prop :=
  (sv_object s = old \/ (s_done s = true /\ sv_object s = Some (s_accepted s))) /\
  (s_closed s = Some true -> sv_object s = Some (s_accepted s)).

Lemma object_step first old s s' : s3step first s s' -> control s -> data_kept s -> object_good old s -> object_good old s'.
Proof.
  intros Hs Hct Hk [Ho Hcl]. pose proof (ct_done _ Hct) as Hd. pose proof (ct_pc _ Hct) as Hcp.
  assert (forall object, s_pc s = Wait false -> s_inflight s = [] -> s_canceled s = false ->
    assemble (sv_parts s) (sorted_parts s) = Some object -> object = s_accepted s) as Hasm.
  { intros object Hpc Hi Hc Has. destruct Hk as [Hk|[sent Hk]]; [by rewrite Hc in Hk|]. rewrite Hpc in Hcp. destruct Hcp. by eapply assemble_sent. }
  assert (s_pc s = Put -> s_accepted s = s_buf s) as Hput by (intros Hpc; rewrite Hpc in Hcp; by destruct (ct_single _ Hct Hcp)).
  step_cases Hs; unfold object_good; s3_simpl; try done.
  - pose proof (ct_closed _ Hct) as Hclosed. split; [left; destruct Ho as [?|[? _]]; congruence|].
    intros Hc. rewrite Hc in Hclosed. by rewrite Hclosed in Hd.
  - split; [|done]. destruct Ho as [?|[? ?]]; [by left|by right].
  - rewrite (Hput eq_refl). split; [by right|done].
  - split; [|done]. destruct stored; [right; by rewrite (Hput eq_refl)|done].
  - rewrite (Hasm object) by done. split; [by right|done].
  - rewrite (Hasm object) by done. split; [by right|done].
  - split; [|done]. destruct Ho as [?|[? ?]]; [by left|by right].
  - split; [done|]. destruct closing; [done|done].
Qed.

(** ** Every s3_reachable state *)

Record upload_good (first : Z) (old : option bytes) (s : s3) : Prop := {
  ug_control : control s;
  ug_sizes : sizes first s;
  ug_data : data_kept s;
  ug_object : object_good old s
}.

Lemma upload_good_step first old s s' : MinPartSize <= first <= maxPartSize -> s3step first s s' ->
  upload_good first old s -> upload_good first old s'.
Proof. intros Hfirst Hs [Hc Hz Hk Ho]. split; [by eapply control_step|by eapply sizes_step|by eapply data_step|by eapply object_step]. Qed.

Lemma sizes_new first old : MinPartSize <= first <= maxPartSize -> sizes first (new_s3 old).
Proof.
  intros Hfirst. pose proof (partSize_range first 1 Hfirst ltac:(done)) as Hr. unfold MinPartSize in Hr.
  split; cbn -[limit]; try done; [split; [done|by left]|right|by intros ? ? ?%elem_of_nil].
  unfold limit. cbn -[partSize]. change (0 + 1) with 1. rewrite len_nil. lia.
Qed.

Lemma data_new old : data_kept (new_s3 old).
Proof. right. exists []. split; cbn; try done; [by left|by intros ? ? ?%elem_of_nil]. Qed.

Lemma reachable_good first old s : MinPartSize <= first <= maxPartSize -> s3_reachable first old s -> upload_good first old s.
Proof.
  intros Hfirst. induction 1; [|by eapply upload_good_step].
  split; [by split|by apply sizes_new|apply data_new|split; [by left|done]].
Qed.

(** A run: two bytes are written, and [Close] puts them over the old object. *)
Definition run_written : s3 := take_in 2 (str "ab") (Loop []) (set_pc (Loop (str "ab")) (new_s3 (Some (str "old")))).
Definition run_closed : s3 := closed true (Some (str "ab")) ∅ (finish false Put (set_pc Idle run_written)).

Lemma run_reachable : s3_reachable MinPartSize (Some (str "old")) run_written /\ s3_reachable MinPartSize (Some (str "old")) run_closed.
Proof.
  assert (s3_reachable MinPartSize (Some (str "old")) run_written) as Hw.
  { eapply reach_step; [eapply reach_step; [apply reach_new|by apply (CallWrite _ _ (str "ab"))]|].
    by apply (WriteFill MinPartSize (set_pc (Loop (str "ab")) (new_s3 (Some (str "old")))) (str "ab") 2). }
  split; [done|]. eapply reach_step; [eapply reach_step; [eapply reach_step; [exact Hw|by apply WriteEnd]|]|].
  - apply CallClose; [by left|done].
  - by apply (PutObject _ (finish false Put (set_pc Idle run_written))).
Qed.

(** C12. Uploads are atomic. In every state any interleaving of the client, the upload goroutines
    and failures can reach, the object visible under the key is the one that was there
    before or exactly the bytes the writer accepted, in order, never a part of them; it is
    only replaced once [Close] was called; and when [Close] has returned success it is what
    was accepted. *)
Theorem s3_upload_atomic (first : Z) (old : option bytes) (s : s3) (Hfirst : MinPartSize <= first <= maxPartSize)
  (Hr : s3_reachable first old s) :
  (sv_object s = old \/ (s_done s = true /\ sv_object s = Some (s_accepted s))) /\
  (s_closed s = Some true -> sv_object s = Some (s_accepted s)).
Proof. apply (ug_object _ _ _ (reachable_good first old s Hfirst Hr)). Qed.

Lemma s3_upload_atomic_witness : s_closed run_closed = Some true /\ sv_object run_closed = Some (str "ab").
Proof.
  split; [done|]. apply (s3_upload_atomic MinPartSize (Some (str "old")) run_closed); [done|apply run_reachable|done].
Defined.

(** C31. The limits of the service hold. At any time at most [uploadConcurrency] parts are on
    their way; every part sent has a number from 1 to [maxParts] and at most [maxPartSize]
    bytes; and it has the size planned for its number, which is at least [MinPartSize],
    unless it is the last part, which [Close] sends and which is not empty. *)
Theorem s3_parts_bounded (first : Z) (old : option bytes) (s : s3) (Hfirst : MinPartSize <= first <= maxPartSize)
  (Hr : s3_reachable first old s) :
  len (s_inflight s) <= uploadConcurrency /\
  (forall n part, (n, part) ∈ s_inflight s \/ sv_parts s !! n = Some part ->
    1 <= n <= maxParts /\ 0 < len part <= maxPartSize /\
    ((MinPartSize <= len part /\ len part = partSize first n) \/ (s_done s = true /\ n = s_nextPart s))).
Proof.
  destruct (ug_sizes _ _ _ (reachable_good first old s Hfirst Hr)) as [_ _ _ Hin Hst Hc]. split; [done|].
  intros n part Hp. assert (part_fits first s n part) as (Hn & _ & Hl & Hs) by (destruct Hp; auto).
  split; [done|]. split; [done|]. pose proof (partSize_range first n Hfirst ltac:(lia)).
  destruct Hs as [Hs|(? & _ & ?)]; [left; lia|by right].
Qed.

(** A full part is on its way. *)
Lemma part_reachable old p : len p = MinPartSize -> exists s, s3_reachable MinPartSize old s /\ s_inflight s = [(1, p)].
Proof.
  intros Hl. assert (limit MinPartSize (new_s3 old) = MinPartSize) as Hlim by done.
  assert (ztake MinPartSize p = p) as Ht by (by apply ztake_all).
  assert (p <> []) as Hp by (intros ->; by rewrite len_nil in Hl).
  pose proof (WriteFill MinPartSize (set_pc (Loop p) (new_s3 old)) p MinPartSize eq_refl Hp eq_refl) as Hf.
  cbn [set_pc s_buf new_s3] in Hf. rewrite len_nil, Z.add_0_l in Hf. change (limit MinPartSize _) with MinPartSize in Hf.
  rewrite Hl, Z.sub_0_r, Z.min_id, Z.eqb_refl in Hf. specialize (Hf eq_refl).
  eexists. split; [|shelve].
  eapply reach_step; [eapply reach_step; [eapply reach_step; [eapply reach_step; [eapply reach_step; [apply reach_new|by apply (CallWrite _ _ p)]|exact Hf]|]|]|].
  - by eapply CreateUpload.
  - by eapply NumberPart.
  - by eapply TakeSlot.
  Unshelve. cbn. by rewrite Ht.
Qed.

Lemma s3_parts_bounded_witness : exists s n part, (n, part) ∈ s_inflight s /\ 1 <= n <= maxParts /\ 0 < len part <= maxPartSize.
Proof.
  destruct (part_reachable None (replicate (Z.to_nat MinPartSize) Byte.x00)) as (s & Hr & Hi); [rewrite len_replicate; by apply Z2Nat.id|].
  exists s, 1, (replicate (Z.to_nat MinPartSize) Byte.x00). assert ((1, replicate (Z.to_nat MinPartSize) Byte.x00) ∈ s_inflight s) as Hin
    by (rewrite Hi; constructor).
  split; [done|]. destruct (s3_parts_bounded MinPartSize None s) as [_ Hb]; [done|done|].
  destruct (Hb _ _ (or_introl Hin)) as (? & ? & _). by split.
Defined.

(** ** Progress *)

Definition in_call (s : s3) : bool := match s_pc s with Idle | Broken => false | _ => true end.

(** Every run from [s] ends the call in progress: until it has returned some step is possible,
    and whatever steps are taken there are finitely many. *)
Inductive returns (first : Z) (s : s3) : Prop :=
  | ret_done : in_call s = false -> returns first s
  | ret_step s1 : s3step first s s1 -> (forall s', s3step first s s' -> returns first s') -> returns first s.

(** The work left in a call. *)
Definition pc_weight (c : pc) : Z :=
  match c with
  | Idle | Broken => 0
  | Loop p => 10 * len p + 1
  | Flush (KWrite p) => 10 * len p + 8
  | Slot _ (KWrite p) => 10 * len p + 6
  | Flush KClose => 20
  | Slot _ KClose => 18
  | Wait _ | WaitAbort => 10
  | Put => 5
  | Discard _ => 3
  end.

Definition call_weight (s : s3) : Z :=
  pc_weight (s_pc s) + 2 * len (s_inflight s) + (if s_upload s then 0 else 1) + (if s_canceled s then 0 else 1).

Lemma pc_weight_nonneg c : 0 <= pc_weight c.
Proof. destruct c as [| |p|[p|]|? [p|]| | | |]; cbn; try lia; len_lia. Qed.

Lemma call_weight_nonneg s : 0 <= call_weight s.
Proof.
  unfold call_weight. pose proof (pc_weight_nonneg (s_pc s)). pose proof (len_nonneg (s_inflight s)).
  destruct (s_upload s), (s_canceled s); lia.
Qed.

Lemma ended_len (s : s3) n part l1 l2 : s_inflight s = l1 ++ (n, part) :: l2 -> len (l1 ++ l2) = len (s_inflight s) - 1.
Proof. intros ->. rewrite !len_app, len_cons. lia. Qed.

Lemma step_lighter first s s' : MinPartSize <= first <= maxPartSize -> sizes first s -> in_call s = true -> s3step first s s' ->
  call_weight s' < call_weight s.
Proof.
  intros Hfirst Hsz Hin Hs. pose proof (sz_buf _ _ Hsz) as Hb. unfold call_weight, in_call in *.
  step_cases Hs; try done; try (destruct Hpc as [Hpc|Hpc]; by rewrite Hpc in Hin);
    try (rewrite (ended_len s n part l1 l2 Hi); destruct (s_canceled s); lia);
    repeat match goal with k : after_flush |- _ => destruct k end; rewrite ?Hpc, ?Hu, ?Hc, ?len_app, ?len_cons, ?(len_nil (A := byte)), ?len_nil in *;
    cbn [pc_weight flush_failed flushed] in *;
    try (pose proof (len_nonneg p)); try (destruct (s_canceled s); lia).
  { change (len (A := byte) []) with 0. destruct (s_upload s), (s_canceled s); lia. }
  assert (0 < len p) by (destruct p; [done|rewrite len_cons; len_lia]).
  assert (len (zdrop n p) = len p - n) as Hl by (rewrite len_zdrop; lia).
  destruct (_ =? _); cbn [pc_weight]; lia.
Qed.

(** A call in progress is never stuck. *)
Lemma call_steps first s : in_call s = true -> exists s', s3step first s s'.
Proof.
  unfold in_call. intros Hin.
  assert (s_inflight s = [] \/ exists s', s3step first s s') as [Hi|?]; [|destruct (s_pc s) as [| |p|k|part k| |failed| |closing] eqn:Hpc|done].
  - destruct (s_inflight s) as [|[n part] l] eqn:Hi; [by left|right]. eexists. by apply (Uploaded _ _ n part [] l).
  - done.
  - done.
  - destruct p as [|b p]; [eexists; by apply WriteEnd|]. destruct (s_err s) eqn:He; eexists; [by eapply WriteErr|by eapply WriteFill].
  - destruct (s_upload s) eqn:Hu; [|eexists; by eapply CreateUpload].
    destruct (Z.le_gt_cases (s_nextPart s + 1) maxParts); eexists; [by eapply NumberPart|eapply TooManyParts; [done|done|lia]].
  - eexists. eapply TakeSlot; [done|]. by rewrite Hi.
  - eexists. by apply (PutFailed _ _ false).
  - destruct (failed || s_err s) eqn:Hf; eexists; [by eapply WaitFailed|]. apply orb_false_iff in Hf as [-> ?]. by eapply CompleteFailed.
  - eexists. by apply AbortWaited.
  - eexists. by apply (Discarded _ _ closing true).
Qed.

Lemma good_returns first old w s : MinPartSize <= first <= maxPartSize -> upload_good first old s -> call_weight s < Z.of_nat w -> returns first s.
Proof.
  intros Hfirst. revert s. induction w as [|w IH]; intros s Hg Hw; [pose proof (call_weight_nonneg s); lia|].
  destruct (in_call s) eqn:Hin; [|by apply ret_done]. destruct (call_steps first s Hin) as [s1 Hs1].
  apply (ret_step _ _ s1); [done|]. intros s' Hs'. apply IH; [by eapply upload_good_step|].
  pose proof (step_lighter first s s' Hfirst (ug_sizes _ _ _ Hg) Hin Hs'). lia.
Qed.

(** C30. No call blocks for good. From every s3_reachable state the call in progress returns,
    whichever steps the uploads, the failures and the client take: until it does there is
    always a step to take, and no run of steps is infinite. *)
Theorem s3_calls_return (first : Z) (old : option bytes) (s : s3) (Hfirst : MinPartSize <= first <= maxPartSize)
  (Hr : s3_reachable first old s) : returns first s.
Proof.
  apply (good_returns first old (Z.to_nat (call_weight s + 1))); [done|by apply reachable_good|].
  pose proof (call_weight_nonneg s). lia.
Qed.

Lemma s3_calls_return_witness : in_call run_written = true /\ returns MinPartSize run_written.
Proof. split; [done|]. apply (s3_calls_return MinPartSize (Some (str "old")) run_written); [done|apply run_reachable]. Defined.
