(* ===== verification/S3Writer.v ===== *)
(** * The S3 writer as a storage writer

    One call of the interface is a run of steps of [s3step]: what uploads and the context do
    between calls, then the steps of the call up to its return. The laws of the interface
    follow from the invariants of every reachable state. *)

From stdpp Require Import gmap sorting relations.
From S2P Require Import Prelude Bytes Storage RangeReader S3Upload S3Proofs.
Open Scope go_scope.

Section S3Writer.
Context (first : Z) (Hfirst : MinPartSize <= first <= maxPartSize).

(** Between calls, and during one. *)
Definition background : s3 -> s3 -> Prop := rtc (fun s s' => in_call s = false /\ s3step first s s' /\ s_pc s' = s_pc s).
Definition running : s3 -> s3 -> Prop := rtc (fun s s' => in_call s = true /\ s3step first s s').

#[local] Instance s3_writer : StorageWriter s3 := {
  sw_object := sv_object;
  sw_Write p s n ok s' :=
    if s_done s then n = 0 /\ ok = false /\ s' = s
    else exists s0, background s s0 /\ s_pc s0 = Idle /\ running (set_pc (Loop p) s0) s' /\ in_call s' = false /\
      n = len (s_accepted s') - len (s_accepted s) /\ ok = match s_pc s' with Idle => true | _ => false end;
  sw_Close s ok s' :=
    if s_done s then ok = true /\ s' = s
    else exists s0, background s s0 /\ running (finish false (close_pc s0) s0) s' /\ in_call s' = false /\ s_closed s' = Some ok;
  sw_Abort s ok s' :=
    if s_done s then ok = true /\ s' = s
    else exists s0, background s s0 /\ running (finish true WaitAbort s0) s' /\ in_call s' = false
}.

(** ** Open writers *)

Abbreviation good := (upload_good first).

Definition s3_open (old : option bytes) (acc : bytes) (s : s3) : Prop :=
  good old s /\ s_done s = false /\ in_call s = false /\ s_accepted s = acc.

Definition s3_done (s : s3) : Prop := s_done s = true /\ in_call s = false.

Lemma idle_pc s : in_call s = false -> s_pc s = Idle \/ s_pc s = Broken.
Proof. unfold in_call. destruct (s_pc s); auto; discriminate. Qed.

Lemma background_open old acc s s' : background s s' -> s3_open old acc s -> s3_open old acc s'.
Proof.
  intros Hb. induction Hb as [|s1 s2 s3' (Hi & Hs & Hpc) _ IH]; [done|]. intros (Hg & Hd & _ & Ha). apply IH.
  split; [by eapply upload_good_step|]. assert (s_done s2 = false /\ s_accepted s2 = acc) as [? ?].
  { clear Hg IH. apply idle_pc in Hi. destruct Hs; s3_simpl; destruct Hi as [Hi|Hi]; try done; rewrite ?Hi in *; try done; try congruence;
      (destruct (s_upload s1); [destruct (_ =? _)|]; done). }
  split_and!; try done. unfold in_call in *. by rewrite Hpc.
Qed.

(** ** Writing *)

(** During a [Write] of [p] after [acc]: the rest of [p] is what the call still has. *)
Definition writing (old : option bytes) (acc p : bytes) (s : s3) : Prop :=
  good old s /\ s_done s = false /\ exists a q, s_accepted s = acc ++ a /\ p = a ++ q /\
    match s_pc s with Loop q' | Flush (KWrite q') | Slot _ (KWrite q') => q' = q | Broken => True | Idle => q = [] | _ => False end.

Lemma writing_step old acc data s s' : writing old acc data s -> in_call s = true -> s3step first s s' -> writing old acc data s'.
Proof.
  intros (Hg & Hd & a & q & Ha & Hdata & Hq) Hin Hs. split; [by eapply upload_good_step|]. clear Hg. unfold in_call in Hin.
  assert (forall s1, s1 = s' -> s_done s1 = s_done s -> s_accepted s1 = s_accepted s ->
    match s_pc s1 with Loop q' | Flush (KWrite q') | Slot _ (KWrite q') => q' = q | Broken => True | Idle => q = [] | _ => False end ->
    s_done s' = false /\ exists a q, s_accepted s' = acc ++ a /\ data = a ++ q /\
    match s_pc s' with Loop q' | Flush (KWrite q') | Slot _ (KWrite q') => q' = q | Broken => True | Idle => q = [] | _ => False end) as Hsame.
  { intros s1 -> Hd1 Ha1 Hq1. split; [congruence|]. exists a, q. by rewrite Ha1. }
  step_cases Hs; try done; try (eapply Hsame; [reflexivity|done|done|]; s3_simpl; try rewrite Hpc; try (by destruct k); done);
    try (destruct Hpc as [Hpc|Hpc]; by rewrite Hpc in Hin); try (by destruct failed).
  split; [done|]. subst q. exists (a ++ ztake n p), (zdrop n p). rewrite Ha, Hdata, <- !app_assoc, ztake_zdrop.
  split; [done|]. split; [done|]. by destruct (_ =? _).
Qed.

(** ** Closing *)

(** During [Close] and after it, nothing more is accepted. *)
Definition closing (old : option bytes) (acc : bytes) (s : s3) : Prop := good old s /\ s_done s = true /\ s_accepted s = acc.

Lemma closing_step old acc s s' : closing old acc s -> s3step first s s' -> closing old acc s'.
Proof.
  intros (Hg & Hd & Ha) Hs. split; [by eapply upload_good_step|]. pose proof (ct_done _ (ug_control _ _ _ Hg)) as Hct. clear Hg.
  step_cases Hs; try done; congruence.
Qed.

(** During [Abort], the object stays. *)
Definition aborting (object : option bytes) (s : s3) : Prop :=
  s_done s = true /\ sv_object s = object /\ (s_pc s = WaitAbort \/ s_pc s = Discard false \/ s_pc s = Idle).

Lemma aborting_step object s s' : aborting object s -> s3step first s s' -> aborting object s'.
Proof.
  intros (Hd & Ho & Hp) Hs. destruct Hs; s3_simpl; try (by destruct Hp as [Hp|[Hp|Hp]]; congruence); split_and!; s3_simpl; auto.
Qed.

Lemma running_keeps (P : s3 -> Prop) s s' : (forall s s', P s -> in_call s = true -> s3step first s s' -> P s') -> P s -> running s s' -> P s'.
Proof. intros HP Hs Hr. induction Hr as [|s1 s2 s3' [Hi Hst] _ IH]; [done|]. apply IH. by eapply HP. Qed.

#[local, refine] Instance s3_writer_laws : StorageWriterLaws s3 := {
  sw_open := s3_open;
  sw_done := s3_done;
  sw_open_object := _;
  sw_open_write := _;
  sw_open_close := _;
  sw_open_abort := _;
  sw_done_close := _;
  sw_done_abort := _
}.
Proof.
  - intros old acc s (Hg & Hd & _ & _). destruct (ug_object _ _ _ Hg) as [[?|[? _]] _]; [done|congruence].
  - intros old acc s p n ok s' Ho Hw. pose proof Ho as (_ & Hd & _). cbn in Hw. rewrite Hd in Hw.
    destruct Hw as (s0 & Hb & Hi & Hr & Hc & Hn & Hok). pose proof Ho as (_ & _ & _ & Hacc).
    apply (background_open old acc) in Hb as (Hg0 & Hd0 & _ & Ha0); [|done].
    assert (writing old acc p s') as (Hg & Hd' & a & q & Ha & Hp & Hq).
    { eapply running_keeps; [intros; by eapply writing_step| |exact Hr].
      split; [eapply upload_good_step; [done| |exact Hg0]; by apply CallWrite|]. split; [done|]. exists [], p. by rewrite app_nil_r. }
    assert (ztake n p = a) as -> by (rewrite Hn, Ha, Hacc, Hp, len_app; apply ztake_app; lia).
    split; [by split_and!|]. intros ->. destruct (s_pc s'); try done. subst q. by rewrite Hp, app_nil_r.
  - intros old acc s ok s' Ho Hw. pose proof Ho as (_ & Hd & _). cbn in Hw. rewrite Hd in Hw.
    destruct Hw as (s0 & Hb & Hr & Hc & Hcl). apply (background_open old acc) in Hb as (Hg0 & Hd0 & Hi0 & Ha0); [|done].
    assert (closing old acc s') as (Hg & Hd' & Ha).
    { eapply running_keeps; [intros; by eapply closing_step| |exact Hr].
      split; [eapply upload_good_step; [done| |exact Hg0]; apply CallClose; [by apply idle_pc|done]|done]. }
    split; [done|]. destruct (ug_object _ _ _ Hg) as [Hobj Hok]. rewrite Hcl, Ha in *. cbn. destruct ok; [left; by apply Hok|].
    destruct Hobj as [?|[_ ?]]; auto.
  - intros old acc s ok s' Ho Hw. pose proof Ho as (_ & Hd & _). cbn in Hw. rewrite Hd in Hw.
    destruct Hw as (s0 & Hb & Hr & Hc). apply (background_open old acc) in Hb as (Hg0 & Hd0 & Hi0 & Ha0); [|done].
    assert (aborting old s') as (Hd' & Hobj & _); [|done].
    eapply running_keeps; [intros; by eapply aborting_step| |exact Hr]. split; [done|]. split; [|by left]. s3_simpl.
    destruct (ug_object _ _ _ Hg0) as [[?|[? _]] _]; [done|congruence].
  - intros s ok s' [Hd Hi] Hw. cbn in Hw. rewrite Hd in Hw. by destruct Hw as [_ ->].
  - intros s ok s' [Hd Hi] Hw. cbn in Hw. rewrite Hd in Hw. by destruct Hw as [_ ->].
Defined.
End S3Writer.
