(* ===== verification/CloudStores.v ===== *)
(** * The Azure and Google backends (storage/azblob/azblob.go, storage/gcs/gcs.go)

    Both hand the bytes to an uploader of their SDK. Azure's reads a pipe in a goroutine and
    commits the blob when it has read to the end; Google's writer makes the object when it
    is closed on a context that has not ended. What the uploader does in each call is an
    argument of the operation. Both are instances of the storage interface. *)

From stdpp Require Import gmap.
From S2P Require Import Prelude Bytes IndexCodec Storage RangeReader S3Upload.
Open Scope go_scope.

(** How committing an object ends: done, refused, or done with the answer lost. *)
Inductive commit := Committed | CommitFailed | CommitLost.

Definition commit_ok (c : commit) : bool := match c with Committed => true | _ => false end.
Definition commit_object (c : commit) (data : bytes) (old : option bytes) : option bytes :=
  match c with CommitFailed => old | _ => Some data end.

(** ** Azure: the pipe and the upload *)

(** The upload goroutine: reading the pipe, or ended with what [UploadStream] returned and the
    channel holds: success, the error of an abort, or another. *)
Inductive azResult := AzOk | AzAborted | AzFailed.
Inductive azUpload := AzReading | AzEnded (r : azResult).

Record azWriter := mk_az { az_read : bytes; az_upload : azUpload; az_done : bool; az_object : option bytes }.

Definition az_Create (object : option bytes) : azWriter := mk_az [] AzReading false object.

(** The upload fails by itself, between calls or in one. *)
Definition az_fail (w : azWriter) : azWriter :=
  match az_upload w with AzReading => mk_az (az_read w) (AzEnded AzFailed) (az_done w) (az_object w) | _ => w end.

(** [Write] passes [p] through the pipe; [fail] is how much of it the upload reads before it
    fails. A pipe closed at either end takes nothing. *)
Definition az_Write (p : bytes) (fail : option Z) (w : azWriter) : Z * bool * azWriter :=
  if az_done w then (0, false, w)
  else match az_upload w with
       | AzEnded _ => (0, false, w)
       | AzReading =>
           match fail with
           | None => (len p, true, mk_az (az_read w ++ p) AzReading false (az_object w))
           | Some k => let n := Z.max 0 (Z.min k (len p)) in
                       (n, false, mk_az (az_read w ++ ztake n p) (AzEnded AzFailed) false (az_object w))
           end
       end.

(** [Close]: the upload reads the end of the pipe and commits, unless it failed before. *)
Definition az_Close (c : commit) (w : azWriter) : bool * azWriter :=
  if az_done w then (true, w)
  else match az_upload w with
       | AzReading => (commit_ok c, mk_az (az_read w) (AzEnded (if commit_ok c then AzOk else AzFailed)) true
                         (commit_object c (az_read w) (az_object w)))
       | AzEnded r => (match r with AzOk => true | _ => false end, mk_az (az_read w) (az_upload w) true (az_object w))
       end.

(** [Abort]: the upload reads the abort error from the pipe and ends with it, or with another
    error. *)
Definition az_Abort (other : bool) (w : azWriter) : bool * azWriter :=
  if az_done w then (true, w)
  else
    let u := match az_upload w with AzReading => AzEnded (if other then AzFailed else AzAborted) | u => u end in
    (match u with AzEnded AzFailed => false | _ => true end, mk_az (az_read w) u true (az_object w)).

(** ** Google: the SDK's writer *)

Record gcsWriter := mk_gcs { gcs_sent : bytes; gcs_failed : bool; gcs_done : bool; gcs_object : option bytes }.

Definition gcs_Create (object : option bytes) : gcsWriter := mk_gcs [] false false object.

(** [fail] is how much of [p] the SDK takes before it fails; after a failure it takes nothing. *)
Definition gcs_Write (p : bytes) (fail : option Z) (w : gcsWriter) : Z * bool * gcsWriter :=
  if gcs_done w || gcs_failed w then (0, false, w)
  else match fail with
       | None => (len p, true, mk_gcs (gcs_sent w ++ p) false false (gcs_object w))
       | Some k => let n := Z.max 0 (Z.min k (len p)) in (n, false, mk_gcs (gcs_sent w ++ ztake n p) true false (gcs_object w))
       end.

(** [Close] finalizes the upload, unless it failed before. *)
Definition gcs_Close (c : commit) (w : gcsWriter) : bool * gcsWriter :=
  if gcs_done w then (true, w)
  else
    let c := if gcs_failed w then CommitFailed else c in
    (commit_ok c, mk_gcs (gcs_sent w) (gcs_failed w) true (commit_object c (gcs_sent w) (gcs_object w))).

(** [Abort] ends the context first, so the close that follows does not finalize. *)
Definition gcs_Abort (w : gcsWriter) : bool * gcsWriter :=
  if gcs_done w then (true, w) else (true, mk_gcs (gcs_sent w) (gcs_failed w) true (gcs_object w)).

(** ** The interface *)

#[local] Instance az_writer : StorageWriter azWriter := {
  sw_object := az_object;
  sw_Write p w n ok w' := exists fail w0, (w0 = w \/ w0 = az_fail w) /\ az_Write p fail w0 = (n, ok, w');
  sw_Close w ok w' := exists c w0, (w0 = w \/ w0 = az_fail w) /\ az_Close c w0 = (ok, w');
  sw_Abort w ok w' := exists other w0, (w0 = w \/ w0 = az_fail w) /\ az_Abort other w0 = (ok, w')
}.

#[local] Instance gcs_writer : StorageWriter gcsWriter := {
  sw_object := gcs_object;
  sw_Write p w n ok w' := exists fail, gcs_Write p fail w = (n, ok, w');
  sw_Close w ok w' := exists c, gcs_Close c w = (ok, w');
  sw_Abort w ok w' := gcs_Abort w = (ok, w')
}.

(** An open Azure writer has committed nothing. *)
Definition az_open (old : option bytes) (acc : bytes) (w : azWriter) : Prop :=
  az_done w = false /\ az_read w = acc /\ az_object w = old /\ (az_upload w = AzReading \/ az_upload w = AzEnded AzFailed).

Lemma az_fail_open old acc w w0 : az_open old acc w -> w0 = w \/ w0 = az_fail w -> az_open old acc w0.
Proof. intros (Hd & Hr & Ho & Hu) [-> | ->]; [by split_and!|]. destruct w. cbn in *. destruct Hu as [-> | ->]; cbn; split_and!; auto. Qed.

Lemma az_fail_done w w0 : az_done w = true -> w0 = w \/ w0 = az_fail w -> az_done w0 = true /\ az_object w0 = az_object w.
Proof. intros Hd [-> | ->]; [done|]. destruct w as [? [|] ? ?]; cbn in *; done. Qed.

#[local, refine] Instance az_writer_laws : StorageWriterLaws azWriter := {
  sw_open := az_open;
  sw_done w := az_done w = true;
  sw_open_object := _;
  sw_open_write := _;
  sw_open_close := _;
  sw_open_abort := _;
  sw_done_close := _;
  sw_done_abort := _
}.
Proof.
  - by intros old acc w (_ & _ & ? & _).
  - intros old acc w p n ok w' Hw (fail & w0 & H0 & H). pose proof (az_fail_open _ _ _ _ Hw H0) as (Hd & Hr & Ho & Hu).
    unfold az_Write in H. rewrite Hd in H. destruct Hu as [Hu|Hu]; rewrite Hu in H.
    + destruct fail; injection H as <- <- <-; cbn; rewrite Hr.
      * split; [by split_and!; auto|done].
      * rewrite ztake_all by done. split; [by split_and!; auto|done].
    + injection H as <- <- <-. rewrite ztake_0, app_nil_r. split; [split_and!; auto|done].
  - intros old acc w ok w' Hw (c & w0 & H0 & H). pose proof (az_fail_open _ _ _ _ Hw H0) as (Hd & Hr & Ho & Hu).
    unfold az_Close in H. rewrite Hd in H. destruct Hu as [Hu|Hu]; rewrite Hu in H; injection H as <- <-; cbn; (split; [done|]).
    + destruct c; cbn; rewrite ?Hr; auto.
    + auto.
  - intros old acc w ok w' Hw (other & w0 & H0 & H). pose proof (az_fail_open _ _ _ _ Hw H0) as (Hd & Hr & Ho & Hu).
    unfold az_Abort in H. rewrite Hd in H. by injection H as <- <-.
  - intros w ok w' Hw (c & w0 & H0 & H). destruct (az_fail_done _ _ Hw H0) as [Hd Ho]. unfold az_Close in H. rewrite Hd in H. by injection H as <- <-.
  - intros w ok w' Hw (other & w0 & H0 & H). destruct (az_fail_done _ _ Hw H0) as [Hd Ho]. unfold az_Abort in H. rewrite Hd in H. by injection H as <- <-.
Defined.

#[local, refine] Instance gcs_writer_laws : StorageWriterLaws gcsWriter := {
  sw_open old acc w := gcs_done w = false /\ gcs_sent w = acc /\ gcs_object w = old;
  sw_done w := gcs_done w = true;
  sw_open_object := _;
  sw_open_write := _;
  sw_open_close := _;
  sw_open_abort := _;
  sw_done_close := _;
  sw_done_abort := _
}.
Proof.
  - by intros old acc w (_ & _ & ?).
  - intros old acc w p n ok w' (Hd & Hr & Ho) (fail & H). unfold gcs_Write in H. rewrite Hd in H. cbn [orb] in H. destruct (gcs_failed w).
    + injection H as <- <- <-. by rewrite ztake_0, app_nil_r.
    + destruct fail; injection H as <- <- <-; cbn; rewrite Hr; [done|]. by rewrite ztake_all.
  - intros old acc w ok w' (Hd & Hr & Ho) (c & H). unfold gcs_Close in H. rewrite Hd in H. injection H as <- <-. cbn.
    split; [done|]. destruct (gcs_failed w), c; cbn; rewrite ?Hr; auto.
  - intros old acc w ok w' (Hd & Hr & Ho) H. cbn in H. unfold gcs_Abort in H. rewrite Hd in H. by injection H as <- <-.
  - intros w ok w' Hd (c & H). unfold gcs_Close in H. rewrite Hd in H. by injection H as <- <-.
  - intros w ok w' Hd H. cbn in H. unfold gcs_Abort in H. rewrite Hd in H. by injection H as <- <-.
Defined.

Lemma cloud_created old : sw_open (StorageWriterLaws := az_writer_laws) old [] (az_Create old) /\
  sw_open (StorageWriterLaws := gcs_writer_laws) old [] (gcs_Create old).
Proof. split; cbn; [split_and!; auto|done]. Qed.

(** ** Opening and reading *)

(** [newClient] of Azure: how a client is made, given whether its parts can be. *)
Inductive azClient := AzConnection (s : bytes) | AzSharedKey (account key : bytes) | AzDefault (account : bytes).

Definition az_newClient (connection account accountKey : bytes) : result azClient :=
  if negb (bytes_eqb connection []) then Ok (AzConnection connection)
  else if bytes_eqb account [] then errorf ErrOther "no Azure storage account configured"
  else Ok (if negb (bytes_eqb accountKey []) then AzSharedKey account accountKey else AzDefault account).

Definition az_Factory (make : azClient -> result unit) (connection account accountKey container : bytes) : result azClient :=
  if bytes_eqb container [] then errorf ErrOther "azblob:// location needs a container"
  else
    let? client := az_newClient connection account accountKey in
    let? _ := make client in
    Ok client.

(** [wrapErr] by the error code and the status of the response, when the error has them. *)
Definition az_wrapErr (code : option string) (status : option Z) : serr :=
  if bool_decide (code = Some "BlobNotFound"%string \/ code = Some "ContainerNotFound"%string) then SNotFound
  else if bool_decide (code = Some "ConditionNotMet"%string) then SObjectChanged
  else if bool_decide (status = Some 404) then SNotFound
  else SOther "azblob".

Definition az_Open (props : serr + option Z * option bytes) : serr + Z * bytes :=
  match props with
  | inl e => inl e
  | inr (Some size, Some etag) => inr (size, etag)
  | inr _ => inl (SOther "azblob: open: response lacks size or ETag")
  end.

(** [NewRangeReader]: a count of 0 reads to the end. *)
Definition az_NewRangeReader (download : Z -> Z -> serr + body) (offset length : Z) : serr + body :=
  if length =? 0 then inr []
  else match download offset (if 0 <? length then length else 0) with
       | inl e => inl (s3_readErr e)
       | inr b => inr b
       end.

Definition gcs_New (newClient : result unit) (bucket : bytes) : result unit :=
  if bytes_eqb bucket [] then errorf ErrOther "gs:// location needs a bucket" else newClient.

(** [wrapErr] by whether the SDK names a missing object or bucket. *)
Definition gcs_wrapErr (missing : bool) : serr := if missing then SNotFound else SOther "gcs".

(** [Open]: the size and the generation of the object. *)
Definition gcs_Open (attrs : bool + Z * Z) : serr + Z * Z :=
  match attrs with inl missing => inl (gcs_wrapErr missing) | inr a => inr a end.

Definition gcs_NewRangeReader (read : Z -> Z -> bool + body) (offset length : Z) : serr + body :=
  if length =? 0 then inr []
  else match read offset length with
       | inl missing => inl (s3_readErr (gcs_wrapErr missing))
       | inr b => inr b
       end.

(** A version that is gone was replaced: reads of an opened object never report it missing,
    so a reader stops instead of waiting for it to come back. *)
Lemma replaced_is_permanent download read offset length :
  az_NewRangeReader download offset length <> inl SNotFound /\ gcs_NewRangeReader read offset length <> inl SNotFound.
Proof.
  unfold az_NewRangeReader, gcs_NewRangeReader. destruct (length =? 0); [done|].
  destruct (download _ _) as [[]|], (read _ _) as [[]|]; done.
Qed.
