(* ===== verification/Credentials.v ===== *)
(** * Credentials on the command line (cmd/sarc/credentials.go, identities.go; io/options.go)

    Recipients, identities and key files are read from flags and files, and become the
    options of the archivers and the extractor. The parsers of single keys are those of
    age, its plugins and the SSH library: the class [AgeKeys]. Errors are values that carry
    what their text names: a path, a line number, an error of a library. *)

From stdpp Require Import list.
From S2P Require Import Prelude Bytes IndexCodec IOErrors Crypto Codec Recipients.
Open Scope go_scope.

(** ** Text *)

(** The encodings of the runes [unicode.IsSpace] accepts. *)
Definition space_seqs : list bytes := map (map zb)
  ([[9]; [10]; [11]; [12]; [13]; [32]; [194; 133]; [194; 160]; [225; 154; 128]] ++
   map (fun n => [226; 128; n]) (seqZ 128 11 ++ [168; 169; 175]) ++ [[226; 129; 159]; [227; 128; 128]]).

Fixpoint trim_prefixes (fuel : nat) (seqs : list bytes) (b : bytes) : bytes :=
  match fuel with
  | O => b
  | S fuel => match List.find (fun q => has_prefix q b) seqs with
              | Some q => trim_prefixes fuel seqs (zdrop (len q) b)
              | None => b
              end
  end.

Definition TrimSpace (b : bytes) : bytes :=
  let b := trim_prefixes (length b) space_seqs b in
  rev (trim_prefixes (length b) (map (@rev byte) space_seqs) (rev b)).

Definition between (lo hi : Z) (c : byte) : bool := (lo <=? bz c) && (bz c <=? hi).
Definition continuation : byte -> bool := between 128 191.

(** [utf8.ValidString]. *)
Fixpoint utf8_valid (b : bytes) : bool :=
  match b with
  | [] => true
  | c :: b1 =>
      if bz c <? 128 then utf8_valid b1
      else match b1 with
           | [] => false
           | c1 :: b2 =>
               if between 194 223 c then continuation c1 && utf8_valid b2
               else match b2 with
                    | [] => false
                    | c2 :: b3 =>
                        if between 224 239 c then
                          between (if bz c =? 224 then 160 else 128) (if bz c =? 237 then 159 else 191) c1 &&
                          continuation c2 && utf8_valid b3
                        else match b3 with
                             | [] => false
                             | c3 :: b4 =>
                                 between 240 244 c &&
                                 between (if bz c =? 240 then 144 else 128) (if bz c =? 244 then 143 else 191) c1 &&
                                 continuation c2 && continuation c3 && utf8_valid b4
                             end
                    end
           end
  end.

(** ** Files, a line at a time *)

(** An open file: what it holds up to its end or the error reading it meets. *)
Record source := mk_src { src_data : bytes; src_fail : option error }.

(** [io.LimitReader]: the error is met only by reading up to it. *)
Definition limited (n : Z) (s : source) : source :=
  if n <=? len (src_data s) then mk_src (ztake n (src_data s)) None else s.

Definition MaxScanTokenSize : Z := 65536.

(** The lines of a [bufio.Scanner], without their newline; an empty last line is none. *)
Fixpoint split_lines (b : bytes) : list bytes :=
  match b with
  | [] => []
  | c :: b' => if bz c =? 10 then [] :: split_lines b'
               else match split_lines b' with
                    | [] => [[c]]
                    | l :: ls => (c :: l) :: ls
                    end
  end.

Definition dropCR (l : bytes) : bytes :=
  match rev l with c :: r => if bz c =? 13 then rev r else l | [] => l end.

(** Errors by what they name. *)
Inductive credErr :=
  | NoCredential
  | PasswordTooShort
  | TooManyKeyFiles
  | InvalidRecipient (value : bytes) (e : error)
  | CannotOpen (e : error)
  | ReadFailed (path : bytes) (e : error)
  | LineTooLong (path : bytes)
  | InvalidLine (path : bytes) (n : Z)
  | PrivateKeyLine (path : bytes) (n : Z)
  | PublicKeyLine (path : bytes) (n : Z)
  | MalformedLine (path : bytes) (n : Z)
  | FileTooLarge (path : bytes)
  | FileEmpty (path : bytes)
  | KeyFileSizeError (path : bytes) (got : Z)
  | EncryptedIdentity (path : bytes)
  | UnsupportedSSHKey (path : bytes) (e : error)
  | MalformedSSHKey (path : bytes)
  | MalformedSSHPublicKey (path : bytes) (e : error)
  | NoPublicKey.

Definition cres (A : Type) : Type := credErr + A.

Notation "'let+' x ':=' e 'in' k" :=
  (match e with inl err => inl err | inr x => k end) (at level 10, x name, e at level 100, k at level 200) : go_scope.

Section Lines.
Context {A : Type} (path : bytes) (parse : Z -> bytes -> cres A).

(** Blank lines and comments hold nothing. *)
Definition skip_line (line : bytes) : bool := bytes_eqb line [] || has_prefix (str "#") line.

(** The scanner's loop from line [n]. *)
Fixpoint line_loop (n : Z) (acc : list A) (ls : list bytes) : cres (list A) :=
  match ls with
  | [] => inr acc
  | raw :: ls =>
      if MaxScanTokenSize <=? len raw then inl (LineTooLong path)
      else
        let line := TrimSpace (dropCR raw) in
        if skip_line line then line_loop (n + 1) acc ls
        else let+ a := parse n line in line_loop (n + 1) (acc ++ [a]) ls
  end.

(** A file of one key per line, of at most [limit] bytes. *)
Definition parse_lines (limit : Z) (s : source) : cres (list A) :=
  let lr := limited (limit + 1) s in
  let+ parsed := line_loop 1 [] (split_lines (src_data lr)) in
  match src_fail lr with
  | Some e => inl (ReadFailed path e)
  | None =>
      if len (src_data lr) =? limit + 1 then inl (FileTooLarge path)
      else if len parsed =? 0 then inl (FileEmpty path)
      else inr parsed
  end.
End Lines.

(** ** Keys *)

(** What parsing an SSH private key finds: a key, or one that needs a passphrase, perhaps
    with its public key. *)
Inductive sshKey (I P : Type) := SSHIdentity (i : I) | PassphraseMissing (pub : option P) | SSHInvalid.
Arguments SSHIdentity {I P} i.
Arguments PassphraseMissing {I P} pub.
Arguments SSHInvalid {I P}.

(** The parsers of age and SSH keys, and the public key of an identity when its type has
    one. *)
Class AgeKeys `(A : Age) := {
  ssh_public : Type;
  tag_ParseRecipient : bytes -> result age_recipient;
  age_ParseHybridRecipient : bytes -> result age_recipient;
  plugin_NewRecipient : bytes -> result age_recipient;
  age_ParseX25519Recipient : bytes -> result age_recipient;
  agessh_ParseRecipient : bytes -> result age_recipient;
  plugin_NewIdentity : bytes -> result age_identity;
  age_ParseHybridIdentity : bytes -> result age_identity;
  age_ParseX25519Identity : bytes -> result age_identity;
  agessh_ParseIdentity : bytes -> sshKey age_identity ssh_public;
  agessh_NewEncryptedSSHIdentity : ssh_public -> bytes -> result age_identity;
  ssh_ParseAuthorizedKey : bytes -> result ssh_public;
  identity_Recipient : age_identity -> option age_recipient
}.

Section Keys.
Context `{K : AgeKeys}.

(** [os.Open] by path. *)
Context (open : bytes -> result source).

Definition agePublicKeyPrefix : bytes := str "age1".
Definition sshPublicKeyPrefix : bytes := str "ssh-".
Definition recipientsFileSizeLimit : Z := 16 * 2 ^ 20.
Definition recipientLineLimit : Z := 8 * 2 ^ 10.
Definition identityFileSizeLimit : Z := 16 * 2 ^ 20.
Definition sshKeySizeLimit : Z := 16 * 2 ^ 10.
Definition pemPrefix : bytes := str "-----BEGIN".
Definition armoredAgePrefix : bytes := str "-----BEGIN AGE ENCRYPTED FILE-----".

(** [strings.Count(s, "1")]. *)
Definition count_ones (s : bytes) : Z := len (List.filter (fun c => bz c =? 49) s).

Definition parseRecipient (s : bytes) : result age_recipient :=
  if has_prefix (str "age1tag1") s || has_prefix (str "age1tagpq1") s then tag_ParseRecipient s
  else if has_prefix (str "age1pq1") s then age_ParseHybridRecipient s
  else if has_prefix agePublicKeyPrefix s && (1 <? count_ones s) then plugin_NewRecipient s
  else if has_prefix agePublicKeyPrefix s then age_ParseX25519Recipient s
  else if has_prefix sshPublicKeyPrefix s then agessh_ParseRecipient s
  else errorf ErrOther "unknown recipient type".

Definition public_key (s : bytes) : bool := has_prefix agePublicKeyPrefix s || has_prefix sshPublicKeyPrefix s.

(** A line of a recipients file. *)
Definition recipient_line (path : bytes) (n : Z) (line : bytes) : cres age_recipient :=
  if negb (utf8_valid line) || (recipientLineLimit <? len line) then inl (InvalidLine path n)
  else if has_prefix (str "AGE-") line || has_prefix pemPrefix line then inl (PrivateKeyLine path n)
  else match parseRecipient line with
       | Ok r => inr r
       | Err _ => inl (MalformedLine path n)
       end.

Definition parseRecipientsFile (path : bytes) : cres (list age_recipient) :=
  match open path with
  | Err e => inl (CannotOpen e)
  | Ok f => parse_lines path (recipient_line path) recipientsFileSizeLimit f
  end.

Fixpoint parse_recipients (recipients : list age_recipient) (values : list bytes) : cres (list age_recipient) :=
  match values with
  | [] => inr recipients
  | v :: values =>
      if public_key v then
        match parseRecipient v with
        | Ok r => parse_recipients (recipients ++ [r]) values
        | Err e => inl (InvalidRecipient v e)
        end
      else
        let+ parsed := parseRecipientsFile v in
        parse_recipients (recipients ++ parsed) values
  end.

Definition parseRecipients (values : list bytes) : cres (list age_recipient) := parse_recipients [] values.

(** ** Identities *)

Definition parseAgeIdentity (s : bytes) : result age_identity :=
  if has_prefix (str "AGE-PLUGIN-") s then plugin_NewIdentity s
  else if has_prefix (str "AGE-SECRET-KEY-PQ-1") s then age_ParseHybridIdentity s
  else if has_prefix (str "AGE-SECRET-KEY-1") s then age_ParseX25519Identity s
  else errorf ErrOther "unknown identity type".

(** A line of an identity file. *)
Definition identity_line (path : bytes) (n : Z) (line : bytes) : cres age_identity :=
  match parseAgeIdentity line with
  | Ok id => inr id
  | Err _ => if public_key line then inl (PublicKeyLine path n) else inl (MalformedLine path n)
  end.

Definition parseAgeIdentities (path : bytes) (f : source) : cres (list age_identity) :=
  parse_lines path (identity_line path) identityFileSizeLimit f.

(** [io.ReadAll]. *)
Definition read_all (path : bytes) (s : source) : cres bytes :=
  match src_fail s with Some e => inl (ReadFailed path e) | None => inr (src_data s) end.

Definition readSSHPublicKey (path : bytes) : cres ssh_public :=
  match open path with
  | Err e => inl (CannotOpen e)
  | Ok f => match src_fail f with
            | Some e => inl (CannotOpen e)
            | None => match ssh_ParseAuthorizedKey (src_data f) with
                      | Ok pub => inr pub
                      | Err e => inl (MalformedSSHPublicKey path e)
                      end
            end
  end.

Definition parseSSHIdentity (path pemBytes : bytes) : cres (list age_identity) :=
  match agessh_ParseIdentity pemBytes with
  | SSHIdentity id => inr [id]
  | PassphraseMissing pub =>
      let+ pub := (match pub with Some pub => inr pub | None => readSSHPublicKey (path ++ str ".pub") end) in
      match agessh_NewEncryptedSSHIdentity pub pemBytes with
      | Ok id => inr [id]
      | Err e => inl (UnsupportedSSHKey path e)
      end
  | SSHInvalid => inl (MalformedSSHKey path)
  end.

Definition loadIdentityFile (path : bytes) : cres (list age_identity) :=
  match open path with
  | Err e => inl (CannotOpen e)
  | Ok f =>
      let trimmed := TrimSpace (ztake 1024 (src_data f)) in
      if has_prefix (str "age-encryption.org/") trimmed || has_prefix armoredAgePrefix trimmed then inl (EncryptedIdentity path)
      else if has_prefix pemPrefix trimmed then
        let+ contents := read_all path (limited (sshKeySizeLimit + 1) f) in
        if sshKeySizeLimit <? len contents then inl (FileTooLarge path) else parseSSHIdentity path contents
      else parseAgeIdentities path f
  end.

Fixpoint load_identities (identities : list age_identity) (paths : list bytes) : cres (list age_identity) :=
  match paths with
  | [] => inr identities
  | path :: paths => let+ parsed := loadIdentityFile path in load_identities (identities ++ parsed) paths
  end.

Definition loadIdentities (paths : list bytes) : cres (list age_identity) := load_identities [] paths.

Fixpoint recipients_for (recipients : list age_recipient) (identities : list age_identity) : cres (list age_recipient) :=
  match identities with
  | [] => inr recipients
  | id :: identities => match identity_Recipient id with
                        | Some r => recipients_for (recipients ++ [r]) identities
                        | None => inl NoPublicKey
                        end
  end.

Definition recipientsForIdentities (identities : list age_identity) : cres (list age_recipient) := recipients_for [] identities.

(** ** Key files *)

Definition readKeyFile (path : bytes) : cres bytes :=
  match open path with
  | Err e => inl (CannotOpen e)
  | Ok f =>
      let+ key := read_all path (limited (MaxKeyFileSize + 1) f) in
      if CheckKeyFileSize key then inr key else inl (KeyFileSizeError path (len key))
  end.

Fixpoint read_key_files (keys : list bytes) (paths : list bytes) : cres (list bytes) :=
  match paths with
  | [] => inr keys
  | path :: paths => let+ key := readKeyFile path in read_key_files (keys ++ [key]) paths
  end.

Definition readKeyFiles (paths : list bytes) : cres (list bytes) := read_key_files [] paths.
End Keys.

(** ** Options of the archivers and the extractor (io/options.go) *)

Section Options.
Context `{A : Age}.

(** The signing key is [S]. *)
Context {S : Type}.

Record archiverConfig := mk_config {
  cfg_compression : CompressionOptions;
  cfg_ageRecipients : list age_recipient;
  cfg_keyFiles : list KeyFile;
  cfg_signer : option S;
  cfg_preserveOwner : bool
}.

Inductive ArchiverOption :=
  | WithCompression (opts : CompressionOptions)
  | WithAgeRecipients (recipients : list age_recipient)
  | WithKeyFileRecipients (keyFiles : list KeyFile)
  | WithSigner (signer : S)
  | WithPreserveOwner (preserve : bool).

Definition apply_option (c : archiverConfig) (o : ArchiverOption) : archiverConfig :=
  match o with
  | WithCompression opts => mk_config opts (cfg_ageRecipients c) (cfg_keyFiles c) (cfg_signer c) (cfg_preserveOwner c)
  | WithAgeRecipients rs => mk_config (cfg_compression c) (cfg_ageRecipients c ++ rs) (cfg_keyFiles c) (cfg_signer c) (cfg_preserveOwner c)
  | WithKeyFileRecipients ks => mk_config (cfg_compression c) (cfg_ageRecipients c) (cfg_keyFiles c ++ ks) (cfg_signer c) (cfg_preserveOwner c)
  | WithSigner signer => mk_config (cfg_compression c) (cfg_ageRecipients c) (cfg_keyFiles c) (Some signer) (cfg_preserveOwner c)
  | WithPreserveOwner b => mk_config (cfg_compression c) (cfg_ageRecipients c) (cfg_keyFiles c) (cfg_signer c) b
  end.

Definition newArchiverConfig (opts : list ArchiverOption) : archiverConfig :=
  fold_left apply_option opts (mk_config DefaultCompressionOptions [] [] None false).

(** The credentials [newCredentialedWriter] creates the archive for. *)
Definition writer_credentials (password : bytes) (cfg : archiverConfig) : option Credentials :=
  if bytes_eqb password [] && (len (cfg_keyFiles cfg) =? 0) && (len (cfg_ageRecipients cfg) =? 0) then None
  else Some (mk_creds (if bytes_eqb password [] then [] else [password]) (cfg_keyFiles cfg) (cfg_ageRecipients cfg)).

(** The extractor's fields that its options set. *)
Record extractorConfig := mk_xconfig {
  x_identities : list age_identity;
  x_restoreOwner : bool;
  x_random : option (bytes * Z);
  x_keyFiles : list bytes
}.

Inductive ExtractorOption :=
  | WithIdentities (identities : list age_identity)
  | WithRestoreOwner (restore : bool)
  | WithRandomAccess (ra : bytes) (size : Z)
  | WithKeyFiles (keys : list bytes).

Definition apply_xoption (c : extractorConfig) (o : ExtractorOption) : extractorConfig :=
  match o with
  | WithIdentities ids => mk_xconfig (x_identities c ++ ids) (x_restoreOwner c) (x_random c) (x_keyFiles c)
  | WithRestoreOwner b => mk_xconfig (x_identities c) b (x_random c) (x_keyFiles c)
  | WithRandomAccess ra size => mk_xconfig (x_identities c) (x_restoreOwner c) (Some (ra, size)) (x_keyFiles c)
  | WithKeyFiles keys => mk_xconfig (x_identities c) (x_restoreOwner c) (x_random c) (x_keyFiles c ++ keys)
  end.

Definition newExtractorConfig (opts : list ExtractorOption) : extractorConfig :=
  fold_left apply_xoption opts (mk_xconfig [] false None []).

(** What the extractor tries on a recipient block. *)
Definition extractor_unlockers (password : bytes) (c : extractorConfig) : Unlockers :=
  mk_unlock password (x_keyFiles c) (x_identities c).
End Options.
Arguments archiverConfig A S : clear implicits.
Arguments ArchiverOption A S : clear implicits.

(** ** Keys for signing (cmd/sarc/signing.go) *)

(** What parsing a private key finds. *)
Inductive privateKey (K : Type) := PrivateKey (k : K) | NeedsPassphrase | PrivateInvalid.
Arguments PrivateKey {K} k.
Arguments NeedsPassphrase {K}.
Arguments PrivateInvalid {K}.

Section Signer.
Context {K : Type} (parse : bytes -> privateKey K) (parse_passphrase : bytes -> bytes -> option K).
Context (open : bytes -> result source) (readSecret : result bytes).

Definition loadSigner (path : bytes) : result K :=
  match open path with
  | Err e => Err e
  | Ok f =>
      let s := limited (sshKeySizeLimit + 1) f in
      match src_fail s with
      | Some e => Err e
      | None =>
          let pemBytes := src_data s in
          if sshKeySizeLimit <? len pemBytes then errorf ErrOther "signing key is too large"
          else
            let? signer := (match parse pemBytes with
                            | PrivateKey k => Ok (Some k)
                            | PrivateInvalid => Ok None
                            | NeedsPassphrase => let? passphrase := readSecret in Ok (parse_passphrase pemBytes passphrase)
                            end) in
            match signer with
            | Some k => Ok k
            | None => errorf ErrOther "invalid or unsupported signing key"
            end
      end
  end.
End Signer.

(** ** The flags *)

Record flags := mk_flags {
  flagPassword : bytes;
  flagKeyFiles : list bytes;
  flagRecipients : list bytes;
  flagIdentities : list bytes
}.

(** In bytes, as the source counts. *)
Definition validatePassword (p : bytes) : cres unit := if len p <? 8 then inl PasswordTooShort else inr tt.

Section Flags.
Context `{K : AgeKeys} {S : Type} (open : bytes -> result source) (fl : flags).

Definition archiveCredentials : cres (bytes * list (ArchiverOption A S)) :=
  if bytes_eqb (flagPassword fl) [] && (len (flagKeyFiles fl) =? 0) && (len (flagRecipients fl) =? 0) && (len (flagIdentities fl) =? 0)
  then inl NoCredential
  else
    let+ _ := (if bytes_eqb (flagPassword fl) [] then inr tt else validatePassword (flagPassword fl)) in
    let+ recipients := parseRecipients open (flagRecipients fl) in
    let+ identities := loadIdentities open (flagIdentities fl) in
    let+ fromIdentities := recipientsForIdentities identities in
    let+ keys := readKeyFiles open (flagKeyFiles fl) in
    if MaxKeyFileRecipients <? len keys then inl TooManyKeyFiles
    else
      let opts := [WithAgeRecipients (recipients ++ fromIdentities)] in
      if 0 <? len keys then
        inr ([], opts ++ [WithKeyFileRecipients (map (fun key => mk_keyfile key (flagPassword fl)) keys)])
      else inr (flagPassword fl, opts).

Definition readerOptions : cres (list ExtractorOption) :=
  if bytes_eqb (flagPassword fl) [] && (len (flagKeyFiles fl) =? 0) && (len (flagIdentities fl) =? 0) then inl NoCredential
  else
    let+ keys := readKeyFiles open (flagKeyFiles fl) in
    let+ identities := loadIdentities open (flagIdentities fl) in
    inr ((if 0 <? len keys then [WithKeyFiles keys] else []) ++
         (if 0 <? len identities then [WithIdentities identities] else [])).

(** The credentials an archive is created for, and what a reader tries. *)
Definition archive_credentials : option Credentials :=
  match archiveCredentials with
  | inl _ => None
  | inr (password, opts) => writer_credentials password (newArchiverConfig opts)
  end.

Definition reader_unlockers : option Unlockers :=
  match readerOptions with
  | inl _ => None
  | inr opts => Some (extractor_unlockers (flagPassword fl) (newExtractorConfig opts))
  end.
End Flags.
