(* ===== verification/CredentialProofs.v ===== *)
(** * What the credential flags guarantee

    Files of keys are read line by line exactly; the flags an archive was created with open
    it; and a password given with key files does not open it alone. *)

From stdpp Require Import list.
From S2P Require Import Prelude Bytes IndexCodec IOErrors Crypto Codec Recipients Credentials.
Open Scope go_scope.

(** ** Files of keys *)

Lemma Forall2_functional {X Y} (R : X -> Y -> Prop) l : (forall x a b, R x a -> R x b -> a = b) ->
  forall k k', Forall2 R l k -> Forall2 R l k' -> k = k'.
Proof.
  intros HR. induction l as [|x l IH]; intros k k' Hk Hk'.
  - apply Forall2_nil_inv_l in Hk as ->, Hk' as ->. done.
  - apply Forall2_cons_inv_l in Hk as (a & k1 & Ha & Hk & ->), Hk' as (b & k2 & Hb & Hk' & ->). f_equal; eauto.
Qed.

(** The lines that hold a key. *)
Definition key_lines (data : bytes) : list bytes :=
  List.filter (fun l => negb (skip_line l)) (map (fun raw => TrimSpace (dropCR raw)) (split_lines data)).

Section Lines.
Context {A : Type} (path : bytes) (parse : Z -> bytes -> cres A) (good : bytes -> A -> Prop).
Context (Hparse : forall n line a, parse n line = inr a <-> good line a).

Lemma line_loop_spec ls : forall n acc l, line_loop path parse n acc ls = inr l <->
  Forall (fun raw => len raw < MaxScanTokenSize) ls /\
  exists new, l = acc ++ new /\
    Forall2 good (List.filter (fun l => negb (skip_line l)) (map (fun raw => TrimSpace (dropCR raw)) ls)) new.
Proof.
  induction ls as [|raw ls IH]; intros n acc l; cbn [line_loop map List.filter].
  - split.
    + intros [= <-]. split; [done|]. exists []. by rewrite app_nil_r.
    + intros (_ & new & -> & Hn). apply Forall2_nil_inv_l in Hn as ->. by rewrite app_nil_r.
  - rewrite Forall_cons. destruct (Z.leb_spec MaxScanTokenSize (len raw)); [split; [done|intros [[? _] _]; lia]|].
    destruct (skip_line (TrimSpace (dropCR raw))); cbn [negb].
    { rewrite IH. split; intros [? ?]; [by split|]. split; [tauto|done]. }
    split.
    + destruct (parse n (TrimSpace (dropCR raw))) as [e|a] eqn:Ea; [done|]. intros H'. apply IH in H' as (? & new & -> & Hn).
      split; [by split|]. exists (a :: new). split; [by rewrite <- app_assoc|]. constructor; [by eapply Hparse|done].
    + intros ([_ Hf] & new & -> & Hn). apply Forall2_cons_inv_l in Hn as (a & new' & Ha & Hn & ->).
      apply (Hparse n) in Ha as ->. apply IH. split; [done|]. exists new'. by rewrite <- app_assoc.
Qed.

Lemma parse_lines_spec limit s l : 0 <= limit -> parse_lines path parse limit s = inr l <->
  src_fail s = None /\ len (src_data s) <= limit /\ Forall (fun raw => len raw < MaxScanTokenSize) (split_lines (src_data s)) /\
  l <> [] /\ Forall2 good (key_lines (src_data s)) l.
Proof.
  intros Hl. unfold parse_lines, limited, key_lines. destruct (Z.leb_spec (limit + 1) (len (src_data s))) as [Hbig|Hsmall]; cbn [src_data src_fail].
  - assert (len (ztake (limit + 1) (src_data s)) = limit + 1) as -> by (rewrite len_ztake; lia). rewrite Z.eqb_refl.
    split; [by destruct (line_loop _ _ _ _ _)|]. intros (_ & ? & _). lia.
  - destruct (line_loop path parse 1 [] (split_lines (src_data s))) as [e|new] eqn:Es.
    { split; [done|]. intros (_ & _ & Hf & _ & H2). assert (line_loop path parse 1 [] (split_lines (src_data s)) = inr l) as Hs
        by (apply line_loop_spec; split; [done|by exists l]). congruence. }
    apply line_loop_spec in Es as (Hf & new' & -> & H2). cbn [app]. destruct (src_fail s); [split; [done|by intros [? _]]|].
    destruct (Z.eqb_spec (len (src_data s)) (limit + 1)); [lia|]. destruct (Z.eqb_spec (len new') 0) as [Hz|Hz].
    + apply len_0_nil in Hz as ->. split; [done|]. intros (_ & _ & _ & Hne & H2'). apply Forall2_length in H2, H2'. destruct l; [done|cbn in *; lia].
    + split.
      * intros [= <-]. split_and!; try done; [lia|]. by intros ->.
      * intros (_ & _ & _ & _ & H2'). f_equal. eapply (Forall2_functional good); [|exact H2|exact H2'].
        intros line a b Ha Hb. apply (Hparse 1) in Ha, Hb. congruence.
Qed.
End Lines.

Section Keys.
Context `{K : AgeKeys} (open : bytes -> result source).

(** A line that is a recipient: text, not too long, no private key, and parsed. *)
Definition recipient_of (line : bytes) (r : age_recipient) : Prop :=
  utf8_valid line = true /\ len line <= recipientLineLimit /\ has_prefix (str "AGE-") line = false /\
  has_prefix pemPrefix line = false /\ parseRecipient line = Ok r.

Lemma recipient_line_spec path n line r : recipient_line path n line = inr r <-> recipient_of line r.
Proof.
  unfold recipient_line, recipient_of. destruct (utf8_valid line); cbn [negb orb]; [|split; [done|by intros [? _]]].
  destruct (Z.ltb_spec recipientLineLimit (len line)); [split; [done|intros (_ & ? & _); lia]|].
  destruct (has_prefix (str "AGE-") line); cbn [orb]; [split; [done|by intros (_ & _ & ? & _)]|].
  destruct (has_prefix pemPrefix line); [split; [done|by intros (_ & _ & _ & ? & _)]|].
  destruct (parseRecipient line) as [r'|e]; split; try done.
  - intros [= <-]. by split_and!.
  - intros (_ & _ & _ & _ & [= <-]). done.
  - by intros (_ & _ & _ & _ & ?).
Qed.

(** A recipients file is read exactly. It is accepted if and only if it can be read, has
    at most [recipientsFileSizeLimit] bytes, no line of it overflows the scanner, at least
    one line holds a key and every line that is neither blank nor a comment is a public key
    within the limits; and then the recipients are those of its lines, in order. A file
    with a private key in it is never accepted. *)
Theorem recipients_file_exact (path : bytes) (rs : list age_recipient) :
  parseRecipientsFile open path = inr rs <->
  exists data, open path = Ok (mk_src data None) /\ len data <= recipientsFileSizeLimit /\
    Forall (fun raw => len raw < MaxScanTokenSize) (split_lines data) /\
    rs <> [] /\ Forall2 recipient_of (key_lines data) rs.
Proof.
  unfold parseRecipientsFile. destruct (open path) as [[data fail]|e].
  - rewrite (parse_lines_spec path _ recipient_of (recipient_line_spec path)) by done. cbn [src_data src_fail]. split.
    + intros (-> & H). by exists data.
    + intros (data' & [= -> ->] & H). by split.
  - split; [done|]. by intros (? & ? & _).
Qed.

Lemma read_key_files_spec paths : forall acc keys, read_key_files open acc paths = inr keys ->
  exists new, keys = acc ++ new /\ Forall2 (fun p k => readKeyFile open p = inr k) paths new.
Proof.
  induction paths as [|p paths IH]; intros acc keys H; cbn [read_key_files] in H.
  - injection H as <-. exists []. by rewrite app_nil_r.
  - destruct (readKeyFile open p) as [e|k] eqn:Ek; [done|]. apply IH in H as (new & -> & Hn).
    exists (k :: new). rewrite <- app_assoc. split; [done|by constructor].
Qed.

Lemma readKeyFiles_spec paths keys : readKeyFiles open paths = inr keys -> Forall2 (fun p k => readKeyFile open p = inr k) paths keys.
Proof. intros H. by apply read_key_files_spec in H as (new & -> & ?). Qed.

Lemma recipients_for_spec ids : forall acc rs, recipients_for acc ids = inr rs ->
  exists new, rs = acc ++ new /\ Forall2 (fun id r => identity_Recipient id = Some r) ids new.
Proof.
  induction ids as [|id ids IH]; intros acc rs H; cbn [recipients_for] in H.
  - injection H as <-. exists []. by rewrite app_nil_r.
  - destruct (identity_Recipient id) as [r|] eqn:Er; [|done]. apply IH in H as (new & -> & Hn).
    exists (r :: new). rewrite <- app_assoc. split; [done|by constructor].
Qed.

(** The password left and the options, by the keys of the flags. *)
Definition credential_options {S} (fl : flags) (keys : list bytes) (rs : list age_recipient) : bytes * list (ArchiverOption A S) :=
  if 0 <? len keys
  then ([], [WithAgeRecipients rs; WithKeyFileRecipients (map (fun key => mk_keyfile key (flagPassword fl)) keys)])
  else (flagPassword fl, [WithAgeRecipients rs]).

Lemma archiveCredentials_spec {S} fl out : archiveCredentials (S := S) open fl = inr out ->
  exists recipients ids fromIds keys, parseRecipients open (flagRecipients fl) = inr recipients /\
    loadIdentities open (flagIdentities fl) = inr ids /\ Forall2 (fun id r => identity_Recipient id = Some r) ids fromIds /\
    Forall2 (fun p k => readKeyFile open p = inr k) (flagKeyFiles fl) keys /\ out = credential_options fl keys (recipients ++ fromIds) /\
    ~ (flagPassword fl = [] /\ flagKeyFiles fl = [] /\ flagRecipients fl = [] /\ flagIdentities fl = []).
Proof.
  unfold archiveCredentials. destruct (_ && _ && _ && _) eqn:E; [done|].
  destruct (if bytes_eqb (flagPassword fl) [] then _ else _); [done|].
  destruct (parseRecipients open _) as [|recipients]; [done|]. destruct (loadIdentities open _) as [|ids]; [done|].
  destruct (recipientsForIdentities ids) as [|fromIds] eqn:Er; [done|]. destruct (readKeyFiles open _) as [|keys] eqn:Ek; [done|].
  apply recipients_for_spec in Er as (new & -> & Hn). apply readKeyFiles_spec in Ek. destruct (MaxKeyFileRecipients <? _); [done|].
  intros H. exists recipients, ids, new, keys. do 4 (split; [done|]). split.
  - unfold credential_options. by destruct (0 <? len keys); injection H.
  - intros (Hp & Hk & Hr & Hi). rewrite Hp, Hk, Hr, Hi in E. discriminate E.
Qed.

(** The credentials those options come to. *)
Lemma archive_credentials_spec {S} fl creds : archive_credentials (S := S) open fl = Some creds ->
  exists recipients ids fromIds keys, parseRecipients open (flagRecipients fl) = inr recipients /\
    loadIdentities open (flagIdentities fl) = inr ids /\ Forall2 (fun id r => identity_Recipient id = Some r) ids fromIds /\
    Forall2 (fun p k => readKeyFile open p = inr k) (flagKeyFiles fl) keys /\
    creds = mk_creds (if bytes_eqb (flagPassword fl) [] || (0 <? len keys) then [] else [flagPassword fl])
      (map (fun key => mk_keyfile key (flagPassword fl)) keys) (recipients ++ fromIds).
Proof.
  unfold archive_credentials. destruct (archiveCredentials open fl) as [|out] eqn:E; [done|].
  apply archiveCredentials_spec in E as (recipients & ids & fromIds & keys & Hr & Hi & Hf & Hk & -> & _).
  intros H. exists recipients, ids, fromIds, keys. do 4 (split; [done|]). unfold credential_options in H. destruct (Z.ltb_spec 0 (len keys)) as [Hp|Hp].
  - unfold writer_credentials in H. cbn -[bytes_eqb] in H. rewrite bytes_eqb_refl in H. rewrite orb_true_r. destruct (_ && _ && _) in H; [done|]. by injection H.
  - assert (keys = []) as -> by (apply len_0_nil; len_lia). rewrite orb_false_r.
    unfold writer_credentials in H. cbn -[bytes_eqb] in H. destruct (_ && _ && _) in H; [done|]. by injection H.
Qed.

Lemma reader_unlockers_spec fl u : reader_unlockers open fl = Some u ->
  exists keys ids, Forall2 (fun p k => readKeyFile open p = inr k) (flagKeyFiles fl) keys /\
    loadIdentities open (flagIdentities fl) = inr ids /\ u = mk_unlock (flagPassword fl) keys ids.
Proof.
  unfold reader_unlockers, readerOptions. destruct (_ && _ && _); [done|]. destruct (readKeyFiles open _) as [|keys] eqn:Ek; [done|].
  destruct (loadIdentities open _) as [|ids]; [done|]. apply readKeyFiles_spec in Ek. intros [= <-]. exists keys, ids. do 2 (split; [done|]).
  unfold extractor_unlockers, newExtractorConfig.
  assert (forall {X} (l : list X), 0 < len l \/ l = []) as Hl by (intros X [|x l]; [by right|left; rewrite len_cons; len_lia]).
  destruct (Hl _ keys) as [Hk| ->], (Hl _ ids) as [Hi| ->]; rewrite ?(proj2 (Z.ltb_lt _ _) Hk), ?(proj2 (Z.ltb_lt _ _) Hi); done.
Qed.

Lemma load_identities_spec paths : forall acc ids, load_identities open acc paths = inr ids ->
  exists new, ids = acc ++ concat new /\ Forall2 (fun p l => loadIdentityFile open p = inr l) paths new.
Proof.
  induction paths as [|p paths IH]; intros acc ids H; cbn [load_identities] in H.
  - injection H as <-. exists []. by rewrite app_nil_r.
  - destruct (loadIdentityFile open p) as [e|l] eqn:El; [done|]. apply IH in H as (new & -> & Hn).
    exists (l :: new). cbn [concat]. rewrite <- app_assoc. split; [done|by constructor].
Qed.

(** An identity file that loads has an identity. *)
Lemma identity_file_nonempty path ids : loadIdentityFile open path = inr ids -> ids <> [].
Proof.
  unfold loadIdentityFile. destruct (open path) as [f|]; [|done]. destruct (_ || _); [done|]. destruct (has_prefix pemPrefix _).
  - destruct (read_all _ _) as [|contents]; [done|]. destruct (_ <? _); [done|]. unfold parseSSHIdentity.
    destruct (agessh_ParseIdentity contents) as [id|pub|]; [by intros [= <-]| |done].
    destruct (match pub with Some _ => _ | None => _ end) as [|pk]; [done|]. destruct (agessh_NewEncryptedSSHIdentity pk contents); [|done]. by intros [= <-].
  - unfold parseAgeIdentities, parse_lines. destruct (line_loop _ _ _ _ _) as [|l]; [done|]. destruct (src_fail _); [done|].
    destruct (_ =? _); [done|]. destruct (Z.eqb_spec (len l) 0) as [|Hl]; [done|]. intros [= <-]. by intros ->.
Qed.

Lemma identity_loaded paths ids path : loadIdentities open paths = inr ids -> path ∈ paths ->
  exists l, loadIdentityFile open path = inr l /\ l <> [] /\ l ⊆ ids.
Proof.
  intros H Hp. apply load_identities_spec in H as (new & -> & Hn). apply list_elem_of_lookup in Hp as [i Hi].
  destruct (Forall2_lookup_l _ _ _ _ _ Hn Hi) as (l & Hl & Hf). exists l. split; [done|]. split; [by eapply identity_file_nonempty|].
  intros id Hid. cbn [app]. apply list_elem_of_In, in_concat. exists l. split; apply list_elem_of_In; [by eapply list_elem_of_lookup_2|done].
Qed.

(** Every recipient flag gives a recipient. *)
Lemma parse_recipients_nonempty values : forall acc rs, parse_recipients open acc values = inr rs -> values <> [] \/ acc <> [] -> rs <> [].
Proof.
  induction values as [|v values IH]; intros acc rs H Hne; cbn [parse_recipients] in H; [injection H as <-; by destruct Hne|].
  assert (forall (l : list age_recipient), l <> [] -> acc ++ l <> []) as Hl by (intros l ? Hz; by apply app_eq_nil in Hz as [_ ?]).
  destruct (public_key v).
  - destruct (parseRecipient v); [|done]. apply IH in H; [done|]. right. by apply Hl.
  - destruct (parseRecipientsFile open v) as [|parsed] eqn:Ep; [done|]. apply IH in H; [done|]. right. apply Hl.
    unfold parseRecipientsFile in Ep. destruct (open v); [|done]. apply (parse_lines_spec v _ recipient_of (recipient_line_spec v)) in Ep; [tauto|done].
Qed.

Lemma Forall2_elem_l {X Y} (R : X -> Y -> Prop) l k x : Forall2 R l k -> x ∈ l -> exists y, y ∈ k /\ R x y.
Proof.
  intros H Hx. apply list_elem_of_lookup in Hx as [i Hi]. destruct (Forall2_lookup_l _ _ _ _ _ H Hi) as (y & Hy & Hr).
  exists y. split; [by eapply list_elem_of_lookup_2|done].
Qed.

(** ** Archiving and reading back *)

Context `{C : Crypto} `{L : !CryptoLaws C}.
Context (age_nonempty : forall cek rs r blob, age_encrypt cek rs r = Ok blob -> 0 < len blob).

(** Age decrypts what it encrypted when one of the identities belongs to a recipient. *)
Context (age_opens : forall cek rs r blob ids id rc, age_encrypt cek rs r = Ok blob -> id ∈ ids ->
  identity_Recipient id = Some rc -> rc ∈ rs -> age_decrypt blob ids = AgePlain cek).

(** The reader's flags [rf] repeat one credential of the archiver's flags [fl]: the password,
    when no key file was given; one key file, with the password if there was one; or an
    identity file, whatever else is given. *)
Inductive repeats (fl rf : flags) : Prop :=
  | repeat_password : flagKeyFiles fl = [] -> flagPassword fl <> [] -> flagPassword rf = flagPassword fl ->
      flagIdentities rf = [] -> repeats fl rf
  | repeat_key path : path ∈ flagKeyFiles fl -> path ∈ flagKeyFiles rf ->
      flagPassword fl = [] \/ flagPassword rf = flagPassword fl -> flagIdentities rf = [] -> repeats fl rf
  | repeat_identity path : path ∈ flagIdentities fl -> path ∈ flagIdentities rf -> repeats fl rf.

(** Repeating one credential opens the block. *)
Lemma repeats_open {S} (fl rf : flags) (creds : Credentials) (u : Unlockers) (cek block : bytes) (r : rng)
  (Hfl : archive_credentials (S := S) open fl = Some creds) (Hrf : reader_unlockers open rf = Some u) (Hrep : repeats fl rf)
  (Hc : len cek = KeySize) (Hseal : SealRecipientBlock cek creds r = Ok block)
  (Hauth : forall ss s c, parseRecipientBlock block = Ok ss -> s ∈ ss -> try_stanza u s = Some (Ok c) -> c = cek) :
  OpenRecipientBlock block u = Opened cek.
Proof.
  apply archive_credentials_spec in Hfl as (recipients & ids & fromIds & keys & _ & Hids & Hfrom & Hkeys & ->).
  apply reader_unlockers_spec in Hrf as (rkeys & rids & Hrkeys & Hrids & ->).
  destruct Hrep as [Hk Hp Hpw Hi|path Hin Hk Hpw Hi|path Hin Hin'].
  - apply (holds_opens age_nonempty cek _ r block _ Hc Hseal); [|done]. split; cbn; [by rewrite Hi in Hrids; injection Hrids|]. left.
    rewrite Hk in Hkeys. apply Forall2_nil_inv_l in Hkeys as ->. rewrite orb_false_r, Hpw. destruct (bytes_eqb (flagPassword fl) []) eqn:E; [by apply bytes_eqb_true in E|by left].
  - apply (holds_opens age_nonempty cek _ r block _ Hc Hseal); [|done]. split; cbn; [by rewrite Hi in Hrids; injection Hrids|]. right.
    destruct (Forall2_elem_l _ _ _ _ Hkeys Hin) as (key & Hkey & Hread). destruct (Forall2_elem_l _ _ _ _ Hrkeys Hk) as (key' & Hkey' & Hread').
    exists (mk_keyfile key (flagPassword fl)). split; [apply list_elem_of_fmap; by exists key|]. cbn. split; [congruence|done].
  - destruct (identity_loaded _ _ _ Hids Hin) as (l & Hl & Hne & Hsub). destruct (identity_loaded _ _ _ Hrids Hin') as (l' & Hl' & _ & Hsub').
    assert (l' = l) as -> by congruence. destruct l as [|id l]; [done|]. assert (id ∈ ids) as Hid by (apply Hsub; by left).
    destruct (Forall2_elem_l _ _ _ _ Hfrom Hid) as (rc & Hrc & Hrec). assert (id ∈ rids) as Hrid by (apply Hsub'; by left).
    apply (identity_opens age_nonempty cek _ r block _ Hc Hseal); cbn; [| | |done].
    + intros Hz. apply app_eq_nil in Hz as [_ ->]. by apply elem_of_nil in Hrc.
    + intros ->. by apply elem_of_nil in Hrid.
    + intros r' blob Hb. eapply age_opens; [exact Hb|exact Hrid|exact Hrec|]. apply elem_of_app. by right.
Qed.

(** The flags an archive was created with open it. When the flags of [archive] give
    credentials and the key of the archive is sealed for them, a reader whose flags repeat
    one of them, over the same files, recovers exactly that key, provided no stanza opens to
    a different key under the reader's secrets (AES-GCM authentication). *)
Theorem flags_open_archive {S} (fl rf : flags) (creds : Credentials) (u : Unlockers) (cek block : bytes) (r : rng)
  (Hfl : archive_credentials (S := S) open fl = Some creds) (Hrf : reader_unlockers open rf = Some u) (Hrep : repeats fl rf)
  (Hc : len cek = KeySize) (Hseal : SealRecipientBlock cek creds r = Ok block)
  (Hauth : forall ss s c, parseRecipientBlock block = Ok ss -> s ∈ ss -> try_stanza u s = Some (Ok c) -> c = cek) :
  OpenRecipientBlock block u = Opened cek.
Proof. by eapply repeats_open. Qed.

(** C32. A password given with key files is bound to them. An archive created with at least one
    [--key] refuses every reader that has only a password, the right one included, and names
    no match rather than a damaged archive. *)
Theorem password_bound_to_keys {S} (fl rf : flags) (creds : Credentials) (u : Unlockers) (cek block : bytes) (r : rng)
  (Hfl : archive_credentials (S := S) open fl = Some creds) (Hkeys : flagKeyFiles fl <> [])
  (Hrf : reader_unlockers open rf = Some u) (Hrk : flagKeyFiles rf = []) (Hri : flagIdentities rf = [])
  (Hc : len cek = KeySize) (Hseal : SealRecipientBlock cek creds r = Ok block) :
  exists kinds, OpenRecipientBlock block u = OpenNoMatch kinds.
Proof.
  apply archive_credentials_spec in Hfl as (recipients & ids & fromIds & keys & _ & _ & _ & Hk & ->).
  apply reader_unlockers_spec in Hrf as (rkeys & rids & Hrkeys & Hrids & ->). rewrite Hrk in Hrkeys. rewrite Hri in Hrids.
  apply Forall2_nil_inv_l in Hrkeys as ->. injection Hrids as <-.
  apply (password_alone_refused age_nonempty cek _ r _ _ Hc Hseal); [|done|done]. cbn.
  destruct keys as [|key keys]; [by apply Forall2_nil_inv_r in Hk|]. rewrite len_cons, (proj2 (Z.ltb_lt 0 _)) by len_lia. by rewrite orb_true_r.
Qed.
End Keys.

(** ** Examples *)

Definition key_age : Age := {|
  age_recipient := bytes;
  age_identity := bytes;
  age_encrypt cek rs r := Ok (str "age" ++ cek);
  age_decrypt blob ids := AgePlain (zdrop 3 blob)
|}.

Definition key_parsers : AgeKeys key_age := {|
  ssh_public := bytes;
  tag_ParseRecipient s := Ok s : result (@age_recipient key_age);
  age_ParseHybridRecipient s := Ok s : result (@age_recipient key_age);
  plugin_NewRecipient s := Ok s : result (@age_recipient key_age);
  age_ParseX25519Recipient s := Ok s : result (@age_recipient key_age);
  agessh_ParseRecipient s := Ok s : result (@age_recipient key_age);
  plugin_NewIdentity s := Ok s : result (@age_identity key_age);
  age_ParseHybridIdentity s := Ok s : result (@age_identity key_age);
  age_ParseX25519Identity s := Ok s : result (@age_identity key_age);
  agessh_ParseIdentity s := SSHInvalid : sshKey (@age_identity key_age) bytes;
  agessh_NewEncryptedSSHIdentity pub s := Ok s : result (@age_identity key_age);
  ssh_ParseAuthorizedKey s := Ok s;
  identity_Recipient id := Some id : option (@age_recipient key_age)
|}.

Definition key_files (path : bytes) : result source :=
  if bytes_eqb path (str "k") then Ok (mk_src (replicate 40 (zb 7)) None)
  else if bytes_eqb path (str "id") then Ok (mk_src (str "AGE-SECRET-KEY-1X") None)
  else errorf ErrOther "no such file".

Definition key_flags : flags := mk_flags (str "pass phrase") [str "k"] [] [str "id"].
Definition key_reader : flags := mk_flags (str "pass phrase") [str "k"] [] [].
Definition password_reader : flags := mk_flags (str "pass phrase") [] [] [].

Definition key_creds : @Credentials key_age :=
  @mk_creds key_age [] [mk_keyfile (replicate 40 (zb 7)) (str "pass phrase")] [str "AGE-SECRET-KEY-1X"].

Definition key_block : bytes :=
  match @SealRecipientBlock toy_crypto key_age sample_cek key_creds toy_rng with Ok b => b | Err _ => [] end.

Lemma key_age_nonempty cek rs r blob : @age_encrypt key_age cek rs r = Ok blob -> 0 < len blob.
Proof. intros E'. apply Ok_inj in E' as <-. rewrite len_app. change (len (str "age")) with 3. len_lia. Qed.

Lemma key_age_opens cek (rs : list (@age_recipient key_age)) r blob (ids : list (@age_identity key_age)) id rc :
  @age_encrypt key_age cek rs r = Ok blob -> id ∈ ids ->
  @identity_Recipient key_age key_parsers id = Some rc -> rc ∈ rs -> @age_decrypt key_age blob ids = AgePlain cek.
Proof. intros E' _ _ _. apply Ok_inj in E' as <-. done. Qed.

Lemma key_sealed : @SealRecipientBlock toy_crypto key_age sample_cek key_creds toy_rng = Ok key_block.
Proof. vm_compute. reflexivity. Qed.

Lemma flags_open_archive_witness :
  @OpenRecipientBlock toy_crypto key_age key_block (@mk_unlock key_age (str "pass phrase") [replicate 40 (zb 7)] []) = Opened sample_cek.
Proof.
  refine (@flags_open_archive key_age key_parsers key_files toy_crypto toy_laws key_age_nonempty key_age_opens unit
    key_flags key_reader key_creds _ sample_cek key_block toy_rng _ _ _ eq_refl key_sealed _).
  - vm_compute. reflexivity.
  - vm_compute. reflexivity.
  - apply (repeat_key _ _ (str "k")); [by left|by left|by right|done].
  - intros ss s c Hp Hin Ht. vm_compute in Hp. apply Ok_inj in Hp as <-.
    repeat (apply elem_of_cons in Hin as [->|Hin]; [vm_compute in Ht; first [discriminate Ht | injection Ht as <-; reflexivity]|]).
    by apply elem_of_nil in Hin.
Defined.

Lemma password_bound_to_keys_witness :
  exists kinds, @OpenRecipientBlock toy_crypto key_age key_block (@mk_unlock key_age (str "pass phrase") [] []) = OpenNoMatch kinds.
Proof.
  refine (@password_bound_to_keys key_age key_parsers key_files toy_crypto toy_laws key_age_nonempty unit
    key_flags password_reader key_creds _ sample_cek key_block toy_rng _ _ _ eq_refl eq_refl eq_refl key_sealed).
  - vm_compute. reflexivity.
  - done.
  - vm_compute. reflexivity.
Defined.
