(* ===== verification/SizeFlag.v ===== *)
(** * Sizes on the command line and in messages (cmd/sarc/size.go, io/progress.go)

    [parseSize] reads the value of [--split]; [FormatBytes] prints sizes. Both go through
    float64. *)

From stdpp Require Import pretty.
From S2P Require Import Prelude Bytes IndexCodec IOErrors Float64 Storage Credentials.
Open Scope go_scope.

(** ** Parsing *)

(** By their spelling in upper case: K, M, G, T are powers of 1024, KB, MB, GB, TB of 1000. *)
Definition sizeUnits : list (bytes * Z) :=
  [(str "", 1); (str "B", 1);
   (str "K", 2 ^ 10); (str "KIB", 2 ^ 10); (str "KB", 1000);
   (str "M", 2 ^ 20); (str "MIB", 2 ^ 20); (str "MB", 1000000);
   (str "G", 2 ^ 30); (str "GIB", 2 ^ 30); (str "GB", 1000000000);
   (str "T", 2 ^ 40); (str "TIB", 2 ^ 40); (str "TB", 1000000000000)].

(** [strings.ToUpper] as far as the result can be a unit: besides the ASCII letters, only the
    dotless i (c4 b1) and the long s (c5 bf) have ASCII capitals. *)
Fixpoint ToUpper (b : bytes) : bytes :=
  match b with
  | [] => []
  | c :: b1 =>
      if is_lower c then zb (bz c - 32) :: ToUpper b1
      else match b1 with
           | [] => [c]
           | d :: b2 =>
               if (bz c =? 196) && (bz d =? 177) then zb 73 :: ToUpper b2
               else if (bz c =? 197) && (bz d =? 191) then zb 83 :: ToUpper b2
               else c :: ToUpper b1
           end
  end.

Definition unit_size (s : bytes) : option Z :=
  match List.find (fun u => bytes_eqb (fst u) s) sizeUnits with Some (_, n) => Some n | None => None end.

Definition dot : byte := zb 46.
Definition number_byte (c : byte) : bool := ascii_digit c || bool_decide (c = dot).

(** The bytes after the last digit or dot, and those up to it. *)
Fixpoint split_unit_rev (r unit : bytes) : bytes * bytes :=
  match r with
  | [] => ([], unit)
  | c :: r' => if number_byte c then (rev r, unit) else split_unit_rev r' (c :: unit)
  end.
Definition split_unit (s : bytes) : bytes * bytes := split_unit_rev (rev s) [].

Definition digits_value (ds : bytes) : Z := fold_left (fun acc c => 10 * acc + (bz c - 48)) ds 0.
Definition all_digits (ds : bytes) : bool := negb (bytes_eqb ds []) && forallb ascii_digit ds.

(** The number as a fraction when [decimalNumber] matches it. *)
Definition decimal_fraction (s : bytes) : option (Z * Z) :=
  match cut [dot] s with
  | None => if all_digits s then Some (digits_value s, 1) else None
  | Some (whole, frac) => if all_digits whole && all_digits frac then Some (digits_value (whole ++ frac), 10 ^ len frac) else None
  end.

Definition parseSize (s : bytes) : result Z :=
  let s := TrimSpace s in
  let '(number, unit) := split_unit s in
  match unit_size (ToUpper (TrimSpace unit)), decimal_fraction number with
  | Some unit, Some (num, den) =>
      match f64_round num den, f64_of_Z unit with
      | Some number, Some unit =>
          if fl_num number <=? 0 then errorf ErrOther "invalid size"
          else match f64_mul number unit with
               | None => errorf ErrOther "size is too large"
               | Some bytes => if 2 ^ 62 * fl_den bytes <? fl_num bytes then errorf ErrOther "size is too large" else Ok (f64_trunc bytes)
               end
      | _, _ => errorf ErrOther "invalid size"
      end
  | _, _ => errorf ErrOther "invalid size"
  end.

(** ** Printing *)

Definition pad2 (n : Z) : string := if n <? 10 then ("0" +:+ pretty n)%string else pretty n.

(** [%.2f] of a size over a power of two. *)
Definition two_places (b unit : Z) : string :=
  match f64_of_Z b, f64_of_Z unit with
  | Some x, Some y => match f64_div x y with
                      | Some q => let n := f64_scaled 2 q in (pretty (n / 100) +:+ "." +:+ pad2 (n mod 100))%string
                      | None => "+Inf"%string
                      end
  | _, _ => "+Inf"%string
  end.

Definition FormatBytes (b : Z) : string :=
  if 2 ^ 30 <=? b then (two_places b (2 ^ 30) +:+ " GB")%string
  else if 2 ^ 20 <=? b then (two_places b (2 ^ 20) +:+ " MB")%string
  else if 2 ^ 10 <=? b then (two_places b (2 ^ 10) +:+ " KB")%string
  else (pretty b +:+ " B")%string.

(** ** Examples, from the program's tests *)

Example sizes_parse :
  map (fun s => parseSize (str s)) ["65536"; "2GB"; "2gb"; "2G"; "2GiB"; "700MiB"; "700MB"; "1.5G"; "64K"; "10 MB"; "1TB"; "512B"; " 3M "] =
  map Ok [65536; 2000000000; 2000000000; 2 ^ 31; 2 ^ 31; 700 * 2 ^ 20; 700000000; 3 * 2 ^ 29; 65536; 10000000; 1000000000000; 512; 3 * 2 ^ 20].
Proof. vm_compute. reflexivity. Qed.

Example sizes_refused :
  forallb (fun s => negb (is_ok (parseSize (str s)))) [""; "GB"; "-1GB"; "0"; "2XB"; "1e3GB"; "abc"; "1..5G"; "99999999999TB"] = true.
Proof. vm_compute. reflexivity. Qed.

Example sizes_format : map FormatBytes [1023; 1536; 5 * 2 ^ 20; 2 ^ 31 + 2 ^ 29] = ["1023 B"; "1.50 KB"; "5.00 MB"; "2.50 GB"]%string.
Proof. vm_compute. reflexivity. Qed.

(** ** Exactness *)

(** A letter or digit, which no space begins or ends with. *)
Definition plain (c : byte) : bool := ascii_digit c || is_upper c.

Definition heads_differ (c : byte) (seqs : list bytes) : bool :=
  forallb (fun q => match q with x :: _ => negb (bool_decide (x = c)) | [] => false end) seqs.

Lemma plain_heads c : plain c = true -> heads_differ c space_seqs = true /\ heads_differ c (map (@rev byte) space_seqs) = true.
Proof. destruct c; vm_compute; done. Qed.

Lemma trim_none fuel seqs c b : heads_differ c seqs = true -> trim_prefixes fuel seqs (c :: b) = c :: b.
Proof.
  intros Hd. destruct fuel as [|fuel]; [done|]. cbn [trim_prefixes]. destruct (List.find _ seqs) as [q|] eqn:E; [|done].
  apply find_some in E as [Hin Hp]. unfold heads_differ in Hd. rewrite forallb_forall in Hd. specialize (Hd _ Hin). destruct q as [|x q]; [done|].
  apply bytes_eqb_true in Hp. unfold ztake in Hp. rewrite len_cons in Hp.
  replace (Z.to_nat (1 + len q)) with (S (Z.to_nat (len q))) in Hp by len_lia. cbn [take] in Hp. injection Hp as -> _.
  by rewrite bool_decide_true in Hd.
Qed.

(** Text that begins and ends plainly has no space to trim. *)
Lemma TrimSpace_plain b c d : plain c = true -> plain d = true -> (exists t, b = c :: t) -> (exists t, b = t ++ [d]) -> TrimSpace b = b.
Proof.
  intros Hc Hd [t Ht] [t' Ht']. unfold TrimSpace. pose proof (proj1 (plain_heads c Hc)) as H1. pose proof (proj2 (plain_heads d Hd)) as H2.
  assert (trim_prefixes (length b) space_seqs b = b) as -> by (rewrite Ht; by apply trim_none).
  assert (trim_prefixes (length b) (map (@rev byte) space_seqs) (rev b) = rev b) as ->; [|apply rev_involutive].
  rewrite Ht', rev_app_distr. by apply trim_none.
Qed.

Lemma split_unit_rev_spec u : forall r unit, Forall (fun c => number_byte c = false) u ->
  match r with c :: _ => number_byte c = true | [] => True end -> split_unit_rev (u ++ r) unit = (rev r, rev u ++ unit).
Proof.
  induction u as [|c u IH]; intros r unit Hu Hr; cbn [app split_unit_rev rev].
  - destruct r as [|c r]; [done|]. cbn [split_unit_rev]. by rewrite Hr.
  - apply Forall_cons in Hu as [Hc Hu]. rewrite Hc, IH by done. by rewrite <- app_assoc.
Qed.

Lemma split_unit_spec ds u c : Forall (fun c => number_byte c = false) u -> (exists t, ds = t ++ [c]) -> number_byte c = true ->
  split_unit (ds ++ u) = (ds, u).
Proof.
  intros Hu [t ->] Hc. unfold split_unit. rewrite rev_app_distr, split_unit_rev_spec.
  - by rewrite !rev_involutive, app_nil_r.
  - by apply Forall_rev.
  - by rewrite rev_app_distr.
Qed.

Lemma digit_bytes c : ascii_digit c = true -> plain c = true /\ number_byte c = true /\ c <> dot.
Proof. destruct c; vm_compute; done. Qed.

Lemma cut_absent c s : c ∉ s -> cut [c] s = None.
Proof.
  induction s as [|x s IH]; intros Hs; cbn [cut]; [done|]. apply not_elem_of_cons in Hs as [Hx Hs]. rewrite IH by done.
  destruct (has_prefix [c] (x :: s)) eqn:E; [|done]. apply bytes_eqb_true in E. unfold ztake in E. change (Z.to_nat (len [c])) with 1%nat in E. cbn [take] in E. by injection E as ->.
Qed.

(** What the units are: plain text without a digit, spelled as they are looked up. *)
Lemma units_plain : forallb (fun u => forallb (fun c => negb (number_byte c) && plain c) (fst u) &&
  bytes_eqb (ToUpper (TrimSpace (fst u))) (fst u) && bool_decide (unit_size (fst u) = Some (snd u)) && (0 <? snd u) && (snd u <? 2 ^ 53)) sizeUnits = true.
Proof. vm_compute. reflexivity. Qed.

Lemma all_digits_ends ds : all_digits ds = true -> exists c t d t', ds = c :: t /\ ds = t' ++ [d] /\ ascii_digit c = true /\ ascii_digit d = true.
Proof.
  unfold all_digits. intros H. apply andb_true_iff in H as [Hne Hd]. rewrite forallb_forall in Hd. destruct ds as [|c t]; [done|].
  destruct (exists_last (l := c :: t) ltac:(done)) as (t' & d & Heq). exists c, t, d, t'. split_and!; try done; apply Hd; [by left|].
  rewrite Heq. apply in_or_app. right. by left.
Qed.

Lemma f64_mul_exact x y a b : 0 <= a -> 0 <= b -> a * b < 2 ^ 53 -> fl_num x = a * fl_den x -> fl_num y = b * fl_den y ->
  exists z, f64_mul x y = Some z /\ fl_num z = a * b * fl_den z.
Proof.
  intros Ha Hb Hab Hx Hy. unfold f64_mul. rewrite Hx, Hy. replace (a * fl_den x * (b * fl_den y)) with (a * b * (fl_den x * fl_den y)) by ring.
  apply f64_round_exact; [nia|]. pose proof (fl_den_pos x). pose proof (fl_den_pos y). nia.
Qed.

(** C34. Whole sizes are exact. A number of any digits followed by one of the units is read as
    exactly that many bytes, through all the floating point, as long as it is below 2^53
    bytes: "2GB" is two billion. *)
Theorem parse_size_exact (ds unit : bytes) (m : Z) (Hds : all_digits ds = true) (Hunit : (unit, m) ∈ sizeUnits)
  (Hrange : 0 < digits_value ds * m < 2 ^ 53) : parseSize (ds ++ unit) = Ok (digits_value ds * m).
Proof.
  pose proof units_plain as Hu. rewrite forallb_forall in Hu. apply list_elem_of_In in Hunit. specialize (Hu _ Hunit). cbn [fst snd] in Hu.
  repeat (apply andb_true_iff in Hu as [Hu ?]). apply bool_decide_eq_true in H1. apply bytes_eqb_true in H2. apply Z.ltb_lt in H0, H.
  destruct (all_digits_ends ds Hds) as (c & t & d & t' & Hc & Hd & Hcd & Hdd). rewrite forallb_forall in Hu.
  destruct (digit_bytes c Hcd) as (Hcp & _ & _), (digit_bytes d Hdd) as (Hdp & Hdn & _).
  assert (TrimSpace (ds ++ unit) = ds ++ unit) as Htrim.
  { destruct (rev unit) as [|e r] eqn:Er.
    - assert (unit = []) as -> by (rewrite <- (rev_involutive unit), Er; done). rewrite app_nil_r. apply (TrimSpace_plain _ c d); [done..|by exists t|by exists t'].
    - assert (unit = rev r ++ [e]) as He by (rewrite <- (rev_involutive unit), Er; done).
      apply (TrimSpace_plain _ c e); [done| |exists (t ++ unit); by rewrite Hc|exists (ds ++ rev r); by rewrite He, app_assoc].
      specialize (Hu e). rewrite He in Hu. apply andb_true_iff in Hu as [_ ?]; [done|]. apply in_or_app. right. by left. }
  assert (split_unit (ds ++ unit) = (ds, unit)) as Hsplit.
  { apply (split_unit_spec _ _ d); [|by exists t'|done]. apply Forall_forall. intros x Hx. apply list_elem_of_In, Hu, andb_true_iff in Hx as [Hx _].
    by apply negb_true_iff in Hx. }
  assert (decimal_fraction ds = Some (digits_value ds, 1)) as Hfrac.
  { unfold decimal_fraction. rewrite cut_absent, Hds; [done|]. intros Hin. unfold all_digits in Hds. apply andb_true_iff in Hds as [_ Hf].
    rewrite forallb_forall in Hf. apply list_elem_of_In, Hf, digit_bytes in Hin as (_ & _ & ?). done. }
  unfold parseSize. rewrite Htrim, Hsplit, H2, H1, Hfrac. assert (0 < digits_value ds) by nia.
  destruct (f64_round_exact (digits_value ds) 1 ltac:(nia) ltac:(lia)) as (x & Hx & Hxv). rewrite Z.mul_1_r in Hx.
  destruct (f64_round_exact m 1 ltac:(lia) ltac:(lia)) as (y & Hy & Hyv). rewrite Z.mul_1_r in Hy. unfold f64_of_Z. rewrite Hx, Hy.
  pose proof (fl_den_pos x). destruct (Z.leb_spec (fl_num x) 0) as [|_]; [nia|].
  destruct (f64_mul_exact x y (digits_value ds) m) as (z & Hz & Hzv); [lia|lia|lia|done|done|]. rewrite Hz. pose proof (fl_den_pos z).
  destruct (Z.ltb_spec (2 ^ 62 * fl_den z) (fl_num z)) as [Hbig|_]; [nia|].
  unfold f64_trunc. rewrite Hzv, Z.div_mul by lia. done.
Qed.

Lemma parse_size_exact_witness : parseSize (str "700" ++ str "MB") = Ok 700000000.
Proof. apply (parse_size_exact (str "700") (str "MB") 1000000); [reflexivity|apply list_elem_of_In; vm_compute; tauto|vm_compute; split; reflexivity]. Defined.
