(* ===== verification/Xattrs.v ===== *)
(** * Reading extended attributes (io/xattr_unix.go)

    The attributes of a file may change between any two system calls: [sys t] is what the
    [t]-th call finds, an error or the attributes in the order the system lists them. A call
    with an empty buffer asks for the size, also when the buffer is empty because the size
    was 0. Results are [None] for a panic. *)

From stdpp Require Import gmap list sorting.
From S2P Require Import Prelude Bytes IndexCodec Attributes SolidPlan.
Open Scope go_scope.

Definition xattrRetries : nat := 4.

(** Errors as [errors.Is] tells them apart: not supported, no such attribute, buffer too
    small, any other. *)
Inductive xerr := XUnsupported | XMissing | XRange | XFailed.

Definition xsys : Type := nat -> xerr + list (bytes * bytes).

Definition nul_byte : byte := zb 0.

(** The names as the system lists them, each ended by a zero byte. *)
Definition names_list (xs : list (bytes * bytes)) : bytes := concat (map (fun x => fst x ++ [nul_byte]) xs).

Definition find_value (name : bytes) (xs : list (bytes * bytes)) : option bytes :=
  match List.find (fun x => bytes_eqb (fst x) name) xs with Some (_, v) => Some v | None => None end.

(** [bytes.Split(b, {0})]. *)
Fixpoint split_nul (b : bytes) : list bytes :=
  match b with
  | [] => [[]]
  | c :: b => if bz c =? 0 then [] :: split_nul b
              else match split_nul b with [] => [[c]] | l :: ls => (c :: l) :: ls end
  end.

(** The value that marks an attribute too large to store. *)
Definition oversized : bytes := replicate (Z.to_nat (MaxXattrsSize + 1)) nul_byte.

Lemma len_oversized : len oversized = MaxXattrsSize + 1.
Proof. unfold oversized. rewrite len_replicate, Z2Nat.id; done. Qed.

#[local] Opaque oversized.

Definition usable_name (name : bytes) : bool := (0 <? len name) && (len name <=? MaxXattrNameLen).

(** A read into a buffer of [size] bytes: its length and what it got, or an error. An empty
    buffer only asks for the length. *)
Definition read_into (size : Z) (content : bytes) : xerr + Z :=
  if size =? 0 then inr (len content) else if size <? len content then inl XRange else inr (len content).

Section Xattrs.
Context (sys : xsys).

(** Results with the number of the next system call. *)
Fixpoint listXattrs (retries t : nat) : (xerr + list bytes) * nat :=
  match retries with
  | O => (inl XFailed, t)
  | S retries =>
      match sys t with
      | inl XUnsupported => (inr [], S t)
      | inl e => (inl e, S t)
      | inr xs =>
          let size := len (names_list xs) in
          if size =? 0 then (inr [], S t)
          else match sys (S t) with
               | inl XRange => listXattrs retries (S (S t))
               | inl e => (inl e, S (S t))
               | inr xs' =>
                   match read_into size (names_list xs') with
                   | inl _ => listXattrs retries (S (S t))
                   | inr _ => (inr (stable_sort bytes_ltb (List.filter usable_name (split_nul (names_list xs')))), S (S t))
                   end
               end
      end
  end.

(** [None]: slicing the buffer past its end. *)
Fixpoint getXattr (name : bytes) (retries t : nat) : option ((xerr + bytes) * nat) :=
  match retries with
  | O => Some (inl XFailed, t)
  | S retries =>
      match sys t with
      | inl e => Some (inl e, S t)
      | inr xs =>
          match find_value name xs with
          | None => Some (inl XMissing, S t)
          | Some v =>
              let size := len v in
              if MaxXattrsSize <? size then Some (inr (oversized), S t)
              else match sys (S t) with
                   | inl XRange => getXattr name retries (S (S t))
                   | inl e => Some (inl e, S (S t))
                   | inr xs' =>
                       match find_value name xs' with
                       | None => Some (inl XMissing, S (S t))
                       | Some v' =>
                           match read_into size v' with
                           | inl _ => getXattr name retries (S (S t))
                           | inr n => if size <? n then None else Some (inr v', S (S t))
                           end
                       end
                   end
          end
      end
  end.

Fixpoint read_values (xattrs : list Xattr) (names : list bytes) (t : nat) : option (xerr + list Xattr) :=
  match names with
  | [] => Some (inr xattrs)
  | name :: names =>
      match getXattr name xattrRetries t with
      | None => None
      | Some (inl XMissing, t) => read_values xattrs names t
      | Some (inl e, _) => Some (inl e)
      | Some (inr value, t) =>
          let xattrs := xattrs ++ [mk_xattr name value] in
          if MaxXattrsSize <? XattrsSize xattrs then Some (inr xattrs) else read_values xattrs names t
      end
  end.

Definition readXattrs : option (xerr + list Xattr) :=
  match listXattrs xattrRetries 0 with
  | (inl e, _) => Some (inl e)
  | (inr [], _) => Some (inr [])
  | (inr names, t) => read_values [] names t
  end.
End Xattrs.

(** ** Attributes that do not change *)

(** What the system lists: names without zero bytes, each once and not empty. *)
Definition listable (xs : list (bytes * bytes)) : Prop :=
  NoDup (map fst xs) /\ Forall (fun x => fst x <> [] /\ nul_byte ∉ fst x) xs.

(** The attributes with usable names, by name. *)
Definition kept_xattrs (xs : list (bytes * bytes)) : list Xattr :=
  map (fun name => mk_xattr name (default [] (find_value name xs)))
    (stable_sort bytes_ltb (List.filter usable_name (map fst xs))).

Lemma split_nul_name name b : nul_byte ∉ name -> split_nul (name ++ nul_byte :: b) = name :: split_nul b.
Proof.
  induction name as [|c name IH]; intros Hn; [done|]. apply not_elem_of_cons in Hn as [Hc Hn]. cbn [app split_nul].
  destruct (Z.eqb_spec (bz c) 0) as [Hz|_]; [|by rewrite IH]. exfalso. apply Hc. by destruct c.
Qed.

Lemma split_names xs : Forall (fun x => fst x <> [] /\ nul_byte ∉ fst x) xs -> split_nul (names_list xs) = map fst xs ++ [[]].
Proof.
  induction 1 as [|x xs [_ Hx] _ IH]; [done|]. unfold names_list in *. cbn [map concat]. rewrite <- app_assoc. cbn [app].
  by rewrite split_nul_name, IH.
Qed.

Lemma filter_usable xs : List.filter usable_name (map fst xs ++ [[]]) = List.filter usable_name (map (@fst bytes bytes) xs).
Proof. rewrite List.filter_app. cbn. by rewrite app_nil_r. Qed.

Lemma names_list_pos x xs : 0 < len (names_list (x :: xs)).
Proof. unfold names_list. cbn [map concat]. rewrite !len_app, len_cons. len_lia. Qed.

Lemma find_value_in xs name : name ∈ map fst xs -> exists v, find_value name xs = Some v.
Proof.
  intros Hin. unfold find_value. destruct (List.find _ xs) as [[n v]|] eqn:E; [by exists v|]. exfalso.
  apply list_elem_of_fmap in Hin as (x & -> & Hx). apply list_elem_of_In in Hx. apply (find_none _ _ E) in Hx. by rewrite bytes_eqb_refl in Hx.
Qed.

Section Stable.
Context (xs : list (bytes * bytes)) (Hxs : listable xs).

Abbreviation stable := (fun _ : nat => inr xs : xerr + list (bytes * bytes)).

Lemma list_stable : exists t, listXattrs stable xattrRetries 0 = (inr (stable_sort bytes_ltb (List.filter usable_name (map fst xs))), t).
Proof.
  destruct Hxs as [_ Hf]. unfold xattrRetries. cbn [listXattrs]. destruct xs as [|x l] eqn:E; [by eexists|].
  pose proof (names_list_pos x l). destruct (Z.eqb_spec (len (names_list (x :: l))) 0); [lia|]. unfold read_into.
  destruct (Z.eqb_spec (len (names_list (x :: l))) 0); [lia|]. rewrite Z.ltb_irrefl, split_names, filter_usable by done. by eexists.
Qed.

Lemma get_stable name v t : find_value name xs = Some v -> exists t',
  getXattr stable name xattrRetries t =
    Some (inr (if MaxXattrsSize <? len v then oversized else v), t').
Proof.
  intros Hv. unfold xattrRetries. cbn [getXattr]. rewrite Hv. destruct (MaxXattrsSize <? len v); [by eexists|]. unfold read_into.
  destruct (len v =? 0) eqn:E; [rewrite Z.ltb_irrefl; by eexists|]. rewrite !Z.ltb_irrefl. by eexists.
Qed.

Lemma XattrsSize_app a b : XattrsSize (a ++ b) = XattrsSize a + XattrsSize b.
Proof. unfold XattrsSize. induction a as [|x a IH]; cbn [app foldr]; [done|]. rewrite IH. lia. Qed.

Lemma XattrsSize_cons x l : XattrsSize (x :: l) = 1 + len (xattr_Name x) + 4 + len (xattr_Value x) + XattrsSize l.
Proof. done. Qed.

Lemma XattrsSize_nonneg a : 0 <= XattrsSize a.
Proof. unfold XattrsSize. induction a as [|x a IH]; cbn [foldr]; [done|]. unfold xattr_size at 1. pose proof (len_nonneg (xattr_Name x)). pose proof (len_nonneg (xattr_Value x)). lia. Qed.

Lemma values_stable names : forall acc t, XattrsSize acc <= MaxXattrsSize -> Forall (fun n => n ∈ map fst xs) names ->
  let kept := acc ++ map (fun name => mk_xattr name (default [] (find_value name xs))) names in
  exists out, read_values stable acc names t = Some (inr out) /\
    (if MaxXattrsSize <? XattrsSize kept then MaxXattrsSize < XattrsSize out else out = kept).
Proof.
  induction names as [|name names IH]; intros acc t Hacc Hin; cbv zeta; cbn [map read_values].
  { exists acc. split; [done|]. rewrite app_nil_r. by destruct (Z.ltb_spec MaxXattrsSize (XattrsSize acc)); [lia|]. }
  apply Forall_cons in Hin as [Hn Hin]. destruct (find_value_in _ _ Hn) as [v Hv]. destruct (get_stable name v t Hv) as [t' ->]. rewrite Hv. cbn [default id].
  pose proof (XattrsSize_nonneg acc). pose proof (len_nonneg name).
  set (rest := map _ names). pose proof (XattrsSize_nonneg rest).
  destruct (Z.ltb_spec MaxXattrsSize (len v)) as [Hbig|Hsmall].
  - assert (MaxXattrsSize < XattrsSize (acc ++ [mk_xattr name (oversized)])) as Hs.
    { rewrite XattrsSize_app, XattrsSize_cons. cbn [xattr_Name xattr_Value]. rewrite len_oversized. change (XattrsSize []) with 0. lia. }
    rewrite (proj2 (Z.ltb_lt _ _) Hs). eexists. split; [done|]. rewrite (proj2 (Z.ltb_lt MaxXattrsSize _)); [done|].
    rewrite XattrsSize_app, XattrsSize_cons. cbn [xattr_Name xattr_Value]. lia.
  - destruct (Z.ltb_spec MaxXattrsSize (XattrsSize (acc ++ [mk_xattr name v]))) as [Hs|Hs].
    + eexists. split; [done|]. rewrite (proj2 (Z.ltb_lt MaxXattrsSize _)); [done|]. rewrite XattrsSize_app, XattrsSize_cons in *. change (XattrsSize []) with 0 in Hs. lia.
    + destruct (IH (acc ++ [mk_xattr name v]) t' Hs Hin) as (out & -> & Hout). exists out. split; [done|].
      by rewrite <- app_assoc in Hout.
Qed.

(** C36. Attributes that do not change are read exactly: all with a usable name, by name, each with
    its value; unless together they are larger than an archive stores, and then what is
    returned is too large as well, so that the caller stores none. *)
Theorem xattrs_read_exact : exists out, readXattrs stable = Some (inr out) /\
  (if MaxXattrsSize <? XattrsSize (kept_xattrs xs) then MaxXattrsSize < XattrsSize out else out = kept_xattrs xs).
Proof.
  unfold readXattrs. destruct list_stable as [t ->]. set (names := stable_sort _ _).
  assert (Forall (fun n => n ∈ map fst xs) names) as Hin.
  { apply Forall_forall. intros n Hn. unfold names in Hn. rewrite stable_sort_perm in Hn. apply list_elem_of_In, filter_In in Hn as [Hn _]. by apply list_elem_of_In. }
  destruct (values_stable names [] t) as (out & Hr & Hout); [done|done|]. unfold kept_xattrs. fold names.
  destruct names as [|n names]; [exists []; by split|]. by exists out.
Qed.
End Stable.

(** ** Attributes that change *)

(** What is read was there: the value is the one some call found, or marks one that is too
    large to store. *)
Definition really_there (sys : xsys) (x : Xattr) : Prop :=
  usable_name (xattr_Name x) = true /\
  (xattr_Value x = oversized \/
   exists t xs, sys t = inr xs /\ find_value (xattr_Name x) xs = Some (xattr_Value x)).

Lemma get_there sys name retries : forall t v t', getXattr sys name retries t = Some (inr v, t') ->
  v = oversized \/ exists t xs, sys t = inr xs /\ find_value name xs = Some v.
Proof.
  induction retries as [|retries IH]; intros t v t' H; cbn [getXattr] in H; [done|]. destruct (sys t) as [|xs]; [done|].
  destruct (find_value name xs) as [v0|]; [|done]. destruct (MaxXattrsSize <? len v0); [injection H as <- <-; by left|].
  destruct (sys (S t)) as [[]|xs'] eqn:Es; try done; [by eapply IH|]. destruct (find_value name xs') as [v'|] eqn:Ev; [|done].
  destruct (read_into _ _); [by eapply IH|]. destruct (_ <? _); [done|]. injection H as <- <-. right. by exists (S t), xs'.
Qed.

Lemma values_there sys names : forall acc t out, Forall (really_there sys) acc -> Forall (fun n => usable_name n = true) names ->
  read_values sys acc names t = Some (inr out) -> Forall (really_there sys) out.
Proof.
  induction names as [|name names IH]; intros acc t out Ha Hn H; cbn [read_values] in H; [by injection H as <-|].
  apply Forall_cons in Hn as [Hu Hn]. destruct (getXattr sys name xattrRetries t) as [[[e|v] t']|] eqn:Eg; [destruct e; try done; by eapply IH| |done].
  assert (Forall (really_there sys) (acc ++ [mk_xattr name v])) as Hacc.
  { apply Forall_app. split; [done|]. apply Forall_singleton. split; [done|]. by eapply get_there. }
  destruct (_ <? _); [by injection H as <-|by eapply IH].
Qed.

Lemma list_usable sys retries : forall t names t', listXattrs sys retries t = (inr names, t') -> Forall (fun n => usable_name n = true) names.
Proof.
  induction retries as [|retries IH]; intros t names t' H; cbn [listXattrs] in H; [done|].
  destruct (sys t) as [[]|xs]; try done; [by injection H as <- <-|]. destruct (_ =? 0); [by injection H as <- <-|].
  destruct (sys (S t)) as [[]|xs']; try done; [by eapply IH|]. destruct (read_into _ _); [by eapply IH|]. injection H as <- <-.
  rewrite stable_sort_perm. apply Forall_forall. intros n Hn. by apply list_elem_of_In, filter_In in Hn as [_ ?].
Qed.

Lemma xattrs_really_there sys out : readXattrs sys = Some (inr out) -> Forall (really_there sys) out.
Proof.
  unfold readXattrs. destruct (listXattrs sys xattrRetries 0) as [[|names] t] eqn:El; [done|]. apply list_usable in El.
  destruct names as [|n names]; [by intros [= <-]|]. by apply values_there.
Qed.


Lemma xattrs_read_exact_witness : exists out,
  readXattrs (fun _ => inr [(str "user.b", str "2"); (str "user.a", str "1")]) = Some (inr out) /\
  out = [mk_xattr (str "user.a") (str "1"); mk_xattr (str "user.b") (str "2")].
Proof.
  assert (listable [(str "user.b", str "2"); (str "user.a", str "1")]) as Hl.
  { split; [|repeat constructor; try done; by apply (bool_decide_unpack _); vm_compute]. apply (bool_decide_unpack _). vm_compute. exact I. }
  destruct (xattrs_read_exact [(str "user.b", str "2"); (str "user.a", str "1")] Hl) as (out & Hr & Hout). exists out. split; [exact Hr|].
  exact Hout.
Defined.
