(* ===== verification/KeyGen.v ===== *)
(** * Generating keys (cmd/sarc/keygen.go, signing.go)

    [keygen] writes an age identity, a key file or a signing key. Files are a map from paths to
    contents; what each system call does is an argument. Keys and their encodings come from
    the libraries. *)

From stdpp Require Import gmap.
From S2P Require Import Prelude Bytes IndexCodec Crypto Recipients LocalStore.
Open Scope go_scope.

(** The outcome of creating a file, writing it (how much a failing write gets out) and closing
    it. *)
Record fileOps := mk_ops { op_open : bool; op_write : option Z; op_close : bool }.

(** Create a file that must not exist and write [contents] to it. *)
Definition writeNewFile (path contents : bytes) (ops : fileOps) (d : disk) : bool * disk :=
  match d !! path with
  | Some _ => (false, d)
  | None =>
      if negb (op_open ops) then (false, d)
      else match op_write ops with
           | Some n => (false, <[path := ztake (Z.max 0 (Z.min n (len contents))) contents]> d)
           | None => (op_close ops, <[path := contents]> d)
           end
  end.

(** The public key of a signing key goes beside it. *)
Definition pub_path (path : bytes) : bytes := path ++ str ".pub".

(** [writeSigningKey], given the encoded keys. [stat] is whether [os.Stat] sees the public
    key's file when it is there; [remove] whether removing the private key works. *)
Definition writeSigningKey (path priv pub : bytes) (stat remove : bool) (ops1 ops2 : fileOps) (d : disk) : bool * disk :=
  if stat && bool_decide (is_Some (d !! pub_path path)) then (false, d)
  else
    let '(ok, d) := writeNewFile path priv ops1 d in
    if negb ok then (false, d)
    else
      let '(ok, d) := writeNewFile (pub_path path) pub ops2 d in
      if ok then (true, d) else (false, if remove then delete path d else d).

Inductive keygenResult := KeygenPrinted (text : bytes) | KeygenFile (ok : bool) | KeygenRefused.

Record keygenFlags := mk_kflags { kf_output : bytes; kf_keyFile : bool; kf_signing : bool }.

(** What is generated: whether that works, an age identity as text, random bytes, and an
    encoded key pair. *)
Record generated := mk_gen { gen_ok : bool; gen_identity : bytes; gen_random : rng; gen_private : bytes; gen_public : bytes }.

Definition writeKeyFile (path : bytes) (random : bool) (r : rng) (ops : fileOps) (d : disk) : keygenResult * disk :=
  if bytes_eqb path [] then (KeygenRefused, d)
  else if negb random then (KeygenRefused, d)
  else let '(ok, d) := writeNewFile path (fst (draw MinKeyFileSize r)) ops d in (KeygenFile ok, d).

Definition runKeygen (fl : keygenFlags) (g : generated) (stat remove : bool) (ops1 ops2 : fileOps) (d : disk) : keygenResult * disk :=
  if kf_keyFile fl then writeKeyFile (kf_output fl) (gen_ok g) (gen_random g) ops1 d
  else if kf_signing fl then
    if bytes_eqb (kf_output fl) [] || negb (gen_ok g) then (KeygenRefused, d)
    else let '(ok, d) := writeSigningKey (kf_output fl) (gen_private g) (gen_public g) stat remove ops1 ops2 d in (KeygenFile ok, d)
  else if negb (gen_ok g) then (KeygenRefused, d)
  else if bytes_eqb (kf_output fl) [] then (KeygenPrinted (gen_identity g), d)
  else let '(ok, d) := writeNewFile (kf_output fl) (gen_identity g) ops1 d in (KeygenFile ok, d).

(** ** No file is overwritten *)

Lemma writeNewFile_keeps path contents ops d ok d' p c : writeNewFile path contents ops d = (ok, d') -> d !! p = Some c -> d' !! p = Some c.
Proof.
  unfold writeNewFile. destruct (d !! path) as [x|] eqn:E; [by intros [= <- <-]|]. destruct (negb _); [by intros [= <- <-]|].
  intros H Hp. destruct (decide (p = path)) as [->|Hne]; [congruence|]. destruct (op_write ops); injection H as <- <-; by rewrite lookup_insert_ne.
Qed.

Lemma writeNewFile_others path contents ops d ok d' p : writeNewFile path contents ops d = (ok, d') -> p <> path -> d' !! p = d !! p.
Proof.
  unfold writeNewFile. destruct (d !! path); [by intros [= <- <-]|]. destruct (negb _); [by intros [= <- <-]|].
  intros H Hp. destruct (op_write ops); injection H as <- <-; by rewrite lookup_insert_ne.
Qed.

Lemma writeNewFile_done path contents ops d d' : writeNewFile path contents ops d = (true, d') -> d !! path = None /\ d' = <[path := contents]> d.
Proof.
  unfold writeNewFile. destruct (d !! path); [done|]. destruct (negb _); [done|]. destruct (op_write ops); [done|]. by intros [= _ <-].
Qed.

Lemma pub_path_ne path : pub_path path <> path.
Proof. intros H. apply (f_equal len) in H. unfold pub_path in H. rewrite len_app in H. by change (len (str ".pub")) with 4 in H; lia. Qed.

Lemma writeSigningKey_keeps path priv pub stat remove ops1 ops2 d ok d' :
  writeSigningKey path priv pub stat remove ops1 ops2 d = (ok, d') ->
  (forall p c, d !! p = Some c -> d' !! p = Some c) /\ (forall p, p <> path -> p <> pub_path path -> d' !! p = d !! p) /\
  (ok = true -> d' !! path = Some priv /\ d' !! pub_path path = Some pub).
Proof.
  unfold writeSigningKey. destruct (stat && _); [by intros [= <- <-]|].
  destruct (writeNewFile path priv ops1 d) as [ok1 d1] eqn:E1. destruct ok1; cbn [negb].
  2: { intros [= <- <-]. split_and!; [|intros p Hp _; by eapply writeNewFile_others|done]. intros. by eapply writeNewFile_keeps. }
  destruct (writeNewFile_done _ _ _ _ _ E1) as [Hnone Hd1].
  destruct (writeNewFile (pub_path path) pub ops2 d1) as [ok2 d2] eqn:E2.
  assert (forall p c, d !! p = Some c -> d2 !! p = Some c) as Hkeep by (intros; eapply writeNewFile_keeps; [exact E2|]; by eapply writeNewFile_keeps).
  assert (forall p, p <> path -> p <> pub_path path -> d2 !! p = d !! p) as Hoth.
  { intros p Hp Hp'. rewrite (writeNewFile_others _ _ _ _ _ _ _ E2 Hp'). by eapply writeNewFile_others. }
  destruct ok2; intros [= <- <-].
  - split_and!; [done|done|]. intros _. destruct (writeNewFile_done _ _ _ _ _ E2) as [_ ->]. rewrite lookup_insert_eq, lookup_insert_ne by apply pub_path_ne.
    by rewrite Hd1, lookup_insert_eq.
  - destruct remove; [|done]. split_and!; [|intros; rewrite lookup_delete_ne by done; auto|done].
    intros p c Hp. rewrite lookup_delete_ne; [by apply Hkeep|]. congruence.
Qed.

(** C33. Generating keys never overwrites a file, whatever the flags and whichever system calls
    fail: every file keeps its content, and no other file than the output and, for a signing
    key, its public key is created. A command that succeeds has written the whole key, and
    for a signing key both of its files. *)
Theorem keygen_never_overwrites (fl : keygenFlags) (g : generated) (stat remove : bool) (ops1 ops2 : fileOps) (d : disk) :
  let '(res, d') := runKeygen fl g stat remove ops1 ops2 d in
  (forall p c, d !! p = Some c -> d' !! p = Some c) /\
  (forall p, p <> kf_output fl -> p <> pub_path (kf_output fl) -> d' !! p = d !! p) /\
  (res = KeygenFile true ->
    if kf_keyFile fl then d' !! kf_output fl = Some (fst (draw MinKeyFileSize (gen_random g)))
    else if kf_signing fl then d' !! kf_output fl = Some (gen_private g) /\ d' !! pub_path (kf_output fl) = Some (gen_public g)
    else d' !! kf_output fl = Some (gen_identity g)).
Proof.
  assert (forall contents ok d', writeNewFile (kf_output fl) contents ops1 d = (ok, d') ->
    (forall p c, d !! p = Some c -> d' !! p = Some c) /\
    (forall p, p <> kf_output fl -> p <> pub_path (kf_output fl) -> d' !! p = d !! p) /\
    (KeygenFile ok = KeygenFile true -> d' !! kf_output fl = Some contents)) as Hnew.
  { intros contents ok d' H. split_and!.
    - intros. by eapply writeNewFile_keeps.
    - intros. by eapply writeNewFile_others.
    - intros [= ->]. destruct (writeNewFile_done _ _ _ _ _ H) as [_ ->]. apply lookup_insert_eq. }
  unfold runKeygen, writeKeyFile. destruct (kf_keyFile fl).
  { destruct (bytes_eqb _ _); [done|]. destruct (negb (gen_ok g)); [done|]. destruct (writeNewFile _ _ _ _) as [ok d'] eqn:E. by apply Hnew in E. }
  destruct (kf_signing fl).
  - destruct (_ || _); [done|]. destruct (writeSigningKey _ _ _ _ _ _ _ _) as [ok d'] eqn:E.
    apply writeSigningKey_keeps in E as (Hk & Ho & Hok). split_and!; [done|done|]. intros [= ->]. by apply Hok.
  - destruct (negb _); [done|]. destruct (bytes_eqb _ _); [done|]. destruct (writeNewFile _ _ _ _) as [ok d'] eqn:E. by apply Hnew in E.
Qed.
