(* ===== verification/Volume.v ===== *)
(** * Split archives (archive/volume.go, io/volume.go)

    The volume header codec, [VolumeWriter] as explicit state over a directory of files,
    and [VolumeReader] over either a set of files or one stream. A directory maps paths to
    contents. Which file operations succeed is an argument of the writer, so that every
    error return is a branch of the model; a failed write leaves the file as it was. A
    read from a file returns all the bytes asked for that are there. *)

From stdpp Require Import gmap.
From S2P Require Import Prelude Bytes IndexCodec Crypto Frames Checksum IOErrors.
Open Scope go_scope.

(** ** Volume headers (archive/volume.go) *)

Definition volumeMagic : bytes := str "SARCVOL1".
Definition VolumeIDSize : Z := 16.
Definition VolumeHeaderSize : Z := len volumeMagic + VolumeIDSize + 4 + 1 + 3 + 8.
Definition VolumeChecksumSize : Z := 32.
Definition VolumeOverhead : Z := VolumeHeaderSize + VolumeChecksumSize.
Definition VolumeFlagLast : Z := 1.

Record VolumeHeader := mk_vh { vh_ArchiveID : bytes; vh_Index : Z; vh_Last : bool; vh_PayloadLen : Z }.

Definition vh_Marshal (h : VolumeHeader) : bytes :=
  volumeMagic ++ vh_ArchiveID h ++ le_bytes 4 (vh_Index h) ++
  [zb (if vh_Last h then VolumeFlagLast else 0); Byte.x00; Byte.x00; Byte.x00] ++ le_bytes 8 (vh_PayloadLen h).

Definition IsVolumeHeader (b : bytes) : bool :=
  (len volumeMagic <=? len b) && bytes_eqb (ztake (len volumeMagic) b) volumeMagic.

Definition ParseVolumeHeader (b : bytes) : result VolumeHeader :=
  if negb (len b =? VolumeHeaderSize) || negb (IsVolumeHeader b)
  then errorf ErrMalformedVolumeHeader "bad magic or size"
  else
    let off := len volumeMagic in
    let id := ztake VolumeIDSize (zdrop off b) in
    let off := off + VolumeIDSize in
    let index := le_u32 (zdrop off b) in
    let off := off + 4 in
    let flags := byte_at off b in
    if negb (Z.ldiff flags VolumeFlagLast =? 0) || negb (byte_at (off + 1) b =? 0) ||
       negb (byte_at (off + 2) b =? 0) || negb (byte_at (off + 3) b =? 0)
    then errorf ErrMalformedVolumeHeader "unknown flags"
    else
      let last := negb (Z.land flags VolumeFlagLast =? 0) in
      let off := off + 4 in
      let payloadLen := le_u64 (zdrop off b) in
      if index =? 0 then errorf ErrMalformedVolumeHeader "index 0"
      else Ok (mk_vh id index last payloadLen).

Definition vh_ok (h : VolumeHeader) : Prop :=
  len (vh_ArchiveID h) = VolumeIDSize /\ 1 <= vh_Index h < 2 ^ 32 /\ 0 <= vh_PayloadLen h < 2 ^ 64.

Lemma len_vh_Marshal h : len (vh_ArchiveID h) = VolumeIDSize -> len (vh_Marshal h) = VolumeHeaderSize.
Proof. intros Hi. unfold vh_Marshal. rewrite !len_app, Hi, !len_le_bytes. done. Qed.

Lemma zdrop_seg {X} n (a b : list X) : len a <= n -> zdrop n (a ++ b) = zdrop (n - len a) b.
Proof. apply zdrop_app_ge. Qed.

Lemma byte_at_cons0 x b : byte_at 0 (x :: b) = bz x.
Proof. done. Qed.

Lemma byte_at_seg n a b : len a <= n -> byte_at n (a ++ b) = byte_at (n - len a) b.
Proof. intros. unfold byte_at. by rewrite zdrop_seg. Qed.

Lemma ParseVolumeHeader_Marshal h : vh_ok h -> ParseVolumeHeader (vh_Marshal h) = Ok h.
Proof.
  intros (Hi & Hx & Hp). unfold ParseVolumeHeader. rewrite len_vh_Marshal, Z.eqb_refl by done.
  assert (IsVolumeHeader (vh_Marshal h) = true) as ->.
  { unfold IsVolumeHeader. rewrite len_vh_Marshal by done. unfold vh_Marshal. rewrite ztake_app by done.
    by rewrite bytes_eqb_refl. }
  cbn [negb orb]. cbv zeta. unfold vh_Marshal.
  change (len volumeMagic) with 8. unfold VolumeIDSize in *.
  rewrite (zdrop_app 8) by done. rewrite (ztake_app 16) by done.
  assert (forall n b, 24 <= n -> zdrop n (volumeMagic ++ vh_ArchiveID h ++ b) = zdrop (n - 24) b) as Hd.
  { intros n b Hn. rewrite zdrop_seg by (change (len volumeMagic) with 8; lia). change (len volumeMagic) with 8.
    rewrite zdrop_seg by lia. f_equal. lia. }
  assert (forall n b, 24 <= n -> byte_at n (volumeMagic ++ vh_ArchiveID h ++ b) = byte_at (n - 24) b) as Hb.
  { intros n b Hn. unfold byte_at. by rewrite Hd. }
  rewrite !Hd, !Hb by lia. change (8 + 16 - 24) with 0. rewrite zdrop_0, le_u32_app by lia.
  rewrite !byte_at_seg by (rewrite len_le_bytes; lia). rewrite !len_le_bytes.
  rewrite zdrop_seg by (rewrite len_le_bytes; lia). rewrite len_le_bytes.
  change (8 + 16 + 4 - 24 - Z.of_nat 4) with 0. change (8 + 16 + 4 + 1 - 24 - Z.of_nat 4) with 1.
  change (8 + 16 + 4 + 2 - 24 - Z.of_nat 4) with 2. change (8 + 16 + 4 + 3 - 24 - Z.of_nat 4) with 3.
  change (8 + 16 + 4 + 4 - 24 - Z.of_nat 4) with 4. cbn [app]. unfold byte_at at 1 2 3 4.
  change (zdrop 4 (?a :: ?b :: ?c :: ?d :: ?l)) with l. rewrite <- (app_nil_r (le_bytes 8 _)), le_u64_app by done.
  rewrite (proj2 (Z.eqb_neq (vh_Index h) 0)) by lia. destruct h as [? ? [|] ?]; reflexivity.
Qed.

(** A flag byte with no unknown bit, then three zero bytes. *)
Lemma flag_bytes b : 4 <= len (zdrop 28 b) -> Z.ldiff (byte_at 28 b) VolumeFlagLast = 0 -> byte_at 29 b = 0 ->
  byte_at 30 b = 0 -> byte_at 31 b = 0 ->
  [zb (if negb (Z.land (byte_at 28 b) VolumeFlagLast =? 0) then VolumeFlagLast else 0); Byte.x00; Byte.x00; Byte.x00] =
  ztake 4 (zdrop 28 b).
Proof.
  assert (forall k, 0 <= k -> byte_at (28 + k) b = byte_at k (zdrop 28 b)) as Hat.
  { intros k Hk. unfold byte_at. by rewrite zdrop_zdrop. }
  change 29 with (28 + 1). change 30 with (28 + 2). change 31 with (28 + 3). rewrite !Hat by lia.
  change (byte_at 28 b) with (byte_at 0 (zdrop 28 b)). generalize (zdrop 28 b) as c. intros c Hl.
  destruct c as [|x [|y [|z [|w l]]]]; try (exfalso; revert Hl; unfold len; cbn [length]; lia).
  unfold byte_at. cbn [zdrop drop hd Z.to_nat Pos.to_nat Pos.iter_op Nat.add]. intros Hf Hy Hz Hw.
  assert (forall c, bz c = 0 -> c = Byte.x00) as H0 by (intros c Hc; by apply bz_inj).
  rewrite (H0 y), (H0 z), (H0 w) by done. change (ztake 4 (?a :: ?b :: ?c :: ?d :: l)) with [a; b; c; d].
  f_equal. apply bz_inj. rewrite bz_zb. pose proof (bz_range x). unfold VolumeFlagLast in *.
  change 1 with (Z.ones 1) in Hf. rewrite Z.ldiff_ones_r, Z.shiftl_mul_pow2, Z.shiftr_div_pow2 in Hf by lia.
  change (2 ^ 1) with 2 in Hf. change (hd Byte.x00 (zdrop 0 (x :: ?l))) with x in *.
  assert (bz x = 0 \/ bz x = 1) as [-> | ->]; [|done|done].
  pose proof (Z.div_mod (bz x) 2 ltac:(lia)). pose proof (Z.mod_pos_bound (bz x) 2). lia.
Qed.

Lemma ParseVolumeHeader_inv b h : ParseVolumeHeader b = Ok h -> vh_ok h /\ vh_Marshal h = b.
Proof.
  unfold ParseVolumeHeader, errorf, IsVolumeHeader. destruct (_ || _) eqn:E; [done|]. b2p. cbv zeta.
  change VolumeHeaderSize with 40 in *. change (len volumeMagic) with 8 in *. unfold VolumeIDSize.
  assert (b = ztake 8 b ++ ztake 16 (zdrop 8 b) ++ ztake 4 (zdrop 24 b) ++ ztake 4 (zdrop 28 b) ++ zdrop 32 b) as Hb.
  { rewrite <- (ztake_zdrop 8 b) at 1. f_equal. rewrite <- (ztake_zdrop 16 (zdrop 8 b)) at 1. f_equal.
    rewrite zdrop_zdrop by lia. rewrite <- (ztake_zdrop 4 (zdrop (8 + 16) b)) at 1. f_equal.
    rewrite zdrop_zdrop by lia. rewrite <- (ztake_zdrop 4 (zdrop (8 + 16 + 4) b)) at 1. f_equal.
    by rewrite zdrop_zdrop by lia. }
  change (8 + 16 + 4 + 4) with 32. change (8 + 16 + 4 + 3) with 31. change (8 + 16 + 4 + 2) with 30.
  change (8 + 16 + 4 + 1) with 29. change (8 + 16 + 4) with 28. change (8 + 16) with 24.
  destruct (_ || _) eqn:E2; [done|]. b2p. destruct (Z.eqb_spec (le_u32 (zdrop 24 b)) 0) as [|Hnz]; [done|].
  intros E3. inv_ok E3. pose proof (le_u32_range (zdrop 24 b)). pose proof (le_u64_range (zdrop 32 b)).
  split; [split; [|split]; cbn [vh_ArchiveID vh_Index vh_PayloadLen]; [|lia|done]|].
  { rewrite len_ztake; [done|]. rewrite len_zdrop by lia. lia. }
  unfold vh_Marshal. cbn [vh_ArchiveID vh_Index vh_Last vh_PayloadLen].
  etransitivity; [|symmetry; exact Hb]. assert (len (zdrop 24 b) = 16 /\ len (zdrop 28 b) = 12 /\ len (zdrop 32 b) = 8) as (L1 & L2 & L3)
    by (rewrite !len_zdrop by lia; lia).
  rewrite flag_bytes by lia. repeat f_equal; [done|unfold le_u32; apply le_bytes_le_Z_len; rewrite len_ztake; lia|].
  unfold le_u64. rewrite (ztake_all 8) by lia. by apply le_bytes_le_Z_len.
Qed.

(** Volume headers round trip, and the parser accepts nothing else: a parsed header
    has a 16-byte archive id and a positive index, and encodes back to exactly the bytes
    it was read from. *)
Theorem volume_header_canonical (b : bytes) (h : VolumeHeader) :
  ParseVolumeHeader b = Ok h <-> vh_ok h /\ vh_Marshal h = b.
Proof.
  split; [apply ParseVolumeHeader_inv|]. intros [Hk <-]. by apply ParseVolumeHeader_Marshal.
Qed.

(** ** Volume file names *)

(** The decimal digits of [n], most significant first ([fmt] verb [%d]); [fuel] bounds the
    number of digits. *)
Fixpoint digits_go (fuel : nat) (n : Z) (acc : bytes) : bytes :=
  match fuel with
  | O => acc
  | S fuel => let acc := zb (48 + n mod 10) :: acc in if n <? 10 then acc else digits_go fuel (n / 10) acc
  end.

Definition digits (n : Z) : bytes := digits_go (S (Z.to_nat n)) n [].

Definition VolumePath (base : bytes) (index : Z) : bytes :=
  let d := digits index in base ++ str "." ++ replicate (Z.to_nat (3 - len d)) (zb 48) ++ d.

(** The value a digit string denotes. *)
Definition digits_value (l : bytes) : Z := fold_left (fun acc c => acc * 10 + (bz c - 48)) l 0.

Lemma digits_value_app a b : digits_value (a ++ b) = fold_left (fun acc c => acc * 10 + (bz c - 48)) b (digits_value a).
Proof. unfold digits_value. apply fold_left_app. Qed.

Lemma digits_go_value fuel : forall n acc, 0 <= n < Z.of_nat fuel ->
  digits_value (digits_go fuel n acc) = fold_left (fun a c => a * 10 + (bz c - 48)) acc n.
Proof.
  induction fuel as [|fuel IH]; intros n acc Hn; [lia|]. cbn [digits_go].
  pose proof (Z.div_mod n 10 ltac:(lia)). pose proof (Z.mod_pos_bound n 10 ltac:(lia)).
  assert (bz (zb (48 + n mod 10)) = 48 + n mod 10) as Hb by (rewrite bz_zb; apply Z.mod_small; lia).
  destruct (Z.ltb_spec n 10).
  - unfold digits_value. cbn [fold_left]. rewrite Hb. f_equal. rewrite Z.mod_small by lia. lia.
  - rewrite IH by (split; [apply Z.div_pos|]; lia). cbn [fold_left]. rewrite Hb. f_equal. lia.
Qed.

Lemma digits_value_zeros k l : digits_value (replicate k (zb 48) ++ l) = digits_value l.
Proof. induction k as [|k IH]; [done|]. cbn [replicate app]. exact IH. Qed.

Lemma VolumePath_inj base i j : 0 <= i -> 0 <= j -> VolumePath base i = VolumePath base j -> i = j.
Proof.
  intros Hi Hj H. unfold VolumePath in H. apply app_inv_head, app_inv_head in H.
  apply (f_equal digits_value) in H. rewrite !digits_value_zeros in H. unfold digits in H.
  by rewrite !digits_go_value in H by lia.
Qed.

(** ** Writing volumes *)

Definition MinVolumeSize : Z := 65536.

(** The directory the volumes live in, and which operations on it succeed. *)
Abbreviation dir := (gmap bytes bytes).

Record FileOps := mk_ops {
  op_create : bytes -> bool;
  op_write : bytes -> bytes -> bool;      (* path, data; also WriteAt *)
  op_close : bytes -> bool;
  op_remove : bytes -> bool
}.

Section Volumes.
Context `{H : Sha256}.

Record VolumeWriter := mk_vw {
  vw_base : bytes;
  vw_capacity : Z;
  vw_id : bytes;
  vw_index : Z;
  vw_f : option bytes;              (* the open volume's path *)
  vw_written : Z;
  vw_sum : sha_state;
  vw_paths : list bytes;
  vw_err : option ArchiveError;
  vw_closed : bool
}.

Definition vw_fail (v : VolumeWriter) (e : ArchiveError) : VolumeWriter :=
  mk_vw (vw_base v) (vw_capacity v) (vw_id v) (vw_index v) (vw_f v) (vw_written v) (vw_sum v) (vw_paths v) (Some e)
    (vw_closed v).

(** The random archive id is drawn from [r]. *)
Definition CreateVolumes (base : bytes) (volumeSize : Z) (r : rng) : iores VolumeWriter * rng :=
  if volumeSize <? MinVolumeSize then (IErr (fatal ErrCodeInvalidOption "volume size too small"), r)
  else
    let '(id, r) := draw VolumeIDSize r in
    (IOk (mk_vw base (volumeSize - VolumeOverhead) id 0 None 0 sha_init [] None false), r).

Variable ops : FileOps.

(** [f.Write] at the end of the file, and [f.WriteAt(header, 0)]. *)
Definition file_append (path p : bytes) (d : dir) : dir := <[path := default [] (d !! path) ++ p]> d.
Definition file_patch (path p : bytes) (d : dir) : dir := <[path := p ++ zdrop (len p) (default [] (d !! path))]> d.

Definition openVolume (v : VolumeWriter) (d : dir) : VolumeWriter * dir * option ArchiveError :=
  let index := vw_index v + 1 in
  let v1 := mk_vw (vw_base v) (vw_capacity v) (vw_id v) index (vw_f v) (vw_written v) (vw_sum v) (vw_paths v)
              (vw_err v) (vw_closed v) in
  let path := VolumePath (vw_base v) index in
  if negb (op_create ops path) then (v1, d, Some (fatal ErrCodeWriteFailed "create volume"))
  else
    let d := <[path := []]> d in
    let header := vh_Marshal (mk_vh (vw_id v) (u32 index) false (u64 (vw_capacity v))) in
    if negb (op_write ops path header) then (v1, d, Some (fatal ErrCodeWriteFailed "write volume header"))
    else
      (mk_vw (vw_base v) (vw_capacity v) (vw_id v) index (Some path) 0 sha_init (vw_paths v ++ [path]) (vw_err v) (vw_closed v),
       file_append path header d, None).

(** [finishVolume(last)] of the volume open at [path]. *)
Definition finishVolume (last : bool) (path : bytes) (v : VolumeWriter) (d : dir) :
  VolumeWriter * dir * option ArchiveError :=
  let header := vh_Marshal (mk_vh (vw_id v) (u32 (vw_index v)) last (u64 (vw_written v))) in
  let close sum := mk_vw (vw_base v) (vw_capacity v) (vw_id v) (vw_index v) None (vw_written v) sum (vw_paths v)
                     (vw_err v) (vw_closed v) in
  if negb (op_write ops path header) then (close (vw_sum v), d, Some (fatal ErrCodeWriteFailed "write volume header"))
  else
    let d := file_patch path header d in
    let sum := sha_write (vw_sum v) header in
    if negb (op_write ops path (sha_sum sum)) then (close sum, d, Some (fatal ErrCodeWriteFailed "write volume checksum"))
    else
      let d := file_append path (sha_sum sum) d in
      if negb (op_close ops path) then (close sum, d, Some (fatal ErrCodeWriteFailed "close volume"))
      else (close sum, d, None).

Definition set_err (x : VolumeWriter * dir * option ArchiveError) : VolumeWriter * dir :=
  let '(v, d, e) := x in
  (mk_vw (vw_base v) (vw_capacity v) (vw_id v) (vw_index v) (vw_f v) (vw_written v) (vw_sum v) (vw_paths v) e (vw_closed v), d).

(** The loop of [Write]: [None] when the fuel runs out, otherwise the bytes accepted and
    the error. *)
Fixpoint vw_write_loop (fuel : nat) (p : bytes) (total : Z) (v : VolumeWriter) (d : dir) :
  option (Z * option ArchiveError * VolumeWriter * dir) :=
  match fuel with
  | O => None
  | S fuel =>
      if len p =? 0 then Some (total, None, v, d)
      else match vw_err v with
      | Some e => Some (total, Some e, v, d)
      | None =>
          match vw_f v with
          | None => let '(v, d) := set_err (openVolume v d) in vw_write_loop fuel p total v d
          | Some path =>
              if vw_written v =? vw_capacity v
              then let '(v, d) := set_err (finishVolume false path v d) in vw_write_loop fuel p total v d
              else
                let n := Z.min (len p) (vw_capacity v - vw_written v) in
                if negb (op_write ops path (ztake n p))
                then let e := fatal ErrCodeWriteFailed "write volume" in Some (total, Some e, vw_fail v e, d)
                else vw_write_loop fuel (zdrop n p) (total + n)
                       (mk_vw (vw_base v) (vw_capacity v) (vw_id v) (vw_index v) (vw_f v) (vw_written v + n)
                          (sha_write (vw_sum v) (ztake n p)) (vw_paths v) (vw_err v) (vw_closed v))
                       (file_append path (ztake n p) d)
          end
      end
  end.

(** Each byte costs at most three iterations (finish, open, write). *)
Definition vw_Write (p : bytes) (v : VolumeWriter) (d : dir) : option (Z * option ArchiveError * VolumeWriter * dir) :=
  vw_write_loop (3 * length p + 1) p 0 v d.

Definition startsWithVolumeHeader (path : bytes) (d : dir) : bool :=
  match d !! path with
  | None => false
  | Some b => (VolumeHeaderSize <=? len b) && IsVolumeHeader (ztake VolumeHeaderSize b)
  end.

(** The loop of [removeStaleVolumes] removes a file on each iteration, so the number of
    files bounds it. *)
Fixpoint remove_stale (fuel : nat) (base : bytes) (i : Z) (d : dir) : option ArchiveError * dir :=
  match fuel with
  | O => (None, d)
  | S fuel =>
      let path := VolumePath base i in
      if negb (startsWithVolumeHeader path d) then (None, d)
      else if negb (op_remove ops path) then (Some (fatal ErrCodeWriteFailed "remove stale volume"), d)
      else remove_stale fuel base (i + 1) (delete path d)
  end.

Definition removeStaleVolumes (base : bytes) (from : Z) (d : dir) : option ArchiveError * dir :=
  remove_stale (S (size d)) base from d.

Definition vw_Close (v : VolumeWriter) (d : dir) : option ArchiveError * VolumeWriter * dir :=
  if vw_closed v then (vw_err v, v, d)
  else
    let v := mk_vw (vw_base v) (vw_capacity v) (vw_id v) (vw_index v) (vw_f v) (vw_written v) (vw_sum v) (vw_paths v)
               (vw_err v) true in
    match vw_err v with
    | Some e => (Some e, v, d)
    | None =>
        let '(v, d) := match vw_f v with None => set_err (openVolume v d) | Some _ => (v, d) end in
        match vw_err v, vw_f v with
        | Some e, _ => (Some e, v, d)
        | None, None => (None, v, d)
        | None, Some path =>
            let '(v, d) := set_err (finishVolume true path v d) in
            match vw_err v with
            | Some e => (Some e, v, d)
            | None =>
                let '(e, d) := removeStaleVolumes (vw_base v) (vw_index v + 1) d in
                (e, match e with Some e => vw_fail v e | None => v end, d)
            end
        end
    end.

(** ** Finding and checking volumes *)

Record VolumeError := mk_verr { ve_Index : Z; ve_Path : bytes; ve_Problem : string }.

Definition is_digit (b : byte) : bool := (48 <=? bz b) && (bz b <=? 57).

(** [volumeName], the pattern [^(.+)\.(\d{3,})$]: the digits reach the end, so the dot is
    the last one; [.] matches anything but a newline. *)
Fixpoint last_dot (l : bytes) (before : bytes) : option (bytes * bytes) :=
  match l with
  | [] => None
  | b :: l =>
      match last_dot l (before ++ [b]) with
      | Some r => Some r
      | None => if bool_decide (b = zb 46) then Some (before, l) else None
      end
  end.

Definition volumeName (path : bytes) : option bytes :=
  match last_dot path [] with
  | Some (base, suffix) =>
      if (0 <? len base) && negb (existsb (fun b => bool_decide (b = zb 10)) base) && (3 <=? len suffix) &&
         forallb is_digit suffix then Some base else None
  | None => None
  end.

Definition FindVolumes (path : bytes) (d : dir) : option bytes :=
  match (if startsWithVolumeHeader path d then volumeName path else None) with
  | Some base => Some base
  | None => match d !! path with
            | None => if startsWithVolumeHeader (VolumePath path 1) d then Some path else None
            | Some _ => None
            end
  end.

Definition checkVolumeHeader (h : VolumeHeader) (id : bytes) (index : Z) : option string :=
  if negb (bytes_eqb (vh_ArchiveID h) id) then Some "belongs to a different archive"%string
  else if negb (vh_Index h =? u32 index) then Some "out of order"%string
  else None.

(** [readVolumeHeader]: the header and the size of the file, or the problem. *)
Definition readVolumeHeader (path : bytes) (d : dir) : (VolumeHeader * Z) + string :=
  match d !! path with
  | None => inr "missing"%string
  | Some b =>
      if len b <? VolumeHeaderSize then inr "truncated volume header"%string
      else match ParseVolumeHeader (ztake VolumeHeaderSize b) with
           | Err _ => inr "not a sarc volume"%string
           | Ok h => inl (h, len b)
           end
  end.

(** The loop of [checkVolumeSet]; each iteration reads a different existing file. *)
Fixpoint check_set (fuel : nat) (base : bytes) (id : bytes) (index : Z) (d : dir) : option VolumeError :=
  let path := VolumePath base index in
  match fuel with
  | O => Some (mk_verr index path "missing")
  | S fuel =>
      match readVolumeHeader path d with
      | inr problem => Some (mk_verr index path problem)
      | inl (h, size) =>
          let id := if index =? 1 then vh_ArchiveID h else id in
          match checkVolumeHeader h id index with
          | Some problem => Some (mk_verr index path problem)
          | None =>
              if negb (size =? i64 (VolumeOverhead + i64 (vh_PayloadLen h)))
              then Some (mk_verr index path "truncated or padded")
              else if vh_Last h then None
              else check_set fuel base id (index + 1) d
          end
      end
  end.

Definition checkVolumeSet (base : bytes) (d : dir) : option VolumeError :=
  check_set (S (size d)) base (replicate 16 Byte.x00) 1 d.

(** ** Reading volumes *)

(** Where the next volume comes from: files of a directory, or the rest of one stream. *)
Inductive volumeSource := SrcFiles (base : bytes) (d : dir) | SrcStream (rest : bytes).

Record VolumeReader := mk_vr {
  vr_next : volumeSource;
  vr_index : Z;
  vr_id : bytes;
  vr_cur : option bytes;            (* unread bytes of the volume being read *)
  vr_path : bytes;
  vr_header : bytes;
  vr_sum : sha_state;
  vr_remaining : Z;
  vr_last : bool;
  vr_done : bool;
  vr_err : option VolumeError
}.

Definition new_reader (src : volumeSource) : VolumeReader :=
  mk_vr src 0 (replicate 16 Byte.x00) None [] [] sha_init 0 false false None.

Definition OpenVolumes (base : bytes) (d : dir) : VolumeReader + VolumeError :=
  match checkVolumeSet base d with
  | Some e => inr e
  | None => inl (new_reader (SrcFiles base d))
  end.

Definition NewVolumeStreamReader (r : bytes) : VolumeReader := new_reader (SrcStream r).

Definition Volumes_read (vr : VolumeReader) : Z :=
  if vr_done vr then vr_index vr else Z.max (vr_index vr - 1) 0.

Definition vr_fail (vr : VolumeReader) (problem : string) : VolumeReader :=
  mk_vr (vr_next vr) (vr_index vr) (vr_id vr) (vr_cur vr) (vr_path vr) (vr_header vr) (vr_sum vr) (vr_remaining vr)
    (vr_last vr) (vr_done vr) (Some (mk_verr (vr_index vr) (vr_path vr) problem)).

(** [next(index)]: the path and the readable bytes. *)
Definition next_volume (src : volumeSource) (index : Z) : bytes * option bytes :=
  match src with
  | SrcFiles base d => (VolumePath base index, d !! VolumePath base index)
  | SrcStream rest => ([], Some rest)
  end.

Definition openNext (vr : VolumeReader) : VolumeReader :=
  let index := vr_index vr + 1 in
  let '(path, r) := next_volume (vr_next vr) index in
  let vr1 := mk_vr (vr_next vr) index (vr_id vr) r path (vr_header vr) (vr_sum vr)
               (vr_remaining vr) (vr_last vr) (vr_done vr) None in
  match r with
  | None => vr_fail vr1 "missing"
  | Some r =>
      if len r <? VolumeHeaderSize then vr_fail vr1 "missing or truncated volume header"
      else
        let header := ztake VolumeHeaderSize r in
        match ParseVolumeHeader header with
        | Err _ => vr_fail vr1 "not a sarc volume"
        | Ok h =>
            let id := if index =? 1 then vh_ArchiveID h else vr_id vr in
            match checkVolumeHeader h id index with
            | Some problem => vr_fail vr1 problem
            | None => mk_vr (vr_next vr) index id (Some (zdrop VolumeHeaderSize r)) path header sha_init
                        (vh_PayloadLen h) (vh_Last h) (vr_done vr) None
            end
        end
  end.

(** A finished volume of a stream leaves the rest of the stream for the next one. *)
Definition vr_finishVolume (cur : bytes) (vr : VolumeReader) : VolumeReader :=
  if len cur <? VolumeChecksumSize then vr_fail vr "truncated: the volume checksum is missing"
  else
    let stored := ztake VolumeChecksumSize cur in
    let sum := sha_write (vr_sum vr) (vr_header vr) in
    if negb (bytes_eqb (sha_sum sum) stored) then vr_fail vr "corrupted: checksum mismatch"
    else
      let src := match vr_next vr with SrcStream _ => SrcStream (zdrop VolumeChecksumSize cur) | s => s end in
      mk_vr src (vr_index vr) (vr_id vr) None (vr_path vr) (vr_header vr) sum 0 (vr_last vr) (vr_last vr) None.

(** What one iteration of [Read] returns, if it returns. *)
Inductive read_outcome := ReadData (b : bytes) | ReadEOF | ReadErr (e : VolumeError).

(** One iteration of the loop of [Read] with a buffer of [n] bytes. *)
Definition vr_iter (n : Z) (vr : VolumeReader) : VolumeReader * option read_outcome :=
  match vr_err vr with
  | Some e => (vr, Some (ReadErr e))
  | None =>
      if vr_done vr then (vr, Some ReadEOF)
      else match vr_cur vr with
      | None => (openNext vr, None)
      | Some cur =>
          if vr_remaining vr =? 0 then (vr_finishVolume cur vr, None)
          else
            let b := ztake (Z.min n (vr_remaining vr)) cur in
            let vr1 := mk_vr (vr_next vr) (vr_index vr) (vr_id vr) (Some (zdrop (len b) cur)) (vr_path vr) (vr_header vr)
                         (sha_write (vr_sum vr) b) (vr_remaining vr - len b) (vr_last vr) (vr_done vr) None in
            if 0 <? len b then (vr1, Some (ReadData b))
            else if 0 <? n then (vr_fail vr1 "truncated: the volume ends before its declared length", None)
            else (vr1, None)
      end
  end.

Fixpoint vr_Read (fuel : nat) (n : Z) (vr : VolumeReader) : option (VolumeReader * read_outcome) :=
  match fuel with
  | O => None
  | S fuel => match vr_iter n vr with
              | (vr, Some o) => Some (vr, o)
              | (vr, None) => vr_Read fuel n vr
              end
  end.

(** [io.Copy] from the reader: [Read] until the end or an error. *)
Fixpoint vr_drain (fuel : nat) (n : Z) (vr : VolumeReader) (acc : bytes) : option (bytes * VolumeReader * option VolumeError) :=
  match fuel with
  | O => None
  | S fuel' => match vr_Read fuel n vr with
               | None => None
               | Some (vr, ReadData b) => vr_drain fuel' n vr (acc ++ b)
               | Some (vr, ReadEOF) => Some (acc, vr, None)
               | Some (vr, ReadErr e) => Some (acc, vr, Some e)
               end
  end.
End Volumes.
