(* ===== verification/VolumeProofs.v ===== *)
(** * Splitting and joining archives

    [VolumeWriter] and [VolumeReader] against one specification: [vol_bytes], the contents
    of one volume, and [provides], which volumes a source supplies in which order. Writing
    produces them, reading accepts nothing else. *)

From stdpp Require Import gmap.
From S2P Require Import Prelude Bytes IndexCodec Crypto Frames Checksum IOErrors Volume.
Open Scope go_scope.

Section Volumes.
Context `{H : Sha256} `{SL : !Sha256Laws H}.

(** ** The contents of a volume *)

Definition vol_header (id : bytes) (index : Z) (last : bool) (payload : bytes) : bytes :=
  vh_Marshal (mk_vh id (u32 index) last (u64 (len payload))).

Definition vol_bytes (id : bytes) (index : Z) (last : bool) (payload : bytes) : bytes :=
  let header := vol_header id index last payload in
  header ++ payload ++ sha_sum (sha_write sha_init (payload ++ header)).

(** ** The writer *)

Definition ops_ok (ops : FileOps) : Prop :=
  (forall p, op_create ops p = true) /\ (forall p b, op_write ops p b = true) /\
  (forall p, op_close ops p = true) /\ (forall p, op_remove ops p = true).

(** [holds base id d from ps]: the directory has volumes [from+1], [from+2], ... with
    payloads [ps], none of them marked last. *)
Definition holds (base id : bytes) (d : dir) (ps : list bytes) : Prop :=
  forall i p, ps !! i = Some p ->
    d !! VolumePath base (Z.of_nat i + 1) = Some (vol_bytes id (Z.of_nat i + 1) false p).

(** The writer has finished volumes with payloads [done] and is filling one that has [cur]
    so far, if it is filling one. *)
Record vw_inv (base id : bytes) (cap : Z) (closed : bool) (done : list bytes) (cur : option bytes)
  (v : VolumeWriter) (d : dir) : Prop := {
  wi_base : vw_base v = base;
  wi_id : vw_id v = id;
  wi_cap : vw_capacity v = cap;
  wi_closed : vw_closed v = closed;
  wi_err : vw_err v = None;
  wi_index : vw_index v = len done + match cur with Some _ => 1 | None => 0 end;
  wi_full : Forall (fun p => len p = cap) done;
  wi_done : holds base id d done;
  wi_cur : match cur with
           | None => vw_f v = None
           | Some c => vw_f v = Some (VolumePath base (len done + 1)) /\ vw_written v = len c /\ len c <= cap /\
               vw_sum v = sha_write sha_init c /\
               exists h, len h = VolumeHeaderSize /\ d !! VolumePath base (len done + 1) = Some (h ++ c)
           end
}.

Context (ops : FileOps) (Hops : ops_ok ops) (base id : bytes) (cap : Z) (Hid : len id = VolumeIDSize) (Hcap : 0 < cap < 2 ^ 63).

Lemma holds_insert d ps j b : len ps < j -> holds base id d ps -> holds base id (<[VolumePath base j := b]> d) ps.
Proof.
  intros Hj Hh i p Hp. rewrite lookup_insert_ne; [by apply Hh|].
  intros E. apply VolumePath_inj in E; [|pose proof (len_nonneg ps); lia|lia].
  apply lookup_lt_Some in Hp. unfold len in Hj. lia.
Qed.

Lemma open_inv closed done v d : vw_inv base id cap closed done None v d ->
  exists v' d', set_err (openVolume ops v d) = (v', d') /\ vw_inv base id cap closed done (Some []) v' d'.
Proof.
  intros []. destruct Hops as (Hc & Hw & _). unfold openVolume. rewrite Hc, Hw. cbn [negb set_err].
  do 2 eexists. split; [reflexivity|]. rewrite wi_base0, wi_id0, wi_index0, Z.add_0_r. unfold file_append.
  rewrite lookup_insert_eq. cbn [default].
  split; cbn [vw_base vw_id vw_capacity vw_closed vw_err vw_index vw_f vw_written vw_sum]; try done.
  - rewrite insert_insert_eq. apply holds_insert; [lia|done].
  - split_and!; try done; [rewrite len_nil; lia|by rewrite sha_write_nil|].
    eexists. rewrite insert_insert_eq, lookup_insert_eq, app_nil_r. split; [|reflexivity].
    by apply len_vh_Marshal.
Qed.

Lemma finish_inv closed last done c v d path : vw_inv base id cap closed done (Some c) v d ->
  vw_f v = Some path ->
  exists v' d', set_err (finishVolume ops last path v d) = (v', d') /\
    vw_base v' = base /\ vw_id v' = id /\ vw_capacity v' = cap /\ vw_closed v' = closed /\ vw_err v' = None /\ vw_f v' = None /\
    vw_index v' = len done + 1 /\ holds base id d' done /\
    d' !! VolumePath base (len done + 1) = Some (vol_bytes id (len done + 1) last c).
Proof.
  intros [] Hf. destruct Hops as (_ & Hw & Hc & _). unfold finishVolume. rewrite !Hw, Hc. cbn [negb set_err].
  destruct wi_cur0 as (Hf' & Hwr & Hle & Hsum & h & Hh & Hd). rewrite Hf in Hf'. injection Hf' as ->.
  do 2 eexists. split; [reflexivity|]. cbn [vw_base vw_id vw_capacity vw_closed vw_err vw_f vw_index].
  split_and!; try done. all: unfold file_append, file_patch; rewrite insert_insert_eq.
  - apply holds_insert; [lia|done].
  - rewrite !lookup_insert_eq, Hd. cbn [default]. rewrite wi_id0, wi_index0, Hwr, Hsum, sha_write_app.
    rewrite len_vh_Marshal by done. unfold Datatypes.id. rewrite zdrop_app by done. by rewrite <- app_assoc.
Qed.

Lemma finish_full closed done c v d path : vw_inv base id cap closed done (Some c) v d -> vw_f v = Some path ->
  len c = cap ->
  exists v' d', set_err (finishVolume ops false path v d) = (v', d') /\ vw_inv base id cap closed (done ++ [c]) None v' d'.
Proof.
  intros Hi Hf Hl. destruct (finish_inv closed false done c v d path Hi Hf)
    as (v' & d' & -> & ? & ? & ? & ? & ? & ? & Hx & Hh & Hd).
  exists v', d'. split; [done|]. split; try done.
  - rewrite Hx, len_app, len_cons, len_nil. lia.
  - apply Forall_app. split; [apply Hi|by constructor].
  - intros i p Hp. apply lookup_app_Some in Hp as [Hp|[Hge Hp]]; [by apply Hh|].
    apply list_lookup_singleton_Some in Hp as [Hi0 <-]. unfold len in Hd.
    replace (Z.of_nat i) with (Z.of_nat (length done)) by lia. done.
Qed.

(** What the writer has accepted so far. *)
Definition cur_bytes (cur : option bytes) : bytes := default [] cur.

Definition vw_wrote (closed : bool) (v : VolumeWriter) (d : dir) (data : bytes) : Prop :=
  exists done cur, vw_inv base id cap closed done cur v d /\ data = concat done ++ cur_bytes cur /\ (cur = None -> done = []).

(** The iterations [Write] still needs. *)
Definition vw_need (p : bytes) (cur : option bytes) : nat :=
  if len p =? 0 then 1
  else match cur with
       | None => 3 * length p
       | Some c => if len c =? cap then 3 * length p + 1 else 3 * length p - 1
       end.

Lemma append_inv closed done c v d path b : vw_inv base id cap closed done (Some c) v d -> vw_f v = Some path ->
  len c + len b <= cap ->
  vw_inv base id cap closed done (Some (c ++ b))
    (mk_vw (vw_base v) (vw_capacity v) (vw_id v) (vw_index v) (vw_f v) (vw_written v + len b)
       (sha_write (vw_sum v) b) (vw_paths v) (vw_err v) (vw_closed v)) (file_append path b d).
Proof.
  intros [] Hf Hl. destruct wi_cur0 as (Hf' & Hwr & Hle & Hsum & h & Hh & Hd). rewrite Hf in Hf'. injection Hf' as ->.
  unfold file_append. rewrite Hd. cbn [default].
  split; cbn [vw_base vw_id vw_capacity vw_closed vw_err vw_index vw_f vw_written vw_sum]; try done.
  - apply holds_insert; [lia|done].
  - rewrite len_app, Hwr, Hsum, sha_write_app. split_and!; try done.
    exists h. rewrite lookup_insert_eq. split; [done|]. unfold Datatypes.id. by rewrite <- app_assoc.
Qed.

Lemma write_loop_ok closed fuel : forall p total v d done cur, vw_inv base id cap closed done cur v d ->
  (vw_need p cur <= fuel)%nat ->
  exists v' d' done' cur', vw_write_loop ops fuel p total v d = Some (total + len p, None, v', d') /\
    vw_inv base id cap closed done' cur' v' d' /\
    concat done' ++ cur_bytes cur' = (concat done ++ cur_bytes cur) ++ p /\
    (cur' = None -> p = [] /\ cur = None /\ done' = done).
Proof.
  induction fuel as [|fuel IH]; intros p total v d done cur Hi Hn.
  { unfold vw_need in Hn. destruct (Z.eqb_spec (len p) 0); [lia|].
    assert (length p <> 0)%nat by (unfold len in *; lia). destruct cur as [c|]; [destruct (len c =? cap)|]; lia. }
  cbn [vw_write_loop]. unfold vw_need in Hn. destruct (Z.eqb_spec (len p) 0) as [Hp|Hp].
  { apply len_0_nil in Hp as ->. exists v, d, done, cur. rewrite len_nil, Z.add_0_r, app_nil_r. done. }
  assert (1 <= length p)%nat by (unfold len in Hp; lia). pose proof Hi as [].
  rewrite wi_err0. destruct cur as [c|].
  - pose proof wi_cur0 as (Hf & Hwr & Hle & _). rewrite Hf, Hwr, wi_cap0. destruct (Z.eqb_spec (len c) cap) as [Hc|Hc] in Hn |- *.
    + destruct (finish_full closed done c v d _ Hi Hf Hc) as (v' & d' & -> & Hi').
      destruct (IH p total v' d' _ _ Hi') as (v2 & d2 & done2 & cur2 & He & Hi2 & Hc2 & Hn2).
      { unfold vw_need. eqb_false. lia. }
      exists v2, d2, done2, cur2. split; [done|]. split; [done|]. split.
      * rewrite Hc2, concat_app. cbn [concat cur_bytes default]. unfold Datatypes.id. by rewrite !app_nil_r.
      * intros Hcn. destruct (Hn2 Hcn) as (-> & _). by destruct Hp.
    + destruct Hops as (_ & Hw & _). rewrite Hw. cbn [negb]. set (n := Z.min (len p) (cap - len c)).
      assert (1 <= n <= len p) as Hnb by (unfold n; len_lia).
      assert (len (ztake n p) = n) as Hl by (rewrite len_ztake; lia).
      pose proof (append_inv closed done c v d _ (ztake n p) Hi Hf ltac:(rewrite Hl; unfold n; lia)) as Hi'.
      rewrite Hl, Hf, Hwr, wi_cap0, wi_err0 in Hi'.
      destruct (IH (zdrop n p) (total + n) _ _ _ _ Hi') as (v2 & d2 & done2 & cur2 & He & Hi2 & Hc2 & Hn2).
      { assert (length (zdrop n p) + 1 <= length p)%nat by (unfold zdrop, len in *; rewrite length_drop; lia).
        unfold vw_need. case_match; [lia|]. case_match; lia. }
      exists v2, d2, done2, cur2. rewrite He. rewrite len_zdrop by lia. replace (total + n + (len p - n)) with (total + len p) by lia. split; [done|]. split; [done|]. split.
      * rewrite Hc2. cbn [cur_bytes default]. unfold Datatypes.id. by rewrite <- !app_assoc, ztake_zdrop.
      * intros Hcn. by destruct (Hn2 Hcn) as (_ & ? & _).
  - rewrite wi_cur0. destruct (open_inv closed done v d Hi) as (v' & d' & -> & Hi').
    destruct (IH p total v' d' _ _ Hi') as (v2 & d2 & done2 & cur2 & He & Hi2 & Hc2 & Hn2).
    { unfold vw_need. eqb_false. rewrite len_nil. eqb_false. lia. }
    exists v2, d2, done2, cur2. split; [done|]. split; [done|]. split; [done|].
    intros Hcn. destruct (Hn2 Hcn) as (-> & _). by destruct Hp.
Qed.

Lemma vw_Write_ok closed p v d data : vw_wrote closed v d data ->
  exists v' d', vw_Write ops p v d = Some (len p, None, v', d') /\ vw_wrote closed v' d' (data ++ p).
Proof.
  intros (done & cur & Hi & -> & Hb). unfold vw_Write.
  destruct (write_loop_ok closed (3 * length p + 1) p 0 v d done cur Hi) as (v' & d' & done' & cur' & He & Hi' & Hc & Hn).
  { unfold vw_need. repeat case_match; lia. }
  exists v', d'. split; [exact He|]. exists done', cur'. split; [done|]. split; [done|].
  intros Hcn. destruct (Hn Hcn) as (_ & -> & ->). by apply Hb.
Qed.

(** ** Closing *)

Lemma remove_stale_ok fuel : forall i d, (size d < fuel)%nat -> 0 <= i -> exists d',
  remove_stale ops fuel base i d = (None, d') /\ startsWithVolumeHeader (VolumePath base i) d' = false /\
  forall j, 0 <= j < i -> d' !! VolumePath base j = d !! VolumePath base j.
Proof.
  induction fuel as [|fuel IH]; intros i d Hs Hi; [lia|]. cbn [remove_stale].
  destruct (startsWithVolumeHeader _ d) eqn:E; cbn [negb]; [|by exists d].
  destruct Hops as (_ & _ & _ & Hr). rewrite Hr. cbn [negb].
  assert (exists b, d !! VolumePath base i = Some b) as [b Hb].
  { unfold startsWithVolumeHeader in E. destruct (d !! VolumePath base i); [by eexists|done]. }
  destruct (IH (i + 1) (delete (VolumePath base i) d)) as (d' & -> & _ & Hk); [|lia|].
  { rewrite map_size_delete_Some by eauto. assert (size d <> 0%nat); [|lia].
    intros E0. apply map_size_empty_inv in E0. by rewrite E0, lookup_empty in Hb. }
  exists d'. split; [done|]. split.
  - unfold startsWithVolumeHeader. rewrite Hk by lia. by rewrite lookup_delete_eq.
  - intros j Hj. rewrite Hk by lia. apply lookup_delete_ne. intros E'. apply VolumePath_inj in E'; lia.
Qed.

(** A complete set: volumes 1, 2, ... with payloads [ps], the final one marked last. *)
Definition complete_set (d : dir) (ps : list bytes) : Prop :=
  forall i p, ps !! i = Some p ->
    d !! VolumePath base (Z.of_nat i + 1) = Some (vol_bytes id (Z.of_nat i + 1) (bool_decide (S i = length ps)) p).

Lemma holds_complete d ps p : holds base id d ps ->
  d !! VolumePath base (len ps + 1) = Some (vol_bytes id (len ps + 1) true p) -> complete_set d (ps ++ [p]).
Proof.
  intros Hh Hl i q Hq. rewrite length_app. cbn [length]. apply lookup_app_Some in Hq as [Hq|[Hge Hq]].
  - pose proof (lookup_lt_Some _ _ _ Hq). rewrite bool_decide_eq_false_2 by lia. by apply Hh.
  - apply list_lookup_singleton_Some in Hq as [Hi <-]. rewrite bool_decide_eq_true_2 by lia.
    replace (Z.of_nat i) with (len ps) by (unfold len; lia). done.
Qed.

Lemma close_from done c v d path : vw_inv base id cap true done (Some c) v d -> vw_f v = Some path ->
  exists v1 d1 d', set_err (finishVolume ops true path v d) = (v1, d1) /\ vw_err v1 = None /\
    removeStaleVolumes ops (vw_base v1) (vw_index v1 + 1) d1 = (None, d') /\
    complete_set d' (done ++ [c]) /\ startsWithVolumeHeader (VolumePath base (len done + 2)) d' = false.
Proof.
  intros Hi Hf. destruct (finish_inv true true done c v d path Hi Hf)
    as (v1 & d1 & -> & Hb & _ & _ & _ & He & _ & Hx & Hh & Hd).
  destruct (remove_stale_ok (S (size d1)) (len done + 1 + 1) d1) as (d' & Hr & Hs & Hk); [lia|len_lia|].
  exists v1, d1, d'. unfold removeStaleVolumes. rewrite Hb, Hx. split; [done|]. split; [done|]. split; [done|]. split.
  - apply holds_complete; [|rewrite Hk by len_lia; done].
    intros i p Hp. rewrite Hk; [by apply Hh|]. apply lookup_lt_Some in Hp. unfold len. lia.
  - by replace (len done + 2) with (len done + 1 + 1) by lia.
Qed.

Lemma full_size done : Forall (fun p : bytes => len p = cap) done -> len (concat done) = len done * cap.
Proof. induction 1 as [|p ps Hp _ IH]; cbn [concat]; [done|]. rewrite len_app, len_cons, Hp, IH. lia. Qed.

Lemma vw_Close_ok v d data : vw_wrote false v d data -> exists v' d' ps,
  vw_Close ops v d = (None, v', d') /\ ps <> [] /\ concat ps = data /\ Forall (fun p => len p <= cap) ps /\
  complete_set d' ps /\ startsWithVolumeHeader (VolumePath base (len ps + 1)) d' = false /\
  (len ps - 1) * cap <= len data.
Proof.
  intros (done & cur & Hi & -> & Hb). pose proof Hi as []. unfold vw_Close. rewrite wi_closed0, wi_err0. cbn [vw_f vw_err].
  set (v1 := mk_vw _ _ _ _ _ _ _ _ _ true).
  assert (vw_inv base id cap true done cur v1 d) as Hi1 by (split; done).
  assert (exists v2 d2 c, match vw_f v with None => set_err (openVolume ops v1 d) | Some _ => (v1, d) end = (v2, d2) /\
    vw_inv base id cap true done (Some c) v2 d2 /\ c = cur_bytes cur) as (v2 & d2 & c & -> & Hi2 & ->).
  { destruct cur as [c|].
    - destruct wi_cur0 as (-> & _). by exists v1, d, c.
    - rewrite wi_cur0. destruct (open_inv true done v1 d Hi1) as (v2 & d2 & -> & Hi2). by exists v2, d2, []. }
  destruct (wi_cur _ _ _ _ _ _ _ _ Hi2) as (Hf & _ & Hle & _).
  rewrite (wi_err _ _ _ _ _ _ _ _ Hi2), Hf.
  destruct (close_from done _ v2 d2 _ Hi2 Hf) as (v3 & d3 & d' & -> & -> & -> & Hc & Hs).
  exists v3, d', (done ++ [cur_bytes cur]). split; [done|]. split; [by destruct done|].
  rewrite concat_app, len_app. cbn [concat]. rewrite app_nil_r. split; [done|]. split; [|split; [done|split]].
  - apply Forall_app. split; [|by constructor]. eapply Forall_impl; [exact wi_full0|]. cbn. lia.
  - by replace (len done + len [cur_bytes cur] + 1) with (len done + 2) by (rewrite len_cons, len_nil; lia).
  - rewrite len_app, (full_size done) by done. rewrite len_cons, len_nil. pose proof (len_nonneg (cur_bytes cur)). lia.
Qed.
End Volumes.

(** ** Reading *)

Section Reading.
Context `{H : Sha256} `{SL : !Sha256Laws H}.

(** The source after a volume has been read: a stream moves on. *)
Definition after (src : volumeSource) (tail : bytes) : volumeSource :=
  match src with SrcStream _ => SrcStream tail | s => s end.

Definition is_last {X} (rest : list X) : bool := match rest with [] => true | _ => false end.

(** [provides id src i ps]: asked for volumes [i+1], [i+2], ... the source supplies
    volumes of archive [id] with payloads [ps], the final one marked last. *)
Fixpoint provides (id : bytes) (src : volumeSource) (i : Z) (ps : list bytes) : Prop :=
  match ps with
  | [] => True
  | p :: ps => exists path tail,
      next_volume src (i + 1) = (path, Some (vol_bytes id (i + 1) (is_last ps) p ++ tail)) /\
      provides id (after src tail) (i + 1) ps
  end.

Lemma vol_header_ok id i last (p : bytes) : len id = VolumeIDSize -> 1 <= i < 2 ^ 32 -> len p < 2 ^ 64 ->
  vh_ok (mk_vh id (u32 i) last (u64 (len p))).
Proof.
  intros Hid Hi Hp. pose proof (len_nonneg p). unfold vh_ok. cbn [vh_ArchiveID vh_Index vh_PayloadLen].
  unfold u32, u64. rewrite !Z.mod_small by lia. lia.
Qed.

Lemma len_vol_header id i last p : len id = VolumeIDSize -> len (vol_header id i last p) = VolumeHeaderSize.
Proof. intros. by apply len_vh_Marshal. Qed.

(** Opening a well-formed next volume. *)
Lemma openNext_ok vr id last p path tail : len id = VolumeIDSize -> 0 <= vr_index vr -> vr_index vr + 1 < 2 ^ 32 ->
  len p < 2 ^ 64 -> (vr_index vr = 0 \/ vr_id vr = id) ->
  next_volume (vr_next vr) (vr_index vr + 1) = (path, Some (vol_bytes id (vr_index vr + 1) last p ++ tail)) ->
  openNext vr = mk_vr (vr_next vr) (vr_index vr + 1) id
    (Some (p ++ sha_sum (sha_write sha_init (p ++ vol_header id (vr_index vr + 1) last p)) ++ tail)) path
    (vol_header id (vr_index vr + 1) last p) sha_init (len p) last (vr_done vr) None.
Proof.
  intros Hid H0 Hi Hp Hv Hn. unfold openNext. rewrite Hn. cbv zeta. unfold vol_bytes. rewrite <- !app_assoc.
  set (header := vol_header id (vr_index vr + 1) last p). assert (len header = VolumeHeaderSize) as Hh by by apply len_vol_header.
  assert (0 <= VolumeHeaderSize) by done.
  rewrite (proj2 (Z.ltb_ge _ _)) by len_lia. rewrite ztake_app, zdrop_app by done.
  unfold header at 1, vol_header. rewrite ParseVolumeHeader_Marshal by (apply vol_header_ok; lia || done).
  unfold checkVolumeHeader. cbn [vh_ArchiveID vh_Index vh_PayloadLen vh_Last].
  assert ((if vr_index vr + 1 =? 1 then id else vr_id vr) = id) as ->.
  { destruct (Z.eqb_spec (vr_index vr + 1) 1); [done|]. destruct Hv; [lia|done]. }
  rewrite bytes_eqb_refl, Z.eqb_refl. cbn [negb]. unfold u64. rewrite Z.mod_small by len_lia. done.
Qed.

Lemma vr_Read_mono fuel n : forall vr r fuel', vr_Read fuel n vr = Some r -> (fuel <= fuel')%nat -> vr_Read fuel' n vr = Some r.
Proof.
  induction fuel as [|fuel IH]; intros vr r fuel' Hr Hf; [done|]. destruct fuel' as [|fuel']; [lia|].
  cbn [vr_Read] in *. destruct (vr_iter n vr) as [vr' [o|]]; [done|]. apply IH; [done|lia].
Qed.

Lemma vr_drain_mono fuel n : forall vr acc r fuel', vr_drain fuel n vr acc = Some r -> (fuel <= fuel')%nat ->
  vr_drain fuel' n vr acc = Some r.
Proof.
  induction fuel as [|fuel IH]; intros vr acc r fuel' Hr Hf; [done|]. destruct fuel' as [|fuel']; [lia|].
  cbn [vr_drain] in *. destruct (vr_Read (S fuel) n vr) as [[vr' o]|] eqn:E; [|done].
  rewrite (vr_Read_mono _ _ _ _ (S fuel') E) by lia. destruct o; try done. apply IH; [done|lia].
Qed.

(** The two kinds of step of a drain. *)
Lemma drain_silent fuel n vr vr' acc r : vr_iter n vr = (vr', None) -> vr_drain fuel n vr' acc = Some r ->
  vr_drain (S fuel) n vr acc = Some r.
Proof.
  intros Hi Hr. destruct fuel as [|fuel]; [done|]. cbn [vr_drain] in *.
  assert (vr_Read (S (S fuel)) n vr = vr_Read (S fuel) n vr') as -> by (cbn [vr_Read]; by rewrite Hi).
  destruct (vr_Read (S fuel) n vr') as [[vr2 o]|]; [|done]. destruct o; try done.
  apply (vr_drain_mono fuel _ _ _ _ (S fuel)) in Hr; [exact Hr|lia].
Qed.

Lemma drain_data fuel n vr vr' b acc r : vr_iter n vr = (vr', Some (ReadData b)) ->
  vr_drain fuel n vr' (acc ++ b) = Some r -> vr_drain (S fuel) n vr acc = Some r.
Proof. intros Hi Hr. cbn [vr_drain vr_Read]. by rewrite Hi. Qed.

(** Reading the rest of a payload, then the checksum. *)
Lemma drain_payload n fuel : 0 < n -> forall q vr read stored tail acc r,
  vr_err vr = None -> vr_done vr = false -> vr_cur vr = Some (q ++ stored ++ tail) -> vr_remaining vr = len q ->
  vr_sum vr = sha_write sha_init read -> len stored = VolumeChecksumSize ->
  stored = sha_sum (sha_write sha_init (read ++ q ++ vr_header vr)) ->
  vr_drain fuel n (mk_vr (after (vr_next vr) tail) (vr_index vr) (vr_id vr) None (vr_path vr) (vr_header vr)
    (sha_write sha_init (read ++ q ++ vr_header vr)) 0 (vr_last vr) (vr_last vr) None) (acc ++ q) = Some r ->
  vr_drain (fuel + 1 + length q) n vr acc = Some r.
Proof.
  intros Hn q. remember (length q) as m eqn:Hm. revert q Hm. induction m as [m IH] using (well_founded_induction lt_wf).
  intros q Hm vr read stored tail acc r He Hd Hc Hrem Hsum Hl Hs Hr.
  destruct (Z.eqb_spec (len q) 0) as [Hq|Hq].
  - apply len_0_nil in Hq as ->. cbn [length] in Hm. subst m. rewrite Nat.add_0_r, Nat.add_1_r.
    eapply drain_silent.
    + unfold vr_iter. rewrite He, Hd, Hc, Hrem. cbn [app]. rewrite Z.eqb_refl. reflexivity.
    + unfold vr_finishVolume. rewrite (proj2 (Z.ltb_ge _ _)) by len_lia.
      rewrite ztake_app, zdrop_app by done. rewrite Hsum, sha_write_app. rewrite !app_nil_l in Hs, Hr. rewrite <- Hs.
      rewrite bytes_eqb_refl. cbn [negb]. rewrite app_nil_r in Hr. unfold after in Hr. by destruct (vr_next vr).
  - set (k := Z.min n (len q)). assert (1 <= k <= len q) as Hk by (unfold k; len_lia).
    assert (len (ztake k q) = k) as Hlk by (rewrite len_ztake; lia).
    replace (fuel + 1 + m)%nat with (S (fuel + 1 + (m - 1)))%nat by (unfold len in Hk; lia).
    eapply drain_data.
    + unfold vr_iter. rewrite He, Hd, Hc, Hrem. eqb_false. fold k. rewrite ztake_app_le by lia. rewrite Hlk. ltb_true.
      reflexivity.
    + eapply (vr_drain_mono (fuel + 1 + length (zdrop k q))%nat);
        [|unfold zdrop, len in *; rewrite length_drop; lia].
      rewrite zdrop_app_le by lia.
      eapply (IH (length (zdrop k q)) ltac:(unfold zdrop, len in *; rewrite length_drop; lia) (zdrop k q) eq_refl)
        with (read := read ++ ztake k q) (stored := stored) (tail := tail);
        cbn [vr_err vr_done vr_cur vr_remaining vr_sum vr_header vr_next vr_index vr_id vr_path vr_last]; try done.
      * rewrite len_zdrop by lia. done.
      * by rewrite Hsum, sha_write_app.
      * by rewrite <- app_assoc, (app_assoc (ztake k q)), ztake_zdrop.
      * by rewrite <- !app_assoc, (app_assoc (ztake k q)), ztake_zdrop.
Qed.

(** The iterations a drain of volumes with payloads [ps] needs. *)
Definition drain_need (ps : list bytes) : nat := length (concat ps) + 2 * length ps + 1.

Lemma drain_provides n id : 0 < n -> len id = VolumeIDSize -> forall ps vr acc,
  ps <> [] -> provides id (vr_next vr) (vr_index vr) ps -> Forall (fun p => len p < 2 ^ 64) ps ->
  0 <= vr_index vr -> vr_index vr + len ps < 2 ^ 32 -> (vr_index vr = 0 \/ vr_id vr = id) ->
  vr_err vr = None -> vr_done vr = false -> vr_cur vr = None ->
  exists vr', vr_drain (drain_need ps) n vr acc = Some (acc ++ concat ps, vr', None) /\
    Volumes_read vr' = vr_index vr + len ps.
Proof.
  intros Hn Hid. induction ps as [|p ps IH]; intros vr acc Hne Hp Hl H0 Hi Hv He Hd Hc; [done|].
  destruct Hp as (path & tail & Hnext & Hrest). inversion Hl as [|? ? Hlp Hlps]; subst.
  pose proof (len_nonneg ps). rewrite len_cons in Hi.
  assert (vr_iter n vr = (openNext vr, None)) as Hopen by (unfold vr_iter; by rewrite He, Hd, Hc).
  rewrite (openNext_ok vr id (is_last ps) p path tail) in Hopen by (done || lia).
  set (stored := sha_sum (sha_write sha_init (p ++ vol_header id (vr_index vr + 1) (is_last ps) p))) in *.
  assert (len stored = VolumeChecksumSize) as Hst by apply len_sha_sum.
  set (vr2 := mk_vr (after (vr_next vr) tail) (vr_index vr + 1) id None path
    (vol_header id (vr_index vr + 1) (is_last ps) p)
    (sha_write sha_init ([] ++ p ++ vol_header id (vr_index vr + 1) (is_last ps) p)) 0 (is_last ps) (is_last ps) None).
  assert (exists vr' fuel, (fuel + 1 + length p + 1 <= drain_need (p :: ps))%nat /\
    vr_drain fuel n vr2 (acc ++ p) = Some (acc ++ concat (p :: ps), vr', None) /\
    Volumes_read vr' = vr_index vr + len (p :: ps)) as (vr' & fuel & Hf & Hdr & Hvol).
  { destruct ps as [|p' ps].
    - exists vr2, 1%nat. split; [unfold drain_need; cbn [concat length]; rewrite app_nil_r; lia|]. cbn [concat]. rewrite app_nil_r.
      split; [done|]. unfold Volumes_read, vr2. cbn [vr_done is_last vr_index]. rewrite len_cons, len_nil. lia.
    - destruct (IH vr2 (acc ++ p)) as (vr' & Hdr & Hvol); try done.
      + cbn [vr2 vr_index]. lia.
      + cbn [vr2 vr_index]. lia.
      + by right.
      + exists vr', (drain_need (p' :: ps)). split.
        * unfold drain_need. cbn [concat length]. rewrite !length_app. lia.
        * cbn [concat] in *. rewrite <- app_assoc in Hdr. split; [done|]. rewrite Hvol, !len_cons. cbn [vr2 vr_index]. lia. }
  exists vr'. split; [|done]. apply (vr_drain_mono (S (fuel + 1 + length p))); [|lia].
  eapply drain_silent; [exact Hopen|].
  eapply (drain_payload n fuel Hn p) with (read := []) (stored := stored) (tail := tail);
    cbn [vr_err vr_done vr_cur vr_remaining vr_sum vr_header vr_next vr_index vr_id vr_path vr_last]; try done.
  by rewrite sha_write_nil.
Qed.

(** A complete set of files supplies its volumes. *)
Lemma complete_provides base id d ps : complete_set base id d ps -> provides id (SrcFiles base d) 0 ps.
Proof.
  intros Hc. cut (forall pre qs, ps = pre ++ qs -> provides id (SrcFiles base d) (len pre) qs); [intros Hg; by apply (Hg [])|].
  intros pre qs. revert pre. induction qs as [|q qs IH]; intros pre ->; [done|]. cbn [provides after next_volume].
  exists (VolumePath base (len pre + 1)), []. rewrite app_nil_r. split.
  - f_equal. unfold len. rewrite (Hc (length pre) q).
    + do 2 f_equal. rewrite length_app. cbn [length]. destruct qs; cbn [is_last length];
        [by rewrite bool_decide_eq_true_2 by lia|by rewrite bool_decide_eq_false_2 by lia].
    + rewrite lookup_app_r, Nat.sub_diag by lia. done.
  - replace (len pre + 1) with (len (pre ++ [q])) by (rewrite len_app, len_cons, len_nil; lia).
    apply IH. by rewrite <- app_assoc.
Qed.

(** [checkVolumeSet] accepts a complete set. *)
Lemma len_vol_bytes id i last p : len id = VolumeIDSize -> len (vol_bytes id i last p) = VolumeOverhead + len p.
Proof.
  intros. unfold vol_bytes. rewrite !len_app, len_vol_header, len_sha_sum by done. unfold VolumeOverhead, VolumeChecksumSize, HMACSize. lia.
Qed.

Lemma check_set_ok base id d : len id = VolumeIDSize -> forall qs pre fuel, complete_set base id d (pre ++ qs) -> qs <> [] ->
  Forall (fun p => len p < 2 ^ 62) qs -> len (pre ++ qs) < 2 ^ 32 -> (length qs <= fuel)%nat ->
  forall id0, (pre = [] \/ id0 = id) -> check_set fuel base id0 (len pre + 1) d = None.
Proof.
  intros Hid. induction qs as [|q qs IH]; intros pre fuel Hc Hne Hl Hb Hf id0 H0; [done|].
  destruct fuel as [|fuel]; [cbn [length] in Hf; lia|]. inversion Hl as [|? ? Hlq Hlqs]; subst. cbn [check_set].
  unfold readVolumeHeader. unfold len at 1. rewrite (Hc (length pre) q) by (by rewrite lookup_app_r, Nat.sub_diag by lia).
  fold (len pre). set (last := bool_decide _). rewrite len_vol_bytes by done. pose proof (len_nonneg q). pose proof (len_nonneg pre).
  rewrite len_app, len_cons in Hb. pose proof (len_nonneg qs).
  rewrite (proj2 (Z.ltb_ge _ _)) by (unfold VolumeOverhead, VolumeChecksumSize; lia).
  unfold vol_bytes. rewrite ztake_app by (by rewrite len_vol_header).
  unfold vol_header. rewrite ParseVolumeHeader_Marshal by (apply vol_header_ok; lia || done).
  unfold checkVolumeHeader. cbn [vh_ArchiveID vh_Index vh_PayloadLen vh_Last].
  assert ((if len pre + 1 =? 1 then id else id0) = id) as ->.
  { destruct (Z.eqb_spec (len pre + 1) 1); [done|]. destruct H0 as [->|]; [by rewrite len_nil in *|done]. }
  rewrite bytes_eqb_refl, Z.eqb_refl. cbn [negb]. unfold u64. rewrite (Z.mod_small (len q)) by lia.
  rewrite (i64_small (len q)) by lia. change VolumeOverhead with 72. rewrite i64_small by lia. rewrite Z.eqb_refl. cbn [negb].
  subst last. rewrite length_app. cbn [length]. destruct qs as [|q' qs].
  - by rewrite bool_decide_eq_true_2 by (cbn; lia).
  - rewrite bool_decide_eq_false_2 by (cbn [length]; lia).
    replace (len pre + 1 + 1) with (len (pre ++ [q]) + 1) by (rewrite len_app, len_cons, len_nil; lia).
    apply IH; try done; [by rewrite <- app_assoc|rewrite <- app_assoc, len_app; cbn [app]; rewrite len_cons; lia|cbn [length] in *; lia|by right].
Qed.

Lemma complete_size base id d ps : complete_set base id d ps -> (length ps <= size d)%nat.
Proof.
  intros Hc. rewrite <- (size_dom (D := gset bytes)).
  set (paths := (fun i => VolumePath base (Z.of_nat i + 1)) <$> seq 0 (length ps)).
  transitivity (size (list_to_set paths : gset bytes)).
  - rewrite size_list_to_set.
    + unfold paths. by rewrite length_fmap, length_seq.
    + unfold paths. apply NoDup_fmap_2_strong; [|apply NoDup_seq]. intros i j _ _ E. apply VolumePath_inj in E; lia.
  - apply subseteq_size. intros x Hx. apply elem_of_list_to_set in Hx. unfold paths in Hx.
    apply list_elem_of_fmap in Hx as (i & -> & Hi). apply elem_of_seq in Hi.
    destruct (lookup_lt_is_Some_2 ps i) as [p Hp]; [lia|]. apply elem_of_dom. rewrite (Hc i p Hp). by eexists.
Qed.

Lemma checkVolumeSet_ok base id d ps : len id = VolumeIDSize -> complete_set base id d ps -> ps <> [] ->
  Forall (fun p => len p < 2 ^ 62) ps -> len ps < 2 ^ 32 -> checkVolumeSet base d = None.
Proof.
  intros Hid Hc Hne Hl Hb. unfold checkVolumeSet. apply (check_set_ok base id d Hid ps []); try done; [|by left].
  pose proof (complete_size _ _ _ _ Hc). lia.
Qed.

(** The volumes of an archive back to back. *)
Fixpoint volumes_of (id : bytes) (i : Z) (ps : list bytes) : bytes :=
  match ps with
  | [] => []
  | p :: ps => vol_bytes id (i + 1) (is_last ps) p ++ volumes_of id (i + 1) ps
  end.

Lemma stream_provides id ps : forall i, provides id (SrcStream (volumes_of id i ps)) i ps.
Proof.
  induction ps as [|p ps IH]; intros i; cbn [provides volumes_of next_volume after]; [done|].
  do 2 eexists. split; [reflexivity|]. apply IH.
Qed.

(** The files base.001, base.002, ... read one after another. *)
Definition cat_volumes (base : bytes) (d : dir) (count : Z) : bytes :=
  concat (map (fun i => default [] (d !! VolumePath base i)) (seqZ 1 count)).

Lemma seqZ_app_S m n : 0 <= n -> seqZ m (1 + n) = m :: seqZ (m + 1) n.
Proof. intros. rewrite seqZ_cons by lia. f_equal. replace (1 + n) with (Z.succ n) by lia. rewrite Z.pred_succ. by rewrite Z.add_1_r. Qed.

Lemma cat_complete base id d ps : complete_set base id d ps -> cat_volumes base d (len ps) = volumes_of id 0 ps.
Proof.
  intros Hc. unfold cat_volumes.
  cut (forall pre qs, ps = pre ++ qs ->
    concat (map (fun i => default [] (d !! VolumePath base i)) (seqZ (len pre + 1) (len qs))) = volumes_of id (len pre) qs);
    [intros Hg; by apply (Hg [])|].
  intros pre qs. revert pre. induction qs as [|q qs IH]; intros pre ->; [done|]. rewrite len_cons, seqZ_app_S by len_lia.
  cbn [map concat volumes_of]. f_equal.
  - unfold len. rewrite (Hc (length pre) q) by (by rewrite lookup_app_r, Nat.sub_diag by lia). cbn [default]. unfold Datatypes.id.
    f_equal. rewrite length_app. cbn [length]. destruct qs; cbn [is_last length];
      [by rewrite bool_decide_eq_true_2 by lia|by rewrite bool_decide_eq_false_2 by lia].
  - replace (len pre + 1) with (len (pre ++ [q])) by (rewrite len_app, len_cons, len_nil; lia). apply IH. by rewrite <- app_assoc.
Qed.

(** The archiver's writes, in order; stops at the first error. *)
Fixpoint vw_writes (ops : FileOps) (pieces : list bytes) (v : VolumeWriter) (d : dir) : option (VolumeWriter * dir) :=
  match pieces with
  | [] => Some (v, d)
  | p :: pieces => match vw_Write ops p v d with
                   | Some (n, None, v, d) => if n =? len p then vw_writes ops pieces v d else None
                   | _ => None
                   end
  end.

Lemma vw_writes_ok ops base id cap closed pieces : ops_ok ops -> len id = VolumeIDSize -> 0 < cap < 2 ^ 63 -> forall v d data,
  vw_wrote base id cap closed v d data ->
  exists v' d', vw_writes ops pieces v d = Some (v', d') /\ vw_wrote base id cap closed v' d' (data ++ concat pieces).
Proof.
  intros Hops Hid Hcap. induction pieces as [|p pieces IH]; intros v d data Hw; cbn [vw_writes concat].
  - exists v, d. by rewrite app_nil_r.
  - destruct (vw_Write_ok ops Hops base id cap Hid Hcap closed p v d data Hw) as (v1 & d1 & -> & Hw1). rewrite Z.eqb_refl.
    destruct (IH v1 d1 _ Hw1) as (v2 & d2 & -> & Hw2). exists v2, d2. by rewrite app_assoc.
Qed.

Lemma new_writer_wrote base id cap d : vw_wrote base id cap false (mk_vw base cap id 0 None 0 sha_init [] None false) d [].
Proof. exists [], None. split; [|done]. split; done. Qed.

(** C19. Splitting then joining an archive changes nothing. When no file operation fails,
    writing an archive in any pieces through [VolumeWriter] accepts every byte and closes
    cleanly; the volumes are all within the size asked for, no volume of an older archive
    follows them, they pass [OpenVolumes], and reading them, from the files or catenated
    in one stream, with any buffer size, ends at exactly the archive's bytes. *)
Theorem split_join (ops : FileOps) (base : bytes) (volumeSize : Z) (r r' : rng) (v : VolumeWriter) (d : dir)
  (pieces : list bytes) (n : Z)
  (Hops : ops_ok ops) (Hc : CreateVolumes base volumeSize r = (IOk v, r')) (Hsize : volumeSize < 2 ^ 62)
  (Hdata : len (concat pieces) < 2 ^ 47) (Hn : 0 < n) :
  exists v1 d1 v2 d2 k rd1 vr1 vr2 fuel,
    vw_writes ops pieces v d = Some (v1, d1) /\ vw_Close ops v1 d1 = (None, v2, d2) /\
    (forall i, 1 <= i <= k -> exists b, d2 !! VolumePath base i = Some b /\ len b <= volumeSize) /\
    startsWithVolumeHeader (VolumePath base (k + 1)) d2 = false /\
    OpenVolumes base d2 = inl rd1 /\
    vr_drain fuel n rd1 [] = Some (concat pieces, vr1, None) /\ Volumes_read vr1 = k /\
    vr_drain fuel n (NewVolumeStreamReader (cat_volumes base d2 k)) [] = Some (concat pieces, vr2, None).
Proof.
  unfold CreateVolumes, MinVolumeSize in Hc. destruct (Z.ltb_spec volumeSize 65536) as [|Hv]; [done|].
  destruct (draw VolumeIDSize r) as [id r1] eqn:Ed. apply draw_len in Ed; [|done]. injection Hc as <- <-.
  set (cap := volumeSize - VolumeOverhead). assert (65464 <= cap < 2 ^ 62) as Hcap by (unfold cap; change VolumeOverhead with 72; lia).
  destruct (vw_writes_ok ops base id cap false pieces Hops Ed ltac:(lia) _ d [] (new_writer_wrote base id cap d))
    as (v1 & d1 & Hw & Hw1).
  destruct (vw_Close_ok ops Hops base id cap Ed ltac:(lia) v1 d1 _ Hw1)
    as (v2 & d2 & ps & Hcl & Hne & Hcc & Hl & Hset & Hst & Hcnt).
  rewrite app_nil_l in Hcc, Hcnt. pose proof (len_nonneg ps).
  assert (len ps < 2 ^ 32) as Hlen by nia.
  assert (forall b, cap < b -> Forall (fun p => len p < b) ps) as Hlt by (intros b Hb; eapply Forall_impl; [exact Hl|]; cbn; lia).
  destruct (drain_provides n id Hn Ed ps (new_reader (SrcFiles base d2)) []) as (vr1 & Hd1 & Hk1);
    [done|by apply complete_provides|apply Hlt; lia|done|cbn [new_reader vr_index]; lia|by left|done|done|done|].
  destruct (drain_provides n id Hn Ed ps (NewVolumeStreamReader (volumes_of id 0 ps)) []) as (vr2 & Hd2 & Hk2);
    [done|apply stream_provides|apply Hlt; lia|done|cbn [new_reader vr_index NewVolumeStreamReader]; lia|by left|done|done|done|].
  rewrite app_nil_l, Hcc in Hd1, Hd2.
  exists v1, d1, v2, d2, (len ps), (new_reader (SrcFiles base d2)), vr1, vr2, (drain_need ps).
  split; [done|]. split; [done|]. split; [|split; [done|split; [|split; [done|split; [done|]]]]].
  - intros i Hi. destruct (lookup_lt_is_Some_2 ps (Z.to_nat (i - 1))) as [p Hp]; [unfold len in Hi; lia|].
    pose proof (Hset _ _ Hp) as Hb. replace (Z.of_nat (Z.to_nat (i - 1)) + 1) with i in Hb by lia.
    eexists. split; [exact Hb|]. rewrite len_vol_bytes by done. eapply Forall_lookup_1 in Hp; [|exact Hl]. unfold cap in Hp. lia.
  - unfold OpenVolumes. rewrite (checkVolumeSet_ok base id d2 ps); try done. apply Hlt. lia.
  - by rewrite (cat_complete base id d2 ps Hset).
Qed.

(** ** Whatever is read to the end was a complete, verified set *)

(** The iterations of a drain in sequence. *)
Inductive drains (n : Z) : VolumeReader -> bytes -> bytes * VolumeReader * option VolumeError -> Prop :=
  | drains_silent vr vr' acc r : vr_iter n vr = (vr', None) -> drains n vr' acc r -> drains n vr acc r
  | drains_data vr vr' b acc r : vr_iter n vr = (vr', Some (ReadData b)) -> drains n vr' (acc ++ b) r -> drains n vr acc r
  | drains_eof vr vr' acc : vr_iter n vr = (vr', Some ReadEOF) -> drains n vr acc (acc, vr', None)
  | drains_err vr vr' acc e : vr_iter n vr = (vr', Some (ReadErr e)) -> drains n vr acc (acc, vr', Some e).

Lemma vr_Read_drains n acc r : forall fuel vr vr' o, vr_Read fuel n vr = Some (vr', o) ->
  match o with
  | ReadData b => drains n vr' (acc ++ b) r
  | ReadEOF => r = (acc, vr', None)
  | ReadErr e => r = (acc, vr', Some e)
  end -> drains n vr acc r.
Proof.
  induction fuel as [|fuel IH]; intros vr vr' o Hr Ho; [done|]. cbn [vr_Read] in Hr.
  destruct (vr_iter n vr) as [vr1 [o1|]] eqn:E.
  - injection Hr as -> ->. destruct o; [by eapply drains_data|subst; by apply drains_eof|subst; by apply drains_err].
  - eapply drains_silent; [exact E|]. by eapply IH.
Qed.

Lemma vr_drain_drains n fuel : forall vr acc r, vr_drain fuel n vr acc = Some r -> drains n vr acc r.
Proof.
  induction fuel as [|fuel IH]; intros vr acc r Hr; [done|]. cbn [vr_drain] in Hr.
  destruct (vr_Read (S fuel) n vr) as [[vr' o]|] eqn:E; [|done]. eapply vr_Read_drains; [exact E|].
  destruct o; [by apply IH|congruence|congruence].
Qed.

(** A state inside a volume whose header was accepted and of whose payload [q] was read. *)
Definition in_volume (vr : VolumeReader) (q : bytes) : Prop :=
  1 <= vr_index vr /\ exists cur, vr_cur vr = Some cur /\ vr_sum vr = sha_write sha_init q /\ 0 <= vr_remaining vr /\
    len (vr_id vr) = VolumeIDSize /\ len q + vr_remaining vr < 2 ^ 64 /\
    vr_header vr = vh_Marshal (mk_vh (vr_id vr) (u32 (vr_index vr)) (vr_last vr) (len q + vr_remaining vr)).

(** What reading on to the end from a state shows about the rest of the source. *)
Definition rest_verified (vr : VolumeReader) (q acc : bytes) (r : bytes * VolumeReader * option VolumeError) : Prop :=
  match vr_cur vr with
  | None => exists id ps, ps <> [] /\ fst (fst r) = acc ++ concat ps /\ provides id (vr_next vr) (vr_index vr) ps /\
      len id = VolumeIDSize /\ (vr_index vr <> 0 -> id = vr_id vr) /\ vr_index (snd (fst r)) = vr_index vr + len ps
  | Some cur => exists q' tail ps, cur = q' ++ sha_sum (sha_write sha_init (q ++ q' ++ vr_header vr)) ++ tail /\
      len q' = vr_remaining vr /\ vr_last vr = is_last ps /\ fst (fst r) = acc ++ q' ++ concat ps /\
      provides (vr_id vr) (after (vr_next vr) tail) (vr_index vr) ps /\
      vr_index (snd (fst r)) = vr_index vr + len ps
  end.

Lemma openNext_inv vr : vr_cur vr = None -> vr_done vr = false -> 0 <= vr_index vr -> vr_err (openNext vr) = None ->
  in_volume (openNext vr) [] /\ vr_done (openNext vr) = false /\ vr_next (openNext vr) = vr_next vr /\
  vr_index (openNext vr) = vr_index vr + 1 /\ (vr_index vr <> 0 -> vr_id (openNext vr) = vr_id vr) /\
  exists path cur, vr_cur (openNext vr) = Some cur /\
    next_volume (vr_next vr) (vr_index vr + 1) = (path, Some (vr_header (openNext vr) ++ cur)).
Proof.
  unfold openNext. intros Hc Hd H0 He. destruct (next_volume _ _) as [path [r|]] eqn:En; [|done].
  destruct (Z.ltb_spec (len r) VolumeHeaderSize) as [|Hl]; [done|].
  destruct (ParseVolumeHeader (ztake VolumeHeaderSize r)) as [h|] eqn:Ep; [|done].
  apply ParseVolumeHeader_inv in Ep as [(Hi & Hx & Hp) Hm].
  destruct (checkVolumeHeader h _ _) eqn:Ec; [done|]. unfold checkVolumeHeader in Ec.
  destruct (bytes_eqb _ _) eqn:Eb; [|done]. apply bytes_eqb_true in Eb. cbn [negb] in Ec.
  destruct (Z.eqb_spec (vh_Index h) (u32 (vr_index vr + 1))) as [Ex|]; [|done].
  cbn [vr_cur vr_sum vr_remaining vr_id vr_header vr_index vr_last vr_done vr_next]. split; [|split_and!; try done].
  - split; [cbn [vr_index]; lia|]. exists (zdrop VolumeHeaderSize r). cbn [vr_cur vr_sum vr_remaining vr_id vr_header vr_index vr_last].
    change (len (@nil byte)) with 0. rewrite Z.add_0_l. split_and!; try done; [by rewrite sha_write_nil|lia|by rewrite <- Eb|lia|].
    rewrite <- Hm, <- Eb, <- Ex. by destruct h.
  - intros Hn. destruct (Z.eqb_spec (vr_index vr + 1) 1); [lia|done].
  - do 2 eexists. split; [done|]. by rewrite ztake_zdrop.
Qed.

Lemma finishVolume_inv cur vr : vr_err (vr_finishVolume cur vr) = None ->
  let sum := sha_write (vr_sum vr) (vr_header vr) in exists tail,
  cur = sha_sum sum ++ tail /\ vr_finishVolume cur vr =
    mk_vr (after (vr_next vr) tail) (vr_index vr) (vr_id vr) None (vr_path vr) (vr_header vr) sum 0 (vr_last vr) (vr_last vr) None.
Proof.
  unfold vr_finishVolume. destruct (Z.ltb_spec (len cur) VolumeChecksumSize) as [|Hl]; [done|].
  destruct (bytes_eqb _ _) eqn:E; cbn [negb]; [|done]. apply bytes_eqb_true in E. intros _. cbv zeta.
  exists (zdrop VolumeChecksumSize cur). rewrite E, ztake_zdrop. split; [done|]. unfold after. by destruct (vr_next vr).
Qed.

Lemma ztake_len_ztake {X} m (l : list X) : ztake (len (ztake m l)) l = ztake m l.
Proof.
  unfold ztake, len. rewrite Nat2Z.id, length_take. destruct (Nat.le_ge_cases (Z.to_nat m) (length l)).
  - by rewrite Nat.min_l.
  - by rewrite Nat.min_r, !take_ge by lia.
Qed.

(** Reading some bytes of the payload. *)
Lemma in_volume_step vr q cur b : in_volume vr q -> vr_cur vr = Some cur -> vr_remaining vr <> 0 ->
  b = ztake (Z.min (len b) (vr_remaining vr)) cur -> 0 < len b <= vr_remaining vr ->
  in_volume (mk_vr (vr_next vr) (vr_index vr) (vr_id vr) (Some (zdrop (len b) cur)) (vr_path vr) (vr_header vr)
    (sha_write (vr_sum vr) b) (vr_remaining vr - len b) (vr_last vr) (vr_done vr) None) (q ++ b).
Proof.
  intros (Hx & cur' & Hc & Hs & H0 & Hid & Hb & Hh) Hc' Hr Hbt Hbl. split; [done|]. eexists. cbn [vr_cur vr_sum vr_remaining vr_id vr_header vr_index vr_last].
  split; [done|]. rewrite Hs, sha_write_app, len_app. split_and!; try done; [lia|lia|]. rewrite Hh. do 2 f_equal. lia.
Qed.

Lemma drains_verified n vr acc r : 0 < n -> drains n vr acc r -> snd r = None ->
  vr_err vr = None /\
  (vr_done vr = true -> fst (fst r) = acc /\ vr_index (snd (fst r)) = vr_index vr) /\
  (vr_done vr = false -> 0 <= vr_index vr -> forall q, vr_cur vr = None \/ in_volume vr q -> rest_verified vr q acc r).
Proof.
  intros Hn Hdr Hr. induction Hdr as [vr vr' acc r Hi Hdr IH|vr vr' b acc r Hi Hdr IH|vr vr' acc Hi|vr vr' acc e Hi]; [| | |done].
  all: unfold vr_iter in Hi; destruct (vr_err vr) eqn:He; [by injection Hi|]; split; [done|].
  - destruct (vr_done vr) eqn:Hd; [done|]. split; [done|]. intros _ H0 q Hq. destruct (IH Hr) as (He' & Hdone & Hrest). clear IH.
    unfold rest_verified. destruct (vr_cur vr) as [cur|] eqn:Hc.
    + destruct (Z.eqb_spec (vr_remaining vr) 0) as [Hz|Hz].
      * injection Hi as <-. destruct Hq as [|(Hx1 & cur' & Hc' & Hs & _ & _ & _ & Hh)]; [done|].
        apply finishVolume_inv in He' as (tail & -> & Hf). rewrite Hf in *. cbn [vr_done vr_index] in Hdone, Hrest.
        exists [], tail. rewrite !app_nil_l, Hs, sha_write_app. destruct (vr_last vr) eqn:El.
        -- exists []. destruct (Hdone eq_refl) as [-> ->]. cbn [concat app]. rewrite app_nil_r. split_and!; try done; unfold len; cbn [length]; lia.
        -- destruct (Hrest eq_refl H0 [] (or_introl eq_refl)) as (id & ps & Hne & Hout & Hp & Hid & Hv & Hx).
           cbn [vr_next vr_index vr_id] in *. exists ps.
           rewrite Hv in Hp by lia. split_and!; try done. by destruct ps.
      * cbv zeta in Hi. destruct (Z.ltb_spec 0 (len (ztake (Z.min n (vr_remaining vr)) cur))); [done|].
        rewrite (proj2 (Z.ltb_lt 0 n)) in Hi by done. by injection Hi as <-.
    + injection Hi as <-. destruct (openNext_inv vr Hc Hd H0 He') as (Hin & Hd' & Hnx & Hix & Hidv & path & cur & Hcur & Hnv).
      specialize (Hrest Hd' ltac:(lia) [] (or_intror Hin)). unfold rest_verified in Hrest. rewrite Hcur in Hrest.
      destruct Hrest as (q' & tail & ps & Hq' & Hlq & Hlast & Hout & Hp & Hx). rewrite Hnx, Hix in *.
      destruct Hin as (_ & cur' & Hc' & _ & Hrem & Hid & Hb & Hh). rewrite len_nil, Z.add_0_l in Hh, Hb.
      exists (vr_id (openNext vr)), (q' :: ps). cbn [concat]. rewrite len_cons. split_and!; try done; [|lia].
      cbn [provides]. exists path, tail. split; [|done]. rewrite Hnv. unfold vol_bytes, vol_header, u64.
      rewrite Z.mod_small by lia. rewrite <- Hlast, Hlq, <- Hix, <- Hh. by rewrite Hq', app_nil_l, <- !app_assoc.
  - destruct (vr_done vr) eqn:Hd; [done|]. split; [done|]. intros _ H0 q Hq. destruct (IH Hr) as (He' & Hdone & Hrest). clear IH.
    unfold rest_verified. destruct (vr_cur vr) as [cur|] eqn:Hc; [|done].
    destruct (Z.eqb_spec (vr_remaining vr) 0) as [|Hz]; [done|]. cbv zeta in Hi.
    destruct Hq as [|Hin]; [done|]. pose proof Hin as (_ & ? & _ & _ & Hrem & _).
    set (b' := ztake (Z.min n (vr_remaining vr)) cur) in *. destruct (Z.ltb_spec 0 (len b')) as [Hb|]; [|by destruct (0 <? n)].
    injection Hi as <- <-.
    assert (len b' <= Z.min n (vr_remaining vr)) as Hle by (apply len_ztake_max; lia).
    assert (cur = b' ++ zdrop (len b') cur) as Hcur.
    { rewrite <- (ztake_zdrop (len b') cur) at 1. f_equal. apply ztake_len_ztake. }
    pose proof (in_volume_step vr q cur b' Hin Hc Hz ltac:(rewrite Z.min_l by lia; symmetry; apply ztake_len_ztake) ltac:(lia)) as Hin'.
    rewrite Hd in Hin'. specialize (Hrest eq_refl H0 (q ++ b') (or_intror Hin')).
    unfold rest_verified in Hrest. cbn [vr_cur vr_header vr_remaining vr_last vr_id vr_next vr_index] in Hrest.
    destruct Hrest as (q' & tail & ps & Hq' & Hlq & Hlast & Hout & Hp & Hx).
    exists (b' ++ q'), tail, ps. split_and!; try done.
    + rewrite Hcur at 1. rewrite Hq'. by rewrite <- !app_assoc.
    + rewrite len_app. lia.
    + by rewrite Hout, <- !app_assoc.
  - destruct (vr_done vr) eqn:Hd.
    + injection Hi as <-. done.
    + destruct (vr_cur vr) as [cur|]; [|done]. destruct (_ =? 0); [done|]. cbv zeta in Hi.
      destruct (0 <? len _); [done|]. by destruct (0 <? n).
Qed.

(** C20. A split archive is read to the end only if it is whole. Whatever files or stream
    are given, if reading ends without error then the source supplied volumes 1, 2, ... of
    one archive in order, the last and only the last marked last, each with the length its
    header declares and a matching checksum, and the output is exactly their payloads. *)
Theorem joined_is_verified (src : volumeSource) (n : Z) (fuel : nat) (out : bytes) (vr : VolumeReader)
  (Hn : 0 < n) (Hd : vr_drain fuel n (new_reader src) [] = Some (out, vr, None)) :
  exists id ps, len id = VolumeIDSize /\ ps <> [] /\ provides id src 0 ps /\ out = concat ps /\ vr_index vr = len ps.
Proof.
  apply vr_drain_drains in Hd. apply drains_verified in Hd as (_ & _ & Hrest); [|done|done].
  destruct (Hrest eq_refl ltac:(done) [] (or_introl eq_refl)) as (id & ps & Hne & Hout & Hp & Hid & _ & Hx).
  exists id, ps. split_and!; try done.
Qed.
End Reading.

(** ** Examples *)

#[local] Existing Instance toy_sha.

Definition all_ok : FileOps := mk_ops (fun _ => true) (fun _ _ => true) (fun _ => true) (fun _ => true).

Definition sample_vw : @VolumeWriter toy_sha :=
  match fst (@CreateVolumes toy_sha (str "a.sarc") MinVolumeSize toy_rng) with
  | IOk v => v | IErr _ => mk_vw [] 0 [] 0 None 0 (@sha_init toy_sha) [] None false end.

Lemma split_join_witness :
  exists v1 d1 v2 d2 k rd1 vr1 vr2 fuel,
    @vw_writes toy_sha all_ok [str "abc"; str "def"] sample_vw (∅ : dir) = Some (v1, d1) /\ vw_Close all_ok v1 d1 = (None, v2, d2) /\
    (forall i, 1 <= i <= k -> exists b, d2 !! VolumePath (str "a.sarc") i = Some b /\ len b <= MinVolumeSize) /\
    startsWithVolumeHeader (VolumePath (str "a.sarc") (k + 1)) d2 = false /\
    OpenVolumes (str "a.sarc") d2 = inl rd1 /\
    vr_drain fuel 4 rd1 [] = Some (concat [str "abc"; str "def"], vr1, None) /\ Volumes_read vr1 = k /\
    vr_drain fuel 4 (NewVolumeStreamReader (cat_volumes (str "a.sarc") d2 k)) [] = Some (concat [str "abc"; str "def"], vr2, None).
Proof.
  refine (@split_join toy_sha toy_sha_laws all_ok (str "a.sarc") MinVolumeSize toy_rng (snd (draw VolumeIDSize toy_rng)) sample_vw (∅ : dir)
    [str "abc"; str "def"] 4 _ _ _ _ _).
  - by repeat split.
  - reflexivity.
  - unfold MinVolumeSize. lia.
  - change (len (concat [str "abc"; str "def"])) with 6. lia.
  - lia.
Defined.

(** One volume holding "payload", as a stream. *)
Definition sample_volume : bytes := @vol_bytes toy_sha (replicate 16 (zb 7)) 1 true (str "payload").

Lemma joined_is_verified_witness :
  exists out vr, @vr_drain toy_sha 20 3 (new_reader (SrcStream sample_volume)) [] = Some (out, vr, None) /\
  exists id ps, len id = VolumeIDSize /\ ps <> [] /\ @provides toy_sha id (SrcStream sample_volume) 0 ps /\
    out = concat ps /\ vr_index vr = len ps.
Proof.
  assert (match vr_drain 20 3 (new_reader (SrcStream sample_volume)) [] with Some (_, _, None) => true | _ => false end = true)
    as Hb by (vm_compute; reflexivity).
  destruct (vr_drain 20 3 (new_reader (SrcStream sample_volume)) []) as [[[out vr] [e|]]|] eqn:E; [discriminate Hb| |discriminate Hb].
  exists out, vr. split; [reflexivity|].
  exact (@joined_is_verified toy_sha toy_sha_laws (SrcStream sample_volume) 3 20 out vr ltac:(lia) E).
Defined.
