(* ===== verification/Pipeline.v ===== *)
(** * Ordered worker pipelines (io/pipeline.go, io/decrypt_pipeline.go, io/mmap_pipeline.go)

    The parallel pipelines share one shape: a dispatcher reads the input and enqueues, for
    every item, a private result channel on [ordered] and a job on [jobs]; workers turn
    jobs into results; the caller takes result channels in dispatch order and hands each
    result to a sink. This file models the goroutines as a step relation over the channel
    contents, one rule per channel operation, so that every interleaving is a run, and
    proves that every run ends, none deadlocks, and all of them give the result of the
    sequential loop.

    The parameters cover the variants: [bufs] is the size of the free list of buffers
    ([None] in the decrypt pipeline, which has none); [cancels] says whether a sink error
    cancels the dispatcher (encryption) or the rest is drained (decryption). *)

From stdpp Require Import gmap relations.
From S2P Require Import Prelude.

(** What the dispatcher reads: items, then an outcome; a short read delivers its item and
    ends the loop at once. *)
Inductive script (A O : Type) :=
  | Item (x : A) (rest : script A O)
  | Last (x : A) (o : O)
  | Stop (o : O).
Arguments Item {A O} x rest.
Arguments Last {A O} x o.
Arguments Stop {A O} o.

Fixpoint items {A O} (sc : script A O) : list A :=
  match sc with Item x rest => x :: items rest | Last x _ => [x] | Stop _ => [] end.

Fixpoint outcome {A O} (sc : script A O) : O :=
  match sc with Item _ rest => outcome rest | Last _ o => o | Stop o => o end.

Section Pipeline.
Context {A R St Er Out : Type}.
Context (work : A -> R) (sink : St -> R -> St + Er) (canceled : Out).
Context (workers cap : nat) (bufs : option nat) (cancels : bool).

(** After an item was enqueued: back to the top of the loop, or stop. *)
Inductive cont := Again (sc : script A Out) | Halt (o : Out).

(** Where the dispatcher goroutine is: at the top of its loop (the cancellation check),
    waiting for a buffer and reading, sending on [ordered], sending on [jobs], or finished
    with both channels closed. *)
Inductive dispatcher :=
  | DLoop (sc : script A Out)
  | DGet (sc : script A Out)
  | DOrdered (x : A) (k : cont)
  | DJob (x : A) (k : cont)
  | DStop (o : Out).

Definition resume (k : cont) : dispatcher := match k with Again sc => DLoop sc | Halt o => DStop o end.

Record pipe := mk_pipe {
  p_disp : dispatcher;
  p_next : nat;                    (* number of result channels made *)
  p_free : nat;                    (* buffers on the free list *)
  p_ordered : list nat;            (* result channels, in dispatch order *)
  p_jobs : list (nat * A);
  p_busy : list (nat * A);         (* jobs held by workers *)
  p_results : gmap nat R;          (* filled result channels *)
  p_cur : option nat;              (* the caller is waiting on this result channel *)
  p_sink : St;
  p_err : option Er;                (* first error of the sink *)
  p_cancel : bool;
  p_return : option (Er + Out)        (* what the call returned *)
}.

(** The caller's loop body on a result. *)
Definition consume (s : St) (err : option Er) (r : R) : St * option Er :=
  match err with
  | Some e => (s, Some e)
  | None => match sink s r with inl s => (s, None) | inr e => (s, Some e) end
  end.

Definition take_buf (free : nat) : option nat :=
  match bufs with None => Some free | Some _ => match free with O => None | S f => Some f end end.
Definition give_buf (free : nat) : nat := match bufs with None => free | Some _ => S free end.

Inductive step : pipe -> pipe -> Prop :=
  | step_cancel sc n fr o j b rs c s e ret :
      step (mk_pipe (DLoop sc) n fr o j b rs c s e true ret) (mk_pipe (DStop canceled) n fr o j b rs c s e true ret)
  | step_loop sc n fr o j b rs c s e ret :
      step (mk_pipe (DLoop sc) n fr o j b rs c s e false ret) (mk_pipe (DGet sc) n fr o j b rs c s e false ret)
  | step_item x sc n fr fr' o j b rs c s e cn ret : take_buf fr = Some fr' ->
      step (mk_pipe (DGet (Item x sc)) n fr o j b rs c s e cn ret) (mk_pipe (DOrdered x (Again sc)) n fr' o j b rs c s e cn ret)
  | step_last x out n fr fr' o j b rs c s e cn ret : take_buf fr = Some fr' ->
      step (mk_pipe (DGet (Last x out)) n fr o j b rs c s e cn ret) (mk_pipe (DOrdered x (Halt out)) n fr' o j b rs c s e cn ret)
  | step_stop out n fr fr' o j b rs c s e cn ret : take_buf fr = Some fr' ->
      step (mk_pipe (DGet (Stop out)) n fr o j b rs c s e cn ret) (mk_pipe (DStop out) n fr o j b rs c s e cn ret)
  | step_ordered x k n fr o j b rs c s e cn ret : (length o < cap)%nat ->
      step (mk_pipe (DOrdered x k) n fr o j b rs c s e cn ret) (mk_pipe (DJob x k) (S n) fr (o ++ [n]) j b rs c s e cn ret)
  | step_job x k n fr o j b rs c s e cn ret : (length j < cap)%nat ->
      step (mk_pipe (DJob x k) (S n) fr o j b rs c s e cn ret)
           (mk_pipe (resume k) (S n) fr o (j ++ [(n, x)]) b rs c s e cn ret)
  | step_take d i x n fr o j b rs c s e cn ret : (length b < workers)%nat ->
      step (mk_pipe d n fr o ((i, x) :: j) b rs c s e cn ret) (mk_pipe d n fr o j (b ++ [(i, x)]) rs c s e cn ret)
  | step_work d i x n fr o j b1 b2 rs c s e cn ret :
      step (mk_pipe d n fr o j (b1 ++ (i, x) :: b2) rs c s e cn ret)
           (mk_pipe d n fr o j (b1 ++ b2) (<[i := work x]> rs) c s e cn ret)
  | step_receive d i n fr o j b rs s e cn ret :
      step (mk_pipe d n fr (i :: o) j b rs None s e cn ret) (mk_pipe d n fr o j b rs (Some i) s e cn ret)
  | step_consume d i r n fr o j b rs s e cn ret s' e' : rs !! i = Some r -> consume s e r = (s', e') ->
      step (mk_pipe d n fr o j b rs (Some i) s e cn ret)
           (mk_pipe d n (give_buf fr) o j b (delete i rs) None s' e'
              (cn || (cancels && match e' with Some _ => true | None => false end)) ret)
  | step_return out n fr rs s e cn :
      step (mk_pipe (DStop out) n fr [] [] [] rs None s e cn None)
           (mk_pipe (DStop out) n fr [] [] [] rs None s e cn (Some (match e with Some e => inl e | None => inr out end))).

Definition start (sc : script A Out) (s : St) : pipe :=
  mk_pipe (DLoop sc) 0 (default 0%nat bufs) [] [] [] ∅ None s None false None.

Definition reachable (sc : script A Out) (s : St) (p : pipe) : Prop := rtc step (start sc s) p.

(** The sequential loop: the sink runs over the results in order up to its first error;
    a sink error is returned, otherwise the outcome of the input. *)
Fixpoint consume_all (s : St) (err : option Er) (xs : list A) : St * option Er :=
  match xs with
  | [] => (s, err)
  | x :: xs => let '(s, err) := consume s err (work x) in consume_all s err xs
  end.

Definition sequential (sc : script A Out) (s : St) : St * (Er + Out) :=
  let '(s, err) := consume_all s None (items sc) in
  (s, match err with Some e => inl e | None => inr (outcome sc) end).

(** ** The invariant *)

Context (sc0 : script A Out) (s0 : St).

Definition cont_items (k : cont) : list A := match k with Again sc => items sc | Halt _ => [] end.
Definition cont_outcome (k : cont) : Out := match k with Again sc => outcome sc | Halt o => o end.

Definition disp_ok (n : nat) (cn : bool) (d : dispatcher) : Prop :=
  match d with
  | DLoop sc | DGet sc => drop n (items sc0) = items sc /\ outcome sc = outcome sc0
  | DOrdered x k => drop n (items sc0) = x :: cont_items k /\ cont_outcome k = outcome sc0
  | DJob x k => items sc0 !! Nat.pred n = Some x /\ (0 < n)%nat /\ drop n (items sc0) = cont_items k /\ cont_outcome k = outcome sc0
  | DStop o => (o = outcome sc0 /\ n = length (items sc0)) \/ (o = canceled /\ cn = true)
  end.

Definition pending (d : dispatcher) (n i : nat) : Prop := match d with DJob _ _ => S i = n | _ => False end.
Definition held (d : dispatcher) : nat := match d with DOrdered _ _ => 1 | _ => 0 end.

(** [c] results have been consumed. *)
Record pipe_inv (c : nat) (p : pipe) : Prop := {
  pi_order : option_list (p_cur p) ++ p_ordered p = seq c (p_next p - c);
  pi_count : (c <= p_next p <= length (items sc0))%nat;
  pi_sink : consume_all s0 None (take c (items sc0)) = (p_sink p, p_err p);
  pi_cancel : p_cancel p = cancels && bool_decide (is_Some (p_err p));
  pi_disp : disp_ok (p_next p) (p_cancel p) (p_disp p);
  pi_jobs : Forall (fun j => items sc0 !! fst j = Some (snd j)) (p_jobs p ++ p_busy p);
  pi_results : forall i r, p_results p !! i = Some r -> exists x, items sc0 !! i = Some x /\ r = work x;
  pi_covered : forall i, (c <= i < p_next p)%nat ->
    i ∈ fst <$> (p_jobs p ++ p_busy p) \/ is_Some (p_results p !! i) \/ pending (p_disp p) (p_next p) i;
  pi_free : forall B, bufs = Some B -> (p_free p + (p_next p - c) + held (p_disp p) = B)%nat;
  pi_return : match p_return p with
              | None => True
              | Some v => p_cur p = None /\ p_ordered p = [] /\
                  exists o, p_disp p = DStop o /\ v = match p_err p with Some e => inl e | None => inr o end
              end
}.

Lemma consume_all_app xs ys : forall s err,
  consume_all s err (xs ++ ys) = let '(s, err) := consume_all s err xs in consume_all s err ys.
Proof.
  induction xs as [|x xs IH]; intros s err; cbn [consume_all app]; [done|]. destruct (consume s err (work x)). apply IH.
Qed.

Lemma consume_all_err xs s e : consume_all s (Some e) xs = (s, Some e).
Proof. induction xs as [|x xs IH]; [done|]. exact IH. Qed.

Lemma start_inv : pipe_inv 0 (start sc0 s0).
Proof.
  split; cbn; try done; [lia|by rewrite andb_false_r|lia|]. intros B ->. cbn. lia.
Qed.

Lemma drop_cons n x xs : drop n (items sc0) = x :: xs -> items sc0 !! n = Some x /\ drop (S n) (items sc0) = xs /\ (n < length (items sc0))%nat.
Proof.
  intros Hd. assert (items sc0 !! n = Some x) as Hl.
  { rewrite <- (Nat.add_0_r n), <- lookup_drop, Hd. done. }
  split; [done|]. split; [|by eapply lookup_lt_Some].
  rewrite (drop_S _ x n Hl) in Hd. by injection Hd.
Qed.

Lemma drop_nil n : (n <= length (items sc0))%nat -> drop n (items sc0) = [] -> n = length (items sc0).
Proof. intros Hn Hd. apply (f_equal length) in Hd. rewrite length_drop in Hd. cbn in Hd. lia. Qed.

Lemma take_buf_some fr fr' B : take_buf fr = Some fr' -> bufs = Some B -> fr = S fr'.
Proof. unfold take_buf. intros H ->. destruct fr; [done|]. by injection H as ->. Qed.

Ltac pipe_easy := split; cbn [p_disp p_next p_free p_ordered p_jobs p_busy p_results p_cur p_sink p_err p_cancel p_return
  disp_ok held pending] in *; try done.

Lemma step_inv c p p' : pipe_inv c p -> step p p' -> exists c', pipe_inv c' p'.
Proof.
  intros Hi Hs. destruct Hi as [Io Ic Ik In Id Ij Ir Iv If It]; destruct Hs;
    cbn [p_disp p_next p_free p_ordered p_jobs p_busy p_results p_cur p_sink p_err p_cancel p_return disp_ok held pending] in *.
  - exists c. pipe_easy; [by right|by destruct ret as [?|]; [destruct It as (? & ? & ? & ? & ?)|]].
  - exists c. pipe_easy. by destruct ret as [?|]; [destruct It as (? & ? & ? & ? & ?)|].
  - exists c. pipe_easy; [|by destruct ret as [?|]; [destruct It as (? & ? & ? & ? & ?)|]].
    intros B HB. specialize (If B HB). apply (take_buf_some _ _ B) in H; [lia|done].
  - exists c. pipe_easy; [|by destruct ret as [?|]; [destruct It as (? & ? & ? & ? & ?)|]].
    intros B HB. specialize (If B HB). apply (take_buf_some _ _ B) in H; [lia|done].
  - exists c. pipe_easy; [|by destruct ret as [?|]; [destruct It as (? & ? & ? & ? & ?)|]].
    left. destruct Id as [Hd Ho]. split; [done|]. apply drop_nil; [lia|done].
  - exists c. destruct Id as [Hd Ho]. apply drop_cons in Hd as (Hl & Hd & Hlt).
    pipe_easy; [|lia| | | |].
    + rewrite app_assoc, Io. replace (S n - c)%nat with (n - c + 1)%nat by lia. rewrite seq_app.
      by replace (c + (n - c))%nat with n by lia.
    + split_and!; try done. lia.
    + intros i Hic. destruct (decide (i = n)) as [->|]; [by right; right|].
      destruct (Iv i ltac:(lia)) as [?|[?|[]]]; [by left|by right; left].
    + intros B HB. specialize (If B HB). lia.
    + by destruct ret as [?|]; [destruct It as (? & ? & ? & ? & ?)|].
  - exists c. destruct Id as (Hx & _ & Hd & Ho). cbn [Nat.pred] in Hx.
    pipe_easy.
    + destruct k; cbn [resume disp_ok cont_items cont_outcome] in *; [done|]. left. split; [done|]. apply drop_nil; [lia|done].
    + rewrite <- app_assoc. apply Forall_app in Ij as [? ?]. apply Forall_app. split; [done|]. by constructor.
    + intros i Hic. destruct (Iv i Hic) as [Hin|[?|Hp]].
      * left. rewrite !fmap_app, !elem_of_app in *. naive_solver.
      * by right; left.
      * injection Hp as ->. left. rewrite !fmap_app, !elem_of_app. left. right. by left.
    + intros B HB. specialize (If B HB). destruct k; cbn [resume held]; lia.
    + by destruct ret as [?|]; [destruct It as (? & ? & ? & ? & ?)|].
  - exists c. pipe_easy.
    + cbn [app] in Ij. apply Forall_cons in Ij as [? Ij]. apply Forall_app in Ij as [? ?]. rewrite app_assoc. apply Forall_app. split; [by apply Forall_app|by constructor].
    + intros i' Hic. destruct (Iv i' Hic) as [Hin|?]; [|by right]. left.
      rewrite !fmap_app, !elem_of_app in *. cbn [fmap list_fmap fst] in Hin |- *. rewrite !elem_of_cons in *. naive_solver.
  - exists c. pipe_easy.
    + rewrite !Forall_app, Forall_cons in Ij. rewrite !Forall_app. naive_solver.
    + intros i' r Hr. rewrite lookup_insert in Hr. case_decide as Hd; [|by apply Ir].
      subst. injection Hr as <-. exists x. split; [|done]. rewrite !Forall_app, Forall_cons in Ij. by destruct Ij as (_ & _ & ? & _).
    + intros i' Hic. destruct (decide (i' = i)) as [->|Hne]; [right; left; rewrite lookup_insert_eq; by eexists|].
      destruct (Iv i' Hic) as [Hin|[?|?]].
      * left. rewrite !fmap_app, !elem_of_app in *. cbn [fmap list_fmap fst] in Hin. rewrite elem_of_cons in Hin. naive_solver.
      * right; left. by rewrite lookup_insert_ne.
      * by right; right.
  - exists c. pipe_easy. destruct ret as [?|]; [by destruct It as (? & ? & _)|done].
  - exists (S c). cbn [option_list app] in Io.
    assert (i = c /\ o = seq (S c) (n - S c) /\ (c < n)%nat) as (-> & -> & Hlt).
    { destruct (n - c)%nat as [|m] eqn:En; [done|]. cbn [seq] in Io. injection Io as -> ->. split_and!; [done| |lia]. f_equal. lia. }
    apply Ir in H as (x & Hx & ->). pipe_easy.
    + lia.
    + rewrite (take_S_r _ _ x) by done. rewrite consume_all_app, Ik. cbn [consume_all]. by rewrite H0.
    + rewrite In. destruct e as [e|]; cbn [consume] in H0.
      * injection H0 as <- <-. destruct cancels; [|done]. by rewrite !bool_decide_eq_true_2 by (by eexists).
      * rewrite (bool_decide_eq_false_2 (is_Some None)) by (by intros [? [=]]). rewrite andb_false_r. cbn [orb]. f_equal.
        destruct e'; [by rewrite bool_decide_eq_true_2 by (by eexists)|]. by rewrite bool_decide_eq_false_2 by (by intros [? [=]]).
    + destruct d; try done. destruct Id as [?|[? ->]]; [by left|by right].
    + intros i r Hr. apply lookup_delete_Some in Hr as [_ Hr]. by apply Ir.
    + intros i Hic. destruct (Iv i ltac:(lia)) as [?|[?|?]]; [by left| |by right; right]. right; left. rewrite lookup_delete_ne by lia. done.
    + intros B HB. specialize (If B HB). unfold give_buf. rewrite HB. lia.
    + destruct ret as [?|]; [by destruct It as (? & _)|done].
  - exists c. pipe_easy. split_and!; try done. by eexists.
Qed.

Lemma reachable_inv p : reachable sc0 s0 p -> exists c, pipe_inv c p.
Proof.
  unfold reachable. intros Hr. revert p Hr. apply rtc_ind_r; [by exists 0%nat; apply start_inv|].
  intros p1 p2 _ Hs [c Hi]. by eapply step_inv.
Qed.

(** ** Progress *)

Context (Hworkers : (0 < workers)%nat) (Hcap : (0 < cap)%nat) (Hbufs : forall B, bufs = Some B -> (0 < B)%nat).

(** While a job is queued or being worked on, some worker can move. *)
Lemma worker_moves p : p_jobs p ++ p_busy p <> [] -> exists p', step p p'.
Proof.
  destruct p as [d n fr o j b rs c s e cn ret]. cbn [p_jobs p_busy]. intros Hne.
  destruct b as [|[i x] b]; [|eexists; apply (step_work d i x n fr o j [] b)].
  destruct j as [|[i x] j]; [done|]. eexists. apply step_take. done.
Qed.

Lemma elem_nonempty i (l : list (nat * A)) : i ∈ fst <$> l -> l <> [].
Proof. intros Hi ->. by apply elem_of_nil in Hi. Qed.

(** The caller waiting for result [c] is never stuck. *)
Lemma waiting_moves c p i : pipe_inv c p -> p_cur p = Some i -> exists p', step p p'.
Proof.
  intros Hi Hc. pose proof (pi_order _ _ Hi) as Ho. rewrite Hc in Ho. cbn [option_list app] in Ho.
  assert (i = c /\ (c < p_next p)%nat) as [-> Hlt].
  { destruct (p_next p - c)%nat as [|m] eqn:En; [done|]. cbn [seq] in Ho. injection Ho as -> _. split; [done|lia]. }
  destruct (pi_covered _ _ Hi c ltac:(lia)) as [Hin|[[r Hr]|Hp]].
  - apply worker_moves. by eapply elem_nonempty.
  - destruct p as [d n fr o j b rs c0 s e cn ret]. cbn [p_cur p_results] in *. subst c0.
    destruct (consume s e r) as [s' e'] eqn:Ec. eexists. by eapply step_consume.
  - destruct p as [d n fr o j b rs c0 s e cn ret]. cbn [p_disp p_next] in Hp. destruct d; try done. cbn in Hp. subst n.
    destruct j as [|x0 j]; [eexists; by apply step_job|]. apply worker_moves. done.
Qed.

Lemma progress c p : pipe_inv c p -> p_return p = None -> exists p', step p p'.
Proof.
  intros Hi Hret. destruct (p_cur p) as [i|] eqn:Hc; [by eapply waiting_moves|].
  destruct (p_ordered p) as [|i o] eqn:Ho.
  2:{ destruct p as [d n fr o' j b rs c0 s e cn ret]. cbn in *. subst. eexists. apply step_receive. }
  destruct (p_jobs p ++ p_busy p) as [|j0 js] eqn:Hj; [|apply worker_moves; by rewrite Hj].
  apply app_eq_nil in Hj as [Hj Hb]. pose proof (pi_order _ _ Hi) as Hord. rewrite Hc, Ho in Hord. cbn [option_list app] in Hord.
  assert (p_next p = c) as Hn.
  { pose proof (pi_count _ _ Hi). destruct (p_next p - c)%nat as [|m] eqn:En; [lia|done]. }
  assert (exists f, take_buf (p_free p) = Some f \/ held (p_disp p) = 1%nat) as [f Hf].
  { unfold take_buf. pose proof (pi_free _ _ Hi) as Hfr. destruct bufs as [B|]; [|by eexists; left].
    specialize (Hfr B eq_refl). specialize (Hbufs B eq_refl). destruct (p_free p) as [|f]; [|by exists f; left].
    exists 0%nat. right. destruct (p_disp p); cbn [held] in *; lia. }
  destruct p as [d n fr o' j b rs c0 s e cn ret]. cbn in *. subst.
  destruct d as [sc|sc|x k|x k|out].
  - destruct cn; eexists; [apply step_cancel|apply step_loop].
  - destruct Hf as [Hf|]; [|done]. destruct sc; eexists; [by eapply step_item|by eapply step_last|by eapply step_stop].
  - eexists. apply step_ordered. done.
  - destruct (pi_disp _ _ Hi) as (_ & Hpos & _). cbn [p_next] in Hpos. destruct c as [|c]; [lia|]. eexists. apply step_job. done.
  - eexists. apply step_return.
Qed.

(** ** Termination *)

Fixpoint script_size (sc : script A Out) : nat :=
  match sc with Item _ rest => S (script_size rest) | Last _ _ => 1 | Stop _ => 0 end.

Definition cont_weight (k : cont) : nat := match k with Again sc => 10 * script_size sc + 3 | Halt _ => 0 end.

Definition disp_weight (d : dispatcher) : nat :=
  match d with
  | DLoop sc => 10 * script_size sc + 3
  | DGet sc => 10 * script_size sc + 2
  | DOrdered _ k => cont_weight k + 8
  | DJob _ k => cont_weight k + 5
  | DStop _ => 0
  end.

(** Every channel operation brings the pipeline closer to its end. *)
Definition weight (p : pipe) : nat :=
  disp_weight (p_disp p) + 3 * length (p_jobs p) + 2 * length (p_busy p) + 2 * length (p_ordered p) +
  match p_cur p with Some _ => 1 | None => 0 end + match p_return p with None => 1 | Some _ => 0 end.

Lemma step_weight p p' : step p p' -> (weight p' < weight p)%nat.
Proof.
  destruct 1; unfold weight;
    cbn [p_disp p_jobs p_busy p_ordered p_cur p_return disp_weight script_size cont_weight length];
    rewrite ?length_app; cbn [length]; try lia.
  destruct k; cbn [resume disp_weight cont_weight]; lia.
Qed.

Lemma returned_is_sequential c p v : pipe_inv c p -> p_return p = Some v -> (p_sink p, v) = sequential sc0 s0.
Proof.
  intros [Io Ic Ik In Id Ij Ir Iv If It] Hv. rewrite Hv in It. destruct It as (Hcur & Ho & o & Hd & ->).
  rewrite Hcur, Ho in Io. rewrite Hd in Id. cbn [option_list app disp_ok] in *. unfold sequential.
  rewrite <- (take_drop c (items sc0)), consume_all_app, Ik. destruct (p_err p) as [e|]; [by rewrite consume_all_err|].
  rewrite (bool_decide_eq_false_2 (is_Some None)) in In by (by intros [? [=]]). rewrite andb_false_r in In.
  destruct Id as [[-> Hn]|[_ Hc]]; [|by rewrite In in Hc].
  assert (p_next p = c) as Hnc by (destruct (p_next p - c)%nat eqn:En; [lia|done]).
  rewrite drop_ge by lia. done.
Qed.

(** Every run from the start can be continued to a return, and wherever it returns, it
    returns what the sequential loop returns. *)
Lemma pipeline_correct p : reachable sc0 s0 p ->
  (exists p' v, rtc step p p' /\ p_return p' = Some v) /\
  (forall v, p_return p = Some v -> (p_sink p, v) = sequential sc0 s0) /\
  (p_return p = None -> exists p', step p p').
Proof.
  intros Hr. split; [|split].
  - revert Hr. induction (Wf_nat.well_founded_ltof _ weight p) as [p _ IH]. intros Hr.
    destruct (p_return p) as [v|] eqn:Hret; [by exists p, v|]. pose proof (reachable_inv p Hr) as [c Hi].
    destruct (progress c p Hi Hret) as [p1 Hs]. destruct (IH p1) as (p' & v & Hrt & Hv).
    + by apply step_weight.
    + by eapply rtc_r.
    + exists p', v. split; [by eapply rtc_l|done].
  - intros v Hv. destruct (reachable_inv p Hr) as [c Hi]. by eapply returned_is_sequential.
  - intros Hret. destruct (reachable_inv p Hr) as [c Hi]. by eapply progress.
Qed.
End Pipeline.
