(* ===== verification/Pipelines.v ===== *)
(** * The encryption and decryption pipelines (io/pipeline.go, io/mmap_pipeline.go,
    io/decrypt_pipeline.go)

    The scripts the dispatchers follow on a given input and randomness, the instances of
    the worker pipeline of Pipeline.v, and their equality with the sequential loops of
    Frames.v and Extractor.v. *)

From stdpp Require Import gmap relations.
From S2P Require Import Prelude Bytes Metadata IndexCodec Directory Solid Crypto Codec Frames Checksum Writer Recipients.
From S2P Require Import IOErrors SolidPlan Extractor Pipeline.
Open Scope go_scope.

Definition pipelineDepth : nat := 4.
Definition parallelPipelineDepth : nat := 4.
Definition decryptPipelineDepth : nat := 4.

Definition errDispatchCanceled : error := mk_error ErrOther "encryption pipeline canceled after write failure".

Section Encrypt.
Context `{C : Crypto} `{ZS : Zstd}.

(** A chunk of plaintext with the nonce drawn for it. *)
Record chunk_job := mk_job { cj_nonce : bytes; cj_plaintext : bytes }.

Definition seal_job (fb : FrameBuilder) (j : chunk_job) : DataBlock :=
  EncryptChunkWithNonceInto fb (cj_nonce j) (cj_plaintext j).

(** The dispatcher of [encryptAndStreamParallel] on a reader that yields [data] and then
    EOF, or the error [fin]; [read] is what has gone into the running HMAC. *)
Fixpoint chunk_script (fuel : nat) (fb : FrameBuilder) (hmacKey read data : bytes) (fin : option error) (r : rng) :
  script chunk_job (result bytes) :=
  match fuel with
  | O => Stop (errorf ErrOther "out of fuel")
  | S fuel =>
      let '(size, r) := NextChunkSize r in
      let chunk := ztake size data in
      let stop := match fin with Some e => Err e | None => Ok (ComputeHMAC hmacKey (read ++ chunk)) end in
      if 0 <? len chunk then
        let '(nonce, r) := NextNonce r in
        if len chunk <? size then Last (mk_job nonce chunk) stop
        else Item (mk_job nonce chunk) (chunk_script fuel fb hmacKey (read ++ chunk) (zdrop size data) fin r)
      else Stop stop
  end.

(** The dispatcher of [encryptAndStreamMmap] on a mapped file. *)
Fixpoint mmap_script (fuel : nat) (hmacKey read data : bytes) (r : rng) : script chunk_job (result bytes) :=
  match fuel with
  | O => Stop (Ok (ComputeHMAC hmacKey read))
  | S fuel =>
      if negb (0 <? len data) then Stop (Ok (ComputeHMAC hmacKey read))
      else
        let '(size, r) := NextChunkSize r in
        let size := if len data <? size then len data else size in
        let chunk := ztake size data in
        let rest := zdrop size data in
        let '(nonce, r) := NextNonce r in
        if 0 <? len rest then Item (mk_job nonce chunk) (mmap_script fuel hmacKey (read ++ chunk) rest r)
        else Last (mk_job nonce chunk) (Ok (ComputeHMAC hmacKey (read ++ chunk)))
  end.

(** [encryptMmapSequential]: the blocks, sent one by one until [send] fails. *)
Fixpoint encryptMmapSequential {St Er} (send : St -> DataBlock -> St + Er) (fuel : nat) (fb : FrameBuilder)
  (hmacKey read data : bytes) (r : rng) (s : St) : St * (Er + result bytes) :=
  match fuel with
  | O => (s, inr (Ok (ComputeHMAC hmacKey read)))
  | S fuel =>
      if negb (0 <? len data) then (s, inr (Ok (ComputeHMAC hmacKey read)))
      else
        let '(size, r) := NextChunkSize r in
        let size := if len data <? size then len data else size in
        let chunk := ztake size data in
        let '(nonce, r) := NextNonce r in
        match send s (EncryptChunkWithNonceInto fb nonce chunk) with
        | inr e => (s, inl e)
        | inl s => encryptMmapSequential send fuel fb hmacKey (read ++ chunk) (zdrop size data) r s
        end
  end.

(** ** The scripts and the sequential loops see the same blocks *)

Lemma NextChunkSize_pos r n r' : NextChunkSize r = (n, r') -> 1 <= n.
Proof. unfold NextChunkSize. intros H. apply next_size_range in H; [|done]. unfold BaseBlockSize, BlockVariance in *. lia. Qed.

Lemma short_chunk size (data : bytes) : 0 <= size -> len (ztake size data) < size -> ztake size data = data.
Proof. unfold ztake, len. intros Hn H. apply take_ge. rewrite length_take in H. lia. Qed.

Lemma chunk_script_blocks fb hmacKey fin : forall fuel data read r, (length data < fuel)%nat ->
  map (seal_job fb) (items (chunk_script fuel fb hmacKey read data fin r)) = fst (chunk_loop fuel fb data r) /\
  outcome (chunk_script fuel fb hmacKey read data fin r) =
    match fin with Some e => Err e | None => Ok (ComputeHMAC hmacKey (read ++ data)) end.
Proof.
  induction fuel as [|fuel IH]; intros data read r Hf; [lia|]. cbn [chunk_script chunk_loop].
  destruct (NextChunkSize r) as [size r1] eqn:Es. apply NextChunkSize_pos in Es.
  pose proof (len_nonneg (ztake size data)).
  destruct (Z.ltb_spec 0 (len (ztake size data))) as [Hp|Hp].
  - unfold EncryptChunk, EncryptBlock, NextNonce. destruct (draw NonceSize r1) as [nonce r2].
    destruct (Z.ltb_spec (len (ztake size data)) size) as [Hs|Hs]; cbn [items outcome map].
    + rewrite (short_chunk size data) by lia. done.
    + pose proof (len_ztake_le size data).
      destruct (IH (zdrop size data) (read ++ ztake size data) r2) as [Hb Ho];
        [unfold zdrop, len in *; rewrite length_drop; lia|].
      rewrite Hb, Ho, <- app_assoc, ztake_zdrop. by destruct (chunk_loop fuel fb (zdrop size data) r2).
  - destruct (Z.ltb_spec (len (ztake size data)) size) as [Hs|Hs]; [|lia]. cbn [items outcome map fst].
    assert (data = []) as ->; [|unfold ztake; by rewrite take_nil]. rewrite (short_chunk size data) in Hp by lia. apply len_0_nil. len_lia.
Qed.

Lemma mmap_script_blocks fb hmacKey : forall fuel data read r, (length data <= fuel)%nat ->
  map (seal_job fb) (items (mmap_script fuel hmacKey read data r)) = fst (payload_loop fuel fb data r) /\
  outcome (mmap_script fuel hmacKey read data r) = Ok (ComputeHMAC hmacKey (read ++ data)).
Proof.
  induction fuel as [|fuel IH]; intros data read r Hf; cbn [mmap_script payload_loop].
  - destruct data; [|cbn in Hf; lia]. by rewrite app_nil_r.
  - destruct (Z.ltb_spec 0 (len data)) as [Hp|Hp]; cbn [negb].
    2:{ rewrite (len_0_nil data) by len_lia. by rewrite app_nil_r. }
    destruct (NextChunkSize r) as [size r1] eqn:Es. apply NextChunkSize_pos in Es.
    assert ((if len data <? size then len data else size) = Z.min size (len data)) as ->
      by (destruct (Z.ltb_spec (len data) size); lia).
    cbv zeta. set (n := Z.min size (len data)). assert (1 <= n <= len data) by (unfold n; lia).
    unfold EncryptChunk, EncryptBlock, NextNonce. destruct (draw NonceSize r1) as [nonce r2].
    destruct (IH (zdrop n data) (read ++ ztake n data) r2) as [Hb Ho]; [unfold zdrop, len in *; rewrite length_drop; lia|].
    rewrite <- app_assoc, ztake_zdrop in Ho.
    destruct (Z.ltb_spec 0 (len (zdrop n data))) as [Hr|Hr]; cbn [items outcome map].
    + rewrite Hb. split; [|done]. by destruct (payload_loop fuel fb (zdrop n data) r2).
    + assert (zdrop n data = []) as Hz by (apply len_0_nil; len_lia).
      pose proof (ztake_zdrop n data) as Hd. rewrite Hz, app_nil_r in Hd. rewrite Hz. split.
      * destruct fuel; [done|]. cbn [payload_loop]. reflexivity.
      * by rewrite Hd.
Qed.

(** The loop that stops at a short read and the one that stops at the end of the data
    cut and seal the data in the same way. *)
Lemma loops_agree fb : forall fuel data r, (length data <= fuel)%nat ->
  fst (payload_loop fuel fb data r) = fst (chunk_loop (S fuel) fb data r).
Proof.
  induction fuel as [|fuel IH]; intros data r Hf.
  - destruct data; [|cbn in Hf; lia]. cbn [payload_loop chunk_loop]. destruct (NextChunkSize r) as [size r1] eqn:Es. apply NextChunkSize_pos in Es.
    unfold ztake. rewrite take_nil. change (len (@nil byte)) with 0. by rewrite (proj2 (Z.ltb_lt 0 size)) by lia.
  - cbn [payload_loop]. remember (S fuel) as f1 eqn:Hf1. cbn [chunk_loop].
    destruct (Z.ltb_spec 0 (len data)) as [Hp|Hp]; cbn [negb].
    2:{ rewrite (len_0_nil data) by len_lia. destruct (NextChunkSize r) as [size r1] eqn:Es. apply NextChunkSize_pos in Es.
        unfold ztake. rewrite take_nil. change (len (@nil byte)) with 0. by rewrite (proj2 (Z.ltb_lt 0 size)) by lia. }
    destruct (NextChunkSize r) as [size r1] eqn:Es. apply NextChunkSize_pos in Es. cbv zeta.
    destruct (Z.ltb_spec (len data) size) as [Hs|Hs].
    + rewrite (Z.min_r size) by lia. rewrite (ztake_all (len data)) by done. rewrite (zdrop_all (len data)) by done.
      assert (ztake size data = data) as -> by (unfold ztake, len in *; apply take_ge; lia).
      rewrite (proj2 (Z.ltb_lt 0 (len data))) by done. rewrite (proj2 (Z.ltb_lt (len data) size)) by done.
      destruct (EncryptChunk fb data r1) as [b r2]. by destruct fuel.
    + rewrite (Z.min_l size) by lia. assert (len (ztake size data) = size) as Hl by (rewrite len_ztake; lia).
      rewrite Hl, Z.ltb_irrefl, (proj2 (Z.ltb_lt 0 size)) by lia. destruct (EncryptChunk fb _ r1) as [b r2].
      pose proof (IH (zdrop size data) r2) as IH'.
      destruct (payload_loop fuel fb (zdrop size data) r2), (chunk_loop f1 fb (zdrop size data) r2). cbn [fst app] in *. f_equal.
      apply IH'. unfold zdrop, len in *. rewrite length_drop. lia.
Qed.

(** ** The parallel pipelines *)

Context {St Er : Type} (send : St -> DataBlock -> St + Er).

(** Sending blocks in order up to the first failure. *)
Fixpoint send_blocks (s : St) (bs : list DataBlock) : St * option Er :=
  match bs with
  | [] => (s, None)
  | b :: bs => match send s b with inl s => send_blocks s bs | inr e => (s, Some e) end
  end.

(** What the caller gets: the first send error, or the outcome of reading. *)
Definition stream_outcome (s : St) (bs : list DataBlock) (o : result bytes) : St * (Er + result bytes) :=
  let '(s, e) := send_blocks s bs in (s, match e with Some e => inl e | None => inr o end).

Lemma consume_all_send fb xs : forall s,
  consume_all (seal_job fb) send s None xs = send_blocks s (map (seal_job fb) xs).
Proof.
  induction xs as [|x xs IH]; intros s; cbn [consume_all send_blocks map consume]; [done|].
  destruct (send s (seal_job fb x)) as [s'|e]; [apply IH|]. apply consume_all_err.
Qed.

Lemma sequential_send fb sc s : sequential (seal_job fb) send sc s = stream_outcome s (map (seal_job fb) (items sc)) (outcome sc).
Proof. unfold sequential, stream_outcome. by rewrite consume_all_send. Qed.

(** [encryptAndStreamParallel] and [encryptAndStreamMmap] with [workers] >= 2: a free list
    of [workers*parallelPipelineDepth] buffers, channels of the same capacity, and a send
    error that cancels the dispatcher. *)
Definition encrypt_step (fb : FrameBuilder) (workers : nat) :=
  step (seal_job fb) send (Err errDispatchCanceled : result bytes) workers (workers * parallelPipelineDepth)
    (Some (workers * parallelPipelineDepth)%nat) true.

Definition encrypt_start (workers : nat) (sc : script chunk_job (result bytes)) (s : St) : pipe :=
  start (R := DataBlock) (Er := Er) (Some (workers * parallelPipelineDepth)%nat) sc s.

Lemma encrypt_pipeline fb workers sc s p : (2 <= workers)%nat -> rtc (encrypt_step fb workers) (encrypt_start workers sc s) p ->
  (exists p' v, rtc (encrypt_step fb workers) p p' /\ p_return p' = Some v) /\
  (forall v, p_return p = Some v -> (p_sink p, v) = stream_outcome s (map (seal_job fb) (items sc)) (outcome sc)) /\
  (p_return p = None -> exists p', encrypt_step fb workers p p').
Proof.
  intros Hw Hr. rewrite <- sequential_send. apply (pipeline_correct _ _ _ _ _ _ _ sc s); [lia|unfold parallelPipelineDepth; lia| |exact Hr].
  unfold parallelPipelineDepth. intros B [= <-]. lia.
Qed.

(** C21. Parallel encryption is sequential encryption. Under every interleaving of the
    dispatcher, the workers and the caller, [encryptAndStreamParallel] never deadlocks,
    every run can be finished, and it returns exactly what the sequential loop gives: the
    same blocks sent in the same order, the HMAC of the whole input, or the first send
    error, or the read error. *)
Theorem parallel_encryption (fb : FrameBuilder) (workers : nat) (hmacKey data : bytes) (fin : option error) (r : rng) (s : St)
  (p : pipe) (Hw : (2 <= workers)%nat)
  (Hr : rtc (encrypt_step fb workers)
          (encrypt_start workers (chunk_script (S (length data)) fb hmacKey [] data fin r) s) p) :
  (exists p' v, rtc (encrypt_step fb workers) p p' /\ p_return p' = Some v) /\
  (forall v, p_return p = Some v -> (p_sink p, v) =
     stream_outcome s (fst (chunk_loop (S (length data)) fb data r))
       (match fin with Some e => Err e | None => Ok (ComputeHMAC hmacKey data) end)) /\
  (p_return p = None -> exists p', encrypt_step fb workers p p').
Proof.
  destruct (chunk_script_blocks fb hmacKey fin (S (length data)) data [] r) as [Hb Ho]; [lia|].
  destruct (encrypt_pipeline fb workers _ s p Hw Hr) as (Hend & Hv & Hp). rewrite Hb, Ho in Hv. done.
Qed.

Lemma encryptMmapSequential_eq fb hmacKey : forall fuel data read r s,
  encryptMmapSequential send fuel fb hmacKey read data r s =
  let sc := mmap_script fuel hmacKey read data r in stream_outcome s (map (seal_job fb) (items sc)) (outcome sc).
Proof.
  induction fuel as [|fuel IH]; intros data read r s; cbn [encryptMmapSequential mmap_script]; [done|].
  destruct (negb _); [done|]. destruct (NextChunkSize r) as [size r1]. cbv zeta. set (n := if len data <? size then len data else size).
  destruct (NextNonce r1) as [nonce r2]. cbn [cj_nonce cj_plaintext].
  destruct (Z.ltb_spec 0 (len (zdrop n data))) as [Hr|Hr]; cbn [items outcome map]; unfold stream_outcome; cbn [send_blocks].
  - change (seal_job fb (mk_job nonce (ztake n data))) with (EncryptChunkWithNonceInto fb nonce (ztake n data)).
    destruct (send s _) as [s'|e]; [|done]. rewrite IH. done.
  - change (seal_job fb (mk_job nonce (ztake n data))) with (EncryptChunkWithNonceInto fb nonce (ztake n data)).
    destruct (send s _) as [s'|e]; [|done]. rewrite (len_0_nil (zdrop n data)) by len_lia. by destruct fuel.
Qed.

(** Memory-mapped encryption gives the same archive. For a mapped file, whatever the
    number of workers and the interleaving, the blocks sent are those of the buffered
    pipelines on the same bytes, and nothing deadlocks. *)
Theorem mmap_encryption (fb : FrameBuilder) (workers : nat) (hmacKey data : bytes) (r : rng) (s : St) (p : pipe)
  (Hw : (2 <= workers)%nat)
  (Hr : rtc (encrypt_step fb workers) (encrypt_start workers (mmap_script (length data) hmacKey [] data r) s) p) :
  let result := stream_outcome s (fst (chunk_loop (S (length data)) fb data r)) (Ok (ComputeHMAC hmacKey data)) in
  (exists p' v, rtc (encrypt_step fb workers) p p' /\ p_return p' = Some v) /\
  (forall v, p_return p = Some v -> (p_sink p, v) = result) /\
  (p_return p = None -> exists p', encrypt_step fb workers p p') /\
  encryptMmapSequential send (length data) fb hmacKey [] data r s = result.
Proof.
  destruct (mmap_script_blocks fb hmacKey (length data) data [] r) as [Hb Ho]; [lia|].
  destruct (encrypt_pipeline fb workers _ s p Hw Hr) as (Hend & Hv & Hp).
  rewrite Hb, Ho, loops_agree in Hv by lia. cbv zeta. split; [done|]. split; [done|]. split; [done|].
  rewrite encryptMmapSequential_eq. cbv zeta. by rewrite Hb, Ho, loops_agree by lia.
Qed.
End Encrypt.

(** ** Decryption *)

Section Decrypt.
Context `{C : Crypto} `{ZS : Zstd}.
Context {St : Type} (sink : St -> bytes -> option St) (fileKey : bytes) (codec : Z).

(** What the block reader [next] delivers, with its error at the end, if any. *)
Fixpoint block_script (bs : list EncryptedBlock) (readErr : option ArchiveError) : script EncryptedBlock (option ArchiveError) :=
  match bs with [] => Stop readErr | b :: bs => Item b (block_script bs readErr) end.

(** The caller's handling of a decrypt result. *)
Definition result_sink (s : St) (r : bytes + block_error) : St + block_error :=
  match r with
  | inr e => inr e
  | inl pt => match sink s pt with Some s => inl s | None => inr BlockSink end
  end.

(** [decryptBlocksParallel] with [workers] >= 2: no free list, and a failure leaves the
    dispatcher running so that the stream is drained. *)
Definition decrypt_step (workers : nat) :=
  step (open_block fileKey codec) result_sink (None : option ArchiveError) workers (workers * decryptPipelineDepth) None false.

Definition decrypt_start (bs : list EncryptedBlock) (readErr : option ArchiveError) (s : St) :=
  start (R := bytes + block_error) (Er := block_error) None (block_script bs readErr) s.

(** [decryptBlocksSequential]: [inl] a decrypt or sink error, [inr] what [next] reported. *)
Fixpoint decryptBlocksSequential (bs : list EncryptedBlock) (readErr : option ArchiveError) (s : St)
  (firstErr : option block_error) : St * (block_error + option ArchiveError) :=
  match bs with
  | [] => (s, match readErr with
              | Some e => inr (Some e)
              | None => match firstErr with Some e => inl e | None => inr None end
              end)
  | b :: bs =>
      match firstErr with
      | Some e => decryptBlocksSequential bs readErr s firstErr
      | None =>
          match open_block fileKey codec b with
          | inr e => decryptBlocksSequential bs readErr s (Some e)
          | inl pt => match sink s pt with
                      | Some s => decryptBlocksSequential bs readErr s None
                      | None => decryptBlocksSequential bs readErr s (Some BlockSink)
                      end
          end
      end
  end.

(** The error mapping at the end of [streamDataBlocks]. *)
Definition stream_error (readErr : option ArchiveError) (v : block_error + option ArchiveError) : option ArchiveError :=
  match v with
  | inr None => None
  | inr (Some e) => match readErr with Some e => Some e | None => Some e end
  | inl e => match readErr with
             | Some e => Some e
             | None => Some (match e with
                             | BlockSink => recoverable ErrCodeWriteFailed "write file"
                             | BlockDecompress => recoverable ErrCodeIntegrityFail "decompress block"
                             | BlockAuth => recoverable ErrCodeAuthFailed "decrypt block"
                             end)
             end
  end.

Lemma block_script_items bs readErr : items (block_script bs readErr) = bs /\ outcome (block_script bs readErr) = readErr.
Proof. induction bs as [|b bs [IHi IHo]]; cbn [block_script items outcome]; [done|]. by rewrite IHi, IHo. Qed.

Lemma consume_all_deliver bs : forall s,
  consume_all (open_block fileKey codec) result_sink s None bs = deliver sink fileKey codec s bs.
Proof.
  induction bs as [|b bs IH]; intros s; cbn [consume_all deliver consume]; [done|]. unfold result_sink.
  destruct (open_block fileKey codec b) as [pt|e]; [|apply consume_all_err].
  destruct (sink s pt) as [s'|]; [apply IH|apply consume_all_err].
Qed.

Lemma sequential_after_error bs readErr e : forall s, decryptBlocksSequential bs readErr s (Some e) =
  (s, match readErr with Some e => inr (Some e) | None => inl e end).
Proof. induction bs as [|b bs IH]; intros s; cbn [decryptBlocksSequential]; [by destruct readErr|apply IH]. Qed.

Lemma sequential_deliver bs readErr : forall s, decryptBlocksSequential bs readErr s None =
  let '(s, firstErr) := deliver sink fileKey codec s bs in
  (s, match readErr with Some e => inr (Some e) | None => match firstErr with Some e => inl e | None => inr None end end).
Proof.
  induction bs as [|b bs IH]; intros s; cbn [decryptBlocksSequential deliver]; [done|].
  destruct (open_block fileKey codec b) as [pt|e]; [|by rewrite sequential_after_error; destruct readErr].
  destruct (sink s pt) as [s'|]; [apply IH|]. by rewrite sequential_after_error; destruct readErr.
Qed.

(** C22. Parallel decryption is sequential decryption. Under every interleaving,
    [decryptBlocksParallel] never deadlocks and every run can be finished; the plaintext
    handed to the sink and the error [streamDataBlocks] reports are those of the
    single-goroutine [decryptBlocksSequential] and of the extractor's model. *)
Theorem parallel_decryption (workers : nat) (s0 : St) (s : bytes) (p : pipe) (Hw : (2 <= workers)%nat) :
  let '(bs, readErr, rest) := read_blocks (S (length s)) s in
  rtc (decrypt_step workers) (decrypt_start bs readErr s0) p ->
  (exists p' v, rtc (decrypt_step workers) p p' /\ p_return p' = Some v) /\
  (p_return p = None -> exists p', decrypt_step workers p p') /\
  (forall v, p_return p = Some v ->
     streamDataBlocks sink fileKey codec s0 s = (p_sink p, stream_error readErr v, rest) /\
     let '(st, v') := decryptBlocksSequential bs readErr s0 None in
     st = p_sink p /\ stream_error readErr v' = stream_error readErr v).
Proof.
  destruct (read_blocks (S (length s)) s) as [[bs readErr] rest] eqn:Er. intros Hr.
  destruct (pipeline_correct (open_block fileKey codec) result_sink (None : option ArchiveError) workers
    (workers * decryptPipelineDepth) None false (block_script bs readErr) s0 ltac:(lia)
    ltac:(unfold decryptPipelineDepth; lia) ltac:(done) p Hr) as (Hend & Hv & Hp).
  split; [done|]. split; [done|]. intros v Ev. apply Hv in Ev. unfold sequential in Ev.
  destruct (block_script_items bs readErr) as [Hi Ho]. rewrite Hi, Ho, consume_all_deliver in Ev.
  unfold streamDataBlocks. rewrite Er. rewrite sequential_deliver.
  destruct (deliver sink fileKey codec s0 bs) as [st firstErr]. injection Ev as -> ->.
  destruct firstErr as [e|], readErr as [re|]; cbn; try destruct e; done.
Qed.

(** The two decryption loops differ in one case the comment on the sequential one
    denies: when a block fails and the stream is malformed later on, the sequential loop
    returns the read error and the parallel one the block's error. *)
Theorem decrypt_errors_differ (workers : nat) (bs : list EncryptedBlock) (re : ArchiveError) (s0 : St) (e : block_error)
  (p : pipe) (v : block_error + option ArchiveError) (Hw : (2 <= workers)%nat)
  (He : snd (deliver sink fileKey codec s0 bs) = Some e)
  (Hr : rtc (decrypt_step workers) (decrypt_start bs (Some re) s0) p) (Hv : p_return p = Some v) :
  v = inl e /\ snd (decryptBlocksSequential bs (Some re) s0 None) = inr (Some re).
Proof.
  destruct (pipeline_correct (open_block fileKey codec) result_sink (None : option ArchiveError) workers
    (workers * decryptPipelineDepth) None false (block_script bs (Some re)) s0 ltac:(lia)
    ltac:(unfold decryptPipelineDepth; lia) ltac:(done) p Hr) as (_ & Hs & _).
  apply Hs in Hv. unfold sequential in Hv. destruct (block_script_items bs (Some re)) as [Hi Ho].
  rewrite Hi, consume_all_deliver in Hv. rewrite sequential_deliver.
  destruct (deliver sink fileKey codec s0 bs) as [st fe]. cbn [snd] in He. subst fe. by injection Hv as _ ->.
Qed.
End Decrypt.

(** ** The two-stage pipeline *)

Section TwoStage.
Context {J B St Er : Type} {Mac : Type}.
Context (seal : J -> B) (send : St -> B -> St + Er).

(** Where the producer goroutine of [encryptAndStream] is: reading, sending a block,
    sending an error, sending the MAC result, closing the channel, or gone. *)
Inductive producer :=
  | PRead (sc : script J (Mac + Er))
  | PBlock (b : B) (k : script J (Mac + Er) + (Mac + Er))
  | PError (e : Er)
  | PMac (m : Mac + Er)
  | PClose
  | PGone.

(** Where the caller is: ranging over [blockCh], waiting for the MAC after an error, or
    after the channel was closed. *)
Inductive caller := CRange | CFailed (e : Er) | CFinal | CReturned (v : Mac + Er).

Record stages := mk_stages {
  sg_producer : producer;
  sg_blocks : list (B + Er);        (* blockCh, of capacity pipelineDepth *)
  sg_closed : bool;
  sg_mac : option (Mac + Er);       (* macCh, of capacity 1 *)
  sg_caller : caller;
  sg_state : St
}.

Definition after_loop (o : Mac + Er) : producer := match o with inl m => PMac (inl m) | inr e => PError e end.
Definition after_block (k : script J (Mac + Er) + (Mac + Er)) : producer :=
  match k with inl sc => PRead sc | inr o => after_loop o end.

Inductive sstep : stages -> stages -> Prop :=
  | ss_item x sc ch cl m c s : sstep (mk_stages (PRead (Item x sc)) ch cl m c s) (mk_stages (PBlock (seal x) (inl sc)) ch cl m c s)
  | ss_last x o ch cl m c s : sstep (mk_stages (PRead (Last x o)) ch cl m c s) (mk_stages (PBlock (seal x) (inr o)) ch cl m c s)
  | ss_stop o ch cl m c s : sstep (mk_stages (PRead (Stop o)) ch cl m c s) (mk_stages (after_loop o) ch cl m c s)
  | ss_block b k ch cl m c s : (length ch < pipelineDepth)%nat ->
      sstep (mk_stages (PBlock b k) ch cl m c s) (mk_stages (after_block k) (ch ++ [inl b]) cl m c s)
  | ss_error e ch cl m c s : (length ch < pipelineDepth)%nat ->
      sstep (mk_stages (PError e) ch cl m c s) (mk_stages (PMac (inr e)) (ch ++ [inr e]) cl m c s)
  | ss_mac v ch cl c s : sstep (mk_stages (PMac v) ch cl None c s) (mk_stages PClose ch cl (Some v) c s)
  | ss_close ch cl m c s : sstep (mk_stages PClose ch cl m c s) (mk_stages PGone ch true m c s)
  | ss_sent pr b ch cl m s s' : send s b = inl s' ->
      sstep (mk_stages pr (inl b :: ch) cl m CRange s) (mk_stages pr ch cl m CRange s')
  | ss_unsent pr b ch cl m s e : send s b = inr e ->
      sstep (mk_stages pr (inl b :: ch) cl m CRange s) (mk_stages pr ch cl m (CFailed e) s)
  | ss_failed pr e ch cl m s :
      sstep (mk_stages pr (inr e :: ch) cl m CRange s) (mk_stages pr ch cl m (CFailed e) s)
  | ss_drained pr m s : sstep (mk_stages pr [] true m CRange s) (mk_stages pr [] true m CFinal s)
  | ss_return_error pr ch cl v e s :
      sstep (mk_stages pr ch cl (Some v) (CFailed e) s) (mk_stages pr ch cl None (CReturned (inr e)) s)
  | ss_return pr ch cl v s : sstep (mk_stages pr ch cl (Some v) CFinal s) (mk_stages pr ch cl None (CReturned v) s).

Definition sstart (sc : script J (Mac + Er)) (s : St) : stages := mk_stages (PRead sc) [] false None CRange s.

(** Blocks the producer has still to put on the channel. *)
Definition still (pr : producer) : list B :=
  match pr with
  | PRead sc => map seal (items sc)
  | PBlock b (inl sc) => b :: map seal (items sc)
  | PBlock b (inr _) => [b]
  | _ => []
  end.

(** The state of a call whose first send fails with more blocks to come than the channel
    holds: the caller has received nothing, or waits for a MAC that is never sent. *)
Definition doomed (x : J) (s0 : St) (g : stages) : Prop :=
  sg_mac g = None /\ sg_closed g = false /\ (length (sg_blocks g) <= pipelineDepth)%nat /\
  match sg_caller g with
  | CRange => sg_state g = s0 /\ exists bs rest, sg_blocks g = map inl bs /\ bs ++ still (sg_producer g) = seal x :: rest /\
                (pipelineDepth + 1 <= length rest)%nat
  | CFailed _ => (pipelineDepth + 1 <= length (sg_blocks g) + length (still (sg_producer g)))%nat
  | _ => False
  end.

Lemma doomed_moving x s0 g : doomed x s0 g -> still (sg_producer g) <> [].
Proof.
  intros (_ & _ & Hl & Hc) Hs. destruct (sg_caller g); try done; [|rewrite Hs in Hc; cbn [length] in Hc; lia].
  destruct Hc as (_ & bs & rest & Hb & Hr & Hn). rewrite Hb, length_map in Hl. rewrite Hs, app_nil_r in Hr. subst bs. cbn [length] in Hl. lia.
Qed.

Ltac doom := unfold doomed; cbn [sg_mac sg_closed sg_blocks sg_caller sg_state sg_producer still map items after_block] in *.

(** A producer step that keeps channel contents plus blocks to come. *)
Lemma doomed_keeps x s0 pr pr' ch ch' bs' m cl c s : doomed x s0 (mk_stages pr ch cl m c s) ->
  ch' = ch ++ map inl bs' -> still pr = bs' ++ still pr' -> (length ch' <= pipelineDepth)%nat -> doomed x s0 (mk_stages pr' ch' cl m c s).
Proof.
  intros (Hm & Hcl & Hl & Hc) -> Hs Hl'. doom. split; [done|]. split; [done|]. split; [done|]. destruct c; try done.
  - destruct Hc as (Hst & bs & rest & -> & Hr & Hn). split; [done|]. exists (bs ++ bs'), rest. rewrite map_app.
    split; [done|]. split; [|done]. by rewrite <- app_assoc, <- Hs.
  - rewrite length_app, length_map. rewrite Hs, length_app in Hc. lia.
Qed.

Lemma sstep_doomed x s0 e0 g g' : send s0 (seal x) = inr e0 -> doomed x s0 g -> sstep g g' -> doomed x s0 g'.
Proof.
  intros He Hd Hs. pose proof (doomed_moving x s0 g Hd) as Hne. destruct Hs; cbn [sg_producer still items map] in Hne; try done.
  - eapply (doomed_keeps _ _ _ _ ch _ [b]); [exact Hd|done|destruct k as [sc|[mm|ee]]; done|rewrite length_app; cbn [length]; lia].
  - destruct Hd as (_ & _ & _ & Hst & bs & rest & Hb & Hr & _). doom. destruct bs as [|b0 bs]; [done|].
    injection Hb as -> ->. injection Hr as -> _. subst. congruence.
  - destruct Hd as (Hm & Hcl & Hl & Hst & bs & rest & Hb & Hr & Hn). doom. destruct bs as [|b0 bs]; [done|].
    injection Hb as -> ->. injection Hr as -> <-. split; [done|]. split; [done|]. rewrite length_app in Hn.
    cbn [length] in Hl. rewrite length_map in *. split; lia.
  - destruct Hd as (_ & _ & _ & Hst & bs & rest & Hb & _). doom. by destruct bs.
  - destruct Hd as (_ & Hcl & _). done.
  - destruct Hd as (Hm & _). done.
  - destruct Hd as (Hm & _). done.
Qed.

(** C24. A failed write can hang the two-stage pipeline. When sending the first block of a
    file of at least [pipelineDepth + 2] blocks fails, [encryptAndStream] never returns:
    the caller waits on the MAC channel, the producer on the full block channel, in every
    interleaving. *)
Theorem two_stage_hangs (x : J) (sc : script J (Mac + Er)) (s0 : St) (e0 : Er) (g : stages)
  (Hn : (pipelineDepth + 2 <= length (items sc))%nat) (Hx : head (items sc) = Some x) (He : send s0 (seal x) = inr e0)
  (Hr : rtc sstep (sstart sc s0) g) : forall v, sg_caller g <> CReturned v.
Proof.
  assert (doomed x s0 g) as (_ & _ & _ & Hc).
  { revert g Hr. apply rtc_ind_r.
    - unfold sstart. doom. split; [done|]. split; [done|]. split; [cbn; lia|]. split; [done|].
      destruct (items sc) as [|y ys]; [done|]. injection Hx as ->. exists [], (map seal ys). split; [done|]. split; [done|].
      rewrite length_map. cbn [length] in Hn. lia.
    - intros g1 g2 _ Hs Hd. by eapply sstep_doomed. }
  intros v Hv. by rewrite Hv in Hc.
Qed.

(** *** When every send succeeds *)

Fixpoint sends (s : St) (bs : list B) : option St :=
  match bs with [] => Some s | b :: bs => match send s b with inl s => sends s bs | inr _ => None end end.

Definition script_end (pr : producer) : option (Mac + Er) :=
  match pr with
  | PRead sc => Some (outcome sc)
  | PBlock _ (inl sc) => Some (outcome sc)
  | PBlock _ (inr o) => Some o
  | PError e => Some (inr e)
  | PMac m => Some m
  | _ => None
  end.

(** The error the producer has put, or will put, on the block channel. *)
Definition error_sent (pr : producer) (o : Mac + Er) : list (B + Er) :=
  match pr, o with
  | (PMac _ | PClose | PGone), inr e => [inr e]
  | _, _ => []
  end.

(** [sc] is being processed from [s0] and will end in [o]. *)
Definition healthy (total : list B) (s0 : St) (o : Mac + Er) (g : stages) : Prop :=
  exists sent bs, sends s0 sent = Some (sg_state g) /\ sent ++ bs ++ still (sg_producer g) = total /\
  (script_end (sg_producer g) = Some o \/ script_end (sg_producer g) = None) /\
  match sg_caller g with
  | CRange => sg_blocks g = map inl bs ++ error_sent (sg_producer g) o /\
      (sg_mac g = match sg_producer g with PClose | PGone => Some o | _ => None end) /\
      sg_closed g = match sg_producer g with PGone => true | _ => false end
  | CFailed e => bs = [] /\ o = inr e /\ still (sg_producer g) = [] /\ sg_blocks g = [] /\
      match sg_producer g with PMac _ => sg_mac g = None | PClose | PGone => sg_mac g = Some o | _ => False end
  | CFinal => bs = [] /\ (exists m, o = inl m) /\ still (sg_producer g) = [] /\ sg_producer g = PGone /\ sg_mac g = Some o
  | CReturned v => v = o /\ bs = [] /\ still (sg_producer g) = [] /\ match sg_producer g with PClose | PGone => True | _ => False end
  end.

Lemma sends_app s xs ys : sends s (xs ++ ys) = match sends s xs with Some s => sends s ys | None => None end.
Proof. revert s. induction xs as [|x xs IH]; intros s; cbn [sends app]; [done|]. destruct (send s x); [apply IH|done]. Qed.

Ltac healthy_cbn := cbn [sg_mac sg_closed sg_blocks sg_caller sg_state sg_producer still map items after_block script_end
  error_sent outcome after_loop app] in *.

(** Producer steps: [bs'] moves from the blocks to come onto the channel. *)
Lemma healthy_producer total s0 o pr pr' ch ch' bs' m m' cl cl' c s :
  healthy total s0 o (mk_stages pr ch cl m c s) ->
  still pr = bs' ++ still pr' -> (script_end pr' = Some o \/ script_end pr' = None) ->
  match c with
  | CRange => forall bs, ch = map inl bs ++ error_sent pr o ->
      m = match pr with PClose | PGone => Some o | _ => None end -> cl = match pr with PGone => true | _ => false end ->
      ch' = map inl (bs ++ bs') ++ error_sent pr' o /\ m' = match pr' with PClose | PGone => Some o | _ => None end /\
      cl' = match pr' with PGone => true | _ => false end
  | _ => bs' = [] /\ ch' = ch /\ match c, pr, pr' with
         | CFailed _, PMac _, PClose => m' = Some o
         | CFailed _, PClose, PGone | CReturned _, PClose, PGone => m' = m
         | _, _, _ => False
         end
  end -> healthy total s0 o (mk_stages pr' ch' cl' m' c s).
Proof.
  intros (sent & bs & Hs & Ht & He & Hc) Hst He' Hk. unfold healthy. healthy_cbn. exists sent. destruct c as [|e| |v].
  - exists (bs ++ bs'). destruct Hc as (H1 & H2 & H3). destruct (Hk bs H1 H2 H3) as (-> & -> & ->).
    split_and!; try done. by rewrite <- app_assoc, <- Hst.
  - exists bs. destruct Hk as (-> & -> & Hk). destruct Hc as (-> & -> & Hn & -> & Hp). rewrite Hst in *. healthy_cbn.
    split_and!; try done. destruct pr, pr'; try done; congruence.
  - by destruct Hk as (_ & _ & Hk), pr.
  - exists bs. destruct Hk as (-> & -> & Hk). destruct Hc as (-> & -> & Hn & Hp). rewrite Hst in *. healthy_cbn.
    split_and!; try done. by destruct pr, pr'.
Qed.

(** Before the MAC is sent the caller can only be ranging over the blocks. *)
Lemma healthy_ranging total s0 o pr ch cl m c s : healthy total s0 o (mk_stages pr ch cl m c s) ->
  match pr with PRead _ | PBlock _ _ | PError _ => True | _ => False end -> c = CRange.
Proof.
  intros (sent & bs & _ & _ & _ & Hc) Hp. healthy_cbn. destruct c as [|e| |v]; [done| | |]; exfalso.
  - destruct Hc as (_ & _ & _ & _ & Hq). by destruct pr.
  - destruct Hc as (_ & _ & _ & Hq & _). by subst pr.
  - destruct Hc as (_ & _ & _ & Hq). by destruct pr.
Qed.

Lemma healthy_early total s0 o pr pr' ch ch' bs' cl m c s : healthy total s0 o (mk_stages pr ch cl m c s) ->
  match pr with PRead _ | PBlock _ _ | PError _ => True | _ => False end ->
  match pr' with PRead _ | PBlock _ _ | PError _ | PMac _ => True | _ => False end ->
  still pr = bs' ++ still pr' -> script_end pr' = Some o ->
  ch' = ch ++ map inl bs' ++ error_sent pr' o -> healthy total s0 o (mk_stages pr' ch' cl m c s).
Proof.
  intros Hh Hp Hp' Hst He ->. assert (c = CRange) as -> by (by eapply healthy_ranging).
  eapply (healthy_producer _ _ _ _ _ _ _ bs'); [exact Hh|done|by left|]. intros bs -> -> ->.
  assert (error_sent pr o = []) as -> by (by destruct pr). rewrite app_nil_r, map_app, <- !app_assoc.
  split; [done|]. split; by destruct pr, pr'.
Qed.

Lemma sstep_healthy total s0 o g g' : is_Some (sends s0 total) -> healthy total s0 o g -> sstep g g' -> healthy total s0 o g'.
Proof.
  intros Hall Hh Hs. pose proof Hh as (sent & bs & Hsent & Ht & He & Hc). destruct Hs; healthy_cbn.
  - eapply (healthy_early _ _ _ _ _ ch _ []); [exact Hh|done|done|done|by destruct He|cbn; by rewrite app_nil_r].
  - eapply (healthy_early _ _ _ _ _ ch _ []); [exact Hh|done|done|done|by destruct He|cbn; by rewrite app_nil_r].
  - destruct He as [[= ->]|]; [|done].
    eapply (healthy_early _ _ _ _ _ ch _ []); [exact Hh|done|by destruct o|by destruct o|by destruct o|].
    destruct o; cbn; by rewrite app_nil_r.
  - assert (script_end (after_block k) = Some o) as Hk by (destruct k as [sc|[mm|e]]; cbn in *; destruct He; congruence).
    eapply (healthy_early _ _ _ _ _ ch _ [b]); [exact Hh|done|by destruct k as [sc|[mm|e]]|by destruct k as [sc|[mm|e]]|done|].
    destruct k as [sc|[mm|e]]; cbn in *; [by destruct o| |done]. by simplify_eq.
  - destruct He as [[= <-]|]; [|done]. by eapply (healthy_early _ _ _ _ _ ch _ []).
  - destruct He as [[= ->]|]; [|done]. eapply (healthy_producer _ _ _ _ _ ch _ []); [exact Hh|done|by right|].
    destruct c as [|e| |v]; [|done| |].
    + intros bs0 -> _ ->. by rewrite app_nil_r.
    + by destruct Hc as (_ & _ & _ & Hq & _).
    + by destruct Hc as (_ & _ & _ & Hq).
  - eapply (healthy_producer _ _ _ _ _ ch _ []); [exact Hh|done|by right|]. destruct c as [|e| |v]; [|done| |done].
    + intros bs0 -> -> _. by rewrite app_nil_r.
    + by destruct Hc as (_ & _ & _ & Hq & _).
  - destruct Hc as (Hb & Hm & Hcl). destruct bs as [|b0 bs]; [by destruct pr, o|]. injection Hb as <- ->.
    exists (sent ++ [b]), bs. healthy_cbn. split_and!; try done.
    + rewrite sends_app, Hsent. cbn [sends]. by rewrite H.
    + by rewrite <- app_assoc.
  - exfalso. destruct Hc as (Hb & _). destruct bs as [|b0 bs]; [by destruct pr, o|]. injection Hb as <- ->.
    rewrite <- Ht, sends_app, Hsent in Hall. healthy_cbn. cbn [sends] in Hall. rewrite H in Hall. by destruct Hall.
  - destruct Hc as (Hb & Hm & Hcl). destruct bs as [|b0 bs]; [|done]. healthy_cbn.
    exists sent, []. healthy_cbn. destruct pr, o; try done; injection Hb as -> ->; split_and!; done.
  - destruct Hc as (Hb & -> & Hcl). destruct pr; try done. healthy_cbn. destruct bs; [|done]. destruct o as [mm|]; [|done].
    exists sent, []. healthy_cbn. split_and!; try done. by eexists.
  - destruct Hc as (-> & -> & Hn & -> & Hp). exists sent, []. healthy_cbn. split_and!; try done. by destruct pr.
  - destruct Hc as (-> & [mm ->] & Hn & -> & Hp). exists sent, []. healthy_cbn. split_and!; try done. congruence.
Qed.

Lemma healthy_progress total s0 o g : healthy total s0 o g -> (forall v, sg_caller g <> CReturned v) -> exists g', sstep g g'.
Proof.
  intros (sent & bs & Hsent & Ht & He & Hc) Hr. destruct g as [pr ch cl m c s]. healthy_cbn. destruct c as [|e| |v].
  - destruct ch as [|[b|e] ch]; [|destruct (send s b) eqn:E; eexists; [by apply ss_sent|by apply ss_unsent]|eexists; apply ss_failed].
    destruct Hc as (_ & -> & ->). destruct pr as [[x sc|x oo|oo]|b k|e|mm| |]; eexists.
    + apply ss_item.
    + apply ss_last.
    + apply ss_stop.
    + apply ss_block. cbn. unfold pipelineDepth. lia.
    + apply ss_error. cbn. unfold pipelineDepth. lia.
    + apply ss_mac.
    + apply ss_close.
    + apply ss_drained.
  - destruct Hc as (_ & _ & _ & _ & Hp). destruct pr; try done; subst m; eexists; [apply ss_mac|apply ss_return_error|apply ss_return_error].
  - destruct Hc as (_ & _ & _ & _ & ->). eexists. apply ss_return.
  - by destruct (Hr v).
Qed.

Definition producer_weight (pr : producer) : nat :=
  match pr with
  | PRead sc => 3 * script_size sc + 5
  | PBlock _ (inl sc) => 3 * script_size sc + 7
  | PBlock _ (inr _) => 7
  | PError _ => 4
  | PMac _ => 2
  | PClose => 1
  | PGone => 0
  end.

Definition stages_weight (g : stages) : nat :=
  producer_weight (sg_producer g) + length (sg_blocks g) +
  match sg_caller g with CRange => 2 | CFailed _ | CFinal => 1 | CReturned _ => 0 end.

Lemma sstep_weight g g' : sstep g g' -> (stages_weight g' < stages_weight g)%nat.
Proof.
  destruct 1; unfold stages_weight; cbn [sg_producer sg_blocks sg_caller producer_weight script_size]; rewrite ?length_app; cbn [length]; try lia.
  - destruct o; cbn [after_loop producer_weight]; lia.
  - destruct k as [sc|[m0|e]]; cbn [after_block after_loop producer_weight]; lia.
Qed.

Lemma start_healthy sc s0 : healthy (map seal (items sc)) s0 (outcome sc) (sstart sc s0).
Proof. exists [], []. unfold sstart. healthy_cbn. split_and!; try done. by left. Qed.

(** C23. Without write failures the two-stage pipeline is the sequential loop. When every
    send succeeds, no interleaving of [encryptAndStream] deadlocks, every run can be
    finished, and it returns the MAC, or the read error, after sending every block in
    order. *)
Theorem two_stage_completes (sc : script J (Mac + Er)) (s0 : St) (g : stages)
  (Hok : is_Some (sends s0 (map seal (items sc)))) (Hr : rtc sstep (sstart sc s0) g) :
  (exists g' v, rtc sstep g g' /\ sg_caller g' = CReturned v) /\
  ((forall v, sg_caller g <> CReturned v) -> exists g', sstep g g') /\
  (forall v, sg_caller g = CReturned v -> v = outcome sc /\ sends s0 (map seal (items sc)) = Some (sg_state g)).
Proof.
  assert (forall g, rtc sstep (sstart sc s0) g -> healthy (map seal (items sc)) s0 (outcome sc) g) as Hinv.
  { apply rtc_ind_r; [apply start_healthy|]. intros g1 g2 _ Hs Hh. by eapply sstep_healthy. }
  split; [|split].
  - revert Hr. induction (Wf_nat.well_founded_ltof _ stages_weight g) as [g _ IH]. intros Hr.
    destruct (sg_caller g) as [|e| |v] eqn:Ec; [| | |by exists g, v];
      (destruct (healthy_progress _ _ _ g (Hinv g Hr)) as [g1 Hs]; [by intros v; rewrite Ec|];
       destruct (IH g1 (sstep_weight _ _ Hs) (rtc_r _ _ _ Hr Hs)) as (g' & v & Hg & Hv); exists g', v; split; [by eapply rtc_l|done]).
  - intros Hn. by eapply healthy_progress; [apply Hinv|].
  - intros v Hv. destruct (Hinv g Hr) as (sent & bs & Hs & Ht & _ & Hc). rewrite Hv in Hc. destruct Hc as (-> & -> & Hst & _).
    rewrite Hst, !app_nil_r in Ht. by subst sent.
Qed.
End TwoStage.

(** ** Examples *)

#[local] Existing Instance toy_crypto.
#[local] Existing Instance toy_zstd.

Definition sample_fb : FrameBuilder := mk_fb (str "key") None.
Definition sample_send (s : list DataBlock) (b : DataBlock) : list DataBlock + error := inl (s ++ [b]).

Lemma parallel_encryption_witness :
  exists p' v, rtc (encrypt_step sample_send sample_fb 2)
    (encrypt_start 2 (chunk_script 6 sample_fb (str "mac") [] (str "hello") None toy_rng) []) p' /\ p_return p' = Some v.
Proof.
  exact (proj1 (parallel_encryption sample_send sample_fb 2 (str "mac") (str "hello") None toy_rng [] _ ltac:(lia) (rtc_refl _ _))).
Defined.

Lemma mmap_encryption_witness :
  encryptMmapSequential sample_send 5 sample_fb (str "mac") [] (str "hello") toy_rng [] =
  stream_outcome sample_send [] (fst (chunk_loop 6 sample_fb (str "hello") toy_rng)) (Ok (ComputeHMAC (str "mac") (str "hello"))).
Proof.
  exact (proj2 (proj2 (proj2 (mmap_encryption sample_send sample_fb 2 (str "mac") (str "hello") toy_rng [] _ ltac:(lia) (rtc_refl _ _))))).
Defined.

Definition collect (acc pt : bytes) : option bytes := Some (acc ++ pt).

(** One framed block, then the sentinel. *)
Definition sample_stream : bytes :=
  encode_sealed (fst (EncryptBlock (str "key") (str "data") toy_rng)) ++ replicate 16 Byte.x00 ++ str "rest".

Lemma parallel_decryption_witness :
  exists p' v, rtc (decrypt_step collect (str "key") CodecNone 2)
    (decrypt_start (fst (fst (read_blocks (S (length sample_stream)) sample_stream)))
       (snd (fst (read_blocks (S (length sample_stream)) sample_stream))) []) p' /\ p_return p' = Some v.
Proof.
  pose proof (parallel_decryption collect (str "key") CodecNone 2 [] sample_stream) as Hp.
  destruct (read_blocks (S (length sample_stream)) sample_stream) as [[bs re] rest]. cbn [fst snd].
  exact (proj1 (Hp _ ltac:(lia) (rtc_refl _ _))).
Defined.

(** A damaged block followed by a malformed stream: the runs of both loops. *)
Definition damaged_block : EncryptedBlock := mk_block (replicate 12 (zb 1)) (str "not a valid ciphertext").
Definition sample_read_error : ArchiveError := truncated "read block size".

Lemma decrypt_errors_differ_witness :
  exists p v, rtc (decrypt_step collect (str "key") CodecNone 2) (decrypt_start [damaged_block] (Some sample_read_error) []) p /\
    p_return p = Some v /\ v = inl BlockAuth /\
    snd (decryptBlocksSequential collect (str "key") CodecNone [damaged_block] (Some sample_read_error) [] None) =
      inr (Some sample_read_error).
Proof.
  destruct (pipeline_correct (open_block (str "key") CodecNone) (result_sink collect) (None : option ArchiveError) 2
    (2 * decryptPipelineDepth) None false (block_script [damaged_block] (Some sample_read_error)) [] ltac:(lia)
    ltac:(unfold decryptPipelineDepth; lia) ltac:(done) _ (rtc_refl _ _)) as ((p & v & Hr & Hv) & _).
  exists p, v. split; [exact Hr|]. split; [exact Hv|].
  refine (decrypt_errors_differ collect (str "key") CodecNone 2 [damaged_block] sample_read_error [] BlockAuth p v _ _ Hr Hv).
  - lia.
  - vm_compute. reflexivity.
Defined.

(** Six blocks to a writer that refuses them all, and to one that takes them. *)
Definition sample_script : script nat (Z + string) :=
  Item 0%nat (Item 1%nat (Item 2%nat (Item 3%nat (Item 4%nat (Last 5%nat (inl 7)))))).
Definition failing_send (s : list nat) (b : nat) : list nat + string := inr "disk full"%string.
Definition working_send (s : list nat) (b : nat) : list nat + string := inl (s ++ [b]).

(** The stuck state: four blocks queued, one in the producer's hands. *)
Definition stuck_stages : @stages nat nat (list nat) string Z :=
  mk_stages (PBlock 5%nat (inr (inl 7))) [inl 1%nat; inl 2%nat; inl 3%nat; inl 4%nat] false None (CFailed "disk full"%string) [].

Lemma two_stage_hangs_witness :
  rtc (sstep (fun x => x) failing_send) (sstart sample_script []) stuck_stages /\
  forall v, sg_caller stuck_stages <> CReturned v.
Proof.
  assert (rtc (sstep (fun x => x) failing_send) (sstart sample_script []) stuck_stages) as Hr.
  { do 2 (eapply rtc_l; [apply ss_item || (apply ss_block; cbn; unfold pipelineDepth; lia)|]; cbn [after_block app]).
    eapply rtc_l; [by eapply ss_unsent|].
    do 9 (eapply rtc_l; [apply ss_item || apply ss_last || (apply ss_block; cbn; unfold pipelineDepth; lia)|]; cbn [after_block app]).
    apply rtc_refl. }
  split; [exact Hr|].
  exact (two_stage_hangs (fun x => x) failing_send 0%nat sample_script [] "disk full"%string stuck_stages
    ltac:(unfold pipelineDepth; cbn; lia) eq_refl eq_refl Hr).
Defined.

Lemma two_stage_completes_witness :
  exists g v, rtc (sstep (fun x => x) working_send) (sstart sample_script []) g /\ sg_caller g = CReturned v.
Proof.
  exact (proj1 (two_stage_completes (fun x => x) working_send sample_script [] _ ltac:(by eexists) (rtc_refl _ _))).
Defined.
