(* ===== verification/CommandLine.v ===== *)
(** * The archive command (cmd/sarc/archive.go, stdio.go, remote.go)

    Where an archive is read from and written to, what the flags are checked for before
    anything is created, and how the output is closed after success or failure. The results
    of system calls and backends are arguments. *)

From stdpp Require Import gmap list.
From S2P Require Import Prelude Bytes IndexCodec Names IOErrors Codec Crypto Checksum Recipients Storage RangeReader S3Upload Volume Credentials SizeFlag.
Open Scope go_scope.

Inductive cmdErr :=
  | CmdErr (e : error)
  | CmdVolume (e : VolumeError)
  | CmdStorage (e : serr)
  | CmdCredential (e : credErr).

(** ** Locations *)

Definition stdioPath : bytes := str "-".

(** [None]: not a storage URL. *)
Definition remoteLocation (path : bytes) : option (result Location) :=
  if bytes_eqb path stdioPath then None else ParseLocation path.

Definition isRemote (path : bytes) : bool := match remoteLocation path with Some _ => true | None => false end.

(** [strconv.ParseBool]. *)
Definition ParseBool (v : bytes) : option bool :=
  if bool_decide (v ∈ map str ["1"; "t"; "T"; "TRUE"; "true"; "True"]) then Some true
  else if bool_decide (v ∈ map str ["0"; "f"; "F"; "FALSE"; "false"; "False"]) then Some false
  else None.

Inductive factory :=
  | FileFactory
  | S3Factory (pathStyle : bool)
  | GCSFactory
  | AzureFactory (connection account accountKey : bytes).

(** The registered factories, by the environment. The names are ASCII, where lower case is
    [lower_byte] on each byte. *)
Fixpoint register_all (fs : list (bytes * factory)) (r : @Registry factory) : result (@Registry factory) :=
  match fs with
  | [] => Ok r
  | (scheme, f) :: fs => let? r := Register (map lower_byte) scheme f r in register_all fs r
  end.

Definition storageRegistry (getenv : bytes -> bytes) : result (@Registry factory) :=
  let v := getenv (str "SARC_S3_PATH_STYLE") in
  let? pathStyle := (if bytes_eqb v [] then Ok false
                     else match ParseBool v with Some b => Ok b | None => errorf ErrOther "SARC_S3_PATH_STYLE must be true or false" end) in
  register_all [(str "file", FileFactory); (str "s3", S3Factory pathStyle); (str "gs", GCSFactory);
                (str "azblob", AzureFactory (getenv (str "AZURE_STORAGE_CONNECTION_STRING")) (getenv (str "AZURE_STORAGE_ACCOUNT"))
                                            (getenv (str "AZURE_STORAGE_KEY")))] NewRegistry.

Section Backends.
Context {B : Type} (getenv : bytes -> bytes) (make : factory -> bytes -> result B).

Definition openBackend (loc : Location) : result B :=
  let? registry := storageRegistry getenv in registry_Backend make loc registry.

End Backends.

(** ** Input *)

Section Input.
Context `{Sha : Sha256}.

Inductive archiveInput :=
  | InStdin
  | InFile (path : bytes)
  | InVolumes (vr : VolumeReader)
  | InRemote (o : object).

(** What standard input is: a terminal, or a stream; [Some] its size for a regular file. *)
Record stdin := mk_stdin { in_terminal : bool; in_data : bytes; in_regular : option Z }.

Section Open.
Context {B : Type} (getenv : bytes -> bytes) (make : factory -> bytes -> result B).
Context (backend_Open : B -> bytes -> serr + object) (std : stdin) (d : dir) (os_Open : bytes -> result unit).

Definition openRemoteInput (loc : Location) : cmdErr + archiveInput :=
  match openBackend getenv make loc with
  | Err e => inl (CmdErr e)
  | Ok backend => match backend_Open backend (loc_Key loc) with
                  | inl e => inl (CmdStorage e)
                  | inr obj => inr (InRemote obj)
                  end
  end.

Definition openArchiveInput (path : bytes) : cmdErr + archiveInput :=
  match remoteLocation path with
  | Some (Err e) => inl (CmdErr e)
  | Some (Ok loc) => openRemoteInput loc
  | None =>
      if bytes_eqb path stdioPath then
        if in_terminal std then inl (CmdErr (mk_error ErrOther "refusing to read an archive from a terminal"))
        else if IsVolumeHeader (ztake VolumeHeaderSize (in_data std)) then inr (InVolumes (NewVolumeStreamReader (in_data std)))
        else inr InStdin
      else
        match FindVolumes path d with
        | Some base => match OpenVolumes base d with
                       | inl vr => inr (InVolumes vr)
                       | inr e => inl (CmdVolume e)
                       end
        | None => match os_Open path with
                  | Err e => inl (CmdErr e)
                  | Ok _ => inr (InFile path)
                  end
        end
  end.
End Open.

(** What [Close] closes. *)
Inductive inClose := CloseStream | CloseVolumes | CloseFile.

Definition input_Close (i : archiveInput) : option inClose :=
  match i with
  | InRemote _ => Some CloseStream
  | InVolumes _ => Some CloseVolumes
  | InFile _ => Some CloseFile
  | InStdin => None
  end.

(** Random access to the input, with its size: of the object, the file or standard input.
    [stat] is the size of a regular file. *)
Inductive access := AccessObject (o : object) (size : Z) | AccessFile (path : bytes) (size : Z) | AccessStdin (size : Z).

Definition randomAccess (std : stdin) (stat : bytes -> option Z) (i : archiveInput) : option access :=
  match i with
  | InRemote o => Some (AccessObject o (obj_Size o))
  | InVolumes _ => None
  | InFile path => match stat path with Some size => Some (AccessFile path size) | None => None end
  | InStdin => match in_regular std with Some size => Some (AccessStdin size) | None => None end
  end.

End Input.

(** ** Output *)

Inductive outKind := OutRemote | OutVolumes | OutFile | OutStdout.

(** Where the archive goes, whether progress goes to standard error, and whether it was
    closed. *)
Record archiveOutput := mk_out { out_kind : outKind; out_stderr : bool; out_closed : bool }.

(** The results of the calls that create each kind of output. *)
Record creates := mk_creates {
  create_remote : Location -> result unit;
  create_volumes : bytes -> Z -> result unit;
  create_file : bytes -> result unit;
  stdout_terminal : bool
}.

Definition createArchiveOutput (c : creates) (path : bytes) (split : Z) : result archiveOutput :=
  match remoteLocation path with
  | Some (Err e) => Err e
  | Some (Ok loc) =>
      if 0 <? split then errorf ErrOther "--split cannot be used with a storage URL"
      else let? _ := create_remote c loc in Ok (mk_out OutRemote false false)
  | None =>
      if 0 <? split then
        if bytes_eqb path stdioPath then errorf ErrOther "--split needs an --output path, not stdout"
        else let? _ := create_volumes c path split in Ok (mk_out OutVolumes false false)
      else if bytes_eqb path stdioPath then
        if stdout_terminal c then errorf ErrOther "refusing to write an archive to a terminal" else Ok (mk_out OutStdout true false)
      else let? _ := create_file c path in Ok (mk_out OutFile false false)
  end.

(** The calls made on what the output wraps. *)
Inductive outCall := CallClose | CallAbort.

Definition set_closed (out : archiveOutput) : archiveOutput := mk_out (out_kind out) (out_stderr out) true.

Definition output_Close (out : archiveOutput) : list outCall * archiveOutput :=
  if out_closed out then ([], out)
  else (match out_kind out with OutStdout => [] | _ => [CallClose] end, set_closed out).

Definition closeOnError (out : archiveOutput) : list outCall * archiveOutput :=
  match out_kind out with
  | OutRemote => if out_closed out then output_Close out else ([CallAbort], set_closed out)
  | _ => output_Close out
  end.

(** [finishOutput] when the archiver succeeded, then the deferred [closeOnError]: the calls
    on the output, and whether the command succeeds. [close] is what the first [Close]
    returns. *)
Definition finish_command (archiver close : bool) (out : archiveOutput) : list outCall * bool :=
  if archiver then
    let '(calls, out) := output_Close out in
    let ok := match calls with [] => true | _ => close end in
    let '(calls', _) := closeOnError out in
    (calls ++ calls', ok)
  else
    let '(calls, _) := closeOnError out in (calls, false).

(** ** The flags *)

Record archiveFlags := mk_aflags {
  af_credentials : flags;
  flagOutput : bytes;
  flagParallel : Z;
  flagCompress : bool;
  flagNoCompress : bool;
  flagCompressLevel : Z;
  level_changed : bool;
  flagSolid : bool;
  flagSign : bytes;
  flagPreserveOwner : bool;
  flagIncremental : bool;
  flagSplit : bytes
}.

Definition compressionOptions (fl : archiveFlags) : result CompressionOptions :=
  if (flagCompressLevel fl <? MinCompressionLevel) || (MaxCompressionLevel <? flagCompressLevel fl)
  then errorf ErrOther "--compress-level out of range"
  else if flagNoCompress fl && level_changed fl then errorf ErrOther "--compress-level cannot be used with --no-compress"
  else Ok (mk_copts (if flagCompress fl then CompressionAlways else if flagNoCompress fl then CompressionNever else CompressionAuto)
             (flagCompressLevel fl) (flagSolid fl)).

Section Archive.
Context `{K : AgeKeys} {S : Type} (open : bytes -> result source).
Context (parse : bytes -> privateKey S) (parse_passphrase : bytes -> bytes -> option S) (readSecret : result bytes).

(** What is to be done once every flag was accepted. *)
Inductive archivePlan :=
  | PlanIncremental (password : bytes) (opts : list (ArchiverOption A S))
  | PlanArchive (concurrent : bool) (password : bytes) (opts : list (ArchiverOption A S)) (split : Z).

(** The checks of [runArchive] before the output is created. *)
Definition planArchive (fl : archiveFlags) : cmdErr + archivePlan :=
  match archiveCredentials open (af_credentials fl) with
  | inl e => inl (CmdCredential e)
  | inr (password, opts) =>
      match compressionOptions fl with
      | Err e => inl (CmdErr e)
      | Ok compression =>
          match (if bytes_eqb (flagSign fl) [] then Ok []
                 else match loadSigner parse parse_passphrase open readSecret (flagSign fl) with Ok s => Ok [WithSigner s] | Err e => Err e end) with
          | Err e => inl (CmdErr e)
          | Ok signing =>
              let opts := opts ++ signing ++ (if flagPreserveOwner fl then [WithPreserveOwner true] else []) ++ [WithCompression compression] in
              if isRemote (flagOutput fl) && flagIncremental fl
              then inl (CmdErr (mk_error ErrOther "--incremental needs a local --output"))
              else if flagIncremental fl then
                if bytes_eqb (flagOutput fl) stdioPath
                then inl (CmdErr (mk_error ErrOther "--incremental needs an archive file for --output"))
                else inr (PlanIncremental password opts)
              else match (if bytes_eqb (flagSplit fl) [] then Ok 0 else parseSize (flagSplit fl)) with
                   | Err e => inl (CmdErr e)
                   | Ok split => inr (PlanArchive (negb (flagParallel fl =? 1)) password opts split)
                   end
          end
      end
  end.
End Archive.
