(* ===== verification/CommandProofs.v ===== *)
(** * What the archive command leaves behind

    Over any backend that keeps the promises of the storage interface, an archive object is
    created whole or not at all. *)

From stdpp Require Import gmap list.
From S2P Require Import Prelude Bytes IndexCodec IOErrors Codec Crypto Recipients Storage LocalStore RangeReader S3Upload S3Proofs S3Writer Credentials CredentialProofs SizeFlag CommandLine.
Open Scope go_scope.

Section Upload.
Context {W : Type} `{SW : StorageWriter W} `{SL : !StorageWriterLaws W}.

(** The writes of an archiver: its buffered writer passes them on in order and stops for good
    at the first that fails. *)
Inductive archiver_writes : W -> list bytes -> bool -> W -> Prop :=
  | writes_done w : archiver_writes w [] true w
  | writes_next w p n w1 ps ok w' : sw_Write p w n true w1 -> archiver_writes w1 ps ok w' -> archiver_writes w (p :: ps) ok w'
  | writes_failed w p n w1 ps : sw_Write p w n false w1 -> archiver_writes w (p :: ps) false w1.

(** The calls that end the command; [close] is what [Close] returns. *)
Inductive output_calls (close : bool) : W -> list outCall -> W -> Prop :=
  | calls_none w : output_calls close w [] w
  | calls_close w w1 cs w' : sw_Close w close w1 -> output_calls close w1 cs w' -> output_calls close w (CallClose :: cs) w'
  | calls_abort w ok w1 cs w' : sw_Abort w ok w1 -> output_calls close w1 cs w' -> output_calls close w (CallAbort :: cs) w'.

Lemma writes_taken old w chunks ok w' : archiver_writes w chunks ok w' -> forall acc, sw_open old acc w ->
  exists taken, sw_open old (acc ++ taken) w' /\ (ok = true -> taken = concat chunks).
Proof.
  induction 1 as [w|w p n w1 ps ok w' Hw _ IH|w p n w1 ps Hw]; intros acc Ho.
  - exists []. by rewrite app_nil_r.
  - destruct (sw_open_write _ _ _ _ _ _ _ Ho Hw) as [Ho1 Ht]. rewrite (Ht eq_refl) in Ho1. destruct (IH _ Ho1) as (taken & Ho' & Hc).
    exists (p ++ taken). rewrite app_assoc. split; [done|]. intros Hok. by rewrite (Hc Hok).
  - destruct (sw_open_write _ _ _ _ _ _ _ Ho Hw) as [Ho1 _]. by exists (ztake n p).
Qed.

Lemma single_close close w w' : output_calls close w [CallClose] w' -> sw_Close w close w'.
Proof. intros H. inversion H as [|? ? ? ? Hc Hn|]; subst. by inversion Hn; subst. Qed.

Lemma single_abort close w w' : output_calls close w [CallAbort] w' -> exists ok, sw_Abort w ok w'.
Proof. intros H. inversion H as [| |? ok ? ? ? Hc Hn]; subst. exists ok. by inversion Hn; subst. Qed.

Lemma command_atomic old w chunks wrote w1 archiver close stderr calls ok w2 : sw_open old [] w -> archiver_writes w chunks wrote w1 ->
  (archiver = true -> wrote = true) -> finish_command archiver close (mk_out OutRemote stderr false) = (calls, ok) ->
  output_calls close w1 calls w2 ->
  (ok = true -> sw_object w2 = Some (concat chunks)) /\ (archiver = false -> ok = false /\ sw_object w2 = old) /\
  (sw_object w2 = old \/ sw_object w2 = Some (concat chunks)).
Proof.
  intros Ho Hw Ha Hf Hc. destruct (writes_taken _ _ _ _ _ Hw _ Ho) as (taken & Ho1 & Ht). cbn [app] in Ho1.
  destruct archiver; injection Hf as <- <-.
  - apply single_close in Hc. destruct (sw_open_close _ _ _ _ _ Ho1 Hc) as [_ Hobj]. rewrite (Ht (Ha eq_refl)) in Hobj.
    split_and!; [|done|by destruct Hobj as [?|[_ ?]]; auto]. intros ->. by destruct Hobj as [?|[? _]].
  - apply single_abort in Hc as [ok' Hc]. destruct (sw_open_abort _ _ _ _ _ Ho1 Hc) as [_ Hobj]. by split_and!; auto.
Qed.

(** C11. An archive in a storage backend appears whole or not at all. Over any backend that keeps
    the promises of the storage interface: when the command succeeds the object is all the
    archiver wrote; when the archiver fails, at a write or otherwise, the command fails and
    the object is the one that was there before; and in no case is it anything else. *)
Theorem archive_command_atomic (old : option bytes) (w : W) (chunks : list bytes) (wrote : bool) (w1 : W) (archiver close : bool)
  (stderr : bool) (calls : list outCall) (ok : bool) (w2 : W) (Ho : sw_open old [] w) (Hw : archiver_writes w chunks wrote w1)
  (Ha : archiver = true -> wrote = true) (Hf : finish_command archiver close (mk_out OutRemote stderr false) = (calls, ok))
  (Hc : output_calls close w1 calls w2) :
  (ok = true -> sw_object w2 = Some (concat chunks)) /\ (archiver = false -> ok = false /\ sw_object w2 = old) /\
  (sw_object w2 = old \/ sw_object w2 = Some (concat chunks)).
Proof. by eapply command_atomic. Qed.
End Upload.

(** The S3 backend keeps the promises, from the moment a writer is created. *)
Lemma s3_command_atomic first old chunks wrote w1 archiver close stderr calls ok w2 : MinPartSize <= first <= maxPartSize ->
  archiver_writes (SW := s3_writer first) (new_s3 old) chunks wrote w1 -> (archiver = true -> wrote = true) ->
  finish_command archiver close (mk_out OutRemote stderr false) = (calls, ok) ->
  output_calls (SW := s3_writer first) close w1 calls w2 ->
  (ok = true -> sv_object w2 = Some (concat chunks)) /\ (archiver = false -> ok = false /\ sv_object w2 = old) /\
  (sv_object w2 = old \/ sv_object w2 = Some (concat chunks)).
Proof.
  intros Hfirst Hw Ha Hf Hc. eapply (command_atomic (SL := s3_writer_laws first Hfirst)); [|done..].
  split_and!; [|done|done|done]. apply reachable_good; [done|apply reach_new].
Qed.

(** ** The flags *)

Lemma policy_defined opts : MinCompressionLevel <= co_Level opts <= MaxCompressionLevel -> exists policy, newCompressionPolicy opts = Ok policy.
Proof.
  intros Hl. unfold newCompressionPolicy, NewBlockCompressor, NewSolidCompressor, newCompressor.
  assert ((co_Level opts <? MinCompressionLevel) || (MaxCompressionLevel <? co_Level opts) = false) as -> by (apply orb_false_iff; lia).
  change ((MinCompressionLevel <? MinCompressionLevel) || (MaxCompressionLevel <? MinCompressionLevel)) with false.
  destruct (co_Mode opts), (co_Solid opts); by eexists.
Qed.

Section Plan.
Context `{K : AgeKeys} {S : Type} (open : bytes -> result source).
Context (parse : bytes -> privateKey S) (parse_passphrase : bytes -> bytes -> option S) (readSecret : result bytes).

Abbreviation load := (loadSigner parse parse_passphrase open readSecret).

(** The flags give at least one credential. *)
Lemma options_credentialed fl password opts cfg : archiveCredentials (S := S) open fl = inr (password, opts) ->
  cfg_keyFiles cfg = cfg_keyFiles (newArchiverConfig opts) -> cfg_ageRecipients cfg = cfg_ageRecipients (newArchiverConfig opts) ->
  exists creds, writer_credentials (S := S) password cfg = Some creds.
Proof.
  intros H Hk Ha. apply archiveCredentials_spec in H as (recipients & ids & fromIds & keys & Hr & Hi & Hf & Hkeys & Hout & Hne).
  unfold writer_credentials. destruct (_ && _ && _) eqn:E; [|by eexists]. exfalso. apply Hne. rewrite Hk, Ha in E. apply andb_true_iff in E as [E E3].
  apply andb_true_iff in E as [E1 E2]. apply bytes_eqb_true in E1. apply Z.eqb_eq, len_0_nil in E2, E3. unfold credential_options in Hout.
  destruct (0 <? len keys) eqn:Ek; injection Hout as -> ->; cbn in E2, E3.
  - apply map_eq_nil in E2 as ->. discriminate Ek.
  - apply app_eq_nil in E3 as [-> ->]. apply Forall2_nil_inv_r in Hf as ->. split_and!; [done| | |].
    + assert (keys = []) as -> by (apply len_0_nil; apply Z.ltb_ge in Ek; len_lia). by apply Forall2_nil_inv_r in Hkeys.
    + destruct (flagRecipients fl) as [|v vs] eqn:Ev; [done|]. rewrite <- Ev in Hr. exfalso.
      eapply parse_recipients_nonempty; [exact Hr| |done]. left. by rewrite Ev.
    + destruct (flagIdentities fl) as [|v vs] eqn:Ev; [done|]. exfalso. destruct (identity_loaded open _ _ v Hi) as (l & _ & Hl & Hsub); [by left|].
      destruct l as [|x l]; [done|]. specialize (Hsub x ltac:(by left)). by apply elem_of_nil in Hsub.
Qed.

(** Compression options that are accepted have a policy. *)
Lemma accepted_policy fl copts : compressionOptions fl = Ok copts -> exists policy, newCompressionPolicy copts = Ok policy.
Proof.
  intros Eo. apply policy_defined. unfold compressionOptions in Eo. destruct (_ || _) eqn:El; [done|]. destruct (_ && _); [done|]. apply Ok_inj in Eo as <-. cbn.
  apply orb_false_iff in El. lia.
Qed.

(** An accepted plan: the archiver's configuration is that of the credentials with the
    compression, the signer and the owner setting of the flags. *)
Lemma planArchive_config (fl : archiveFlags) (plan : archivePlan) : planArchive open parse parse_passphrase readSecret fl = inr plan ->
  exists password opts0 opts copts signer, archiveCredentials (S := S) open (af_credentials fl) = inr (password, opts0) /\
    compressionOptions fl = Ok copts /\
    (plan = PlanIncremental password opts /\ isRemote (flagOutput fl) = false /\ flagOutput fl <> stdioPath \/
     exists concurrent split, plan = PlanArchive concurrent password opts split) /\
    newArchiverConfig opts = mk_config copts (cfg_ageRecipients (newArchiverConfig opts0)) (cfg_keyFiles (newArchiverConfig opts0)) signer
      (flagPreserveOwner fl) /\
    (if bytes_eqb (flagSign fl) [] then signer = None else exists s, load (flagSign fl) = Ok s /\ signer = Some s).
Proof.
  unfold planArchive. destruct (archiveCredentials open _) as [|[password opts]] eqn:Ec; [done|].
  destruct (compressionOptions fl) as [copts|] eqn:Eo; [|done].
  assert (cfg_signer (newArchiverConfig opts) = None /\ cfg_preserveOwner (newArchiverConfig opts) = false) as [Hns Hno].
  { apply archiveCredentials_spec in Ec as (? & ? & ? & keys & _ & _ & _ & _ & Hout & _). unfold credential_options in Hout.
    by destruct (0 <? len keys); injection Hout as -> ->. }
  destruct (if bytes_eqb (flagSign fl) [] then _ else _) as [signing|] eqn:Es; [|done].
  set (all := opts ++ signing ++ (if flagPreserveOwner fl then [WithPreserveOwner true] else []) ++ [WithCompression copts]).
  intros Hplan. assert (exists signer, signing = match signer with Some s => [WithSigner s] | None => [] end /\
    if bytes_eqb (flagSign fl) [] then signer = None else exists s, load (flagSign fl) = Ok s /\ signer = Some s) as (signer & -> & Hsig).
  { destruct (bytes_eqb (flagSign fl) []); [apply Ok_inj in Es as <-; by exists None|]. destruct (load _) as [s|]; [|done].
    apply Ok_inj in Es as <-. exists (Some s). split; [done|]. by exists s. }
  exists password, opts, all, copts, signer. split; [done|]. split; [done|]. split; [|split; [|done]].
  - destruct (isRemote (flagOutput fl)) eqn:Er; cbn [andb] in Hplan; (destruct (flagIncremental fl); [|destruct (if bytes_eqb (flagSplit fl) [] then _ else _); [|done];
      injection Hplan as <-; right; by do 2 eexists]); [done|].
    destruct (bytes_eqb (flagOutput fl) stdioPath) eqn:Eb; [done|]. injection Hplan as <-. left. split_and!; [done|done|].
    intros Hz. by rewrite Hz, bytes_eqb_refl in Eb.
  - unfold all, newArchiverConfig in *. rewrite !fold_left_app.
    destruct (fold_left apply_option opts _) as [c0 a0 k0 s0 o0]. cbn in Hns, Hno. subst s0 o0. by destruct signer, (flagPreserveOwner fl).
Qed.

(** Flags that are accepted work. When the checks of [archive] pass, the archiver that is then
    created over the output gets the compression level and modes, the signer and the owner
    setting of the flags, and it is refused neither for its compression options nor for want
    of a credential: no output is created, or an old one truncated, for such flags.
    An incremental plan is never for a storage URL or standard output. *)
Theorem accepted_flags_work (fl : archiveFlags) (plan : archivePlan) (Hplan : planArchive open parse parse_passphrase readSecret fl = inr plan) :
  exists password opts, (plan = PlanIncremental password opts /\ isRemote (flagOutput fl) = false /\ flagOutput fl <> stdioPath \/
                         exists concurrent split, plan = PlanArchive concurrent password opts split) /\
    let cfg := newArchiverConfig opts in
    compressionOptions fl = Ok (cfg_compression cfg) /\
    (exists policy, newCompressionPolicy (cfg_compression cfg) = Ok policy) /\
    (exists creds, writer_credentials password cfg = Some creds) /\
    (if bytes_eqb (flagSign fl) [] then cfg_signer cfg = None
     else exists s, load (flagSign fl) = Ok s /\ cfg_signer cfg = Some s) /\
    cfg_preserveOwner cfg = flagPreserveOwner fl.
Proof.
  apply planArchive_config in Hplan as (password & opts0 & opts & copts & signer & Ec & Eo & Hp & Hcfg & Hsig).
  exists password, opts. split; [done|]. cbv zeta. rewrite Hcfg. cbn. split; [done|]. split; [|split; [by eapply options_credentialed|split; [|done]]].
  - by eapply accepted_policy.
  - destruct (bytes_eqb (flagSign fl) []); [done|]. exact Hsig.
Qed.
End Plan.


(** ** Examples *)

Definition sample_target : bytes := str "/a".
Definition sample_temp : bytes := str "/.a".
Definition sample_writer (done : bool) : localWriter := mk_lw sample_temp sample_target done.

Lemma archive_command_atomic_witness : exists w2 : localWriter * disk,
  sw_object (StorageWriter := local_writer sample_target) w2 = Some (str "new data").
Proof.
  exists (sample_writer true, os_Rename sample_temp sample_target (<[sample_temp := str "new data"]> (<[sample_temp := str "new "]>
    (<[sample_temp := []]> (<[sample_target := str "old"]> ∅))))).
  eapply (archive_command_atomic (SW := local_writer sample_target) (SL := local_writer_laws sample_temp sample_target ltac:(discriminate)) (Some (str "old"))
    (sample_writer false, <[sample_temp := []]> (<[sample_target := str "old"]> ∅)) [str "new "; str "data"] true
    (sample_writer false, <[sample_temp := str "new data"]> (<[sample_temp := str "new "]> (<[sample_temp := []]> (<[sample_target := str "old"]> ∅))))
    true true false [CallClose] true).
  - split; [reflexivity|]. split; reflexivity.
  - eapply (writes_next _ _ 4 (sample_writer false, <[sample_temp := str "new "]> (<[sample_temp := []]> (<[sample_target := str "old"]> ∅)))).
    + exists None. split; reflexivity.
    + eapply (writes_next _ _ 4); [|apply writes_done]. exists None. split; reflexivity.
  - reflexivity.
  - reflexivity.
  - eapply calls_close; [|apply calls_none]. exists true, true, true, true. reflexivity.
  - reflexivity.
Defined.

Definition sample_flags : archiveFlags :=
  mk_aflags (mk_flags (str "pass phrase") [] [] []) (str "out.sarc") 0 false false 3 false false (str "k") false false [].

Lemma accepted_flags_work_witness : exists password opts,
  planArchive (K := key_parsers) key_files (fun _ => PrivateKey tt) (fun _ _ => None) (Ok []) sample_flags = inr (PlanArchive true password opts 0) /\
  cfg_signer (newArchiverConfig opts) = Some tt.
Proof.
  destruct (accepted_flags_work (K := key_parsers) key_files (fun _ => PrivateKey tt) (fun _ _ => None) (Ok []) sample_flags
    (PlanArchive true (str "pass phrase") [WithAgeRecipients []; WithSigner tt; WithCompression (mk_copts CompressionAuto 3 false)] 0)
    eq_refl) as (password & opts & Hp & _ & _ & _ & Hs & _).
  exists password, opts. destruct Hp as [(Hp & _)|(c & split & Hp)]; [discriminate Hp|]. injection Hp as <- <- <- <-.
  split; [reflexivity|]. cbn in Hs. destruct Hs as (s & _ & Hs). by destruct s.
Defined.
