(* ===== verification/VerifyCommand.v ===== *)
(** * The verify, sign and extract commands (cmd/sarc/verify.go, signing.go, sign.go, extract.go)

    Trusted signers from flags and files, what [verify] demands of the report on an archive,
    and what the commands report. The parsers of SSH and PEM keys are those of their
    libraries. *)

From stdpp Require Import list.
From S2P Require Import Prelude Bytes IndexCodec Names IOErrors Crypto Checksum Chunker Writer Signatures Storage Volume Credentials CommandLine.
Open Scope go_scope.

(** ** Trusted signers *)

Section Verify.
Context `{SS : Ssh} `{H : Sha256}.

Record trustedSigner := mk_trusted { ts_key : pubkey; ts_label : bytes }.

(** The libraries: the next key of an authorized_keys file with its comment and what follows
    it, and the key of a PEM block by its type. *)
Context (ParseAuthorizedKey : bytes -> option (pubkey * bytes * bytes)) (pem_Decode : bytes -> option (bytes * option pubkey)).
Context (ReadFile : bytes -> result bytes).

Definition isInlinePublicKey (v : bytes) : bool := existsb (fun prefix => has_prefix prefix v) (map str ["ssh-"; "ecdsa-"; "sk-"]).

Definition labelFor (comment fallback : bytes) : bytes := if bytes_eqb comment [] then fallback else comment.

(** The loop over an authorized_keys file; [None] when the fuel runs out. *)
Fixpoint signer_loop (fuel : nat) (path : bytes) (signers : list trustedSigner) (rest : bytes) : option (result (list trustedSigner)) :=
  if len (TrimSpace rest) =? 0 then Some (Ok signers)
  else match fuel with
       | O => None
       | S fuel =>
           match ParseAuthorizedKey rest with
           | None => Some (errorf ErrOther "invalid signer public key file")
           | Some (key, comment, next) => signer_loop fuel path (signers ++ [mk_trusted key (labelFor comment path)]) next
           end
       end.

Definition parseSignerFile (path : bytes) : option (result (list trustedSigner)) :=
  match ReadFile path with
  | Err e => Some (Err e)
  | Ok contents =>
      match pem_Decode contents with
      | Some (kind, key) =>
          Some (if negb (bytes_eqb kind (str "PUBLIC KEY")) then errorf ErrOther "not a public key"
                else match key with
                     | Some key => Ok [mk_trusted key path]
                     | None => errorf ErrOther "invalid public key"
                     end)
      | None =>
          match signer_loop (length contents) path [] contents with
          | Some (Ok []) => Some (errorf ErrOther "signer public key file has no keys")
          | r => r
          end
      end
  end.

Fixpoint parse_signers (signers : list trustedSigner) (values : list bytes) : option (result (list trustedSigner)) :=
  match values with
  | [] => Some (Ok signers)
  | v :: values =>
      if isInlinePublicKey v then
        match ParseAuthorizedKey v with
        | None => Some (errorf ErrOther "invalid --signer public key")
        | Some (key, comment, _) => parse_signers (signers ++ [mk_trusted key (labelFor comment (str "inline key"))]) values
        end
      else match parseSignerFile v with
           | None => None
           | Some (Err e) => Some (Err e)
           | Some (Ok parsed) => parse_signers (signers ++ parsed) values
           end
  end.

Definition parseSigners (values : list bytes) : option (result (list trustedSigner)) := parse_signers [] values.

(** ** The command *)

(** What [reportSignature] prints. *)
Inductive signatureStatus := SigMissing | SigNone | SigInvalid | SigUnchecked | SigValid (label : bytes) | SigUntrusted.

(** The first trusted signer with the key of the report. *)
Definition find_signer (key : pubkey) (signers : list trustedSigner) : option trustedSigner :=
  List.find (fun s => bytes_eqb (pk_Marshal (ts_key s)) (pk_Marshal key)) signers.

(** The status, and whether it passes. A report of a signed archive without an error has a
    signer; without one the source would dereference nil: [None]. *)
Definition reportSignature (rep : VerifyReport) (signers : list trustedSigner) : option (signatureStatus * bool) :=
  if negb (rp_Signed rep) then Some (if 0 <? len signers then (SigMissing, false) else (SigNone, true))
  else match rp_SignatureErr rep with
       | Some _ => Some (SigInvalid, false)
       | None =>
           match rp_Signer rep with
           | None => None
           | Some key =>
               if len signers =? 0 then Some (SigUnchecked, true)
               else match find_signer key signers with
                    | Some s => Some (SigValid (ts_label s), true)
                    | None => Some (SigUntrusted, false)
                    end
           end
       end.

Inductive verifyResult := VerifyPassed | VerifyBadSigners (e : error) | VerifyUnreadable (e : ArchiveError) | VerifyChecksumFailed | VerifySignatureFailed.

(** [runVerify] on an opened input that reads [r]; [None] when it does not return. *)
Definition runVerify (fuel : nat) (flagSigners : list bytes) (r : reader) : option verifyResult :=
  match parseSigners flagSigners with
  | None => None
  | Some (Err e) => Some (VerifyBadSigners e)
  | Some (Ok signers) =>
      match VerifyArchive fuel r with
      | None => None
      | Some (IErr e) => Some (VerifyUnreadable e)
      | Some (IOk report) =>
          match reportSignature report signers with
          | None => None
          | Some (_, passed) =>
              if negb (rp_ChecksumOK report) then Some VerifyChecksumFailed
              else if passed then Some VerifyPassed else Some VerifySignatureFailed
          end
      end
  end.

(** ** Signing in place *)

Definition runSign (load : bytes -> result Signer) (flagArchive flagSigningKey : bytes) (f : bytes) : error + iores bytes :=
  if bytes_eqb flagArchive stdioPath || isRemote flagArchive then inl (mk_error ErrOther "sign rewrites the end of a local archive file")
  else match load flagSigningKey with
       | Err e => inl e
       | Ok signer => inr (SignArchiveFile f signer)
       end.
End Verify.
