(* ===== verification/VerifyProofs.v ===== *)
(** * What the verify command vouches for *)

From stdpp Require Import list.
From S2P Require Import Prelude Bytes IndexCodec Names IOErrors Crypto Checksum Chunker Writer Signatures Storage Credentials CommandLine VerifyCommand.
Open Scope go_scope.

Section Verify.
Context `{SS : Ssh} `{H : Sha256} `{HL : !Sha256Laws H} `{L : !SshLaws SS}.
Context (ParseAuthorizedKey : bytes -> option (pubkey * bytes * bytes)) (pem_Decode : bytes -> option (bytes * option pubkey)).
Context (ReadFile : bytes -> result bytes).

(** Parsing a key consumes its line. *)
Context (Hconsumes : forall b key comment rest, ParseAuthorizedKey b = Some (key, comment, rest) -> len rest < len b).

(** The loop over a file of keys ends, and adds to what it was given. *)
Lemma signer_loop_ends fuel path : forall acc rest, len rest <= Z.of_nat fuel ->
  exists r, signer_loop ParseAuthorizedKey fuel path acc rest = Some r /\ forall l, r = Ok l -> exists new, l = acc ++ new.
Proof.
  assert (forall acc : list trustedSigner, exists new, acc = acc ++ new) as Hself by (intros acc; exists []; by rewrite app_nil_r).
  induction fuel as [|fuel IH]; intros acc rest Hl; cbn [signer_loop].
  - assert (rest = []) as -> by (apply len_0_nil; len_lia). eexists. split; [done|]. intros l [= <-]. apply Hself.
  - destruct (len (TrimSpace rest) =? 0); [eexists; split; [done|]; intros l [= <-]; apply Hself|].
    destruct (ParseAuthorizedKey rest) as [[[key comment] next]|] eqn:Ep; [|eexists; split; [done|]; by intros l].
    apply Hconsumes in Ep. destruct (IH (acc ++ [mk_trusted key (labelFor comment path)]) next ltac:(lia)) as (r & -> & Hr).
    exists r. split; [done|]. intros l Hok. destruct (Hr l Hok) as [new ->]. exists ([mk_trusted key (labelFor comment path)] ++ new). by rewrite app_assoc.
Qed.

Lemma parseSignerFile_ends path : exists r, parseSignerFile ParseAuthorizedKey pem_Decode ReadFile path = Some r /\ r <> Ok [].
Proof.
  unfold parseSignerFile. destruct (ReadFile path) as [contents|]; [|by eexists].
  destruct (pem_Decode contents) as [[kind key]|].
  - destruct (negb _); [by eexists|]. destruct key; by eexists.
  - destruct (signer_loop_ends (length contents) path [] contents) as (r & -> & _); [done|]. destruct r as [[|s l]|e]; by eexists.
Qed.

Lemma parse_signers_ends values : forall acc, exists r, parse_signers ParseAuthorizedKey pem_Decode ReadFile acc values = Some r /\
  (r = Ok [] -> acc = [] /\ values = []).
Proof.
  induction values as [|v values IH]; intros acc; cbn [parse_signers]; [eexists; split; [done|]; by intros [= ->]|].
  destruct (isInlinePublicKey v).
  - destruct (ParseAuthorizedKey v) as [[[key comment] next]|]; [|by eexists]. destruct (IH (acc ++ [mk_trusted key (labelFor comment (str "inline key"))]))
      as (r & -> & Hr). eexists. split; [done|]. intros Hz. destruct (Hr Hz) as [Happ _]. by apply app_eq_nil in Happ as [_ ?].
  - destruct (parseSignerFile_ends v) as (r & -> & Hne). destruct r as [parsed|]; [|by eexists]. destruct (IH (acc ++ parsed)) as (r & -> & Hr).
    eexists. split; [done|]. intros Hz. destruct (Hr Hz) as [Happ _]. apply app_eq_nil in Happ as [_ ->]. done.
Qed.

(** The parts of an archive's bytes that verification is about. *)
Definition proper_bytes (content : bytes) : bytes := fst (splitSignatureTail content).
Definition computed_checksum (content : bytes) : bytes :=
  let proper := proper_bytes content in sha_sum (sha_write sha_init (masked (ztake (len proper - FooterSize) proper))).
Definition stored_checksum (content : bytes) : bytes :=
  let proper := proper_bytes content in ztake HMACSize (zdrop (len proper - FooterSize) proper).

Lemma verify_end_report content rep : verify_end content NewArchiveChecksum = IOk rep ->
  rp_ChecksumOK rep = bytes_eqb (computed_checksum content) (stored_checksum content) /\
  (rp_Signed rep = true -> rp_SignatureErr rep = None -> rp_Signer rep <> None).
Proof.
  unfold verify_end, computed_checksum, stored_checksum, proper_bytes. destruct (splitSignatureTail content) as [proper sig]. cbn [fst].
  destruct (_ <? _); [done|]. rewrite <- cs_after_nil, cs_Write_after, cs_Sum_after, app_nil_l.
  destruct sig as [sig|]; [|intros Hr; by inv_iok Hr]. destruct (VerifyMessage _ _); intros Hr; by inv_iok Hr.
Qed.

Lemma find_signer_spec key signers s : find_signer key signers = Some s -> s ∈ signers /\ ts_key s = key.
Proof.
  intros Hf. apply find_some in Hf as [Hin Hm]. split; [by apply list_elem_of_In|]. apply bytes_eqb_true in Hm.
  pose proof (pk_parse_marshal (ts_key s)) as H1. rewrite Hm, pk_parse_marshal in H1. by injection H1.
Qed.

(** C13. [verify] vouches only for what it checked. On any stream and any [--signer] values the
    command returns; and if it passes when signers were given, the archive was read to its
    end, its checksum is the one recomputed from its own bytes, and one of the given public
    keys, of an allowed type and size, verified a signature over that checksum. *)
Theorem verify_trusts_signers (flagSigners : list bytes) (r : reader) :
  exists v, runVerify ParseAuthorizedKey pem_Decode ReadFile (S (length (rd_pieces r) + length (concat (rd_pieces r)))) flagSigners r = Some v /\
  (v = VerifyPassed -> flagSigners <> [] ->
    let content := concat (rd_pieces r) in
    rd_end r = None /\ computed_checksum content = stored_checksum content /\
    exists signers s sig format, parseSigners ParseAuthorizedKey pem_Decode ReadFile flagSigners = Some (Ok signers) /\ s ∈ signers /\
      allowedSignatureFormats (pk_Type (ts_key s)) = Some format /\ sig_Format sig = format /\ checkRSASize (ts_key s) = Ok tt /\
      pk_Verify (ts_key s) (signedData (computed_checksum content)) sig = true).
Proof.
  unfold runVerify, parseSigners. destruct (parse_signers_ends flagSigners []) as (rs & -> & Hne). destruct rs as [signers|]; [|by eexists].
  rewrite verify_streams. destruct (rd_end r); [by eexists|]. destruct (verify_end _ _) as [rep|] eqn:Ev; [|by eexists].
  destruct (verify_end_report _ _ Ev) as [Hsum Hsigned]. pose proof (fun key => signer_is_verified _ rep key Ev) as Hsigner.
  unfold reportSignature. destruct (rp_ChecksumOK rep).
  2: { destruct (rp_Signed rep); cbn [negb]; [|destruct (0 <? len signers); by eexists].
       destruct (rp_SignatureErr rep); [by eexists|]. destruct (rp_Signer rep); [|by specialize (Hsigned eq_refl eq_refl)].
       destruct (len signers =? 0); [by eexists|]. destruct (find_signer _ _); by eexists. }
  cbn [negb]. destruct (rp_Signed rep); cbn [negb].
  2: { destruct (0 <? len signers) eqn:El; [by eexists|]. eexists. split; [done|]. intros _ Hf. exfalso.
       destruct signers as [|s signers]; [by destruct (Hne eq_refl)|]. rewrite len_cons, (proj2 (Z.ltb_lt 0 _)) in El by len_lia. done. }
  destruct (rp_SignatureErr rep); [by eexists|]. destruct (rp_Signer rep) as [key|]; [|by specialize (Hsigned eq_refl eq_refl)].
  destruct (len signers =? 0) eqn:El.
  { apply Z.eqb_eq, len_0_nil in El as ->. eexists. split; [done|]. intros _ Hf. by destruct (Hne eq_refl). }
  destruct (find_signer key signers) as [s|] eqn:Es; [|by eexists].
  eexists. split; [done|]. intros _ _. cbv zeta. split; [done|]. split; [by apply bytes_eqb_true|].
  apply find_signer_spec in Es as [Hin <-]. destruct (Hsigner _ eq_refl) as (sig & format & ? & ? & ? & ?). by exists signers, s, sig, format.
Qed.
End Verify.

(** A file of keys that ends in a comment is refused: after the last key the comment is still
    to be parsed, and has no key. *)
Lemma trailing_comment_refused `{SS : Ssh} ParseAuthorizedKey pem_Decode ReadFile path contents comment key label :
  ReadFile path = Ok contents -> pem_Decode contents = None -> (1 < length contents)%nat -> len (TrimSpace contents) <> 0 ->
  ParseAuthorizedKey contents = Some (key, label, comment) -> len (TrimSpace comment) <> 0 -> ParseAuthorizedKey comment = None ->
  parseSignerFile ParseAuthorizedKey pem_Decode ReadFile path = Some (errorf ErrOther "invalid signer public key file").
Proof.
  intros Hr Hpem Hlen Hc Hk Ht Hn. unfold parseSignerFile. rewrite Hr, Hpem. destruct contents as [|a [|b contents]]; cbn [length] in Hlen; [lia|lia|].
  cbn [length signer_loop]. apply Z.eqb_neq in Hc, Ht. by rewrite Hc, Hk, Ht, Hn.
Qed.

(** ** Examples *)

Definition toy_authorized (b : bytes) : option (@pubkey toy_ssh * bytes * bytes) :=
  match b with [] => None | _ => Some (tt, str "alice", []) end.

Lemma toy_authorized_consumes b key comment rest : toy_authorized b = Some (key, comment, rest) -> len rest < len b.
Proof. destruct b as [|c b]; [discriminate|]. cbn. intros E. injection E as _ _ <-. rewrite len_cons, len_nil. len_lia. Qed.

Lemma verify_trusts_signers_witness :
  runVerify (SS := toy_ssh) (H := toy_sha) toy_authorized (fun _ => None) (fun _ => Ok []) (S (1 + length sample_signed)) [str "ssh-key"]
    (mk_reader [sample_signed] None) = Some VerifyPassed /\
  computed_checksum (H := toy_sha) (concat [sample_signed]) = stored_checksum (concat [sample_signed]).
Proof.
  destruct (verify_trusts_signers (SS := toy_ssh) (H := toy_sha) (HL := toy_sha_laws) (L := toy_ssh_laws) toy_authorized (fun _ => None)
    (fun _ => Ok []) toy_authorized_consumes [str "ssh-key"] (mk_reader [sample_signed] None)) as (v & Hv & Hp).
  assert (v = VerifyPassed) as Hpass.
  { cbn [rd_pieces] in Hv. rewrite (app_nil_r sample_signed : concat [sample_signed] = sample_signed) in Hv.
    assert (Some v = Some VerifyPassed) as E by (rewrite <- Hv; vm_compute; reflexivity). by injection E. }
  split; [vm_compute; reflexivity|]. by destruct (Hp Hpass ltac:(discriminate)) as (_ & ? & _).
Defined.
