(* ===== verification/StreamCommand.v ===== *)
(** * The archive command with one worker (cmd/sarc/archive.go)

    With [--parallel 1] the command adds the files one after another, logs the error of a
    file that fails and goes on. This file models the loop for plain files, keeping what a
    failed file has already written, and shows that a file that fails while it is read
    damages the archive although the command succeeds. *)

From S2P Require Import Prelude Bytes IndexCodec Attributes Metadata IOErrors Inputs Directory SolidPlan Crypto Codec Checksum Frames Writer Recipients Extractor ExtractorProofs RoundTrip Archiver ArchiverProofs.
Open Scope go_scope.

Section Command.
Context `{C : Crypto} `{ZS : Zstd} `{H : Sha256} (toLower : bytes -> bytes) (policy : compressionPolicy) (rnd : nat -> rng * rng).
Context (open : bytes -> result hostFile).

(** [AddFile] of a plain file outside solid mode: its error, and what it leaves written. *)
Definition command_add (i : inputFile) (a : arch) : option (option ArchiveError * arch) :=
  let '(r0, r) := rnd (ar_seq a) in
  match addFileStreaming toLower policy open i r0 r (ar_w a) with
  | None => None
  | Some (IErr e, aw) => Some (Some e, mk_arch aw (ar_dir a) (S (ar_seq a)))
  | Some (IOk sum, aw) =>
      match addEntry aw i sum (ar_dir a) with
      | IErr e => Some (Some e, mk_arch aw (ar_dir a) (S (ar_seq a)))
      | IOk d => Some (None, mk_arch aw d (S (ar_seq a)))
      end
  end.

(** The loop of [runArchive]: the errors it logs, and what is written in the end. *)
Fixpoint command_loop (inputs : list inputFile) (a : arch) : option (list ArchiveError * arch) :=
  match inputs with
  | [] => Some ([], a)
  | i :: inputs =>
      match command_add i a with
      | None => None
      | Some (e, a) =>
          match command_loop inputs a with
          | None => None
          | Some (es, a) => Some (match e with Some e => e :: es | None => es end, a)
          end
      end
  end.

(** The command on plain files: what it logs, and its result. *)
Definition command_stream (inputs : list inputFile) (a : arch) : option (list ArchiveError * iores bytes) :=
  match command_loop inputs a with
  | None => None
  | Some (es, a) => Some (es, finishArchive rnd None a)
  end.
End Command.

Definition failing_host (p : bytes) : result hostFile :=
  if bytes_eqb p (str "bad") then Ok (mk_host (Ok (mk_info p 420 5 3 None None)) true (str "ab") (Some (mk_error ErrOther "input/output error")) None)
  else Ok (mk_host (Ok (mk_info p 420 5 3 None None)) true (str "abc") None None).

(** ** A file that fails while it is read *)

Definition plain_policy : compressionPolicy :=
  match newCompressionPolicy (mk_copts CompressionNever 3 false) with Ok p => p | Err _ => mk_policy CompressionNever false None None None end.

Definition failing_inputs : list inputFile := map (fun n => mk_input n n zero_attributes) [str "bad"; str "good"].

