(* ===== verification/ArchiveCommand.v ===== *)
(** * The archive and extract commands, end to end (cmd/sarc/archive.go, extract.go)

    From the flags and arguments of [archive] to the bytes of the archive, with the concurrent
    archiver: the credentials and options, a fresh content key sealed for them, the header,
    the files found under the arguments. And from the results of the extractor to the exit
    status of [extract]. *)

From stdpp Require Import gmap.
From S2P Require Import Prelude Bytes Names Attributes Metadata IndexCodec Chunker Directory Solid Crypto Codec Frames.
From S2P Require Import Checksum Writer Signatures Recipients IOErrors Inputs SolidPlan Extractor ExtractorLemmas.
From S2P Require Import ExtractorProofs RoundTrip Archiver ArchiverProofs SignedArchives Credentials CredentialProofs SizeFlag CommandLine CommandProofs.
Open Scope go_scope.

(** ** Creating the archive *)

Definition GenerateCEK (r : rng) : bytes := fst (draw KeySize r).

Section Create.
Context `{C : Crypto} `{AG : Age} `{SH : Sha256} {S : Type}.

(** The random source of the content key, of the recipient block and of the header. *)
Record creation := mk_creation { cr_key : rng; cr_block : rng; cr_header : rng }.

Definition newCredentialedWriter (password : bytes) (cfg : archiverConfig AG S) (r : creation) : iores ArchiveWriter :=
  match writer_credentials password cfg with
  | None => IErr (fatal ErrCodeInvalidOption "a password, key file, or age recipient is required")
  | Some creds =>
      let cek := GenerateCEK (cr_key r) in
      match SealRecipientBlock cek creds (cr_block r) with
      | Err _ => IErr (fatal ErrCodeWriteFailed "init archive writer")
      | Ok block => IOk (NewArchiveWriter cek block)
      end
  end.

Definition openArchiveWriter (password : bytes) (opts : list (ArchiverOption AG S)) (r : creation) :
  iores (ArchiveWriter * compressionPolicy * archiverConfig AG S) :=
  let cfg := newArchiverConfig opts in
  match newCompressionPolicy (cfg_compression cfg) with
  | Err _ => IErr (fatal ErrCodeInvalidOption "invalid compression options")
  | Ok policy =>
      let@ aw := newCredentialedWriter password cfg r in
      match WriteHeader 0 (cr_header r) aw with
      | Err _ => IErr (fatal ErrCodeWriteFailed "write header")
      | Ok aw => IOk (aw, policy, cfg)
      end
  end.
End Create.

Section Commands.
Context `{C : Crypto} `{ZS : Zstd} `{SH : Sha256} `{SS : Ssh} `{K : AgeKeys}.
Context (toLower : bytes -> bytes) (openKey : bytes -> result source).
Context (parse : bytes -> privateKey Signer) (parse_passphrase : bytes -> bytes -> option Signer) (readSecret : result bytes).
Context (f : fs) (walk : bytes -> list visit * bool) (openFile : bytes -> result hostFile).

(** [NewConcurrentArchiver] and [Archive] on the arguments. *)
Definition archive_concurrent (password : bytes) (opts : list (ArchiverOption A Signer)) (paths : list bytes)
  (r : creation) (rnd : nat -> rng * rng) : option (iores bytes) :=
  match openArchiveWriter password opts r with
  | IErr e => Some (IErr e)
  | IOk (aw, policy, cfg) =>
      let '(entries, _) := expandInputs f walk paths (cfg_preserveOwner cfg) in
      Archive toLower policy rnd openFile f entries (sign_with (cfg_signer cfg)) (fresh_arch aw)
  end.

(** The archive [runArchive] writes with more than one worker, [None] for flags that are
    refused or ask for something else. *)
Definition runArchive_concurrent (fl : archiveFlags) (paths : list bytes) (r : creation) (rnd : nat -> rng * rng) : option (iores bytes) :=
  match planArchive openKey parse parse_passphrase readSecret fl with
  | inr (PlanArchive true password opts _) => archive_concurrent password opts paths r rnd
  | _ => None
  end.
End Commands.

(** ** Ending the extraction *)

Inductive extractEnd :=
  | ExtractError (e : ArchiveError)
  | ExtractFailed (failed : Z)
  | ExtractDone (ok : Z).

(** The end of [runExtract], from what [Extract] returns. *)
Definition finishExtract (results : list ExtractionResult) (err : option ArchiveError) : extractEnd :=
  match err with
  | Some e => ExtractError e
  | None =>
      let ok := len (List.filter xr_OK results) in
      let failed := len (List.filter (fun r => negb (xr_OK r)) results) in
      if 0 <? failed then ExtractFailed failed else ExtractDone ok
  end.

(** ** What the walker lists can be archived *)

(** The ranges of the system's types, for every file the walker looks at. *)
Definition info_typed (info : fileInfo) : Prop :=
  - 2 ^ 63 <= fi_ModTime info < 2 ^ 63 /\ forall o, fi_Owner info = Some o -> Owner_typed o.

Definition system_typed (f : fs) (walk : bytes -> list visit * bool) : Prop :=
  (forall p info, fs_Stat f p = Ok info -> info_typed info) /\
  (forall p v info, v ∈ fst (walk p) -> v_info v = Ok info -> info_typed info) /\
  (forall p xs, fs_Xattrs f p = Ok xs -> existsb bad_xattr_name xs = false).

Section Walked.
Context (f : fs) (walk : bytes -> list visit * bool) (Hsys : system_typed f walk).

Abbreviation typed w := (Forall (fun i => Attributes_typed (in_attrs i)) (w_files w)).

Lemma unixMode_range m : 0 <= unixMode m < 2 ^ 32.
Proof.
  rewrite <- (Z.lor_ldiff_and (unixMode m) ModeMask), unixMode_mask, Z.lor_0_l.
  change ModeMask with (Z.ones 12). rewrite Z.land_ones by lia. pose proof (Z.mod_pos_bound (unixMode m) (2 ^ 12) ltac:(lia)). lia.
Qed.

Lemma add_typed w p name info : info_typed info -> typed w -> typed (add f w p name info).
Proof.
  intros [Ht Ho] Hw. unfold add. destruct (ValidEntryName name); [|done]. cbn [negb].
  destruct (add_kind f w p name info _) as [[attrs linked]|s] eqn:Ek; [|done]. destruct (add_xattrs f p name) as [xs ws].
  apply Forall_app. split; [done|]. apply Forall_singleton. pose proof (unixMode_range (fi_Mode info)).
  assert (0 <= Kind attrs < 2 ^ 8 /\ Mode attrs = unixMode (fi_Mode info) /\ ModTime attrs = fi_ModTime info /\ attr_Owner attrs = None) as (Hk & Hm & Hmt & Hown).
  { unfold add_kind in Ek. repeat case_match; try done; by simplify_eq/=. }
  unfold Attributes_typed. cbn [in_attrs Kind Mode ModTime attr_Owner]. rewrite Hm, Hmt, Hown. destruct (w_owner w); done.
Qed.

Lemma visits_typed visits : (forall v info, v ∈ visits -> v_info v = Ok info -> info_typed info) -> forall w, typed w ->
  typed (fold_left (on_visit f) visits w).
Proof.
  induction visits as [|v visits IH]; intros Hv w Hw; [done|]. cbn [fold_left]. apply IH; [intros; eapply Hv; [by right|done]|].
  unfold on_visit. destruct (v_err v); [done|]. destruct (bytes_eqb _ _); [done|]. destruct (v_info v) as [info|] eqn:Ei; [|done].
  pose proof (Hv v info ltac:(by left) Ei). destruct (_ && _); [|by apply add_typed].
  destruct (fs_Stat f _) as [info'|] eqn:Es; [|done]. apply add_typed; [|done]. by eapply (proj1 Hsys).
Qed.

Lemma expand_typed paths owner : Forall (fun i => Attributes_typed (in_attrs i)) (fst (expandInputs f walk paths owner)).
Proof.
  unfold expandInputs. cbn [fst]. set (w := mk_walker owner [] [] ∅). assert (typed w) as Hw by constructor. revert Hw. generalize w. clear w.
  induction paths as [|p paths IH]; intros w Hw; [done|]. cbn [fold_left]. apply IH. unfold expand_arg.
  destruct (fs_Stat f p) as [info|] eqn:Es; [|done]. destruct (negb _); [apply add_typed; [by eapply (proj1 Hsys)|done]|].
  pose proof (visits_typed (fst (walk p)) (fun v info => proj1 (proj2 Hsys) p v info) w Hw). destruct (walk p) as [vs failed]. by destruct failed.
Qed.

Lemma files_named files : files_ok files -> Forall (fun i => ValidEntryName (in_name i) = true) files.
Proof. induction 1 as [|files i _ IH [Hn _]]; [done|]. apply Forall_app. split; [done|by apply Forall_singleton]. Qed.

Lemma expand_input_ok paths owner : Forall input_ok (fst (expandInputs f walk paths owner)).
Proof.
  pose proof (expandInputs_files f walk paths owner (proj2 (proj2 Hsys))) as Hf. pose proof (files_named _ Hf) as Hn.
  pose proof (expand_typed paths owner) as Ht. rewrite Forall_forall in Hn, Ht. apply Forall_forall. intros i Hi.
  split; [by apply Hn|]. split; [by apply Ht|]. intros Hk. destruct (files_ok_links _ Hf i Hi Hk) as (t & Hin & <- & _). by apply Hn.
Qed.
End Walked.

(** ** The round trip *)

Lemma len_GenerateCEK r : len (GenerateCEK r) = KeySize.
Proof. unfold GenerateCEK. destruct (draw KeySize r) as [x r'] eqn:E. by apply draw_len in E. Qed.

Lemma all_extracted pubs : finishExtract (map result_of pubs) None = ExtractDone (len pubs).
Proof.
  unfold finishExtract. assert (List.filter xr_OK (map result_of pubs) = map result_of pubs /\
    List.filter (fun r => negb (xr_OK r)) (map result_of pubs) = []) as [-> ->].
  { induction pubs as [|p pubs [IH1 IH2]]; [done|]. cbn [map List.filter].
    assert (xr_OK (result_of p) = true) as -> by (by destruct p). by rewrite IH1, IH2. }
  cbn. by rewrite len_map.
Qed.

Section RoundTrip.
Context `{C : Crypto} `{CL : !CryptoLaws C} `{ZS : Zstd} `{ZL : !ZstdLaws ZS} `{SH : Sha256} `{SL : !Sha256Laws SH} `{SS : Ssh} `{K : AgeKeys}.
Context (age_nonempty : forall cek rs r blob, age_encrypt cek rs r = Ok blob -> 0 < len blob).
Context (age_opens : forall cek rs r blob ids id rc, age_encrypt cek rs r = Ok blob -> id ∈ ids ->
  identity_Recipient id = Some rc -> rc ∈ rs -> age_decrypt blob ids = AgePlain cek).
Context (toLower : bytes -> bytes) (openKey : bytes -> result source).
Context (parse : bytes -> privateKey Signer) (parse_passphrase : bytes -> bytes -> option Signer) (readSecret : result bytes).
Context (f : fs) (walk : bytes -> list visit * bool) (openFile : bytes -> result hostFile).

Lemma sealed_size cek creds r block : SealRecipientBlock cek creds r = Ok block -> len block <= MaxRecipientBlockSize.
Proof.
  unfold SealRecipientBlock, errorf. repeat (destruct (_ : bool); [done|]). destruct (wrap_passwords _ _ _) as [[ps|] r1]; [|done].
  destruct (wrap_keyfiles _ _ _) as [[ks|] r2]; [|done]. destruct (wrap_age _ _ _) as [ag|]; [|done]. cbv zeta.
  destruct (Z.ltb_spec MaxRecipientBlockSize (len (fold_left (fun b s => appendStanza b (st_kind s) (st_body s)) ag
    (fold_left (fun b s => appendStanza b (st_kind s) (st_body s)) ks (fold_left (fun b s => appendStanza b (st_kind s) (st_body s)) ps
    (le_bytes 2 (len (Passwords creds) + len (KeyFiles creds) + (if 0 <? len (AgeRecipients creds) then 1 else 0)))))))) as [|Hl]; [done|].
  intros Hb. by apply Ok_inj in Hb as <-.
Qed.

(** The credentials the writer seals the key for are those of the flags. *)
Lemma plan_credentials fl password (opts0 : list (ArchiverOption A Signer)) (cfg : archiverConfig A Signer) : archiveCredentials openKey fl = inr (password, opts0) ->
  cfg_ageRecipients cfg = cfg_ageRecipients (newArchiverConfig opts0) -> cfg_keyFiles cfg = cfg_keyFiles (newArchiverConfig opts0) ->
  writer_credentials password cfg = archive_credentials (S := Signer) openKey fl.
Proof. intros Hc Ha Hk. unfold archive_credentials. rewrite Hc. unfold writer_credentials. by rewrite Ha, Hk. Qed.

(** What opening the writer did. *)
Lemma openArchiveWriter_spec password (opts : list (ArchiverOption A Signer)) r aw policy cfg :
  openArchiveWriter password opts r = IOk (aw, policy, cfg) ->
  cfg = newArchiverConfig opts /\ newCompressionPolicy (cfg_compression cfg) = Ok policy /\
  exists creds block, writer_credentials password cfg = Some creds /\ SealRecipientBlock (GenerateCEK (cr_key r)) creds (cr_block r) = Ok block /\
    WriteHeader 0 (cr_header r) (NewArchiveWriter (GenerateCEK (cr_key r)) block) = Ok aw.
Proof.
  unfold openArchiveWriter, newCredentialedWriter. cbv zeta. destruct (newCompressionPolicy _) as [pol|] eqn:Ep; [|done].
  destruct (writer_credentials password _) as [creds|] eqn:Ec; [|done]. destruct (SealRecipientBlock _ _ _) as [block|] eqn:Es; [|done].
  destruct (WriteHeader _ _ _) as [aw'|] eqn:Ew; [|done]. intros [= <- <- <-]. split; [done|]. split; [done|]. by exists creds, block.
Qed.

End RoundTrip.

Definition command_flags : archiveFlags := mk_aflags key_flags (str "out.sarc") 0 false true 3 false false [] true false [].

Abbreviation command_run := (@runArchive_concurrent toy_crypto toy_zstd toy_sha toy_ssh key_age key_parsers (fun b => b) key_files
  (fun _ => PrivateInvalid) (fun _ _ => None) (Ok []) sample_fs (fun _ => ([], false)) sample_host command_flags [str "a"; str "b"]
  (mk_creation toy_rng toy_rng toy_rng) (fun _ => (toy_rng, toy_rng))).

Abbreviation command_unlockers := (@mk_unlock key_age (str "pass phrase") [replicate 40 (zb 7)] []).

Lemma sample_system : system_typed sample_fs (fun _ => ([], false)).
Proof.
  split_and!; [|intros p v info Hin; by apply elem_of_nil in Hin|].
  - intros p info E. cbn in E. inv_ok E. split; cbn; [lia|done].
  - intros p xs E. cbn in E. by inv_ok E.
Qed.

