(* ===== verification/ListCommand.v ===== *)
(** * Printing a listing (cmd/sarc/list.go)

    The lines [list] prints, from what [List] returned. *)

From stdpp Require Import list pretty.
From S2P Require Import Prelude Bytes IndexCodec Attributes IOErrors Inputs Float64 Credentials SizeFlag Listing.
Open Scope go_scope.

Definition formatName (r : ListResult) : bytes :=
  if lr_Kind r =? KindSymlink then lr_Filename r ++ str " -> " ++ lr_LinkTarget r
  else if lr_Kind r =? KindHardlink then lr_Filename r ++ str " => " ++ lr_LinkTarget r
  else lr_Filename r.

Definition ch (c : string) : byte := match str c with c :: _ => c | [] => zb 0 end.

(** One permission bit: the [i]-th letter of ["rwxrwxrwx"]. *)
Definition set_permission (mode : Z) (b : bytes) (i : nat) : bytes :=
  if has mode (Z.shiftl 1 (8 - Z.of_nat i)) then <[S i := nth i (str "rwxrwxrwx") (zb 0)]> b else b.

(** Setuid, setgid and sticky: the bit, the position, the letter with and without execute. *)
Definition special_bits : list (Z * nat * byte * byte) :=
  [(2048, 3%nat, ch "s", ch "S"); (1024, 6%nat, ch "s", ch "S"); (512, 9%nat, ch "t", ch "T")].

Definition set_special (mode : Z) (b : bytes) (s : Z * nat * byte * byte) : bytes :=
  let '(bit, pos, set, lone) := s in
  if has mode bit then <[pos := if bool_decide (b !! pos = Some (ch "x")) then set else lone]> b else b.

Definition formatMode (kind mode : Z) : bytes :=
  let b := str "----------" in
  let b := if kind =? KindDirectory then <[0%nat := ch "d"]> b
           else if kind =? KindSymlink then <[0%nat := ch "l"]> b else b in
  let b := fold_left (set_permission mode) (seq 0 9) b in
  fold_left (set_special mode) special_bits b.

Definition formatCodec (r : ListResult) : string := if lr_Solid r then (lr_Codec r +:+ "+solid")%string else lr_Codec r.

(** The constant 0.1 as a float64. *)
Definition minDisplayedRatio : f64 := default (mk_f64 0 0) (f64_round 1 10).

(** [%.1f]. *)
Definition one_place (x : f64) : string := let n := f64_scaled 1 x in (pretty (n / 10) +:+ "." +:+ pretty (n mod 10))%string.

Definition f64_lt (x y : f64) : bool := fl_num x * fl_den y <? fl_num y * fl_den x.

(** For stored sizes that are not negative. *)
Definition formatRatio (r : ListResult) : string :=
  if match lr_Err r with Some _ => true | None => false end || (lr_OriginalBytes r <=? 0) then "-"%string
  else
    let ratio := x ← f64_of_Z (lr_StoredBytes r); h ← f64_of_Z 100; p ← f64_mul x h; y ← f64_of_Z (lr_OriginalBytes r); f64_div p y in
    match ratio with
    | None => "+Inf%"%string
    | Some ratio => if f64_lt ratio minDisplayedRatio then ("<" +:+ one_place minDisplayedRatio +:+ "%")%string
                    else (one_place ratio +:+ "%")%string
    end.

(** The bytes of the first rune, 1 for an invalid one. *)
Definition rune_size (b : bytes) : nat :=
  let valid n := (n <=? length b)%nat && utf8_valid (take n b) in
  if valid 1%nat then 1 else if valid 2%nat then 2 else if valid 3%nat then 3 else if valid 4%nat then 4 else 1.

(** [utf8.RuneCountInString]; [skip] bytes belong to a rune already counted. *)
Fixpoint rune_count (skip : nat) (b : bytes) : nat :=
  match b with
  | [] => 0
  | _ :: t => match skip with
              | O => S (rune_count (rune_size b - 1) t)
              | S skip => rune_count skip t
              end
  end.

(** [%-*s]: padded on the right to a width counted in runes. *)
Definition pad_right (width : nat) (s : bytes) : bytes := s ++ replicate (width - rune_count 0 s) (ch " ").

Definition columns (mode name bucket codec ratio : bytes) : bytes :=
  pad_right 10 mode ++ str "  " ++ pad_right 40 name ++ str "  " ++ pad_right 12 bucket ++ str "  " ++ pad_right 11 codec ++ str "  " ++ ratio.

Definition list_row (r : ListResult) : bytes :=
  if negb (lr_Kind r =? KindRegular) then pad_right 10 (formatMode (lr_Kind r) (lr_Mode r)) ++ str "  " ++ formatName r
  else columns (formatMode (lr_Kind r) (lr_Mode r)) (formatName r) (str (lr_SizeBucket r)) (str (formatCodec r)) (str (formatRatio r)).

(** The lines of [runList], or the error [List] ended with. *)
Definition runList (results : list ListResult) (err : option ArchiveError) : ArchiveError + list bytes :=
  match err with
  | Some e => inl e
  | None =>
      inr ([columns (str "MODE") (str "FILENAME") (str "SIZE BUCKET") (str "CODEC") (str "RATIO");
            columns (str "----") (str "--------") (str "-----------") (str "-----") (str "-----")] ++
           map list_row results ++
           [[]; str (pretty (len results)) ++ str " entr" ++ (if len results =? 1 then str "y" else str "ies")])
  end.

(** ** Examples, from the program's tests *)

Example modes_format :
  map (fun km => formatMode (fst km) (snd km)) [(0, 420); (0, 2541); (0, 2468); (1, 1512); (1, 1023); (1, 1016); (2, 511); (3, 384)] =
  map str ["-rw-r--r--"; "-rwsr-xr-x"; "-rwSr--r--"; "drwxr-s---"; "drwxrwxrwt"; "drwxrwx--T"; "lrwxrwxrwx"; "-rw-------"].
Proof. reflexivity. Qed.

Example ratios_format :
  map (fun so => formatRatio (mk_list [] "" "" false (snd so) (fst so) 0 0 [] 0 None)) [(314, 1000); (1000, 1000); (300, 2000000); (0, 0)] =
  ["31.4%"; "100.0%"; "<0.1%"; "-"]%string.
Proof. vm_compute. reflexivity. Qed.

(** ** The mode column *)

(** Reading the column back: a letter stands for its bit, and a letter in the place of an
    execute bit for a special bit, in lower case with the execute bit and in upper case
    without. *)
Definition letter_bit (l : byte) (bit : Z) (c : byte) : Z := if bool_decide (c = l) then bit else 0.

Definition execute_bits (set lone : byte) (bit special : Z) (c : byte) : Z :=
  letter_bit (ch "x") bit c + letter_bit set (bit + special) c + letter_bit lone special c.

Definition read_mode (b : bytes) : option (Z * Z) :=
  match b with
  | [k; r1; w1; x1; r2; w2; x2; r3; w3; x3] =>
      Some (if bool_decide (k = ch "d") then KindDirectory else if bool_decide (k = ch "l") then KindSymlink else KindRegular,
            letter_bit (ch "r") 256 r1 + letter_bit (ch "w") 128 w1 + execute_bits (ch "s") (ch "S") 64 2048 x1 +
            letter_bit (ch "r") 32 r2 + letter_bit (ch "w") 16 w2 + execute_bits (ch "s") (ch "S") 8 1024 x2 +
            letter_bit (ch "r") 4 r3 + letter_bit (ch "w") 2 w3 + execute_bits (ch "t") (ch "T") 1 512 x3)
  | _ => None
  end.

Definition dash (set : bool) (l : byte) : byte := if set then l else ch "-".

Definition execute_letter (x special : bool) (set lone : byte) : byte :=
  if special then (if x then set else lone) else dash x (ch "x").

Lemma insert_nth (b : bytes) i (c : bool) x : (if c then <[i := x]> b else b) = <[i := if c then x else nth i b (zb 0)]> b.
Proof.
  destruct c; [done|]. destruct (decide (i < length b)%nat) as [Hi|Hi]; [|by rewrite list_insert_ge by lia].
  rewrite list_insert_id; [done|]. rewrite nth_lookup. by destruct (lookup_lt_is_Some_2 b i Hi) as [y ->].
Qed.

Lemma execute_letter_eq (x special : bool) set lone :
  (if special then if bool_decide (Some (if x then Byte.x78 else Byte.x2d) = Some Byte.x78) then set else lone else if x then Byte.x78 else Byte.x2d) =
  execute_letter x special set lone.
Proof. by destruct x, special. Qed.

(** The column in closed form. *)
Lemma formatMode_eq kind mode : formatMode kind mode =
  let h := has mode in
  [if kind =? KindDirectory then ch "d" else if kind =? KindSymlink then ch "l" else ch "-";
   dash (h 256) (ch "r"); dash (h 128) (ch "w"); execute_letter (h 64) (h 2048) (ch "s") (ch "S");
   dash (h 32) (ch "r"); dash (h 16) (ch "w"); execute_letter (h 8) (h 1024) (ch "s") (ch "S");
   dash (h 4) (ch "r"); dash (h 2) (ch "w"); execute_letter (h 1) (h 512) (ch "t") (ch "T")].
Proof.
  unfold formatMode. cbv zeta. set (b0 := if kind =? KindDirectory then _ else _).
  assert (b0 = (if kind =? KindDirectory then ch "d" else if kind =? KindSymlink then ch "l" else ch "-") :: str "---------") as ->
    by (unfold b0; by destruct (kind =? KindDirectory), (kind =? KindSymlink)).
  set (k := if kind =? KindDirectory then _ else _). cbn [fold_left seq special_bits]. unfold set_permission, set_special. rewrite !insert_nth.
  cbn -[has bool_decide]. rewrite !execute_letter_eq. reflexivity.
Qed.

Lemma letter_dash set l bit : l <> ch "-" -> letter_bit l bit (dash set l) = if set then bit else 0.
Proof. intros Hl. unfold letter_bit, dash. destruct set; case_bool_decide; congruence. Qed.

Lemma execute_read x special set lone bit sbit : NoDup [set; lone; ch "x"; ch "-"] ->
  execute_bits set lone bit sbit (execute_letter x special set lone) = (if x then bit else 0) + (if special then sbit else 0).
Proof.
  intros Hd. apply NoDup_cons in Hd as [H1 Hd]. apply NoDup_cons in Hd as [H2 _].
  rewrite !not_elem_of_cons in H1. rewrite !not_elem_of_cons in H2. destruct H1 as (? & ? & ? & _), H2 as (? & ? & _).
  unfold execute_bits, letter_bit. destruct special, x; cbn [execute_letter dash]; repeat case_bool_decide; try congruence; try lia.
  all: exfalso; by vm_compute in *.
Qed.

Lemma has_testbit m n : 0 <= n -> has m (2 ^ n) = Z.testbit m n.
Proof.
  intros Hn. unfold has. assert (Z.land m (2 ^ n) = if Z.testbit m n then 2 ^ n else 0) as ->.
  { apply Z.bits_inj'. intros i Hi. rewrite Z.land_spec, Z.pow2_bits_eqb by done. destruct (Z.eqb_spec n i) as [->|Hne].
    - destruct (Z.testbit m i) eqn:E; [by rewrite Z.pow2_bits_eqb, Z.eqb_refl by done|by rewrite Z.bits_0].
    - rewrite andb_false_r. destruct (Z.testbit m n); [|by rewrite Z.bits_0]. by rewrite Z.pow2_bits_eqb, (proj2 (Z.eqb_neq _ _) Hne) by done. }
  destruct (Z.testbit m n); [|done]. pose proof (Z.pow_pos_nonneg 2 n). destruct (Z.eqb_spec (2 ^ n) 0); [lia|done].
Qed.

Lemma land_ones_succ m n : 0 <= n -> Z.land m (Z.ones (n + 1)) = Z.land m (Z.ones n) + (if has m (2 ^ n) then 2 ^ n else 0).
Proof.
  intros Hn. rewrite !Z.land_ones by lia. rewrite has_testbit by done. rewrite Z.pow_add_r by lia. change (2 ^ 1) with 2.
  rewrite Z.rem_mul_r by (try apply Z.pow_nonzero; lia). pose proof (Z.testbit_spec' m n Hn) as Hb. destruct (Z.testbit m n); cbn [Z.b2z] in Hb; lia.
Qed.

(** The mode column tells the kind and all twelve mode bits: reading it back gives the
    directory, the symbolic link or neither, and the permission, setuid, setgid and sticky
    bits. *)
Theorem mode_column_exact (kind mode : Z) :
  read_mode (formatMode kind mode) =
  Some (if kind =? KindDirectory then KindDirectory else if kind =? KindSymlink then KindSymlink else KindRegular, Z.land mode ModeMask).
Proof.
  rewrite formatMode_eq. cbv zeta. cbn [read_mode]. 
  rewrite !letter_dash by done. rewrite !execute_read by (apply (bool_decide_unpack _); by vm_compute).
  f_equal. f_equal; [by destruct (kind =? KindDirectory), (kind =? KindSymlink)|].
  change ModeMask with (Z.ones (0 + 1 + 1 + 1 + 1 + 1 + 1 + 1 + 1 + 1 + 1 + 1 + 1)). rewrite !land_ones_succ by lia.
  change (Z.ones 0) with 0. rewrite Z.land_0_r.
  repeat match goal with |- context [has mode (2 ^ ?n)] => let v := eval vm_compute in (2 ^ n) in change (2 ^ n) with v end. lia.
Qed.
