(* ===== verification/BufferedRand.v ===== *)
(** * The buffered random source (crypto/bufferedrand.go)

    The random bytes of an entry come from a ChaCha20 keystream under a random key. The cipher
    is a parameter with its documented behaviour; the file shows that the source refines
    the stream [draw] reads from: whatever the sizes of the reads, they return successive
    bytes of one sequence fixed by the seed. *)

From S2P Require Import Prelude Bytes Crypto.
Open Scope go_scope.

Definition seedSize : Z := 32.
Definition chacha20_NonceSize : Z := 12.

(** [chacha20.Cipher]: creating one fails for a key or nonce of the wrong length, and
    [XORKeyStream] panics past the end of the keystream. *)
Class Chacha20 := {
  cipher : Type;
  NewUnauthenticatedCipher : bytes -> bytes -> option cipher;
  XORKeyStream : cipher -> bytes -> option (bytes * cipher)
}.

(** The keystream has 2^32 blocks of 64 bytes. *)
Definition keystreamSize : Z := 2 ^ 38.

(** As documented: the output is as long as the input; a call on no bytes changes nothing;
    several calls behave like one on the concatenation of their inputs; and the first 256 GiB are there. *)
Class Chacha20Laws (X : Chacha20) : Prop := {
  cipher_new key nonce : len key = seedSize -> len nonce = chacha20_NonceSize ->
    exists c, NewUnauthenticatedCipher key nonce = Some c /\ forall src, len src <= keystreamSize -> exists out, XORKeyStream c src = Some out;
  xor_len c src out c' : XORKeyStream c src = Some (out, c') -> len out = len src;
  xor_nil c : XORKeyStream c [] = Some ([], c);
  xor_app c a b : XORKeyStream c (a ++ b) =
    match XORKeyStream c a with
    | None => None
    | Some (x, c) => match XORKeyStream c b with None => None | Some (y, c) => Some (x ++ y, c) end
    end
}.

Section BufferedRand.
Context `{X : Chacha20}.

Record BufferedRand := mk_br { br_stream : cipher }.

(** [entropy] is what reading the seed from the system gave. *)
Definition NewBufferedRand (entropy : result bytes) : result BufferedRand :=
  let? seed := entropy in
  match NewUnauthenticatedCipher seed (replicate (Z.to_nat chacha20_NonceSize) (zb 0)) with
  | None => errorf ErrOther "crypto/bufferedrand: new cipher"
  | Some stream => Ok (mk_br stream)
  end.

(** The buffer is cleared first, so what it held does not show. *)
Definition br_Read (br : BufferedRand) (p : bytes) : option (bytes * BufferedRand) :=
  let p := map (fun _ => zb 0) p in
  match XORKeyStream (br_stream br) p with
  | None => None
  | Some (out, stream) => Some (out, mk_br stream)
  end.

Fixpoint br_reads (br : BufferedRand) (ps : list bytes) : option (list bytes * BufferedRand) :=
  match ps with
  | [] => Some ([], br)
  | p :: ps => match br_Read br p with
               | None => None
               | Some (out, br) => match br_reads br ps with None => None | Some (outs, br) => Some (out :: outs, br) end
               end
  end.

(** ** The sequence it reads from *)

Context `{L : !Chacha20Laws X}.

Definition zeros (n : Z) : bytes := replicate (Z.to_nat n) (zb 0).

(** The bytes the source returns, each as the last of a read of all before it. *)
Definition br_at (br : BufferedRand) (i : Z) : byte :=
  match XORKeyStream (br_stream br) (zeros (i + 1)) with
  | Some (out, _) => List.last out (zb 0)
  | None => zb 0
  end.

(** [draw]'s view of a source that has returned [used] bytes. *)
Definition br_view (br : BufferedRand) (used : Z) : rng := mk_rng (br_at br) used.

Fixpoint draws (ns : list Z) (r : rng) : list bytes * rng :=
  match ns with
  | [] => ([], r)
  | n :: ns => let '(x, r) := draw n r in let '(xs, r) := draws ns r in (x :: xs, r)
  end.

Lemma clear_zeros (p : bytes) : map (fun _ => zb 0) p = zeros (len p).
Proof. unfold zeros, len. rewrite Nat2Z.id. induction p as [|c p IH]; [done|]. cbn [map length replicate]. by rewrite IH. Qed.

Lemma zeros_app a b : 0 <= a -> 0 <= b -> zeros (a + b) = zeros a ++ zeros b.
Proof. intros Ha Hb. unfold zeros. rewrite Z2Nat.inj_add by done. apply replicate_add. Qed.

Lemma len_zeros n : 0 <= n -> len (zeros n) = n.
Proof. intros Hn. unfold zeros. rewrite len_replicate, Z2Nat.id; done. Qed.

Definition long (c : cipher) : Prop := forall src, len src <= keystreamSize -> exists out, XORKeyStream c src = Some out.

Lemma last_len1 (y : bytes) d : len y = 1 -> y = [List.last y d].
Proof. destruct y as [|a [|b y]]; [done|done|]. rewrite !len_cons. len_lia. Qed.

Lemma seqZ_last n : 0 <= n -> seqZ 0 (n + 1) = seqZ 0 n ++ [n].
Proof. intros Hn. rewrite seqZ_app by lia. by rewrite Z.add_0_l. Qed.

(** A read of [n] zero bytes at the start gives the first [n] bytes of the sequence. *)
Lemma stream_prefix c n : long c -> 0 <= n -> n <= keystreamSize ->
  exists c', XORKeyStream c (zeros n) = Some (map (br_at (mk_br c)) (seqZ 0 n), c').
Proof.
  intros Hc Hn. revert n Hn. apply (natlike_ind (fun n => n <= keystreamSize -> _)).
  - intros _. destruct (Hc (zeros 0)) as [[x c'] E]; [done|]. exists c'. rewrite E. pose proof (xor_len _ _ _ _ E) as Hx. by apply len_0_nil in Hx as ->.
  - intros n Hn IH Hs. rewrite <- Z.add_1_r in *. destruct IH as [c1 E1]; [lia|]. destruct (Hc (zeros (n + 1))) as [[z c'] E]; [rewrite len_zeros; lia|].
    exists c'. pose proof E as E'. rewrite zeros_app, xor_app, E1 in E by lia. destruct (XORKeyStream c1 (zeros 1)) as [[y c2]|] eqn:E2; [|done].
    injection E as <- ->. rewrite zeros_app, xor_app, E1, E2 by lia. f_equal. f_equal. rewrite seqZ_last, map_app by done. f_equal. cbn [map].
    pose proof (xor_len _ _ _ _ E2) as Hy. change (len (zeros 1)) with 1 in Hy. rewrite (last_len1 y (zb 0) Hy). f_equal.
    unfold br_at. cbn [br_stream]. rewrite E'. rewrite (last_len1 y (zb 0) Hy). by rewrite List.last_last.
Qed.

(** A source made from [br] that has returned [used] bytes. *)
Definition after (br : BufferedRand) (used : Z) (br' : BufferedRand) : Prop :=
  exists out, XORKeyStream (br_stream br) (zeros used) = Some (out, br_stream br').

Lemma read_draw br used br1 p : long (br_stream br) -> 0 <= used -> used + len p <= keystreamSize -> after br used br1 ->
  exists br2, br_Read br1 p = Some (fst (draw (len p) (br_view br used)), br2) /\ after br (used + len p) br2.
Proof.
  intros Hl Hu Hs [out Ho]. pose proof (len_nonneg p) as Hp.
  destruct (stream_prefix (br_stream br) (used + len p) Hl) as [c2 E]; [lia|lia|]. destruct (stream_prefix (br_stream br) used Hl) as [c1 E1]; [lia|lia|].
  rewrite E1 in Ho. injection Ho as <- ->. pose proof E as E'. rewrite zeros_app, xor_app, E1 in E by lia. unfold br_Read. rewrite clear_zeros.
  destruct (XORKeyStream (br_stream br1) (zeros (len p))) as [[y c]|] eqn:E2; [|done]. injection E as Hy ->. exists (mk_br c2). split.
  - f_equal. f_equal. rewrite seqZ_app, map_app in Hy by lia. apply app_inv_head in Hy. rewrite Hy. unfold draw. cbn [fst rng_at rng_pos br_view].
    rewrite (Z.add_comm 0 used), <- fmap_add_seqZ. by rewrite <- (list_fmap_compose (Z.add used) (br_at br)).
  - by exists (map (br_at br) (seqZ 0 (used + len p))).
Qed.

Lemma reads_draws br ps : long (br_stream br) -> forall used br1, 0 <= used -> used + len (concat ps) <= keystreamSize -> after br used br1 ->
  exists br2, br_reads br1 ps = Some (fst (draws (map len ps) (br_view br used)), br2) /\ after br (used + len (concat ps)) br2.
Proof.
  intros Hl. induction ps as [|p ps IH]; intros used br1 Hu Hs Ha; cbn [concat map br_reads draws] in *.
  { exists br1. split; [done|]. change (len (@nil byte)) with 0. by rewrite Z.add_0_r. }
  rewrite len_app in *. pose proof (len_nonneg p). pose proof (len_nonneg (concat ps)).
  destruct (read_draw br used br1 p Hl Hu ltac:(lia) Ha) as (br2 & -> & Ha2). destruct (IH (used + len p) br2) as (br3 & -> & Ha3); [lia|lia|done|].
  exists br3. rewrite Z.add_assoc. split; [|done]. unfold draw. cbn [fst rng_at rng_pos br_view]. unfold br_view.
  by destruct (draws (map len ps) _).
Qed.

(** C38. The buffered source refines the stream of random bytes the encryption draws from. A source
    seeded with 32 bytes never fails, and whatever the sizes of the reads, up to 256 GiB
    in all, each read returns the next bytes of one sequence that the seed fixes,
    independent of how it was split into reads and of what the buffers held. *)
Theorem buffered_reads_refine (seed : bytes) (ps : list bytes) (Hseed : len seed = seedSize) (Hsize : len (concat ps) <= keystreamSize) :
  exists br br', NewBufferedRand (Ok seed) = Ok br /\ br_reads br ps = Some (fst (draws (map len ps) (br_view br 0)), br').
Proof.
  destruct (cipher_new seed (zeros chacha20_NonceSize) Hseed) as (c & Hc & Hl); [done|]. unfold NewBufferedRand. fold (zeros chacha20_NonceSize). rewrite Hc.
  assert (after (mk_br c) 0 (mk_br c)) as H0 by (exists []; apply xor_nil).
  destruct (reads_draws (mk_br c) ps Hl 0 (mk_br c) ltac:(lia) Hsize H0) as (br' & Hr & _). by exists (mk_br c), br'.
Qed.
End BufferedRand.

(** ** A cipher with these properties *)

(** The keystream byte at a position is a function of the key; the state is the key and the
    position, which may not pass the end. *)
Definition toy_chacha : Chacha20 := {|
  cipher := bytes * Z;
  NewUnauthenticatedCipher key nonce := if (len key =? seedSize) && (len nonce =? chacha20_NonceSize) then Some (key, 0) else None;
  XORKeyStream c src :=
    if snd c + len src <=? Z.max (snd c) keystreamSize
    then Some (imap (fun i x => zb (bz x + len (fst c) + 7 * (snd c + Z.of_nat i))) src, (fst c, snd c + len src)) else None
|}.

#[local] Instance toy_chacha_laws : Chacha20Laws toy_chacha.
Proof.
  split.
  - intros key nonce Hk Hn. exists (key, 0). cbn [NewUnauthenticatedCipher toy_chacha]. rewrite Hk, Hn. split; [done|]. intros src Hs. cbn.
    rewrite (proj2 (Z.leb_le _ _)); [by eexists|]. lia.
  - intros c src out c' E. cbn in E. destruct (_ <=? _); [|done]. injection E as <- <-. unfold len. by rewrite length_imap.
  - intros [k p]. cbn. change (len (@nil byte)) with 0. rewrite Z.add_0_r, (proj2 (Z.leb_le _ _)); [done|]. lia.
  - intros [k p] a b. cbn. rewrite len_app. pose proof (len_nonneg a). pose proof (len_nonneg b).
    destruct (Z.leb_spec (p + len a) (Z.max p keystreamSize)) as [Ha|Ha]; cbn [fst snd].
    + assert ((p + (len a + len b) <=? Z.max p keystreamSize) = (p + len a + len b <=? Z.max (p + len a) keystreamSize)) as ->.
      { apply eq_true_iff_eq. rewrite !Z.leb_le. lia. }
      destruct (_ <=? _); [|done]. f_equal. f_equal; [|f_equal; lia]. rewrite imap_app. f_equal. apply imap_ext. intros i x _. cbn. f_equal. unfold len. lia.
    + rewrite (proj2 (Z.leb_gt _ _)); [done|]. lia.
Qed.

Lemma buffered_reads_refine_witness : exists br br',
  @NewBufferedRand toy_chacha (Ok (replicate 32 (zb 1))) = Ok br /\
  @br_reads toy_chacha br [str "abc"; []; str "de"] = Some (fst (draws [3; 0; 2] (@br_view toy_chacha br 0)), br').
Proof.
  exact (@buffered_reads_refine toy_chacha toy_chacha_laws (replicate 32 (zb 1)) [str "abc"; []; str "de"] eq_refl ltac:(vm_compute; discriminate)).
Defined.
