(* ===== verification/Progress.v ===== *)
(** * Progress reporting (io/progress.go)

    The console tracker: what it prints and the counters it keeps. Workers call it at the same
    time; the counters are atomic, so a run is some interleaving of the calls. *)

From stdpp Require Import list.
From S2P Require Import Prelude Bytes IndexCodec SizeFlag.
Open Scope go_scope.

(** The counters are int64 and wrap around. *)
Record Metrics := mk_metrics { FilesProcessed : Z; FilesErrored : Z; BytesProcessed : Z }.

Record ConsoleProgressBar := mk_bar { pb_w : list bytes; pb_metrics : Metrics }.

Definition NewConsoleProgressBar : ConsoleProgressBar := mk_bar [] (mk_metrics 0 0 0).

(** The calls of a [ProgressTracker], with the text of the error; the last line, with its
    elapsed time, is not among them. *)
Inductive event :=
  | FileStarted (name : bytes) (sizeBytes : Z)
  | BytesDone (n : Z)
  | FileFinished (name : bytes)
  | FileError (name err : bytes)
  | Warn (name message : bytes).

Definition warn_line (name message : bytes) : bytes :=
  if bytes_eqb name [] then str "  WARNING " ++ message else str "  WARNING " ++ name ++ str ": " ++ message.

Definition printed (e : event) : option bytes :=
  match e with
  | FileStarted name size => Some (str "  -> " ++ name ++ str " (" ++ str (FormatBytes size) ++ str ")")
  | FileError name err => Some (str "  ERROR " ++ name ++ str ": " ++ err)
  | Warn name message => Some (warn_line name message)
  | BytesDone _ | FileFinished _ => None
  end.

Definition count (e : event) (m : Metrics) : Metrics :=
  match e with
  | BytesDone n => mk_metrics (FilesProcessed m) (FilesErrored m) (i64 (BytesProcessed m + n))
  | FileFinished _ => mk_metrics (i64 (FilesProcessed m + 1)) (FilesErrored m) (BytesProcessed m)
  | FileError _ _ => mk_metrics (FilesProcessed m) (i64 (FilesErrored m + 1)) (BytesProcessed m)
  | FileStarted _ _ | Warn _ _ => m
  end.

Definition track (pb : ConsoleProgressBar) (e : event) : ConsoleProgressBar :=
  mk_bar (pb_w pb ++ match printed e with Some line => [line] | None => [] end) (count e (pb_metrics pb)).

(** A tracker that only is a [ProgressTracker] gets no warnings. *)
Definition warn (warner : bool) (name message : bytes) (pb : ConsoleProgressBar) : ConsoleProgressBar :=
  if warner then track pb (Warn name message) else pb.

(** ** Any interleaving counts the same *)

Lemma i64_add_l a b : i64 (i64 a + b) = i64 (a + b).
Proof.
  unfold i64. f_equal. replace ((a + 2 ^ 63) mod 2 ^ 64 - 2 ^ 63 + b + 2 ^ 63) with ((a + 2 ^ 63) mod 2 ^ 64 + b) by lia.
  rewrite Zplus_mod_idemp_l. f_equal. lia.
Qed.

Lemma count_comm a b m : count a (count b m) = count b (count a m).
Proof.
  destruct a, b; cbn [count FilesProcessed FilesErrored BytesProcessed]; try done; f_equal.
  rewrite !i64_add_l. f_equal. lia.
Qed.

(** However the calls of the workers interleave, the counters end the same and the same lines
    are printed, in some order. *)
Theorem tracking_interleaves (pb : ConsoleProgressBar) (es es' : list event) (Hperm : es ≡ₚ es') :
  pb_metrics (fold_left track es pb) = pb_metrics (fold_left track es' pb) /\
  pb_w (fold_left track es pb) ≡ₚ pb_w (fold_left track es' pb).
Proof.
  revert pb. induction Hperm as [|e es es' _ IH|a b es|es1 es2 es3 _ IH1 _ IH2]; intros pb; [done|apply IH| |by rewrite (proj1 (IH1 pb)), (proj2 (IH1 pb))].
  cbn [fold_left]. enough (forall pb1 pb2, pb_metrics pb1 = pb_metrics pb2 -> pb_w pb1 ≡ₚ pb_w pb2 ->
    pb_metrics (fold_left track es pb1) = pb_metrics (fold_left track es pb2) /\ pb_w (fold_left track es pb1) ≡ₚ pb_w (fold_left track es pb2)) as H.
  { apply H; cbn [track pb_metrics pb_w]; [apply count_comm|]. rewrite <- !app_assoc. apply Permutation_app_head, Permutation_app_comm. }
  clear. induction es as [|e es IH]; intros pb1 pb2 Hm Hw; [done|]. apply IH; cbn [track pb_metrics pb_w]; [by rewrite Hm|by rewrite Hw].
Qed.

Lemma tracking_interleaves_witness :
  pb_metrics (fold_left track [FileFinished (str "a"); BytesDone 5; FileError (str "b") (str "e")] NewConsoleProgressBar) = mk_metrics 1 1 5.
Proof.
  refine (eq_trans (proj1 (tracking_interleaves NewConsoleProgressBar _ [FileError (str "b") (str "e"); BytesDone 5; FileFinished (str "a")] _)) _).
  - apply (Permutation_rev [FileFinished (str "a"); BytesDone 5; FileError (str "b") (str "e")]).
  - reflexivity.
Defined.
