(* ===== verification/IncrementalCommand.v ===== *)
(** * The incremental archive command (cmd/sarc/incremental.go)

    [archive --incremental] run after run: each creates the archive or opens the existing one
    with its own flags, updates it and reports. *)

From stdpp Require Import gmap pretty.
From S2P Require Import Prelude Bytes Names Attributes Metadata IndexCodec Chunker Directory Solid Crypto Codec Frames.
From S2P Require Import Checksum Writer Signatures Recipients IOErrors Inputs SolidPlan Extractor ExtractorLemmas.
From S2P Require Import ExtractorProofs RoundTrip Archiver ArchiverProofs Incremental Sessions Updates SessionWriter SessionProofs SessionRefine StoreFile UpdateProofs.
From S2P Require Import SignedArchives Credentials CredentialProofs SizeFlag CommandLine CommandProofs ArchiveCommand.
Open Scope go_scope.

(** ** The report *)

Definition files_text (n : Z) : bytes := str (pretty n) ++ str " file(s)".

Definition printIncrementalResult (res : IncrementalResult) : list bytes :=
  let num n := str (pretty n) in
  let size n := str (FormatBytes n) in
  let repaired := if ir_Repaired res then [str "repaired the end of the archive after an interrupted update"] else [] in
  let signed := if ir_Signed res then [str "archive signed"] else [] in
  if ir_Created res then
    repaired ++ [str "created incremental archive: session 1, " ++ files_text (ir_Changed res) ++ str " (" ++ size (ir_ChangedBytes res) ++ str "), " ++
                 num (ir_NewChunks res) ++ str " chunk(s), " ++ size (ir_AppendedBytes res) ++ str " written"] ++ signed
  else if (ir_Changed res =? 0) && (ir_Deleted res =? 0) && ir_Signed res then
    repaired ++ [str "no changes since session " ++ num (ir_Session res) ++ str " (" ++ files_text (ir_Unchanged res) ++ str " unchanged); archive signed"]
  else if (ir_Changed res =? 0) && (ir_Deleted res =? 0) then
    repaired ++ [str "no changes since session " ++ num (ir_Session res) ++ str "; archive not modified (" ++ files_text (ir_Unchanged res) ++ str " unchanged)"] ++ signed
  else
    repaired ++ [str "session " ++ num (ir_Session res) ++ str ": " ++ files_text (ir_Changed res) ++ str " changed (" ++ size (ir_ChangedBytes res) ++ str "), " ++
                 num (ir_Unchanged res) ++ str " unchanged, " ++ num (ir_Deleted res) ++ str " deleted; appended " ++ size (ir_AppendedBytes res) ++
                 str " in " ++ num (ir_NewChunks res) ++ str " new chunk(s)"] ++ signed.

(** The notes on standard error. *)
Definition incremental_notes (fl : flags) (res : IncrementalResult) : list bytes :=
  (if ir_SignatureRemoved res then [str "note: the archive changed, so its signature was removed; sign it again with sarc sign or --sign"] else []) ++
  (if negb (ir_Created res) && (0 <? len (flagRecipients fl))
   then [str "note: --recipient was ignored; recipients are fixed when an incremental archive is created"] else []).

Inductive incrementalEnd :=
  | IncRefused (e : cmdErr)                                  (* flags, before the archive is touched *)
  | IncCredential (e : credErr)
  | IncError (e : ArchiveError)
  | IncDone (report notes : list bytes) (failed : Z).        (* an error when [failed] is not 0 *)

(** ** The command *)

(** What a run finds: its arguments, the file system, the time and randomness. *)
Record incRun := mk_run {
  run_paths : list bytes;
  run_fs : fs;
  run_walk : bytes -> list visit * bool;
  run_open : bytes -> result hostFile;
  run_now : Z;
  run_creation : creation;
  run_rnd : nat -> rng * rng;
  run_rseal : rng
}.

Section Command.
Context `{C : Crypto} `{ZS : Zstd} `{SH : Sha256} `{SS : Ssh} `{K : AgeKeys}.
Context (toLower : bytes -> bytes) (openKey : bytes -> result source).
Context (parse : bytes -> privateKey Signer) (parse_passphrase : bytes -> bytes -> option Signer) (readSecret : result bytes).

(** The credentials that open an existing archive. *)
Definition incremental_unlockers (fl : flags) : cres Unlockers :=
  let+ keys := readKeyFiles openKey (flagKeyFiles fl) in
  let+ identities := loadIdentities openKey (flagIdentities fl) in
  inr (mk_unlock (flagPassword fl) keys identities).

(** [sarcio.ArchiveIncremental] on the arguments: the content key is made when the archive is
    created. The result, the error and the archive file. *)
Definition archive_incremental (password : bytes) (cfg : archiverConfig A Signer) (u : Unlockers) (run : incRun) (existing : option bytes) :
  option (IncrementalResult * option ArchiveError * option bytes) :=
  let '(files, skipped) := expandInputs (run_fs run) (run_walk run) (run_paths run) (cfg_preserveOwner cfg) in
  let go cek block := ArchiveIncremental toLower (run_rnd run) (run_rseal run) (run_now run) (fs_Stat (run_fs run)) (run_open run) files skipped existing u
                        cek block (cr_header (run_creation run)) (cfg_compression cfg) (cfg_signer cfg) in
  match newCredentialedWriter password cfg (run_creation run) with
  | IOk aw => go (GenerateCEK (cr_key (run_creation run))) (aw_recipients aw)
  | IErr e =>
      if co_Solid (cfg_compression cfg) || existsb (fun s => sk_unreadable s && bytes_eqb (sk_name s) []) skipped then go [] []
      else match existing with
           | Some _ => go [] []
           | None => Some (zero_ires, Some e, None)
           end
  end.

(** [None] for flags that do not ask for an incremental archive. *)
Definition runIncremental (fl : archiveFlags) (run : incRun) (existing : option bytes) : option (incrementalEnd * option bytes) :=
  match planArchive openKey parse parse_passphrase readSecret fl with
  | inl e => Some (IncRefused e, existing)
  | inr (PlanArchive _ _ _ _) => None
  | inr (PlanIncremental password opts) =>
      match incremental_unlockers (af_credentials fl) with
      | inl e => Some (IncCredential e, existing)
      | inr u =>
          match archive_incremental password (newArchiverConfig opts) u run existing with
          | None => None
          | Some (_, Some e, f) => Some (IncError e, f)
          | Some (res, None, f) => Some (IncDone (printIncrementalResult res) (incremental_notes (af_credentials fl) res) (ir_Failed res), f)
          end
      end
  end.

(** Run after run: how each ended, and the archive after it. *)
Fixpoint run_all (fl : archiveFlags) (runs : list incRun) (existing : option bytes) : option (list (incrementalEnd * option bytes)) :=
  match runs with
  | [] => Some []
  | run :: runs =>
      match runIncremental fl run existing with
      | None => None
      | Some (e, f) => match run_all fl runs f with None => None | Some tr => Some ((e, f) :: tr) end
      end
  end.
End Command.

(** ** The same flags open the archive again *)

(** The flags hold a credential of their own, not only recipients. *)
Definition credentialed (fl : flags) : Prop := flagPassword fl <> [] \/ flagKeyFiles fl <> [] \/ flagIdentities fl <> [].

Lemma self_repeats fl : credentialed fl -> repeats fl fl.
Proof.
  intros Hc. destruct (flagIdentities fl) as [|i ids] eqn:Ei; [|apply (repeat_identity _ _ i); rewrite Ei; by left].
  destruct (flagKeyFiles fl) as [|k ks] eqn:Ek; [|apply (repeat_key _ _ k); rewrite ?Ek; auto; by left].
  destruct Hc as [Hp|[Hk|Hi]]; [by apply repeat_password| |]; congruence.
Qed.

Section Reopen.
Context `{K : AgeKeys} (openKey : bytes -> result source).

Lemma incremental_reader fl u : incremental_unlockers openKey fl = inr u -> credentialed fl -> reader_unlockers openKey fl = Some u.
Proof.
  unfold incremental_unlockers, reader_unlockers, readerOptions. intros H Hc.
  assert (bytes_eqb (flagPassword fl) [] && (len (flagKeyFiles fl) =? 0) && (len (flagIdentities fl) =? 0) = false) as ->.
  { apply not_true_is_false. intros E. apply andb_true_iff in E as [E E3]. apply andb_true_iff in E as [E1 E2].
    apply bytes_eqb_true in E1. apply Z.eqb_eq, len_0_nil in E2, E3. destruct Hc as [?|[?|?]]; congruence. }
  destruct (readKeyFiles openKey _) as [|keys]; [done|]. destruct (loadIdentities openKey _) as [|ids]; [done|]. injection H as <-. f_equal.
  unfold extractor_unlockers, newExtractorConfig.
  assert (forall {X} (l : list X), 0 < len l \/ l = []) as Hl by (intros X [|x l]; [by right|left; rewrite len_cons; len_lia]).
  destruct (Hl _ keys) as [Hk| ->], (Hl _ ids) as [Hi| ->]; rewrite ?(proj2 (Z.ltb_lt _ _) Hk), ?(proj2 (Z.ltb_lt _ _) Hi); done.
Qed.
End Reopen.

(** ** Run after run *)

Definition run_key (run : incRun) : bytes := GenerateCEK (cr_key (run_creation run)).

(** A run that did not end well. *)
Definition failed_run (e : incrementalEnd) : Prop := match e with IncDone _ _ _ => False | _ => True end.

(** The snapshots the archive goes through: each run synchronises it with what it finds, or
    fails and leaves it. *)
Inductive sync_runs (policy : compressionPolicy) (owner : bool) : list incRun -> list (incrementalEnd * option bytes) -> snapshot -> snapshot -> Prop :=
  | sync_nil snap : sync_runs policy owner [] [] snap snap
  | sync_run run runs e f tr snap snap' files skipped :
      expandInputs (run_fs run) (run_walk run) (run_paths run) owner = (files, skipped) ->
      sync_runs policy owner runs tr (synchronise policy (fs_Stat (run_fs run)) (run_open run) snap files skipped) snap' ->
      sync_runs policy owner (run :: runs) ((e, f) :: tr) snap snap'
  | sync_failed run runs e f tr snap snap' : failed_run e -> sync_runs policy owner runs tr snap snap' ->
      sync_runs policy owner (run :: runs) ((e, f) :: tr) snap snap'.

Definition final_file (existing : option bytes) (tr : list (incrementalEnd * option bytes)) : option bytes := List.last (map snd tr) existing.

Lemma final_file_cons existing e f tr : final_file existing ((e, f) :: tr) = final_file f tr.
Proof.
  unfold final_file. cbn [map snd]. destruct (map snd tr) as [|x l]; [done|]. change (List.last (f :: x :: l) existing) with (List.last (x :: l) existing).
  revert x. induction l as [|y l IH]; intros x; [done|]. apply (IH y).
Qed.

Definition small (f : option bytes) : Prop := forall b, f = Some b -> len b < 2 ^ 62.

Section Runs.
Context `{C : Crypto} `{CL : !CryptoLaws C} `{ZS : Zstd} `{ZL : !ZstdLaws ZS} `{SH : Sha256} `{SL : !Sha256Laws SH} `{SS : Ssh} `{K : AgeKeys}.
Context (age_nonempty : forall cek rs r blob, age_encrypt cek rs r = Ok blob -> 0 < len blob).
Context (age_opens : forall cek rs r blob ids id rc, age_encrypt cek rs r = Ok blob -> id ∈ ids ->
  identity_Recipient id = Some rc -> rc ∈ rs -> age_decrypt blob ids = AgePlain cek).
Context (toLower : bytes -> bytes) (openKey : bytes -> result source).
Context (parse : bytes -> privateKey Signer) (parse_passphrase : bytes -> bytes -> option Signer) (readSecret : result bytes).

Lemma update_keeps_file (run : incRun) files skipped f u cek block r copts signer res err out :
  ArchiveIncremental toLower (run_rnd run) (run_rseal run) (run_now run) (fs_Stat (run_fs run)) (run_open run) files skipped (Some f) u cek block r copts signer =
  Some (res, err, out) -> out <> None.
Proof.
  unfold ArchiveIncremental. destruct (co_Solid copts); [by intros [= _ _ <-]|]. destruct (existsb _ _); [by intros [= _ _ <-]|].
  destruct (updateIncremental _ _ _ _ _ _ _ _ _ _ _ _) as [[[res' e] f']|]; [|done]. by intros [= _ _ <-].
Qed.

(** The runs and the chunks of their files: the system's types, times, and no two chunks with
    the same identifier under a key of the runs. *)
Context (U : bytes -> Prop) (all : list incRun).

Definition run_ok (run : incRun) : Prop :=
  system_typed (run_fs run) (run_walk run) /\ - 2 ^ 63 <= run_now run < 2 ^ 63 /\
  (forall a b, U a -> U b -> ComputeHMAC (DeriveChunkIDKey (run_key run)) a = ComputeHMAC (DeriveChunkIDKey (run_key run)) b -> a = b) /\
  (forall run', run' ∈ all -> contents_ok (DeriveGearTable (run_key run')) U (run_open run)).

Section Flags.
Context (fl : archiveFlags) (u : Unlockers) (creds : Credentials) (password : bytes) (cfg : archiverConfig A Signer) (policy : compressionPolicy).
Context (Hu : incremental_unlockers openKey (af_credentials fl) = inr u) (Hown : credentialed (af_credentials fl)).
Context (Hcr : archive_credentials (S := Signer) openKey (af_credentials fl) = Some creds) (Hw : writer_credentials password cfg = Some creds).
Context (Hpol : newCompressionPolicy (cfg_compression cfg) = Ok policy).
Context (Hauth : forall run block ss s c, run ∈ all -> SealRecipientBlock (run_key run) creds (cr_block (run_creation run)) = Ok block ->
  parseRecipientBlock block = Ok ss -> s ∈ ss -> try_stanza u s = Some (Ok c) -> c = run_key run).

(** The archive was created by one of the runs and holds [snap]. *)
Definition archive_of (existing : option bytes) (snap : snapshot) : Prop :=
  match existing with
  | None => snap = ∅
  | Some f => exists run block, run ∈ all /\ run_ok run /\ SealRecipientBlock (run_key run) creds (cr_block (run_creation run)) = Ok block /\
                holds (run_key run) block U f snap
  end.

Lemma run_opens run block : run ∈ all -> SealRecipientBlock (run_key run) creds (cr_block (run_creation run)) = Ok block ->
  OpenRecipientBlock block u = Opened (run_key run).
Proof.
  intros Hin Hs. eapply (repeats_open (S := Signer) openKey age_nonempty age_opens (af_credentials fl) (af_credentials fl) creds u _ block);
    [done|by apply incremental_reader|by apply self_repeats|apply len_GenerateCEK|exact Hs|]. intros ss s c. by apply (Hauth run block).
Qed.

Lemma run_step run existing snap files skipped : run ∈ all -> run_ok run -> archive_of existing snap ->
  expandInputs (run_fs run) (run_walk run) (run_paths run) (cfg_preserveOwner cfg) = (files, skipped) ->
  exists res err out, archive_incremental toLower password cfg u run existing = Some (res, err, out) /\
    (small out -> archive_of out (synchronise policy (fs_Stat (run_fs run)) (run_open run) snap files skipped) \/ err <> None /\ archive_of out snap).
Proof.
  intros Hin Hok Ha Hex. pose proof Hok as (Hsys & Hnow & Hcf & Hcont).
  assert (Forall (fun i => Attributes_typed (in_attrs i)) files) as Hty.
  { pose proof (expand_typed (run_fs run) (run_walk run) Hsys (run_paths run) (cfg_preserveOwner cfg)) as Ht. by rewrite Hex in Ht. }
  unfold archive_incremental. rewrite Hex. unfold newCredentialedWriter. rewrite Hw. cbv zeta. fold (run_key run). destruct existing as [f|].
  - destruct Ha as (run0 & block & Hin0 & Hok0 & Hs & Hh). pose proof Hok0 as (_ & _ & Hcf0 & _).
    destruct (ArchiveIncremental_holds toLower (run_rnd run) (run_rseal run) (run_now run) Hnow (run_key run0) block (cfg_compression cfg) policy Hpol U Hcf0
      (fs_Stat (run_fs run)) (run_open run) (Hcont run0 Hin0) (Some f) snap u (cr_header (run_creation run)) files skipped (cfg_signer cfg) Hh
      (sealed_size _ _ _ _ Hs) (run_opens _ _ Hin0 Hs) Hty) as (res & err & out & Hrun & _ & Hout).
    exists res, err, out. pose proof (update_keeps_file _ _ _ _ _ _ _ _ _ _ _ _ _ Hrun) as Hsome. split.
    { destruct (SealRecipientBlock (run_key run) creds _); [exact Hrun|]. by destruct (co_Solid _ || _). }
    intros Hsm. destruct out as [f'|]; [|done]. destruct (Hout f' eq_refl (Hsm f' eq_refl)) as [Hh'|[He Hh']]; [left|right; split; [done|]]; by exists run0, block.
  - cbn in Ha. subst snap. destruct (SealRecipientBlock (run_key run) creds (cr_block (run_creation run))) as [block|] eqn:Es.
    + destruct (ArchiveIncremental_holds toLower (run_rnd run) (run_rseal run) (run_now run) Hnow (run_key run) block (cfg_compression cfg) policy Hpol U Hcf
        (fs_Stat (run_fs run)) (run_open run) (Hcont run Hin) None ∅ u (cr_header (run_creation run)) files skipped (cfg_signer cfg) eq_refl
        (sealed_size _ _ _ _ Es) (run_opens _ _ Hin Es) Hty) as (res & err & out & Hrun & Hne & Hout).
      exists res, err, out. split; [exact Hrun|]. intros Hsm. destruct out as [f'|]; [|right; split; [by intros He; apply Hne|done]].
      destruct (Hout f' eq_refl (Hsm f' eq_refl)) as [Hh'|[He Hh']]; [left|right; split; [done|]]; by exists run, block.
    + unfold ArchiveIncremental. destruct (co_Solid _); cbn [orb]; [by eexists _, _, _; split; [done|right]|].
      destruct (existsb _ skipped) eqn:Ee; eexists _, _, _; (split; [done|]); by right.
Qed.

(** All the runs, from any archive of theirs. *)
Lemma run_all_store opts : planArchive openKey parse parse_passphrase readSecret fl = inr (PlanIncremental password opts) -> cfg = newArchiverConfig opts ->
  Forall run_ok all -> forall runs existing snap, (forall run, run ∈ runs -> run ∈ all) ->
  (forall k tr, run_all toLower openKey parse parse_passphrase readSecret fl (take k runs) existing = Some tr -> Forall (fun ef => small (snd ef)) tr) ->
  archive_of existing snap ->
  exists tr snap', run_all toLower openKey parse parse_passphrase readSecret fl runs existing = Some tr /\
    sync_runs policy (cfg_preserveOwner cfg) runs tr snap snap' /\ archive_of (final_file existing tr) snap'.
Proof.
  intros Hplan Hcfg Hruns. induction runs as [|run runs IH]; intros existing snap Hsub Hsm Ha.
  { exists [], snap. split; [done|]. split; [constructor|done]. }
  destruct (expandInputs (run_fs run) (run_walk run) (run_paths run) (cfg_preserveOwner cfg)) as [files skipped] eqn:Ex.
  assert (run ∈ all) as Hin by (apply Hsub; by left).
  destruct (run_step run existing snap files skipped Hin (proj1 (Forall_forall _ _) Hruns run Hin) Ha Ex) as (res & err & out & Hstep & Hout).
  assert (exists e, runIncremental toLower openKey parse parse_passphrase readSecret fl run existing = Some (e, out) /\ (err <> None -> failed_run e)) as (e & He & Hbad).
  { unfold runIncremental. rewrite Hplan, Hu, <- Hcfg, Hstep. destruct err; by eexists. }
  assert (small out) as Hs.
  { specialize (Hsm 1%nat [(e, out)]). cbn [take run_all] in Hsm. rewrite He in Hsm. by apply Forall_singleton in Hsm. }
  assert (forall snap1, archive_of out snap1 -> exists tr snap', run_all toLower openKey parse parse_passphrase readSecret fl (run :: runs) existing = Some ((e, out) :: tr) /\
    sync_runs policy (cfg_preserveOwner cfg) runs tr snap1 snap' /\ archive_of (final_file existing ((e, out) :: tr)) snap') as Hnext.
  { intros snap1 Ha1. destruct (IH out snap1) as (tr & snap' & Hr & Hsync & Hfin); [intros; apply Hsub; by right| |done|].
    - intros k tr Hk. specialize (Hsm (S k) ((e, out) :: tr)). cbn [take run_all] in Hsm. rewrite He, Hk in Hsm. by apply Forall_cons in Hsm as [_ ?].
    - exists tr, snap'. cbn [run_all]. rewrite He, Hr, final_file_cons. done. }
  destruct (Hout Hs) as [Ha1|[Herr Ha1]]; destruct (Hnext _ Ha1) as (tr & snap' & Hr & Hsync & Hfin); exists ((e, out) :: tr), snap';
    (split; [done|]; split; [|done]); [by eapply sync_run|eapply sync_failed; eauto].
Qed.
End Flags.

End Runs.

(** ** Example: an archive is created, and updated with the same flags *)

Definition inc_flags : archiveFlags := mk_aflags key_flags (str "out.sarc") 0 false true 3 false false [] false true [].

Definition inc_fs : fs := mk_fs sample_inc_stat (fun _ => errorf ErrOther "not a link") (fun _ => Ok []).

Definition inc_run : incRun :=
  mk_run [str "a.txt"] inc_fs (fun _ => ([], false)) sample_inc_open 0 (mk_creation toy_rng toy_rng toy_rng) (fun _ => (toy_rng, toy_rng)) toy_rng.

Abbreviation inc_all runs := (@run_all toy_crypto toy_zstd toy_sha toy_ssh key_age key_parsers (fun b => b) key_files
  (fun _ => PrivateInvalid) (fun _ _ => None) (Ok []) inc_flags runs None).

Definition inc_opts : list (ArchiverOption key_age (@Signer toy_ssh)) :=
  match @planArchive key_age key_parsers (@Signer toy_ssh) key_files (fun _ => PrivateInvalid) (fun _ _ => None) (Ok []) inc_flags with
  | inr (PlanIncremental _ opts) => opts
  | _ => []
  end.

Definition trace_small (tr : option (list (incrementalEnd * option bytes))) : bool :=
  match tr with Some tr => forallb (fun ef => match snd ef with Some b => len b <? 2 ^ 62 | None => true end) tr | None => true end.

Lemma trace_small_ok x tr : trace_small x = true -> x = Some tr -> Forall (fun ef => small (snd ef)) tr.
Proof.
  intros H ->. cbn in H. apply Forall_forall. intros [e f] Hin b Hb. cbn in Hb. subst f. apply list_elem_of_In in Hin.
  apply (proj1 (forallb_forall _ _) H) in Hin. cbn in Hin. by apply Z.ltb_lt.
Qed.

Lemma inc_run_ok : @run_ok toy_crypto (fun c => c = sample_inc_text) [inc_run; inc_run] inc_run.
Proof.
  split; [|split; [|split]].
  - split_and!; [|intros p v info Hin; by apply elem_of_nil in Hin|].
    + intros p info E. cbn in E. apply Ok_inj in E as <-. split; cbn; [lia|done].
    + intros p xs E. cbn in E. by apply Ok_inj in E as <-.
  - cbn. lia.
  - by intros a b -> ->.
  - intros run' Hin. assert (run' = inc_run) as -> by (by repeat (apply elem_of_cons in Hin as [->|Hin]; [done|]); apply elem_of_nil in Hin).
    intros p f E. cbn in E. apply Ok_inj in E as <-. split; [done|]. vm_compute. by repeat constructor.
Qed.

